(* ===== verification/_CoqProject ===== *)
-Q . S2P
Prelude.v
Bytes.v
Text.v
Float.v
FloatExact.v
Net.v
NetProofs.v
Regex.v
Utils.v
Io.v
Types.v
ProxyModel.v
Negotiator.v
ProxyJson.v
Resolver.v
Parse.v
Provider.v
Judge.v
Checker.v
CheckerProofs.v
Stats.v
Pool.v
PoolProofs.v
Broker.v
BrokerProofs.v
WellFormed.v
Server.v
ServerProofs.v
Threads.v
ThreadsProofs.v
Listener.v
Connector.v
Getting.v
System.v
SystemProofs.v
SystemSerial.v
SystemLiveness.v
Persist.v
PersistProofs.v
Redis.v
RedisProofs.v
Scheduler.v
SchedulerProofs.v
Watch.v
Cli.v
Commands.v
Mcp.v
Tui.v
TuiProofs.v
