(* ===== verification/Prelude.v ===== *)
(** * Verification development for proxybroker

    [proxybroker] (the Rust crate under [src/src/]) finds public proxies, checks
    what they can do, and serves them.  This library models its code as Rocq
    definitions, file by file, and proves what makes the parts and their
    composition correct.

    ** The program

    A broker ([broker.rs]) fetches provider pages ([provider.rs]), extracts
    addresses ([parse.rs], [utils.rs]) and feeds them to a bounded number of
    concurrent checks.  A check ([checker.rs]) dials the proxy, negotiates a
    tunnel ([negotiator.rs]), asks a judge ([judge.rs]) and records the outcome
    in the proxy's record ([proxy.rs]); name resolution and the host's own
    address come from [resolver.rs], the location from [geo.rs], the summary
    from [stats.rs].  A pool ([server.rs]) leases the working proxies to the
    local server's clients ([server.rs]), to an in-process connector
    ([connector.rs]), to agent tools ([mcp.rs]) and to the dashboard
    ([tui.rs]); it is kept fresh by a re-check loop ([scheduler.rs]) and a file
    watcher ([watch.rs]), and survives restarts through a store ([persist.rs]).
    The binary ([bin/proxybroker.rs]) wires flags to these parts.

    ** The files

    Foundations, models of what the code uses of Rust's standard library:
    - [Prelude]: results, machine integers, vectors, sorting, shared tactics;
    - [Bytes], [Text]: strings as byte lists, white space, integers, UTF-8;
    - [Float], [FloatExact]: binary64, its formatting, [Duration];
    - [Net], [NetProofs]: [IpAddr] and [SocketAddr] texts and their round trip;
    - [Regex]: a leftmost-first matcher for the three literal patterns;
    - [Io]: a connection as a script of reads and writes, and its monad.

    One file, or a pair of definitions and proofs, per component:
    - [Types] for [types.rs] and [error.rs]; [Utils] for [utils.rs]; [Parse] for
      [parse.rs]; [ProxyModel] and [ProxyJson] for [proxy.rs]; [Resolver],
      [Provider] (with [geo.rs]), [Judge], [Negotiator], [Stats] for theirs;
    - [Checker], [CheckerProofs] for [checker.rs];
    - [Pool], [PoolProofs] for the pool, [Getting] for a call of [Pool::get] among
      other tasks, [Threads], [ThreadsProofs] for the pool's methods interleaved at
      their critical sections, [Server], [ServerProofs] for one client's task,
      [Listener] for the accept loop, all of [server.rs];
    - [Connector] for [connector.rs], one call on its own;
    - [System], [SystemProofs], [SystemSerial], [SystemLiveness] for the importer, all
      the clients' tasks and all the connector's calls together over one pool
      ([server.rs], [connector.rs]);
    - [Broker], [BrokerProofs] for [broker.rs]; [WellFormed] for the ranges of
      the values that flow through a run;
    - [Persist], [PersistProofs], [Redis], [RedisProofs] for [persist.rs];
    - [Scheduler], [SchedulerProofs]; [Watch]; [Mcp]; [Tui],
      [TuiProofs] for the files of these names;
    - [Cli] and [Commands] for [bin/proxybroker.rs].

    Definitions keep the source's names.  A struct is a record, an enum an
    inductive type, a method a function from the state before to the state
    after, a fallible call returns [result] or [option]; [None] also stands for
    a panic where the source can panic, and the definition says so.

    ** State and concurrency

    The tasks of the program share the pool, the store and a run's counters. Where the
    interleaving is the point, the model is a step relation and the theorems hold in
    every reachable state: the checking pipeline ([Broker.run_step]: source loop,
    permits, checks, sends, cancellation), the re-check loop ([Scheduler.sched_step]),
    the accept loop ([Listener.accept_step]), a wait for a proxy ([Getting.get_step]),
    the server's tasks and the connector's calls over their shared pool
    ([System.sys_step], built from [System.client_step] and [System.call_step]) and the
    threads inside the pool's methods ([Threads.threads_step]).  Elsewhere a task is a
    function of a script that says what happens at each of its [await] points, arbitrary
    changes of the shared state by the others included ([Pool.get], [Server.attempts],
    [Connector.turns]); [SystemSerial.every_interleaving] is the bridge for the server
    and the connector: what a task or a call does among the others is what it does under
    one of these scripts.  A call may be dropped by its caller at any of its
    suspensions.  What a task does between two [await]s is one step, except in
    [Threads], where an access to the shared state is; the bounded capacity of channels
    only delays steps and is not modelled.  Time is an argument: a deadline is an event
    that may happen at any read or write.

    ** What is proved

    - Selection and leasing: a selection is sound, complete and exactly the strategy's
      ([PoolProofs.select_correct]); each operation that moves proxies is the event its
      contract names on a ledger of pooled and leased entries
      ([PoolProofs.pool_refines_ledger]); a proxy is in one hand at a time in every
      interleaving of the server's tasks and the connector's calls
      ([SystemProofs.one_holder]); eviction is exactly the health rule. With one step
      per lock, atomic and notification, every step still keeps every proxy but those
      it is there to drop ([ThreadsProofs.threads_conserve]), no waiting call sleeps through a wake-up
      ([ThreadsProofs.threads_wake]), and a selection is of one moment
      ([ThreadsProofs.select_linearizable]).
    - The server: a client is answered once ([ServerProofs.answered_once]), is never
      served without credentials, is always let go (alone, and among any number of
      others: [SystemLiveness.all_let_go]), never sleeps through a wake-up
      ([SystemLiveness.no_lost_wakeup]), never sees a block page, and its local secret is
      not forwarded; the request parser is bounded and understands every well-formed
      SOCKS5 request; nobody is served before the pool is ready
      ([Listener.clients_wait_for_pool]).
    - Runs: bounds in every interleaving, termination (with a permit), and
      completeness of a run read to its end; gathering equals a reference and does not depend on the
      order of the providers; only well-formed proxies are ever held
      ([WellFormed.runs_well_formed]); errors surface before work starts.
    - Checks: a working verdict rests on evidence, the retry loop is exactly the
      policy, a check confirms only what was asked, levels and trust signals
      are exact.
    - Durability: three stores refine one abstract memory of the finished checks
      ([Persist.StoreLaws]; [PersistProofs], [RedisProofs]); what a run has
      checked survives it whatever happens to it ([Commands.state_survives]);
      saved files read back ([Commands.saved_then_loaded]).
    - The connector never terminates TLS, in any run
      ([SystemSerial.never_terminates_tls]), and is let go like the clients.
    - The re-check loop's books and rate, a reload of the watched file, the tools, the
      dashboard, and the warm start.

    ** Parameters

    Code outside [src/] is an argument of the definitions that use it: the DNS,
    HTTP, TLS, SOCKS and Redis clients, the JSON and YAML codecs, the MaxMind
    reader, the engine for user patterns, the inflaters, the Unicode tables,
    [powf] and [powi], random draws, the clock.  Hypotheses about them state
    documented behaviour (a codec inverts its own output, a number's text reads
    back) and each theorem that has one is applied to a concrete instance.

    ** Fuel and bounds

    Recursion that is not structural carries fuel equal to the length of the
    text it consumes (the line, white-space and address scanners), where the
    position strictly advances; lemmas show that more fuel changes nothing.
    The retry loops recurse on the attempts left.  Scripts of [await]s are
    finite; a script that ends leaves the task [Pending] or [Waiting], and the
    liveness theorems say which scripts are long enough (eight liveness probes
    per lease).  Counters have their width and wrap or saturate as in a release
    build; durations are nanoseconds with the overflow of the conversions.

    ** Not modelled

    [lib.rs] (declarations); derived and forwarding trait code ([Debug],
    [AsyncRead] and the like); argument parsing, logging and signals; socket
    binding; the TLS verifier, which accepts everything; the byte pump of an
    established tunnel; drawing in the terminal; the adapters of [rmcp],
    [hyper] and [notify].

    ** Where it can grow

    The agent tools as further steps of [System.sys_step]; the JSON text codec
    for the values the crate writes. *)

From stdpp Require Import base list gmap sorting.
From Stdlib Require Import ZArith Lia Sorted.

(** ** Scope and tactics of the development *)

Declare Scope pb_scope.
Delimit Scope pb_scope with pb.

(** Split every conjunction of booleans in the context and the goal. *)
Ltac bool_destruct :=
  repeat match goal with
  | H : (_ && _)%bool = true |- _ => apply andb_true_iff in H as [? ?]
  | H : (_ || _)%bool = false |- _ => apply orb_false_iff in H as [? ?]
  | H : negb _ = true |- _ => apply negb_true_iff in H
  | H : negb _ = false |- _ => apply negb_false_iff in H
  | H : bool_decide _ = true |- _ => apply bool_decide_eq_true in H
  | H : bool_decide _ = false |- _ => apply bool_decide_eq_false in H
  end.

(** Case split on the scrutinee of the first [match] or [if] found in the
    goal, keeping its equation. *)
Ltac split_match :=
  match goal with
  | |- context [match ?x with _ => _ end] => destruct x eqn:?
  end.

(** Case split on the scrutinee of a [match] in a hypothesis. *)
Ltac split_match_in H :=
  match type of H with
  | context [match ?x with _ => _ end] => destruct x eqn:?
  end.

Create HintDb pb.

(** ** The result type of fallible code *)

Inductive result (E A : Type) : Type :=
  | Ok (a : A)
  | Err (e : E).
Global Arguments Ok {E A} a.
Global Arguments Err {E A} e.

#[export] Instance result_eq_dec {E A} `{EqDecision E} `{EqDecision A} :
  EqDecision (result E A).
Proof. solve_decision. Defined.

Definition is_ok {E A} (r : result E A) : bool :=
  match r with Ok _ => true | Err _ => false end.

Definition ok {E A} (r : result E A) : option A :=
  match r with Ok a => Some a | Err _ => None end.

Definition ok_or {E A} (e : E) (o : option A) : result E A :=
  match o with Some a => Ok a | None => Err e end.

#[export] Instance result_ret {E} : MRet (result E) := fun A a => Ok a.
#[export] Instance result_bind {E} : MBind (result E) := fun A B k r =>
  match r with Ok a => k a | Err e => Err e end.
#[export] Instance result_fmap {E} : FMap (result E) := fun A B f r =>
  match r with Ok a => Ok (f a) | Err e => Err e end.

(** ** Machine integers: unsigned values as [N], wrapping as in a release build *)

Definition u8_max : N := 255.
Definition u16_max : N := 65535.
Definition u32_max : N := 4294967295.
Definition u64_max : N := 18446744073709551615.

Definition wrap32 (n : N) : N := (n mod 4294967296)%N.
Definition wrap64 (n : N) : N := (n mod 18446744073709551616)%N.

(** The wrapping additions of a release build. *)
Notation "a ⊞ b" := (wrap32 (a + b)%N) (at level 50, left associativity) : pb_scope.
Notation "a ⊞₆₄ b" := (wrap64 (a + b)%N) (at level 50, left associativity) : pb_scope.

Definition sat_add (max a b : N) : N := N.min max (a + b).

Lemma wrap32_small n : (n <= u32_max)%N -> wrap32 n = n.
Proof. unfold wrap32, u32_max. intros. apply N.mod_small. lia. Qed.

Lemma wrap32_range n : (wrap32 n <= u32_max)%N.
Proof. unfold wrap32, u32_max. pose proof (N.mod_lt n 4294967296). lia. Qed.

Lemma wrap64_range n : (wrap64 n <= u64_max)%N.
Proof. unfold wrap64, u64_max. pose proof (N.mod_lt n 18446744073709551616). lia. Qed.

Lemma sat_add_range max a b : (sat_add max a b <= max)%N.
Proof. unfold sat_add. lia. Qed.

#[export] Hint Resolve wrap32_range wrap64_range sat_add_range : pb.

(** ** Lists as Rust vectors *)

Section Vectors.
Context {A : Type}.
Implicit Types (l : list A).

(** [Vec::swap_remove]: the removed element is replaced by the last one. *)
Definition swap_remove (i : nat) l : option (A * list A) :=
  match l !! i, last l with
  | Some x, Some y =>
      Some (x, if decide (S i = length l) then take i l
               else take (length l - 1) (<[i := y]> l))
  | _, _ => None
  end.

(** [Vec::remove]: later elements shift left. *)
Definition vec_remove (i : nat) l : option (A * list A) :=
  match l !! i with
  | Some x => Some (x, take i l ++ drop (S i) l)
  | None => None
  end.

Lemma vec_remove_perm i l x l' :
  vec_remove i l = Some (x, l') -> l ≡ₚ x :: l'.
Proof.
  unfold vec_remove. intros H. destruct (l !! i) eqn:E; simplify_eq.
  rewrite <- (take_drop_middle l i x E) at 1. by rewrite Permutation_middle.
Qed.

Lemma swap_remove_perm i l x l' :
  swap_remove i l = Some (x, l') -> l ≡ₚ x :: l'.
Proof.
  unfold swap_remove. intros H.
  destruct (l !! i) as [z|] eqn:Ei; [|done].
  destruct (last l) as [y|] eqn:El; [|done]. simplify_eq.
  apply last_Some in El as [l0 ->].

  pose proof (lookup_lt_Some _ _ _ Ei) as Hlt.
  rewrite length_app in Hlt; cbn [length] in Hlt.
  rewrite length_app; cbn [length]. case_decide as Hi.
  - assert (i = length l0) as -> by lia.
    rewrite lookup_app_r, Nat.sub_diag in Ei by lia. simplify_eq/=.
    rewrite take_app_length. symmetry. apply Permutation_cons_append.
  - rewrite lookup_app_l in Ei by lia.
    rewrite insert_app_l by lia.
    replace (length l0 + 1 - 1) with (length (<[i:=y]> l0))
      by (rewrite length_insert; lia).
    rewrite take_app_length.
    rewrite <- (take_drop_middle l0 i x Ei) at 1.
    rewrite insert_take_drop by lia. simpl.
    rewrite <- app_assoc. simpl.
    rewrite <- Permutation_middle. constructor.
    apply Permutation_app_head. symmetry. apply Permutation_cons_append.
Qed.

Lemma swap_remove_lookup i l x l' :
  swap_remove i l = Some (x, l') -> l !! i = Some x.
Proof. unfold swap_remove. intros H. repeat (case_match; simplify_eq); done. Qed.

(** What is left: the last element in the place of the removed one. *)
Lemma swap_remove_after i l x l' :
  swap_remove i l = Some (x, l') ->
  S (length l') = length l /\
  forall j, j < length l' -> l' !! j = if decide (j = i) then last l else l !! j.
Proof.
  intros H. pose proof (swap_remove_perm _ _ _ _ H) as Hl%Permutation_length. cbn [length] in Hl.
  pose proof (swap_remove_lookup _ _ _ _ H) as Hi%lookup_lt_Some. split; [done|]. intros j Hj.
  revert H. unfold swap_remove. destruct (l !! i); [|done]. destruct (last l) as [y|] eqn:El; [|done].
  intros [= _ E]. case_decide as Hd; rewrite <-E.
  - rewrite lookup_take_lt by lia. by rewrite decide_False by lia.
  - rewrite lookup_take_lt by lia. case_decide as Hji; [subst j; by rewrite list_lookup_insert_eq|].
    by rewrite list_lookup_insert_ne.
Qed.

Lemma swap_remove_is_Some i l : i < length l -> is_Some (swap_remove i l).
Proof.
  intros Hi. unfold swap_remove.
  destruct (lookup_lt_is_Some_2 l i Hi) as [x ->].
  destruct (last l) eqn:E; [eauto|].
  apply last_None in E as ->. simpl in Hi. lia.
Qed.

Lemma vec_remove_is_Some i l : i < length l -> is_Some (vec_remove i l).
Proof.
  intros Hi. unfold vec_remove.
  destruct (lookup_lt_is_Some_2 l i Hi) as [x ->]. eauto.
Qed.

(** One element among the others, and its replacement. *)
Lemma Forall_mid (P : A -> Prop) l1 x l2 : Forall P (l1 ++ x :: l2) <-> P x /\ Forall P (l1 ++ l2).
Proof. rewrite !Forall_app, Forall_cons. tauto. Qed.

Lemma Forall_replace (P : A -> Prop) l1 x y l2 : Forall P (l1 ++ x :: l2) -> (P x -> P y) -> Forall P (l1 ++ y :: l2).
Proof. rewrite !Forall_mid. tauto. Qed.

Lemma Forall_snoc_2 (P : A -> Prop) l x : Forall P l -> P x -> Forall P (l ++ [x]).
Proof. rewrite Forall_app, Forall_singleton. tauto. Qed.

(** [Iterator::position] / [find]. *)
Fixpoint position (p : A -> bool) l : option nat :=
  match l with
  | [] => None
  | x :: l' => if p x then Some 0 else S <$> position p l'
  end.

Fixpoint find (p : A -> bool) l : option A :=
  match l with
  | [] => None
  | x :: l' => if p x then Some x else find p l'
  end.

Lemma find_Some p l x : find p l = Some x -> x ∈ l /\ p x = true.
Proof.
  induction l as [|y l IH]; simpl; [done|]. destruct (p y) eqn:E.
  - intros [= ->]. split; [left|done].
  - intros [? ?]%IH. split; [by right|done].
Qed.

Lemma find_None p l : find p l = None <-> forall x, x ∈ l -> p x = false.
Proof.
  induction l as [|y l IH]; simpl; [set_solver|]. destruct (p y) eqn:E.
  - split; [done|]. intros H. rewrite (H y) in E; [done|left].
  - rewrite IH. split; intros H x; [intros [->|?]%elem_of_cons; auto|].
    intros. apply H. by right.
Qed.

(** The first that satisfies: none before it does. *)
Lemma find_first p l x :
  find p l = Some x -> exists l1 l2, l = l1 ++ x :: l2 /\ forall y, y ∈ l1 -> p y = false.
Proof.
  induction l as [|z l IH]; simpl; [done|]. destruct (p z) eqn:E.
  - intros [= ->]. exists [], l. split; [done|set_solver].
  - intros (l1 & l2 & -> & Hl)%IH. exists (z :: l1), l2. split; [done|].
    intros y [->|Hy]%elem_of_cons; auto.
Qed.

(** [Iterator::min_by]: the first of the minimal elements. *)
Section MinBy.
Context (cmp : A -> A -> comparison).

Definition min_step (acc x : A) : A :=
  match cmp acc x with Gt => x | _ => acc end.

Definition min_by l : option A :=
  match l with
  | [] => None
  | x :: l' => Some (foldl min_step x l')
  end.

Lemma min_by_None l : min_by l = None <-> l = [].
Proof. destruct l; simpl; split; congruence. Qed.

Lemma foldl_min_in l x : foldl min_step x l ∈ x :: l.
Proof.
  revert x. induction l as [|y l IH]; intros x; simpl; [left|].
  assert (min_step x y = x \/ min_step x y = y) as Hs
    by (unfold min_step; destruct (cmp x y); auto).
  specialize (IH (min_step x y)). rewrite elem_of_cons in IH |- *.
  destruct IH as [->|IH]; [|by right; right]. rewrite elem_of_cons. tauto.
Qed.

Lemma min_by_in l x : min_by l = Some x -> x ∈ l.
Proof. destruct l; simpl; intros; simplify_eq. apply foldl_min_in. Qed.

(** The comparison refines an order: [le x y] iff it does not answer [Gt]. *)
Context (Htrans : forall x y z, cmp x y <> Gt -> cmp y z <> Gt -> cmp x z <> Gt).
Context (Htotal : forall x y, cmp x y = Gt -> cmp y x <> Gt).

Lemma cmp_refl_ne x : cmp x x <> Gt.
Proof using Htotal. intros E. exact (Htotal _ _ E E). Qed.

Lemma foldl_min_le l x y : y ∈ x :: l -> cmp (foldl min_step x l) y <> Gt.
Proof using Htrans Htotal.
  revert x y. induction l as [|z l IH]; intros x y Hy; simpl.
  { assert (y = x) as -> by set_solver. apply cmp_refl_ne. }
  destruct (cmp x z) eqn:E; unfold min_step at 2; rewrite E.
  1,2: apply elem_of_cons in Hy as [->|[->|Hy]%elem_of_cons];
       [apply IH; left
       |apply (Htrans _ x); [apply IH; left|by rewrite E]
       |apply IH; by right].
  apply elem_of_cons in Hy as [->|[->|Hy]%elem_of_cons];
    [apply (Htrans _ z); [apply IH; left|by apply Htotal]
    |apply IH; left
    |apply IH; by right].
Qed.

Lemma min_by_le l x y : min_by l = Some x -> y ∈ l -> cmp x y <> Gt.
Proof using Htrans Htotal.
  destruct l; simpl; intros; simplify_eq. by apply foldl_min_le.
Qed.

(** Those before the chosen element are strictly above it. *)
Lemma foldl_min_first l x :
  exists l1 l2, x :: l = l1 ++ foldl min_step x l :: l2 /\ forall y, y ∈ l1 -> cmp y (foldl min_step x l) = Gt.
Proof using Htrans Htotal.
  induction l as [|z l IH] using rev_ind.
  { exists [], []. split; [done|set_solver]. }
  rewrite foldl_snoc. destruct IH as (l1 & l2 & E & Hl).
  pose proof (foldl_min_le l x) as Hle. set (m := foldl min_step x l) in *.
  unfold min_step. destruct (cmp m z) eqn:Ez.
  1,2: exists l1, (l2 ++ [z]); rewrite app_comm_cons, E, <-app_assoc; by split.
  exists (x :: l), []. split; [done|]. intros y Hy.
  destruct (cmp y z) eqn:Ey; [| |done]; exfalso;
    (apply (Htrans m y z); [by apply Hle|congruence|done]).
Qed.

Lemma min_by_first l x :
  min_by l = Some x -> exists l1 l2, l = l1 ++ x :: l2 /\ forall y, y ∈ l1 -> cmp y x = Gt.
Proof using Htrans Htotal. destruct l; simpl; intros; simplify_eq. apply foldl_min_first. Qed.
End MinBy.

(** [slice::sort_by]: a stable sort (insertion before the first strictly
    greater element keeps equal elements in their order). *)
Section SortBy.
Context (cmp : A -> A -> comparison).

Fixpoint insert_sorted (x : A) l : list A :=
  match l with
  | [] => [x]
  | y :: l' => match cmp x y with
               | Gt => y :: insert_sorted x l'
               | _ => x :: l
               end
  end.

Definition sort_by l : list A := foldr insert_sorted [] l.

Lemma insert_sorted_perm x l : insert_sorted x l ≡ₚ x :: l.
Proof.
  induction l as [|y l IH]; simpl; [done|].
  destruct (cmp x y); [done|done|]. by rewrite IH, Permutation_swap.
Qed.

Lemma sort_by_perm l : sort_by l ≡ₚ l.
Proof. induction l; simpl; [done|]. rewrite insert_sorted_perm. by f_equiv. Qed.

Context (Htrans : forall x y z, cmp x y <> Gt -> cmp y z <> Gt -> cmp x z <> Gt).
Context (Htotal : forall x y, cmp x y = Gt -> cmp y x <> Gt).
Let le x y := cmp x y <> Gt.

Lemma insert_sorted_sorted x l :
  StronglySorted le l -> StronglySorted le (insert_sorted x l).
Proof using Htrans Htotal.
  induction 1 as [|y l Hs IH Hall]; simpl; [repeat constructor|].
  destruct (cmp x y) eqn:E.
  1,2: constructor; [by constructor|]; constructor; [unfold le; by rewrite E|];
       eapply Forall_impl; [exact Hall|]; intros z Hz;
       apply (Htrans _ y); [by rewrite E|exact Hz].
  constructor; [done|]. rewrite insert_sorted_perm. constructor; [|done].
  by apply Htotal.
Qed.

Lemma sort_by_sorted l : StronglySorted le (sort_by l).
Proof using Htrans Htotal.
  induction l; simpl; [constructor|]. by apply insert_sorted_sorted.
Qed.
End SortBy.

(** [dedup] by a key, keeping the first occurrence, with the set of keys
    already seen threaded through (the source's [seen.insert(k)] idiom). *)
Section FirstByKey.
Context `{Countable K} (key : A -> K).

Fixpoint dedup_by (seen : gset K) l : list A :=
  match l with
  | [] => []
  | x :: l' => if decide (key x ∈ seen) then dedup_by seen l'
               else x :: dedup_by ({[key x]} ∪ seen) l'
  end.

Lemma dedup_by_spec l seen :
  NoDup (key <$> dedup_by seen l) /\
  (forall x, x ∈ dedup_by seen l -> x ∈ l /\ key x ∉ seen).
Proof.
  revert seen. induction l as [|x l IH]; intros seen; simpl.
  { split; [constructor|set_solver]. }
  case_decide as Hx.
  { destruct (IH seen) as [IH1 IH2]. split; [done|].
    intros y Hy. specialize (IH2 y Hy). set_solver. }
  destruct (IH ({[key x]} ∪ seen)) as [IH1 IH2]. split.
  - rewrite fmap_cons. constructor; [|done].
    intros Hin. apply list_elem_of_fmap in Hin as (y & Hk & Hy).
    specialize (IH2 y Hy). set_solver.
  - intros y [->|Hy]%elem_of_cons; [set_solver|]. specialize (IH2 y Hy). set_solver.
Qed.

(** Every key that was not seen before is represented. *)
Lemma dedup_by_complete l seen x :
  x ∈ l -> key x ∉ seen -> key x ∈ key <$> dedup_by seen l.
Proof.
  revert seen. induction l as [|y l IH]; intros seen Hx Hk; simpl; [set_solver|].
  apply elem_of_cons in Hx as [->|Hx].
  - rewrite decide_False by done. rewrite fmap_cons. left.
  - case_decide; [by apply IH|]. rewrite fmap_cons, elem_of_cons.
    destruct (decide (key x = key y)); [by left|right]. apply IH; set_solver.
Qed.
End FirstByKey.
End Vectors.

(** [Iterator::enumerate]. *)
Definition enumerate {A} (l : list A) : list (nat * A) := zip (seq 0 (length l)) l.

Lemma elem_of_enumerate {A} (l : list A) i x : (i, x) ∈ enumerate l <-> l !! i = Some x.
Proof.
  unfold enumerate. split.
  - intros (k & Hk)%list_elem_of_lookup.
    apply lookup_zip_with_Some in Hk as (a & y & [= <- <-] & Ha & Hy).
    apply lookup_seq in Ha as [-> _]. done.
  - intros Hx. apply list_elem_of_lookup. exists i.
    apply lookup_zip_with_Some. exists i, x. split; [done|]. split; [|done].
    apply lookup_seq. split; [done|]. by eapply lookup_lt_Some.
Qed.

Lemma enumerate_fst {A} (l : list A) : (enumerate l).*1 = seq 0 (length l).
Proof. unfold enumerate. apply fst_zip. by rewrite length_seq. Qed.

(** Strictly increasing lists of indices. *)
Lemma seq_sorted n m : StronglySorted lt (seq n m).
Proof.
  revert n. induction m as [|m IH]; intros n; simpl; constructor; [done|].
  apply Forall_forall. intros j Hj%elem_of_seq. lia.
Qed.

Lemma sublist_sorted (l1 l2 : list nat) : sublist l1 l2 -> StronglySorted lt l2 -> StronglySorted lt l1.
Proof.
  induction 1 as [|x l1 l2 Hs IH|x l1 l2 Hs IH]; [done|..]; inversion 1; subst; [|auto].
  constructor; [auto|]. rewrite Forall_forall in *. intros j Hj.
  eauto using elem_of_submseteq, sublist_submseteq.
Qed.

Lemma sorted_lt_NoDup l : StronglySorted lt l -> NoDup l.
Proof.
  induction 1 as [|x l _ IH Hall]; constructor; [|done]. intros Hx.
  rewrite Forall_forall in Hall. specialize (Hall _ Hx). lia.
Qed.

Lemma sorted_lt_ext l1 l2 :
  StronglySorted lt l1 -> StronglySorted lt l2 -> (forall i, i ∈ l1 <-> i ∈ l2) -> l1 = l2.
Proof.
  intros H1 H2 Hi. apply (StronglySorted_unique_strong lt); [lia|done..|].
  apply NoDup_Permutation; auto using sorted_lt_NoDup.
Qed.

Lemma sorted_before l1 (i : nat) l2 j :
  StronglySorted lt (l1 ++ i :: l2) -> j ∈ l1 ++ i :: l2 -> j < i -> j ∈ l1.
Proof.
  intros Hs Hj Hlt. apply elem_of_app in Hj as [Hj|Hj]; [done|].
  apply StronglySorted_app_1_r in Hs. inversion Hs as [|? ? _ Hall]; subst. rewrite Forall_forall in Hall.
  apply elem_of_cons in Hj as [->|Hj%Hall]; lia.
Qed.

Lemma submseteq_NoDup {A} (l1 l2 : list A) : l1 ⊆+ l2 -> NoDup l2 -> NoDup l1.
Proof. intros [k ->]%submseteq_Permutation. by intros [? _]%NoDup_app. Qed.

Lemma filter_sublist {A} (f : A -> bool) l : sublist (List.filter f l) l.
Proof. induction l; simpl; [done|]. case_match; by constructor. Qed.
