(* ===== verification/Bytes.v ===== *)
(** * Byte strings

    Rust's [String] and [&str] (UTF-8) and [Vec<u8>] are all lists of bytes
    here, a byte being an [ascii].  The file models the standard-library
    operations on them that the code uses, byte for byte: ASCII case mapping,
    prefix, suffix and substring search, [split]/[split_once]/[lines], [trim]
    and [split_whitespace] over the Unicode [White_Space] set, integer parsing
    and printing, [from_utf8] and [from_utf8_lossy].  The Unicode tables behind
    [to_lowercase], [to_uppercase] and the regex class [\d] are the fields of
    the class [Unicode]. *)

From stdpp Require Import base list gmap countable strings.
From Stdlib Require Import Ascii NArith Lia.
From S2P Require Import Prelude.

Abbreviation bytes := (list ascii).

Definition bs (s : string) : bytes := String.list_ascii_of_string s.
Arguments bs s%_string.

Definition code (c : ascii) : N := N_of_ascii c.
Definition byte_of (n : N) : ascii := ascii_of_N n.

Definition CR : ascii := "013"%char.
Definition LF : ascii := "010"%char.
Definition crlf : bytes := [CR; LF].

#[export] Instance ascii_countable : Countable ascii :=
  inj_countable' N_of_ascii ascii_of_N ascii_N_embedding.

Lemma code_lt c : (code c < 256)%N.
Proof. apply N_ascii_bounded. Qed.

Lemma byte_of_code c : byte_of (code c) = c.
Proof. apply ascii_N_embedding. Qed.

Lemma code_byte_of n : (n < 256)%N -> code (byte_of n) = n.
Proof. apply N_ascii_embedding. Qed.

(** ** ASCII classes and case *)

Definition in_range (lo hi : N) (c : ascii) : bool :=
  ((lo <=? code c) && (code c <=? hi))%N.
Definition is_digit (c : ascii) : bool := in_range 48 57 c.
Definition is_upper (c : ascii) : bool := in_range 65 90 c.
Definition is_lower (c : ascii) : bool := in_range 97 122 c.
Definition is_ascii_alphanumeric (c : ascii) : bool :=
  is_digit c || is_upper c || is_lower c.

Definition lower (c : ascii) : ascii := if is_upper c then byte_of (code c + 32) else c.
Definition upper (c : ascii) : ascii := if is_lower c then byte_of (code c - 32) else c.

Definition to_ascii_lowercase (s : bytes) : bytes := lower <$> s.
Definition to_ascii_uppercase (s : bytes) : bytes := upper <$> s.
Definition eq_ignore_ascii_case (a b : bytes) : bool :=
  bool_decide (to_ascii_lowercase a = to_ascii_lowercase b).

Lemma length_to_ascii_lowercase s : length (to_ascii_lowercase s) = length s.
Proof. apply length_fmap. Qed.

Lemma lower_idemp c : lower (lower c) = lower c.
Proof. destruct c as [[] [] [] [] [] [] [] []]; reflexivity. Qed.

Lemma to_ascii_lowercase_idemp s :
  to_ascii_lowercase (to_ascii_lowercase s) = to_ascii_lowercase s.
Proof.
  unfold to_ascii_lowercase. rewrite <- list_fmap_compose.
  apply list_fmap_ext. intros i x _. apply lower_idemp.
Qed.

Lemma to_ascii_lowercase_app a b :
  to_ascii_lowercase (a ++ b) = to_ascii_lowercase a ++ to_ascii_lowercase b.
Proof. apply fmap_app. Qed.

(** The Unicode tables of the standard library and of the [regex] crate: full
    case mappings and the general category [Nd] (for scalars above 127). *)
Class Unicode := {
  to_lowercase : bytes -> bytes;
  to_uppercase : bytes -> bytes;
  is_Nd : N -> bool;
}.

(** On text without bytes above 127 the case mappings are the ASCII ones. *)
Definition is_ascii (s : bytes) : Prop := Forall (fun c => code c < 128)%N s.

Class UnicodeLaws `{Unicode} : Prop := {
  to_lowercase_ascii s : is_ascii s -> to_lowercase s = to_ascii_lowercase s;
  to_uppercase_ascii s : is_ascii s -> to_uppercase s = to_ascii_uppercase s;
}.

(** The instance that leaves every non-ASCII byte alone. *)
Definition AsciiOnly : Unicode :=
  {| to_lowercase := to_ascii_lowercase;
     to_uppercase := to_ascii_uppercase;
     is_Nd := fun _ => false |}.

Lemma AsciiOnly_laws : @UnicodeLaws AsciiOnly.
Proof. by split. Qed.

(** ** Prefixes, suffixes, substrings *)

Fixpoint strip_prefix (p s : bytes) : option bytes :=
  match p, s with
  | [], _ => Some s
  | x :: p', y :: s' => if decide (x = y) then strip_prefix p' s' else None
  | _, [] => None
  end.

Definition starts_with (p s : bytes) : bool := bool_decide (is_Some (strip_prefix p s)).

Definition strip_suffix (p s : bytes) : option bytes :=
  reverse <$> strip_prefix (reverse p) (reverse s).

Definition ends_with (p s : bytes) : bool := bool_decide (is_Some (strip_suffix p s)).

Lemma strip_prefix_Some p s r : strip_prefix p s = Some r <-> s = p ++ r.
Proof.
  revert s. induction p as [|x p IH]; intros s; simpl.
  { split; congruence. }
  destruct s as [|y s]; [split; congruence|]. case_decide as E.
  - subst. rewrite IH. split; [by intros ->|congruence].
  - split; [done|]. intros [= -> ->]. done.
Qed.

Lemma strip_prefix_app p r : strip_prefix p (p ++ r) = Some r.
Proof. by apply strip_prefix_Some. Qed.

Lemma strip_suffix_Some p s r : strip_suffix p s = Some r <-> s = r ++ p.
Proof.
  unfold strip_suffix. rewrite fmap_Some. split.
  - intros (x & Hx & ->). apply strip_prefix_Some in Hx.
    rewrite <- (reverse_involutive s), Hx, reverse_app. by rewrite reverse_involutive.
  - intros ->. exists (reverse r). rewrite reverse_involutive. split; [|done].
    apply strip_prefix_Some. by rewrite reverse_app.
Qed.

Lemma starts_with_true p s : starts_with p s = true <-> exists r, s = p ++ r.
Proof.
  unfold starts_with. rewrite bool_decide_eq_true. unfold is_Some.
  setoid_rewrite strip_prefix_Some. done.
Qed.

Lemma ends_with_true p s : ends_with p s = true <-> exists r, s = r ++ p.
Proof.
  unfold ends_with. rewrite bool_decide_eq_true. unfold is_Some.
  setoid_rewrite strip_suffix_Some. done.
Qed.

(** Index of the first occurrence of [p] ([windows(n).position(..)], [str::find]). *)
Fixpoint find_sub (p s : bytes) : option nat :=
  if starts_with p s then Some 0
  else match s with
       | [] => None
       | _ :: s' => S <$> find_sub p s'
       end.

Definition contains (p s : bytes) : bool := bool_decide (is_Some (find_sub p s)).

Lemma find_sub_Some p s i :
  find_sub p s = Some i -> s = take i s ++ p ++ drop (i + length p) s.
Proof.
  revert i. induction s as [|c s IH]; intros i; simpl.
  - destruct (starts_with p []) eqn:E; [|done]. intros [= <-].
    apply starts_with_true in E as [r Hr]. destruct p; [done|]. done.
  - destruct (starts_with p (c :: s)) eqn:E.
    + intros [= <-]. apply starts_with_true in E as [r Hr]. rewrite Hr.
      simpl. by rewrite drop_app_length.
    + intros (j & Hj & ->)%fmap_Some. simpl. f_equal. by apply IH.
Qed.

Lemma find_sub_at p s i :
  find_sub p s = Some i -> starts_with p (drop i s) = true /\ i + length p <= length s.
Proof.
  revert i. induction s as [|c s IH]; intros i; simpl.
  - destruct (starts_with p []) eqn:E; [|done]. intros [= <-]. split; [done|].
    apply starts_with_true in E as [r Hr]. destruct p; [simpl; lia|done].
  - destruct (starts_with p (c :: s)) eqn:E.
    + intros [= <-]. split; [done|]. apply starts_with_true in E as [r Hr].
      apply (f_equal length) in Hr. rewrite length_app in Hr. simpl in *. lia.
    + intros (k & Hk & ->)%fmap_Some. apply IH in Hk as [? ?]. split; [done|]. simpl. lia.
Qed.

(** The first occurrence: no occurrence starts at an earlier index. *)
Lemma find_sub_first p s i j :
  find_sub p s = Some i -> j < i -> starts_with p (drop j s) = false.
Proof.
  revert i j. induction s as [|c s IH]; intros i j; simpl.
  - destruct (starts_with p []); [|done]. intros [= <-]. lia.
  - destruct (starts_with p (c :: s)) eqn:E; [intros [= <-]; lia|].
    intros (k & Hk & ->)%fmap_Some Hj. destruct j; simpl; [done|].
    apply IH with k; [done|lia].
Qed.

Lemma find_sub_None p s j : find_sub p s = None -> starts_with p (drop j s) = false.
Proof.
  revert j. induction s as [|c s IH]; intros j; simpl.
  - destruct (starts_with p []) eqn:E; [done|]. by rewrite drop_nil.
  - destruct (starts_with p (c :: s)) eqn:E; [done|]. intros H.
    destruct (find_sub p s) eqn:E2; [done|]. destruct j; simpl; [done|]. by apply IH.
Qed.

Lemma contains_true p s : contains p s = true <-> exists a r, s = a ++ p ++ r.
Proof.
  unfold contains. rewrite bool_decide_eq_true. split.
  - intros [i Hi]. apply find_sub_Some in Hi. eauto.
  - intros (a & r & ->). destruct (find_sub p (a ++ p ++ r)) eqn:E; [eauto|].
    apply find_sub_None with (j := length a) in E.
    rewrite drop_app_length in E. assert (starts_with p (p ++ r) = true) as E'.
    { apply starts_with_true. eauto. }
    congruence.
Qed.

(** ** Splitting *)

Definition split_once (p s : bytes) : option (bytes * bytes) :=
  i ← find_sub p s; Some (take i s, drop (i + length p) s).

(** [rsplit_once(c)] for a one-byte separator. *)
Definition rsplit_once (c : ascii) (s : bytes) : option (bytes * bytes) :=
  '(r, l) ← split_once [c] (reverse s); Some (reverse l, reverse r).

(** [split(c)]: always at least one piece. *)
Fixpoint split_on (c : ascii) (s : bytes) : list bytes :=
  match s with
  | [] => [[]]
  | x :: s' =>
      match split_on c s' with
      | [] => [[x]]
      | h :: t => if decide (x = c) then [] :: h :: t else (x :: h) :: t
      end
  end.

(** [splitn(n, c)]: at most [n] pieces, the last one unsplit. *)
Fixpoint splitn (n : nat) (c : ascii) (s : bytes) : list bytes :=
  match n with
  | 0 => []
  | S m =>
      match m, split_once [c] s with
      | 0, _ | _, None => [s]
      | S _, Some (a, r) => a :: splitn m c r
      end
  end.

(** [str::lines]: pieces ended by LF, a CR before that LF dropped; a final
    piece without LF is a line (its CR kept) unless it is empty. *)
Fixpoint lines_aux (ps : list bytes) : list bytes :=
  match ps with
  | [] => []
  | [last] => if decide (last = []) then [] else [last]
  | p :: ps' => default p (strip_suffix [CR] p) :: lines_aux ps'
  end.

Definition lines (s : bytes) : list bytes := lines_aux (split_on LF s).

Fixpoint join (sep : bytes) (l : list bytes) : bytes :=
  match l with
  | [] => []
  | [x] => x
  | x :: l' => x ++ sep ++ join sep l'
  end.

(** [str::replace] and [str::matches(p).count()] for a non-empty pattern:
    leftmost, non-overlapping; [fuel] is the length of the text. *)
Fixpoint replace_fuel (fuel : nat) (p by_ s : bytes) : bytes :=
  match fuel with
  | 0 => s
  | S f =>
      match split_once p s with
      | None => s
      | Some (a, r) => a ++ by_ ++ replace_fuel f p by_ r
      end
  end.
Definition replace (p by_ s : bytes) : bytes := replace_fuel (length s) p by_ s.

Fixpoint count_fuel (fuel : nat) (p s : bytes) : nat :=
  match fuel with
  | 0 => 0
  | S f => match split_once p s with
           | None => 0
           | Some (_, r) => S (count_fuel f p r)
           end
  end.
Definition count_matches (p s : bytes) : nat := count_fuel (length s) p s.

Lemma split_once_Some p s a r : split_once p s = Some (a, r) -> s = a ++ p ++ r.
Proof.
  unfold split_once. destruct (find_sub p s) eqn:E; simpl; [|done].
  intros [= <- <-]. by apply find_sub_Some.
Qed.

Lemma rsplit_once_Some c s a r :
  rsplit_once c s = Some (a, r) -> s = a ++ [c] ++ r /\ c ∉ r.
Proof.
  unfold rsplit_once. destruct (split_once [c] (reverse s)) as [[x y]|] eqn:E; simpl; [|done].
  intros [= <- <-]. pose proof (split_once_Some _ _ _ _ E) as Hs. split.
  - apply (f_equal reverse) in Hs. rewrite reverse_involutive in Hs.
    rewrite Hs, !reverse_app. simpl. by rewrite <- app_assoc.
  - rewrite elem_of_reverse. unfold split_once in E.
    destruct (find_sub [c] (reverse s)) as [i|] eqn:Ei; simplify_eq/=.
    intros (j & Hj)%list_elem_of_lookup.
    apply lookup_take_Some in Hj as [Hj Hlt].
    pose proof (find_sub_first _ _ _ j Ei Hlt) as Hf.
    rewrite (drop_S _ _ _ Hj) in Hf. unfold starts_with in Hf. simpl in Hf.
    rewrite decide_True in Hf by done. apply bool_decide_eq_false in Hf. apply Hf. eauto.
Qed.

(** Everything behind the last separator. *)
Lemma rsplit_once_at c a r : c ∉ r -> rsplit_once c (a ++ [c] ++ r) = Some (a, r).
Proof.
  intros Hr. destruct (rsplit_once c (a ++ [c] ++ r)) as [[a' r']|] eqn:E.
  - apply rsplit_once_Some in E as [E Hr'].
    apply app_eq_inv in E as [(k & -> & Ek)|(k & -> & Ek)]; destruct k as [|x k]; simpl in Ek; simplify_eq/=.
    1,3: by rewrite app_nil_r.
    all: exfalso; set_solver.
  - exfalso. unfold rsplit_once, split_once in E.
    destruct (find_sub [c] (reverse (a ++ [c] ++ r))) eqn:Ef; [done|].
    assert (contains [c] (reverse (a ++ [c] ++ r)) = true) as Hc.
    { apply contains_true. exists (reverse r), (reverse a). by rewrite !reverse_app, <-app_assoc. }
    unfold contains in Hc. by rewrite Ef in Hc.
Qed.

Lemma split_on_not_in c s : c ∉ s -> split_on c s = [s].
Proof.
  induction s as [|x s IH]; simpl; [done|]. intros H.
  rewrite IH by set_solver. rewrite decide_False; [done|set_solver].
Qed.

Lemma split_on_app c a r : c ∉ a -> split_on c (a ++ c :: r) = a :: split_on c r.
Proof.
  induction a as [|x a IH]; simpl; intros H.
  - destruct (split_on c r) eqn:E; [|by rewrite decide_True].
    destruct r as [|y r]; simpl in E; [done|]. repeat case_match; done.
  - rewrite IH by set_solver. rewrite decide_False; [done|set_solver].
Qed.

Lemma split_on_ne c s : split_on c s ≠ [].
Proof. destruct s; simpl; [done|]. repeat case_match; done. Qed.

(** A line without LF or final CR, ended by LF, is read back whole. *)
Lemma lines_cons l r :
  LF ∉ l -> last l <> Some CR -> lines (l ++ LF :: r) = l :: lines r.
Proof.
  intros Hlf Hcr. unfold lines. rewrite split_on_app by done.
  destruct (split_on LF r) eqn:E; [by apply split_on_ne in E|]. cbn [lines_aux]. f_equal.
  destruct (strip_suffix [CR] l) as [pre|] eqn:Es; [|done].
  apply strip_suffix_Some in Es as ->. by rewrite last_snoc in Hcr.
Qed.
