(* ===== verification/Text.v ===== *)
(** * Text: white space, integers, UTF-8

    The standard-library operations that read characters rather than bytes:
    [trim], [split_whitespace], [str::parse] of unsigned integers and
    [to_string] of them, hexadecimal digits, UTF-8 validation and
    [String::from_utf8_lossy]. *)

From stdpp Require Import base list strings.
From Stdlib Require Import Ascii NArith Lia.
From S2P Require Import Prelude Bytes.

(** ** White space: the scalars with the Unicode property [White_Space] *)

Definition ws_seqs : list bytes :=
  (fun n => [byte_of n]) <$> [9; 10; 11; 12; 13; 32]%N.

Definition ws_multi : list bytes :=
  (fun l : list N => byte_of <$> l) <$>
    ([[0xC2; 0x85]; [0xC2; 0xA0]; [0xE1; 0x9A; 0x80]; [0xE2; 0x80; 0x80];
      [0xE2; 0x80; 0x81]; [0xE2; 0x80; 0x82]; [0xE2; 0x80; 0x83]; [0xE2; 0x80; 0x84];
      [0xE2; 0x80; 0x85]; [0xE2; 0x80; 0x86]; [0xE2; 0x80; 0x87]; [0xE2; 0x80; 0x88];
      [0xE2; 0x80; 0x89]; [0xE2; 0x80; 0x8A]; [0xE2; 0x80; 0xA8]; [0xE2; 0x80; 0xA9];
      [0xE2; 0x80; 0xAF]; [0xE2; 0x81; 0x9F]; [0xE3; 0x80; 0x80]]%N).

Definition white_space : list bytes := ws_seqs ++ ws_multi.

Fixpoint first_strip (ps : list bytes) (s : bytes) : option bytes :=
  match ps with
  | [] => None
  | p :: ps' => match strip_prefix p s with
                | Some r => Some r
                | None => first_strip ps' s
                end
  end.

Definition strip_ws (s : bytes) : option bytes := first_strip white_space s.

Fixpoint trim_start_fuel (fuel : nat) (ps : list bytes) (s : bytes) : bytes :=
  match fuel with
  | 0 => s
  | S f => match first_strip ps s with
           | Some r => trim_start_fuel f ps r
           | None => s
           end
  end.

Definition trim_start (s : bytes) : bytes := trim_start_fuel (length s) white_space s.
Definition trim_end (s : bytes) : bytes :=
  reverse (trim_start_fuel (length s) (reverse <$> white_space) (reverse s)).
Definition trim (s : bytes) : bytes := trim_end (trim_start s).

(** [trim_start_matches(c)], [trim_end_matches(c)]. *)
Fixpoint trim_start_matches (c : ascii) (s : bytes) : bytes :=
  match s with
  | x :: s' => if decide (x = c) then trim_start_matches c s' else s
  | [] => []
  end.
Definition trim_end_matches (c : ascii) (s : bytes) : bytes :=
  reverse (trim_start_matches c (reverse s)).

(** [split_whitespace]: the maximal runs without white space. *)
Fixpoint split_ws_fuel (fuel : nat) (cur s : bytes) : list bytes :=
  let flush := if decide (cur = []) then [] else [reverse cur] in
  match fuel with
  | 0 => flush
  | S f =>
      match strip_ws s with
      | Some r => flush ++ split_ws_fuel f [] r
      | None => match s with
                | [] => flush
                | c :: s' => split_ws_fuel f (c :: cur) s'
                end
      end
  end.
Definition split_whitespace (s : bytes) : list bytes := split_ws_fuel (S (length s)) [] s.

(** ** Digits and unsigned integers *)

Definition digit_val (c : ascii) : option N :=
  if is_digit c then Some (code c - 48)%N
  else if is_lower c then Some (code c - 87)%N
  else if is_upper c then Some (code c - 55)%N
  else None.

(** [char::to_digit(radix)]. *)
Definition to_digit (radix : N) (c : ascii) : option N :=
  d ← digit_val c; if (d <? radix)%N then Some d else None.

Fixpoint digits_value (radix acc : N) (s : bytes) : option N :=
  match s with
  | [] => Some acc
  | c :: s' => d ← to_digit radix c; digits_value radix (acc * radix + d) s'
  end.

(** [str::parse] of an unsigned integer type with maximum [max]: an optional
    [+], then one or more decimal digits; overflow is an error. *)
Definition parse_uint (max : N) (s : bytes) : option N :=
  let ds := default s (strip_prefix (bs "+") s) in
  if decide (ds = []) then None
  else n ← digits_value 10 0 ds; if (n <=? max)%N then Some n else None.

Definition parse_u8 := parse_uint u8_max.
Definition parse_u16 := parse_uint u16_max.
Definition parse_u32 := parse_uint u32_max.
Definition parse_u64 := parse_uint u64_max.

Definition digit_char (d : N) : ascii :=
  if (d <? 10)%N then byte_of (d + 48) else byte_of (d + 87).

Fixpoint show_fuel (fuel : nat) (radix n : N) (acc : bytes) : bytes :=
  match fuel with
  | 0 => acc
  | S f =>
      let acc' := digit_char (n mod radix) :: acc in
      if (n <? radix)%N then acc' else show_fuel f radix (n / radix) acc'
  end.

(** Decimal and lower-case hexadecimal [Display]; the fuel is the number of
    bits, an upper bound on the number of digits. *)
Definition show_N (n : N) : bytes := show_fuel (S (N.size_nat n)) 10 n [].
Definition show_hex (n : N) : bytes := show_fuel (S (N.size_nat n)) 16 n [].

Arguments show_N : simpl never.
Arguments show_hex : simpl never.

Lemma to_digit_digit_char radix d :
  (radix <= 16)%N -> (d < radix)%N -> to_digit radix (digit_char d) = Some d.
Proof.
  intros Hr Hd. assert (d < 16)%N as Hd16 by lia.
  assert (digit_val (digit_char d) = Some d) as Hv.
  { clear Hr Hd. destruct d as [|p]; [reflexivity|].
    do 4 (destruct p as [p|p|]; try reflexivity; try lia). }
  unfold to_digit. rewrite Hv. simpl. apply N.ltb_lt in Hd. by rewrite Hd.
Qed.

Lemma digits_value_app radix acc a b :
  digits_value radix acc (a ++ b) =
  (n ← digits_value radix acc a; digits_value radix n b).
Proof.
  revert acc. induction a as [|c a IH]; intros acc; simpl; [done|].
  destruct (to_digit radix c); simpl; [|done]. apply IH.
Qed.

Lemma show_fuel_acc fuel radix n acc :
  show_fuel fuel radix n acc = show_fuel fuel radix n [] ++ acc.
Proof.
  revert n acc. induction fuel as [|f IH]; intros n acc; simpl; [done|].
  destruct (n <? radix)%N; [done|].
  rewrite IH, (IH _ [_]). by rewrite <- app_assoc.
Qed.

Lemma show_fuel_value fuel radix n :
  (2 <= radix <= 16)%N -> (n < 2 ^ N.of_nat fuel)%N ->
  forall acc, digits_value radix 0 (show_fuel (S fuel) radix n acc) =
              digits_value radix n acc.
Proof.
  intros Hr. revert n. induction fuel as [|f IH]; intros n Hn acc.
  - assert (n = 0)%N as -> by (simpl in Hn; lia). simpl.
    assert (0 <? radix = true)%N as -> by (apply N.ltb_lt; lia). simpl.
    rewrite N.mod_small, to_digit_digit_char by lia. done.
  - change (show_fuel (S (S f)) radix n acc) with
      (let acc' := digit_char (n mod radix) :: acc in
       if (n <? radix)%N then acc' else show_fuel (S f) radix (n / radix) acc').
    cbv zeta. destruct (n <? radix)%N eqn:E.
    + apply N.ltb_lt in E. cbn [digits_value].
      rewrite N.mod_small, to_digit_digit_char by lia. cbn. f_equal; lia.
    + apply N.ltb_ge in E. rewrite IH.
      * cbn [digits_value]. rewrite to_digit_digit_char by (try apply N.mod_lt; lia).
        cbn. f_equal. pose proof (N.div_mod n radix). lia.
      * rewrite Nat2N.inj_succ, N.pow_succ_r' in Hn.
        apply N.Div0.div_lt_upper_bound. nia.
Qed.

Lemma size_nat_gt n : (n < 2 ^ N.of_nat (N.size_nat n))%N.
Proof.
  destruct n as [|p]; [simpl; lia|].
  assert (N.of_nat (Pos.size_nat p) = N.size (Npos p)) as H.
  { induction p as [p IH|p IH|]; simpl in *; lia. }
  simpl. rewrite H. apply N.size_gt.
Qed.

Lemma show_fuel_nonempty fuel radix n acc : show_fuel (S fuel) radix n acc ≠ [].
Proof.
  revert n acc. induction fuel as [|f IH]; intros n acc.
  - simpl. by destruct (n <? radix)%N.
  - change (show_fuel (S (S f)) radix n acc) with
      (if (n <? radix)%N then digit_char (n mod radix) :: acc
       else show_fuel (S f) radix (n / radix) (digit_char (n mod radix) :: acc)).
    destruct (n <? radix)%N; [done|apply IH].
Qed.

Lemma show_N_value n : digits_value 10 0 (show_N n) = Some n.
Proof. unfold show_N. rewrite show_fuel_value; [done|lia|apply size_nat_gt]. Qed.

Lemma show_hex_value n : digits_value 16 0 (show_hex n) = Some n.
Proof. unfold show_hex. rewrite show_fuel_value; [done|lia|apply size_nat_gt]. Qed.

Lemma digits_value_all_digits radix acc s n :
  digits_value radix acc s = Some n -> Forall (fun c => is_Some (to_digit radix c)) s.
Proof.
  revert acc. induction s as [|c s IH]; intros acc; simpl; [constructor|].
  destruct (to_digit radix c) eqn:E; simpl; [|done]. constructor; [eauto|]. by eapply IH.
Qed.

(** Printing a value and parsing it back. *)
Lemma parse_show max n : (n <= max)%N -> parse_uint max (show_N n) = Some n.
Proof.
  intros Hn. unfold parse_uint.
  assert (strip_prefix (bs "+") (show_N n) = None) as Hp.
  { destruct (strip_prefix _ _) eqn:E; [|done]. apply strip_prefix_Some in E.
    pose proof (show_N_value n) as Hv. rewrite E in Hv. by vm_compute in Hv. }
  rewrite Hp. simpl. rewrite decide_False.
  - rewrite show_N_value. simpl. apply N.leb_le in Hn. by rewrite Hn.
  - apply show_fuel_nonempty.
Qed.

Lemma parse_uint_bound max s n : parse_uint max s = Some n -> (n <= max)%N.
Proof.
  unfold parse_uint. case_decide; [done|].
  destruct (digits_value _ _ _); simpl; [|done].
  destruct (_ <=? _)%N eqn:E; [|done]. intros [= ->]. by apply N.leb_le.
Qed.

(** ** UTF-8 *)

Definition cont (c : ascii) : bool := in_range 0x80 0xBF c.

(** One step of the decoder on a non-empty text: the length of the scalar at
    its head and its value, or the length of the maximal invalid subpart. *)
Definition utf8_head (s : bytes) : option (nat * option N) :=
  match s with
  | [] => None
  | a :: s1 =>
      if in_range 0 0x7F a then Some (1, Some (code a))
      else
        let bad n := Some (n, None) in
        let lo6 c := (code c mod 64)%N in
        if in_range 0xC2 0xDF a then
          match s1 with
          | x :: _ => if cont x then Some (2, Some (code a mod 32 * 64 + lo6 x)%N) else bad 1
          | [] => bad 1
          end
        else
          let second3 x :=
            if in_range 0xE0 0xE0 a then in_range 0xA0 0xBF x
            else if in_range 0xED 0xED a then in_range 0x80 0x9F x
            else in_range 0xE1 0xEF a && cont x in
          let second4 x :=
            if in_range 0xF0 0xF0 a then in_range 0x90 0xBF x
            else if in_range 0xF4 0xF4 a then in_range 0x80 0x8F x
            else in_range 0xF1 0xF3 a && cont x in
          match s1 with
          | x :: s2 =>
              if second3 x then
                match s2 with
                | y :: _ =>
                    if cont y
                    then Some (3, Some (code a mod 16 * 4096 + lo6 x * 64 + lo6 y)%N)
                    else bad 2
                | [] => bad 2
                end
              else if second4 x then
                match s2 with
                | y :: z :: _ =>
                    if cont y then
                      if cont z
                      then Some (4, Some (code a mod 8 * 262144 + lo6 x * 4096
                                          + lo6 y * 64 + lo6 z)%N)
                      else bad 3
                    else bad 2
                | [y] => if cont y then bad 3 else bad 2
                | [] => bad 2
                end
              else bad 1
          | [] => bad 1
          end
  end.

Definition REPLACEMENT : bytes := byte_of <$> [0xEF; 0xBF; 0xBD]%N.

Fixpoint lossy_fuel (fuel : nat) (s : bytes) : bytes :=
  match fuel with
  | 0 => []
  | S f => match utf8_head s with
           | None => []
           | Some (n, Some _) => take n s ++ lossy_fuel f (drop n s)
           | Some (n, None) => REPLACEMENT ++ lossy_fuel f (drop n s)
           end
  end.
(** [String::from_utf8_lossy]. *)
Definition from_utf8_lossy (s : bytes) : bytes := lossy_fuel (length s) s.

Fixpoint valid_fuel (fuel : nat) (s : bytes) : bool :=
  match fuel with
  | 0 => true
  | S f => match utf8_head s with
           | None => true
           | Some (n, Some _) => valid_fuel f (drop n s)
           | Some (_, None) => false
           end
  end.
Definition valid_utf8 (s : bytes) : bool := valid_fuel (length s) s.

(** [std::str::from_utf8]. *)
Definition from_utf8 (s : bytes) : option bytes := if valid_utf8 s then Some s else None.

Lemma utf8_head_len s n o : utf8_head s = Some (n, o) -> 1 <= n.
Proof. unfold utf8_head. intros. repeat (case_match; simplify_eq); lia. Qed.

Lemma lossy_fuel_valid fuel s :
  length s <= fuel -> valid_fuel fuel s = true -> lossy_fuel fuel s = s.
Proof.
  revert s. induction fuel as [|f IH]; intros s Hl; simpl.
  { destruct s; simpl in *; [done|lia]. }
  destruct (utf8_head s) as [[n [v|]]|] eqn:E; [| done|].
  - intros Hv. apply utf8_head_len in E.
    rewrite IH; [apply take_drop| |done]. rewrite length_drop. lia.
  - intros _. by destruct s as [|a s]; [|simpl in E; repeat case_match].
Qed.

(** Valid text is unchanged by the lossy conversion. *)
Lemma lossy_valid s : valid_utf8 s = true -> from_utf8_lossy s = s.
Proof. by apply lossy_fuel_valid. Qed.

Lemma ascii_head c s : (code c < 128)%N -> utf8_head (c :: s) = Some (1, Some (code c)).
Proof.
  intros H. unfold utf8_head, in_range.
  assert ((0 <=? code c)%N && (code c <=? 0x7F)%N = true) as ->; [|done].
  apply andb_true_iff. split; apply N.leb_le; lia.
Qed.

Lemma ascii_valid s : is_ascii s -> valid_utf8 s = true.
Proof.
  unfold valid_utf8. induction 1 as [|c s Hc _ IH]; [done|].
  cbn [length valid_fuel]. by rewrite ascii_head.
Qed.

Lemma ascii_lossy s : is_ascii s -> from_utf8_lossy s = s.
Proof. intros. by apply lossy_valid, ascii_valid. Qed.
