(* ===== verification/Float.v ===== *)
(** * Binary64 arithmetic

    [f64] is the IEEE 754 binary64 of the Standard Library's [SpecFloat]
    (precision 53, maximal exponent 1024, one NaN), rounding to nearest even.
    The file adds what the code uses of Rust's [f64]: conversion of integers,
    exact decimal constants, comparison, [total_cmp], [max]/[min]/[clamp],
    [floor]/[ceil] to an index, the [{:.2}] formatter and [round2]'s
    format-then-parse, and [Duration]'s conversions. *)

From stdpp Require Import base list strings.
From Stdlib Require Import Ascii NArith ZArith Lia SpecFloat.
From S2P Require Import Prelude Bytes Text.

Abbreviation f64 := spec_float.

#[export] Instance f64_eq_dec : EqDecision f64.
Proof. solve_decision. Defined.

Definition prec : Z := 53.
Definition emax : Z := 1024.

Definition f_zero : f64 := S754_zero false.
Definition f_add : f64 -> f64 -> f64 := SFadd prec emax.
Definition f_sub : f64 -> f64 -> f64 := SFsub prec emax.
Definition f_mul : f64 -> f64 -> f64 := SFmul prec emax.
Definition f_div : f64 -> f64 -> f64 := SFdiv prec emax.
Definition f_lt : f64 -> f64 -> bool := SFltb.
Definition f_le : f64 -> f64 -> bool := SFleb.

(** [n as f64]. *)
Definition f_of_N (n : N) : f64 := binary_normalize prec emax (Z.of_N n) 0 false.

(** The binary64 nearest to the fraction [n/d]: decimal literals and
    [str::parse::<f64>] of a decimal. *)
Definition f_ratio (s : bool) (n : N) (d : positive) : f64 :=
  match n with
  | N0 => S754_zero s
  | Npos p =>
      let '(q, e, loc) := SFdiv_core_binary prec emax (Zpos p) 0 (Zpos d) 0 in
      binary_round_aux prec emax s q e loc
  end.

Definition f_one : f64 := f_of_N 1.
Definition f_half : f64 := f_ratio false 1 2.

(** [Iterator::sum]: left to right from the neutral element [-0.0]. *)
Definition f_sum (l : list f64) : f64 := foldl f_add (S754_zero true) l.

Definition f_is_nan (x : f64) : bool := match x with S754_nan => true | _ => false end.

(** [f64::max], [f64::min]: the other operand when one is NaN. *)
Definition f_max (a b : f64) : f64 :=
  if f_is_nan a then b else if f_is_nan b then a else if f_lt a b then b else a.
Definition f_min (a b : f64) : f64 :=
  if f_is_nan a then b else if f_is_nan b then a else if f_lt b a then b else a.
Definition f_clamp (x lo hi : f64) : f64 :=
  if f_lt x lo then lo else if f_lt hi x then hi else x.

(** ** [total_cmp]: the order of the bit patterns *)

Definition f_magnitude (x : f64) : Z :=
  match x with
  | S754_zero _ => 0
  | S754_finite _ m e => (e + 1074) * 4503599627370496 + Zpos m
  | S754_infinity _ => 2047 * 4503599627370496
  | S754_nan => 2047 * 4503599627370496 + 2251799813685248
  end.

Definition f_sign (x : f64) : bool :=
  match x with
  | S754_zero s | S754_infinity s | S754_finite s _ _ => s
  | S754_nan => false
  end.

Definition f_key (x : f64) : Z :=
  if f_sign x then (- f_magnitude x - 1)%Z else f_magnitude x.

Definition total_cmp (a b : f64) : comparison := Z.compare (f_key a) (f_key b).

Lemma total_cmp_trans a b c :
  total_cmp a b <> Gt -> total_cmp b c <> Gt -> total_cmp a c <> Gt.
Proof. unfold total_cmp. rewrite !Z.compare_ngt_iff. lia. Qed.

Lemma total_cmp_total a b : total_cmp a b = Gt -> total_cmp b a <> Gt.
Proof. unfold total_cmp. rewrite Z.compare_gt_iff, Z.compare_ngt_iff. lia. Qed.

(** ** Rounding to integers *)

(** [m * 2^e * scale] rounded to an integer, ties to even. *)
Definition round_half_even (num den : N) : N :=
  let q := (num / den)%N in
  let r := (num mod den)%N in
  match N.compare (2 * r) den with
  | Lt => q
  | Gt => q + 1
  | Eq => if N.even q then q else q + 1
  end%N.

Definition scaled (scale : N) (m : positive) (e : Z) : N :=
  match e with
  | Zneg k => round_half_even (Npos m * scale) (2 ^ Npos k)
  | _ => Npos m * scale * 2 ^ Z.to_N e
  end%N.

Lemma round_half_even_near num den :
  (den <> 0)%N ->
  let n := round_half_even num den in
  (2 * num <= 2 * n * den + den /\ 2 * n * den <= 2 * num + den)%N.
Proof.
  intros Hd. cbv zeta. unfold round_half_even.
  pose proof (N.div_mod num den Hd) as Hq. pose proof (N.mod_lt num den Hd) as Hr.
  set (q := (num / den)%N) in *. set (r := (num mod den)%N) in *.
  destruct (N.compare_spec (2 * r) den); [destruct (N.even q)| |]; nia.
Qed.

(** [x as usize] after [floor] and [ceil]: saturating, NaN to zero. *)
Definition f_floor_usize (x : f64) : nat :=
  match x with
  | S754_finite false m e =>
      match e with
      | Zneg k => N.to_nat (Npos m / 2 ^ Npos k)
      | _ => N.to_nat (N.min u64_max (Npos m * 2 ^ Z.to_N e))
      end
  | S754_infinity false => N.to_nat u64_max
  | _ => N.to_nat 0
  end%N.

Definition f_ceil_usize (x : f64) : nat :=
  match x with
  | S754_finite false m e =>
      match e with
      | Zneg k => N.to_nat ((Npos m + 2 ^ Npos k - 1) / 2 ^ Npos k)
      | _ => N.to_nat (N.min u64_max (Npos m * 2 ^ Z.to_N e))
      end
  | S754_infinity false => N.to_nat u64_max
  | _ => N.to_nat 0
  end%N.

(** [x.round() as u64]: ties away from zero, saturating, NaN to zero. *)
Definition f_round_u64 (x : f64) : N :=
  match x with
  | S754_finite false m e =>
      match e with
      | Zneg k => N.min u64_max ((2 * Npos m + 2 ^ Npos k) / (2 * 2 ^ Npos k))
      | _ => N.min u64_max (Npos m * 2 ^ Z.to_N e)
      end
  | S754_infinity false => u64_max
  | _ => 0
  end%N.

(** ** Two decimals *)

(** [format!("{x:.2}")]: the exact value rounded to hundredths, ties to even. *)
Definition two_digits (n : N) : bytes := [digit_char (n / 10); digit_char (n mod 10)].

Definition fmt2 (x : f64) : bytes :=
  let render (s : bool) (n : N) :=
    (if s then bs "-" else []) ++ show_N (n / 100) ++ bs "." ++ two_digits (n mod 100) in
  match x with
  | S754_nan => bs "NaN"
  | S754_infinity s => (if s then bs "-" else []) ++ bs "inf"
  | S754_zero s => render s 0%N
  | S754_finite s m e => render s (scaled 100 m e)
  end.

(** [format!("{x:.2}").parse()]: the number of hundredths printed, read back. *)
Definition parse2 (x : f64) : f64 :=
  match x with
  | S754_nan => S754_nan
  | S754_infinity s => S754_infinity s
  | S754_zero s => f_ratio s 0 100
  | S754_finite s m e => f_ratio s (scaled 100 m e) 100
  end.

(** ** [Duration], in nanoseconds *)

Definition duration := N.
Definition NANOS : N := 1000000000.
Definition from_secs (s : N) : duration := (s * NANOS)%N.
Definition from_millis (ms : N) : duration := (ms * 1000000)%N.
Definition DURATION_MAX : N := (18446744073709551615 * NANOS + 999999999)%N.

Definition as_secs_f64 (d : duration) : f64 :=
  f_add (f_of_N (d / NANOS)) (f_div (f_of_N (d mod NANOS)) (f_of_N NANOS)).

(** [Duration::from_secs_f64]: nearest nanosecond, ties to even; it panics
    ([None]) on a negative, non-finite or too large value. *)
Definition from_secs_f64 (x : f64) : option duration :=
  match x with
  | S754_zero _ => Some 0%N
  | S754_finite false m e =>
      let n := scaled NANOS m e in
      if (n <=? DURATION_MAX)%N then Some n else None
  | _ => None
  end.

(** ** Constants *)

Definition f_0_3 : f64 := f_ratio false 3 10.
Definition f_0_7 : f64 := f_ratio false 7 10.
Definition f_0_02 : f64 := f_ratio false 2 100.

(** ** Numbers that are not negative *)

Definition f_nonneg (x : f64) : bool :=
  match x with S754_zero _ => true | S754_finite s _ _ | S754_infinity s => negb s | S754_nan => false end.

Lemma f_nonneg_not_nan x : f_nonneg x = true -> f_is_nan x = false.
Proof. by destruct x. Qed.

Lemma f_lt_zero_nonneg x : f_lt f_zero x = true -> f_nonneg x = true.
Proof. by destruct x as [[]|[]| |[]]. Qed.

Lemma shr_1_nonneg mrs : (0 <= shr_m mrs)%Z -> (0 <= shr_m (shr_1 mrs))%Z.
Proof. destruct mrs as [m r s]. simpl. intros Hm. destruct m as [|[p|p|]|p]; simpl; lia. Qed.

Lemma iter_pos_inv {A} (P : A -> Prop) (f : A -> A) n x :
  (forall y, P y -> P (f y)) -> P x -> P (iter_pos f n x).
Proof. intros Hf. revert x. induction n; intros x Hx; simpl; auto. Qed.

Lemma shr_fexp_nonneg m e l : (0 <= m)%Z -> (0 <= shr_m (shr_fexp prec emax m e l).1)%Z.
Proof.
  intros Hm. unfold shr_fexp, shr.
  assert (0 <= shr_m (shr_record_of_loc m l))%Z by (destruct l as [|[]]; done).
  destruct (_ - _)%Z; simpl; try done.
  by apply (iter_pos_inv (fun r => 0 <= shr_m r)%Z); [apply shr_1_nonneg|].
Qed.

(** Rounding a magnitude gives a number of the sign asked for. *)
Lemma round_aux_nonneg m e l : (0 <= m)%Z -> f_nonneg (binary_round_aux prec emax false m e l) = true.
Proof.
  intros Hm. unfold binary_round_aux. destruct (shr_fexp prec emax m e l) as [r1 e1] eqn:E1.
  pose proof (shr_fexp_nonneg m e l Hm) as H1. rewrite E1 in H1. simpl in H1.
  set (m2 := round_nearest_even _ _).
  assert (0 <= m2)%Z as H2.
  { unfold m2, round_nearest_even. destruct (loc_of_shr_record r1) as [|[]]; [..|]; try lia.
    destruct (Z.even _); lia. }
  pose proof (shr_fexp_nonneg m2 e1 loc_Exact H2) as H3.
  destruct (shr_fexp prec emax m2 e1 loc_Exact) as [r2 e2]. simpl in H3.
  destruct (shr_m r2); [done| |lia]. by destruct (_ <=? _)%Z.
Qed.

Lemma f_mul_nonneg s m e x :
  f_nonneg (S754_finite s m e) = true -> f_nonneg x = true -> f_nonneg (f_mul (S754_finite s m e) x) = true.
Proof.
  destruct s; [done|]. intros _. destruct x as [[]|[]| |[] m' e']; try done. intros _.
  apply round_aux_nonneg. lia.
Qed.

Lemma f_add_nonneg x y : f_nonneg x = true -> f_nonneg y = true -> f_nonneg (f_add x y) = true.
Proof.
  destruct x as [[]|[]| |[] m e], y as [[]|[]| |[] m' e']; try done. intros _ _.
  unfold f_add, SFadd, binary_normalize. simpl cond_Zopp. rewrite <-Pos2Z.inj_add.
  unfold binary_round. destruct (shl_align _ _ _). by apply round_aux_nonneg.
Qed.

Example parse2_table :
  (parse2 <$> [f_ratio false 125 1000; f_ratio false 2675 1000; f_ratio false 335 1000;
               f_ratio false 1005 1000; f_ratio false 45 1000; f_ratio false 5 1000;
               f_div f_one (f_of_N 3); f_div (f_of_N 2) (f_of_N 3);
               f_ratio false 99995 1000])
  = [f_ratio false 12 100; f_ratio false 267 100; f_ratio false 34 100;
     f_ratio false 100 100; f_ratio false 4 100; f_ratio false 1 100;
     f_ratio false 33 100; f_ratio false 67 100; f_ratio false 10000 100].
Proof. vm_compute. reflexivity. Qed.
