(* ===== verification/FloatExact.v ===== *)
(** * Integers in binary64

    Counters that pass through floating point (the Redis script's arithmetic is
    Lua's) stay exact: every integer below [2^53] is represented, and sums below
    it are the integer sums. *)

From stdpp Require Import base list numbers.
From Stdlib Require Import NArith ZArith Lia SpecFloat.
From S2P Require Import Prelude Float.

#[local] Open Scope Z_scope.

(** ** Shifts *)

Definition shl (k : nat) (m : positive) : positive := Nat.iter k xO m.
Definition digits (m : positive) : Z := Zpos (digits2_pos m).

Lemma digits_pos m : 1 <= digits m.
Proof. unfold digits. pose proof (Pos2Z.is_pos (digits2_pos m)). lia. Qed.

Lemma digits_shl k m : digits (shl k m) = digits m + Z.of_nat k.
Proof.
  induction k as [|k IH]; [symmetry; apply Z.add_0_r|].
  change (digits (shl (S k) m)) with (Zpos (Pos.succ (digits2_pos (shl k m)))).
  rewrite Pos2Z.inj_succ. fold (digits (shl k m)). rewrite IH. lia.
Qed.

Lemma shl_shl j k m : shl j (shl k m) = shl (j + k)%nat m.
Proof. unfold shl. induction j as [|j IH]; simpl; [done|by rewrite IH]. Qed.

Lemma shl_value k m : Zpos (shl k m) = Zpos m * 2 ^ Z.of_nat k.
Proof.
  induction k as [|k IH]; [symmetry; apply Z.mul_1_r|].
  change (shl (S k) m) with (xO (shl k m)). rewrite Pos2Z.inj_xO, IH, Nat2Z.inj_succ, Z.pow_succ_r by lia. lia.
Qed.

Lemma pos_iter_shl d m : Pos.iter xO m d = shl (Pos.to_nat d) m.
Proof. unfold shl. by rewrite Pos2Nat.inj_iter. Qed.

Lemma iter_pos_nat {A} (f : A -> A) p x : iter_pos f p x = Nat.iter (Pos.to_nat p) f x.
Proof.
  revert x. induction p as [p IH|p IH|]; intros x; cbn [iter_pos]; [| |done].
  - rewrite !IH, Pos2Nat.inj_xI. cbn [Nat.iter]. rewrite <-Nat.iter_add, <-Nat.iter_succ_r.
    cbn. do 2 f_equal. lia.
  - rewrite !IH, Pos2Nat.inj_xO, <-Nat.iter_add. f_equal. lia.
Qed.

Definition exact (m : positive) : shr_record := {| shr_m := Zpos m; shr_r := false; shr_s := false |}.

Lemma shr_shl j k m : Nat.iter j shr_1 (exact (shl (j + k)%nat m)) = exact (shl k m).
Proof. induction j as [|j IH]; [done|]. rewrite Nat.iter_succ_r. apply IH. Qed.

(** ** Rounding nothing *)

(** The exponent of an integer of at most 53 digits. *)
Lemma fexp_digits m : digits m <= 53 -> fexp prec emax (digits m) = digits m - 53.
Proof. pose proof (digits_pos m). unfold fexp, emin, prec, emax. lia. Qed.

Definition canonical (m : positive) : f64 := S754_finite false (shl (Z.to_nat (53 - digits m)) m) (digits m - 53).

Lemma round_aux_shl m j :
  digits m <= 53 -> 53 - digits m <= Z.of_nat j ->
  binary_round_aux prec emax false (Zpos (shl j m)) (- Z.of_nat j) loc_Exact = canonical m.
Proof.
  intros Hd Hj. unfold binary_round_aux, shr_fexp. cbn [Zdigits2 shr_record_of_loc].
  change (Zpos (digits2_pos (shl j m))) with (digits (shl j m)). rewrite digits_shl.
  replace (digits m + Z.of_nat j + - Z.of_nat j) with (digits m) by lia. rewrite fexp_digits by done.
  set (k := Z.to_nat (53 - digits m)).
  assert (shr (exact (shl j m)) (- Z.of_nat j) (digits m - 53 - - Z.of_nat j)
          = (exact (shl k m), digits m - 53)) as Hs.
  { destruct (decide (digits m - 53 - - Z.of_nat j = 0)) as [E|E].
    - rewrite E. cbn [shr]. f_equal; [|lia]. do 2 f_equal. unfold k. lia.
    - destruct (digits m - 53 - - Z.of_nat j) as [|p|p] eqn:Ep; [done| |lia]. cbn [shr].
      rewrite iter_pos_nat. replace j with (Pos.to_nat p + k)%nat at 1 by (unfold k; lia).
      rewrite shr_shl. f_equal. lia. }
  fold (exact (shl j m)). rewrite Hs. cbn [shr_m exact loc_of_shr_record round_nearest_even].
  cbn [Zdigits2]. change (Zpos (digits2_pos (shl k m))) with (digits (shl k m)). rewrite digits_shl.
  replace (digits m + Z.of_nat k + (digits m - 53)) with (digits m) by (unfold k; lia).
  rewrite fexp_digits, Z.sub_diag by done. cbn [shr shr_m exact].
  rewrite (proj2 (Z.leb_le _ _)); [done|]. unfold emax, prec. lia.
Qed.

Lemma round_shl m k : digits m <= 53 -> binary_round prec emax false (shl k m) (- Z.of_nat k) = canonical m.
Proof.
  intros Hd. unfold binary_round. change (Zpos (digits2_pos (shl k m))) with (digits (shl k m)).
  rewrite digits_shl. replace (digits m + Z.of_nat k + - Z.of_nat k) with (digits m) by lia.
  rewrite fexp_digits by done. unfold shl_align.
  destruct (digits m - 53 - - Z.of_nat k) as [|p|p] eqn:E.
  - apply round_aux_shl; [done|lia].
  - apply round_aux_shl; [done|lia].
  - rewrite pos_iter_shl, shl_shl.
    replace (digits m - 53) with (- Z.of_nat (Pos.to_nat p + k)) by lia. apply round_aux_shl; [done|lia].
Qed.

(** ** Integers *)

Definition INT_LIMIT : N := 2 ^ 53.

Lemma digits_bound m : (Npos m < INT_LIMIT)%N -> digits m <= 53.
Proof.
  intros Hm. assert (2 ^ (digits m - 1) <= Zpos m) as Hlow.
  { clear Hm. induction m as [m IH|m IH|]; [| |done].
    all: change (digits (xI m)) with (Zpos (Pos.succ (digits2_pos m))) ||
         change (digits (xO m)) with (Zpos (Pos.succ (digits2_pos m))).
    all: rewrite Pos2Z.inj_succ; fold (digits m); replace (Z.succ (digits m) - 1) with (Z.succ (digits m - 1)) by lia;
         rewrite Z.pow_succ_r by (pose proof (digits_pos m); lia); lia. }
  destruct (Z.le_gt_cases (digits m) 53) as [|Hgt]; [done|].
  assert (2 ^ 53 <= 2 ^ (digits m - 1)) by (apply Z.pow_le_mono_r; lia).
  assert (Z.of_N INT_LIMIT = 2 ^ 53) by done. lia.
Qed.

Lemma f_of_pos m : (Npos m < INT_LIMIT)%N -> f_of_N (Npos m) = canonical m.
Proof. intros Hm. apply (round_shl m 0), digits_bound, Hm. Qed.

(** Integer addition is exact as long as the sum is. *)
Lemma f_add_of_N a b : (a + b < INT_LIMIT)%N -> f_add (f_of_N a) (f_of_N b) = f_of_N (a + b).
Proof.
  intros Hab. destruct a as [|a]; [|destruct b as [|b]].
  - destruct b as [|b]; [done|]. change (0 + Npos b)%N with (Npos b). rewrite f_of_pos by lia. reflexivity.
  - change (Npos a + 0)%N with (Npos a). rewrite f_of_pos by lia. reflexivity.
  - change (Npos a + Npos b)%N with (Npos (a + b)).
    assert (digits a <= 53 /\ digits b <= 53 /\ digits (a + b) <= 53) as (Ha & Hb & Hs)
      by (split_and!; apply digits_bound; lia).
    rewrite !f_of_pos by lia. unfold f_add, canonical, SFadd. cbn [cond_Zopp].
    set (ez := Z.min (digits a - 53) (digits b - 53)).
    assert (forall m, digits m <= 53 -> ez <= digits m - 53 ->
      fst (shl_align (shl (Z.to_nat (53 - digits m)) m) (digits m - 53) ez) = shl (Z.to_nat (- ez)) m) as Halign.
    { intros m Hm Hez. unfold shl_align. destruct (ez - (digits m - 53)) as [|p|p] eqn:E; [|lia|]; cbn [fst].
      - f_equal. lia.
      - rewrite pos_iter_shl, shl_shl. f_equal. lia. }
    rewrite !Halign by (done || lia).
    assert (Zpos (shl (Z.to_nat (- ez)) a) + Zpos (shl (Z.to_nat (- ez)) b) = Zpos (shl (Z.to_nat (- ez)) (a + b)))
      as -> by (rewrite !shl_value; lia).
    cbn [binary_normalize]. replace ez with (- Z.of_nat (Z.to_nat (- ez))) at 2 by lia.
    by apply round_shl.
Qed.

(** The integer of a number, where it is one below the limit. *)
Definition int_of (x : f64) : option N :=
  match x with
  | S754_zero false => Some 0%N
  | S754_finite false m e =>
      let n := match e with
               | Zneg k => (Npos m / 2 ^ Npos k)%N
               | _ => (Npos m * 2 ^ Z.to_N e)%N
               end in
      if decide ((n < INT_LIMIT)%N /\ f_of_N n = x) then Some n else None
  | _ => None
  end.

Lemma int_of_sound x n : int_of x = Some n -> (n < INT_LIMIT)%N /\ f_of_N n = x.
Proof.
  destruct x as [[]| | |[] m e]; cbn [int_of]; try done; [by intros [= <-]|].
  case_decide as H; [|done]. intros [= <-]. exact H.
Qed.

Lemma int_of_N n : (n < INT_LIMIT)%N -> int_of (f_of_N n) = Some n.
Proof.
  intros Hn. destruct n as [|m]; [done|]. pose proof (f_of_pos m Hn) as E. rewrite E.
  unfold int_of, canonical. pose proof (digits_bound m Hn) as Hd.
  assert (match digits m - 53 with
          | Zneg k => (Npos (shl (Z.to_nat (53 - digits m)) m) / 2 ^ Npos k)%N
          | _ => (Npos (shl (Z.to_nat (53 - digits m)) m) * 2 ^ Z.to_N (digits m - 53))%N
          end = Npos m) as ->.
  { destruct (digits m - 53) as [|p|p] eqn:Ep; [|lia|].
    - replace (Z.to_nat (53 - digits m)) with 0%nat by lia. simpl. unfold shl. simpl. lia.
    - pose proof (shl_value (Z.to_nat (53 - digits m)) m) as Hv.
      replace (Z.of_nat (Z.to_nat (53 - digits m))) with (Zpos p) in Hv by lia.
      assert (Npos (shl (Z.to_nat (53 - digits m)) m) = Npos m * 2 ^ Npos p)%N as ->
        by (apply N2Z.inj; rewrite N2Z.inj_mul, N2Z.inj_pow; exact Hv).
      apply N.div_mul. lia. }
  rewrite decide_True; [done|]. by rewrite E.
Qed.
