(* ===== verification/Net.v ===== *)
(** * IP addresses

    [IpAddr] with the standard library's parser ([core::net::parser]) and
    [Display]: dotted quads without leading zeros, RFC 5952 text for IPv6 with
    the longest run of zero groups compressed and IPv4-mapped addresses
    dotted; [SocketAddr] parsing; [host:port] printing.  The lemmas read
    a printed IPv4 address back; the rest of the round trip is in [NetProofs]. *)

From stdpp Require Import base list gmap countable strings.
From Stdlib Require Import Ascii NArith Lia.
From S2P Require Import Prelude Bytes Text.

Inductive IpAddr : Type :=
  | V4 (a b c d : N)
  | V6 (segments : list N).

#[export] Instance ip_eq_dec : EqDecision IpAddr.
Proof. solve_decision. Defined.

#[export] Instance ip_countable : Countable IpAddr :=
  inj_countable'
    (fun ip => match ip with V4 a b c d => inl (a, b, c, d) | V6 s => inr s end)
    (fun x => match x with inl (a, b, c, d) => V4 a b c d | inr s => V6 s end)
    (fun ip => match ip with V4 _ _ _ _ => eq_refl | V6 _ => eq_refl end).

(** The values of the Rust types: four octets, or eight 16-bit groups. *)
Definition ip_wf (ip : IpAddr) : Prop :=
  match ip with
  | V4 a b c d => (a <= 255 /\ b <= 255 /\ c <= 255 /\ d <= 255)%N
  | V6 s => length s = 8 /\ Forall (fun g => g <= 65535)%N s
  end.

Definition is_ipv6 (ip : IpAddr) : bool := match ip with V6 _ => true | _ => false end.

Definition is_unspecified (ip : IpAddr) : bool :=
  match ip with
  | V4 a b c d => bool_decide (a = 0 /\ b = 0 /\ c = 0 /\ d = 0)%N
  | V6 s => bool_decide (Forall (fun g => g = 0%N) s)
  end.

Definition UNSPECIFIED : IpAddr := V4 0 0 0 0.

(** ** The parser: a reader returns a value and the remaining input *)

Definition reader A := bytes -> option (A * bytes).

Definition p_given (c : ascii) : reader unit := fun s =>
  match s with
  | x :: s' => if decide (x = c) then Some (tt, s') else None
  | [] => None
  end.

Fixpoint digit_run (radix : N) (s : bytes) : list N * bytes :=
  match s with
  | c :: s' => match to_digit radix c with
               | Some d => let '(ds, r) := digit_run radix s' in (d :: ds, r)
               | None => ([], s)
               end
  | [] => ([], [])
  end.

(** [read_number(radix, max_digits, allow_zero_prefix)] into a type with
    maximum [max]. *)
Definition p_number (radix : N) (max_digits : option nat) (allow_zero_prefix : bool)
    (max : N) : reader N := fun s =>
  let '(ds, r) := digit_run radix s in
  let n := foldl (fun acc d => acc * radix + d)%N 0%N ds in
  let too_long := match max_digits with Some k => bool_decide (k < length ds) | None => false end in
  let leading_zero := bool_decide (head s = Some "0"%char) in
  if too_long || bool_decide (ds = []) then None
  else if negb allow_zero_prefix && leading_zero && bool_decide (1 < length ds) then None
  else if (n <=? max)%N then Some (n, r) else None.

(** [read_separator(sep, index, inner)]: the separator before all but the first. *)
Definition p_separator {A} (sep : ascii) (index : nat) (inner : reader A) : reader A := fun s =>
  match index with
  | 0 => inner s
  | _ => '(_, s') ← p_given sep s; inner s'
  end.

Definition p_octet : reader N := p_number 10 (Some 3) false 255.

Definition p_ipv4 : reader IpAddr := fun s =>
  '(a, s) ← p_separator "." 0 p_octet s;
  '(b, s) ← p_separator "." 1 p_octet s;
  '(c, s) ← p_separator "." 2 p_octet s;
  '(d, s) ← p_separator "." 3 p_octet s;
  Some (V4 a b c d, s).

(** [read_groups] over the [limit - i] groups still wanted: the groups read,
    whether an embedded IPv4 address ended them, and the remaining input. *)
Fixpoint p_groups (n : nat) (i limit : nat) (s : bytes) : list N * bool * bytes :=
  match n with
  | 0 => ([], false, s)
  | S m =>
      let v4 := if bool_decide (S i < limit) then p_separator ":" i p_ipv4 s else None in
      match v4 with
      | Some (V4 a b c d, r) => ([a * 256 + b; c * 256 + d]%N, true, r)
      | _ =>
          match p_separator ":" i (p_number 16 (Some 4) true 65535) s with
          | Some (g, r) => let '(gs, v, r') := p_groups m (S i) limit r in (g :: gs, v, r')
          | None => ([], false, s)
          end
      end
  end.

Definition p_ipv6 : reader IpAddr := fun s =>
  let '(hd, head_ipv4, s1) := p_groups 8 0 8 s in
  if bool_decide (length hd = 8) then Some (V6 hd, s1)
  else if head_ipv4 then None
  else
    '(_, s2) ← p_given ":" s1;
    '(_, s3) ← p_given ":" s2;
    let limit := 8 - (length hd + 1) in
    let '(tl, _, s4) := p_groups limit 0 limit s3 in
    Some (V6 (hd ++ replicate (8 - length hd - length tl) 0%N ++ tl), s4).

Definition p_ip : reader IpAddr := fun s =>
  match p_ipv4 s with
  | Some x => Some x
  | None => p_ipv6 s
  end.

(** [parse_with]: the whole input must be consumed. *)
Definition parse_all {A} (p : reader A) (s : bytes) : option A :=
  match p s with
  | Some (a, []) => Some a
  | _ => None
  end.

(** [str::parse::<IpAddr>]. *)
Definition parse_ip (s : bytes) : option IpAddr := parse_all p_ip s.

Definition p_port : reader N := fun s => '(_, s) ← p_given ":" s; p_number 10 None true 65535 s.

(** [str::parse::<SocketAddr>] as the pair of its [ip()] and [port()]. *)
Definition p_socket_v4 : reader (IpAddr * N) := fun s =>
  '(ip, s) ← p_ipv4 s; '(port, s) ← p_port s; Some ((ip, port), s).

Definition p_scope : reader N := fun s =>
  '(_, s) ← p_given "%" s; p_number 10 None true 4294967295 s.

Definition p_socket_v6 : reader (IpAddr * N) := fun s =>
  '(_, s) ← p_given "[" s;
  '(ip, s) ← p_ipv6 s;
  let s := match p_scope s with Some (_, r) => r | None => s end in
  '(_, s) ← p_given "]" s;
  '(port, s) ← p_port s; Some ((ip, port), s).

Definition parse_socket_addr (s : bytes) : option (IpAddr * N) :=
  parse_all (fun s => match p_socket_v4 s with
                      | Some x => Some x
                      | None => p_socket_v6 s
                      end) s.

(** ** [Display] *)

Definition show_v4 (a b c d : N) : bytes := join (bs ".") [show_N a; show_N b; show_N c; show_N d].

(** The first longest run of zero groups: [(start, length)]. *)
Fixpoint zero_run (i : nat) (s : list N) (cur longest : nat * nat) : nat * nat :=
  match s with
  | [] => longest
  | g :: s' =>
      if decide (g = 0%N) then
        let cur := (if decide (cur.2 = 0) then i else cur.1, S cur.2) in
        zero_run (S i) s' cur (if decide (longest.2 < cur.2) then cur else longest)
      else zero_run (S i) s' (0, 0) longest
  end.

Definition show_groups (s : list N) : bytes := join (bs ":") (show_hex <$> s).

(** [Ipv6Addr::to_ipv4_mapped], as the last two groups. *)
Definition to_ipv4_mapped (s : list N) : option (N * N) :=
  match s with
  | [a; b; c; d; e; f; x; y] =>
      if decide ([a; b; c; d; e; f] = [0; 0; 0; 0; 0; 65535]%N) then Some (x, y) else None
  | _ => None
  end.

Definition show_v6 (s : list N) : bytes :=
  match to_ipv4_mapped s with
  | Some (x, y) => bs "::ffff:" ++ show_v4 (x / 256) (x mod 256) (y / 256) (y mod 256)
  | None =>
      let '(start, len) := zero_run 0 s (0, 0) (0, 0) in
      if decide (1 < len)
      then show_groups (take start s) ++ bs "::" ++ show_groups (drop (start + len) s)
      else show_groups s
  end.

(** [IpAddr::to_string]. *)
Definition show_ip (ip : IpAddr) : bytes :=
  match ip with
  | V4 a b c d => show_v4 a b c d
  | V6 s => show_v6 s
  end.

(** ** Lemmas *)

Lemma digit_run_app radix a r ds :
  digit_run radix a = (ds, []) -> (forall c, head r = Some c -> to_digit radix c = None) ->
  digit_run radix (a ++ r) = (ds, r).
Proof.
  revert ds. induction a as [|c a IH]; intros ds; simpl.
  - intros [= <-] Hr. destruct r as [|c r]; [done|]. simpl. by rewrite Hr.
  - destruct (to_digit radix c); [|done].
    destruct (digit_run radix a) as [ds' r'] eqn:E. intros [= <- ->] Hr.
    by rewrite (IH ds').
Qed.

Lemma p_number_app radix md zp max a r n :
  p_number radix md zp max a = Some (n, []) ->
  (forall c, head r = Some c -> to_digit radix c = None) ->
  p_number radix md zp max (a ++ r) = Some (n, r).
Proof.
  unfold p_number. destruct (digit_run radix a) as [ds r'] eqn:E. intros H Hr.
  destruct a as [|c a].
  { simpl in E. simplify_eq. by destruct md. }
  destruct (_ || _) eqn:E1 in H; [done|]. destruct (_ && _) eqn:E2 in H; [done|].
  destruct (_ <=? _)%N eqn:E3 in H; simplify_eq.
  rewrite (digit_run_app _ _ _ _ E Hr). cbn in E1, E2 |- *. by rewrite E1, E2, E3.
Qed.

(** Every printed octet is read back, by evaluation over the 256 of them. *)
Lemma below_256 (P : N -> bool) :
  forallb P (N.of_nat <$> seq 0 256) = true -> forall n, (n <= 255)%N -> P n = true.
Proof.
  intros H n Hn. rewrite forallb_forall in H. apply H.
  apply list_elem_of_In, list_elem_of_fmap. exists (N.to_nat n).
  split; [by rewrite N2Nat.id|]. apply elem_of_seq. lia.
Qed.

Lemma p_octet_show n : (n <= 255)%N -> p_octet (show_N n) = Some (n, []).
Proof.
  intros Hn. apply (bool_decide_eq_true_1 (p_octet (show_N n) = Some (n, []))). revert n Hn.
  apply (below_256 (fun n => bool_decide (p_octet (show_N n) = Some (n, [])))).
  vm_compute. reflexivity.
Qed.

Lemma p_octet_show_app n r :
  (n <= 255)%N -> (forall c, head r = Some c -> to_digit 10 c = None) ->
  p_octet (show_N n ++ r) = Some (n, r).
Proof. intros Hn. by apply p_number_app, p_octet_show. Qed.

Lemma p_separator_0 {A} sep (p : reader A) s : p_separator sep 0 p s = p s.
Proof. done. Qed.

Lemma p_separator_S {A} c i (p : reader A) s : p_separator c (S i) p ([c] ++ s) = p s.
Proof. unfold p_separator, p_given. simpl. by rewrite decide_True. Qed.

Lemma p_ipv4_show a b c d r :
  ip_wf (V4 a b c d) -> (forall x, head r = Some x -> to_digit 10 x = None) ->
  p_ipv4 (show_v4 a b c d ++ r) = Some (V4 a b c d, r).
Proof.
  intros (Ha & Hb & Hc & Hd) Hr. unfold p_ipv4, show_v4. cbn [join].
  rewrite <- !app_assoc, p_separator_0, p_octet_show_app by (done || by intros ? [= <-]).
  cbn [mbind option_bind]. rewrite p_separator_S, p_octet_show_app by (done || by intros ? [= <-]).
  cbn [mbind option_bind]. rewrite p_separator_S, p_octet_show_app by (done || by intros ? [= <-]).
  cbn [mbind option_bind]. rewrite p_separator_S. by rewrite p_octet_show_app.
Qed.

Lemma parse_show_v4 a b c d :
  ip_wf (V4 a b c d) -> parse_ip (show_ip (V4 a b c d)) = Some (V4 a b c d).
Proof.
  intros H. unfold parse_ip, parse_all, p_ip. simpl show_ip.
  rewrite <- (app_nil_r (show_v4 a b c d)), p_ipv4_show; done.
Qed.

Example parse_ip_tests :
  (parse_ip <$> [bs "1.2.3.4"; bs "01.2.3.4"; bs "1.2.3"; bs "256.1.1.1"; bs "::1";
                 bs "2001:db8::1"; bs "::ffff:1.2.3.4"; bs "1:2:3:4:5:6:7:8"; bs "1::2::3";
                 bs "fe80::1%eth0"; bs ""])
  = [Some (V4 1 2 3 4); None; None; None; Some (V6 [0;0;0;0;0;0;0;1]);
     Some (V6 [0x2001;0xdb8;0;0;0;0;0;1]); Some (V6 [0;0;0;0;0;0xffff;0x102;0x304]);
     Some (V6 [1;2;3;4;5;6;7;8]); None; None; None]%N.
Proof. vm_compute. reflexivity. Qed.

Example show_ip_tests :
  (show_ip <$> [V6 [0;0;0;0;0;0;0;1]; V6 [0;0;0;0;0;0;0;0]; V6 [1;0;0;2;0;0;0;3];
                V6 [0;0;0;0;0;0xffff;0x102;0x304]; V6 [1;0;2;3;4;5;6;7];
                V6 [0x2001;0xdb8;0;0;1;0;0;1]]%N)
  = [bs "::1"; bs "::"; bs "1:0:0:2::3"; bs "::ffff:1.2.3.4"; bs "1:0:2:3:4:5:6:7";
     bs "2001:db8::1:0:0:1"].
Proof. vm_compute. reflexivity. Qed.
