(* ===== verification/NetProofs.v ===== *)
(** * The text of addresses is read back

    The print/parse round trip for every IPv4 and IPv6 address (the compressed
    and the IPv4-mapped forms included) and for [host:port] texts, which the
    stores, the files, the control API and the tools rely on when they hand an
    address out as text and take it back. *)

From stdpp Require Import base list gmap strings.
From Stdlib Require Import Ascii NArith Lia.
From S2P Require Import Prelude Bytes Text Net.

(** ** Numbers *)

Lemma digits_value_run radix acc s n :
  digits_value radix acc s = Some n ->
  exists ds, digit_run radix s = (ds, []) /\ length ds = length s /\
             foldl (fun a d => a * radix + d)%N acc ds = n.
Proof.
  revert acc. induction s as [|c s IH]; intros acc; cbn [digits_value digit_run].
  - intros [= <-]. by exists [].
  - destruct (to_digit radix c) as [d|]; [|done]. cbn [mbind option_bind].
    intros (ds & E & Hl & Hf)%IH. rewrite E. exists (d :: ds). simpl. auto with f_equal.
Qed.

Lemma show_fuel_length k fuel radix n acc :
  (2 <= radix)%N -> (n < radix ^ N.of_nat k)%N -> 1 <= k ->
  length (show_fuel fuel radix n acc) <= k + length acc.
Proof.
  intros Hr. revert k n acc. induction fuel as [|f IH]; intros k n acc Hn Hk; cbn [show_fuel]; [lia|].
  destruct (N.ltb_spec n radix) as [|Hge]; [simpl; lia|].
  destruct k as [|k]; [lia|]. rewrite Nat2N.inj_succ, N.pow_succ_r' in Hn.
  assert (1 <= k) as Hk1 by (destruct k; [simpl in Hn; lia|lia]).
  specialize (IH k (n / radix)%N (digit_char (n mod radix) :: acc)).
  simpl in IH |- *. rewrite Nat.add_succ_r in IH. apply IH; [|done].
  apply N.Div0.div_lt_upper_bound. lia.
Qed.

(** A number of the radix, without leading zeros, is read back. *)
Lemma p_number_show radix md max n r s :
  digits_value radix 0 s = Some n -> s <> [] -> (n <= max)%N ->
  match md with Some k => length s <= k | None => True end ->
  (forall c, head r = Some c -> to_digit radix c = None) ->
  p_number radix md true max (s ++ r) = Some (n, r).
Proof.
  intros Hv Hne Hn Hmd Hr. apply p_number_app; [|done].
  apply digits_value_run in Hv as (ds & E & Hl & Hf). unfold p_number. rewrite E.
  assert (match md with Some k => bool_decide (k < length ds) | None => false end = false) as ->.
  { destruct md; [|done]. apply bool_decide_eq_false. lia. }
  rewrite bool_decide_false by (destruct ds; [by destruct s|done]). simpl. rewrite Hf.
  by apply N.leb_le in Hn as ->.
Qed.

Definition p_group : reader N := p_number 16 (Some 4) true 65535.

(** What may follow a group: neither a digit nor a dot. *)
Definition ends_group (r : bytes) : Prop :=
  forall c, head r = Some c -> to_digit 16 c = None /\ c <> "."%char.

Lemma p_group_show g r : (g <= 65535)%N -> ends_group r -> p_group (show_hex g ++ r) = Some (g, r).
Proof.
  intros Hg Hr. apply p_number_show; [apply show_hex_value|apply show_fuel_nonempty|done| |].
  - etrans; [apply (show_fuel_length 4); simpl; lia|]. simpl. lia.
  - intros c Hc. by apply Hr.
Qed.

(** ** No group of an IPv6 address is taken for a dotted quad *)

Lemma to_digit_mono c r1 r2 : (r1 <= r2)%N -> to_digit r2 c = None -> to_digit r1 c = None.
Proof.
  intros Hr. unfold to_digit. destruct (digit_val c) as [d|]; [|done]. simpl.
  destruct (N.ltb_spec d r2); [done|]. destruct (N.ltb_spec d r1); [lia|done].
Qed.

Lemma digit_run_split radix g r :
  (forall c, head r = Some c -> to_digit radix c = None) ->
  exists a b, g = a ++ b /\ (digit_run radix (g ++ r)).2 = b ++ r.
Proof.
  intros Hr. induction g as [|c g (a & b & -> & IH)]; cbn [app digit_run].
  - exists [], []. split; [done|]. destruct r as [|c r]; [done|]. cbn [digit_run]. by rewrite Hr.
  - destruct (to_digit radix c).
    + exists (c :: a), b. split; [done|]. by destruct (digit_run radix _).
    + by exists [], (c :: a ++ b).
Qed.

Lemma p_number_rest radix md zp max s n r :
  p_number radix md zp max s = Some (n, r) -> r = (digit_run radix s).2.
Proof. unfold p_number. destruct (digit_run radix s). intros H. repeat case_match; by simplify_eq. Qed.

Lemma p_separator_head {A} sep i (p : reader A) s : i <> 0 -> head s <> Some sep -> p_separator sep i p s = None.
Proof.
  destruct i; [done|]. intros _ Hs. unfold p_separator, p_given. destruct s as [|x s]; [done|].
  rewrite decide_False; [done|]. intros ->. by apply Hs.
Qed.

Lemma p_ipv4_no_dot g r : "."%char ∉ g -> ends_group r -> p_ipv4 (g ++ r) = None.
Proof.
  intros Hg Hr. unfold p_ipv4. rewrite p_separator_0.
  destruct (p_octet (g ++ r)) as [[n l]|] eqn:E; [|done]. cbn [mbind option_bind].
  apply p_number_rest in E. destruct (digit_run_split 10 g r) as (a & b & -> & Hb).
  { intros c Hc. apply (to_digit_mono c 10 16); [lia|]. by apply Hr. }
  rewrite Hb in E. subst l. rewrite p_separator_head; [done|done|].
  destruct b as [|x b]; simpl; [intros Hc; by apply Hr in Hc as []|]. intros [= ->]. set_solver.
Qed.

Lemma show_hex_no_dot g : "."%char ∉ show_hex g.
Proof.
  intros H. pose proof (digits_value_all_digits _ _ _ _ (show_hex_value g)) as Hf.
  rewrite Forall_forall in Hf. apply Hf in H as [d Hd]. by vm_compute in Hd.
Qed.

Lemma p_ipv4_group g r : ends_group r -> p_ipv4 (show_hex g ++ r) = None.
Proof. apply p_ipv4_no_dot, show_hex_no_dot. Qed.

(** ** Groups *)

(** The groups after the first, each behind its colon. *)
Definition more_groups (gs : list N) : bytes := mjoin ((fun g => bs ":" ++ show_hex g) <$> gs).

Lemma show_groups_cons g gs : show_groups (g :: gs) = show_hex g ++ more_groups gs.
Proof.
  revert g. induction gs as [|g' gs IH]; intros g; [by cbn; rewrite app_nil_r|].
  change (show_groups (g :: g' :: gs)) with (show_hex g ++ bs ":" ++ show_groups (g' :: gs)).
  by rewrite IH.
Qed.

(** No group can be read at [r] as the [i]-th. *)
Definition no_group (i : nat) (r : bytes) : Prop :=
  p_separator ":" i p_ipv4 r = None /\ p_separator ":" i p_group r = None.

Lemma ends_group_more gs r : ends_group r -> ends_group (more_groups gs ++ r).
Proof. destruct gs as [|g gs]; [done|]. intros _ c. simpl. intros [= <-]. by vm_compute. Qed.

Lemma p_groups_step n i limit g r :
  (g <= 65535)%N -> ends_group r -> 
  p_groups (S n) i limit ((if i =? 0 then [] else bs ":") ++ show_hex g ++ r) =
  let '(gs, v, r') := p_groups n (S i) limit r in (g :: gs, v, r').
Proof.
  intros Hg Hr. cbn [p_groups]. fold p_group.
  assert (forall A (p : reader A), p_separator ":" i p ((if i =? 0 then [] else bs ":") ++ show_hex g ++ r)
            = p (show_hex g ++ r)) as Hs by (by destruct i).
  rewrite !Hs, p_ipv4_group, p_group_show by done. by case_bool_decide.
Qed.

Lemma p_groups_first n limit g r :
  (g <= 65535)%N -> ends_group r ->
  p_groups (S n) 0 limit (show_hex g ++ r) = let '(gs, v, r') := p_groups n 1 limit r in (g :: gs, v, r').
Proof. apply (p_groups_step n 0). Qed.

Lemma p_groups_stop n i limit r : no_group i r -> p_groups n i limit r = ([], false, r).
Proof.
  intros [H4 Hg]. destruct n; [done|]. cbn [p_groups]. fold p_group. rewrite H4, Hg. by case_bool_decide.
Qed.

Lemma p_groups_more gs n i limit r :
  Forall (fun g => g <= 65535)%N gs -> length gs <= n -> ends_group r ->
  (length gs = n \/ no_group (S i + length gs) r) ->
  p_groups n (S i) limit (more_groups gs ++ r) = (gs, false, r).
Proof.
  intros Hf. revert n i. induction Hf as [|g gs Hg Hf IH]; intros n i Hn Hr Hstop; simpl in Hn.
  - cbn [more_groups app]. destruct Hstop as [<-|Hs]; [done|]. rewrite Nat.add_0_r in Hs. by apply p_groups_stop.
  - destruct n as [|n]; [lia|]. change (more_groups (g :: gs)) with ((bs ":" ++ show_hex g) ++ more_groups gs).
    rewrite <-!app_assoc. rewrite (p_groups_step n (S i)) by (done || by apply ends_group_more).
    rewrite IH; [done|lia|done|]. simpl in Hstop. rewrite Nat.add_succ_r in Hstop. destruct Hstop; [left; lia|by right].
Qed.

Lemma p_groups_show gs n limit r :
  Forall (fun g => g <= 65535)%N gs -> length gs <= n -> ends_group r ->
  (length gs = n \/ no_group (length gs) r) ->
  p_groups n 0 limit (show_groups gs ++ r) = (gs, false, r).
Proof.
  intros Hf Hn Hr Hstop. destruct Hf as [|g gs Hg Hf].
  - cbn in *. destruct Hstop as [<-|]; [done|]. by apply p_groups_stop.
  - destruct n as [|n]; [simpl in Hn; lia|]. rewrite show_groups_cons, <-app_assoc.
    rewrite p_groups_first by (done || by apply ends_group_more).
    rewrite p_groups_more; [done|done|simpl in Hn; lia|done|]. simpl in Hstop. destruct Hstop; [left; lia|by right].
Qed.

(** ** The longest run of zeros *)

Lemma zero_run_spec done_ rest cur longest :
  let full := done_ ++ rest in
  let ok (r : nat * nat) := r.1 + r.2 <= length full /\
    forall j, r.1 <= j < r.1 + r.2 -> full !! j = Some 0%N in
  (cur.2 = 0 \/ (cur.1 + cur.2 = length done_ /\ ok cur)) -> ok longest ->
  ok (zero_run (length done_) rest cur longest).
Proof.
  cbn zeta. revert done_ cur longest. induction rest as [|g rest IH]; intros dn cur lg Hc Hl; [done|].
  cbn [zero_run]. assert (dn ++ g :: rest = (dn ++ [g]) ++ rest) as Ea by (by rewrite <-app_assoc).
  assert (S (length dn) = length (dn ++ [g])) as El by (rewrite length_app; simpl; lia).
  case_decide as Hg.
  - subst g. set (cur' := (if decide (cur.2 = 0) then length dn else cur.1, S cur.2)).
    assert (cur'.1 + cur'.2 = length (dn ++ [0%N]) /\
            cur'.1 + cur'.2 <= length (dn ++ 0%N :: rest) /\
            forall j, cur'.1 <= j < cur'.1 + cur'.2 -> (dn ++ 0%N :: rest) !! j = Some 0%N) as Hc'.
    { assert ((dn ++ 0%N :: rest) !! length dn = Some 0%N) as Hat by (by apply list_lookup_middle).
      unfold cur'; cbn [fst snd]. rewrite !length_app. simpl. case_decide as Hz.
      - rewrite Hz. split_and!; [lia|lia|]. intros j Hj. by replace j with (length dn) by lia.
      - destruct Hc as [?|[He [_ Hcz]]]; [done|]. split_and!; [lia|lia|]. intros j Hj.
        destruct (decide (j = length dn)) as [->|]; [done|]. apply Hcz. lia. }
    rewrite El, Ea. rewrite Ea in Hc', Hl. destruct Hc' as [Hc1 Hc2].
    apply IH; [right; split; [exact Hc1|exact Hc2]|]. case_decide; [exact Hc2|exact Hl].
  - rewrite El, Ea. rewrite Ea in Hl. apply IH; [by left|done].
Qed.

Lemma zero_run_split s st len :
  zero_run 0 s (0, 0) (0, 0) = (st, len) ->
  st + len <= length s /\ s = take st s ++ replicate len 0%N ++ drop (st + len) s.
Proof.
  intros E. pose proof (zero_run_spec [] s (0, 0) (0, 0)) as H. cbn [length app fst snd] in H.
  rewrite E in H. cbn [fst snd] in H. destruct H as [Hle Hz]; [by left|split; [lia|intros; lia]|].
  split; [done|]. rewrite <-(take_drop st s) at 1. f_equal.
  rewrite <-(take_drop len (drop st s)) at 1. rewrite drop_drop. f_equal.
  apply list_eq_same_length with len; [by rewrite length_replicate|rewrite length_take, length_drop; lia|].
  intros j x y Hj Hx Hy. apply lookup_replicate in Hy as [-> _].
  apply lookup_take_Some in Hx as [Hx _]. rewrite lookup_drop, Hz in Hx by lia. congruence.
Qed.

(** ** Addresses *)

(** What may follow an address: the end, or the bracket of a socket address. *)
Definition closing (r : bytes) : Prop := r = [] \/ exists r', r = bs "]" ++ r'.

Lemma closing_ends r : closing r -> ends_group r.
Proof. intros [->|[r' ->]] c; simpl; [done|]. by intros [= <-]. Qed.

Lemma closing_no_group i r : closing r -> no_group i r.
Proof. intros [->|[r' ->]]; destruct i; done. Qed.

Lemma gap_no_group i r : no_group i (bs "::" ++ r).
Proof. by destruct i. Qed.

Lemma gap_ends r : ends_group (bs "::" ++ r).
Proof. intros c. simpl. by intros [= <-]. Qed.

Definition groups_ok : list N -> Prop := Forall (fun g => g <= 65535)%N.

Lemma p_given_app c r : p_given c (c :: r) = Some (tt, r).
Proof. unfold p_given. by rewrite decide_True. Qed.

(** Head and tail of a compressed address, with what the gap stands for. *)
Lemma p_ipv6_gap hd tl r :
  groups_ok hd -> groups_ok tl -> length hd + length tl < 8 -> closing r ->
  p_ipv6 (show_groups hd ++ bs "::" ++ show_groups tl ++ r) =
  Some (V6 (hd ++ replicate (8 - length hd - length tl) 0%N ++ tl), r).
Proof.
  intros Hh Ht Hl Hr. unfold p_ipv6.
  rewrite p_groups_show by (done || lia || apply gap_ends || (right; apply gap_no_group)).
  rewrite bool_decide_false by lia. 
  change (bs "::" ++ (show_groups tl ++ r)) with (":"%char :: ":"%char :: (show_groups tl ++ r)). rewrite !p_given_app. cbn [mbind option_bind].
  rewrite !p_given_app. cbn [mbind option_bind]. rewrite p_groups_show; [done|done|lia|by apply closing_ends|right; by apply closing_no_group].
Qed.

(** The dotted text of an IPv4-mapped address. *)
Lemma p_ipv6_mapped x y r :
  (x <= 65535)%N -> (y <= 65535)%N -> closing r ->
  p_ipv6 (bs "::ffff:" ++ show_v4 (x / 256) (x mod 256) (y / 256) (y mod 256) ++ r) =
  Some (V6 [0; 0; 0; 0; 0; 65535; x; y]%N, r).
Proof.
  intros Hx Hy Hr. unfold p_ipv6. rewrite (p_groups_stop 8 0 8 (bs "::ffff:" ++ _)) by done.
  rewrite bool_decide_false by done.
  set (quad := show_v4 _ _ _ _ ++ r).
  change (bs "::ffff:" ++ quad) with (":"%char :: ":"%char :: show_hex 65535 ++ bs ":" ++ quad).
  rewrite !p_given_app. cbn [mbind option_bind]. rewrite !p_given_app. cbn [mbind option_bind].
  change (8 - (length [] + 1)) with 7.
  assert (forall k, (k <= 65535)%N -> (k / 256 <= 255)%N /\ (k mod 256 <= 255)%N /\ (k / 256 * 256 + k mod 256 = k)%N)
    as Hk.
  { intros k Hk. pose proof (N.div_mod k 256). pose proof (N.mod_lt k 256).
    assert (k / 256 < 256)%N by (apply N.Div0.div_lt_upper_bound; lia). lia. }
  destruct (Hk x Hx) as (? & ? & Ex), (Hk y Hy) as (? & ? & Ey).
  rewrite p_groups_first by (done || (intros c; simpl; by intros [= <-])).
  cbn [p_groups]. rewrite p_separator_S. unfold quad. rewrite p_ipv4_show; [|done|].
  - rewrite bool_decide_true by lia. cbn. by rewrite Ex, Ey.
  - intros c Hc. apply (to_digit_mono c 10 16); [lia|]. by apply (closing_ends r).
Qed.

Lemma to_ipv4_mapped_Some s x y : to_ipv4_mapped s = Some (x, y) -> s = [0; 0; 0; 0; 0; 65535; x; y]%N.
Proof.
  destruct s as [|? [|? [|? [|? [|? [|? [|? [|? [|]]]]]]]]]; cbn [to_ipv4_mapped]; try done.
  case_decide; [|done]. intros. by simplify_eq.
Qed.

Lemma p_ipv6_show s r : ip_wf (V6 s) -> closing r -> p_ipv6 (show_v6 s ++ r) = Some (V6 s, r).
Proof.
  intros [Hl Hf] Hr. unfold show_v6. destruct (to_ipv4_mapped s) as [[x y]|] eqn:Em.
  - apply to_ipv4_mapped_Some in Em as ->. rewrite !Forall_cons in Hf. rewrite <-app_assoc.
    apply p_ipv6_mapped; [tauto|tauto|done].
  - destruct (zero_run _ _ _ _) as [st len] eqn:Ez. apply zero_run_split in Ez as [Hle Es]. case_decide.
    + rewrite <-!app_assoc. rewrite p_ipv6_gap; [|by apply Forall_take|by apply Forall_drop| |done].
      * rewrite length_take, length_drop. replace (8 - _ - _) with len by lia. by rewrite <-Es.
      * rewrite length_take, length_drop. lia.
    + unfold p_ipv6. rewrite p_groups_show; [|done|lia|by apply closing_ends|by left].
      by rewrite bool_decide_true.
Qed.

Lemma show_v6_not_v4 s r : ip_wf (V6 s) -> closing r -> p_ipv4 (show_v6 s ++ r) = None.
Proof.
  intros [Hl Hf] Hr. unfold show_v6. destruct (to_ipv4_mapped s) as [[x y]|]; [done|].
  destruct (zero_run _ _ _ _) as [st len]. 
  assert (forall gs r, p_ipv4 (show_groups gs ++ bs "::" ++ r) = None) as Hg.
  { intros [|g gs] r0; [done|]. rewrite show_groups_cons, <-app_assoc. apply p_ipv4_group.
    apply ends_group_more, gap_ends. }
  case_decide; [rewrite <-!app_assoc; apply Hg|].
  destruct s as [|g gs]; [done|]. rewrite show_groups_cons, <-app_assoc. apply p_ipv4_group.
  by apply ends_group_more, closing_ends.
Qed.

(** Every address of the type is printed so that it reads back as itself. *)
Lemma parse_show_ip ip : ip_wf ip -> parse_ip (show_ip ip) = Some ip.
Proof.
  destruct ip as [a b c d|s]; intros H; [by apply parse_show_v4|].
  unfold parse_ip, parse_all, p_ip, show_ip. rewrite <-(app_nil_r (show_v6 s)).
  rewrite show_v6_not_v4, p_ipv6_show by (done || by left). done.
Qed.

Lemma p_port_show n : (n <= 65535)%N -> p_port (bs ":" ++ show_N n) = Some (n, []).
Proof.
  intros Hn. unfold p_port. change (bs ":" ++ show_N n) with (":"%char :: show_N n).
  rewrite p_given_app. cbn [mbind option_bind]. rewrite <-(app_nil_r (show_N n)).
  apply p_number_show; [apply show_N_value|apply show_fuel_nonempty|done|done|done].
Qed.

(** The addresses and ports of the Rust types. *)
Definition key_wf (k : IpAddr * N) : Prop := ip_wf k.1 /\ (k.2 <= 65535)%N.

#[export] Instance ip_wf_dec ip : Decision (ip_wf ip).
Proof. destruct ip; apply _. Defined.
#[export] Instance key_wf_dec k : Decision (key_wf k).
Proof. apply _. Defined.

(** The text of a socket address. *)
Definition show_socket (ip : IpAddr) (pt : N) : bytes :=
  match ip with
  | V4 _ _ _ _ => show_ip ip ++ bs ":" ++ show_N pt
  | V6 _ => bs "[" ++ show_ip ip ++ bs "]:" ++ show_N pt
  end.

Lemma parse_show_socket ip pt : key_wf (ip, pt) -> parse_socket_addr (show_socket ip pt) = Some (ip, pt).
Proof.
  intros [Hip Hpt]; simpl in Hip, Hpt. unfold parse_socket_addr, parse_all, show_socket.
  destruct ip as [a b c d|s]; cbn [show_ip].
  - unfold p_socket_v4. rewrite p_ipv4_show by (done || (intros c'; simpl; by intros [= <-])).
    cbn [mbind option_bind]. by rewrite p_port_show.
  - set (rest := bs "]:" ++ show_N pt).
    change (bs "[" ++ show_v6 s ++ rest) with ("["%char :: (show_v6 s ++ rest)).
    change (p_socket_v4 ("["%char :: _)) with (@None (IpAddr * N * bytes)). cbv iota.
    unfold p_socket_v6. rewrite p_given_app. cbn [mbind option_bind].
    rewrite p_ipv6_show; [|done|right; by exists (bs ":" ++ show_N pt)].
    cbn [mbind option_bind]. change rest with ("]"%char :: bs ":" ++ show_N pt).
    change (p_scope ("]"%char :: _)) with (@None (N * bytes)). cbv iota.
    rewrite p_given_app. cbn [mbind option_bind]. by rewrite p_port_show.
Qed.

#[export] Hint Resolve parse_show_ip parse_show_socket : pb.
