(* ===== verification/Regex.v ===== *)
(** * A leftmost-first regular expression matcher

    The two address scanners ([src/utils.rs], [src/parse.rs]) use three literal
    patterns of the [regex] crate without anchors, captures or lookaround.  The
    patterns are written here as the abstract syntax of the constructs they
    use; [candidates] enumerates the ways a pattern matches at the head of a
    text in the priority order of a backtracking matcher, and [find_at] and
    [find_iter] are the searches built on it, character by character. *)

From stdpp Require Import base list gmap strings.
From Stdlib Require Import Ascii NArith Lia.
From S2P Require Import Prelude Bytes Text.

Inductive regex : Type :=
  | RClass (p : N -> bool)        (** one character of a class *)
  | RSeq (a b : regex)
  | RAlt (a b : regex)            (** the left alternative first *)
  | REps
  | RStar (a : regex).            (** greedy *)

Definition ROpt (a : regex) : regex := RAlt a REps.
Definition RLit (c : ascii) : regex := RClass (N.eqb (code c)).
Fixpoint RRep (n : nat) (a : regex) : regex :=
  match n with 0 => REps | S n => RSeq a (RRep n a) end.
(** Greedy: at most [n] copies; then at least [m] and at most [m + n]. *)
Fixpoint RUpTo (n : nat) (a : regex) : regex :=
  match n with 0 => REps | S n => ROpt (RSeq a (RUpTo n a)) end.
Definition RBetween (m n : nat) (a : regex) : regex := RSeq (RRep m a) (RUpTo n a).

(** Greedy iteration: each further copy must consume something. *)
Fixpoint star (fuel : nat) (step : bytes -> list nat) (s : bytes) : list nat :=
  match fuel with
  | 0 => [0]
  | S f =>
      (n ← filter (fun n => 0 < n) (step s); Nat.add n <$> star f step (drop n s)) ++ [0]
  end.

(** The lengths of the matches at the head of [s], best first. *)
Fixpoint candidates (r : regex) (s : bytes) : list nat :=
  match r with
  | RClass p => match utf8_head s with
                | Some (n, Some v) => if p v && (n <=? length s) then [n] else []
                | _ => []
                end
  | RSeq a b => n ← candidates a s; Nat.add n <$> candidates b (drop n s)
  | RAlt a b => candidates a s ++ candidates b s
  | REps => [0]
  | RStar a => star (length s) (candidates a) s
  end.

Definition match_here (r : regex) (s : bytes) : option nat := head (candidates r s).

(** A match: its start, its end (both offsets) and its text. *)
Record Match := { m_start : nat; m_end : nat; m_str : bytes }.

(** The leftmost match whose start is at or after [i]: [s] is the text from [i]. *)
Fixpoint search (fuel : nat) (r : regex) (i : nat) (s : bytes) : option Match :=
  match match_here r s with
  | Some n => Some {| m_start := i; m_end := i + n; m_str := take n s |}
  | None =>
      match fuel, utf8_head s with
      | S f, Some (n, _) => search f r (i + n) (drop n s)
      | _, _ => None
      end
  end.

(** [Regex::find_at] and [Regex::find]. *)
Definition find_at (r : regex) (text : bytes) (i : nat) : option Match :=
  search (length text) r i (drop i text).
Definition re_find (r : regex) (text : bytes) : option Match := find_at r text 0.

(** [Regex::find_iter], for patterns that match no empty text. *)
Fixpoint find_iter_from (fuel : nat) (r : regex) (text : bytes) (i : nat) : list Match :=
  match fuel with
  | 0 => []
  | S f => match find_at r text i with
           | Some m => m :: find_iter_from f r text (m_end m)
           | None => []
           end
  end.
Definition find_iter (r : regex) (text : bytes) : list Match :=
  find_iter_from (S (length text)) r text 0.

(** ** Soundness *)

(** Whether [r] matches exactly [s]. *)
Inductive matches : regex -> bytes -> Prop :=
  | M_class p s n v : utf8_head s = Some (n, Some v) -> n = length s -> p v = true ->
                      matches (RClass p) s
  | M_seq a b s t : matches a s -> matches b t -> matches (RSeq a b) (s ++ t)
  | M_left a b s : matches a s -> matches (RAlt a b) s
  | M_right a b s : matches b s -> matches (RAlt a b) s
  | M_eps : matches REps []
  | M_nil a : matches (RStar a) []
  | M_cons a s t : matches a s -> matches (RStar a) t -> matches (RStar a) (s ++ t).

(** The decoder reads no further than the scalar it decodes. *)
Lemma utf8_head_take s n v :
  utf8_head s = Some (n, Some v) -> n <= length s /\ utf8_head (take n s) = Some (n, Some v).
Proof.
  destruct s as [|a [|b [|c [|d s]]]]; simpl; [done|..];
    intros H; repeat (case_match; simplify_eq/=); try done;
    (split; [lia|]); simpl; repeat (case_match; simplify_eq/=); done.
Qed.

Lemma take_add {A} (l : list A) n k : take (n + k) l = take n l ++ take k (drop n l).
Proof. revert l. induction n; intros [|x l]; simpl; [done..|by rewrite take_nil|]. by f_equal. Qed.

Definition sound (r : regex) (ns : bytes -> list nat) : Prop :=
  forall s n, n ∈ ns s -> n <= length s /\ matches r (take n s).

Lemma star_sound a step fuel :
  sound a step -> sound (RStar a) (star fuel step).
Proof.
  intros Ha. induction fuel as [|f IH]; intros s n Hn; simpl in Hn.
  { apply list_elem_of_singleton in Hn as ->. split; [lia|constructor]. }
  apply elem_of_app in Hn as [Hn|Hn].
  - apply list_elem_of_bind in Hn as (k & Hn & Hk).
    apply list_elem_of_filter in Hk as [Hpos Hk].
    apply list_elem_of_fmap in Hn as (j & -> & Hj).
    destruct (Ha _ _ Hk), (IH _ _ Hj). rewrite length_drop in *.
    split; [lia|]. rewrite take_add. by constructor.
  - apply list_elem_of_singleton in Hn as ->. split; [lia|constructor].
Qed.

Lemma candidates_sound r : sound r (candidates r).
Proof.
  induction r as [p|a IHa b IHb|a IHa b IHb| |a IHa]; intros s n Hn; cbn [candidates] in Hn.
  - destruct (utf8_head s) as [[k [v|]]|] eqn:E; [|by apply not_elem_of_nil in Hn..].
    destruct (p v && (k <=? length s)) eqn:Ep; [|by apply not_elem_of_nil in Hn].
    apply list_elem_of_singleton in Hn as ->.
    apply andb_true_iff in Ep as [Hp _]. destruct (utf8_head_take _ _ _ E).
    split; [done|]. econstructor; [done| |done]. rewrite length_take. lia.
  - apply list_elem_of_bind in Hn as (k & Hn & Hk).
    apply list_elem_of_fmap in Hn as (j & -> & Hj).
    destruct (IHa _ _ Hk), (IHb _ _ Hj). rewrite length_drop in *.
    split; [lia|]. rewrite take_add. by constructor.
  - apply elem_of_app in Hn as [Hn|Hn]; [destruct (IHa _ _ Hn)|destruct (IHb _ _ Hn)];
      (split; [done|by constructor]).
  - apply list_elem_of_singleton in Hn as ->. split; [lia|constructor].
  - by eapply star_sound.
Qed.

Lemma match_here_sound r s n : match_here r s = Some n -> n <= length s /\ matches r (take n s).
Proof.
  unfold match_here. intros H. apply candidates_sound.
  destruct (candidates r s); simplify_eq/=. left.
Qed.

(** A search result is a substring of the text that the pattern matches. *)
Lemma search_sound fuel r i s m :
  search fuel r i s = Some m ->
  i <= m_start m /\ m_end m = m_start m + length (m_str m) /\ matches r (m_str m) /\
  m_str m = take (length (m_str m)) (drop (m_start m - i) s).
Proof.
  revert i s. induction fuel as [|f IH]; intros i s H; simpl in H.
  all: destruct (match_here r s) as [n|] eqn:E;
    [simplify_eq/=; apply match_here_sound in E as [Hn Hm];
     rewrite length_take, Nat.min_l by done;
     rewrite Nat.sub_diag, drop_0; auto with lia|try done].
  destruct (utf8_head s) as [[n o]|]; [|done].
  apply IH in H as (? & ? & ? & Hs). split; [lia|]. do 2 (split; [done|]).
  rewrite Hs at 1. rewrite drop_drop. do 2 f_equal. lia.
Qed.

Lemma find_at_sound r text i m :
  find_at r text i = Some m ->
  i <= m_start m /\ m_end m = m_start m + length (m_str m) /\ matches r (m_str m) /\
  m_str m = take (length (m_str m)) (drop (m_start m) text).
Proof.
  intros (? & ? & ? & H)%search_sound. rewrite drop_drop in H.
  replace (i + (m_start m - i)) with (m_start m) in H by lia. done.
Qed.

(** A lower bound on the length of what a pattern matches. *)
Fixpoint min_len (r : regex) : nat :=
  match r with
  | RClass _ => 1
  | RSeq a b => min_len a + min_len b
  | RAlt a b => Nat.min (min_len a) (min_len b)
  | REps | RStar _ => 0
  end.

Lemma matches_min_len r s : matches r s -> min_len r <= length s.
Proof.
  induction 1; simpl; rewrite ?length_app; try lia. apply utf8_head_len in H. lia.
Qed.
