(* ===== verification/Utils.v ===== *)
(** * Text utilities: [src/utils.rs]

    The request headers the checker sends, the IP scanners of a judge's page,
    the status-code reader and the base64 encoder.  The IPv4 pattern is the
    one of [src/parse.rs], which [get_all_ip] shares. *)

From stdpp Require Import base list gmap strings.
From Stdlib Require Import Ascii NArith Lia.
From S2P Require Import Prelude Bytes Text Net Regex.

(** ** [request_headers], [fresh_marker] *)

Definition CARGO_PKG_VERSION : bytes := bs "1.1.0".

(** An insertion-ordered map with distinct keys. *)
Definition request_headers (marker : option bytes) : list (bytes * bytes) :=
  let rv := default [] marker in
  [(bs "User-Agent", bs "PxBroker/" ++ CARGO_PKG_VERSION ++ bs "/" ++ rv);
   (bs "Accept", bs "*/*");
   (bs "Accept-Encoding", bs "gzip, deflate");
   (bs "Pragma", bs "no-cache");
   (bs "Cache-control", bs "no-cache");
   (bs "Cookie", bs "cookie=ok");
   (bs "Referer", bs "https://www.google.com/")].

(** [draw] is the random number of [0..9000). *)
Definition fresh_marker (draw : N) : bytes := show_N (1000 + draw).

(** ** Patterns *)

Section Scanners.
Context `{Unicode}.

(** [\d]: any decimal digit of Unicode. *)
Definition Rd : regex := RClass (fun v => if (v <? 128)%N then (48 <=? v)%N && (v <=? 57)%N
                                          else is_Nd v).
Definition Rrange (lo hi : ascii) : regex :=
  RClass (fun v => (code lo <=? v)%N && (v <=? code hi)%N).

(** [(?:25[0-5]|2[0-4]\d|[01]?\d\d?)] *)
Definition octet : regex :=
  RAlt (RSeq (RLit "2") (RSeq (RLit "5") (Rrange "0" "5")))
 (RAlt (RSeq (RLit "2") (RSeq (Rrange "0" "4") Rd))
       (RSeq (ROpt (Rrange "0" "1")) (RSeq Rd (ROpt Rd)))).

Definition IPV4_RE : regex := RSeq (RRep 3 (RSeq octet (RLit "."))) octet.

(** [\d{2,5}] *)
Definition PORT_RE : regex := RBetween 2 3 Rd.

Definition one_of (s : bytes) : N -> bool := fun v => bool_decide (Exists (fun c => code c = v) s).
Definition alnum_class (v : N) : bool :=
  ((48 <=? v)%N && (v <=? 57)%N) || ((65 <=? v)%N && (v <=? 90)%N)
  || ((97 <=? v)%N && (v <=? 122)%N).
Definition hex_class (v : N) : bool :=
  ((48 <=? v)%N && (v <=? 57)%N) || ((65 <=? v)%N && (v <=? 70)%N)
  || ((97 <=? v)%N && (v <=? 102)%N).

(** [[0-9A-Fa-f:][0-9A-Fa-f:.]*(?:%[A-Za-z0-9_.\-]+)?] *)
Definition IPV6_CANDIDATE_RE : regex :=
  let zone := RClass (fun v => alnum_class v || one_of (bs "_.-") v) in
  RSeq (RClass (fun v => hex_class v || one_of (bs ":") v))
 (RSeq (RStar (RClass (fun v => hex_class v || one_of (bs ":.") v)))
       (ROpt (RSeq (RLit "%") (RSeq zone (RStar zone))))).

(** ** [canonicalize_ip], [get_all_ip] *)

Definition canonicalize_ip (s : bytes) : option bytes :=
  match split_once (bs "%") s with
  | Some (base, zone) =>
      addr ← parse_ip base;
      if is_ipv6 addr then Some (show_ip addr ++ bs "%" ++ zone) else None
  | None => show_ip <$> parse_ip s
  end.

Definition get_all_ip (page : bytes) : gset bytes :=
  let found : gset bytes := list_to_set (m_str <$> find_iter IPV4_RE page) in
  foldl (fun found tok =>
           if contains (bs ":") tok
           then match canonicalize_ip (trim_end_matches "." tok) with
                | Some c => {[c]} ∪ found
                | None => found
                end
           else found)
        found (m_str <$> find_iter IPV6_CANDIDATE_RE page).
End Scanners.

(** ** [get_status_code] *)

Definition get_status_code (resp : bytes) (start stop : nat) : N :=
  let end_ := Nat.min stop (length resp) in
  if end_ <=? start then 400%N
  else match from_utf8 (take (end_ - start) (drop start resp)) with
       | Some s => default 400%N (parse_u16 (trim s))
       | None => 400%N
       end.

(** ** [base64_encode] *)

Definition ALPHABET : bytes :=
  bs "ABCDEFGHIJKLMNOPQRSTUVWXYZabcdefghijklmnopqrstuvwxyz0123456789+/".

(** [ALPHABET[i & 0x3f]]: the index is always in range. *)
Definition sextet (i : N) : ascii := nth (N.to_nat (N.land i 0x3f)) ALPHABET "="%char.

Definition group24 (b0 b1 b2 : ascii) : N :=
  N.lor (N.lor (N.shiftl (code b0) 16) (N.shiftl (code b1) 8)) (code b2).

Definition NUL : ascii := "000"%char.

Fixpoint base64_encode (input : bytes) : bytes :=
  match input with
  | [] => []
  | [a] => let n := group24 a NUL NUL in
           [sextet (N.shiftr n 18); sextet (N.shiftr n 12); "="%char; "="%char]
  | [a; b] => let n := group24 a b NUL in
              [sextet (N.shiftr n 18); sextet (N.shiftr n 12); sextet (N.shiftr n 6); "="%char]
  | a :: b :: c :: rest =>
      let n := group24 a b c in
      sextet (N.shiftr n 18) :: sextet (N.shiftr n 12) :: sextet (N.shiftr n 6) :: sextet n
      :: base64_encode rest
  end.

(** ** The reference decoder of RFC 4648 *)

Definition sextet_value (c : ascii) : option N :=
  N.of_nat <$> position (fun x => bool_decide (x = c)) ALPHABET.

Fixpoint base64_decode (s : bytes) : option bytes :=
  match s with
  | [] => Some []
  | a :: b :: c :: d :: rest =>
      va ← sextet_value a; vb ← sextet_value b;
      let hi := byte_of (va * 4 + vb / 16) in
      match sextet_value c, sextet_value d, rest with
      | Some vc, Some vd, _ =>
          tl ← base64_decode rest;
          Some (hi :: byte_of (vb mod 16 * 16 + vc / 4) :: byte_of (vc mod 4 * 64 + vd) :: tl)
      | Some vc, None, [] =>
          if bool_decide (d = "="%char) then Some [hi; byte_of (vb mod 16 * 16 + vc / 4)] else None
      | None, None, [] =>
          if bool_decide (c = "="%char /\ d = "="%char) then Some [hi] else None
      | _, _, _ => None
      end
  | _ => None
  end.

(** ** Lemmas *)

Lemma below_64 (P : N -> bool) :
  forallb P (N.of_nat <$> seq 0 64) = true -> forall i, (i < 64)%N -> P i = true.
Proof.
  intros HP i Hi. rewrite forallb_forall in HP. apply HP.
  apply in_map_iff. exists (N.to_nat i). split; [lia|]. apply in_seq. lia.
Qed.

Lemma sextet_mod n : sextet n = sextet (n mod 64).
Proof.
  unfold sextet. change 0x3f%N with (N.ones 6). rewrite !N.land_ones.
  change (2 ^ 6)%N with 64%N. by rewrite N.Div0.mod_mod.
Qed.

Lemma sextet_value_sextet n : sextet_value (sextet n) = Some (n mod 64)%N.
Proof.
  rewrite sextet_mod. assert (n mod 64 < 64)%N as Hi by (apply N.mod_lt; lia).
  revert Hi. generalize (n mod 64)%N as i. intros i Hi.
  assert (bool_decide (sextet_value (sextet i) = Some i) = true) as Hb; [|by bool_destruct].
  revert i Hi. apply below_64. vm_compute. reflexivity.
Qed.

(** Disjoint bit fields add. *)
Lemma lor_shiftl a b k : (b < 2 ^ k)%N -> N.lor (N.shiftl a k) b = (a * 2 ^ k + b)%N.
Proof.
  intros Hb. rewrite <- N.shiftl_mul_pow2. symmetry.
  assert (N.land (N.shiftl a k) b = 0)%N as Hd.
  { apply N.bits_inj_0. intros i. rewrite N.land_spec.
    destruct (N.ltb_spec i k).
    - rewrite N.shiftl_spec_low by done. done.
    - rewrite <- (N.mod_small b (2 ^ k)) by done.
      rewrite N.mod_pow2_bits_high by done. apply andb_false_r. }
  rewrite N.add_nocarry_lxor by done. by rewrite N.lxor_lor.
Qed.

Lemma group24_value a b c : group24 a b c = (code a * 65536 + code b * 256 + code c)%N.
Proof.
  unfold group24. pose proof (code_lt b); pose proof (code_lt c).
  rewrite (lor_shiftl (code a) (N.shiftl (code b) 8) 16) by (rewrite N.shiftl_mul_pow2; lia).
  rewrite N.shiftl_mul_pow2.
  replace (code a * 2 ^ 16 + code b * 2 ^ 8)%N with (N.shiftl (code a * 256 + code b) 8)
    by (rewrite N.shiftl_mul_pow2; lia).
  rewrite lor_shiftl by lia. lia.
Qed.

Lemma byte_of_eq n c : n = code c -> byte_of n = c.
Proof. intros ->. apply byte_of_code. Qed.

Lemma sextets_bytes a b c :
  let n := group24 a b c in
  byte_of ((N.shiftr n 18) mod 64 * 4 + (N.shiftr n 12) mod 64 / 16) = a /\
  byte_of ((N.shiftr n 12) mod 64 mod 16 * 16 + (N.shiftr n 6) mod 64 / 4) = b /\
  byte_of ((N.shiftr n 6) mod 64 mod 4 * 64 + n mod 64) = c.
Proof.
  cbv zeta. rewrite group24_value, !N.shiftr_div_pow2.
  pose proof (code_lt a); pose proof (code_lt b); pose proof (code_lt c).
  change (2 ^ 18)%N with 262144%N; change (2 ^ 12)%N with 4096%N; change (2 ^ 6)%N with 64%N.
  split_and!; apply byte_of_eq; zify; Z.to_euclidean_division_equations; lia.
Qed.

Lemma sextet_value_pad : sextet_value "="%char = None.
Proof. reflexivity. Qed.

(** base64 loses nothing: decoding the encoder's output under RFC 4648
    (alphabet, padding, and no trailing text) gives back the input, and the
    output is four characters per started group of three bytes. *)
Theorem base64_roundtrip input :
  base64_decode (base64_encode input) = Some input /\
  length (base64_encode input) = 4 * ((length input + 2) / 3).
Proof.
  assert (forall n, length input <= n -> base64_decode (base64_encode input) = Some input /\
            length (base64_encode input) = 4 * ((length input + 2) / 3)) as Hn; [|by eapply Hn].
  intros n. revert input. induction n as [|n IH]; intros input Hl.
  { destruct input; simpl in Hl; [done|lia]. }
  destruct input as [|a [|b [|c rest]]]; [done|..]; cbn [base64_encode base64_decode].
  1,2: rewrite !sextet_value_sextet, ?sextet_value_pad; cbn [mbind option_bind];
    split; [|done].
  - rewrite bool_decide_true by done.
    by rewrite (proj1 (sextets_bytes a NUL NUL)).
  - rewrite bool_decide_true by done.
    destruct (sextets_bytes a b NUL) as (-> & -> & _). done.
  - destruct (IH rest) as [IH1 IH2]; [simpl in Hl; lia|].
    rewrite !sextet_value_sextet, IH1. cbn [mbind option_bind].
    destruct (sextets_bytes a b c) as (-> & -> & ->). split; [done|].
    cbn [length]. rewrite IH2.
    replace (S (S (S (length rest))) + 2) with (1 * 3 + (length rest + 2)) by lia.
    rewrite Nat.div_add_l by lia. lia.
Qed.

(** The status reader answers with the parsed three-digit field, or the
    sentinel, and always fits sixteen bits. *)
Lemma get_status_code_bound resp i j : (get_status_code resp i j <= u16_max)%N.
Proof.
  unfold get_status_code. case_match; [done|]. case_match; [|done].
  destruct (parse_u16 _) eqn:E; [|done]. by apply parse_uint_bound in E.
Qed.

Example get_status_code_tests :
  get_status_code (bs "HTTP/1.1 200 OK") 9 12 = 200%N /\
  get_status_code (bs "HTTP/1.1 2x0 OK") 9 12 = 400%N /\
  get_status_code (bs "220 smtp") 0 3 = 220%N /\
  get_status_code (bs "HTTP") 9 12 = 400%N.
Proof. vm_compute. done. Qed.

Example canonicalize_tests :
  canonicalize_ip (bs "2001:0DB8::0001") = Some (bs "2001:db8::1") /\
  canonicalize_ip (bs "010.1.1.1") = None /\
  canonicalize_ip (bs "1.2.3.4%eth0") = None /\
  canonicalize_ip (bs "FE80::1%eth0") = Some (bs "fe80::1%eth0").
Proof. vm_compute. done. Qed.

Example get_all_ip_test :
  bool_decide (@get_all_ip AsciiOnly (bs "at 1.2.3.4, 256.1.1.1 and 2001:DB8::1. x:y") =
  list_to_set [bs "1.2.3.4"; bs "56.1.1.1"; bs "2001:db8::1"]) = true.
Proof. vm_compute. reflexivity. Qed.
