(* ===== verification/Io.v ===== *)
(** * Connections

    A connection as the program sees it: a script of what its reads deliver
    and of how its writes end, and the log of what was written.  A read event
    is one byte, the end of the stream, a failure, or the deadline of the
    current step passing; a script that has run out is a silent peer, so that
    the next read meets its deadline.  A write that does not finish in time
    fails where there is no deadline.  Operations are in the monad [IO], which
    threads the connection and stops at the first error. *)

From stdpp Require Import base list strings.
From Stdlib Require Import Ascii NArith Lia.
From S2P Require Import Prelude Bytes.

Inductive read_event : Type := RdByte (c : ascii) | RdEof | RdErr | RdLate.
Inductive write_event : Type := WrOk | WrErr | WrLate.

Record Conn := { rx : list read_event; wr : list write_event; tx : bytes }.

Definition set_rx (r : list read_event) (c : Conn) : Conn := {| rx := r; wr := wr c; tx := tx c |}.

Definition peer (input : bytes) : Conn := {| rx := RdByte <$> input; wr := []; tx := [] |}.

(** ** The monad *)

Definition IO (E A : Type) : Type := Conn -> result E A * Conn.

#[export] Instance io_ret {E} : MRet (IO E) := fun A a c => (Ok a, c).
#[export] Instance io_bind {E} : MBind (IO E) := fun A B k m c =>
  match m c with (Ok a, c') => k a c' | (Err e, c') => (Err e, c') end.
#[export] Instance io_fmap {E} : FMap (IO E) := fun A B f m c =>
  match m c with (Ok a, c') => (Ok (f a), c') | (Err e, c') => (Err e, c') end.

Definition io_err {E A} (e : E) : IO E A := fun c => (Err e, c).

(** ** Writing *)

Definition write_outcome (c : Conn) : write_event := default WrOk (head (wr c)).

(** One [write_all]: what was written is logged only if it all went out. *)
Definition write (b : bytes) (c : Conn) : write_event * Conn :=
  match write_outcome c with
  | WrOk => (WrOk, {| rx := rx c; wr := tail (wr c); tx := tx c ++ b |})
  | ev => (ev, {| rx := rx c; wr := tail (wr c); tx := tx c |})
  end.

Definition write_or {E} (err late : E) (b : bytes) : IO E unit := fun c =>
  match write b c with
  | (WrOk, c') => (Ok tt, c')
  | (WrErr, c') => (Err err, c')
  | (WrLate, c') => (Err late, c')
  end.

(** [let _ = write_all(b)]: the outcome is ignored. *)
Definition write_ignore {E} (b : bytes) : IO E unit := fun c => (Ok tt, (write b c).2).

(** ** Reading *)

Inductive read_failure : Type := Eof | Failed | Late.

Fixpoint take_exact (n : nat) (r : list read_event) : result read_failure bytes * list read_event :=
  match n, r with
  | 0, _ => (Ok [], r)
  | S n', RdByte c :: r' => match take_exact n' r' with
                            | (Ok b, r'') => (Ok (c :: b), r'')
                            | (Err f, r'') => (Err f, r'')
                            end
  | S _, RdEof :: r' => (Err Eof, r')
  | S _, RdErr :: r' => (Err Failed, r')
  | S _, RdLate :: r' => (Err Late, r')
  | S _, [] => (Err Late, [])
  end.

(** [read_exact]. *)
Definition read_exact {E} (on : read_failure -> E) (n : nat) : IO E bytes := fun c =>
  let '(res, r) := take_exact n (rx c) in
  (match res with Ok b => Ok b | Err f => Err (on f) end, set_rx r c).

(** A loop of one-byte reads: [step] looks at the bytes so far, the new one
    included, and says whether the loop stops there. *)
Fixpoint read_loop {E A} (on : read_failure -> bytes -> E) (step : bytes -> option (result E A))
    (buf : bytes) (r : list read_event) : result E A * list read_event :=
  match r with
  | RdByte c :: r' =>
      let buf := buf ++ [c] in
      match step buf with
      | Some res => (res, r')
      | None => read_loop on step buf r'
      end
  | RdEof :: r' => (Err (on Eof buf), r')
  | RdErr :: r' => (Err (on Failed buf), r')
  | RdLate :: r' => (Err (on Late buf), r')
  | [] => (Err (on Late buf), [])
  end.

Definition read_while {E A} (on : read_failure -> bytes -> E) (step : bytes -> option (result E A))
    (buf : bytes) : IO E A := fun c =>
  let '(res, r) := read_loop on step buf (rx c) in (res, set_rx r c).

(** ** Lemmas *)

Lemma write_ok b c : write_outcome c = WrOk ->
  write b c = (WrOk, {| rx := rx c; wr := tail (wr c); tx := tx c ++ b |}).
Proof. unfold write. by intros ->. Qed.

(** A failed write leaves the log as it was. *)
Lemma write_failed b c : (write b c).1 <> WrOk -> tx (write b c).2 = tx c.
Proof. unfold write. by destruct (write_outcome c). Qed.

Lemma write_tx b c : tx (write b c).2 = tx c \/ tx (write b c).2 = tx c ++ b.
Proof. unfold write. destruct (write_outcome c); auto. Qed.

Lemma take_exact_bytes b r : take_exact (length b) ((RdByte <$> b) ++ r) = (Ok b, r).
Proof. induction b as [|c b IH]; [done|]. cbn. by rewrite IH. Qed.

Lemma take_exact_Ok n r b r' :
  take_exact n r = (Ok b, r') -> length b = n /\ r = (RdByte <$> b) ++ r'.
Proof.
  revert r b r'. induction n as [|n IH]; intros r b r'; cbn [take_exact].
  { by intros [= <- <-]. }
  destruct r as [|[c| | |] r]; try done.
  destruct (take_exact n r) as [[b0|f] r0] eqn:E; [|done]. intros [= <- <-].
  apply IH in E as [<- ->]. done.
Qed.

(** The bytes a loop stops at are a prefix of the input, and the loop did not
    want to stop earlier: nothing past them is consumed. *)
Lemma read_loop_Ok {E A} on (step : bytes -> option (result E A)) buf r a r' :
  read_loop on step buf r = (Ok a, r') ->
  exists b, r = (RdByte <$> b) ++ r' /\ b <> [] /\ step (buf ++ b) = Some (Ok a) /\
            forall b1 b2, b = b1 ++ b2 -> b1 <> [] -> b2 <> [] -> step (buf ++ b1) = None.
Proof.
  revert buf. induction r as [|[c| | |] r IH]; intros buf; cbn [read_loop]; try done.
  destruct (step (buf ++ [c])) as [res|] eqn:Es.
  - intros [= -> ->]. exists [c]. split_and!; [done|done|done|].
    intros [|x b1] b2 Hb H1 H2; [done|]. injection Hb as <- Hb. symmetry in Hb.
    by apply app_nil in Hb as [_ ->].
  - intros (b & -> & Hne & Hs & Hpre)%IH. exists (c :: b). rewrite <- app_assoc in Hs.
    split_and!; [done|done|done|]. intros [|x b1] b2 Hb H1 H2; [done|]. injection Hb as <- Hb.
    destruct b1 as [|y b1]; [done|].
    replace (buf ++ c :: y :: b1) with ((buf ++ [c]) ++ y :: b1) by by rewrite <- app_assoc.
    by eapply Hpre.
Qed.

(** A loop that would stop at [b], and not before, stops there. *)
Lemma read_loop_stops {E A} on (step : bytes -> option (result E A)) buf b r res :
  b <> [] -> step (buf ++ b) = Some res ->
  (forall b1 b2, b = b1 ++ b2 -> b1 <> [] -> b2 <> [] -> step (buf ++ b1) = None) ->
  read_loop on step buf ((RdByte <$> b) ++ r) = (res, r).
Proof.
  revert buf. induction b as [|c b IH]; intros buf Hne Hs Hpre; [done|].
  rewrite fmap_cons. cbn [app read_loop]. destruct b as [|d b].
  - by rewrite Hs.
  - rewrite (Hpre [c] (d :: b)) by done. apply IH; [done|by rewrite <- app_assoc|].
    intros b1 b2 Hb H1 H2. rewrite <- app_assoc. apply (Hpre (c :: b1) b2); [by rewrite Hb|done|done].
Qed.
