(* ===== verification/Types.v ===== *)
(** * The shared vocabulary: [src/types.rs] and [src/error.rs]

    Protocols, anonymity levels, schemes, type queries, capability and trust
    records, and the per-proxy and caller-visible errors. *)

From stdpp Require Import base list gmap countable strings.
From Stdlib Require Import Ascii NArith Lia.
From S2P Require Import Prelude Bytes Text.

(** ** [Proto] *)

Inductive Proto : Type := Http | Https | Socks4 | Socks5 | Connect80 | Connect25.

#[export] Instance proto_eq_dec : EqDecision Proto.
Proof. solve_decision. Defined.

Definition ALL : list Proto := [Http; Https; Socks4; Socks5; Connect80; Connect25].

(** The derived [Ord]: position in the declaration. *)
Definition proto_index (p : Proto) : nat :=
  match p with
  | Http => 0 | Https => 1 | Socks4 => 2 | Socks5 => 3 | Connect80 => 4 | Connect25 => 5
  end.

#[export] Program Instance proto_countable : Countable Proto :=
  inj_countable proto_index (fun n => ALL !! n) _.
Next Obligation. by intros []. Qed.

Definition proto_as_str (p : Proto) : bytes :=
  match p with
  | Http => bs "HTTP"
  | Https => bs "HTTPS"
  | Socks4 => bs "SOCKS4"
  | Socks5 => bs "SOCKS5"
  | Connect80 => bs "CONNECT:80"
  | Connect25 => bs "CONNECT:25"
  end.

Definition checks_anon_level (p : Proto) : bool := bool_decide (p = Http).
Definition uses_full_path (p : Proto) : bool := bool_decide (p = Http).

Inductive JudgeScheme : Type := JHttp | JHttps | JSmtp.

#[export] Instance judge_scheme_eq_dec : EqDecision JudgeScheme.
Proof. solve_decision. Defined.

Definition judge_scheme (p : Proto) : JudgeScheme :=
  match p with
  | Https => JHttps
  | Connect25 => JSmtp
  | _ => JHttp
  end.

Definition default_port (s : JudgeScheme) : N :=
  match s with JHttp => 80 | JHttps => 443 | JSmtp => 25 end.

(** [(len, last byte)] of the name; the index [len - 1] never underflows. *)
Definition display_order_key (p : Proto) : nat * N :=
  let s := proto_as_str p in
  (length s, default 0%N (code <$> last s)).

(** [ParseProtoError] carries the rejected text. *)
Definition proto_from_str (s : bytes) : result bytes Proto :=
  ok_or s (find (fun p => eq_ignore_ascii_case (proto_as_str p) s) ALL).

(** ** [AnonLevel] *)

Inductive AnonLevel : Type := Transparent | Anonymous | High.

#[export] Instance anon_eq_dec : EqDecision AnonLevel.
Proof. solve_decision. Defined.

Definition anon_index (l : AnonLevel) : nat :=
  match l with Transparent => 0 | Anonymous => 1 | High => 2 end.

Definition ANON_ALL : list AnonLevel := [Transparent; Anonymous; High].

#[export] Program Instance anon_countable : Countable AnonLevel :=
  inj_countable anon_index (fun n => ANON_ALL !! n) _.
Next Obligation. by intros []. Qed.

Definition anon_as_str (l : AnonLevel) : bytes :=
  match l with
  | Transparent => bs "Transparent"
  | Anonymous => bs "Anonymous"
  | High => bs "High"
  end.

Definition anon_from_str (s : bytes) : result bytes AnonLevel :=
  ok_or s (find (fun l => eq_ignore_ascii_case (anon_as_str l) s) ANON_ALL).

(** ** [Scheme], [TypeSpec], [Caps], [TrustReport] *)

Inductive Scheme : Type := SHttp | SHttps.

#[export] Instance scheme_eq_dec : EqDecision Scheme.
Proof. solve_decision. Defined.

Record TypeSpec := { spec_proto : Proto; spec_levels : option (list AnonLevel) }.

Definition TypeSpec_any (p : Proto) : TypeSpec :=
  {| spec_proto := p; spec_levels := None |}.

Definition accepts (t : TypeSpec) (proto : Proto) (level : option AnonLevel) : bool :=
  if negb (bool_decide (spec_proto t = proto)) then false
  else match spec_levels t, level with
       | None, _ => true
       | Some want, Some got => bool_decide (got ∈ want)
       | Some _, None => false
       end.

Record Caps := { cookie_echo : bool; referer_echo : bool }.
Definition Caps_default : Caps := {| cookie_echo := false; referer_echo := false |}.

#[export] Instance caps_eq_dec : EqDecision Caps.
Proof. solve_decision. Defined.

(** [src/checker.rs]: the signals of the trust check. *)
Inductive TrustSignal : Type := CanaryMismatch | InjectedHeader | CertMismatch.

#[export] Instance trust_signal_eq_dec : EqDecision TrustSignal.
Proof. solve_decision. Defined.

Record TrustReport := { signals : list TrustSignal }.
Definition TrustReport_default : TrustReport := {| signals := [] |}.
Definition trusted (r : TrustReport) : bool := bool_decide (signals r = []).

#[export] Instance trust_report_eq_dec : EqDecision TrustReport.
Proof. solve_decision. Defined.

(** ** Errors *)

Inductive ProxyError : Type :=
  | ConnFailed
  | Timeout
  | Reset
  | EmptyRecv
  | BadStatus
  | BadResponse
  | ErrorOnStream
  | DisallowedStatus (code : N)
  | Resolve.

#[export] Instance proxy_error_eq_dec : EqDecision ProxyError.
Proof. solve_decision. Defined.

#[export] Instance proxy_error_countable : Countable ProxyError :=
  inj_countable'
    (fun e => match e with
       | ConnFailed => inl 0 | Timeout => inl 1 | Reset => inl 2 | EmptyRecv => inl 3
       | BadStatus => inl 4 | BadResponse => inl 5 | ErrorOnStream => inl 6
       | Resolve => inl 7 | DisallowedStatus n => inr n
       end)
    (fun x => match x with
       | inl 0 => ConnFailed | inl 1 => Timeout | inl 2 => Reset | inl 3 => EmptyRecv
       | inl 4 => BadStatus | inl 5 => BadResponse | inl 6 => ErrorOnStream
       | inl _ => Resolve | inr n => DisallowedStatus n
       end)
    (fun e => match e with
       | ConnFailed | Timeout | Reset | EmptyRecv | BadStatus | BadResponse
       | ErrorOnStream | Resolve => eq_refl
       | DisallowedStatus _ => eq_refl
       end).

Definition error_as_str (e : ProxyError) : bytes :=
  match e with
  | ConnFailed => bs "connection_failed"
  | Timeout => bs "connection_timeout"
  | Reset => bs "connection_is_reset"
  | EmptyRecv => bs "empty_response"
  | BadStatus => bs "bad_status"
  | BadResponse => bs "bad_response"
  | ErrorOnStream => bs "error_on_stream"
  | DisallowedStatus _ => bs "disallowed_status"
  | Resolve => bs "resolve_failed"
  end.

(** The caller-visible errors; [Io] carries the operating system's message. *)
Inductive Error : Type :=
  | NoJudges
  | NoTypes
  | NoProviders
  | ExtIpUnknown
  | Config (msg : bytes)
  | Io (msg : bytes)
  | Persist (msg : bytes).

#[export] Instance error_eq_dec : EqDecision Error.
Proof. solve_decision. Defined.

(** ** Properties *)

Lemma eq_ignore_ascii_case_refl s : eq_ignore_ascii_case s s = true.
Proof. unfold eq_ignore_ascii_case. by apply bool_decide_eq_true. Qed.

(** The parser answers with [p] exactly on the spellings of its name. *)
Lemma proto_from_str_spec s p :
  proto_from_str s = Ok p <-> eq_ignore_ascii_case (proto_as_str p) s = true.
Proof.
  unfold proto_from_str, eq_ignore_ascii_case. rewrite bool_decide_eq_true. split.
  - destruct (find _ ALL) eqn:E; [|done]. simpl. intros [= ->].
    apply find_Some in E as [_ E]. by apply bool_decide_eq_true in E.
  - intros <-. destruct p; vm_compute; reflexivity.
Qed.

Lemma anon_from_str_spec s l :
  anon_from_str s = Ok l <-> eq_ignore_ascii_case (anon_as_str l) s = true.
Proof.
  unfold anon_from_str, eq_ignore_ascii_case. rewrite bool_decide_eq_true. split.
  - destruct (find _ ANON_ALL) eqn:E; [|done]. simpl. intros [= ->].
    apply find_Some in E as [_ E]. by apply bool_decide_eq_true in E.
  - intros <-. destruct l; vm_compute; reflexivity.
Qed.

Lemma proto_roundtrip p : proto_from_str (proto_as_str p) = Ok p.
Proof. apply proto_from_str_spec, eq_ignore_ascii_case_refl. Qed.

Lemma anon_roundtrip l : anon_from_str (anon_as_str l) = Ok l.
Proof. apply anon_from_str_spec, eq_ignore_ascii_case_refl. Qed.

Lemma ALL_complete p : p ∈ ALL.
Proof. destruct p; set_solver. Qed.

Lemma ALL_NoDup : NoDup ALL.
Proof. apply (bool_decide_eq_true_1 (NoDup ALL)). vm_compute. reflexivity. Qed.

#[export] Hint Resolve ALL_complete ALL_NoDup proto_roundtrip anon_roundtrip : pb.

(** Protocol names survive parsing: [from_str] accepts exactly the six wire
    names in any ASCII case, and answers the protocol the name belongs to;
    every other text is rejected with the text itself in the error. *)
Theorem proto_parse_exact s :
  (exists p, proto_from_str s = Ok p /\
             to_ascii_lowercase s = to_ascii_lowercase (proto_as_str p)) \/
  (proto_from_str s = Err s /\
   forall p, to_ascii_lowercase s <> to_ascii_lowercase (proto_as_str p)).
Proof.
  destruct (proto_from_str s) as [p|e] eqn:E.
  - left. exists p. split; [done|]. apply proto_from_str_spec in E.
    unfold eq_ignore_ascii_case in E. by apply bool_decide_eq_true in E.
  - right. assert (e = s) as -> by (unfold proto_from_str, ok_or in E; destruct (find _ _); congruence).
    split; [done|]. intros p Hp.
    assert (proto_from_str s = Ok p) as E'; [|congruence].
    apply proto_from_str_spec. unfold eq_ignore_ascii_case. by apply bool_decide_eq_true.
Qed.
