(* ===== verification/ProxyModel.v ===== *)
(** * A proxy and its statistics: [src/proxy.rs]

    The [Proxy] record with its confirmed types, attempt counters, error
    histogram and timings; the recording operations; the derived figures
    (error rate, mean and percentile times, priority, schemes); and the
    accounting invariant that every recording operation keeps. *)

From stdpp Require Import base list gmap strings.
From Stdlib Require Import Ascii NArith ZArith Lia.
From S2P Require Import Prelude Bytes Text Float Net NetProofs Types.

(** ** Data *)

Record Region := { region_code : bytes; region_name : bytes }.

Record Country := {
  country_code : bytes;
  country_name : bytes;
  country_region : option Region;
  country_city : option bytes;
}.

Record Asn := { asn_number : N; asn_org : option bytes }.

Record Credentials := { username : bytes; password : bytes }.

#[export] Instance region_eq_dec : EqDecision Region.
Proof. solve_decision. Defined.
#[export] Instance country_eq_dec : EqDecision Country.
Proof. solve_decision. Defined.
#[export] Instance asn_eq_dec : EqDecision Asn.
Proof. solve_decision. Defined.
#[export] Instance credentials_eq_dec : EqDecision Credentials.
Proof. solve_decision. Defined.

Record Proxy := {
  host : IpAddr;
  port : N;
  expected_types : gset Proto;
  geo : option Country;
  asn : option Asn;
  types : gmap Proto (option AnonLevel);
  requests : N;
  errors : gmap ProxyError N;
  runtimes : list f64;
  probe_runtimes : list f64;
  auth : option Credentials;
  caps : Caps;
  trust : TrustReport;
  ewma_success : option f64;
}.

#[export] Instance proxy_eq_dec : EqDecision Proxy.
Proof. solve_decision. Defined.

Record Capabilities := { cap_cookie : bool; cap_referer : bool; connect25 : bool }.

Definition HTTP_PROTOS : list Proto := [Http; Connect80; Socks4; Socks5].
Definition HTTPS_PROTOS : list Proto := [Https; Socks4; Socks5].

(** ** Construction *)

Definition Proxy_new (h : IpAddr) (pt : N) (expected : gset Proto) : Proxy :=
  {| host := h; port := pt; expected_types := expected; geo := None; asn := None;
     types := ∅; requests := 0; errors := ∅; runtimes := []; probe_runtimes := [];
     auth := None; caps := Caps_default; trust := TrustReport_default;
     ewma_success := None |}.

Definition restored (h : IpAddr) (pt : N) (ts : gmap Proto (option AnonLevel))
    (reqs errors_total : N) (avg : f64) : Proxy :=
  {| host := h; port := pt; expected_types := ∅; geo := None; asn := None;
     types := ts; requests := reqs;
     errors := if (0 <? errors_total)%N then {[ BadResponse := errors_total ]} else ∅;
     runtimes := if f_lt f_zero avg then [avg] else [];
     probe_runtimes := []; auth := None; caps := Caps_default;
     trust := TrustReport_default; ewma_success := None |}.

(** Functional update of the groups of fields the operations write. *)
Definition set_types (ts : gmap Proto (option AnonLevel)) (p : Proxy) : Proxy :=
  {| host := host p; port := port p; expected_types := expected_types p; geo := geo p;
     asn := asn p; types := ts; requests := requests p; errors := errors p;
     runtimes := runtimes p; probe_runtimes := probe_runtimes p; auth := auth p;
     caps := caps p; trust := trust p; ewma_success := ewma_success p |}.

Definition set_stats (rs : N) (es : gmap ProxyError N) (rt pr : list f64) (p : Proxy) : Proxy :=
  {| host := host p; port := port p; expected_types := expected_types p; geo := geo p;
     asn := asn p; types := types p; requests := rs; errors := es;
     runtimes := rt; probe_runtimes := pr; auth := auth p;
     caps := caps p; trust := trust p; ewma_success := ewma_success p |}.

Definition set_profile (c : Caps) (t : TrustReport) (p : Proxy) : Proxy :=
  {| host := host p; port := port p; expected_types := expected_types p; geo := geo p;
     asn := asn p; types := types p; requests := requests p; errors := errors p;
     runtimes := runtimes p; probe_runtimes := probe_runtimes p; auth := auth p;
     caps := c; trust := t; ewma_success := ewma_success p |}.

(** The public fields, written by the loaders and the geo attribution. *)
Definition set_public (ex : gset Proto) (g : option Country) (a : option Asn) (p : Proxy) : Proxy :=
  {| host := host p; port := port p; expected_types := ex; geo := g;
     asn := a; types := types p; requests := requests p; errors := errors p;
     runtimes := runtimes p; probe_runtimes := probe_runtimes p; auth := auth p;
     caps := caps p; trust := trust p; ewma_success := ewma_success p |}.

Definition with_auth (creds : Credentials) (p : Proxy) : Proxy :=
  {| host := host p; port := port p; expected_types := expected_types p; geo := geo p;
     asn := asn p; types := types p; requests := requests p; errors := errors p;
     runtimes := runtimes p; probe_runtimes := probe_runtimes p; auth := Some creds;
     caps := caps p; trust := trust p; ewma_success := ewma_success p |}.

Definition with_ewma (e : option f64) (p : Proxy) : Proxy :=
  {| host := host p; port := port p; expected_types := expected_types p; geo := geo p;
     asn := asn p; types := types p; requests := requests p; errors := errors p;
     runtimes := runtimes p; probe_runtimes := probe_runtimes p; auth := auth p;
     caps := caps p; trust := trust p; ewma_success := e |}.

(** ** Operations *)

Definition addr (p : Proxy) : bytes :=
  match host p with
  | V4 _ _ _ _ => show_ip (host p) ++ bs ":" ++ show_N (port p)
  | V6 _ => bs "[" ++ show_ip (host p) ++ bs "]:" ++ show_N (port p)
  end.

Definition add_type (pr : Proto) (level : option AnonLevel) (p : Proxy) : Proxy :=
  set_types (<[pr := level]> (types p)) p.

Definition remove_type (pr : Proto) (p : Proxy) : Proxy :=
  set_types (delete pr (types p)) p.

Definition is_working (p : Proxy) : bool := negb (bool_decide (types p = ∅)).

Definition record_caps (c : Caps) (p : Proxy) : Proxy :=
  set_profile {| cookie_echo := cookie_echo (caps p) || cookie_echo c;
                 referer_echo := referer_echo (caps p) || referer_echo c |} (trust p) p.

Definition capabilities (p : Proxy) : Capabilities :=
  {| cap_cookie := cookie_echo (caps p); cap_referer := referer_echo (caps p);
     connect25 := bool_decide (is_Some (types p !! Connect25)) |}.

Definition push_signal (acc : list TrustSignal) (s : TrustSignal) : list TrustSignal :=
  if bool_decide (s ∈ acc) then acc else acc ++ [s].

Definition record_trust (r : TrustReport) (p : Proxy) : Proxy :=
  set_profile (caps p) {| signals := foldl push_signal (signals (trust p)) (signals r) |} p.

(** [self.errors.values().sum()], in [u32]: the wrapping sum does not depend
    on the order the map is walked in. *)
Definition errors_sum (es : gmap ProxyError N) : N :=
  map_fold (fun _ n acc => (acc ⊞ n)%pb) 0%N es.

Definition error_rate (p : Proxy) : f64 :=
  if bool_decide (requests p = 0%N) then f_zero
  else parse2 (f_div (f_of_N (errors_sum (errors p))) (f_of_N (requests p))).

Definition mean2 (l : list f64) : f64 :=
  if bool_decide (l = []) then f_zero
  else parse2 (f_div (f_sum l) (f_of_N (N.of_nat (length l)))).

Definition avg_resp_time (p : Proxy) : f64 := mean2 (runtimes p).
Definition probe_latency (p : Proxy) : f64 := mean2 (probe_runtimes p).

(** [None]: an index out of bounds. *)
Definition percentile (data : list f64) (q : f64) : option f64 :=
  if bool_decide (data = []) then Some f_zero
  else
    let sorted := sort_by total_cmp data in
    let rank := f_mul q (f_of_N (N.of_nat (length sorted - 1))) in
    let lo := f_floor_usize rank in
    let hi := f_ceil_usize rank in
    let frac := f_sub rank (f_of_N (N.of_nat lo)) in
    a ← sorted !! lo;
    b ← sorted !! hi;
    Some (parse2 (f_add a (f_mul frac (f_sub b a)))).

Definition proxy_percentile (p : Proxy) (q : f64) : option f64 := percentile (runtimes p) q.

Definition record_probe_latency (secs : f64) (p : Proxy) : Proxy :=
  set_stats (requests p) (errors p) (runtimes p) (probe_runtimes p ++ [secs]) p.

Definition priority (p : Proxy) : f64 * f64 :=
  let key := match ewma_success p with
             | Some ewma => f_max (error_rate p) (f_sub f_one ewma)
             | None => error_rate p
             end in
  (key, avg_resp_time p).

(** The keys of the ordered map of confirmed types. *)
Definition types_entries (p : Proxy) : list (Proto * option AnonLevel) :=
  omap (fun pr => pair pr <$> types p !! pr) ALL.
Definition types_keys (p : Proxy) : list Proto := (types_entries p).*1.

Definition schemes (p : Proxy) : list Scheme :=
  (if existsb (fun t => bool_decide (t ∈ HTTP_PROTOS)) (types_keys p) then [SHttp] else [])
  ++ (if existsb (fun t => bool_decide (t ∈ HTTPS_PROTOS)) (types_keys p) then [SHttps] else []).

Definition record_attempt (runtime : option f64) (err : option ProxyError) (p : Proxy) : Proxy :=
  let requests' := (requests p ⊞ 1)%pb in
  let errors' := match err with
                 | Some e => <[e := (default 0%N (errors p !! e) ⊞ 1)%pb]> (errors p)
                 | None => errors p
                 end in
  let runtimes' := match runtime with
                   | Some rt => if bool_decide (err = Some Timeout) then runtimes p
                                else runtimes p ++ [rt]
                   | None => runtimes p
                   end in
  set_stats requests' errors' runtimes' (probe_runtimes p) p.

Definition key_cmp (a b : nat * N) : comparison :=
  match Nat.compare a.1 b.1 with Eq => N.compare a.2 b.2 | c => c end.

Definition types_sorted (p : Proxy) : list (Proto * option AnonLevel) :=
  sort_by (fun x y => key_cmp (display_order_key x.1) (display_order_key y.1)) (types_entries p).

(** ** Lemmas: the address *)

(** The address of a proxy is read back as its host and port. *)
Lemma parse_addr p : key_wf (host p, port p) -> parse_socket_addr (addr p) = Some (host p, port p).
Proof. apply parse_show_socket. Qed.

(** ** Lemmas: the attempt history *)

(** One call of [record_attempt]. *)
Definition attempt : Type := option f64 * option ProxyError.

Definition record_all (hist : list attempt) (p : Proxy) : Proxy :=
  foldl (fun p a => record_attempt a.1 a.2 p) p hist.

(** The times the history leaves behind: all but those of timed-out attempts. *)
Definition kept_time (a : attempt) : option f64 :=
  if bool_decide (a.2 = Some Timeout) then None else a.1.

Definition failures (e : ProxyError) (hist : list attempt) : nat :=
  length (filter (fun a : attempt => a.2 = Some e) hist).

Lemma record_all_app h1 h2 p : record_all (h1 ++ h2) p = record_all h2 (record_all h1 p).
Proof. apply foldl_app. Qed.

Lemma failures_app e h1 h2 : failures e (h1 ++ h2) = failures e h1 + failures e h2.
Proof. unfold failures. by rewrite filter_app, length_app. Qed.

Lemma failures_one e a : failures e [a] = if bool_decide (a.2 = Some e) then 1 else 0.
Proof. unfold failures. rewrite filter_cons. by case_decide; case_bool_decide. Qed.

Lemma wrap32_add_1 n : wrap32 (wrap32 n + 1) = wrap32 (n + 1).
Proof. unfold wrap32. rewrite N.Div0.add_mod_idemp_l. done. Qed.

Lemma record_attempt_errors rt err p e :
  errors (record_attempt rt err p) !! e =
  if bool_decide (err = Some e)
  then Some ((default 0%N (errors p !! e) ⊞ 1)%pb) else errors p !! e.
Proof.
  unfold record_attempt; simpl. destruct err as [e'|]; [|done].
  case_bool_decide; simplify_eq; [by rewrite lookup_insert_eq|].
  rewrite lookup_insert_ne by congruence. done.
Qed.

Lemma record_attempt_runtimes rt err p :
  runtimes (record_attempt rt err p) = runtimes p ++ option_list (kept_time (rt, err)).
Proof.
  unfold record_attempt, kept_time; simpl. destruct rt; [|by case_bool_decide; rewrite app_nil_r].
  case_bool_decide; by rewrite ?app_nil_r.
Qed.

(** What a recorded attempt leaves alone. *)
Lemma record_attempt_frame rt err p :
  let q := record_attempt rt err p in
  host q = host p /\ port q = port p /\ types q = types p /\ caps q = caps p /\
  trust q = trust p /\ probe_runtimes q = probe_runtimes p /\ auth q = auth p /\
  ewma_success q = ewma_success p.
Proof. done. Qed.

(** The counters of a fresh proxy are exactly its attempt history: the
    request counter is the number of attempts (modulo the 32-bit width), each
    error bucket is the number of attempts that failed that way and is absent
    when there were none, and the kept times are the attempts' times, in
    order, without those of timed-out attempts. *)
Theorem attempt_history h pt ex hist :
  let p := record_all hist (Proxy_new h pt ex) in
  requests p = wrap32 (N.of_nat (length hist)) /\
  (forall e, errors p !! e =
     if bool_decide (failures e hist = 0) then None
     else Some (wrap32 (N.of_nat (failures e hist)))) /\
  runtimes p = omap kept_time hist.
Proof.
  cbv zeta. induction hist as [|a hist (IHr & IHe & IHt)] using rev_ind; [done|].
  rewrite record_all_app. cbn [record_all foldl]. fold (record_all hist (Proxy_new h pt ex)).
  set (p := record_all hist _) in *. split_and!.
  - cbn [record_attempt set_stats requests]. rewrite IHr, wrap32_add_1, length_app. f_equal.
    cbn [length]. lia.
  - intros e. rewrite record_attempt_errors, IHe, failures_app, failures_one.
    repeat case_bool_decide; simplify_eq/=; try lia; try done.
    + replace (failures e hist) with 0 by lia. done.
    + rewrite wrap32_add_1. do 2 f_equal. lia.
    + by rewrite Nat.add_0_r.
  - rewrite record_attempt_runtimes, IHt, omap_app. destruct a; simpl.
    by destruct (kept_time _).
Qed.

(** ** Lemmas: accounting *)

Definition errors_total (es : gmap ProxyError N) : N := map_fold (fun _ n acc => n + acc)%N 0%N es.

Lemma errors_total_insert es e n :
  es !! e = None -> errors_total (<[e := n]> es) = (n + errors_total es)%N.
Proof. intros. unfold errors_total. rewrite map_fold_insert_L; [done| intros; lia|done]. Qed.

Lemma errors_total_lookup es e :
  errors_total es = (default 0 (es !! e) + errors_total (delete e es))%N.
Proof.
  destruct (es !! e) as [n|] eqn:E; simpl; [|by rewrite delete_id].
  rewrite <- (insert_delete_id es e n E) at 1.
  apply errors_total_insert. by rewrite lookup_delete_eq.
Qed.

Lemma wrap32_idemp_r a b : wrap32 (wrap32 a + b) = wrap32 (a + b).
Proof. unfold wrap32. by rewrite N.Div0.add_mod_idemp_l. Qed.

(** The source's wrapping sum is the total modulo the width. *)
Lemma errors_sum_total es : errors_sum es = wrap32 (errors_total es).
Proof.
  unfold errors_sum. induction es as [|e n es He IH] using map_ind; [done|].
  rewrite map_fold_insert_L; [|intros|done].
  - rewrite IH, errors_total_insert, wrap32_idemp_r by done. f_equal. lia.
  - rewrite !wrap32_idemp_r. f_equal. lia.
Qed.

(** Counted errors never exceed the requests, and neither do the times. *)
Definition accounted (p : Proxy) : Prop :=
  (errors_total (errors p) <= requests p /\ requests p <= u32_max /\
   N.of_nat (length (runtimes p)) <= requests p)%N.

Lemma accounted_new h pt ex : accounted (Proxy_new h pt ex).
Proof. unfold accounted. simpl. unfold errors_total. rewrite map_fold_empty. done. Qed.

Lemma record_attempt_accounted rt err p :
  accounted p -> (requests p < u32_max)%N -> accounted (record_attempt rt err p).
Proof.
  intros (He & Hr & Ht) Hlt. unfold accounted.
  rewrite record_attempt_runtimes. simpl. rewrite wrap32_small by lia.
  split_and!; [|lia|].
  - destruct err as [e|]; [|lia].
    rewrite (errors_total_lookup _ e), lookup_insert_eq, delete_insert_eq. simpl.
    rewrite (errors_total_lookup _ e) in He.
    rewrite wrap32_small; lia.
  - rewrite length_app. destruct (kept_time _); simpl; lia.
Qed.

Lemma errors_sum_accounted p : accounted p -> errors_sum (errors p) = errors_total (errors p).
Proof. intros (? & ? & ?). rewrite errors_sum_total. apply wrap32_small. lia. Qed.

(** ** Lemmas: profile *)

Lemma push_signal_in acc s x : x ∈ push_signal acc s <-> x ∈ acc \/ x = s.
Proof. unfold push_signal. case_bool_decide; set_solver. Qed.

Lemma push_signal_NoDup acc s : NoDup acc -> NoDup (push_signal acc s).
Proof.
  unfold push_signal. case_bool_decide; [done|]. intros. apply NoDup_app.
  split; [done|]. split; [set_solver|apply NoDup_singleton].
Qed.

Lemma push_signals_spec l acc :
  (NoDup acc -> NoDup (foldl push_signal acc l)) /\
  (forall x, x ∈ foldl push_signal acc l <-> x ∈ acc \/ x ∈ l).
Proof.
  revert acc. induction l as [|s l IH]; intros acc; simpl; [set_solver|].
  destruct (IH (push_signal acc s)) as [IH1 IH2]. split.
  - intros. by apply IH1, push_signal_NoDup.
  - intros x. rewrite IH2, push_signal_in, elem_of_cons. tauto.
Qed.

(** The trust verdict is a monotone union: folding a report in keeps every
    signal already recorded, adds exactly the report's, never lists a signal
    twice, and so a clean report cannot make an untrusted proxy trusted. *)
Theorem trust_union r p :
  (forall s, s ∈ signals (trust (record_trust r p)) <->
             s ∈ signals (trust p) \/ s ∈ signals r) /\
  (NoDup (signals (trust p)) -> NoDup (signals (trust (record_trust r p)))) /\
  (trusted (trust (record_trust r p)) = trusted (trust p) && trusted r).
Proof.
  unfold record_trust, trusted; simpl.
  destruct (push_signals_spec (signals r) (signals (trust p))) as [H1 H2].
  split; [done|]. split; [done|].
  assert (foldl push_signal (signals (trust p)) (signals r) = [] <->
          signals (trust p) = [] /\ signals r = []) as Hnil.
  { split.
    - intros E. rewrite E in H2. split; apply elem_of_nil_inv; intros x Hx;
        destruct (not_elem_of_nil x); apply H2; tauto.
    - by intros [-> ->]. }
  repeat case_bool_decide; naive_solver.
Qed.

(** ** Lemmas: types *)

Lemma types_entries_elem p pr l : (pr, l) ∈ types_entries p <-> types p !! pr = Some l.
Proof.
  unfold types_entries. rewrite list_elem_of_omap. split.
  - intros (x & _ & H). destruct (types p !! x) eqn:E; simplify_eq/=. done.
  - intros E. exists pr. split; [auto with pb|]. by rewrite E.
Qed.

Lemma types_entries_NoDup p : NoDup (types_entries p).*1.
Proof.
  unfold types_entries. assert (NoDup ALL) as H by auto with pb.
  revert H. generalize ALL as l. induction l as [|x l IH]; intros H; simpl; [constructor|].
  inversion_clear H as [|?? Hx Hl]. destruct (types p !! x) eqn:E; simpl; [|auto].
  constructor; [|auto]. intros (y & Hy & (z & Hz & Hin)%list_elem_of_omap)%list_elem_of_fmap.
  destruct (types p !! z); simplify_eq/=. done.
Qed.

Lemma types_keys_elem p pr : pr ∈ types_keys p <-> is_Some (types p !! pr).
Proof.
  unfold types_keys. rewrite list_elem_of_fmap. split.
  - intros ([x l] & -> & H%types_entries_elem). eauto.
  - intros [l E]. exists (pr, l). split; [done|]. by apply types_entries_elem.
Qed.

Lemma existsb_elem {A} (f : A -> bool) l : existsb f l = true <-> exists x, x ∈ l /\ f x = true.
Proof. rewrite existsb_exists. by setoid_rewrite list_elem_of_In. Qed.

Lemma schemes_http p : SHttp ∈ schemes p <-> exists pr, is_Some (types p !! pr) /\ pr ∈ HTTP_PROTOS.
Proof.
  unfold schemes. rewrite elem_of_app.
  setoid_rewrite <- types_keys_elem.
  set (b := existsb (fun t => bool_decide (t ∈ HTTP_PROTOS)) _).
  assert (b = true <-> exists pr, pr ∈ types_keys p /\ pr ∈ HTTP_PROTOS) as Hb.
  { unfold b. rewrite existsb_elem. by setoid_rewrite bool_decide_eq_true. }
  rewrite <- Hb. destruct b; [set_solver|]. case_match; set_solver.
Qed.

Lemma schemes_https p : SHttps ∈ schemes p <-> exists pr, is_Some (types p !! pr) /\ pr ∈ HTTPS_PROTOS.
Proof.
  unfold schemes. rewrite elem_of_app.
  setoid_rewrite <- types_keys_elem.
  set (b := existsb (fun t => bool_decide (t ∈ HTTPS_PROTOS)) _).
  assert (b = true <-> exists pr, pr ∈ types_keys p /\ pr ∈ HTTPS_PROTOS) as Hb.
  { unfold b. rewrite existsb_elem. by setoid_rewrite bool_decide_eq_true. }
  rewrite <- Hb. destruct b; [set_solver|]. case_match; set_solver.
Qed.

Lemma types_sorted_perm p : types_sorted p ≡ₚ types_entries p.
Proof. apply sort_by_perm. Qed.

#[export] Hint Resolve accounted_new record_attempt_accounted : pb.
