(* ===== verification/Negotiator.v ===== *)
(** * Tunnel negotiation: [src/negotiator.rs]

    From a connected proxy to a stream on which the target is reached, per
    protocol.  The SOCKS client ([tokio_socks]), the TLS client ([rustls]) and
    its server-name syntax are third-party and are parameters; the CONNECT
    exchange, the head reader and the SMTP banner check are written out. *)

From stdpp Require Import base list gmap strings.
From Stdlib Require Import Ascii NArith Lia.
From S2P Require Import Prelude Bytes Text Net Utils Io Types ProxyModel.

Definition SMTP_READY : N := 220.

Record Target := { t_host : bytes; t_ip : option IpAddr; t_port : N }.

Inductive Stream : Type := Plain (c : Conn) | Tls (c : Conn).
Definition stream_conn (s : Stream) : Conn := match s with Plain c | Tls c => c end.
Definition on_stream (s : Stream) (c : Conn) : Stream :=
  match s with Plain _ => Plain c | Tls _ => Tls c end.

(** ** The CONNECT request *)

Definition basic_credentials (c : Credentials) : bytes :=
  base64_encode (username c ++ bs ":" ++ password c).

Definition authorization_line (c : Credentials) : bytes :=
  bs "Proxy-Authorization: Basic " ++ basic_credentials c ++ crlf.

Definition bare_host (h : bytes) : bytes :=
  default h (strip_prefix (bs "[") h ≫= strip_suffix (bs "]")).

Definition connect_request (h : bytes) (pt : N) (creds : option Credentials) : bytes :=
  let bare := bare_host h in
  let '(authority, host_hdr) :=
    if contains (bs ":") bare
    then (bs "[" ++ bare ++ bs "]:" ++ show_N pt, bs "[" ++ bare ++ bs "]")
    else (bare ++ bs ":" ++ show_N pt, bare) in
  bs "CONNECT " ++ authority ++ bs " HTTP/1.1" ++ crlf
  ++ bs "Host: " ++ host_hdr ++ crlf
  ++ bs "User-Agent: PxBroker/" ++ CARGO_PKG_VERSION ++ bs "/" ++ crlf
  ++ from_option authorization_line [] creds
  ++ bs "Connection: keep-alive" ++ crlf ++ crlf.

(** ** Reading *)

Definition HEAD_END : bytes := crlf ++ crlf.
Definition HEAD_MAX : nat := 8192.

Definition head_failure (f : read_failure) (buf : bytes) : ProxyError :=
  match f with
  | Failed => Reset
  | Eof => if bool_decide (buf = []) then EmptyRecv else Reset
  | Late => Timeout
  end.

Definition head_step (buf : bytes) : option (result ProxyError bytes) :=
  if ends_with HEAD_END buf then Some (Ok buf)
  else if HEAD_MAX <? length buf then Some (Err BadResponse)
  else None.

Definition read_head : IO ProxyError bytes := read_while head_failure head_step [].

Definition banner_failure (f : read_failure) : ProxyError :=
  match f with Late => Timeout | _ => Reset end.

Definition read_smtp_banner : IO ProxyError unit :=
  buf ← read_exact banner_failure 3;
  if (get_status_code buf 0 3 =? SMTP_READY)%N then mret tt else io_err BadStatus.

Definition http_connect (t : Target) (creds : option Credentials) : IO ProxyError unit :=
  _ ← write_or Reset Timeout (connect_request (t_host t) (t_port t) creds);
  head ← read_head;
  if (get_status_code head 9 12 =? 200)%N then mret tt else io_err BadStatus.

(** ** Third-party handshakes *)

(** The errors of the SOCKS client, as far as the mapping looks at them. *)
Inductive SocksError : Type := SocksIoTimedOut | SocksOther.

Definition map_socks_err (e : SocksError) : ProxyError :=
  match e with SocksIoTimedOut => Timeout | SocksOther => BadResponse end.

(** [None] is the deadline passing first. *)
Record Clients := {
  socks4_connect : IpAddr -> N -> Conn -> option (result SocksError unit) * Conn;
  socks5_connect : IpAddr + bytes -> N -> option Credentials -> Conn ->
                   option (result SocksError unit) * Conn;
  server_name : bytes -> bool;
  tls_connect : bytes -> Conn -> option (result unit unit) * Conn;
}.

Section Negotiate.
Context (clients : Clients).

Definition socks_result (r : option (result SocksError unit) * Conn) : result ProxyError unit * Conn :=
  (match r.1 with
   | None => Err Timeout
   | Some (Err e) => Err (map_socks_err e)
   | Some (Ok _) => Ok tt
   end, r.2).

Definition socks4 (t : Target) : IO ProxyError unit := fun c =>
  match t_ip t with
  | Some (V4 _ _ _ _ as ip) => socks_result (socks4_connect clients ip (t_port t) c)
  | _ => (Err BadResponse, c)
  end.

Definition socks5 (t : Target) (creds : option Credentials) : IO ProxyError unit := fun c =>
  let dest := match t_ip t with Some ip => inl ip | None => inr (t_host t) end in
  socks_result (socks5_connect clients dest (t_port t) creds c).

Definition tls_upgrade (h : bytes) : IO ProxyError unit := fun c =>
  if server_name clients h then
    match tls_connect clients h c with
    | (None, c') => (Err Timeout, c')
    | (Some (Err _), c') => (Err BadResponse, c')
    | (Some (Ok _), c') => (Ok tt, c')
    end
  else (Err BadResponse, c).

(** The stream is the connection of the result, plain or upgraded. *)
Definition plain (m : IO ProxyError unit) : IO ProxyError Stream := fun c =>
  match m c with (Ok _, c') => (Ok (Plain c'), c') | (Err e, c') => (Err e, c') end.

Definition negotiate (proto : Proto) (t : Target) (creds : option Credentials) : IO ProxyError Stream :=
  match proto with
  | Http => plain (mret tt)
  | Socks4 => plain (socks4 t)
  | Socks5 => plain (socks5 t creds)
  | Connect80 => plain (http_connect t creds)
  | Connect25 => plain (_ ← http_connect t creds; read_smtp_banner)
  | Https => fun c =>
      match (_ ← http_connect t creds; tls_upgrade (t_host t)) c with
      | (Ok _, c') => (Ok (Tls c'), c')
      | (Err e, c') => (Err e, c')
      end
  end.

(** The outcome of dialling a proxy: [None] is the deadline passing first. *)
Definition dialed := option (result unit Conn).

Definition probe_tunnel (dial : dialed) (t : Target) (creds : option Credentials) : bool :=
  match dial with
  | Some (Ok tcp) => is_ok (negotiate Connect80 t creds tcp).1
  | _ => false
  end.
End Negotiate.

(** ** Lemmas *)

Ltac in_list := rewrite ?elem_of_cons; auto 10.

Lemma read_head_Ok c h c' :
  read_head c = (Ok h, c') ->
  rx c = (RdByte <$> h) ++ rx c' /\ ends_with HEAD_END h = true /\ tx c' = tx c /\
  (forall b1 b2, h = b1 ++ b2 -> b2 <> [] -> ends_with HEAD_END b1 = false).
Proof.
  unfold read_head, read_while. destruct (read_loop _ _ _ _) as [res r] eqn:E. intros [= -> <-].
  apply read_loop_Ok in E as (b & Hrx & Hne & Hs & Hpre). cbn [app] in *.
  unfold head_step in Hs. destruct (ends_with HEAD_END b) eqn:Ee; simplify_eq/=.
  - split_and!; [done|done|done|]. intros b1 b2 Hb H2.
    destruct b1 as [|x b1]; [done|]. specialize (Hpre _ _ Hb).
    unfold head_step in Hpre. destruct (ends_with HEAD_END (x :: b1)); [|done].
    by discriminate Hpre.
  - by destruct (HEAD_MAX <? length b).
Qed.

(** A head of at most the maximum that ends where it first can is read whole. *)
Lemma read_head_complete h rest w t :
  ends_with HEAD_END h = true -> length h <= HEAD_MAX ->
  (forall b1 b2, h = b1 ++ b2 -> b2 <> [] -> ends_with HEAD_END b1 = false) ->
  read_head {| rx := (RdByte <$> h) ++ rest; wr := w; tx := t |} =
  (Ok h, {| rx := rest; wr := w; tx := t |}).
Proof.
  intros He Hlen Hpre. unfold read_head, read_while; cbn [rx].
  assert (h <> []) as Hne by (intros ->; by vm_compute in He).
  assert (forall b, ends_with HEAD_END b = true -> head_step b = Some (Ok b)) as Hok
    by (intros b Hb; unfold head_step; by rewrite Hb).
  rewrite (read_loop_stops head_failure head_step [] h rest (Ok h)); [done|done|by apply Hok|].
  intros b1 b2 -> H1 H2. cbn [app]. unfold head_step. rewrite (Hpre b1 b2) by done.
  rewrite length_app in Hlen. destruct (Nat.ltb_spec HEAD_MAX (length b1)); [lia|done].
Qed.

Lemma http_connect_Ok t creds c c' :
  http_connect t creds c = (Ok tt, c') ->
  tx c' = tx c ++ connect_request (t_host t) (t_port t) creds /\
  exists h, rx c = (RdByte <$> h) ++ rx c' /\ ends_with HEAD_END h = true /\
            get_status_code h 9 12 = 200%N.
Proof.
  unfold http_connect, mbind, io_bind, write_or, write. intros H.
  destruct (write_outcome c); cbn [write_outcome] in H; try done.
  destruct (read_head _) as [[h|e] c1] eqn:Eh; [|done].
  destruct (N.eqb_spec (get_status_code h 9 12) 200); [|done].
  injection H as <-. apply read_head_Ok in Eh as (Hrx & He & Htx & _). cbn in *. eauto 10.
Qed.

(** C27.  A CONNECT tunnel is granted only on the proxy's 200: when the
    negotiation succeeds, what went out is exactly the CONNECT request for the
    target, what came back is one head ending in a blank line whose status is
    200, and not one byte of the tunnel behind that head has been consumed. *)
Theorem connect80_exact clients t creds c s c' :
  negotiate clients Connect80 t creds c = (Ok s, c') ->
  s = Plain c' /\
  tx c' = tx c ++ connect_request (t_host t) (t_port t) creds /\
  exists head, rx c = (RdByte <$> head) ++ rx c' /\
    ends_with HEAD_END head = true /\ get_status_code head 9 12 = 200%N.
Proof.
  cbn [negotiate]. unfold plain. destruct (http_connect t creds c) as [[[]|e] c1] eqn:E; [|done].
  intros [= <- <-]. split; [done|]. by apply http_connect_Ok.
Qed.

Definition connect_reply : bytes := bs "HTTP/1.1 200 OK" ++ crlf ++ crlf.
Definition no_clients : Clients :=
  {| socks4_connect := fun _ _ c => (None, c); socks5_connect := fun _ _ _ c => (None, c);
     server_name := fun _ => true; tls_connect := fun _ c => (Some (Ok tt), c) |}.
Definition sample_target : Target := {| t_host := bs "::1"; t_ip := None; t_port := 443 |}.

Lemma connect80_exact_witness :
  let c := peer (connect_reply ++ bs "tunnel") in
  let c' := {| rx := RdByte <$> bs "tunnel"; wr := []; tx := connect_request (bs "::1") 443 None |} in
  Plain c' = Plain c' /\ tx c' = tx c ++ connect_request (bs "::1") 443 None /\
  exists head, rx c = (RdByte <$> head) ++ rx c' /\
    ends_with HEAD_END head = true /\ get_status_code head 9 12 = 200%N.
Proof.
  intros c c'. apply (connect80_exact no_clients sample_target None c (Plain c') c').
  vm_compute. reflexivity.
Defined.

(** The request bytes for an IPv6 name, bracketed exactly once. *)
Example connect_request_brackets :
  connect_request (bs "::1") 443 None = connect_request (bs "[::1]") 443 None /\
  starts_with (bs "CONNECT [::1]:443 HTTP/1.1") (connect_request (bs "::1") 443 None) = true.
Proof. vm_compute. done. Qed.

Example socks4_needs_v4 c :
  negotiate no_clients Socks4 sample_target None c = (Err BadResponse, c).
Proof. reflexivity. Qed.

Example banner_test :
  (negotiate no_clients Connect25 sample_target None (peer (connect_reply ++ bs "421 no"))).1
  = Err BadStatus.
Proof. vm_compute. reflexivity. Qed.

(** Negotiation fails only with the errors of its own steps. *)
Lemma negotiate_errors clients pr t creds c e c' :
  negotiate clients pr t creds c = (Err e, c') ->
  e ∈ [Timeout; Reset; EmptyRecv; BadStatus; BadResponse].
Proof.
  assert (forall c e c', http_connect t creds c = (Err e, c') ->
            e ∈ [Timeout; Reset; EmptyRecv; BadStatus; BadResponse]) as Hc.
  { intros c0 e0 c1. unfold http_connect, mbind, io_bind, write_or, write.
    destruct (write_outcome c0); [|intros [= <- <-]; in_list..].
    unfold read_head, read_while. destruct (read_loop _ _ _ _) as [res r] eqn:E.
    destruct res as [h|e1].
    - destruct (_ =? _)%N; [done|]. intros [= <- <-]. in_list.
    - intros [= <- <-]. revert E. generalize ([] : bytes) as buf. cbn [rx].
      induction (rx c0) as [|[x| | |] l IH]; intros buf; cbn [read_loop].
      + intros [= <- <-]. in_list.
      + unfold head_step at 1. destruct (ends_with _ _); [done|].
        destruct (_ <? _); [|apply IH]. intros [= <- <-]. in_list.
      + intros [= <- <-]. unfold head_failure. case_bool_decide; in_list.
      + intros [= <- <-]. in_list.
      + intros [= <- <-]. in_list. }
  assert (forall r e c', socks_result r = (Err e, c') -> e ∈ [Timeout; BadResponse]) as Hs.
  { intros [[[|[]]|] c0] e0 c1; unfold socks_result; cbn; intros; simplify_eq/=; in_list. }
  destruct pr; cbn [negotiate]; unfold plain.
  - done.
  - unfold mbind, io_bind. destruct (http_connect t creds c) as [[[]|e1] c1] eqn:E.
    + unfold tls_upgrade. destruct (server_name _ _); [|intros [= <- <-]; in_list].
      destruct (tls_connect _ _ _) as [[[]|] c2]; cbn; intros; simplify_eq; in_list.
    + intros [= <- <-]. by eapply Hc.
  - unfold socks4. destruct (t_ip t) as [[]|]; [|intros [= <- <-]; in_list..].
    destruct (socks_result _) as [[]] eqn:E; [done|]. intros [= <- <-]. apply Hs in E. rewrite !elem_of_cons in *. naive_solver.
  - destruct (socks5 _ _ _ _) as [[]] eqn:E; [done|]. intros [= <- <-]. apply Hs in E. rewrite !elem_of_cons in *. naive_solver.
  - destruct (http_connect _ _ _) as [[]] eqn:E; [done|]. intros [= <- <-]. by eapply Hc.
  - unfold mbind, io_bind. destruct (http_connect t creds c) as [[[]|e1] c1] eqn:E.
    + unfold read_smtp_banner, mbind, io_bind, read_exact.
      destruct (take_exact _ _) as [[b|f] r]; [destruct (_ =? _)%N; [done|]|];
        intros [= <- <-]; [in_list|]. destruct f; unfold banner_failure; in_list.
    + intros [= <- <-]. by eapply Hc.
Qed.
