(* ===== verification/ProxyJson.v ===== *)
(** * The JSON form of a proxy: [src/proxy.rs]

    [Serialize] and [Deserialize] for [Proxy] over JSON values, and the NDJSON
    files built on them.  The text codec ([serde_json]'s writer and parser) is
    a parameter; the derived field handling of [serde] (missing fields take
    their default or are an error, unknown fields are skipped, a repeated field
    is an error, an array is read by position) is written out.  The theorem is
    the round trip: a saved proxy reloads with its identity, and with its
    statistics and secrets gone. *)

From stdpp Require Import base list gmap strings.
From Stdlib Require Import Ascii NArith ZArith Lia.
From S2P Require Import Prelude Bytes Text Float Net NetProofs Types ProxyModel.

(** ** JSON values *)

Inductive Json : Type :=
  | JNull
  | JBool (b : bool)
  | JUint (n : N)
  | JNegInt (n : positive)
  | JFloat (x : f64)
  | JStr (s : bytes)
  | JArr (l : list Json)
  | JObj (fields : list (bytes * Json)).

(** ** [Serialize] *)

Definition opt_json {A} (f : A -> Json) (o : option A) : Json := from_option f JNull o.

(** The objects of the [json!] macro keep their keys in order. *)
Definition geo_json (g : option Country) : Json :=
  let region := c ← g; country_region c in
  JObj [(bs "city", opt_json JStr (c ← g; country_city c));
        (bs "country", JObj [(bs "code", JStr (from_option country_code [] g));
                             (bs "name", JStr (from_option country_name [] g))]);
        (bs "region", JObj [(bs "code", JStr (from_option region_code [] region));
                            (bs "name", JStr (from_option region_name [] region))])].

Definition asn_json (a : Asn) : Json :=
  JObj [(bs "number", JUint (asn_number a)); (bs "org", opt_json JStr (asn_org a))].

Definition type_json (t : Proto * option AnonLevel) : Json :=
  JObj [(bs "level", JStr (from_option anon_as_str [] t.2)); (bs "type", JStr (proto_as_str t.1))].

(** The fields of a proxy's object, given its two computed figures. *)
Definition proxy_json (p : Proxy) (avg rate : Json) : Json :=
  JObj [(bs "host", JStr (show_ip (host p)));
        (bs "port", JUint (port p));
        (bs "geo", geo_json (geo p));
        (bs "asn", opt_json asn_json (asn p));
        (bs "types", JArr (type_json <$> types_sorted p));
        (bs "avg_resp_time", avg);
        (bs "error_rate", rate)].

Definition serialize (p : Proxy) : Json :=
  proxy_json p (JFloat (avg_resp_time p)) (JFloat (error_rate p)).

(** ** [Deserialize] *)

Inductive DeError : Type :=
  | Malformed                     (** the derived readers' own errors *)
  | BadHost (s : bytes)
  | BadProto (s : bytes)
  | BadLevel (s : bytes).

Definition De A := Json -> result DeError A.

(** The values found for the named fields of a derived struct reader. *)
Definition field_of (obj : list (bytes * Json)) (name : bytes) : result DeError (option Json) :=
  match filter (fun kv => kv.1 = name) obj with
  | [] => Ok None
  | [kv] => Ok (Some kv.2)
  | _ => Err Malformed
  end.

Fixpoint collect {A} (l : list (result DeError A)) : result DeError (list A) :=
  match l with
  | [] => Ok []
  | r :: l' => x ← r; xs ← collect l'; Ok (x :: xs)
  end.

Definition struct_fields (names : list bytes) : De (list (option Json)) := fun j =>
  match j with
  | JObj obj => collect (field_of obj <$> names)
  | JArr l => if length l <=? length names
              then Ok ((Some <$> l) ++ replicate (length names - length l) None)
              else Err Malformed
  | _ => Err Malformed
  end.

Definition de_string : De bytes := fun j => match j with JStr s => Ok s | _ => Err Malformed end.
Definition de_uint (max : N) : De N := fun j =>
  match j with JUint n => if (n <=? max)%N then Ok n else Err Malformed | _ => Err Malformed end.
Definition de_option {A} (d : De A) : De (option A) := fun j =>
  match j with JNull => Ok None | _ => Some <$> d j end.
Definition de_vec {A} (d : De A) : De (list A) := fun j =>
  match j with JArr l => collect (d <$> l) | _ => Err Malformed end.

(** A field with [#[serde(default)]], and one without. *)
Definition or_default {A} (x : A) (d : De A) (o : option Json) : result DeError A :=
  match o with Some j => d j | None => Ok x end.
Definition required {A} (d : De A) (o : option Json) : result DeError A :=
  match o with Some j => d j | None => Err Malformed end.

(** [RawCountry] and [RawRegion]. *)
Definition de_code_name : De (bytes * bytes) := fun j =>
  fs ← struct_fields [bs "code"; bs "name"] j;
  match fs with
  | [code; name] =>
      c ← or_default [] de_string code;
      n ← or_default [] de_string name;
      Ok (c, n)
  | _ => Err Malformed
  end.

Record RawGeo := { raw_country : bytes * bytes; raw_region : bytes * bytes; raw_city : option bytes }.
Definition RawGeo_default : RawGeo :=
  {| raw_country := ([], []); raw_region := ([], []); raw_city := None |}.

Definition de_geo : De RawGeo := fun j =>
  fs ← struct_fields [bs "country"; bs "region"; bs "city"] j;
  match fs with
  | [country; region; city] =>
      c ← or_default ([], []) de_code_name country;
      r ← or_default ([], []) de_code_name region;
      t ← or_default None (de_option de_string) city;
      Ok {| raw_country := c; raw_region := r; raw_city := t |}
  | _ => Err Malformed
  end.

Definition de_asn : De Asn := fun j =>
  fs ← struct_fields [bs "number"; bs "org"] j;
  match fs with
  | [number; org] =>
      n ← or_default 0%N (de_uint u32_max) number;
      o ← or_default None (de_option de_string) org;
      Ok {| asn_number := n; asn_org := o |}
  | _ => Err Malformed
  end.

Definition de_type : De (bytes * bytes) := fun j =>
  fs ← struct_fields [bs "type"; bs "level"] j;
  match fs with
  | [proto; level] =>
      p ← required de_string proto;
      l ← or_default [] de_string level;
      Ok (p, l)
  | _ => Err Malformed
  end.

Record Raw := {
  raw_host : bytes;
  raw_port : N;
  raw_geo : RawGeo;
  raw_asn : option Asn;
  raw_types : list (bytes * bytes);
}.

Definition de_raw : De Raw := fun j =>
  fs ← struct_fields [bs "host"; bs "port"; bs "geo"; bs "asn"; bs "types"] j;
  match fs with
  | [h; pt; g; a; ts] =>
      h ← required de_string h;
      pt ← required (de_uint u16_max) pt;
      g ← or_default RawGeo_default de_geo g;
      a ← or_default None (de_option de_asn) a;
      ts ← or_default [] (de_vec de_type) ts;
      Ok {| raw_host := h; raw_port := pt; raw_geo := g; raw_asn := a; raw_types := ts |}
  | _ => Err Malformed
  end.

Definition nonempty (s : bytes) : bool := negb (bool_decide (s = [])).

Definition geo_of_raw (g : RawGeo) : option Country :=
  let '(code, name) := raw_country g in
  if nonempty code then
    let '(rcode, rname) := raw_region g in
    Some {| country_code := code;
            country_name := name;
            country_region := if nonempty rcode || nonempty rname
                              then Some {| region_code := rcode; region_name := rname |}
                              else None;
            country_city := t ← raw_city g; if nonempty t then Some t else None |}
  else None.

Definition level_of_raw (s : bytes) : result DeError (option AnonLevel) :=
  if nonempty s then
    match anon_from_str s with Ok l => Ok (Some l) | Err e => Err (BadLevel e) end
  else Ok None.

Fixpoint types_of_raw (acc : gmap Proto (option AnonLevel)) (ts : list (bytes * bytes))
    : result DeError (gmap Proto (option AnonLevel)) :=
  match ts with
  | [] => Ok acc
  | (p, l) :: ts' =>
      match proto_from_str p with
      | Ok proto => level ← level_of_raw l; types_of_raw (<[proto := level]> acc) ts'
      | Err e => Err (BadProto e)
      end
  end.

Definition deserialize : De Proxy := fun j =>
  raw ← de_raw j;
  h ← ok_or (BadHost (raw_host raw)) (parse_ip (raw_host raw));
  let geo := geo_of_raw (raw_geo raw) in
  types ← types_of_raw ∅ (raw_types raw);
  Ok (set_public ∅ geo (raw_asn raw)
        (set_types types (Proxy_new h (raw_port raw) ∅))).

(** ** The round trip *)

(** What a reload keeps: the address, the attribution and the confirmed types. *)
Definition identity (p : Proxy) : Proxy :=
  set_public ∅ (geo p) (asn p) (set_types (types p) (Proxy_new (host p) (port p) ∅)).

(** The attributions the format can carry: a country has a code, a region has
    a code or a name, a city is not the empty text. *)
Definition geo_normal (g : Country) : Prop :=
  country_code g <> [] /\ country_city g <> Some [] /\
  from_option (fun r => region_code r <> [] \/ region_name r <> []) True (country_region g).

Definition json_ready (p : Proxy) : Prop :=
  ip_wf (host p) /\ (port p <= u16_max)%N /\
  from_option geo_normal True (geo p) /\
  from_option (fun a => asn_number a <= u32_max)%N True (asn p).

Lemma de_string_option o : de_option de_string (opt_json JStr o) = Ok o.
Proof. by destruct o. Qed.

Lemma de_geo_json g : from_option geo_normal True g ->
  exists raw, de_geo (geo_json g) = Ok raw /\ geo_of_raw raw = g.
Proof.
  intros Hg. destruct g as [[code name region city]|]; [|by eexists].
  destruct Hg as (Hc & Ht & Hr); simpl in *.
  exists {| raw_country := (code, name);
            raw_region := (from_option region_code [] region, from_option region_name [] region);
            raw_city := city |}.
  split.
  { destruct region, city; reflexivity. }
  unfold geo_of_raw, nonempty; simpl. rewrite (bool_decide_false (code = [])) by done. simpl.
  do 2 f_equal.
  - destruct region as [[rc rn]|]; simpl in *; [|done].
    destruct Hr; repeat case_bool_decide; simplify_eq/=; done.
  - destruct city as [t|]; [|done]. simpl. rewrite bool_decide_false by congruence. done.
Qed.

Lemma de_asn_json a : from_option (fun a => asn_number a <= u32_max)%N True a ->
  de_option de_asn (opt_json asn_json a) = Ok a.
Proof.
  destruct a as [[n o]|]; [|done]. intros Hn%N.leb_le. cbn [asn_number] in Hn.
  assert (de_uint u32_max (JUint n) = Ok n) as E by (unfold de_uint; by rewrite Hn).
  transitivity (Some <$> (n ← de_uint u32_max (JUint n);
                          Ok {| asn_number := n; asn_org := o |} : result DeError Asn)).
  { by destruct o. }
  by rewrite E.
Qed.

Definition raw_type (t : Proto * option AnonLevel) : bytes * bytes :=
  (proto_as_str t.1, from_option anon_as_str [] t.2).

Lemma de_types_json ts : de_vec de_type (JArr (type_json <$> ts)) = Ok (raw_type <$> ts).
Proof.
  unfold de_vec. induction ts as [|[p l] ts IH]; [done|]. rewrite !fmap_cons.
  cbn [collect]. rewrite IH. by destruct p, l as [[]|].
Qed.

Lemma level_roundtrip l : level_of_raw (from_option anon_as_str [] l) = Ok l.
Proof. by destruct l as [[]|]. Qed.

(** Inserting the entries of a list with distinct keys builds that map. *)
Lemma types_of_raw_list ts acc :
  types_of_raw acc (raw_type <$> ts) = Ok (foldl (fun m t => <[t.1 := t.2]> m) acc ts).
Proof.
  revert acc. induction ts as [|[p l] ts IH]; intros acc; [done|]. rewrite fmap_cons.
  cbn [types_of_raw raw_type fst snd]. rewrite proto_roundtrip. simpl.
  rewrite level_roundtrip. simpl. apply IH.
Qed.

Lemma foldl_insert_lookup (ts : list (Proto * option AnonLevel)) acc k :
  NoDup ts.*1 ->
  foldl (fun (m : gmap Proto (option AnonLevel)) t => <[t.1 := t.2]> m) acc ts !! k =
  match list_to_map (M := gmap Proto (option AnonLevel)) ts !! k with
  | Some v => Some v | None => acc !! k end.
Proof.
  revert acc. induction ts as [|[p l] ts IH]; intros acc Hnd; simpl; [by rewrite lookup_empty|].
  inversion_clear Hnd as [|?? Hp Hnd']. rewrite IH by done.
  destruct (decide (p = k)) as [->|Hk].
  - rewrite lookup_insert_eq, not_elem_of_list_to_map_1 by done. by rewrite lookup_insert_eq.
  - by rewrite !lookup_insert_ne.
Qed.

Lemma types_roundtrip p : types_of_raw ∅ (raw_type <$> types_sorted p) = Ok (types p).
Proof.
  rewrite types_of_raw_list. f_equal.
  assert (NoDup (types_sorted p).*1) as Hnd
    by (rewrite types_sorted_perm; apply types_entries_NoDup).
  apply map_eq. intros k. rewrite foldl_insert_lookup, lookup_empty by done.
  destruct (types p !! k) as [l|] eqn:E.
  - assert ((k, l) ∈ types_sorted p) as Hin
      by (rewrite types_sorted_perm; by apply types_entries_elem).
    by rewrite (elem_of_list_to_map_1 _ _ _ Hnd Hin).
  - rewrite not_elem_of_list_to_map_1; [done|]. rewrite types_sorted_perm.
    change (k ∉ types_keys p). rewrite types_keys_elem, E. by intros [? ?].
Qed.

(** The two figures are skipped by the reader, whatever they are. *)
Lemma proxy_json_roundtrip p avg rate :
  json_ready p -> deserialize (proxy_json p avg rate) = Ok (identity p).
Proof.
  intros (Hip & Hport & Hgeo & Hasn).
  destruct (de_geo_json _ Hgeo) as (raw & Hraw & Hof).
  apply N.leb_le in Hport.
  assert (struct_fields [bs "host"; bs "port"; bs "geo"; bs "asn"; bs "types"] (proxy_json p avg rate) =
          Ok [Some (JStr (show_ip (host p))); Some (JUint (port p)); Some (geo_json (geo p));
              Some (opt_json asn_json (asn p)); Some (JArr (type_json <$> types_sorted p))])
    as Hf by reflexivity.
  unfold deserialize, de_raw. rewrite Hf. cbn [mbind result_bind required or_default].
  unfold de_uint at 1. rewrite Hport, Hraw. cbn [mbind result_bind de_string].
  rewrite (de_asn_json _ Hasn). cbn [mbind result_bind]. rewrite de_types_json.
  cbn [mbind result_bind raw_host raw_port raw_geo raw_asn raw_types].
  rewrite parse_show_ip by done. cbn [mbind result_bind ok_or].
  rewrite types_roundtrip. cbn [mbind result_bind]. by rewrite Hof.
Qed.

(** ** NDJSON files *)

(** A byte sink: [std::io::Write]. *)
Class Writer (W IoError : Type) := write_all : bytes -> W -> result IoError W.

(** An in-memory sink never fails. *)
#[export] Instance vec_writer : Writer bytes Empty_set := fun b w => Ok (w ++ b).

Inductive ReadError : Type := InvalidUtf8 | JsonSyntax | JsonData (e : DeError).

Section Ndjson.
Context (to_string : Json -> bytes) (from_str : bytes -> option Json).

Fixpoint write_ndjson {W E} `{Writer W E} (w : W) (ps : list Proxy) : result E W :=
  match ps with
  | [] => Ok w
  | p :: ps' =>
      w ← write_all (to_string (serialize p)) w;
      w ← write_all [LF] w;
      write_ndjson w ps'
  end.

Definition read_line (line : bytes) : result ReadError Proxy :=
  j ← ok_or JsonSyntax (from_str line);
  match deserialize j with Ok p => Ok p | Err e => Err (JsonData e) end.

Fixpoint read_lines (ls : list bytes) : result ReadError (list Proxy) :=
  match ls with
  | [] => Ok []
  | l :: ls' =>
      line ← ok_or InvalidUtf8 (from_utf8 l);
      if bool_decide (trim line = []) then read_lines ls'
      else p ← read_line line; ps ← read_lines ls'; Ok (p :: ps)
  end.

Definition read_ndjson (content : bytes) : result ReadError (list Proxy) := read_lines (lines content).

(** What the files rely on of the codec, for one proxy: its object is written
    as one line of visible text, and that text parses back to the object, up
    to the decimal figures (whose digits need not read back exactly). *)
Record codec_ok (p : Proxy) : Prop := {
  codec_inverse : exists avg rate,
    from_str (to_string (serialize p)) = Some (proxy_json p avg rate);
  codec_utf8 : valid_utf8 (to_string (serialize p)) = true;
  codec_line : LF ∉ to_string (serialize p) /\ last (to_string (serialize p)) <> Some CR;
  codec_visible : trim (to_string (serialize p)) <> [];
}.

Lemma write_ndjson_vec w ps :
  write_ndjson w ps = Ok (w ++ mjoin ((fun p => to_string (serialize p) ++ [LF]) <$> ps)).
Proof.
  revert w. induction ps as [|p ps IH]; intros w; simpl; [by rewrite app_nil_r|].
  rewrite IH. f_equal. by rewrite <- !app_assoc.
Qed.

Lemma mjoin_cons {A} (x : list A) l : mjoin (x :: l) = x ++ mjoin l.
Proof. done. Qed.

Lemma read_written ps : Forall codec_ok ps -> Forall json_ready ps ->
  read_ndjson (mjoin ((fun p => to_string (serialize p) ++ [LF]) <$> ps)) = Ok (identity <$> ps).
Proof.
  intros HC Hps. unfold read_ndjson. induction Hps as [|p ps Hp Hps IH]; [done|].
  apply Forall_cons in HC as [[Hinv Hutf [Hlf Hcr] Hvis] HC'].
  rewrite !fmap_cons, mjoin_cons, <- app_assoc. cbn [app].
  rewrite lines_cons by done. cbn [read_lines].
  unfold from_utf8 at 1. rewrite Hutf. cbn [ok_or mbind result_bind].
  rewrite bool_decide_false by done.
  unfold read_line. destruct Hinv as (avg & rate & ->). cbn [ok_or mbind result_bind].
  rewrite proxy_json_roundtrip by done. by rewrite IH.
Qed.

(** A saved pool reloads: writing any list of proxies as NDJSON and reading
    the file back gives the same proxies, in order, each with its address,
    attribution and confirmed types, and with fresh statistics, no capability
    or trust record and no credentials. *)
Theorem ndjson_roundtrip ps :
  Forall codec_ok ps -> Forall json_ready ps ->
  exists file, write_ndjson [] ps = Ok file /\ read_ndjson file = Ok (identity <$> ps).
Proof. intros. rewrite write_ndjson_vec. eexists. split; [done|]. by apply read_written. Qed.
End Ndjson.

(** The text of one object, as the codec prints it, without escapes. *)
Fixpoint print_json (j : Json) : bytes :=
  match j with
  | JNull => bs "null"
  | JBool b => if b then bs "true" else bs "false"
  | JUint n => show_N n
  | JNegInt n => bs "-" ++ show_N (Npos n)
  | JFloat x => fmt2 x
  | JStr s => ["034"%char] ++ s ++ ["034"%char]
  | JArr l => bs "[" ++ join (bs ",") (print_json <$> l) ++ bs "]"
  | JObj fs => bs "{" ++ join (bs ",")
      ((fun kv => ["034"%char] ++ kv.1 ++ ["034"%char] ++ bs ":" ++ print_json kv.2) <$> fs)
      ++ bs "}"
  end.

Definition sample_proxy : Proxy :=
  record_attempt (Some f_half) None
    (add_type Http (Some High) (add_type Socks5 None (Proxy_new (V4 10 0 0 7) 8080 {[Http]}))).

Lemma ndjson_roundtrip_witness :
  let to_string := print_json in
  let from_str s := if bool_decide (s = print_json (serialize sample_proxy))
                    then Some (serialize sample_proxy) else None in
  exists file, write_ndjson to_string [] [sample_proxy] = Ok file /\
               read_ndjson from_str file = Ok [identity sample_proxy].
Proof.
  intros to_string from_str. apply (ndjson_roundtrip to_string from_str [sample_proxy]).
  - repeat constructor.
    + exists (JFloat (avg_resp_time sample_proxy)), (JFloat (error_rate sample_proxy)).
      unfold from_str. by rewrite bool_decide_true.
    + apply (bool_decide_eq_true_1 (LF ∉ to_string (serialize sample_proxy))). by vm_compute.
    + vm_compute. discriminate.
    + vm_compute. discriminate.
  - repeat constructor; by vm_compute.
Defined.
