(* ===== verification/Resolver.v ===== *)
(** * Name resolution and the external address: [src/resolver.rs]

    The lenient IP literal parser, [resolve] over a DNS client, and the
    discovery of the host's own addresses over an HTTP client, and how a
    resolver is made.  The two clients are third-party and are parameters. *)

From stdpp Require Import base list gmap strings.
From Stdlib Require Import Ascii NArith Lia.
From S2P Require Import Prelude Bytes Text Float Net Types.

(** Four decimal octets, leading zeros allowed. *)
Definition parse_octets (l : list bytes) : option (list N) := mapM parse_u8 l.

Definition parse_ip_lenient (h : bytes) : option IpAddr :=
  if bool_decide (h = []) then None
  else match parse_ip h with
       | Some ip => Some ip
       | None =>
           if contains (bs ".") h && negb (contains (bs ":") h) then
             let octets := split_on "." h in
             if length octets =? 4 then
               match parse_octets octets with
               | Some [a; b; c; d] => Some (V4 a b c d)
               | _ => None
               end
             else None
           else None
       end.

Definition host_is_ip (h : bytes) : bool := bool_decide (is_Some (parse_ip_lenient h)).

(** [None] is a timeout; an error or an empty answer is a failed lookup. *)
Definition dns_client := bytes -> option (result unit (list IpAddr)).

Definition resolve (dns : dns_client) (h : bytes) : result ProxyError IpAddr :=
  match parse_ip_lenient h with
  | Some ip => Ok ip
  | None =>
      match dns h with
      | None => Err Resolve
      | Some (Err _) => Err Resolve
      | Some (Ok ips) => ok_or Resolve (head ips)
      end
  end.

(** [get url] is the body of the answer, [None] on any failure or timeout. *)
Definition probe_ip (get : bytes -> option bytes) (url : bytes) : option IpAddr :=
  body ← get url; parse_ip (trim body).

Definition external_ips (get : bytes -> option bytes) (ip_endpoints : list bytes)
    : result Error (gset IpAddr) :=
  let found : gset IpAddr := list_to_set (omap (probe_ip get) ip_endpoints) in
  if bool_decide (found = ∅) then Err ExtIpUnknown else Ok found.

(** ** Making a resolver *)

(** The DNS and HTTP clients take the deadline of a request. *)
Record Resolver := {
  rs_dns : duration -> dns_client;
  rs_client : duration -> bytes -> option bytes;
  rs_timeout : duration;
  rs_ip_endpoints : list bytes;
}.

Definition resolver_dns (r : Resolver) : dns_client := rs_dns r (rs_timeout r).
Definition resolver_ips (r : Resolver) : result Error (gset IpAddr) :=
  external_ips (rs_client r (rs_timeout r)) (rs_ip_endpoints r).

Definition DEFAULT_IP_ENDPOINTS : list bytes :=
  [bs "https://api64.ipify.org/"; bs "https://api.ipify.org/"; bs "https://icanhazip.com/"].

(** What the DNS library answers when a resolver is made from the system's
    configuration: a builder or the text of an error, and then the client or
    the text of an error. *)
Definition dns_library := result bytes (result bytes (duration -> dns_client)).

Definition Resolver_new (hickory : dns_library) (http : duration -> bytes -> option bytes) (timeout : duration)
    : result Error Resolver :=
  match hickory with
  | Err e => Err (Config (bs "dns resolver init: " ++ e))
  | Ok (Err e) => Err (Config (bs "dns resolver build: " ++ e))
  | Ok (Ok dns) =>
      Ok {| rs_dns := dns; rs_client := http; rs_timeout := timeout; rs_ip_endpoints := DEFAULT_IP_ENDPOINTS |}
  end.

Definition with_ip_endpoints (endpoints : list bytes) (r : Resolver) : Resolver :=
  {| rs_dns := rs_dns r; rs_client := rs_client r; rs_timeout := rs_timeout r; rs_ip_endpoints := endpoints |}.

(** ** Lemmas *)

Lemma parse_ip_lenient_strict h ip : parse_ip h = Some ip -> parse_ip_lenient h = Some ip.
Proof.
  intros E. unfold parse_ip_lenient. rewrite E. rewrite bool_decide_false; [done|].
  intros ->. by vm_compute in E.
Qed.

(** A literal never reaches the DNS client. *)
Lemma resolve_literal dns h ip : parse_ip h = Some ip -> resolve dns h = Ok ip.
Proof. intros E. unfold resolve. by rewrite (parse_ip_lenient_strict _ _ E). Qed.

Lemma resolve_error dns h e : resolve dns h = Err e -> e = Resolve.
Proof.
  unfold resolve, ok_or. intros H. repeat case_match; congruence.
Qed.

Lemma parse_u8_bound s n : parse_u8 s = Some n -> (n <= 255)%N.
Proof. apply parse_uint_bound. Qed.

(** The lenient path accepts a dotted quad of decimal octets with any number
    of leading zeros, and reads each octet as decimal. *)
Lemma parse_octets_bound l os : parse_octets l = Some os -> Forall (fun n => n <= 255)%N os.
Proof.
  unfold parse_octets. intros H%mapM_Some_1. induction H; constructor; [|done].
  by eapply parse_u8_bound.
Qed.

Example lenient_tests :
  parse_ip_lenient (bs "127.0.0.001") = Some (V4 127 0 0 1) /\
  parse_ip_lenient (bs "010.1.1.1") = Some (V4 10 1 1 1) /\
  parse_ip_lenient (bs "256.1.1.1") = None /\ parse_ip_lenient [] = None /\
  parse_ip_lenient (bs "example.com") = None.
Proof. vm_compute. done. Qed.

#[export] Hint Resolve parse_ip_lenient_strict : pb.
