(* ===== verification/Parse.v ===== *)
(** * Address scanners: [src/parse.rs]

    The per-line and whole-text scanners of [ip port] pairs and the parser of
    user-supplied lists, with the theorems that every pair reported is in the
    text where the scanner says, and that the whole-text scan stops by itself. *)

From stdpp Require Import base list gmap strings.
From Stdlib Require Import Ascii NArith Lia.
From S2P Require Import Prelude Bytes Text Net Regex Utils Types ProxyModel Resolver.

Section Parse.
Context `{Unicode}.

Definition scan_line (line : bytes) : option (bytes * bytes) :=
  ip ← re_find IPV4_RE line;
  port ← re_find PORT_RE (drop (m_end ip) line);
  Some (m_str ip, m_str port).

Definition find_addrs_line (text : bytes) : list (bytes * bytes) :=
  omap scan_line (split_on LF text).

(** The token that follows an address: a port, another address, or nothing. *)
Definition following (next_port next_ip : option Match) : option bytes :=
  match next_port, next_ip with
  | Some p, Some i => if m_start p <? m_start i then Some (m_str p) else Some []
  | Some p, None => Some (m_str p)
  | None, Some _ => Some []
  | None, None => None
  end.

Fixpoint find_addrs_from (fuel : nat) (text : bytes) (search_from : nat) : list (bytes * bytes) :=
  match fuel with
  | 0 => []
  | S f =>
      match find_at IPV4_RE text search_from with
      | None => []
      | Some ip =>
          let after := m_end ip in
          let next_ip := find_at IPV4_RE text after in
          let next_port := find_at PORT_RE text after in
          option_list (pair (m_str ip) <$> following next_port next_ip)
          ++ find_addrs_from f text after
      end
  end.

Definition find_addrs_global (text : bytes) : list (bytes * bytes) :=
  find_addrs_from (S (length text)) text 0.

Definition line_proxy (pair : bytes * bytes) : option Proxy :=
  ip ← parse_ip_lenient pair.1;
  port ← parse_u16 pair.2;
  Some (Proxy_new ip port ∅).

Definition parse_proxy_lines (text : bytes) : list Proxy :=
  omap line_proxy (find_addrs_line text).

(** ** Lemmas *)

Lemma ipv4_len s : matches IPV4_RE s -> 7 <= length s.
Proof. apply (matches_min_len IPV4_RE s). Qed.

(** The scan position strictly advances and stays inside the text. *)
Lemma find_ip_advances text i m :
  find_at IPV4_RE text i = Some m -> i < m_end m <= length text.
Proof.
  intros (Hi & He & Hm & Hs)%find_at_sound. apply ipv4_len in Hm.
  split; [lia|]. apply (f_equal length) in Hs.
  rewrite length_take, length_drop in Hs. lia.
Qed.

Lemma find_addrs_from_fuel text f1 f2 i :
  length text - i < f1 -> length text - i < f2 ->
  find_addrs_from f1 text i = find_addrs_from f2 text i.
Proof.
  revert f2 i. induction f1 as [|f1 IH]; intros [|f2] i H1 H2; [lia..|].
  cbn [find_addrs_from]. destruct (find_at IPV4_RE text i) as [m|] eqn:E; [|done].
  apply find_ip_advances in E. f_equal. apply IH; lia.
Qed.

(** The whole-text scan terminates: the position advances past every
    address found, so the scan with any larger bound on its iterations is the
    scan the program performs, and it satisfies the loop's own equation. *)
Theorem find_addrs_global_total text fuel :
  length text < fuel ->
  find_addrs_from fuel text 0 = find_addrs_global text.
Proof. intros Hf. apply find_addrs_from_fuel; lia. Qed.

(** A pair of one line: an address and, after it, a run of digits. *)
Definition pair_in (line : bytes) (ip port : bytes) : Prop :=
  exists a b c, line = a ++ ip ++ b ++ port ++ c /\ matches IPV4_RE ip /\ matches PORT_RE port.

Lemma found_split (r : regex) s m :
  re_find r s = Some m ->
  s = take (m_start m) s ++ m_str m ++ drop (m_end m) s /\ matches r (m_str m).
Proof.
  intros (_ & He & Hm & Hs)%find_at_sound. split; [|done].
  rewrite <- (take_drop (m_start m) s) at 1. f_equal.
  rewrite <- (take_drop (length (m_str m)) (drop (m_start m) s)) at 1.
  rewrite <- Hs, drop_drop. do 2 f_equal. lia.
Qed.

Lemma scan_line_sound line ip port :
  scan_line line = Some (ip, port) -> pair_in line ip port.
Proof.
  unfold scan_line. intros E.
  destruct (re_find IPV4_RE line) as [m|] eqn:Em; [|done]. simpl in E.
  destruct (re_find PORT_RE _) as [k|] eqn:Ek; [|done]. simplify_eq/=.
  apply found_split in Em as [Hl Hm]. apply found_split in Ek as [Hl' Hk].
  exists (take (m_start m) line), (take (m_start k) (drop (m_end m) line)),
         (drop (m_end k) (drop (m_end m) line)).
  split; [|done]. by rewrite <- Hl'.
Qed.

(** Every proxy parsed from a user's list is on one of its lines: the line
    holds an address the lenient parser reads as the proxy's, and after it a
    run of two to five digits that is its port and fits sixteen bits; nothing
    is claimed about the proxy's types, and it has no history. *)
Theorem parse_proxy_lines_sound text p :
  p ∈ parse_proxy_lines text ->
  exists line ip port_text n,
    line ∈ split_on LF text /\ pair_in line ip port_text /\
    parse_ip_lenient ip = Some (host p) /\ parse_u16 port_text = Some n /\
    (n <= u16_max)%N /\ p = Proxy_new (host p) n ∅.
Proof.
  unfold parse_proxy_lines, find_addrs_line.
  intros ((ip & pt) & (line & Hline & Hscan)%list_elem_of_omap & Hp)%list_elem_of_omap.
  unfold line_proxy in Hp; simpl in Hp.
  destruct (parse_ip_lenient ip) as [a|] eqn:Ea; [|done]. simpl in Hp.
  destruct (parse_u16 pt) as [n|] eqn:En; [|done]. simplify_eq/=.
  exists line, ip, pt, n. split; [done|]. split; [by apply scan_line_sound|].
  split_and!; try done. by eapply parse_uint_bound.
Qed.
End Parse.

Definition sample_list : bytes := bs "10.0.0.1:8080" ++ [LF] ++ bs "no" ++ [LF] ++ bs "x 1.2.3.4 99999".

Lemma find_addrs_global_total_witness :
  length sample_list < 60 /\
  @find_addrs_from AsciiOnly 60 sample_list 0 = @find_addrs_global AsciiOnly sample_list.
Proof.
  split; [vm_compute; lia|].
  apply (@find_addrs_global_total AsciiOnly sample_list 60). vm_compute. lia.
Defined.

Lemma parse_proxy_lines_sound_witness :
  let p := Proxy_new (V4 10 0 0 1) 8080 ∅ in
  exists line ip port_text n,
    line ∈ split_on LF sample_list /\ @pair_in AsciiOnly line ip port_text /\
    parse_ip_lenient ip = Some (host p) /\ parse_u16 port_text = Some n /\
    (n <= u16_max)%N /\ p = Proxy_new (host p) n ∅.
Proof.
  intros p. apply (@parse_proxy_lines_sound AsciiOnly sample_list p).
  apply (bool_decide_eq_true_1 (p ∈ @parse_proxy_lines AsciiOnly sample_list)).
  vm_compute. reflexivity.
Defined.

Example find_addrs_global_test :
  @find_addrs_global AsciiOnly (bs "1.1.1.1 and 2.2.2.2 port 80, 3.3.3.3") =
  [(bs "1.1.1.1", []); (bs "2.2.2.2", bs "80")].
Proof. vm_compute. reflexivity. Qed.
