(* ===== verification/Provider.v ===== *)
(** * Providers and attribution: [src/provider.rs], [src/geo.rs]

    Extraction of candidates from a fetched page, the loader of provider
    configurations, the fetch wrapper, and the geographic lookups.  The
    regular-expression engine for user patterns, the YAML parser, the file
    system, the HTTP client and the MaxMind reader are parameters. *)

From stdpp Require Import base list gmap strings.
From Stdlib Require Import Ascii NArith Lia.
From S2P Require Import Prelude Bytes Text Net Regex Utils Types ProxyModel Parse.

(** ** Data *)

Record ProviderSpec := {
  url : bytes;
  protocols : list Proto;
  pattern : option bytes;
  timeout : N;
  kind : option bytes;
}.

Definition default_timeout : N := 20.

Record Candidate := { cand_host : bytes; cand_port : N; cand_protocols : gset Proto }.

#[export] Instance candidate_eq_dec : EqDecision Candidate.
Proof. solve_decision. Defined.

Definition ProviderSpec_new (u : bytes) (ps : list Proto) : ProviderSpec :=
  {| url := u; protocols := ps; pattern := None; timeout := default_timeout; kind := None |}.

(** ** Extraction *)

(** The groups of one match: the whole match and groups 1 and 2, if any. *)
Record Captures := { cap_whole : bytes; cap_1 : option bytes; cap_2 : option bytes }.

(** [captures_iter] of a compiled user pattern; [None]: it does not compile. *)
Definition regex_engine := bytes -> option (bytes -> list Captures).

Definition captured_pair (c : Captures) : option (bytes * bytes) :=
  match cap_1 c, cap_2 c with
  | Some h, Some p => Some (h, p)
  | _, _ => rsplit_once ":" (cap_whole c)
  end.

Definition extract_with_pattern (re : regex_engine) (pat body : bytes) : list (bytes * bytes) :=
  match re pat with
  | Some captures_iter => omap captured_pair (captures_iter body)
  | None => []
  end.

Section Extract.
Context `{Unicode} (re : regex_engine).

(** The filters of one pair, in the order of the loop's [continue]s. *)
Definition candidate_of (ps : gset Proto) (pair : bytes * bytes) : option Candidate :=
  port ← parse_u16 pair.2;
  if (port =? 0)%N then None
  else
    host ← canonicalize_ip pair.1;
    if from_option is_unspecified false (parse_ip host) then None
    else Some {| cand_host := host; cand_port := port; cand_protocols := ps |}.

Definition cand_key (c : Candidate) : bytes * N := (cand_host c, cand_port c).

Definition page_pairs (spec : ProviderSpec) (body : bytes) : list (bytes * bytes) :=
  match pattern spec with
  | Some pat => extract_with_pattern re pat body
  | None => find_addrs_global body
  end.

Definition extract (spec : ProviderSpec) (body : bytes) : list Candidate :=
  dedup_by cand_key ∅ (omap (candidate_of (list_to_set (protocols spec))) (page_pairs spec body)).

(** [fetch_body] is third-party I/O; any failure yields no candidate. *)
Definition fetch (fetch_body : ProviderSpec -> option bytes) (spec : ProviderSpec) : list Candidate :=
  match fetch_body spec with
  | Some body => extract spec body
  | None => []
  end.

(** C28.  Extraction is exactly the filtered pairs of the page: a host and port
    are reported if and only if some pair of the page has a non-zero 16-bit
    port and a host that canonicalises to that text, not the unspecified
    address; no two candidates share host and port, and each carries the
    provider's protocols. *)
Theorem extract_exact spec body :
  let found := extract spec body in
  NoDup (cand_key <$> found) /\
  (forall c, c ∈ found -> cand_protocols c = list_to_set (protocols spec)) /\
  (forall h p, (h, p) ∈ cand_key <$> found <->
     exists raw, raw ∈ page_pairs spec body /\ parse_u16 raw.2 = Some p /\ p <> 0%N /\
                 canonicalize_ip raw.1 = Some h /\
                 from_option is_unspecified false (parse_ip h) = false).
Proof.
  cbv zeta. unfold extract. set (ps := list_to_set (protocols spec)).
  set (cands := omap _ _).
  destruct (dedup_by_spec cand_key cands ∅) as [Hnd Hsub].
  assert (forall c, c ∈ cands <-> cand_protocols c = ps /\
    exists raw, raw ∈ page_pairs spec body /\ parse_u16 raw.2 = Some (cand_port c) /\
      cand_port c <> 0%N /\ canonicalize_ip raw.1 = Some (cand_host c) /\
      from_option is_unspecified false (parse_ip (cand_host c)) = false) as Hc.
  { intros [h p q]. unfold cands. rewrite list_elem_of_omap. unfold candidate_of. split.
    - intros (raw & Hraw & E). destruct (parse_u16 raw.2) as [n|] eqn:En; [|done]. simpl in E.
      destruct (N.eqb_spec n 0); [done|].
      destruct (canonicalize_ip raw.1) as [c|] eqn:Eh; [|done]. simpl in E.
      destruct (from_option _ _ _) eqn:Eu; simplify_eq/=. eauto 10.
    - simpl. intros (-> & raw & Hraw & E1 & E2 & E3 & E4). exists raw. split; [done|].
      rewrite E1. simpl. destruct (N.eqb_spec p 0); [done|]. rewrite E3. simpl. by rewrite E4. }
  split; [done|]. split.
  { intros c [Hin _]%Hsub. by apply Hc. }
  intros h p. split.
  - intros (c & Ek & [Hin _]%Hsub)%list_elem_of_fmap.
    apply Hc in Hin as [_ ?]. unfold cand_key in Ek. by simplify_eq.
  - intros Hraw. pose (c := {| cand_host := h; cand_port := p; cand_protocols := ps |}).
    change (h, p) with (cand_key c). apply dedup_by_complete; [|set_solver]. by apply Hc.
Qed.
End Extract.

Example extract_test :
  cand_key <$> @extract AsciiOnly (fun _ => None) (ProviderSpec_new (bs "u") [Http])
    (bs "10.0.0.1:8080 010.0.0.1:80 0.0.0.0:80 10.0.0.1:8080 1.2.3.4:0 5.6.7.8 99999")
  = [(bs "10.0.0.1", 8080%N)].
Proof. vm_compute. reflexivity. Qed.

(** ** The configuration directory *)

(** What the file system shows of an entry; [None] stands for an entry that
    cannot be read, a name part that is missing or not text, or a file whose
    content cannot be read as text. *)
Record DirEntry := {
  e_path : bytes;
  e_extension : option bytes;
  e_file_name : option bytes;
  e_content : option bytes;
}.

Inductive Dir : Type := NotADir | Unreadable | Entries (l : list (option DirEntry)).

Definition config_file (e : DirEntry) : bool :=
  match e_extension e with
  | Some x => bool_decide (x ∈ [bs "yaml"; bs "yml"; bs "json"])
  | None => false
  end
  && match e_file_name e with
     | Some n => negb (starts_with (bs "_") n)
     | None => false
     end.

Section Load.
Context (from_yaml : bytes -> option ProviderSpec) (path_cmp : bytes -> bytes -> comparison).

Definition load_config (e : DirEntry) : option ProviderSpec :=
  text ← e_content e;
  spec ← from_yaml text;
  match kind spec with
  | None => Some spec
  | Some k => if bool_decide (k = bs "simple") then Some spec else None
  end.

Definition load_provider_dir (d : Dir) : list ProviderSpec :=
  match d with
  | Entries l =>
      omap load_config
        (sort_by (fun a b => path_cmp (e_path a) (e_path b)) (List.filter config_file (omap id l)))
  | _ => []
  end.

(** A disabled, misnamed, unreadable, malformed or non-simple file adds
    nothing, and every other file adds its one provider. *)
Lemma load_provider_dir_elem l spec :
  spec ∈ load_provider_dir (Entries l) <->
  exists e, Some e ∈ l /\ config_file e = true /\ load_config e = Some spec.
Proof.
  unfold load_provider_dir. rewrite list_elem_of_omap.
  setoid_rewrite sort_by_perm.
  setoid_rewrite list_elem_of_In. setoid_rewrite filter_In.
  setoid_rewrite <- list_elem_of_In. setoid_rewrite list_elem_of_omap.
  split.
  - intros (e & [(x & Hx & Ee) Hc] & Hl). simpl in Ee. subst. eauto.
  - intros (e & He & Hc & Hl). exists e. split; [|done]. split; [|done]. by exists (Some e).
Qed.
End Load.

(** ** Geographic lookup *)

(** The record a country or city database yields for an address. *)
Record CityRec := {
  iso_code : option bytes;
  country_english : option bytes;
  subdivisions : list (option bytes * option bytes);  (** (iso code, english name) *)
  city_english : option bytes;
}.

Record AsnRec := { as_number : option N; as_organization : option bytes }.

Section Geo.
Context (city_record : IpAddr -> option CityRec) (asn_record : IpAddr -> option AsnRec).

Definition region_of (s : option bytes * option bytes) : option Region :=
  let code := default [] s.1 in
  let name := default [] s.2 in
  if bool_decide (code = []) && bool_decide (name = []) then None
  else Some {| region_code := code; region_name := name |}.

Definition lookup (ip : IpAddr) : option Country :=
  rec ← city_record ip;
  code ← iso_code rec;
  Some {| country_code := code;
          country_name := default code (country_english rec);
          country_region := s ← head (subdivisions rec); region_of s;
          country_city := city_english rec |}.

Definition lookup_asn (ip : IpAddr) : option Asn :=
  rec ← asn_record ip;
  number ← as_number rec;
  Some {| asn_number := number; asn_org := as_organization rec |}.

Lemma lookup_region ip c r :
  lookup ip = Some c -> country_region c = Some r -> region_code r <> [] \/ region_name r <> [].
Proof.
  unfold lookup. intros Hc Hr.
  destruct (city_record ip) as [rec|]; [|done]. simpl in Hc.
  destruct (iso_code rec); simplify_eq/=. destruct (head _) as [s|]; [|done].
  simpl in Hr. unfold region_of in Hr. case_match eqn:E; simplify_eq/=.
  apply andb_false_iff in E as [E|E]; bool_destruct; auto.
Qed.
End Geo.
