(* ===== verification/Judge.v ===== *)
(** * Judges: [src/judge.rs]

    Judge endpoints, the probe that decides which of them reflect a request,
    and the pool of the working ones by scheme.  The URL parser, the HTTP
    client and the random number generator are parameters. *)

From stdpp Require Import base list gmap strings.
From Stdlib Require Import Ascii NArith Lia.
From S2P Require Import Prelude Bytes Text Net Utils Types Resolver.

Record Marks := { via : nat; proxy_marks : nat }.
Definition Marks_default : Marks := {| via := 0; proxy_marks := 0 |}.

Record Judge := {
  j_url : bytes;
  j_scheme : JudgeScheme;
  j_host : bytes;
  j_path : bytes;
  j_ip : option IpAddr;
  marks : Marks;
}.

(** What the URL parser yields. *)
Record UrlParts := { u_scheme : bytes; u_host : option bytes; u_path : bytes; u_query : option bytes }.

Definition scheme_of (s : bytes) : option JudgeScheme :=
  if bool_decide (s = bs "http") then Some JHttp
  else if bool_decide (s = bs "https") then Some JHttps
  else if bool_decide (s = bs "smtp") then Some JSmtp
  else None.

Definition Judge_parse (url_parse : bytes -> option UrlParts) (u : bytes) : option Judge :=
  parsed ← url_parse u;
  sch ← scheme_of (u_scheme parsed);
  h ← u_host parsed;
  let p := match u_query parsed with
           | Some q => u_path parsed ++ bs "?" ++ q
           | None => u_path parsed
           end in
  Some {| j_url := u; j_scheme := sch; j_host := h; j_path := p; j_ip := None;
          marks := Marks_default |}.

(** The answer to a GET: the status and, if it can be read, the body. *)
Definition http_client := bytes -> list (bytes * bytes) -> option (N * option bytes).

Section Probe.
Context `{Unicode} (dns : dns_client) (get : http_client) (real_ext_ips : gset IpAddr).

Definition any_ip_in (ips : gset IpAddr) (found : gset bytes) : bool :=
  existsb (fun ip => bool_decide (show_ip ip ∈ found)) (elements ips).

Definition with_ip (ip : IpAddr) (m : Marks) (j : Judge) : Judge :=
  {| j_url := j_url j; j_scheme := j_scheme j; j_host := j_host j; j_path := j_path j;
     j_ip := Some ip; marks := m |}.

(** The judge as the probe leaves it, and the verdict; [draw] makes the marker. *)
Definition probe (draw : N) (j : Judge) : bool * Judge :=
  match resolve dns (j_host j) with
  | Err _ => (false, j)
  | Ok ip =>
      let j := with_ip ip (marks j) j in
      if bool_decide (j_scheme j = JSmtp) then (true, j)
      else
        let marker := fresh_marker draw in
        match get (j_url j) (request_headers (Some marker)) with
        | Some (status, Some body) =>
            if (status =? 200)%N then
              let page := to_lowercase body in
              let page_ips := get_all_ip page in
              if any_ip_in real_ext_ips page_ips && contains marker page
              then (true, with_ip ip {| via := count_matches (bs "via") page;
                                        proxy_marks := count_matches (bs "proxy") page |} j)
              else (false, j)
            else (false, j)
        | _ => (false, j)
        end
  end.

Record JudgePool := { jp_http : list Judge; jp_https : list Judge; jp_smtp : list Judge }.
Definition JudgePool_default : JudgePool := {| jp_http := []; jp_https := []; jp_smtp := [] |}.

Definition push_judge (pool : JudgePool) (j : Judge) : JudgePool :=
  match j_scheme j with
  | JHttp => {| jp_http := jp_http pool ++ [j]; jp_https := jp_https pool; jp_smtp := jp_smtp pool |}
  | JHttps => {| jp_http := jp_http pool; jp_https := jp_https pool ++ [j]; jp_smtp := jp_smtp pool |}
  | JSmtp => {| jp_http := jp_http pool; jp_https := jp_https pool; jp_smtp := jp_smtp pool ++ [j] |}
  end.

(** [draws] gives each candidate's marker. *)
Definition probe_all (draws : nat -> N) (candidates : list Judge) : JudgePool :=
  let working := omap (fun ij => let '(usable, j) := probe (draws ij.1) ij.2 in
                                 if usable then Some j else None) (enumerate candidates) in
  foldl push_judge JudgePool_default working.
End Probe.

Definition bucket (pool : JudgePool) (s : JudgeScheme) : list Judge :=
  match s with JHttp => jp_http pool | JHttps => jp_https pool | JSmtp => jp_smtp pool end.

(** [choose]: [draw] is the uniform index, reduced to the bucket's length. *)
Definition random_judge (pool : JudgePool) (s : JudgeScheme) (draw : nat) : option Judge :=
  bucket pool s !! (draw mod length (bucket pool s)).

Definition pool_is_empty (pool : JudgePool) : bool :=
  bool_decide (jp_http pool = []) && bool_decide (jp_https pool = [])
  && bool_decide (jp_smtp pool = []).

Definition counts (pool : JudgePool) : nat * nat * nat :=
  (length (jp_http pool), length (jp_https pool), length (jp_smtp pool)).

#[global] Instance marks_eq_dec : EqDecision Marks.
Proof. solve_decision. Defined.
#[global] Instance judge_eq_dec : EqDecision Judge.
Proof. solve_decision. Defined.

Definition default_judges : list bytes :=
  [bs "http://httpbin.org/get?show_env"; bs "https://httpbin.org/get?show_env";
   bs "smtp://smtp.gmail.com"; bs "smtp://aspmx.l.google.com"; bs "http://azenv.net/";
   bs "https://www.proxy-listen.de/azenv.php"; bs "http://proxyjudge.us/azenv.php";
   bs "http://ip.spys.ru/"].

(** ** Lemmas *)

Lemma any_ip_in_spec ips found :
  any_ip_in ips found = true <-> exists ip, ip ∈ ips /\ show_ip ip ∈ found.
Proof.
  unfold any_ip_in. rewrite existsb_exists. setoid_rewrite <- list_elem_of_In.
  setoid_rewrite elem_of_elements. by setoid_rewrite bool_decide_eq_true.
Qed.

Lemma probe_scheme `{Unicode} dns get ips draw j : j_scheme (probe dns get ips draw j).2 = j_scheme j.
Proof.
  unfold probe. destruct (resolve _ _); [|done]. case_bool_decide; [done|].
  destruct (get _ _) as [[st [b|]]|]; try done. destruct (_ =? _)%N; [|done]. by destruct (_ && _).
Qed.

Lemma bucket_push pool j s :
  bucket (push_judge pool j) s = bucket pool s ++ (if bool_decide (j_scheme j = s) then [j] else []).
Proof. unfold push_judge. destruct (j_scheme j), s; simpl; by rewrite ?app_nil_r. Qed.

Lemma bucket_foldl js pool s :
  bucket (foldl push_judge pool js) s =
  bucket pool s ++ List.filter (fun j => bool_decide (j_scheme j = s)) js.
Proof.
  revert pool. induction js as [|j js IH]; intros pool; simpl; [by rewrite app_nil_r|].
  rewrite IH, bucket_push, <- app_assoc. by case_bool_decide.
Qed.

(** C24.  A judge is in the pool exactly when its probe succeeded: its host
    resolves and, unless it is an SMTP judge, its page came back with status
    200, reflects the marker of the request and one of the host's own external
    addresses; it is filed under its own scheme with the baseline counts of
    that page. *)
Theorem probe_all_exact `{Unicode} dns get ips draws candidates s j :
  j ∈ bucket (probe_all dns get ips draws candidates) s <->
  j_scheme j = s /\
  exists i c ip, candidates !! i = Some c /\ resolve dns (j_host c) = Ok ip /\
    ((s = JSmtp /\ j = with_ip ip (marks c) c) \/
     (s <> JSmtp /\ exists body, let page := to_lowercase body in
        get (j_url c) (request_headers (Some (fresh_marker (draws i)))) = Some (200%N, Some body) /\
        (exists own, own ∈ ips /\ show_ip own ∈ get_all_ip page) /\
        contains (fresh_marker (draws i)) page = true /\
        j = with_ip ip {| via := count_matches (bs "via") page;
                          proxy_marks := count_matches (bs "proxy") page |} c)).
Proof.
  unfold probe_all. rewrite bucket_foldl. change (bucket JudgePool_default s) with
    (match s with JHttp => [] | JHttps => [] | JSmtp => [] : list Judge end).
  replace (match s with JHttp => [] | JHttps => [] | JSmtp => [] : list Judge end) with ([] : list Judge)
    by by destruct s.
  cbn [app]. rewrite list_elem_of_In, filter_In, bool_decide_eq_true, <- list_elem_of_In.
  rewrite list_elem_of_omap.
  split.
  - intros [((i & c) & Hc%elem_of_enumerate & Hp) Hs]. split; [done|]. cbn [fst snd] in Hp.
    destruct (probe dns get ips (draws i) c) as [u j'] eqn:E. destruct u; simplify_eq/=.
    unfold probe in E. destruct (resolve dns (j_host c)) as [ip|] eqn:Er; [|done].
    exists i, c, ip. split; [done|]. split; [done|]. cbn [j_scheme with_ip j_url marks] in E.
    case_bool_decide as Hsm; [left; injection E as <-; done|right].
    destruct (get _ _) as [[st [body|]]|] eqn:Eg; simplify_eq/=.
    destruct (N.eqb_spec st 200); simplify_eq/=.
    destruct (_ && _) eqn:Ev; simplify_eq/=. apply andb_true_iff in Ev as [Ev Em].
    apply any_ip_in_spec in Ev. split; [done|]. by exists body.
  - intros [Hs (i & c & ip & Hc & Hr & Hcase)]. split; [|done].
    exists (i, c). split; [by apply elem_of_enumerate|]. cbn [fst snd].
    unfold probe. rewrite Hr. cbn [j_scheme with_ip j_url marks].
    destruct Hcase as [[-> ->]|(Hne & body & Hg & Hown & Hm & ->)]; cbn [j_scheme with_ip] in Hs.
    + by rewrite bool_decide_true.
    + rewrite bool_decide_false by congruence. rewrite Hg. cbn [N.eqb Pos.eqb].
      apply any_ip_in_spec in Hown. by rewrite Hown, Hm.
Qed.

Lemma random_judge_elem pool s draw j :
  random_judge pool s draw = Some j -> j ∈ bucket pool s.
Proof. apply list_elem_of_lookup_2. Qed.

Lemma random_judge_total pool s draw : bucket pool s <> [] -> is_Some (random_judge pool s draw).
Proof.
  intros Hb. apply lookup_lt_is_Some_2. apply Nat.mod_upper_bound. by destruct (bucket pool s).
Qed.
