(* ===== verification/Checker.v ===== *)
(** * The checker: [src/checker.rs]

    Which protocols of a proxy are checked and in which order, one attempt
    (dial, negotiate, request, response, validation), the retry policy, the
    anonymity and trust verdicts, the DNS blocklist, and the final filtering by
    the requested levels.  Third-party code (DNS, TLS and SOCKS clients, the
    inflaters, [powi], random draws) is a parameter; what one attempt meets on
    the network is its [CheckEnv]. *)

From stdpp Require Import base list gmap strings.
From Stdlib Require Import Ascii NArith ZArith Lia.
From S2P Require Import Prelude Bytes Text Float Net Utils Io Types ProxyModel Negotiator Resolver Judge.

(** ** The retry policy *)

Record RetryPolicy := {
  max_tries : nat;
  retry_on : gset ProxyError;
  backoff : duration;
  factor : f64;
  jitter : f64;
  max_backoff : duration;
}.

Definition RetryPolicy_default : RetryPolicy :=
  {| max_tries := 3; retry_on := {[Timeout]}; backoff := 0%N; factor := f_one; jitter := f_zero;
     max_backoff := 0%N |}.

Definition with_tries (n : nat) (on : gset ProxyError) : RetryPolicy :=
  {| max_tries := n; retry_on := on; backoff := backoff RetryPolicy_default;
     factor := factor RetryPolicy_default; jitter := jitter RetryPolicy_default;
     max_backoff := max_backoff RetryPolicy_default |}.

Definition tries (n : nat) : RetryPolicy := with_tries n (retry_on RetryPolicy_default).

Definition TRANSIENT : gset ProxyError := {[Timeout; Reset; ConnFailed; EmptyRecv]}.
Definition transient (n : nat) : RetryPolicy := with_tries n TRANSIENT.

(** [draw] is the random number of [-1.0..=1.0]; [None]: the conversion to a
    duration panics (a negative or too large number of seconds). *)
Definition backoff_for (powi : f64 -> nat -> f64) (draw : f64) (r : RetryPolicy) (i : nat)
    : option duration :=
  if bool_decide (backoff r = 0%N) then Some 0%N
  else
    let d := f_mul (as_secs_f64 (backoff r)) (powi (factor r) i) in
    let d := if f_lt f_zero (jitter r)
             then f_mul d (f_add f_one (f_mul (jitter r) draw)) else d in
    let d := if bool_decide (max_backoff r = 0%N) then d
             else f_min d (as_secs_f64 (max_backoff r)) in
    from_secs_f64 (f_max d f_zero).

(** ** Data *)

Record LivenessTarget := { l_host : bytes; l_path : bytes; l_ip : IpAddr; l_scheme : JudgeScheme }.

Inductive CheckMode : Type := Judged | Liveness (t : LivenessTarget).

Inductive Probe : Type := PJudged (j : Judge) | PLiveness (t : LivenessTarget).

Record CheckerConfig := {
  cfg_judges : list bytes;
  cfg_types : list TypeSpec;
  cfg_timeout : duration;
  cfg_retry : RetryPolicy;
  cfg_post : bool;
  cfg_strict : bool;
  cfg_relaxed : bool;
  cfg_trust_check : bool;
  cfg_dnsbl : list bytes;
  cfg_liveness_url : option bytes;
}.

Record Checker := {
  judges : JudgePool;
  real_ext_ips : gset IpAddr;
  requested : list TypeSpec;
  timeout : duration;
  post : bool;
  strict : bool;
  relaxed_validity : bool;
  trust_check : bool;
  dnsbl : list bytes;
  mode : CheckMode;
  retry : RetryPolicy;
}.

Record Observation := { o_level : option AnonLevel; o_caps : Caps; o_trust : TrustReport }.
Definition Observation_default : Observation :=
  {| o_level := None; o_caps := Caps_default; o_trust := TrustReport_default |}.

Inductive Attempt : Type := Working (o : Observation) | Invalid.

(** ** Reading the judge's answer *)

Fixpoint read_to_end (buf : bytes) (r : list read_event) : result ProxyError bytes * list read_event :=
  match r with
  | RdByte c :: r' => read_to_end (buf ++ [c]) r'
  | RdEof :: r' => (Ok buf, r')
  | RdErr :: r' => (Err Reset, r')
  | RdLate :: r' => (Err Timeout, r')
  | [] => (Err Timeout, [])
  end.

Definition read_response : IO ProxyError bytes := fun c =>
  match read_to_end [] (rx c) with
  | (Ok buf, r) => (if bool_decide (buf = []) then Err EmptyRecv else Ok buf, set_rx r c)
  | (Err e, r) => (Err e, set_rx r c)
  end.

Definition split_head_body (raw : bytes) : bytes * bytes :=
  default (raw, []) (split_once (crlf ++ crlf) raw).

Definition dnsbl_query (ip : IpAddr) (zone : bytes) : option bytes :=
  match ip with
  | V4 a b c d => Some (join (bs ".") [show_N d; show_N c; show_N b; show_N a; zone])
  | V6 _ => None
  end.

Definition caps_from_content (content : bytes) : Caps :=
  {| cookie_echo := contains (bs "cookie=ok") content;
     referer_echo := contains (bs "https://www.google.com/") content |}.

(** ** The trust verdict *)

Definition BENIGN : list bytes :=
  [bs "host"; bs "connection"; bs "content-length"; bs "x-forwarded-for"; bs "via"].

(** A line that reads as a header nobody is known to have sent. *)
Definition injected (sent : list bytes) (line : bytes) : bool :=
  match split_once (bs ": ") line with
  | Some (n, _) =>
      let name := to_ascii_lowercase (trim n) in
      negb (bool_decide (name = []))
      && forallb (fun c => is_ascii_alphanumeric c || bool_decide (c = "-"%char)) name
      && negb (bool_decide (name ∈ (to_ascii_lowercase <$> sent)))
      && negb (bool_decide (name ∈ BENIGN))
  | None => false
  end.

Definition assess (sent : list bytes) (canary content : bytes) : TrustReport :=
  {| signals :=
       (if contains canary content then [] else [CanaryMismatch])
       ++ (if existsb (injected sent) (lines content) then [InjectedHeader] else []) |}.

Definition sent_header_names : list bytes :=
  (request_headers None).*1 ++ [bs "Host"; bs "Connection"; bs "Content-Length"].

(** ** Requests *)

Definition render_request (method target : bytes) (hdrs : list (bytes * bytes)) : bytes :=
  method ++ bs " " ++ target ++ bs " HTTP/1.1" ++ crlf
  ++ join crlf ((fun kv => kv.1 ++ bs ": " ++ kv.2) <$> hdrs) ++ crlf ++ crlf.

Definition request_target (proto : Proto) (h p : bytes) : bytes :=
  if uses_full_path proto then bs "http://" ++ h ++ p else p.

(** The keys inserted after [request_headers] are new, so they are appended. *)
Definition build_liveness_request (lt : LivenessTarget) (proto : Proto) : bytes :=
  render_request (bs "GET") (request_target proto (l_host lt) (l_path lt))
    (request_headers None ++ [(bs "Host", l_host lt); (bs "Connection", bs "close")]).

Definition build_request (k : Checker) (j : Judge) (proto : Proto) (draw : N) : bytes * bytes :=
  let marker := fresh_marker draw in
  (render_request (if post k then bs "POST" else bs "GET")
     (request_target proto (j_host j) (j_path j))
     (request_headers (Some marker)
      ++ [(bs "Host", j_host j); (bs "Connection", bs "close"); (bs "Content-Length", bs "0")]),
   marker).

Section Checking.
Context `{Unicode} (dns : dns_client) (clients : Clients) (gunzip inflate : bytes -> option bytes).
Context (powi : f64 -> nat -> f64).

(** The inflaters answer [None] on bad data or on output that is not text. *)
Definition decompress (head_ body : bytes) : bytes :=
  let head_lower := to_lowercase (from_utf8_lossy head_) in
  let enc := trim <$> head (omap (strip_prefix (bs "content-encoding:")) (lines head_lower)) in
  let decoded :=
    match enc with
    | Some v => if bool_decide (v = bs "gzip") then gunzip body
                else if bool_decide (v = bs "deflate") then inflate body
                else None
    | None => None
    end in
  default (from_utf8_lossy body) decoded.

Definition response_is_valid (content marker : bytes) : bool :=
  let c := caps_from_content content in
  contains marker content && negb (bool_decide (get_all_ip content = ∅))
  && referer_echo c && cookie_echo c.

Definition anonymity_level (k : Checker) (content : bytes) (j : Judge) : AnonLevel :=
  let lower := to_lowercase content in
  let found := get_all_ip lower in
  let real_visible := any_ip_in (real_ext_ips k) found in
  let via := (Judge.via (marks j) <? count_matches (bs "via") lower)
             || (proxy_marks (marks j) <? count_matches (bs "proxy") lower) in
  if real_visible then Transparent else if via then Anonymous else High.

(** ** One attempt *)

(** What an attempt meets: the outcome of dialling the proxy (with the
    connection's script), the draw for the marker, the measured round trip,
    and the draw for the delay before the next attempt. *)
Record CheckEnv := { c_dial : dialed; c_marker : N; c_rtt : f64; c_jitter : f64 }.

Definition judged (k : Checker) (proto : Proto) (j : Judge) (marker head_ body : bytes) : Attempt :=
  let content := decompress head_ body in
  let valid := if relaxed_validity k
               then contains marker content && negb (bool_decide (get_all_ip content = ∅))
               else response_is_valid content marker in
  if valid then
    Working {| o_level := if checks_anon_level proto then Some (anonymity_level k content j) else None;
               o_caps := caps_from_content content;
               o_trust := if trust_check k then assess sent_header_names marker content
                          else TrustReport_default |}
  else Invalid.

(** The exchange on an established stream. *)
Definition exchange (k : Checker) (proto : Proto) (p : Probe) (marker_draw : N) : IO ProxyError Attempt :=
  let '(request, marker) :=
    match p with
    | PJudged j => let '(req, m) := build_request k j proto marker_draw in (req, Some m)
    | PLiveness lt => (build_liveness_request lt proto, None)
    end in
  _ ← write_or Reset Timeout request;
  raw ← read_response;
  let '(head_, body) := split_head_body raw in
  if negb (get_status_code head_ 9 12 =? 200)%N then io_err BadStatus
  else mret match p, marker with
            | PJudged j, Some m => judged k proto j m head_ body
            | _, _ => Working Observation_default
            end.

Definition attempt (k : Checker) (env : CheckEnv) (proto : Proto) (p : Probe) (t : Target)
    : result ProxyError Attempt :=
  match c_dial env with
  | None => Err Timeout
  | Some (Err _) => Err ConnFailed
  | Some (Ok tcp) =>
      match negotiate clients proto t None tcp with
      | (Err e, _) => Err e
      | (Ok s, _) =>
          if bool_decide (proto = Connect25) then Ok (Working Observation_default)
          else (exchange k proto p (c_marker env) (stream_conn s)).1
      end
  end.

(** ** One protocol *)

Definition probe_target (k : Checker) (proto : Proto) (draw : nat) : option (Probe * Target) :=
  let sch := judge_scheme proto in
  match mode k with
  | Judged =>
      j ← random_judge (judges k) sch draw;
      Some (PJudged j, {| t_host := j_host j; t_ip := j_ip j; t_port := default_port sch |})
  | Liveness lt =>
      Some (PLiveness lt, {| t_host := l_host lt; t_ip := Some (l_ip lt);
                             t_port := default_port (l_scheme lt) |})
  end.

Definition record_working (proto : Proto) (rtt : f64) (o : Observation) (p : Proxy) : Proxy :=
  record_trust (o_trust o) (record_caps (o_caps o) (add_type proto (o_level o)
    (record_probe_latency rtt (record_attempt (Some rtt) None p)))).

(** The loop from attempt [i] on, [left] attempts before [max_tries]: the
    verdict, the proxy and the delays slept.  [None]: a delay panicked. *)
Fixpoint check_loop (k : Checker) (envs : nat -> CheckEnv) (proto : Proto) (pr : Probe) (t : Target)
    (left i : nat) (p : Proxy) : option (bool * Proxy * list duration) :=
  match left with
  | 0 => Some (false, p, [])
  | S left' =>
      match attempt k (envs i) proto pr t with
      | Ok (Working o) => Some (true, record_working proto (c_rtt (envs i)) o p, [])
      | Ok Invalid => Some (false, record_attempt None (Some BadResponse) p, [])
      | Err e =>
          let p' := record_attempt None (Some e) p in
          if bool_decide (e ∈ retry_on (retry k)) && (S i <? max_tries (retry k)) then
            d ← backoff_for powi (c_jitter (envs i)) (retry k) i;
            '(r, q, ds) ← check_loop k envs proto pr t left' (S i) p';
            Some (r, q, d :: ds)
          else Some (false, p', [])
      end
  end.

Definition check_one (k : Checker) (draw : nat) (envs : nat -> CheckEnv) (proto : Proto) (p : Proxy)
    : option (bool * Proxy * list duration) :=
  match probe_target k proto draw with
  | None => Some (false, p, [])
  | Some (pr, t) => check_loop k envs proto pr t (max_tries (retry k)) 0 p
  end.

(** ** The whole check *)

Definition in_dnsbl (k : Checker) (ip : IpAddr) : bool :=
  existsb (fun q => is_ok (resolve dns q)) (omap (dnsbl_query ip) (dnsbl k)).

(** [expected ∩ requested], in the fixed order. *)
Definition ngtrs (k : Checker) (p : Proxy) : list Proto :=
  List.filter (fun pr => bool_decide (pr ∈ spec_proto <$> requested k)
                    && (bool_decide (expected_types p = ∅) || bool_decide (pr ∈ expected_types p)))
         ALL.

(** The requested levels by protocol: of several specs the last one counts. *)
Definition requested_levels (k : Checker) : gmap Proto (option (list AnonLevel)) :=
  foldl (fun m t => <[spec_proto t := spec_levels t]> m) ∅ (requested k).

Definition level_matches (k : Checker) (pr : Proto) (lvl : option AnonLevel) : bool :=
  match requested_levels k !! pr with
  | None | Some None => true
  | Some (Some levels) =>
      bool_decide (levels = [])
      || match lvl with Some l => bool_decide (l ∈ levels) | None => false end
  end.

Definition types_passed (k : Checker) (p : Proxy) : bool * Proxy :=
  if bool_decide (requested k = []) then (true, p)
  else
    let confirmed := types_entries p in
    if negb (strict k) && existsb (fun t => level_matches k t.1 t.2) confirmed then (true, p)
    else
      let to_remove :=
        if strict k then (List.filter (fun t => negb (level_matches k t.1 t.2)) confirmed).*1 else [] in
      let p' := foldl (fun q pr => remove_type pr q) p to_remove in
      (strict k && is_working p', p').

(** What the check of a proxy meets: per protocol, the draw of the judge and
    the attempts' environments. *)
Record ProxyEnv := { judge_draw : Proto -> nat; attempt_env : Proto -> nat -> CheckEnv }.

Definition check_step (k : Checker) (env : ProxyEnv) (acc : option (bool * Proxy)) (proto : Proto)
    : option (bool * Proxy) :=
  '(any, p) ← acc;
  '(worked, p', _) ← check_one k (judge_draw env proto) (attempt_env env proto) proto p;
  Some (any || worked, p').

(** The verdict and the proxy; [None]: the check panicked. *)
Definition check (k : Checker) (env : ProxyEnv) (p : Proxy) : option (bool * Proxy) :=
  if negb (bool_decide (dnsbl k = [])) && in_dnsbl k (host p) then Some (false, p)
  else
    '(any, p') ← foldl (check_step k env) (Some (false, p)) (ngtrs k p);
    Some (if (any : bool) then types_passed k p' else (false, p')).

(** ** Construction *)

Definition liveness_resolve (url_parse : bytes -> option UrlParts) (u : bytes) : option LivenessTarget :=
  j ← Judge_parse url_parse u;
  if bool_decide (j_scheme j = JSmtp) then None
  else
    ip ← ok (resolve dns (j_host j));
    Some {| l_host := j_host j; l_path := j_path j; l_ip := ip; l_scheme := j_scheme j |}.

Definition Checker_new (url_parse : bytes -> option UrlParts) (get : http_client) (draws : nat -> N)
    (cfg : CheckerConfig) (ext : gset IpAddr) : result Error Checker :=
  if bool_decide (cfg_types cfg = []) then Err NoTypes
  else
    let urls := if bool_decide (cfg_judges cfg = []) then default_judges else cfg_judges cfg in
    let candidates := omap (Judge_parse url_parse) urls in
    let js := probe_all dns get ext draws candidates in
    mode ← (if pool_is_empty js then
              match cfg_liveness_url cfg with
              | Some u => Liveness <$> ok_or NoJudges (liveness_resolve url_parse u)
              | None => Err NoJudges
              end
            else Ok Judged : result Error CheckMode);
    Ok {| judges := js; real_ext_ips := ext; requested := cfg_types cfg; timeout := cfg_timeout cfg;
          post := cfg_post cfg; strict := cfg_strict cfg; relaxed_validity := cfg_relaxed cfg;
          trust_check := cfg_trust_check cfg; dnsbl := cfg_dnsbl cfg; mode := mode;
          retry := cfg_retry cfg |}.
End Checking.
