(* ===== verification/CheckerProofs.v ===== *)
(** * What the checker promises: [src/checker.rs]

    The retry loop's exact account, the meaning of a working verdict, the trust
    signals, the level filter, and the scope of a check. *)

From stdpp Require Import base list gmap strings.
From Stdlib Require Import Ascii NArith ZArith Lia.
From S2P Require Import Prelude Bytes Text Float Net Utils Io Types ProxyModel Negotiator Resolver Judge Checker.

(** Membership in explicit lists of constructors. *)
Ltac list_cases := rewrite ?elem_of_cons, ?elem_of_nil; intuition congruence.

Section Proofs.
Context `{Unicode} (dns : dns_client) (clients : Clients) (gunzip inflate : bytes -> option bytes).
Context (powi : f64 -> nat -> f64).

Notation attempt := (attempt clients gunzip inflate).
Notation check_loop := (check_loop clients gunzip inflate powi).
Notation check_one := (check_one clients gunzip inflate powi).
Notation check := (check dns clients gunzip inflate powi).
Notation check_step := (check_step clients gunzip inflate powi).
Notation decompress := (decompress gunzip inflate).

(** ** The retry loop *)

Definition failed_with (e : ProxyError) : ProxyModel.attempt := (None, Some e).

(** The account of a run that retried the errors [retried] and then ended. *)
Definition run_account (k : Checker) (envs : nat -> CheckEnv) (proto : Proto) (pr : Probe) (t : Target)
    (left i : nat) (p : Proxy) (r : bool) (q : Proxy) (retried : list ProxyError) : Prop :=
  length retried < left /\
  (forall n e, retried !! n = Some e ->
     e ∈ retry_on (retry k) /\ attempt k (envs (i + n)) proto pr t = Err e) /\
  let last := i + length retried in
  let p_n := record_all (failed_with <$> retried) p in
  match attempt k (envs last) proto pr t with
  | Ok (Working o) => r = true /\ q = record_working proto (c_rtt (envs last)) o p_n
  | Ok Invalid => r = false /\ q = record_attempt None (Some BadResponse) p_n
  | Err e => r = false /\ q = record_attempt None (Some e) p_n /\
             (e ∉ retry_on (retry k) \/ max_tries (retry k) <= S last)
  end.

Lemma check_loop_account k envs proto pr t left i p r q ds :
  0 < left -> i + left = max_tries (retry k) ->
  check_loop k envs proto pr t left i p = Some (r, q, ds) ->
  exists retried, length ds = length retried /\ run_account k envs proto pr t left i p r q retried.
Proof.
  revert i p r q ds. induction left as [|left IH]; intros i p r q ds Hpos Hsum; [lia|].
  cbn [Checker.check_loop]. unfold run_account.
  destruct (attempt k (envs i) proto pr t) as [[o|]|e] eqn:E.
  - intros [= <- <- <-]. exists []. split; [done|]. cbn [length]. rewrite Nat.add_0_r, E.
    split; [lia|]. split; [intros ?? Hn; by rewrite lookup_nil in Hn|done].
  - intros [= <- <- <-]. exists []. split; [done|]. cbn [length]. rewrite Nat.add_0_r, E.
    split; [lia|]. split; [intros ?? Hn; by rewrite lookup_nil in Hn|done].
  - destruct (_ && _) eqn:Er.
    + bool_destruct.
      match goal with Hl : (S i <? _) = true |- _ => apply Nat.ltb_lt in Hl end.
      destruct (backoff_for _ _ _ _) as [d|]; [|done]. cbn [mbind option_bind].
      destruct (check_loop k envs proto pr t left (S i) _) as [[[r1 q1] ds1]|] eqn:El; [|done].
      cbn [mbind option_bind]. intros [= <- <- <-].
      apply IH in El as (retried & Hlen & Hl & Hr & Hlast); [|lia|lia].
      exists (e :: retried). split; [simpl; lia|]. split; [simpl; lia|]. split.
      * intros [|n] e' Hn; simpl in Hn.
        -- injection Hn as <-. rewrite Nat.add_0_r. done.
        -- apply Hr in Hn. by rewrite <- Nat.add_succ_comm.
      * cbv zeta in *. cbn [length]. rewrite <- Nat.add_succ_comm. exact Hlast.
    + intros [= <- <- <-]. exists []. split; [done|]. cbn [length]. rewrite Nat.add_0_r, E.
      split; [lia|]. split; [intros ?? Hn; by rewrite lookup_nil in Hn|]. split; [done|]. split; [done|].
      apply andb_false_iff in Er as [Er|Er]; [left; by bool_destruct|right].
      apply Nat.ltb_ge in Er. lia.
Qed.

(** C18.  The retry loop does exactly what the policy says: at most [max_tries]
    attempts, each failed attempt before the last has a retryable error and one
    delay after it, the last one either succeeded, or answered without
    validating (which is never retried), or failed with a non-retryable error
    or as the last one allowed; and the proxy's record gains exactly these
    attempts, plus on success the type, the timing and the observations. *)
Theorem retry_account k draw envs proto p r q ds pr t :
  0 < max_tries (retry k) -> probe_target k proto draw = Some (pr, t) ->
  check_one k draw envs proto p = Some (r, q, ds) ->
  exists retried, length ds = length retried /\
    run_account k envs proto pr t (max_tries (retry k)) 0 p r q retried.
Proof.
  intros Hpos Hpt. unfold Checker.check_one. rewrite Hpt. intros Hc.
  by apply check_loop_account in Hc.
Qed.

(** ** A working verdict *)

Lemma read_to_end_Ok buf r raw r' :
  read_to_end buf r = (Ok raw, r') -> exists b, raw = buf ++ b /\ r = (RdByte <$> b) ++ RdEof :: r'.
Proof.
  revert buf. induction r as [|[c| | |] r IH]; intros buf; cbn [read_to_end]; try done.
  - intros (b & -> & ->)%IH. exists (c :: b). by rewrite <-app_assoc.
  - intros [= <- ->]. exists []. by rewrite app_nil_r.
Qed.

(** An answer is everything up to the close, and is not empty. *)
Lemma read_response_Ok c raw c' :
  read_response c = (Ok raw, c') -> raw <> [] /\ exists rest, rx c = (RdByte <$> raw) ++ RdEof :: rest.
Proof.
  unfold read_response. destruct (read_to_end [] (rx c)) as [[buf|e] r] eqn:E; [|done].
  apply read_to_end_Ok in E as (b & -> & E). cbn [app]. case_bool_decide; intros [= -> <-]. eauto.
Qed.

Lemma write_or_Ok {E} (err late : E) b c c' :
  write_or err late b c = (Ok tt, c') -> write b c = (WrOk, c') /\ rx c' = rx c.
Proof. unfold write_or, write. by destruct (write_outcome c); intros [= <-]. Qed.

(** An answer and its two parts: around its first blank line, or the whole of it
    and nothing when there is none. *)
Definition head_and_body (raw head_ body : bytes) : Prop :=
  let blank := crlf ++ crlf in
  (raw = head_ ++ blank ++ body /\ forall a r, raw = a ++ blank ++ r -> length head_ <= length a) \/
  ((forall a r, raw <> a ++ blank ++ r) /\ head_ = raw /\ body = []).

Lemma split_head_body_spec raw head_ body : split_head_body raw = (head_, body) -> head_and_body raw head_ body.
Proof.
  unfold split_head_body, head_and_body. cbv zeta. destruct (split_once _ raw) as [[h b]|] eqn:E; intros [= <- <-].
  - left. split; [by apply split_once_Some|]. intros a r Hr.
    unfold split_once in E. destruct (find_sub _ raw) as [i|] eqn:Ei; [|done]. injection E as <- _.
    destruct (decide (i <= length a)) as [|Hlt]; [rewrite length_take; lia|]. exfalso.
    pose proof (find_sub_first _ _ _ (length a) Ei ltac:(lia)) as Hf.
    rewrite Hr, drop_app_length in Hf. apply not_true_iff_false in Hf. apply Hf, starts_with_true. eauto.
  - right. split; [|done]. intros a r Hr. unfold split_once in E.
    destruct (find_sub _ raw) eqn:Ei; [done|].
    assert (contains (crlf ++ crlf) raw = true) as Hc by (apply contains_true; eauto).
    unfold contains in Hc. rewrite Ei in Hc. by apply bool_decide_eq_true, is_Some_None in Hc.
Qed.

(** The request names the marker in its [User-Agent] header. *)
Lemma request_marked k j proto draw :
  contains (bs "User-Agent: PxBroker/1.1.0/" ++ fresh_marker draw ++ crlf) (build_request k j proto draw).1 = true.
Proof.
  apply contains_true. unfold build_request, render_request. cbn [fst request_headers fmap list_fmap snd default app].
  eexists ((if post k then bs "POST" else bs "GET") ++ bs " " ++ request_target proto (j_host j) (j_path j) ++
           bs " HTTP/1.1" ++ crlf), _.
  rewrite <-!app_assoc. cbn [join]. rewrite <-!app_assoc. reflexivity.
Qed.

(** The answer that an attempt at a judge read, its request written whole on
    the stream that was negotiated, the request's marker in it: everything up to
    the close, split at the first blank line. *)
Definition answered (k : Checker) (env : CheckEnv) (proto : Proto) (j : Judge) (t : Target) (head_ body : bytes) : Prop :=
  exists tcp s c req c1 raw rest,
    c_dial env = Some (Ok tcp) /\ negotiate clients proto t None tcp = (Ok s, c) /\
    req = (build_request k j proto (c_marker env)).1 /\
    contains (bs "User-Agent: PxBroker/1.1.0/" ++ fresh_marker (c_marker env) ++ crlf) req = true /\
    write req (stream_conn s) = (WrOk, c1) /\
    rx (stream_conn s) = (RdByte <$> raw) ++ RdEof :: rest /\ raw <> [] /\ head_and_body raw head_ body.

Lemma attempt_answered k env proto j t o :
  attempt k env proto (PJudged j) t = Ok (Working o) -> proto <> Connect25 ->
  exists head_ body, answered k env proto j t head_ body /\ get_status_code head_ 9 12 = 200%N /\
    judged gunzip inflate k proto j (fresh_marker (c_marker env)) head_ body = Working o.
Proof.
  unfold Checker.attempt. destruct (c_dial env) as [[tcp|]|] eqn:Ed; [|done..].
  destruct (negotiate _ _ _ _ _) as [[s|e] c] eqn:En; [|done].
  intros Hx Hp. rewrite bool_decide_false in Hx by done. unfold exchange in Hx.
  pose proof (request_marked k j proto (c_marker env)) as Hmark.
  destruct (build_request k j proto (c_marker env)) as [req m] eqn:Eb. cbn [fst] in Hmark.
  assert (m = fresh_marker (c_marker env)) as -> by (unfold build_request in Eb; congruence).
  unfold mbind at 1, io_bind at 1 in Hx. destruct (write_or _ _ _ _) as [[[]|e] c1] eqn:Ew; [|done].
  apply write_or_Ok in Ew as [Ew Hrx].
  unfold mbind, io_bind in Hx. destruct (read_response c1) as [[raw|e] c2] eqn:Er; [|done].
  apply read_response_Ok in Er as [Hne [rest Er]].
  destruct (split_head_body raw) as [head_ body] eqn:Es. apply split_head_body_spec in Es.
  destruct (N.eqb_spec (get_status_code head_ 9 12) 200) as [Hs|]; [|done]. cbn [negb] in Hx.
  cbn in Hx. injection Hx as Hx. exists head_, body. split_and!; [|done|done].
  exists tcp, s, c, req, c1, raw, rest. rewrite Eb. split_and!; try done; congruence.
Qed.

(** C17.  A judged proxy is working only on evidence: unless the protocol is
    CONNECT:25 (where the granted tunnel is the check), the request of this
    attempt, with its marker, was written whole through the negotiated stream,
    the answer read back up to the close has status 200, and its decoded body
    carries the marker of this very request and at least one IP address, and
    under the strict rule also the Referer and the Cookie that were sent; the
    level recorded for HTTP is the classification of that body, and no other
    protocol gets a level. *)
Theorem working_evidence k env proto j t o :
  attempt k env proto (PJudged j) t = Ok (Working o) ->
  proto = Connect25 \/
  exists head_ body, answered k env proto j t head_ body /\
    let content := decompress head_ body in
    get_status_code head_ 9 12 = 200%N /\
    contains (fresh_marker (c_marker env)) content = true /\
    get_all_ip content <> ∅ /\
    (relaxed_validity k = false ->
       contains (bs "cookie=ok") content = true /\
       contains (bs "https://www.google.com/") content = true) /\
    o_level o = (if bool_decide (proto = Http) then Some (anonymity_level k content j) else None) /\
    o_caps o = caps_from_content content /\
    CanaryMismatch ∉ signals (o_trust o).
Proof.
  intros Hx. destruct (decide (proto = Connect25)) as [->|Hp]; [by left|right].
  destruct (attempt_answered _ _ _ _ _ _ Hx Hp) as (head_ & body & Ha & Hs & Hj).
  exists head_, body. split; [done|]. unfold judged in Hj. set (content := decompress head_ body) in *.
  split; [done|]. destruct (if relaxed_validity k then _ else _) eqn:Ev; [|done]. injection Hj as <-.
  cbn [o_level o_caps o_trust].
  assert (contains (fresh_marker (c_marker env)) content = true) as Hm
    by (unfold response_is_valid in Ev; destruct (relaxed_validity k); by bool_destruct).
  split; [done|]. split; [|split; [|split; [done|split; [done|]]]].
  - unfold response_is_valid in Ev. destruct (relaxed_validity k); by bool_destruct.
  - intros Hrel. rewrite Hrel in Ev. unfold response_is_valid in Ev. by bool_destruct.
  - destruct (trust_check k); [|apply not_elem_of_nil]. unfold assess; simpl. rewrite Hm. simpl.
    destruct (existsb _ _); simpl; list_cases.
Qed.

(** ** The trust verdict *)

Lemma name_chars n :
  forallb (fun c => is_ascii_alphanumeric c || bool_decide (c = "-"%char)) n = true <->
  Forall (fun c => is_ascii_alphanumeric c = true \/ c = "-"%char) n.
Proof.
  rewrite forallb_forall, Forall_forall.
  split; intros Hn x Hx; specialize (Hn x); rewrite list_elem_of_In in *;
    rewrite orb_true_iff, bool_decide_eq_true in *; tauto.
Qed.

(** The trust verdict names its signals exactly: the canary signal when the
    nonce does not appear verbatim, the injection signal when some line of the
    content reads as a header (a name of letters, digits and hyphens before a
    colon and a space) that was neither sent nor a benign hop's; nothing else
    is ever reported. *)
Theorem assess_exact sent canary content :
  let r := assess sent canary content in
  (CanaryMismatch ∈ signals r <-> contains canary content = false) /\
  (InjectedHeader ∈ signals r <->
     exists line name rest, line ∈ lines content /\ split_once (bs ": ") line = Some (name, rest) /\
       let n := to_ascii_lowercase (trim name) in
       n <> [] /\ Forall (fun c => is_ascii_alphanumeric c = true \/ c = "-"%char) n /\
       n ∉ to_ascii_lowercase <$> sent /\ n ∉ BENIGN) /\
  CertMismatch ∉ signals r.
Proof.
  cbv zeta. unfold assess; cbn [signals].
  assert (forall line, injected sent line = true <->
    exists name rest, split_once (bs ": ") line = Some (name, rest) /\
       let n := to_ascii_lowercase (trim name) in
       n <> [] /\ Forall (fun c => is_ascii_alphanumeric c = true \/ c = "-"%char) n /\
       n ∉ to_ascii_lowercase <$> sent /\ n ∉ BENIGN) as Hi.
  { intros line. unfold injected. destruct (split_once _ line) as [[n r]|].
    - rewrite !andb_true_iff, !negb_true_iff, !bool_decide_eq_false, name_chars. cbv zeta. split.
      + intros [[[? ?] ?] ?]. exists n, r. done.
      + intros (n' & r' & [= <- <-] & ?). tauto.
    - split; [done|]. by intros (? & ? & ? & _). }
  split; [|split].
  - destruct (contains canary content), (existsb _ _); simpl; list_cases.
  - transitivity (existsb (injected sent) (lines content) = true).
    + destruct (contains canary content), (existsb _ _); simpl; list_cases.
    + rewrite existsb_elem. setoid_rewrite Hi. naive_solver.
  - destruct (contains canary content), (existsb _ _); simpl; list_cases.
Qed.

(** ** The level filter *)

Lemma remove_types_lookup l p pr :
  types (foldl (fun q pr => remove_type pr q) p l) !! pr =
  if bool_decide (pr ∈ l) then None else types p !! pr.
Proof.
  revert p. induction l as [|x l IH]; intros p; simpl.
  - done.
  - rewrite IH. unfold remove_type; simpl. destruct (decide (pr ∈ l)).
    + rewrite !bool_decide_true; [done|set_solver|done].
    + rewrite (bool_decide_false (pr ∈ l)) by done. destruct (decide (pr = x)) as [->|].
      * rewrite bool_decide_true by set_solver. by rewrite lookup_delete_eq.
      * rewrite bool_decide_false by set_solver. by rewrite lookup_delete_ne.
Qed.

(** The requested levels decide: without [strict], a proxy with at least
    one confirmed type of a requested level passes unchanged, and otherwise
    fails unchanged; with [strict], exactly the confirmed types of a level that
    was not requested are dropped, and the proxy passes if and only if one is
    left. *)
Theorem types_passed_exact k p :
  requested k <> [] ->
  let r := types_passed k p in
  if strict k then
    (forall pr, types r.2 !! pr = match types p !! pr with
                                  | Some l => if level_matches k pr l then Some l else None
                                  | None => None end) /\
    (r.1 = true <-> exists pr l, types p !! pr = Some l /\ level_matches k pr l = true)
  else
    r.2 = p /\
    (r.1 = true <-> exists pr l, types p !! pr = Some l /\ level_matches k pr l = true).
Proof.
  intros Hreq. cbv zeta. unfold types_passed. rewrite bool_decide_false by done.
  assert (existsb (fun t => level_matches k t.1 t.2) (types_entries p) = true <->
          exists pr l, types p !! pr = Some l /\ level_matches k pr l = true) as Hex.
  { rewrite existsb_elem. split.
    - intros ([pr l] & Hin%types_entries_elem & Hm). eauto.
    - intros (pr & l & Hin & Hm). exists (pr, l). split; [by apply types_entries_elem|done]. }
  destruct (strict k) eqn:Es; cbn [negb andb].
  - cbn [fst snd].
    assert (forall pr, pr ∈ (List.filter (fun t => negb (level_matches k t.1 t.2)) (types_entries p)).*1
              <-> exists l, types p !! pr = Some l /\ level_matches k pr l = false) as Hrm.
    { intros pr. rewrite list_elem_of_fmap. split.
      - intros ([x l] & -> & Hin). rewrite list_elem_of_In, filter_In, <- list_elem_of_In in Hin.
        destruct Hin as [Hin%types_entries_elem Hm%negb_true_iff]. eauto.
      - intros (l & Hl & Hm). exists (pr, l). split; [done|].
        rewrite list_elem_of_In, filter_In, <- list_elem_of_In, types_entries_elem.
        by rewrite negb_true_iff. }
    assert (forall pr, types (foldl (fun q pr => remove_type pr q) p
              (List.filter (fun t => negb (level_matches k t.1 t.2)) (types_entries p)).*1) !! pr =
              match types p !! pr with
              | Some l => if level_matches k pr l then Some l else None | None => None end) as Hlk.
    { intros pr. rewrite remove_types_lookup. case_bool_decide as Hin; rewrite Hrm in Hin.
      - destruct Hin as (l & -> & ->). done.
      - destruct (types p !! pr) as [l|]; [|done]. destruct (level_matches k pr l) eqn:Em; [done|].
        exfalso. eauto. }
    split; [exact Hlk|]. unfold is_working. rewrite negb_true_iff, bool_decide_eq_false. split.
    + intros Hne. apply map_choose in Hne as (pr & l & Hl). rewrite Hlk in Hl.
      destruct (types p !! pr) as [l'|] eqn:E; [|done].
      destruct (level_matches k pr l') eqn:Em; [|done]. eauto.
    + intros (pr & l & Hl & Hm) Hemp. specialize (Hlk pr). rewrite Hemp, lookup_empty, Hl, Hm in Hlk.
      done.
  - rewrite <- Hex. by destruct (existsb _ _).
Qed.

(** ** The scope of a check *)

Lemma record_all_types hist p : types (record_all hist p) = types p.
Proof. revert p. induction hist as [|a hist IH]; intros p; simpl; [done|]. by rewrite IH. Qed.

Lemma check_loop_types k envs proto pr t left i p r q ds x :
  check_loop k envs proto pr t left i p = Some (r, q, ds) ->
  x <> proto -> types q !! x = types p !! x.
Proof.
  intros Hc Hx. revert i p r q ds Hc. induction left as [|left IH]; intros i p r q ds; cbn [Checker.check_loop].
  { by intros [= <- <- <-]. }
  destruct (attempt k (envs i) proto pr t) as [[o|]|e].
  - intros [= <- <- <-]. simpl. by rewrite lookup_insert_ne.
  - by intros [= <- <- <-].
  - destruct (_ && _); [|by intros [= <- <- <-]].
    destruct (backoff_for _ _ _ _); [|done]. cbn [mbind option_bind].
    destruct (check_loop k envs proto pr t left (S i) _) as [[[r1 q1] ds1]|] eqn:El; [|done].
    cbn [mbind option_bind]. intros [= <- <- <-]. by rewrite (IH _ _ _ _ _ El).
Qed.

Lemma check_one_types k draw envs proto p r q ds x :
  check_one k draw envs proto p = Some (r, q, ds) -> x <> proto -> types q !! x = types p !! x.
Proof.
  unfold Checker.check_one. destruct (probe_target _ _ _) as [[pr t]|]; [apply check_loop_types|].
  by intros [= <- <- <-].
Qed.

Lemma check_fold_types k env l any p r q x :
  foldl (check_step k env) (Some (any, p)) l = Some (r, q) ->
  x ∉ l -> types q !! x = types p !! x.
Proof.
  revert any p. induction l as [|y l IH]; intros any p; simpl; [by intros [= <- <-]|].
  destruct (check_one k _ _ y p) as [[[w p'] ds]|] eqn:E; cbn [mbind option_bind].
  - intros Hf Hx. rewrite (IH _ _ Hf) by set_solver.
    apply (check_one_types _ _ _ _ _ _ _ _ _ E). set_solver.
  - intros Hf. exfalso. revert Hf. clear. induction l; simpl; [done|]. done.
Qed.

Lemma ngtrs_elem k p x :
  x ∈ ngtrs k p <-> x ∈ spec_proto <$> requested k /\ (expected_types p = ∅ \/ x ∈ expected_types p).
Proof.
  unfold ngtrs. rewrite list_elem_of_In, filter_In, <- list_elem_of_In.
  rewrite andb_true_iff, orb_true_iff, !bool_decide_eq_true.
  pose proof (ALL_complete x). tauto.
Qed.

Lemma types_passed_lookup k p x l : types (types_passed k p).2 !! x = Some l -> types p !! x = Some l.
Proof.
  unfold types_passed. case_bool_decide; [done|]. destruct (_ && _); [done|].
  cbn [snd]. rewrite remove_types_lookup. by case_bool_decide.
Qed.

(** C22.  A check confirms only what it was asked to: a type it leaves on the
    proxy was there before, or is both requested and (when the provider said
    which) expected of this proxy; and a proxy listed in a configured blocklist
    is rejected without being touched. *)
Theorem check_scope k env p r q :
  check k env p = Some (r, q) ->
  (forall x l, types q !! x = Some l ->
     types p !! x = Some l \/
     (x ∈ spec_proto <$> requested k /\ (expected_types p = ∅ \/ x ∈ expected_types p))) /\
  (dnsbl k <> [] -> in_dnsbl dns k (host p) = true -> r = false /\ q = p).
Proof.
  unfold Checker.check. destruct (negb _ && in_dnsbl dns k (host p)) eqn:Eb.
  { intros [= <- <-]. auto. }
  destruct (foldl _ _ _) as [[any p']|] eqn:Ef; [|done]. cbn [mbind option_bind]. intros [= Hr]. split.
  - intros x l Hx. assert (types p' !! x = Some l) as Hx'.
    { destruct any; [|by injection Hr as <- <-]. apply types_passed_lookup with k. by rewrite Hr. }
    destruct (decide (x ∈ ngtrs k p)) as [Hin|Hout]; [right; by apply ngtrs_elem|left].
    by rewrite <- (check_fold_types _ _ _ _ _ _ _ _ Ef Hout).
  - intros Hne Hin. rewrite Hin, andb_true_r in Eb. bool_destruct. done.
Qed.
End Proofs.

(** ** Concrete runs *)

Definition plain_powi (x : f64) (n : nat) : f64 := Nat.iter n (f_mul x) f_one.
Definition no_inflate (_ : bytes) : option bytes := None.

Definition sample_judge : Judge :=
  {| j_url := bs "http://j/"; j_scheme := JHttp; j_host := bs "j"; j_path := bs "/";
     j_ip := Some (V4 9 9 9 9); marks := Marks_default |}.

Definition sample_checker (strict_ : bool) : Checker :=
  {| judges := {| jp_http := [sample_judge]; jp_https := []; jp_smtp := [] |};
     real_ext_ips := {[V4 8 8 8 8]};
     requested := [{| spec_proto := Http; spec_levels := Some [High] |}];
     timeout := from_secs 8; post := false; strict := strict_; relaxed_validity := false;
     trust_check := true; dnsbl := [bs "bl"]; mode := Judged; retry := tries 2 |}.

(** The first attempt times out, the second one is answered by the judge. *)
Definition judge_page : bytes :=
  bs "ip 1.2.3.4 agent 1007 cookie=ok https://www.google.com/".
Definition judge_answer : list read_event :=
  (RdByte <$> bs "HTTP/1.1 200 OK" ++ crlf ++ crlf ++ judge_page) ++ [RdEof].

Definition sample_check_env (i : nat) : CheckEnv :=
  {| c_dial := if i =? 0 then None else Some (Ok {| rx := judge_answer; wr := []; tx := [] |});
     c_marker := 7%N; c_rtt := f_half; c_jitter := f_zero |}.

Definition sample_candidate : Proxy := Proxy_new (V4 1 2 3 4) 8080 ∅.

Definition sample_run : option (bool * Proxy * list duration) :=
  @check_one AsciiOnly no_clients no_inflate no_inflate plain_powi (sample_checker true) 0
    sample_check_env Http sample_candidate.

Definition run_proxy : Proxy := match sample_run with Some (_, q, _) => q | None => sample_candidate end.

Lemma retry_account_witness :
  exists retried, length [0%N : duration] = length retried /\
    @run_account AsciiOnly no_clients no_inflate no_inflate (sample_checker true) sample_check_env
      Http (PJudged sample_judge) {| t_host := bs "j"; t_ip := Some (V4 9 9 9 9); t_port := 80 |}
      2 0 sample_candidate true run_proxy retried.
Proof.
  apply (@retry_account AsciiOnly no_clients no_inflate no_inflate plain_powi (sample_checker true) 0
           sample_check_env Http sample_candidate true run_proxy [0%N]).
  - simpl. lia.
  - reflexivity.
  - vm_compute. reflexivity.
Defined.

Lemma working_evidence_witness :
  let o := {| o_level := Some High; o_caps := {| cookie_echo := true; referer_echo := true |};
              o_trust := TrustReport_default |} in
  Http = Connect25 \/
  exists head_ body,
    answered no_clients (sample_checker true) (sample_check_env 1) Http sample_judge
      {| t_host := bs "j"; t_ip := None; t_port := 80 |} head_ body /\
    let content := @decompress AsciiOnly no_inflate no_inflate head_ body in
    get_status_code head_ 9 12 = 200%N /\
    contains (fresh_marker 7) content = true /\
    @get_all_ip AsciiOnly content <> ∅ /\
    (false = false ->
       contains (bs "cookie=ok") content = true /\
       contains (bs "https://www.google.com/") content = true) /\
    o_level o = (if bool_decide (Http = Http)
                 then Some (@anonymity_level AsciiOnly (sample_checker true) content sample_judge) else None) /\
    o_caps o = caps_from_content content /\
    CanaryMismatch ∉ signals (o_trust o).
Proof.
  intros o.
  apply (@working_evidence AsciiOnly no_clients no_inflate no_inflate (sample_checker true)
           (sample_check_env 1) Http sample_judge
           {| t_host := bs "j"; t_ip := None; t_port := 80 |} o).
  vm_compute. reflexivity.
Defined.

Lemma types_passed_exact_witness :
  let k := sample_checker true in
  let p := add_type Http (Some Transparent) sample_candidate in
  let r := types_passed k p in
  (forall pr, types r.2 !! pr = match types p !! pr with
                                | Some l => if level_matches k pr l then Some l else None
                                | None => None end) /\
  (r.1 = true <-> exists pr l, types p !! pr = Some l /\ level_matches k pr l = true).
Proof.
  intros k p. apply (types_passed_exact k p). discriminate.
Defined.

Lemma check_scope_witness :
  let dns : dns_client := fun _ => Some (Ok [V4 127 0 0 2]) in
  let k := sample_checker false in
  (forall x l, types sample_candidate !! x = Some l ->
     types sample_candidate !! x = Some l \/
     (x ∈ spec_proto <$> requested k /\
      (expected_types sample_candidate = ∅ \/ x ∈ expected_types sample_candidate))) /\
  (dnsbl k <> [] -> in_dnsbl dns k (host sample_candidate) = true ->
     false = false /\ sample_candidate = sample_candidate).
Proof.
  intros dns k.
  apply (@check_scope AsciiOnly dns no_clients no_inflate no_inflate plain_powi k
           {| judge_draw := fun _ => 0; attempt_env := fun _ => sample_check_env |}
           sample_candidate false sample_candidate).
  vm_compute. reflexivity.
Defined.

(** A port written in a judge's or a liveness URL is not the one dialled: the
    target's port is the scheme's. *)
Example judge_port_dropped :
  let parse (_ : bytes) := Some {| u_scheme := bs "http"; u_host := Some (bs "j"); u_path := bs "/";
                                   u_query := None |} in
  exists j, Judge_parse parse (bs "http://j:8080/") = Some j /\
    forall k, mode k = Judged -> jp_http (judges k) = [j] ->
      t_port <$> (snd <$> probe_target k Http 0) = Some 80%N.
Proof.
  eexists. split; [reflexivity|]. intros k Hm Hj. unfold probe_target. rewrite Hm.
  unfold random_judge, bucket. simpl. by rewrite Hj.
Qed.

(** Levels requested for a protocol without levels never match. *)
Example levels_not_ignored :
  accepts {| spec_proto := Socks5; spec_levels := Some [High] |} Socks5 None = false.
Proof. reflexivity. Qed.
