(* ===== verification/Stats.v ===== *)
(** * Run statistics: [src/stats.rs]

    The incremental collector every checked proxy is folded into, the summary
    it yields, and the printed report. *)

From stdpp Require Import base list gmap strings.
From Stdlib Require Import Ascii NArith ZArith Lia.
From S2P Require Import Prelude Bytes Text Float Net Types ProxyModel.

(** ** Data *)

Record StatsCollector := {
  total : nat;
  working : nat;
  by_protocol : gmap Proto nat;
  by_anonymity : gmap AnonLevel nat;
  by_country : gmap bytes nat;
  s_errors : gmap bytes N;
  resp_times : list f64;
}.

Definition StatsCollector_default : StatsCollector :=
  {| total := 0; working := 0; by_protocol := ∅; by_anonymity := ∅; by_country := ∅;
     s_errors := ∅; resp_times := [] |}.

Record Stats := {
  st_total : nat;
  st_working : nat;
  st_by_protocol : gmap Proto nat;
  st_by_anonymity : gmap AnonLevel nat;
  st_by_country : gmap bytes nat;
  st_errors : gmap bytes N;
  st_avg : f64;
  st_p50 : f64;
  st_p90 : f64;
  st_p95 : f64;
}.

(** ** Recording *)

(** [*map.entry(k).or_default() += 1]. *)
Definition bump {K} `{Countable K} (k : K) (m : gmap K nat) : gmap K nat :=
  <[k := S (default 0 (m !! k))]> m.

Definition bump_by (k : bytes) (n : N) (m : gmap bytes N) : gmap bytes N :=
  <[k := (default 0%N (m !! k) ⊞ n)%pb]> m.

(** The country of a proxy, [--] when it is unknown. *)
Definition country_label (p : Proxy) : bytes := from_option country_code (bs "--") (geo p).

Definition anon_label (t : Proto * option AnonLevel) : option AnonLevel :=
  if bool_decide (t.1 = Http) then t.2 else None.

Definition record (p : Proxy) (c : StatsCollector) : StatsCollector :=
  {| total := S (total c);
     working := if is_working p then S (working c) else working c;
     by_protocol := foldl (fun m t => bump t.1 m) (by_protocol c) (types_entries p);
     by_anonymity := foldl (fun m l => bump l m) (by_anonymity c) (omap anon_label (types_entries p));
     by_country := bump (country_label p) (by_country c);
     s_errors := foldl (fun m en => bump_by (error_as_str en.1) en.2 m) (s_errors c)
                   (map_to_list (errors p));
     resp_times := resp_times c ++ (if f_lt f_zero (avg_resp_time p) then [avg_resp_time p] else []) |}.

Definition finish (c : StatsCollector) : option Stats :=
  p50 ← percentile (resp_times c) (f_ratio false 50 100);
  p90 ← percentile (resp_times c) (f_ratio false 90 100);
  p95 ← percentile (resp_times c) (f_ratio false 95 100);
  Some {| st_total := total c; st_working := working c; st_by_protocol := by_protocol c;
          st_by_anonymity := by_anonymity c; st_by_country := by_country c;
          st_errors := s_errors c; st_avg := mean2 (resp_times c);
          st_p50 := p50; st_p90 := p90; st_p95 := p95 |}.

Definition collect (ps : list Proxy) : StatsCollector :=
  foldl (fun c p => record p c) StatsCollector_default ps.

Definition from_proxies (ps : list Proxy) : option Stats := finish (collect ps).

(** ** The report *)

Fixpoint bytes_cmp (a b : bytes) : comparison :=
  match a, b with
  | [], [] => Eq
  | [], _ => Lt
  | _, [] => Gt
  | x :: a', y :: b' => match N.compare (code x) (code y) with Eq => bytes_cmp a' b' | c => c end
  end.

Definition counted (kn : bytes * bytes) : bytes := kn.1 ++ bs ": " ++ kn.2.

Definition line_of (label : bytes) (items : list bytes) : bytes :=
  bs "  " ++ label ++ join (bs ", ") items ++ [LF].

Definition nat_text (n : nat) : bytes := show_N (N.of_nat n).

Definition top_countries (m : gmap bytes nat) : list (bytes * nat) :=
  take 10 (sort_by (fun a b => match Nat.compare b.2 a.2 with Eq => bytes_cmp a.1 b.1 | c => c end)
             (map_to_list m)).

Definition display (s : Stats) : bytes :=
  bs "Found " ++ nat_text (st_total s) ++ bs " proxies (" ++ nat_text (st_working s)
  ++ bs " working)" ++ [LF]
  ++ (if bool_decide (st_by_protocol s = ∅) then []
      else line_of (bs "By protocol: ")
             (omap (fun p => (fun n => counted (proto_as_str p, nat_text n)) <$> st_by_protocol s !! p) ALL))
  ++ (if bool_decide (st_by_anonymity s = ∅) then []
      else line_of (bs "By anonymity (HTTP): ")
             (omap (fun l => (fun n => counted (anon_as_str l, nat_text n)) <$> st_by_anonymity s !! l)
                [High; Anonymous; Transparent]))
  ++ (if bool_decide (st_by_country s = ∅) then []
      else line_of (bs "By country: ")
             ((fun cn => counted (cn.1, nat_text cn.2)) <$> top_countries (st_by_country s)))
  ++ bs "  Avg response time: " ++ fmt2 (st_avg s) ++ bs "s" ++ [LF]
  ++ (if f_lt f_zero (st_p50 s)
      then bs "  Response time p50/p90/p95: " ++ fmt2 (st_p50 s) ++ bs "s / " ++ fmt2 (st_p90 s)
           ++ bs "s / " ++ fmt2 (st_p95 s) ++ bs "s" ++ [LF]
      else [])
  ++ (if bool_decide (st_errors s = ∅) then []
      else line_of (bs "Errors: ")
             ((fun en => counted (en.1, show_N en.2))
              <$> sort_by (fun a b => bytes_cmp a.1 b.1) (map_to_list (st_errors s)))).

(** ** Lemmas *)

Definition occurrences {K} `{EqDecision K} (k : K) (l : list K) : nat :=
  length (filter (fun x => x = k) l).

Lemma occurrences_app {K} `{EqDecision K} (k : K) l1 l2 :
  occurrences k (l1 ++ l2) = occurrences k l1 + occurrences k l2.
Proof. unfold occurrences. by rewrite filter_app, length_app. Qed.

Lemma bump_lookup {K} `{Countable K} (k x : K) m :
  default 0 (bump k m !! x) = default 0 (m !! x) + occurrences x [k].
Proof.
  unfold bump, occurrences. rewrite filter_cons, filter_nil. case_decide as Hk.
  - subst. rewrite lookup_insert_eq. simpl. lia.
  - rewrite lookup_insert_ne by done. simpl. lia.
Qed.

Lemma bumps_lookup {K} `{Countable K} (l : list K) (x : K) m :
  default 0 (foldl (fun m k => bump k m) m l !! x) = default 0 (m !! x) + occurrences x l.
Proof.
  revert m. induction l as [|k l IH]; intros m; simpl.
  - unfold occurrences. simpl. lia.
  - rewrite IH, bump_lookup. change (k :: l) with ([k] ++ l). rewrite occurrences_app. lia.
Qed.

Lemma bumps_map {K} `{Countable K} {B} (f : B -> K) (l : list B) m :
  foldl (fun m b => bump (f b) m) m l = foldl (fun m k => bump k m) m (f <$> l).
Proof. revert m. induction l as [|b l IH]; intros m; simpl; [done|]. apply IH. Qed.

Lemma occurrences_one {K} `{EqDecision K} (k : K) l : NoDup l ->
  occurrences k l = if bool_decide (k ∈ l) then 1 else 0.
Proof.
  unfold occurrences. induction 1 as [|x l Hx _ IH]; [done|].
  rewrite filter_cons. destruct (decide (x = k)) as [->|Hk]; cbn [length]; rewrite IH.
  - rewrite (bool_decide_false (k ∈ l)) by done. by rewrite bool_decide_true by left.
  - assert (k ∈ x :: l <-> k ∈ l) as Hin by (rewrite elem_of_cons; naive_solver).
    by rewrite (bool_decide_ext _ _ Hin).
Qed.

(** The anonymity levels a proxy contributes: at most one, of its HTTP entry. *)
Lemma anon_labels p :
  omap anon_label (types_entries p) =
  match types p !! Http with Some (Some l) => [l] | _ => [] end.
Proof.
  unfold types_entries, ALL. cbn [omap list_omap].
  destruct (types p !! Http) as [[l|]|], (types p !! Https), (types p !! Socks4),
    (types p !! Socks5), (types p !! Connect80), (types p !! Connect25); reflexivity.
Qed.

Lemma anon_labels_NoDup p : NoDup (omap anon_label (types_entries p)).
Proof. rewrite anon_labels. destruct (types p !! Http) as [[]|]; repeat constructor; set_solver. Qed.

Lemma anon_labels_elem p l : l ∈ omap anon_label (types_entries p) <-> types p !! Http = Some (Some l).
Proof. rewrite anon_labels. destruct (types p !! Http) as [[]|]; set_solver. Qed.

(** How many of the proxies satisfy a predicate. *)
Definition how_many (f : Proxy -> bool) (ps : list Proxy) : nat := length (List.filter f ps).

Lemma how_many_snoc f ps p : how_many f (ps ++ [p]) = how_many f ps + (if f p then 1 else 0).
Proof. unfold how_many. rewrite List.filter_app, length_app. simpl. by destruct (f p). Qed.

(** The statistics count the checked set exactly: over any batch, the
    total is the number of proxies, [working] the number with a confirmed
    type, each protocol's count the number of proxies confirmed for it, each
    anonymity level's count the number of proxies confirmed for HTTP at that
    level, and each country's count the number of proxies located there. *)
Theorem stats_exact ps :
  let c := collect ps in
  total c = length ps /\
  working c = how_many is_working ps /\
  (forall pr, default 0 (by_protocol c !! pr) =
              how_many (fun p => bool_decide (is_Some (types p !! pr))) ps) /\
  (forall l, default 0 (by_anonymity c !! l) =
             how_many (fun p => bool_decide (types p !! Http = Some (Some l))) ps) /\
  (forall cc, default 0 (by_country c !! cc) =
              how_many (fun p => bool_decide (country_label p = cc)) ps).
Proof.
  cbv zeta. unfold collect. induction ps as [|p ps (IH1 & IH2 & IH3 & IH4 & IH5)] using rev_ind.
  { split_and!; intros; done. }
  rewrite foldl_app. cbn [foldl]. set (c := foldl _ _ ps) in *. unfold record. cbn.
  rewrite length_app. split_and!.
  - cbn [length]. lia.
  - rewrite how_many_snoc, IH2. destruct (is_working p); lia.
  - intros pr. rewrite (bumps_map fst), bumps_lookup, how_many_snoc, IH3. f_equal.
    rewrite occurrences_one by apply types_entries_NoDup.
    by rewrite (bool_decide_ext _ _ (types_keys_elem p pr)); case_bool_decide.
  - intros l. rewrite bumps_lookup, how_many_snoc, IH4. f_equal.
    rewrite occurrences_one by apply anon_labels_NoDup.
    by rewrite (bool_decide_ext _ _ (anon_labels_elem p l)); case_bool_decide.
  - intros cc. rewrite bump_lookup, how_many_snoc, IH5. f_equal.
    unfold occurrences. rewrite filter_cons, filter_nil.
    case_decide; case_bool_decide; done.
Qed.
