(* ===== verification/Pool.v ===== *)
(** * The proxy pool: [src/server.rs] ([Pool], selection, eviction)

    The pool's shared state is the record [Pool]; every method is a function
    from the state before to the state after.  Instants are nanoseconds, and
    the two things the program does not determine are arguments: the time of a
    call and the entry a full session map gives up.  The process-wide random
    state of [next_rand] is the field [rng], and the notifications sent to the
    waiters are counted by the field [notify].  The asynchronous methods [get]
    and [wait_ready] are functions of a script of what happens at each of
    their [await] points: how the other tasks change the pool, and how the
    liveness probe ends. *)

From stdpp Require Import base list gmap strings.
From Stdlib Require Import Ascii NArith ZArith Lia.
From S2P Require Import Prelude Bytes Text Float Net Types ProxyModel.

(** ** Data *)

Inductive Strategy : Type := Best | RoundRobin | Random | Sticky.

#[export] Instance strategy_eq_dec : EqDecision Strategy.
Proof. solve_decision. Defined.

Inductive ClientKey : Type := KeyIp (ip : IpAddr) | KeyHeader (v : bytes).

#[export] Instance client_key_eq_dec : EqDecision ClientKey.
Proof. solve_decision. Defined.

#[export] Instance client_key_countable : Countable ClientKey :=
  inj_countable'
    (fun k => match k with KeyIp ip => inl ip | KeyHeader v => inr v end)
    (fun x => match x with inl ip => KeyIp ip | inr v => KeyHeader v end)
    (fun k => match k with KeyIp _ => eq_refl | KeyHeader _ => eq_refl end).

Definition instant := N.

Record PoolConfig := {
  max_tries : nat;
  max_error_rate : f64;
  max_resp_time : f64;
  min_req : N;
  countries : option (gset bytes);
  strategy : Strategy;
  sticky_header : option bytes;
  max_sessions : nat;
  fail_timeout : duration;
  prefer_connect : bool;
  http_allowed_codes : option (list N);
  verify_on_lease : option duration;
  verify_target : bytes * N;
}.

Definition PoolConfig_default : PoolConfig :=
  {| max_tries := 3; max_error_rate := f_half; max_resp_time := f_of_N 8; min_req := 5;
     countries := None; strategy := Best; sticky_header := None; max_sessions := 10000;
     fail_timeout := from_secs 30; prefer_connect := false; http_allowed_codes := None;
     verify_on_lease := None; verify_target := (bs "1.1.1.1", 443%N) |}.

Record Pooled := { proxy : Proxy; blocked_until : option instant }.

Record Pool := {
  state : list Pooled;
  sessions : gmap ClientKey (IpAddr * N);
  round_robin : N;
  config : PoolConfig;
  exhausted : bool;
  evictions : N;
  rotations : N;
  rng : N;
  notify : N;      (** the calls of [notify_waiters] so far; a waiter sleeps until the next one *)
}.

#[export] Instance pooled_inhabited : Inhabited Pooled :=
  populate {| proxy := Proxy_new UNSPECIFIED 0 ∅; blocked_until := None |}.

Definition set_state (l : list Pooled) (w : Pool) : Pool :=
  {| state := l; sessions := sessions w; round_robin := round_robin w; config := config w;
     exhausted := exhausted w; evictions := evictions w; rotations := rotations w; rng := rng w; notify := notify w |}.
Definition set_sessions (s : gmap ClientKey (IpAddr * N)) (w : Pool) : Pool :=
  {| state := state w; sessions := s; round_robin := round_robin w; config := config w;
     exhausted := exhausted w; evictions := evictions w; rotations := rotations w; rng := rng w; notify := notify w |}.
Definition set_cursors (rr ev rot x : N) (w : Pool) : Pool :=
  {| state := state w; sessions := sessions w; round_robin := rr; config := config w;
     exhausted := exhausted w; evictions := ev; rotations := rot; rng := x; notify := notify w |}.
Definition set_exhausted (w : Pool) : Pool :=
  {| state := state w; sessions := sessions w; round_robin := round_robin w; config := config w;
     exhausted := true; evictions := evictions w; rotations := rotations w; rng := rng w; notify := notify w |}.

Definition notify_waiters (w : Pool) : Pool :=
  {| state := state w; sessions := sessions w; round_robin := round_robin w; config := config w;
     exhausted := exhausted w; evictions := evictions w; rotations := rotations w; rng := rng w;
     notify := notify w + 1 |}.

(** A push into the pool wakes the waiters. *)
Definition push (e : Pooled) (w : Pool) : Pool := notify_waiters (set_state (state w ++ [e]) w).

Definition key_of (p : Proxy) : IpAddr * N := (host p, port p).
Definition entry_key (e : Pooled) : IpAddr * N := key_of (proxy e).
Definition fresh_entry (p : Proxy) : Pooled := {| proxy := p; blocked_until := None |}.

(** ** Admission *)

Section Admission.
Context `{Unicode}.

(** [country_ok] of [src/broker.rs]. *)
Definition country_ok (p : Proxy) (cs : option (gset bytes)) : bool :=
  match cs with
  | None => true
  | Some set => match geo p with
                | Some c => bool_decide (to_uppercase (country_code c) ∈ set)
                | None => false
                end
  end.

Definition RNG_SEED : N := 0x9E3779B97F4A7C15.

Definition empty_pool (cfg : PoolConfig) (done : bool) : Pool :=
  {| state := []; sessions := ∅; round_robin := 0; config := cfg; exhausted := done;
     evictions := 0; rotations := 0; rng := RNG_SEED; notify := 0 |}.

Definition from_proxies (ps : list Proxy) (cfg : PoolConfig) : Pool :=
  set_state (fresh_entry <$> List.filter (fun p => country_ok p (countries cfg)) ps)
            (empty_pool cfg true).

(** One turn of the importer spawned by [Pool::spawn]: a proxy from the
    source, or its end. *)
Definition import (item : option Proxy) (w : Pool) : Pool :=
  match item with
  | Some p => if country_ok p (countries (config w))
              then push (fresh_entry p) w else w
  | None => notify_waiters (set_exhausted w)
  end.

Definition spawn (source : list Proxy) (cfg : PoolConfig) : Pool :=
  import None (foldl (fun w p => import (Some p) w) (empty_pool cfg false) source).
End Admission.

(** ** Selection *)

Record SelectCtx := {
  ctx_scheme : Scheme;
  ctx_strategy : Strategy;
  ctx_sticky : option (IpAddr * N);
  ctx_cursor : N;
  ctx_now : instant;
  ctx_prefer : bool;
}.

Definition ready_at (now : instant) (e : Pooled) : bool :=
  match blocked_until e with None => true | Some t => (t <=? now)%N end.

Definition serves (sch : Scheme) (e : Pooled) : bool := bool_decide (sch ∈ schemes (proxy e)).

Definition has_connect (pool : list Pooled) (i : nat) : bool :=
  bool_decide (is_Some (types (proxy (pool !!! i)) !! Connect80)).

Definition connect_biased (pool : list Pooled) (tier : list nat) (prefer : bool) : list nat :=
  if negb prefer then tier
  else let connect := List.filter (has_connect pool) tier in
       if bool_decide (connect = []) then tier else connect.

Definition cmp_then (a b : comparison) : comparison := match a with Eq => b | c => c end.

Definition priority_cmp (pool : list Pooled) (prefer : bool) (a b : nat) : comparison :=
  let '(ae, at_) := priority (proxy (pool !!! a)) in
  let '(be, bt) := priority (proxy (pool !!! b)) in
  let ac := if prefer && negb (has_connect pool a) then 1 else 0 in
  let bc := if prefer && negb (has_connect pool b) then 1 else 0 in
  cmp_then (cmp_then (total_cmp ae be) (total_cmp at_ bt)) (Nat.compare ac bc).

Definition best_by_priority (pool : list Pooled) (eligible : list nat) (prefer : bool) : option nat :=
  min_by (priority_cmp pool prefer) eligible.

(** The indices of the proxies of one tier, in pool order. *)
Definition tier_of (pool : list Pooled) (ctx : SelectCtx) (ready : bool) : list nat :=
  (List.filter (fun ie => Bool.eqb (ready_at (ctx_now ctx) ie.2) ready)
     (List.filter (fun ie => serves (ctx_scheme ctx) ie.2) (enumerate pool))).*1.

Definition tier (pool : list Pooled) (ctx : SelectCtx) : list nat :=
  let ready := tier_of pool ctx true in
  if bool_decide (ready = []) then tier_of pool ctx false else ready.

(** The xorshift step on the 64-bit state. *)
Definition xorshift (x : N) : N :=
  let x := N.lxor x (wrap64 (N.shiftl x 13)) in
  let x := N.lxor x (N.shiftr x 7) in
  N.lxor x (wrap64 (N.shiftl x 17)).

Definition next_rand (x : N) (n : nat) : N * nat :=
  let x' := xorshift x in (x', N.to_nat (x' mod N.of_nat (Nat.max n 1))).

(** The index to serve, and the random state after the draw. *)
Definition best_for (pool : list Pooled) (ctx : SelectCtx) (x : N) : option nat * N :=
  let tier := tier pool ctx in
  if bool_decide (tier = []) then (None, x)
  else
    match ctx_strategy ctx with
    | Best => (best_by_priority pool tier (ctx_prefer ctx), x)
    | RoundRobin =>
        let pick := connect_biased pool tier (ctx_prefer ctx) in
        (pick !! N.to_nat (ctx_cursor ctx mod N.of_nat (length pick)), x)
    | Random =>
        let pick := connect_biased pool tier (ctx_prefer ctx) in
        let '(x', r) := next_rand x (length pick) in
        (pick !! r, x')
    | Sticky =>
        let pinned := a ← ctx_sticky ctx;
                      find (fun i => bool_decide (entry_key (pool !!! i) = a)) tier in
        match pinned with
        | Some i => (Some i, x)
        | None => (best_by_priority pool tier (ctx_prefer ctx), x)
        end
    end.

(** ** Leasing and returning *)

Section Methods.
Context `{Unicode}.

(** [s.keys().next()] of a hash map: some key, if there is one. *)
Context (first_key : gmap ClientKey (IpAddr * N) -> option ClientKey).

Definition record_session (key : ClientKey) (a : IpAddr * N) (w : Pool) : Pool :=
  let s := sessions w in
  let s := if (max_sessions (config w) <=? size s) && negb (bool_decide (is_Some (s !! key)))
           then match first_key s with Some k => delete k s | None => s end
           else s in
  set_sessions (<[key := a]> s) w.

Definition select_ctx (w : Pool) (now : instant) (sch : Scheme) (key : ClientKey) : SelectCtx :=
  {| ctx_scheme := sch;
     ctx_strategy := strategy (config w);
     ctx_sticky := if bool_decide (strategy (config w) = Sticky) then sessions w !! key else None;
     ctx_cursor := round_robin w;
     ctx_now := now;
     ctx_prefer := prefer_connect (config w) |}.

Definition try_select (now : instant) (sch : Scheme) (key : ClientKey) (w : Pool)
    : option Proxy * Pool :=
  let ctx := select_ctx w now sch key in
  let '(idx, x) := best_for (state w) ctx (rng w) in
  let w := set_cursors (round_robin w) (evictions w) (rotations w) x w in
  match i ← idx; swap_remove i (state w) with
  | None => (None, w)
  | Some (e, rest) =>
      let w := set_state rest w in
      let w := if bool_decide (strategy (config w) = RoundRobin)
               then set_cursors (round_robin w ⊞₆₄ 1)%pb (evictions w) (rotations w) (rng w) w
               else w in
      let w := if bool_decide (strategy (config w) = Sticky)
               then record_session key (key_of (proxy e)) w else w in
      (Some (proxy e), w)
  end.

Definition unhealthy (cfg : PoolConfig) (p : Proxy) : bool :=
  (min_req cfg <=? requests p)%N
  && (f_lt (max_error_rate cfg) (error_rate p) || f_lt (max_resp_time cfg) (avg_resp_time p)).

Definition put_inner (p : Proxy) (until : option instant) (w : Pool) : Pool :=
  if unhealthy (config w) p
  then set_cursors (round_robin w) (evictions w ⊞₆₄ 1)%pb (rotations w) (rng w) w
  else push {| proxy := p; blocked_until := until |} w.

Definition put_ok (p : Proxy) (w : Pool) : Pool := put_inner p None w.

Definition put_failed (now : instant) (p : Proxy) (w : Pool) : Pool :=
  put_inner p (Some (now + fail_timeout (config w))%N) w.

Definition len (w : Pool) : nat := length (state w).
Definition is_empty (w : Pool) : bool := len w =? 0.

Definition remove (h : IpAddr) (pt : N) (w : Pool) : bool * Pool :=
  let kept := List.filter (fun e => negb (bool_decide (entry_key e = (h, pt)))) (state w) in
  (negb (length (state w) =? length kept), set_state kept w).

Definition add (p : Proxy) (w : Pool) : Pool :=
  if existsb (fun e => bool_decide (entry_key e = key_of p)) (state w) then w
  else push (fresh_entry p) w.

Definition addrs (w : Pool) : gset (IpAddr * N) := list_to_set (entry_key <$> state w).
Definition proxies (w : Pool) : list Proxy := proxy <$> state w.

Definition in_country (cc : option bytes) (p : Proxy) : bool :=
  match cc with
  | Some cc => match geo p with
               | Some g => eq_ignore_ascii_case (country_code g) cc
               | None => false
               end
  | None => true
  end.

Definition try_get (sch : Scheme) (cc : option bytes) (w : Pool) : option Proxy * Pool :=
  let eligible := (List.filter (fun ie => in_country cc (proxy ie.2))
                     (List.filter (fun ie => serves sch ie.2) (enumerate (state w)))).*1 in
  match i ← best_by_priority (state w) eligible (prefer_connect (config w));
        vec_remove i (state w) with
  | Some (e, rest) => (Some (proxy e), set_state rest w)
  | None => (None, w)
  end.

(** ** The waiting methods *)

(** What happens around one suspension of the task: what the other tasks did to
    the pool after a look that found nothing and before the exhaustion check (or
    after a proxy that failed its probe was put back), what they did while the
    task was suspended, the liveness probe's outcome where one is awaited, and
    the time afterwards. *)
Record Await := { race : Pool -> Pool; others : Pool -> Pool; alive : bool; clock : instant }.

(** A task that has not finished when the script ends is pending. *)
Inductive Outcome A := Returned (a : A) (w : Pool) | Pending (w : Pool).
Arguments Returned {A}.
Arguments Pending {A}.

Definition VERIFY_MAX_ATTEMPTS : nat := 8.

Fixpoint get_loop (script : list Await) (attempts : nat) (now : instant)
    (sch : Scheme) (key : ClientKey) (w : Pool) : Outcome (option Proxy) :=
  match try_select now sch key w with
  | (Some p, w1) =>
      match verify_on_lease (config w1) with
      | None => Returned (Some p) w1
      | Some _ =>
          match script with
          | [] => Pending w1
          | a :: script' =>
              let w2 := others a w1 in
              if alive a then Returned (Some p) w2
              else
                let w3 := put_failed (clock a) p w2 in
                if VERIFY_MAX_ATTEMPTS <=? S attempts then Returned None w3
                else get_loop script' (S attempts) (clock a) sch key (race a w3)
          end
      end
  | (None, w1) =>
      match script with
      | [] => if exhausted w1
              then let '(o, w2) := try_select now sch key w1 in Returned o w2
              else Pending w1
      | a :: script' =>
          let w2 := race a w1 in
          if exhausted w2
          then let '(o, w3) := try_select (clock a) sch key w2 in Returned o w3
          else get_loop script' attempts (clock a) sch key (others a w2)
      end
  end.

Definition get (script : list Await) (now : instant) (sch : Scheme) (key : ClientKey) (w : Pool) :=
  get_loop script 0 now sch key w.

Fixpoint wait_ready_loop (script : list Await) (n : nat) (w : Pool) : Outcome unit :=
  if (n <=? len w) || exhausted w then Returned tt w
  else match script with
       | [] => Pending w
       | a :: script' => wait_ready_loop script' n (others a w)
       end.

Definition wait_ready (script : list Await) (n : nat) (w : Pool) : Outcome unit :=
  if n =? 0 then Returned tt w else wait_ready_loop script n w.
End Methods.

Arguments Returned {A}.
Arguments Pending {A}.

(** ** Snapshot *)

Record PoolSnapshot := {
  snap_http : nat;
  snap_https : nat;
  snap_total : nat;
  snap_error_rate : f64;
  snap_resp_time : f64;
  snap_probe_latency : f64;
}.

Definition snapshot_step (acc : nat * nat * (f64 * f64 * f64)) (e : Pooled)
    : nat * nat * (f64 * f64 * f64) :=
  let '(h, hs, (er, rt, pr)) := acc in
  let p := proxy e in
  ((if serves SHttp e then S h else h), (if serves SHttps e then S hs else hs),
   (f_add er (error_rate p), f_add rt (avg_resp_time p), f_add pr (probe_latency p))).

Definition snapshot (w : Pool) : PoolSnapshot :=
  let total := length (state w) in
  let '(h, hs, (er, rt, pr)) := foldl snapshot_step (0, 0, (f_zero, f_zero, f_zero)) (state w) in
  let mean x := if 0 <? total then f_div x (f_of_N (N.of_nat total)) else f_zero in
  {| snap_http := h; snap_https := hs; snap_total := total;
     snap_error_rate := mean er; snap_resp_time := mean rt; snap_probe_latency := mean pr |}.
