(* ===== verification/PoolProofs.v ===== *)
(** * What the pool promises: [src/server.rs]

    Selection answers with exactly the entry its strategy names; each operation
    that moves proxies is the event its contract names on a ledger of pooled and
    leased entries; eviction is exactly the health rule; the session map is
    bounded; a lease terminates. *)

From stdpp Require Import base list gmap gmultiset strings.
From Stdlib Require Import Ascii NArith ZArith Lia Sorted.
From S2P Require Import Prelude Bytes Text Float Net Types ProxyModel Pool.

(** ** Lemmas: the order *)

Definition connect_capable (e : Pooled) : Prop := is_Some (types (proxy e) !! Connect80).

#[export] Instance connect_capable_dec e : Decision (connect_capable e).
Proof. unfold connect_capable. apply _. Defined.

(** The order of [best_by_priority] as an integer lexicographic order. *)
Definition rank (pool : list Pooled) (prefer : bool) (i : nat) : Z * Z * nat :=
  let '(e, t) := priority (proxy (pool !!! i)) in
  (f_key e, f_key t, if decide (prefer = true /\ ~ connect_capable (pool !!! i)) then 1 else 0).

Lemma has_connect_capable pool prefer i :
  (if prefer && negb (has_connect pool i) then 1 else 0)
  = if decide (prefer = true /\ ~ connect_capable (pool !!! i)) then 1 else 0.
Proof.
  unfold has_connect, connect_capable. case_bool_decide; destruct prefer; cbn [andb negb];
    case_decide; intuition congruence.
Qed.

Definition rank_le (a b : Z * Z * nat) : Prop :=
  (a.1.1 < b.1.1 \/ (a.1.1 = b.1.1 /\
     (a.1.2 < b.1.2 \/ (a.1.2 = b.1.2 /\ (a.2 <= b.2)%nat))))%Z.

Lemma priority_cmp_rank pool prefer a b :
  priority_cmp pool prefer a b <> Gt <-> rank_le (rank pool prefer a) (rank pool prefer b).
Proof.
  unfold priority_cmp, rank, rank_le. rewrite !has_connect_capable.
  destruct (priority (proxy (pool !!! a))) as [ae at_].
  destruct (priority (proxy (pool !!! b))) as [be bt]. cbn [fst snd].
  unfold total_cmp.
  destruct (Z.compare_spec (f_key ae) (f_key be)), (Z.compare_spec (f_key at_) (f_key bt));
    cbn [cmp_then]; try (split; [lia|congruence]); try (split; [congruence|lia]).
  rewrite Nat.compare_ngt_iff. lia.
Qed.

Lemma priority_cmp_trans pool prefer a b c :
  priority_cmp pool prefer a b <> Gt -> priority_cmp pool prefer b c <> Gt ->
  priority_cmp pool prefer a c <> Gt.
Proof. rewrite !priority_cmp_rank. unfold rank_le. lia. Qed.

Lemma priority_cmp_total pool prefer a b :
  priority_cmp pool prefer a b = Gt -> priority_cmp pool prefer b a <> Gt.
Proof.
  intros H. rewrite priority_cmp_rank.
  assert (~ rank_le (rank pool prefer a) (rank pool prefer b)) as Hn
    by (rewrite <- priority_cmp_rank; congruence).
  unfold rank_le in *. lia.
Qed.

(** ** Lemmas: the tiers *)

Lemma lookup_total_Some (l : list Pooled) i e : l !! i = Some e -> l !!! i = e.
Proof. apply list_lookup_total_correct. Qed.

Lemma enum_filter_elem (f : nat * Pooled -> bool) (l : list Pooled) i :
  i ∈ (List.filter f (enumerate l)).*1 <-> exists e, l !! i = Some e /\ f (i, e) = true.
Proof.
  rewrite list_elem_of_fmap. split.
  - intros ([j e] & -> & [Hin Hf]%list_elem_of_In%filter_In). exists e. split; [|done].
    by apply elem_of_enumerate, list_elem_of_In.
  - intros (e & He & Hf). exists (i, e). split; [done|].
    apply list_elem_of_In, filter_In. split; [|done].
    by apply list_elem_of_In, elem_of_enumerate.
Qed.

Lemma filter_filter {A} (f g : A -> bool) l :
  List.filter f (List.filter g l) = List.filter (fun x => g x && f x) l.
Proof.
  induction l as [|x l IH]; simpl; [done|].
  destruct (g x); simpl; rewrite IH; done.
Qed.

Lemma tier_of_elem pool ctx ready i :
  i ∈ tier_of pool ctx ready <->
  exists e, pool !! i = Some e /\ serves (ctx_scheme ctx) e = true /\
            ready_at (ctx_now ctx) e = ready.
Proof.
  unfold tier_of. rewrite filter_filter, enum_filter_elem. simpl.
  by setoid_rewrite andb_true_iff; setoid_rewrite eqb_true_iff.
Qed.

(** The entries a selection may pick from: those serving the scheme that are
    ready, or, when none is, those that are benched. *)
Definition in_tier (pool : list Pooled) (sch : Scheme) (now : instant) (e : Pooled) : Prop :=
  serves sch e = true /\
  (ready_at now e = true \/
   forall e', e' ∈ pool -> serves sch e' = true -> ready_at now e' = false).

Lemma tier_elem pool ctx i :
  i ∈ tier pool ctx <->
  exists e, pool !! i = Some e /\ in_tier pool (ctx_scheme ctx) (ctx_now ctx) e.
Proof.
  unfold tier, in_tier. case_bool_decide as Hnil.
  - assert (forall e', e' ∈ pool -> serves (ctx_scheme ctx) e' = true ->
              ready_at (ctx_now ctx) e' = false) as Hnone.
    { intros e' [j Hj]%list_elem_of_lookup Hs.
      destruct (ready_at (ctx_now ctx) e') eqn:E; [|done]. exfalso.
      apply (not_elem_of_nil j). rewrite <- Hnil. apply tier_of_elem. eauto. }
    rewrite tier_of_elem. split; intros (e & He & Hs & Hr); [by eauto 10|].
    exists e. split_and!; try done. apply Hnone; [|done]. by eapply list_elem_of_lookup_2.
  - rewrite tier_of_elem. split; intros (e & He & Hs & Hr); [by eauto 10|].
    exists e. split_and!; try done. destruct Hr as [|Hr]; [done|].
    destruct (tier_of pool ctx true) as [|j l] eqn:E; [done|].
    assert (j ∈ tier_of pool ctx true) as Hj by (rewrite E; left).
    apply tier_of_elem in Hj as (e' & He' & Hs' & Hr').
    rewrite Hr in Hr'; [done| by eapply list_elem_of_lookup_2|done].
Qed.

Lemma tier_nil pool ctx :
  tier pool ctx = [] <-> forall e, e ∈ pool -> serves (ctx_scheme ctx) e = false.
Proof.
  split.
  - intros Hnil e He. destruct (serves _ e) eqn:Hs; [|done]. exfalso.
    apply list_elem_of_lookup in He as [i Hi].
    unfold tier in Hnil. case_bool_decide as Ht; [|by rewrite Hnil in Ht].
    destruct (ready_at (ctx_now ctx) e) eqn:Hr; apply (not_elem_of_nil i).
    + rewrite <- Ht. apply tier_of_elem. eauto.
    + rewrite <- Hnil. apply tier_of_elem. eauto.
  - intros Hnone. apply elem_of_nil_inv. intros i (e & He & Hs & _)%tier_elem.
    rewrite Hnone in Hs; [done|]. by eapply list_elem_of_lookup_2.
Qed.

Lemma connect_biased_sub pool t prefer i : i ∈ connect_biased pool t prefer -> i ∈ t.
Proof.
  unfold connect_biased. destruct prefer; simpl; [|done]. case_bool_decide; [done|].
  rewrite !list_elem_of_In. rewrite filter_In. tauto.
Qed.

Lemma connect_biased_nonempty pool t prefer : t <> [] -> connect_biased pool t prefer <> [].
Proof. unfold connect_biased. destruct prefer; simpl; [|done]. by case_bool_decide. Qed.

Lemma mod_lookup {A} (l : list A) n :
  l <> [] -> is_Some (l !! N.to_nat (n mod N.of_nat (length l))).
Proof.
  intros Hl. apply lookup_lt_is_Some_2.
  assert (length l <> 0) by (by destruct l).
  pose proof (N.mod_lt n (N.of_nat (length l))). lia.
Qed.

(** ** The strategies' choice, stated on its own *)

(** Ready at a time, and what a selection may answer with: an entry of the
    scheme that is ready, or, when none of the scheme is, any of the scheme. *)
Definition unblocked (now : instant) (e : Pooled) : Prop := forall t, blocked_until e = Some t -> (t <= now)%N.

Definition selectable (pool : list Pooled) (sch : Scheme) (now : instant) (e : Pooled) : Prop :=
  sch ∈ schemes (proxy e) /\
  (unblocked now e \/ forall e', e' ∈ pool -> sch ∈ schemes (proxy e') -> ~ unblocked now e').

Lemma ready_unblocked now e : ready_at now e = true <-> unblocked now e.
Proof.
  unfold ready_at, unblocked. destruct (blocked_until e) as [t|]; [|by split]. rewrite N.leb_le.
  split; [by intros Ht ? [= <-]|auto].
Qed.

Lemma serves_spec sch e : serves sch e = true <-> sch ∈ schemes (proxy e).
Proof. apply bool_decide_eq_true. Qed.

Lemma in_tier_selectable pool sch now e : in_tier pool sch now e <-> selectable pool sch now e.
Proof.
  unfold in_tier, selectable. rewrite serves_spec, ready_unblocked. setoid_rewrite serves_spec.
  by setoid_rewrite <-ready_unblocked; setoid_rewrite not_true_iff_false.
Qed.

#[export] Instance unblocked_dec now e : Decision (unblocked now e).
Proof. refine (cast_if (decide (ready_at now e = true))); by rewrite <-ready_unblocked. Defined.

#[export] Instance selectable_dec pool sch now e : Decision (selectable pool sch now e).
Proof.
  refine (cast_if (decide (sch ∈ schemes (proxy e) /\
    (unblocked now e \/ Forall (fun e' => sch ∈ schemes (proxy e') -> ~ unblocked now e') pool))));
    unfold selectable; by rewrite Forall_forall in *.
Defined.

(** An index whose entry satisfies a predicate. *)
Definition entry_at (P : Pooled -> Prop) (pool : list Pooled) (i : nat) : Prop :=
  exists e, pool !! i = Some e /\ P e.

#[export] Instance entry_at_dec P pool i `{forall e, Decision (P e)} : Decision (entry_at P pool i).
Proof.
  refine (match pool !! i as o return pool !! i = o -> _ with
          | Some e => fun E => cast_if (decide (P e))
          | None => fun E => right _
          end eq_refl); unfold entry_at; abstract naive_solver.
Defined.

(** The indices a selection may pick, in pool order, and those a rotation or a
    draw goes over: the CONNECT-capable ones, when they are preferred and there
    is one, and all of them otherwise. *)
Definition candidates (pool : list Pooled) (ctx : SelectCtx) : list nat :=
  filter (entry_at (selectable pool (ctx_scheme ctx) (ctx_now ctx)) pool) (seq 0 (length pool)).

Definition preferred (pool : list Pooled) (ctx : SelectCtx) : list nat :=
  let capable := filter (entry_at connect_capable pool) (candidates pool ctx) in
  if decide (ctx_prefer ctx = true /\ capable <> []) then capable else candidates pool ctx.

(** The first of the candidates with the least health key. *)
Definition first_best (pool : list Pooled) (ctx : SelectCtx) (i : nat) : Prop :=
  let rk := rank pool (ctx_prefer ctx) in
  i ∈ candidates pool ctx /\
  forall j, j ∈ candidates pool ctx -> rank_le (rk i) (rk j) /\ (j < i -> ~ rank_le (rk j) (rk i)).

(** The first of the candidates at an address. *)
Definition first_at (pool : list Pooled) (ctx : SelectCtx) (a : IpAddr * N) (i : nat) : Prop :=
  i ∈ candidates pool ctx /\ entry_key (pool !!! i) = a /\
  forall j, j ∈ candidates pool ctx -> j < i -> entry_key (pool !!! j) <> a.

(** What the chosen index is, by strategy, when the random state is [x]. *)
Definition chosen_ok (pool : list Pooled) (ctx : SelectCtx) (x : N) (i : nat) : Prop :=
  let turn n := preferred pool ctx !! N.to_nat (n mod N.of_nat (length (preferred pool ctx))) in
  match ctx_strategy ctx with
  | Best => first_best pool ctx i
  | RoundRobin => turn (ctx_cursor ctx) = Some i
  | Random => turn (xorshift x) = Some i
  | Sticky =>
      match ctx_sticky ctx with
      | Some a => first_at pool ctx a i \/
                  ((forall j, j ∈ candidates pool ctx -> entry_key (pool !!! j) <> a) /\ first_best pool ctx i)
      | None => first_best pool ctx i
      end
  end.

Lemma tier_of_sorted pool ctx ready : StronglySorted lt (tier_of pool ctx ready).
Proof.
  apply (sublist_sorted _ (seq 0 (length pool))); [|apply seq_sorted].
  rewrite <-enumerate_fst. unfold tier_of. apply fmap_sublist.
  etrans; apply filter_sublist.
Qed.

Lemma tier_sorted pool ctx : StronglySorted lt (tier pool ctx).
Proof. unfold tier. case_bool_decide; apply tier_of_sorted. Qed.

Lemma filter_sorted (P : nat -> Prop) `{forall i, Decision (P i)} l :
  StronglySorted lt l -> StronglySorted lt (filter P l).
Proof. apply sublist_sorted, sublist_filter. Qed.

Lemma tier_candidates pool ctx : tier pool ctx = candidates pool ctx.
Proof.
  apply sorted_lt_ext; [apply tier_sorted|apply filter_sorted, seq_sorted|]. intros i.
  unfold candidates, entry_at. rewrite tier_elem, list_elem_of_filter, elem_of_seq.
  setoid_rewrite in_tier_selectable. split.
  - intros (e & He & Ht). split; [by exists e|]. apply lookup_lt_Some in He. lia.
  - by intros [(e & He & Ht) _]; exists e.
Qed.

Lemma has_connect_spec pool i :
  i < length pool -> has_connect pool i = true <-> entry_at connect_capable pool i.
Proof.
  intros [e He]%lookup_lt_is_Some_2. unfold has_connect, entry_at, connect_capable.
  rewrite (lookup_total_Some _ _ _ He), bool_decide_eq_true. naive_solver.
Qed.

Lemma candidates_lt pool ctx i : i ∈ candidates pool ctx -> i < length pool.
Proof. unfold candidates. rewrite list_elem_of_filter, elem_of_seq. lia. Qed.

Lemma connect_filter pool ctx :
  List.filter (has_connect pool) (candidates pool ctx) = filter (entry_at connect_capable pool) (candidates pool ctx).
Proof.
  assert (forall i, i ∈ candidates pool ctx -> has_connect pool i = true <-> entry_at connect_capable pool i) as H
    by (intros i Hi; eapply has_connect_spec, candidates_lt, Hi).
  induction (candidates pool ctx) as [|i l IH]; [done|]. cbn [List.filter].
  rewrite filter_cons, IH by (intros; apply H; by right). specialize (H i ltac:(left)).
  case_decide as Hd; [apply H in Hd; by rewrite Hd|]. destruct (has_connect pool i); [tauto|done].
Qed.

Lemma connect_biased_preferred pool ctx :
  connect_biased pool (tier pool ctx) (ctx_prefer ctx) = preferred pool ctx.
Proof.
  rewrite tier_candidates. unfold connect_biased, preferred. rewrite connect_filter.
  destruct (ctx_prefer ctx); cbn [negb]; [|by rewrite decide_False by naive_solver].
  case_bool_decide; case_decide; naive_solver.
Qed.

Lemma best_by_priority_least pool t prefer i :
  best_by_priority pool t prefer = Some i ->
  i ∈ t /\ forall j, j ∈ t -> rank_le (rank pool prefer i) (rank pool prefer j).
Proof.
  unfold best_by_priority. intros E. split; [by eapply min_by_in|].
  intros j Hj. rewrite <-priority_cmp_rank.
  exact (min_by_le _ (priority_cmp_trans pool prefer) (priority_cmp_total pool prefer) _ _ _ E Hj).
Qed.

Lemma best_by_priority_ok pool ctx i :
  best_by_priority pool (tier pool ctx) (ctx_prefer ctx) = Some i -> first_best pool ctx i.
Proof.
  unfold first_best. rewrite <-tier_candidates. intros E.
  destruct (best_by_priority_least _ _ _ _ E) as [Hi Hle]. split; [done|].
  intros j Hj. split; [by apply Hle|]. intros Hlt.
  destruct (min_by_first _ (priority_cmp_trans pool _) (priority_cmp_total pool _) _ _ E) as (l1 & l2 & El & Hl1).
  pose proof (tier_sorted pool ctx) as Hs. rewrite El in Hs, Hj.
  rewrite <-priority_cmp_rank, (Hl1 _ (sorted_before _ _ _ _ Hs Hj Hlt)). tauto.
Qed.

Lemma find_pin_ok pool ctx a i :
  find (fun i => bool_decide (entry_key (pool !!! i) = a)) (tier pool ctx) = Some i -> first_at pool ctx a i.
Proof.
  unfold first_at. rewrite <-tier_candidates. intros E.
  pose proof (find_Some _ _ _ E) as [Hi Hk%bool_decide_eq_true]. split_and!; [done..|].
  intros j Hj Hlt. destruct (find_first _ _ _ E) as (l1 & l2 & El & Hl1).
  pose proof (tier_sorted pool ctx) as Hs. rewrite El in Hs, Hj.
  specialize (Hl1 _ (sorted_before _ _ _ _ Hs Hj Hlt)). by bool_destruct.
Qed.

Lemma best_by_priority_total pool t prefer : t <> [] -> is_Some (best_by_priority pool t prefer).
Proof.
  unfold best_by_priority. intros Ht. destruct (min_by _ t) eqn:E; [eauto|].
  by apply min_by_None in E.
Qed.

(** A rotation answers with an index of the tier. *)
Lemma turn_ok pool ctx n :
  tier pool ctx <> [] ->
  exists i, preferred pool ctx !! N.to_nat (n mod N.of_nat (length (preferred pool ctx))) = Some i /\ i ∈ tier pool ctx.
Proof.
  intros Ht. rewrite <-connect_biased_preferred.
  destruct (mod_lookup _ n (connect_biased_nonempty pool _ (ctx_prefer ctx) Ht)) as [i E].
  exists i. split; [done|]. by eapply connect_biased_sub, list_elem_of_lookup_2.
Qed.

(** The random state after a selection. *)
Definition drawn_rng (pool : list Pooled) (ctx : SelectCtx) (x : N) : N :=
  if decide (ctx_strategy ctx = Random /\ tier pool ctx <> []) then xorshift x else x.

(** The whole of selection: the strategy's index, or none when no proxy of the
    pool serves the scheme. *)
Lemma best_for_spec pool ctx x :
  (best_for pool ctx x).2 = drawn_rng pool ctx x /\
  match (best_for pool ctx x).1 with
  | Some i => i ∈ tier pool ctx /\ chosen_ok pool ctx x i
  | None => tier pool ctx = []
  end.
Proof.
  unfold best_for, drawn_rng, chosen_ok. case_bool_decide as Ht.
  { rewrite decide_False by naive_solver. done. }
  assert (exists i, best_by_priority pool (tier pool ctx) (ctx_prefer ctx) = Some i /\
            i ∈ tier pool ctx /\ first_best pool ctx i) as (i & E & Hi & Hb).
  { destruct (best_by_priority_total pool _ (ctx_prefer ctx) Ht) as [i E]. exists i.
    pose proof (best_by_priority_ok _ _ _ E). split_and!; [done|by eapply min_by_in|done]. }
  rewrite !connect_biased_preferred, E.
  destruct (ctx_strategy ctx); [by rewrite decide_False by naive_solver|..].
  - rewrite decide_False by naive_solver. split; [done|].
    destruct (turn_ok pool ctx (ctx_cursor ctx) Ht) as (k & Ek & Hk). cbn [fst]. by rewrite Ek.
  - rewrite decide_True by done. destruct (turn_ok pool ctx (xorshift x) Ht) as (k & Ek & Hk).
    assert (length (preferred pool ctx) <> 0) by (by destruct (preferred pool ctx)).
    unfold next_rand. rewrite Nat.max_l by lia. cbn [fst snd]. by rewrite Ek.
  - rewrite decide_False by naive_solver. destruct (ctx_sticky ctx) as [a|]; cbn [mbind option_bind]; [|done].
    destruct (find _ _) as [k|] eqn:Ef; cbn [fst snd].
    + pose proof (find_Some _ _ _ Ef) as [Hk _]. auto using find_pin_ok.
    + rewrite find_None in Ef. split_and!; [done..|]. right. split; [|done]. intros j Hj.
      rewrite <-tier_candidates in Hj. specialize (Ef j Hj). by bool_destruct.
Qed.

(** ** What [add] and [remove] do to the entries and the addresses *)

Lemma elem_of_addrs w k : k ∈ addrs w <-> exists e, e ∈ state w /\ entry_key e = k.
Proof. unfold addrs. rewrite elem_of_list_to_set, list_elem_of_fmap. naive_solver. Qed.

Lemma remove_elem h pt w e :
  e ∈ state (remove h pt w).2 <-> e ∈ state w /\ entry_key e <> (h, pt).
Proof.
  cbn [remove snd state set_state]. rewrite !list_elem_of_In, filter_In.
  by rewrite negb_true_iff, bool_decide_eq_false.
Qed.

Lemma add_elem p w e :
  e ∈ state (add p w) <-> e ∈ state w \/ (e = fresh_entry p /\ key_of p ∉ addrs w).
Proof.
  unfold add. destruct (existsb _ _) eqn:E.
  - split; [by left|]. intros [|[-> Hn]]; [done|]. exfalso. apply Hn, elem_of_addrs.
    apply existsb_exists in E as (x & Hx & Ex). bool_destruct. exists x. by rewrite list_elem_of_In.
  - cbn. rewrite elem_of_app, list_elem_of_singleton. split; [|naive_solver].
    intros [ | ->]; [by left|]. right. split; [done|]. rewrite elem_of_addrs. intros (x & Hx & Ek).
    apply not_true_iff_false in E. apply E, existsb_exists. exists x. rewrite <-list_elem_of_In.
    split; [done|by apply bool_decide_eq_true].
Qed.

(** An addition by the address: nothing when it is pooled. *)
Lemma add_cases p w : add p w = if decide (key_of p ∈ addrs w) then w else push (fresh_entry p) w.
Proof.
  unfold add. destruct (existsb _ _) eqn:E.
  - rewrite decide_True; [done|]. apply existsb_exists in E as (e & He & Hb). bool_destruct.
    apply elem_of_addrs. exists e. by rewrite list_elem_of_In.
  - rewrite decide_False; [done|]. intros (e & He & Hk)%elem_of_addrs. apply not_true_iff_false in E.
    apply E, existsb_exists. exists e. rewrite <-list_elem_of_In. split; [done|]. by apply bool_decide_eq_true.
Qed.

Lemma remove_state h pt w : state (remove h pt w).2 = filter (fun e => entry_key e <> (h, pt)) (state w).
Proof.
  cbn [remove snd state set_state]. induction (state w) as [|e l IH]; [done|]. cbn [List.filter].
  rewrite filter_cons, IH. case_bool_decide; case_decide; done.
Qed.

Lemma add_NoDup p w : NoDup (entry_key <$> state w) -> NoDup (entry_key <$> state (add p w)).
Proof.
  intros Hn. unfold add. destruct (existsb _ _) eqn:E; [done|]. cbn. rewrite fmap_app.
  apply NoDup_app. split_and!; [done| |apply NoDup_singleton].
  intros k Hk Hs. cbn in Hs; rewrite list_elem_of_singleton in Hs. subst k.
  apply list_elem_of_fmap in Hk as (x & Ex & Hx). apply not_true_iff_false in E. apply E, existsb_exists.
  exists x. rewrite <-list_elem_of_In. split; [done|]. by apply bool_decide_eq_true.
Qed.

(** ** Addresses of lists of proxies *)

Definition keys (l : list Proxy) : list (IpAddr * N) := key_of <$> l.

Lemma keys_drawn pl p pl' : proxies pl ≡ₚ p :: proxies pl' -> keys (proxies pl' ++ [p]) ⊆+ keys (proxies pl).
Proof. intros Hp. unfold keys. by rewrite Hp, (Permutation_app_comm (proxies pl') [p]). Qed.

(** ** Leasing *)

Section Leases.
Context (first_key : gmap ClientKey (IpAddr * N) -> option ClientKey).

(** The parts of the state that selection never touches. *)
Definition same_frame (w w' : Pool) : Prop :=
  config w' = config w /\ exhausted w' = exhausted w /\ evictions w' = evictions w /\
  rotations w' = rotations w.

(** What is left of the entries when the one at [i] is taken: the last in its
    place, and the others where they were. *)
Definition taken_out (i : nat) (l l' : list Pooled) : Prop :=
  S (length l') = length l /\ forall j, j < length l' -> l' !! j = if decide (j = i) then last l else l !! j.

(** The session map after the client [key] was given [a]: it is pinned to it,
    and no other pin changes, except that one may go when the map is full and
    the client is new. *)
Definition pinned_to (key : ClientKey) (a : IpAddr * N) (w w' : Pool) : Prop :=
  sessions w' !! key = Some a /\
  exists dropped : option ClientKey,
    (dropped = None \/ (max_sessions (config w) <= size (sessions w) /\ sessions w !! key = None)) /\
    forall k, k <> key -> sessions w' !! k = if decide (dropped = Some k) then None else sessions w !! k.

(** What a selection that answers with [p] writes besides the entries. *)
Definition booked (key : ClientKey) (p : Proxy) (w w' : Pool) : Prop :=
  rng w' = (if decide (strategy (config w) = Random) then xorshift (rng w) else rng w) /\
  round_robin w' = (if decide (strategy (config w) = RoundRobin) then wrap64 (round_robin w + 1) else round_robin w) /\
  notify w' = notify w /\
  if decide (strategy (config w) = Sticky) then pinned_to key (key_of p) w w' else sessions w' = sessions w.

Lemma record_session_pinned key a w w' :
  sessions w' = sessions w -> config w' = config w -> pinned_to key a w (record_session first_key key a w').
Proof.
  intros Hs Hc. unfold pinned_to, record_session. cbn [sessions set_sessions]. rewrite Hs, Hc.
  split; [by rewrite lookup_insert_eq|].
  destruct (Nat.leb_spec (max_sessions (config w)) (size (sessions w))) as [Hm|Hm]; cbn [andb].
  2:{ exists None. split; [by left|]. intros k Hk. by rewrite lookup_insert_ne. }
  destruct (sessions w !! key) eqn:E.
  { rewrite (bool_decide_true (is_Some _)) by eauto. cbn [negb]. exists None. split; [by left|].
    intros k Hk. by rewrite lookup_insert_ne. }
  rewrite (bool_decide_false (is_Some _)) by (by intros [??]). cbn [negb].
  exists (first_key (sessions w)). split; [by right|]. intros k Hk. rewrite lookup_insert_ne by done.
  destruct (first_key _) as [d|]; [|done]. case_decide as Hd.
  - simplify_eq. by rewrite lookup_delete_eq.
  - rewrite lookup_delete_ne; [done|congruence].
Qed.

(** The bookkeeping of [try_select], from the pool [w1] without the entry. *)
Lemma bookkeeping_booked key p w w1 :
  config w1 = config w -> sessions w1 = sessions w -> round_robin w1 = round_robin w -> notify w1 = notify w ->
  rng w1 = (if decide (strategy (config w) = Random) then xorshift (rng w) else rng w) ->
  let w2 := if bool_decide (strategy (config w1) = RoundRobin)
            then set_cursors (round_robin w1 ⊞₆₄ 1)%pb (evictions w1) (rotations w1) (rng w1) w1 else w1 in
  booked key p w (if bool_decide (strategy (config w2) = Sticky)
                  then record_session first_key key (key_of p) w2 else w2).
Proof.
  intros Hc Hs Hrr Hn Hx w2. subst w2. unfold booked. rewrite <-Hx, <-Hc, <-Hrr, <-Hn.
  destruct (strategy (config w1)) eqn:E; simpl; rewrite ?E; simpl; split_and!; try done.
  by apply record_session_pinned.
Qed.

(** What a selection answers with, and what it leaves of the pool. *)
Lemma select_spec now sch key w :
  let r := try_select first_key now sch key w in
  same_frame w r.2 /\
  match r.1 with
  | Some p => exists i e, state w !! i = Some e /\ p = proxy e /\
                state w ≡ₚ e :: state r.2 /\
                in_tier (state w) sch now e /\ chosen_ok (state w) (select_ctx w now sch key) (rng w) i /\
                taken_out i (state w) (state r.2) /\ booked key p w r.2
  | None => r.2 = w /\ forall e, e ∈ state w -> serves sch e = false
  end.
Proof.
  cbv zeta. unfold try_select. set (ctx := select_ctx w now sch key).
  pose proof (best_for_spec (state w) ctx (rng w)) as [Hx Hb]. unfold drawn_rng in Hx.
  change (ctx_strategy ctx) with (strategy (config w)) in Hx.
  destruct (best_for (state w) ctx (rng w)) as [[i|] x]; cbn [fst snd] in Hb, Hx; cbn [mbind option_bind].
  - destruct Hb as [Hin Hok]. pose proof Hin as (e & He & Ht)%tier_elem.
    assert (x = if decide (strategy (config w) = Random) then xorshift (rng w) else rng w) as Hr.
    { assert (tier (state w) ctx <> []) by (intros E; rewrite E in Hin; by apply not_elem_of_nil in Hin).
      rewrite Hx. repeat case_decide; naive_solver. }
    destruct (swap_remove_is_Some i (state w)) as [[e' rest] Hs]; [by eapply lookup_lt_Some|].
    change (state (set_cursors _ _ _ _ w)) with (state w). rewrite Hs.
    pose proof (swap_remove_lookup _ _ _ _ Hs) as He'. assert (e' = e) as -> by congruence.
    pose proof (swap_remove_after _ _ _ _ Hs) as Ha. apply swap_remove_perm in Hs. cbn [fst snd].
    split; [by repeat case_bool_decide|]. exists i, e. split_and!; try done; [by repeat case_bool_decide..|].
    by apply bookkeeping_booked.
  - cbn [fst snd]. assert (set_cursors (round_robin w) (evictions w) (rotations w) x w = w) as ->.
    { rewrite decide_False in Hx by tauto. subst x. by destruct w. }
    split_and!; [done..|]. exact (proj1 (tier_nil _ _) Hb).
Qed.

(** A lease is possible exactly when some pooled proxy serves the scheme. *)
Lemma select_possible now sch key w :
  is_Some (try_select first_key now sch key w).1 <-> exists e, e ∈ state w /\ serves sch e = true.
Proof.
  destruct (select_spec now sch key w) as [_ Hs].
  destruct (try_select first_key now sch key w).1 as [p|].
  - destruct Hs as (i & e & He & _ & _ & [Hsv _] & _). split; [|eauto].
    intros _. exists e. split; [by eapply list_elem_of_lookup_2|done].
  - destruct Hs as [_ Hs]. split; [by intros [??]|].
    intros (e & He & Hsv). by rewrite Hs in Hsv.
Qed.

(** What a call asks of the strategy: the pool's configuration, its cursor, and
    the client's pin. *)
Definition asked (w : Pool) (now : instant) (sch : Scheme) (key : ClientKey) : SelectCtx :=
  {| ctx_scheme := sch; ctx_strategy := strategy (config w); ctx_sticky := sessions w !! key;
     ctx_cursor := round_robin w; ctx_now := now; ctx_prefer := prefer_connect (config w) |}.

Lemma chosen_asked w now sch key x i :
  chosen_ok (state w) (select_ctx w now sch key) x i -> chosen_ok (state w) (asked w now sch key) x i.
Proof.
  unfold chosen_ok, select_ctx, asked, first_best, first_at, preferred, candidates. cbn.
  destruct (strategy (config w)); [done..|]. by rewrite bool_decide_true.
Qed.

(** C1.  A selection is correct: when it answers with a proxy, that proxy was in
    the pool and is exactly what left it, it serves the requested scheme, it is
    not benched unless every proxy serving the scheme is, and it is the one the
    strategy prescribes: the first with the least health key; the one the
    rotation cursor points at, going over the candidates (the CONNECT-capable
    ones, when those are preferred and there is one); the one the next state of
    the random sequence points at; or the first at the client's pinned address,
    and the best when none is there.  The cursor, the random state and the
    client's pin then move as the strategy says, and nothing else does.  It
    answers whenever a proxy of the pool serves the scheme, benched or not; when
    it answers with none, the pool is unchanged. *)
Theorem select_correct now sch key w :
  let r := try_select first_key now sch key w in
  same_frame w r.2 /\
  (is_Some r.1 <-> exists e, e ∈ state w /\ sch ∈ schemes (proxy e)) /\
  match r.1 with
  | Some p => exists i e, state w !! i = Some e /\ p = proxy e /\
                state w ≡ₚ e :: state r.2 /\
                selectable (state w) sch now e /\ chosen_ok (state w) (asked w now sch key) (rng w) i /\
                taken_out i (state w) (state r.2) /\ booked key p w r.2
  | None => r.2 = w
  end.
Proof.
  cbv zeta. pose proof (select_possible now sch key w) as Hp. setoid_rewrite serves_spec in Hp.
  destruct (select_spec now sch key w) as [Hf Hs]. split; [done|]. split; [done|].
  destruct (try_select first_key now sch key w).1; [|by destruct Hs].
  destruct Hs as (i & e & Hi & He & Hperm & Ht & Hok & Hrest). exists i, e.
  rewrite <-in_tier_selectable. split_and!; try done; by apply chosen_asked || by destruct Hrest.
Qed.

(** ** Sticky sessions *)

(** A sticky client keeps its upstream: when the client is pinned to an
    address and a ready proxy at that address serves the scheme, the selection
    answers with a proxy at that address; and whatever a sticky selection
    answers with becomes the client's pin. *)
Theorem sticky_pin now sch key w a e :
  strategy (config w) = Sticky ->
  sessions w !! key = Some a ->
  e ∈ state w -> entry_key e = a -> serves sch e = true -> ready_at now e = true ->
  exists p w', try_select first_key now sch key w = (Some p, w') /\
               key_of p = a /\ sessions w' !! key = Some a.
Proof.
  intros Hst Hpin He Hk Hsv Hrd.
  destruct (select_spec now sch key w) as [_ Hs].
  destruct (try_select first_key now sch key w) as [[p|] w'] eqn:E; cbn [fst snd] in *.
  2:{ destruct Hs as [_ Hs]. by rewrite Hs in Hsv. }
  destruct Hs as (i & e' & He' & -> & _ & _ & Hok & _).
  unfold chosen_ok, select_ctx in Hok; cbn in Hok. rewrite Hst, bool_decide_true, Hpin in Hok by done.
  assert (key_of (proxy e') = a) as Hka.
  { destruct Hok as [(_ & Hpinned & _)|[Hno _]]; [by rewrite (lookup_total_Some _ _ _ He') in Hpinned|].
    apply list_elem_of_lookup in He as [j Hj]. exfalso. apply (Hno j).
    - rewrite <-tier_candidates. apply tier_elem. exists e. split; [done|]. split; [done|]. by left.
    - by rewrite (lookup_total_Some _ _ _ Hj). }
  exists (proxy e'), w'. split_and!; [done|done|].
  unfold try_select in E. destruct (best_for _ _ _) as [idx x].
  destruct (mbind _ idx) as [[e0 rest]|]; [|done]. revert E.
  case_bool_decide as H1; case_bool_decide as H2; cbn in H1, H2; try congruence.
  intros [= E1 <-].
  unfold record_session; cbn [sessions set_sessions]. rewrite lookup_insert_eq. congruence.
Qed.

(** What the session map relies on of a hash map's iterator. *)
Definition some_key : Prop := forall m, match first_key m with
                                        | Some k => is_Some (m !! k)
                                        | None => m = ∅
                                        end.

Lemma record_session_size key a w :
  some_key ->
  size (sessions (record_session first_key key a w)) <= Nat.max (size (sessions w)) (Nat.max 1 (max_sessions (config w))).
Proof.
  intros Hfk. unfold record_session. cbn [sessions set_sessions].
  destruct (sessions w !! key) as [b|] eqn:Eb.
  - rewrite (bool_decide_true (is_Some _)) by eauto. rewrite andb_false_r.
    rewrite map_size_insert_Some by eauto. lia.
  - rewrite (bool_decide_false (is_Some _)) by (by intros [??]). rewrite andb_true_r.
    destruct (Nat.leb_spec (max_sessions (config w)) (size (sessions w))) as [Hle|Hlt].
    + specialize (Hfk (sessions w)). destruct (first_key _) as [k|].
      * rewrite map_size_insert_None by (apply lookup_delete_None; by right).
        rewrite map_size_delete_Some by done.
        assert (size (sessions w) <> 0); [|lia].
        intros Hz%map_size_empty_iff. rewrite Hz in Hfk. by destruct Hfk.
      * rewrite Hfk, map_size_insert_None, map_size_empty by done. lia.
    + rewrite map_size_insert_None by done. lia.
Qed.

(** The session map is bounded: selections, in any number and for any
    clients, never grow it past the configured maximum (or past one pin, when
    the maximum is zero). *)
Theorem sessions_bounded now sch key w :
  some_key ->
  size (sessions w) <= Nat.max 1 (max_sessions (config w)) ->
  size (sessions (try_select first_key now sch key w).2) <= Nat.max 1 (max_sessions (config w)).
Proof.
  intros Hfk Hw. unfold try_select.
  destruct (best_for _ _ _) as [idx x].
  destruct (mbind _ idx) as [[e rest]|]; [|done]. cbn [snd].
  case_bool_decide; case_bool_decide; cbn [sessions set_state set_cursors]; try done.
  - cbn in *. congruence.
  - etransitivity; [by apply record_session_size|]. cbn. lia.
Qed.

(** ** Eviction *)

(** A record over the health limits: past the grace number of requests, with
    an error rate or a mean response time over the limit. *)
Definition over_limits (cfg : PoolConfig) (p : Proxy) : Prop :=
  (min_req cfg <= requests p)%N /\
  (f_lt (max_error_rate cfg) (error_rate p) = true \/ f_lt (max_resp_time cfg) (avg_resp_time p) = true).

#[export] Instance over_limits_dec cfg p : Decision (over_limits cfg p).
Proof. unfold over_limits. apply _. Defined.

Lemma unhealthy_spec cfg p : unhealthy cfg p = true <-> over_limits cfg p.
Proof. unfold unhealthy, over_limits. by rewrite andb_true_iff, orb_true_iff, N.leb_le. Qed.

(** Returning a proxy evicts it exactly when it has handled the grace
    number of requests and its error rate or mean response time is over the
    limit: then it is dropped and counted, and otherwise it re-enters the pool
    with the bench state of the return (none after a success, [fail_timeout]
    from now after a failure), nothing else changing. *)
Theorem put_spec p now w :
  (over_limits (config w) p -> put_ok p w = put_failed now p w /\ state (put_ok p w) = state w /\
           evictions (put_ok p w) = (evictions w ⊞₆₄ 1)%pb) /\
  (~ over_limits (config w) p ->
     put_ok p w = push (fresh_entry p) w /\
     put_failed now p w =
       push {| proxy := p; blocked_until := Some (now + fail_timeout (config w))%N |} w).
Proof.
  rewrite <-unhealthy_spec. unfold put_ok, put_failed, put_inner.
  destruct (unhealthy _ _); split; intros Hx; done.
Qed.

(** A proxy just returned after a failure is not ready before its time is up. *)
Lemma put_failed_benched now t p w :
  (t < now + fail_timeout (config w))%N ->
  ready_at t {| proxy := p; blocked_until := Some (now + fail_timeout (config w))%N |} = false.
Proof. intros Ht. apply N.leb_gt. done. Qed.

Lemma put_inner_frame p until w :
  config (put_inner p until w) = config w /\ exhausted (put_inner p until w) = exhausted w.
Proof. unfold put_inner. by case_match. Qed.

(** ** Waiting for a proxy *)

Definition keeps_exhausted (f : Pool -> Pool) : Prop := forall w, exhausted w = true -> exhausted (f w) = true.

Lemma get_loop_serves script n now sch key w p w' :
  get_loop first_key script n now sch key w = Returned (Some p) w' -> sch ∈ schemes p.
Proof.
  assert (forall now w p w1, try_select first_key now sch key w = (Some p, w1) -> sch ∈ schemes p) as Hsel.
  { intros t v q v1 E. destruct (select_spec t sch key v) as [_ Hs]. rewrite E in Hs.
    destruct Hs as (i & e & _ & -> & _ & [Hsv _] & _). by apply bool_decide_eq_true in Hsv. }
  revert n now w. induction script as [|a script IH]; intros n now w; cbn [get_loop];
    destruct (try_select first_key now sch key w) as [[q|] w1] eqn:E.
  - destruct (verify_on_lease _); [done|]. intros [= -> ->]. by eapply Hsel.
  - destruct (exhausted w1); [|done]. destruct (try_select _ _ _ _ w1) as [o w2] eqn:E2.
    intros [= -> ->]. by eapply Hsel.
  - destruct (verify_on_lease _).
    + destruct (alive a); [intros [= -> <-]; by eapply Hsel|].
      destruct (_ <=? _); [done|]. apply IH.
    + intros [= -> ->]. by eapply Hsel.
  - destruct (exhausted (race a w1)).
    + destruct (try_select _ _ _ _ (race a w1)) as [o w2] eqn:E2.
      intros [= -> ->]. by eapply Hsel.
    + apply IH.
Qed.

Lemma get_loop_returns script n now sch key w :
  exhausted w = true ->
  Forall (fun a => keeps_exhausted (race a) /\ keeps_exhausted (others a)) script ->
  n < VERIFY_MAX_ATTEMPTS -> VERIFY_MAX_ATTEMPTS - n <= length script ->
  exists o w', get_loop first_key script n now sch key w = Returned o w' /\ exhausted w' = true.
Proof.
  unfold VERIFY_MAX_ATTEMPTS.
  assert (forall now w, exhausted w = true -> exhausted (try_select first_key now sch key w).2 = true) as Hsel.
  { intros t v Hv. destruct (select_spec t sch key v) as [(_ & Hex & _) _]. congruence. }
  revert n now w. induction script as [|a script IH]; intros n now w Hw Hsc Hn Hlen;
    [simpl in Hlen; lia|].
  apply Forall_cons in Hsc as [[Hra Hot] Hsc]. cbn [get_loop].
  specialize (Hsel now w Hw) as Hw1.
  destruct (try_select first_key now sch key w) as [[q|] w1]; cbn [snd] in Hw1.
  - destruct (verify_on_lease _); [|eauto]. destruct (alive a); [eauto|].
    assert (exhausted (put_failed (clock a) q (others a w1)) = true) as Hw2.
    { unfold put_failed. rewrite (proj2 (put_inner_frame _ _ _)). by apply Hot. }
    destruct (Nat.leb_spec VERIFY_MAX_ATTEMPTS (S n)) as [|Hlt]; [eauto|].
    apply IH; [by apply Hra|done|unfold VERIFY_MAX_ATTEMPTS in Hlt; lia|simpl in Hlen; lia].
  - rewrite Hra by done. specialize (Hsel (clock a) (race a w1) (Hra _ Hw1)).
    destruct (try_select first_key (clock a) sch key (race a w1)) as [o w2]. eauto.
Qed.

(** Asking for a proxy terminates once the source is exhausted: however the
    other tasks change the pool meanwhile, and even if every proxy drawn fails
    its liveness probe, the request returns after at most eight probes, and a
    proxy it returns serves the requested scheme. *)
Theorem get_terminates script now sch key w :
  exhausted w = true ->
  Forall (fun a => keeps_exhausted (race a) /\ keeps_exhausted (others a)) script ->
  VERIFY_MAX_ATTEMPTS <= length script ->
  exists o w', get first_key script now sch key w = Returned o w' /\
               forall p, o = Some p -> sch ∈ schemes p.
Proof.
  intros Hw Hsc Hlen. unfold get.
  destruct (get_loop_returns script 0 now sch key w) as (o & w' & E & _); [done..| |lia|].
  { unfold VERIFY_MAX_ATTEMPTS. lia. }
  exists o, w'. split; [done|]. intros p ->. by eapply get_loop_serves.
Qed.

(** ** The pool as a ledger *)

(** The abstract state: how many entries each address has in the pool, and how
    many on lease. *)
Record Ledger := { avail : gmultiset (IpAddr * N); leased : gmultiset (IpAddr * N) }.

(** What may happen to an address. *)
Inductive Event :=
  | Lease (k : IpAddr * N)      (** one entry goes from the pool to a client *)
  | Return (k : IpAddr * N)     (** one comes back *)
  | Evict (k : IpAddr * N)      (** one on lease is dropped on its return *)
  | Enter (k : IpAddr * N)      (** a new entry *)
  | Strike (k : IpAddr * N)     (** every entry of the address in the pool goes *)
  | Nothing.

Inductive ledger_step : Event -> Ledger -> Ledger -> Prop :=
  | L_lease P L k :
      ledger_step (Lease k) {| avail := {[+ k +]} ⊎ P; leased := L |} {| avail := P; leased := {[+ k +]} ⊎ L |}
  | L_return P L k :
      ledger_step (Return k) {| avail := P; leased := {[+ k +]} ⊎ L |} {| avail := {[+ k +]} ⊎ P; leased := L |}
  | L_evict P L k :
      ledger_step (Evict k) {| avail := P; leased := {[+ k +]} ⊎ L |} {| avail := P; leased := L |}
  | L_enter P L k :
      ledger_step (Enter k) {| avail := P; leased := L |} {| avail := {[+ k +]} ⊎ P; leased := L |}
  | L_strike P L k :
      ledger_step (Strike k) {| avail := P; leased := L |} {| avail := filter (fun k' => k' <> k) P; leased := L |}
  | L_nothing a : ledger_step Nothing a a.

(** At most one entry per address, in the pool or on lease. *)
Definition unique (a : Ledger) : Prop := forall k, multiplicity k (avail a) + multiplicity k (leased a) <= 1.

Lemma ledger_unique ev a a' :
  ledger_step ev a a' -> unique a -> (forall k, ev = Enter k -> k ∉ avail a /\ k ∉ leased a) -> unique a'.
Proof.
  destruct 1 as [P L k|P L k|P L k|P L k|P L k|]; intros Hu Hn k'; specialize (Hu k'); cbn [avail leased] in *;
    rewrite ?multiplicity_disj_union, ?multiplicity_filter in *; try case_decide; try done; try lia.
  destruct (Hn k eq_refl) as [Hp Hl]. rewrite elem_of_multiplicity in Hp, Hl.
  rewrite multiplicity_singleton. case_decide; [subst k'|]; lia.
Qed.

(** The operations on the pool. *)
Inductive Op :=
  | Op_select (now : instant) (sch : Scheme) (key : ClientKey)
  | Op_try_get (sch : Scheme) (cc : option bytes)
  | Op_put_ok (p : Proxy)
  | Op_put_failed (now : instant) (p : Proxy)
  | Op_add (p : Proxy)
  | Op_remove (h : IpAddr) (pt : N)
  | Op_import (item : option Proxy).

(** An operation on the pool, with the proxies its callers hold: a selection
    adds what it answers with, and a holder returns one it has, with its record
    advanced. *)
Inductive pool_step `{Unicode} : Op -> Pool * list Proxy -> Pool * list Proxy -> Prop :=
  | P_select now sch key w L :
      let r := try_select first_key now sch key w in
      pool_step (Op_select now sch key) (w, L) (r.2, option_list r.1 ++ L)
  | P_try_get sch cc w L :
      let r := try_get sch cc w in pool_step (Op_try_get sch cc) (w, L) (r.2, option_list r.1 ++ L)
  | P_put_ok p p' w L L' :
      L ≡ₚ p :: L' -> key_of p' = key_of p -> pool_step (Op_put_ok p') (w, L) (put_ok p' w, L')
  | P_put_failed now p p' w L L' :
      L ≡ₚ p :: L' -> key_of p' = key_of p -> pool_step (Op_put_failed now p') (w, L) (put_failed now p' w, L')
  | P_add p w L : pool_step (Op_add p) (w, L) (add p w, L)
  | P_remove h pt w L : pool_step (Op_remove h pt) (w, L) ((remove h pt w).2, L)
  | P_import item w L : pool_step (Op_import item) (w, L) (import item w, L).

Definition ledger_of (s : Pool * list Proxy) : Ledger :=
  {| avail := list_to_set_disj (entry_key <$> state s.1); leased := list_to_set_disj (keys s.2) |}.

(** A lease of an entry that qualifies, or nothing when none does. *)
Definition lease_of (P : Pooled -> Prop) (w : Pool) (ev : Event) : Prop :=
  match ev with
  | Lease k => exists e, e ∈ state w /\ P e /\ entry_key e = k
  | Nothing => forall e, e ∈ state w -> ~ P e
  | _ => False
  end.

(** What each operation does to the ledger. *)
Definition promised `{Unicode} (op : Op) (w : Pool) (ev : Event) : Prop :=
  match op with
  | Op_select _ sch _ => lease_of (fun e => sch ∈ schemes (proxy e)) w ev
  | Op_try_get sch cc => lease_of (fun e => sch ∈ schemes (proxy e) /\ in_country cc (proxy e) = true) w ev
  | Op_put_ok p | Op_put_failed _ p =>
      ev = if decide (over_limits (config w) p) then Evict (key_of p) else Return (key_of p)
  | Op_add p => ev = if decide (key_of p ∈ addrs w) then Nothing else Enter (key_of p)
  | Op_remove h pt => ev = Strike (h, pt)
  | Op_import (Some p) => ev = if country_ok p (countries (config w)) then Enter (key_of p) else Nothing
  | Op_import None => ev = Nothing
  end.

(** The entry an operation may bring to the pool. *)
Definition brought (op : Op) (w : Pool) : option Pooled :=
  match op with
  | Op_put_ok p | Op_add p | Op_import (Some p) => Some (fresh_entry p)
  | Op_put_failed now p => Some {| proxy := p; blocked_until := Some (now + fail_timeout (config w))%N |}
  | _ => None
  end.

(** *** Lemmas: one event each *)

Lemma ledger_of_push e w L :
  ledger_of (push e w, L) = {| avail := {[+ entry_key e +]} ⊎ avail (ledger_of (w, L)); leased := leased (ledger_of (w, L)) |}.
Proof.
  unfold ledger_of. cbn [fst snd state set_state push notify_waiters avail leased]. f_equal.
  rewrite fmap_app, list_to_set_disj_app. cbn [fmap list_fmap].
  rewrite list_to_set_disj_cons, list_to_set_disj_nil, (right_id_L ∅ (⊎)). apply (comm_L (⊎)).
Qed.

Lemma keys_perm_disj L p L' :
  L ≡ₚ p :: L' -> list_to_set_disj (keys L) =@{gmultiset _} {[+ key_of p +]} ⊎ list_to_set_disj (keys L').
Proof. intros Hp. unfold keys. by rewrite Hp. Qed.

Lemma lease_event w w' e L :
  state w ≡ₚ e :: state w' -> ledger_step (Lease (entry_key e)) (ledger_of (w, L)) (ledger_of (w', proxy e :: L)).
Proof.
  intros Hp. unfold ledger_of; cbn [fst snd].
  assert (list_to_set_disj (entry_key <$> state w) =@{gmultiset _}
          {[+ entry_key e +]} ⊎ list_to_set_disj (entry_key <$> state w')) as -> by by rewrite Hp.
  apply L_lease.
Qed.

Lemma put_event p' until w p L L' :
  L ≡ₚ p :: L' -> key_of p' = key_of p ->
  ledger_step (if decide (over_limits (config w) p') then Evict (key_of p') else Return (key_of p'))
    (ledger_of (w, L)) (ledger_of (put_inner p' until w, L')).
Proof.
  intros Hp Hk. unfold put_inner.
  assert (ledger_of (w, L) = {| avail := avail (ledger_of (w, L'));
            leased := {[+ key_of p' +]} ⊎ leased (ledger_of (w, L')) |}) as ->.
  { unfold ledger_of; cbn [fst snd avail leased]. by rewrite (keys_perm_disj _ _ _ Hp), Hk. }
  destruct (unhealthy (config w) p') eqn:E.
  - rewrite decide_True by by apply unhealthy_spec. apply L_evict.
  - rewrite decide_False by (rewrite <-unhealthy_spec; congruence). rewrite ledger_of_push. apply L_return.
Qed.

Lemma enter_event e w L : ledger_step (Enter (entry_key e)) (ledger_of (w, L)) (ledger_of (push e w, L)).
Proof. rewrite ledger_of_push. apply L_enter. Qed.

Lemma strike_event h pt w L : ledger_step (Strike (h, pt)) (ledger_of (w, L)) (ledger_of ((remove h pt w).2, L)).
Proof.
  assert (avail (ledger_of ((remove h pt w).2, L)) = filter (fun k => k <> (h, pt)) (avail (ledger_of (w, L)))) as E.
  { unfold ledger_of; cbn [fst avail]. rewrite remove_state.
    induction (state w) as [|e l IH]; [done|]. rewrite filter_cons, fmap_cons, list_to_set_disj_cons.
    rewrite gmultiset_filter_disj_union, <-IH. case_decide as Hk.
    - by rewrite fmap_cons, list_to_set_disj_cons, gmultiset_filter_singleton_True.
    - rewrite gmultiset_filter_singleton_False by tauto. by rewrite (left_id_L ∅ (⊎)). }
  unfold ledger_of in E |- *. cbn [fst snd avail] in E |- *. rewrite E. apply L_strike.
Qed.

(** What [try_get] answers with. *)
Lemma try_get_cases sch cc w :
  let ok e := sch ∈ schemes (proxy e) /\ in_country cc (proxy e) = true in
  match try_get sch cc w with
  | (Some p, w') => exists e, e ∈ state w /\ ok e /\ p = proxy e /\ state w ≡ₚ e :: state w'
  | (None, w') => w' = w /\ forall e, e ∈ state w -> ~ ok e
  end.
Proof.
  cbv zeta. unfold try_get. rewrite filter_filter.
  set (el := (List.filter _ _).*1).
  assert (forall i, i ∈ el <-> exists e, state w !! i = Some e /\ sch ∈ schemes (proxy e) /\ in_country cc (proxy e) = true) as Hel
    by (intros i; unfold el; rewrite enum_filter_elem; simpl;
        by setoid_rewrite andb_true_iff; setoid_rewrite serves_spec).
  destruct (best_by_priority _ el _) as [i|] eqn:E; cbn [mbind option_bind].
  - pose proof (min_by_in _ _ _ E) as (e & He & Hok)%Hel.
    destruct (vec_remove_is_Some i (state w)) as [[e' rest] Hv]; [by eapply lookup_lt_Some|]. rewrite Hv.
    assert (e' = e) as -> by (unfold vec_remove in Hv; rewrite He in Hv; congruence).
    apply vec_remove_perm in Hv. exists e. split_and!; [by eapply list_elem_of_lookup_2|apply Hok..|done|done].
  - split; [done|]. intros e [i He]%list_elem_of_lookup Hok. apply min_by_None in E.
    apply (not_elem_of_nil i). rewrite <-E. apply Hel. eauto.
Qed.

Lemma put_inner_elem p until w e :
  e ∈ state (put_inner p until w) -> e ∈ state w \/ e = {| proxy := p; blocked_until := until |}.
Proof.
  unfold put_inner. case_match; [by left|]. cbn. rewrite elem_of_app, list_elem_of_singleton. done.
Qed.

(** Which entries there are afterwards. *)
Lemma pool_step_entries `{Unicode} op s s' e :
  pool_step op s s' -> e ∈ state s'.1 -> e ∈ state s.1 \/ brought op s.1 = Some e.
Proof.
  destruct 1 as [now sch key w L r|sch cc w L r|p p' w L L'|now p p' w L L'|p w L|h pt w L|item w L]; cbn [fst brought].
  - destruct (select_spec now sch key w) as [_ Hs]. fold r in Hs. destruct r.1 as [p|]; intros He; left.
    + destruct Hs as (i & e' & _ & _ & Hp & _). rewrite Hp. by right.
    + destruct Hs as [Hs _]. by rewrite Hs in He.
  - pose proof (try_get_cases sch cc w) as Hs. fold r in Hs. cbv zeta in Hs. destruct r as [[p|] w']; intros He; left.
    + destruct Hs as (e' & _ & _ & _ & Hp). rewrite Hp. by right.
    + destruct Hs as [-> _]. done.
  - intros [He|He]%put_inner_elem; [by left|right; by rewrite He].
  - intros [He|He]%put_inner_elem; [by left|right; by rewrite He].
  - rewrite add_elem. intros [He|[-> _]]; auto.
  - rewrite remove_elem. intros [He _]. by left.
  - destruct item as [p|]; cbn [import]; [|by left]. case_match; [|by left].
    cbn. rewrite elem_of_app, list_elem_of_singleton. intros [He| ->]; auto.
Qed.

Lemma pool_step_event `{Unicode} op s s' :
  pool_step op s s' -> exists ev, promised op s.1 ev /\ ledger_step ev (ledger_of s) (ledger_of s').
Proof.
  destruct 1 as [now sch key w L r|sch cc w L r|p p' w L L' Hp Hk|now p p' w L L' Hp Hk|p w L|h pt w L|item w L];
    cbn [fst promised].
  - destruct (select_spec now sch key w) as [_ Hs]. fold r in Hs. destruct r as [[p|] w']; cbn [fst snd] in *.
    + destruct Hs as (i & e & He & -> & Hp & [Hsv _] & _). exists (Lease (entry_key e)).
      split; [|by apply lease_event]. exists e. split_and!; [by eapply list_elem_of_lookup_2|by apply serves_spec|done].
    + destruct Hs as [-> Hs]. exists Nothing. split; [|constructor]. intros e He.
      rewrite <-serves_spec, (Hs e He). done.
  - pose proof (try_get_cases sch cc w) as Hs. fold r in Hs. cbv zeta in Hs. destruct r as [[p|] w']; cbn [fst snd].
    + destruct Hs as (e & He & Hok & -> & Hp). exists (Lease (entry_key e)). split; [by exists e|by apply lease_event].
    + destruct Hs as [-> Hs]. exists Nothing. split; [done|constructor].
  - eexists. split; [done|]. by apply (put_event _ _ _ p).
  - eexists. split; [done|]. by apply (put_event _ _ _ p).
  - eexists. split; [done|]. rewrite add_cases. case_decide; [constructor|apply (enter_event (fresh_entry p))].
  - eexists. split; [done|]. apply strike_event.
  - destruct item as [p|]; cbn [import].
    + eexists. split; [done|]. case_match; [apply (enter_event (fresh_entry p))|constructor].
    + exists Nothing. split; [done|constructor].
Qed.

(** C2.  The pool refines a ledger of the entries each address has in the pool
    and on lease: every operation of the pool, with the leases its callers hold,
    is the one event its contract names.  A selection leases one entry that
    serves (and, for the agent tools, is in the country asked for) and nothing
    happens exactly when there is none; a return puts the entry back unless the
    record is over the health limits, and evicts it exactly then; an addition
    enters an entry unless the address is pooled; a removal strikes every
    pooled entry of its address; an import enters a proxy the countries admit.
    No other entry appears, and none is altered.  So an address with one entry
    keeps at most one, unless it is entered while pooled or on lease (which an
    import, and an addition made during a lease, do not prevent). *)
Theorem pool_refines_ledger `{Unicode} op s s' :
  pool_step op s s' ->
  (forall e, e ∈ state s'.1 -> e ∈ state s.1 \/ brought op s.1 = Some e) /\
  exists ev, promised op s.1 ev /\ ledger_step ev (ledger_of s) (ledger_of s') /\
    (unique (ledger_of s) -> (forall k, ev = Enter k -> k ∉ avail (ledger_of s) /\ k ∉ leased (ledger_of s)) ->
     unique (ledger_of s')).
Proof.
  intros Hst. split; [intros e; by apply pool_step_entries|].
  destruct (pool_step_event op s s' Hst) as (ev & Hp & Hl). exists ev. split_and!; [done..|].
  by apply ledger_unique.
Qed.
End Leases.

(** ** Concrete instances *)

(** The first key of the map's own enumeration. *)
Definition any_key (m : gmap ClientKey (IpAddr * N)) : option ClientKey := head (map_to_list m).*1.

Lemma any_key_some : some_key any_key.
Proof.
  intros m. unfold any_key. destruct (map_to_list m) as [|[k v] l] eqn:E; simpl.
  - by apply map_to_list_empty_iff.
  - exists v. apply elem_of_map_to_list. rewrite E. left.
Qed.

Definition sample_http (c : N) : Proxy := add_type Http (Some High) (Proxy_new (V4 10 0 0 c) 80 ∅).
Definition sticky_config : PoolConfig :=
  {| max_tries := 3; max_error_rate := f_half; max_resp_time := f_of_N 8; min_req := 5;
     countries := None; strategy := Sticky; sticky_header := None; max_sessions := 1;
     fail_timeout := from_secs 30; prefer_connect := false; http_allowed_codes := None;
     verify_on_lease := Some NANOS; verify_target := (bs "1.1.1.1", 443%N) |}.
Definition sample_pool : Pool :=
  set_sessions {[ KeyIp UNSPECIFIED := (V4 10 0 0 2, 80%N) ]}
    (@from_proxies AsciiOnly [sample_http 1; sample_http 2] sticky_config).

Lemma sticky_pin_witness :
  exists p w', try_select any_key 0%N SHttp (KeyIp UNSPECIFIED) sample_pool = (Some p, w') /\
               key_of p = (V4 10 0 0 2, 80%N) /\
               sessions w' !! KeyIp UNSPECIFIED = Some (V4 10 0 0 2, 80%N).
Proof.
  apply (sticky_pin any_key 0%N SHttp (KeyIp UNSPECIFIED) sample_pool (V4 10 0 0 2, 80%N)
           (fresh_entry (sample_http 2))); try by vm_compute.
  apply list_elem_of_lookup_2 with 1. reflexivity.
Defined.

Lemma sessions_bounded_witness :
  size (sessions (try_select any_key 0%N SHttp (KeyHeader (bs "c")) sample_pool).2) <= 1.
Proof.
  apply (sessions_bounded any_key 0%N SHttp (KeyHeader (bs "c")) sample_pool any_key_some).
  vm_compute. lia.
Defined.

Lemma get_terminates_witness :
  let dead := {| race := id; others := id; alive := false; clock := 0%N |} in
  exists o w', get any_key (replicate 8 dead) 0%N SHttp (KeyIp UNSPECIFIED) sample_pool = Returned o w' /\
               forall p, o = Some p -> SHttp ∈ schemes p.
Proof.
  intros dead. apply (get_terminates any_key (replicate 8 dead) 0%N SHttp (KeyIp UNSPECIFIED) sample_pool).
  - reflexivity.
  - repeat constructor; by intros w.
  - unfold VERIFY_MAX_ATTEMPTS. simpl. lia.
Defined.

Lemma pool_refines_ledger_witness :
  let r := try_select any_key 0%N SHttp (KeyIp UNSPECIFIED) sample_pool in
  let s := (sample_pool, []) in let s' := (r.2, [sample_http 2]) in
  (forall e, e ∈ state s'.1 -> e ∈ state s.1 \/ None = Some e) /\
  exists ev, lease_of (fun e => SHttp ∈ schemes (proxy e)) sample_pool ev /\ ledger_step ev (ledger_of s) (ledger_of s') /\
    (unique (ledger_of s) -> (forall k, ev = Enter k -> k ∉ avail (ledger_of s) /\ k ∉ leased (ledger_of s)) ->
     unique (ledger_of s')).
Proof.
  intros r s s'.
  apply (@pool_refines_ledger any_key AsciiOnly (Op_select 0%N SHttp (KeyIp UNSPECIFIED)) s s').
  replace s' with (r.2, option_list r.1 ++ []) by (unfold s'; f_equal; vm_compute; reflexivity).
  apply (@P_select any_key AsciiOnly 0%N SHttp (KeyIp UNSPECIFIED) sample_pool []).
Defined.

(** ** The two ways a second entry enters *)

(** An addition does not see a proxy that is on lease: leasing a proxy, adding
    its address, and returning it leaves two entries for one address. *)
Lemma add_while_leased :
  let p := sample_http 1 in
  let w := @from_proxies AsciiOnly [p] PoolConfig_default in
  let '(o, w1) := try_select any_key 0%N SHttp (KeyIp UNSPECIFIED) w in
  o = Some p /\ state (put_ok p (add p w1)) = [fresh_entry p; fresh_entry p].
Proof. vm_compute. done. Qed.

(** An addition does not consult the countries of the pool's admission. *)
Lemma add_ignores_countries p w :
  key_of p ∉ addrs w -> fresh_entry p ∈ state (add p w).
Proof.
  intros Hk. rewrite add_cases, decide_False by done. cbn [state set_state push notify_waiters]. set_solver.
Qed.

(** A session map of maximum zero still holds one pin. *)
Lemma zero_sessions_keep_one :
  let cfg := {| max_tries := 3; max_error_rate := f_half; max_resp_time := f_of_N 8; min_req := 5;
     countries := None; strategy := Sticky; sticky_header := None; max_sessions := 0;
     fail_timeout := from_secs 30; prefer_connect := false; http_allowed_codes := None;
     verify_on_lease := None; verify_target := (bs "1.1.1.1", 443%N) |} in
  let w := @from_proxies AsciiOnly [sample_http 1] cfg in
  size (sessions (try_select any_key 0%N SHttp (KeyIp UNSPECIFIED) w).2) = 1.
Proof. vm_compute. done. Qed.
