(* ===== verification/Broker.v ===== *)
(** * The broker: [src/broker.rs]

    Queries and their builder, the candidate sources of [grab], [find] and
    [check], the setup of the checker, and the concurrent checking pipeline
    [check_stream] as a step relation over its shared state: the source loop,
    the semaphore, the spawned checks, the atomic emit count, the cancellation
    token, the channel and the shared statistics.  Streams deliver their items
    in some order, which is a list here; the geo databases, the HTTP client
    and the consumer of the channel are parameters. *)

From stdpp Require Import base list gmap strings.
From Stdlib Require Import Ascii NArith ZArith Lia.
From S2P Require Import Prelude Bytes Text Float Net Utils Types ProxyModel Negotiator Resolver.
From S2P Require Import Provider Pool Judge Checker Stats.

(** ** Queries *)

Record GrabQuery := { g_countries : option (list bytes); g_limit : option nat }.

Record FindQuery := {
  q_types : list TypeSpec;
  q_countries : option (list bytes);
  q_limit : option nat;
  q_judges : list bytes;
  q_dnsbl : list bytes;
  q_timeout : duration;
  q_max_conn : nat;
  q_retry : RetryPolicy;
  q_post : bool;
  q_strict : bool;
  q_liveness_url : option bytes;
  q_relaxed_validity : bool;
  q_require_cookie : bool;
  q_require_referer : bool;
  q_require_connect25 : bool;
  q_trust_check : bool;
  q_require_trusted : bool;
}.

Definition FindQuery_default : FindQuery :=
  {| q_types := []; q_countries := None; q_limit := None; q_judges := []; q_dnsbl := [];
     q_timeout := from_secs 8; q_max_conn := 200; q_retry := RetryPolicy_default;
     q_post := false; q_strict := false; q_liveness_url := None; q_relaxed_validity := false;
     q_require_cookie := false; q_require_referer := false; q_require_connect25 := false;
     q_trust_check := false; q_require_trusted := false |}.

Record FindQueryBuilder := {
  b_types : option (list TypeSpec);
  b_countries : option (list bytes);
  b_limit : option nat;
  b_judges : option (list bytes);
  b_dnsbl : option (list bytes);
  b_timeout : option duration;
  b_max_conn : option nat;
  b_max_tries : option nat;
  b_retry : option RetryPolicy;
  b_post : option bool;
  b_strict : option bool;
  b_liveness_url : option bytes;
}.

(** The setter [limit]: zero is unlimited. *)
Definition limit_of (n : nat) : option nat := if 0 <? n then Some n else None.

Definition or_else {A} (a b : option A) : option A := match a with Some x => Some x | None => b end.

Definition FindQueryBuilder_default : FindQueryBuilder :=
  {| b_types := None; b_countries := None; b_limit := None; b_judges := None; b_dnsbl := None;
     b_timeout := None; b_max_conn := None; b_max_tries := None; b_retry := None; b_post := None;
     b_strict := None; b_liveness_url := None |}.

(** A call of one of the consuming setters. *)
Inductive Setter : Type :=
  | SetTypes (l : list TypeSpec)
  | SetCountries (l : list bytes)
  | SetLimit (n : nat)
  | SetJudges (l : list bytes)
  | SetDnsbl (l : list bytes)
  | SetTimeout (d : duration)
  | SetMaxConn (n : nat)
  | SetMaxTries (n : nat)
  | SetRetry (r : RetryPolicy)
  | SetPost (x : bool)
  | SetStrict (x : bool)
  | SetLivenessUrl (u : option bytes).

Definition set_field (b : FindQueryBuilder) (s : Setter) : FindQueryBuilder :=
  let '{| b_types := ty; b_countries := co; b_limit := li; b_judges := ju; b_dnsbl := db;
          b_timeout := tm; b_max_conn := mc; b_max_tries := mt; b_retry := re; b_post := po; b_strict := st;
     b_liveness_url := lu |} := b in
  let mk ty co li ju db tm mc mt re po st lu :=
    {| b_types := ty; b_countries := co; b_limit := li; b_judges := ju; b_dnsbl := db; b_timeout := tm;
       b_max_conn := mc; b_max_tries := mt; b_retry := re; b_post := po; b_strict := st;
       b_liveness_url := lu |} in
  match s with
  | SetTypes l => mk (Some l) co li ju db tm mc mt re po st lu
  | SetCountries l => mk ty (Some l) li ju db tm mc mt re po st lu
  | SetLimit n => mk ty co (limit_of n) ju db tm mc mt re po st lu
  | SetJudges l => mk ty co li (Some l) db tm mc mt re po st lu
  | SetDnsbl l => mk ty co li ju (Some l) tm mc mt re po st lu
  | SetTimeout d => mk ty co li ju db (Some d) mc mt re po st lu
  | SetMaxConn n => mk ty co li ju db tm (Some n) mt re po st lu
  | SetMaxTries n => mk ty co li ju db tm mc (Some n) re po st lu
  | SetRetry r => mk ty co li ju db tm mc mt (Some r) po st lu
  | SetPost x => mk ty co li ju db tm mc mt re (Some x) st lu
  | SetStrict x => mk ty co li ju db tm mc mt re po (Some x) lu
  | SetLivenessUrl u => mk ty co li ju db tm mc mt re po st u
  end.

Definition build (b : FindQueryBuilder) : FindQuery :=
  let d := FindQuery_default in
  {| q_types := default (q_types d) (b_types b);
     q_countries := or_else (b_countries b) (q_countries d);
     q_limit := or_else (b_limit b) (q_limit d);
     q_judges := default (q_judges d) (b_judges b);
     q_dnsbl := default (q_dnsbl d) (b_dnsbl b);
     q_timeout := default (q_timeout d) (b_timeout b);
     q_max_conn := default (q_max_conn d) (b_max_conn b);
     q_retry :=
       let r := default (q_retry d) (b_retry b) in
       match b_max_tries b with
       | Some mt => {| max_tries := mt; retry_on := retry_on r; backoff := backoff r;
                       factor := factor r; jitter := jitter r; max_backoff := max_backoff r |}
       | None => r
       end;
     q_post := default (q_post d) (b_post b);
     q_strict := default (q_strict d) (b_strict b);
     q_liveness_url := or_else (b_liveness_url b) (q_liveness_url d);
     q_relaxed_validity := q_relaxed_validity d;
     q_require_cookie := q_require_cookie d;
     q_require_referer := q_require_referer d;
     q_require_connect25 := q_require_connect25 d;
     q_trust_check := q_trust_check d;
     q_require_trusted := q_require_trusted d |}.

(** ** The post-check filter *)

Record CapsFilter := { f_cookie : bool; f_referer : bool; f_connect25 : bool; f_trusted : bool }.

Definition from_query (q : FindQuery) : CapsFilter :=
  {| f_cookie := q_require_cookie q; f_referer := q_require_referer q;
     f_connect25 := q_require_connect25 q; f_trusted := q_require_trusted q |}.

Definition passes (f : CapsFilter) (p : Proxy) : bool :=
  let c := capabilities p in
  (negb (f_cookie f) || cap_cookie c) && (negb (f_referer f) || cap_referer c)
  && (negb (f_connect25 f) || connect25 c) && (negb (f_trusted f) || trusted (trust p)).

(** ** Sources *)

Section Sources.
Context `{Unicode}.
(** The country and ASN databases, where they are configured. *)
Context (geo_db : option (IpAddr -> option Country)) (asn_db : option (IpAddr -> option Asn)).

Definition uppercase_set (cs : option (list bytes)) : option (gset bytes) :=
  (fun l => list_to_set (to_uppercase <$> l)) <$> cs.

Definition attach_geo (p : Proxy) : Proxy :=
  let p := match geo_db with Some db => set_public (expected_types p) (db (host p)) (asn p) p | None => p end in
  match asn_db with Some db => set_public (expected_types p) (geo p) (db (host p)) p | None => p end.

(** The body of the loop of [grab_task] for one candidate: the proxy to send. *)
Definition grab_step (cs : option (gset bytes)) (seen : gset (IpAddr * N)) (c : Candidate)
    : gset (IpAddr * N) * option Proxy :=
  match parse_ip (cand_host c) with
  | None => (seen, None)
  | Some h =>
      if decide ((h, cand_port c) ∈ seen) then (seen, None)
      else
        let p := attach_geo (Proxy_new h (cand_port c) (cand_protocols c)) in
        ({[(h, cand_port c)]} ∪ seen, if country_ok p cs then Some p else None)
  end.

(** [open n]: whether the consumer still takes the [n]-th proxy. *)
Fixpoint grab_loop (cs : option (gset bytes)) (limit : option nat) (open : nat -> bool)
    (seen : gset (IpAddr * N)) (sent : nat) (cands : list Candidate) : list Proxy :=
  match cands with
  | [] => []
  | c :: cands' =>
      if from_option (fun l => l <=? sent) false limit then []
      else
        match grab_step cs seen c with
        | (seen', Some p) =>
            if open sent then p :: grab_loop cs limit open seen' (S sent) cands' else []
        | (seen', None) => grab_loop cs limit open seen' sent cands'
        end
  end.

(** [batches]: the providers' candidates, in the order their fetches end. *)
Definition grab_task (q : GrabQuery) (open : nat -> bool) (batches : list (list Candidate)) : list Proxy :=
  grab_loop (uppercase_set (g_countries q)) (g_limit q) open ∅ 0 (mjoin batches).

(** The source of [find_task]: the same filter, without a limit. *)
Definition find_source (q : FindQuery) (batches : list (list Candidate)) : list Proxy :=
  grab_loop (uppercase_set (q_countries q)) None (fun _ => true) ∅ 0 (mjoin batches).

(** The source of [Broker::check]. *)
Definition check_source (q : FindQuery) (ps : list Proxy) : list Proxy :=
  List.filter (fun p => country_ok p (uppercase_set (q_countries q))) (attach_geo <$> ps).
End Sources.

Definition checker_config (q : FindQuery) : CheckerConfig :=
  {| cfg_judges := q_judges q; cfg_types := q_types q; cfg_timeout := q_timeout q;
     cfg_retry := q_retry q; cfg_post := q_post q; cfg_strict := q_strict q;
     cfg_relaxed := q_relaxed_validity q; cfg_trust_check := q_trust_check q || q_require_trusted q;
     cfg_dnsbl := q_dnsbl q; cfg_liveness_url := q_liveness_url q |}.

(** The broker's resolver where one was injected, and a new one otherwise. *)
Definition resolver_for (injected : option Resolver) (hickory : dns_library)
    (http : duration -> bytes -> option bytes) (timeout : duration) : result Error Resolver :=
  match injected with Some r => Ok r | None => Resolver_new hickory http timeout end.

(** The resolver, [external_ips] and [Checker::new] in sequence. *)
Definition build_checker `{Unicode} (injected : option Resolver) (hickory : dns_library)
    (http : duration -> bytes -> option bytes) (url_parse : bytes -> option UrlParts) (get : http_client)
    (draws : nat -> N) (q : FindQuery) : result Error Checker :=
  r ← resolver_for injected hickory http (q_timeout q);
  ext ← resolver_ips r;
  Checker_new (resolver_dns r) url_parse get draws (checker_config q) ext.

(** What [find] and [check] do before any work is spawned. *)
Definition start_run `{Unicode} (injected : option Resolver) (hickory : dns_library)
    (http : duration -> bytes -> option bytes) (url_parse : bytes -> option UrlParts) (get : http_client)
    (draws : nat -> N) (q : FindQuery) : result Error Checker :=
  if bool_decide (q_types q = []) then Err NoTypes
  else build_checker injected hickory http url_parse get draws q.

(** ** The checking pipeline *)

(** A spawned task: checking a proxy, or holding emit number [n] and sending. *)
Inductive Task : Type := Checking (p : Proxy) | Sending (p : Proxy) (n : nat).

Record Run := {
  source : list Proxy;
  pending : option Proxy;    (** pulled, waiting for a permit *)
  accepting : bool;          (** the source loop has not ended *)
  permits : nat;
  tasks : list Task;
  sent : nat;
  cancelled : bool;
  channel_open : bool;
  output : list Proxy;
  stats : StatsCollector;
  observed : list Proxy;     (** the calls of the [on_checked] observer *)
}.

Definition start (ps : list Proxy) (max_conn : nat) : Run :=
  {| source := ps; pending := None; accepting := true; permits := max_conn; tasks := []; sent := 0;
     cancelled := false; channel_open := true; output := []; stats := StatsCollector_default;
     observed := [] |}.

Definition is_limit_reached (n : nat) (limit : option nat) : bool :=
  from_option (fun l => l <=? n) false limit.

Definition set_loop (src : list Proxy) (pe : option Proxy) (acc : bool) (r : Run) : Run :=
  {| source := src; pending := pe; accepting := acc; permits := permits r; tasks := tasks r;
     sent := sent r; cancelled := cancelled r; channel_open := channel_open r;
     output := output r; stats := stats r;
     observed := observed r |}.
Definition set_tasks (pm : nat) (ts : list Task) (r : Run) : Run :=
  {| source := source r; pending := pending r; accepting := accepting r; permits := pm; tasks := ts;
     sent := sent r; cancelled := cancelled r; channel_open := channel_open r;
     output := output r; stats := stats r;
     observed := observed r |}.
Definition set_emit (n : nat) (c : bool) (r : Run) : Run :=
  {| source := source r; pending := pending r; accepting := accepting r; permits := permits r;
     tasks := tasks r; sent := n; cancelled := c; channel_open := channel_open r;
     output := output r; stats := stats r;
     observed := observed r |}.
Definition set_output (o : list Proxy) (r : Run) : Run :=
  {| source := source r; pending := pending r; accepting := accepting r; permits := permits r;
     tasks := tasks r; sent := sent r; cancelled := cancelled r; channel_open := channel_open r;
     output := o; stats := stats r;
     observed := observed r |}.
Definition set_checked (s : StatsCollector) (o : list Proxy) (r : Run) : Run :=
  {| source := source r; pending := pending r; accepting := accepting r; permits := permits r;
     tasks := tasks r; sent := sent r; cancelled := cancelled r; channel_open := channel_open r;
     output := output r; stats := s; observed := o |}.
Definition close_channel (r : Run) : Run :=
  {| source := source r; pending := pending r; accepting := accepting r; permits := permits r;
     tasks := tasks r; sent := sent r; cancelled := true; channel_open := false;
     output := output r; stats := stats r;
     observed := observed r |}.

Section Pipeline.
Context (limit : option nat) (caps : CapsFilter).
(** [checked p w q]: a check of [p] may answer [w] and leave the proxy as [q]. *)
Context (checked : Proxy -> bool -> Proxy -> Prop).

(** A task that has its check's answer: everything up to its next [await] or its
    end.  The task's place in the list is between [ts1] and [ts2]. *)
Definition after_check (w : bool) (q : Proxy) (ts1 ts2 : list Task) (r : Run) : Run :=
  let r := set_checked (record q (stats r)) (observed r ++ [q]) r in
  if w && passes caps q then
    let n := sent r in
    let r := set_emit (S n) (cancelled r) r in
    if is_limit_reached n limit
    then set_tasks (S (permits r)) (ts1 ++ ts2) (set_emit (sent r) true r)
    else set_tasks (permits r) (ts1 ++ Sending q n :: ts2) r
  else set_tasks (S (permits r)) (ts1 ++ ts2) r.

(** The send of emit number [n] ends: the proxy is in the channel, unless the
    consumer has gone. *)
Definition after_send (q : Proxy) (n : nat) (ts1 ts2 : list Task) (r : Run) : Run :=
  let r := if channel_open r then set_output (output r ++ [q]) r else r in
  let r := set_emit (sent r) (cancelled r || is_limit_reached (S n) limit) r in
  set_tasks (S (permits r)) (ts1 ++ ts2) r.

Inductive run_step : Run -> Run -> Prop :=
  (* the source loop *)
  | R_exhausted r :
      accepting r = true -> pending r = None -> source r = [] ->
      run_step r (set_loop [] None false r)
  | R_stop r p ps :
      accepting r = true -> pending r = None -> source r = p :: ps ->
      cancelled r || is_limit_reached (sent r) limit = true ->
      run_step r (set_loop ps None false r)
  | R_pull r p ps :
      accepting r = true -> pending r = None -> source r = p :: ps ->
      cancelled r || is_limit_reached (sent r) limit = false ->
      run_step r (set_loop ps (Some p) true r)
  | R_spawn r p k :
      pending r = Some p -> permits r = S k ->
      run_step r (set_tasks k (tasks r ++ [Checking p]) (set_loop (source r) None (accepting r) r))
  (* a spawned task *)
  | R_abort r p ts1 ts2 :
      cancelled r = true -> tasks r = ts1 ++ Checking p :: ts2 ->
      run_step r (set_tasks (S (permits r)) (ts1 ++ ts2) r)
  | R_checked r p w q ts1 ts2 :
      tasks r = ts1 ++ Checking p :: ts2 -> checked p w q ->
      run_step r (after_check w q ts1 ts2 r)
  | R_sent r q n ts1 ts2 :
      tasks r = ts1 ++ Sending q n :: ts2 ->
      run_step r (after_send q n ts1 ts2 r)
  (* the consumer drops the stream *)
  | R_drop r : channel_open r = true -> run_step r (close_channel r).

(** The run has ended: the loop is over and every task has been waited for. *)
Definition finished (r : Run) : bool :=
  negb (accepting r) && bool_decide (pending r = None) && bool_decide (tasks r = []).

Inductive reachable (ps : list Proxy) (max_conn : nat) : Run -> Prop :=
  | reach_start : reachable ps max_conn (start ps max_conn)
  | reach_step r r' : reachable ps max_conn r -> run_step r r' -> reachable ps max_conn r'.
End Pipeline.

#[global] Instance task_eq_dec : EqDecision Task.
Proof. solve_decision. Defined.

(** ** Building a broker *)

Section Building.
(** The HTTP client, the resolver, a database and an observer are opaque here;
    the bundled registry, the default client and what opening the bundled
    database gives are inputs. *)
Context (Client Resolv GeoDb Observer : Type).
Context (bundled_registry : list ProviderSpec) (default_client : Client) (bundled_geo : option GeoDb).

Record BrokerBuilder := {
  bb_providers : option (list ProviderSpec);
  bb_client : option Client;
  bb_resolver : option Resolv;
  bb_geo : option GeoDb;
  bb_no_geo : bool;
  bb_asn : option GeoDb;
}.

Definition BrokerBuilder_default : BrokerBuilder :=
  {| bb_providers := None; bb_client := None; bb_resolver := None; bb_geo := None; bb_no_geo := false;
     bb_asn := None |}.

(** A call of one of the consuming setters. *)
Inductive BuilderCall : Type :=
  | CallProviders (l : list ProviderSpec)
  | CallClient (c : Client)
  | CallResolver (r : Resolv)
  | CallGeo (db : GeoDb)
  | CallWithoutGeo
  | CallAsnDb (db : GeoDb).

Definition builder_call (b : BrokerBuilder) (c : BuilderCall) : BrokerBuilder :=
  let '{| bb_providers := ps; bb_client := cl; bb_resolver := re; bb_geo := ge; bb_no_geo := ng;
          bb_asn := an |} := b in
  let mk ps cl re ge ng an :=
    {| bb_providers := ps; bb_client := cl; bb_resolver := re; bb_geo := ge; bb_no_geo := ng; bb_asn := an |} in
  match c with
  | CallProviders l => mk (Some l) cl re ge ng an
  | CallClient c => mk ps (Some c) re ge ng an
  | CallResolver r => mk ps cl (Some r) ge ng an
  | CallGeo db => mk ps cl re (Some db) ng an
  | CallWithoutGeo => mk ps cl re ge true an
  | CallAsnDb db => mk ps cl re ge ng (Some db)
  end.

Record Broker := {
  br_providers : list ProviderSpec;
  br_client : Client;
  br_resolver : option Resolv;
  br_geo : option GeoDb;
  br_asn : option GeoDb;
  br_on_checked : option Observer;
}.

(** [BrokerBuilder::build], with the database bundled. *)
Definition broker_build (b : BrokerBuilder) : Broker :=
  {| br_providers := default bundled_registry (bb_providers b);
     br_client := default default_client (bb_client b);
     br_resolver := bb_resolver b;
     br_geo := match bb_geo b, bb_no_geo b with
               | Some db, _ => Some db
               | None, true => None
               | None, false => bundled_geo
               end;
     br_asn := bb_asn b;
     br_on_checked := None |}.

Definition with_observer (obs : option Observer) (b : Broker) : Broker :=
  {| br_providers := br_providers b; br_client := br_client b; br_resolver := br_resolver b;
     br_geo := br_geo b; br_asn := br_asn b; br_on_checked := obs |}.
End Building.

(** ** A run's inputs, and what its consumer sees *)

(** The batches of the fetches, in the order these end. *)
Definition fetched `{Unicode} (engine : regex_engine) (fetch_body : ProviderSpec -> option bytes)
    (specs : list ProviderSpec) (batches : list (list Candidate)) : Prop :=
  batches ≡ₚ fetch engine fetch_body <$> specs.

(** [ProxyStream::stats]: there is a summary for the streams of a run only. *)
Definition stream_stats (r : option Run) : option (option Stats) := (fun r => finish (stats r)) <$> r.

(** [find], from its query to the start of its pipeline. *)
Definition find_run `{Unicode} (geo_db : option (IpAddr -> option Country)) (asn_db : option (IpAddr -> option Asn))
    (q : FindQuery) (batches : list (list Candidate)) : Run :=
  start (find_source geo_db asn_db q batches) (q_max_conn q).

(** [check], likewise. *)
Definition check_run `{Unicode} (geo_db : option (IpAddr -> option Country)) (asn_db : option (IpAddr -> option Asn))
    (q : FindQuery) (ps : list Proxy) : Run :=
  start (check_source geo_db asn_db q ps) (q_max_conn q).
