(* ===== verification/BrokerProofs.v ===== *)
(** * What the broker promises: [src/broker.rs]

    The pipeline keeps its limit and its concurrency bound, emits only proxies
    that passed their check and the filter, and always ends; gathering
    deduplicates, filters and stops at the limit; the errors of a run surface
    before it starts. *)

From stdpp Require Import base list gmap strings relations.
From Stdlib Require Import Ascii NArith ZArith Lia.
From S2P Require Import Prelude Bytes Text Float Net Utils Types ProxyModel Negotiator Resolver.
From S2P Require Import Provider Pool Judge Checker Stats Broker.

(** ** The query builder *)

(** The argument of the last call of a setter. *)
Definition last_call {A} (f : Setter -> option A) (calls : list Setter) : option A := last (omap f calls).

Definition arg_types (s : Setter) : option (list TypeSpec) := match s with SetTypes x => Some x | _ => None end.
Definition arg_countries (s : Setter) : option (list bytes) := match s with SetCountries x => Some x | _ => None end.
Definition arg_limit (s : Setter) : option (option nat) := match s with SetLimit x => Some (limit_of x) | _ => None end.
Definition arg_judges (s : Setter) : option (list bytes) := match s with SetJudges x => Some x | _ => None end.
Definition arg_dnsbl (s : Setter) : option (list bytes) := match s with SetDnsbl x => Some x | _ => None end.
Definition arg_timeout (s : Setter) : option duration := match s with SetTimeout x => Some x | _ => None end.
Definition arg_max_conn (s : Setter) : option nat := match s with SetMaxConn x => Some x | _ => None end.
Definition arg_max_tries (s : Setter) : option nat := match s with SetMaxTries x => Some x | _ => None end.
Definition arg_retry (s : Setter) : option RetryPolicy := match s with SetRetry x => Some x | _ => None end.
Definition arg_post (s : Setter) : option bool := match s with SetPost x => Some x | _ => None end.
Definition arg_strict (s : Setter) : option bool := match s with SetStrict x => Some x | _ => None end.
Definition arg_liveness_url (s : Setter) : option (option bytes) := match s with SetLivenessUrl x => Some x | _ => None end.

Lemma last_call_snoc {A} (f : Setter -> option A) calls s :
  last_call f (calls ++ [s]) = match f s with Some x => Some x | None => last_call f calls end.
Proof.
  unfold last_call. rewrite omap_app. simpl. destruct (f s); [by rewrite last_snoc|by rewrite app_nil_r].
Qed.

Lemma builder_fields calls :
  foldl set_field FindQueryBuilder_default calls =
  {| b_types := last_call arg_types calls; b_countries := last_call arg_countries calls;
     b_limit := mjoin (last_call arg_limit calls); b_judges := last_call arg_judges calls;
     b_dnsbl := last_call arg_dnsbl calls; b_timeout := last_call arg_timeout calls;
     b_max_conn := last_call arg_max_conn calls; b_max_tries := last_call arg_max_tries calls;
     b_retry := last_call arg_retry calls; b_post := last_call arg_post calls;
     b_strict := last_call arg_strict calls;
     b_liveness_url := mjoin (last_call arg_liveness_url calls) |}.
Proof.
  induction calls as [|s calls IH] using rev_ind; [done|].
  rewrite foldl_app, IH, !last_call_snoc. by destruct s.
Qed.

(** A query is what its setters were last called with: whatever calls are
    made, and in whatever order, each field of the built query is the argument
    of the last call of its setter and the default without one; a limit of zero
    is no limit, also after a positive one; and the attempt count overrides the
    one of the retry policy even when the policy is set after it, and nothing
    else of the policy. *)
Theorem build_exact calls :
  let q := build (foldl set_field FindQueryBuilder_default calls) in
  let policy := default RetryPolicy_default (last_call arg_retry calls) in
  q_types q = default [] (last_call arg_types calls) /\
  q_countries q = last_call arg_countries calls /\
  (forall l, q_limit q = Some l <-> 0 < l /\ last_call arg_limit calls = Some (Some l)) /\
  q_judges q = default [] (last_call arg_judges calls) /\
  q_dnsbl q = default [] (last_call arg_dnsbl calls) /\
  q_timeout q = default (from_secs 8) (last_call arg_timeout calls) /\
  q_max_conn q = default 200 (last_call arg_max_conn calls) /\
  max_tries (q_retry q) = default (max_tries policy) (last_call arg_max_tries calls) /\
  retry_on (q_retry q) = retry_on policy /\ backoff (q_retry q) = backoff policy /\
  factor (q_retry q) = factor policy /\ jitter (q_retry q) = jitter policy /\
  max_backoff (q_retry q) = max_backoff policy /\
  q_post q = default false (last_call arg_post calls) /\
  q_strict q = default false (last_call arg_strict calls) /\
  q_liveness_url q = mjoin (last_call arg_liveness_url calls).
Proof.
  cbn zeta. rewrite builder_fields. unfold build; cbn.
  assert (forall l, mjoin (last_call arg_limit calls) = Some l -> 0 < l) as Hpos.
  { intros l. induction calls as [|s calls IH] using rev_ind; [done|]. rewrite last_call_snoc.
    destruct s as [| |n| | | | | | | | |]; try exact IH. simpl. unfold limit_of.
    destruct (Nat.ltb_spec 0 n); [|done]. by intros [= <-]. }
  split_and!; try done; try (by destruct (last_call arg_countries calls));
    try (by destruct (last_call arg_max_tries calls)).
  - intros l. specialize (Hpos l). destruct (last_call arg_limit calls) as [[l'|]|]; simpl in *; split;
      try done; [intros [= ->]; auto|intros [_ [= ->]]; done|by intros [_ ?]|by intros [_ ?]].
  - by destruct (mjoin (last_call arg_liveness_url calls)).
Qed.

(** ** Gathering *)

(** The reference: one proxy per address, in the order of first appearance. *)
Definition addr (p : Proxy) : IpAddr * N := (host p, port p).

Fixpoint first_by_addr (ps : list Proxy) : list Proxy :=
  match ps with
  | [] => []
  | p :: ps' => p :: filter (fun p' => addr p' <> addr p) (first_by_addr ps')
  end.

Definition as_proxy (c : Candidate) : option Proxy :=
  h ← parse_ip (cand_host c); Some (Proxy_new h (cand_port c) (cand_protocols c)).

(** The first proxies, while the consumer takes them. *)
Fixpoint while_open (open : nat -> bool) (n : nat) (ps : list Proxy) : list Proxy :=
  match ps with
  | [] => []
  | p :: ps' => if open n then p :: while_open open (S n) ps' else []
  end.

Definition at_most (limit : option nat) (ps : list Proxy) : list Proxy :=
  match limit with Some l => take l ps | None => ps end.

Lemma while_open_prefix open n ps : while_open open n ps `prefix_of` ps.
Proof.
  revert n. induction ps as [|p ps IH]; intros n; simpl; [done|].
  destruct (open n); [by apply prefix_cons|apply prefix_nil].
Qed.

Lemma while_open_all open n ps : (forall i, open i = true) -> while_open open n ps = ps.
Proof. intros Ho. revert n. induction ps as [|p ps IH]; intros n; simpl; [done|]. by rewrite Ho, IH. Qed.

Lemma while_open_take open n k ps :
  (forall i, i < n + k -> open i = true) -> open (n + k) = false -> while_open open n ps = take k ps.
Proof.
  revert n k. induction ps as [|p ps IH]; intros n k Ho Hc; simpl; [by rewrite take_nil|].
  destruct k as [|k]; simpl.
  - rewrite Nat.add_0_r in Hc. by rewrite Hc.
  - rewrite Ho by lia. f_equal. apply IH; [intros; apply Ho; lia|]. by rewrite Nat.add_succ_r in Hc.
Qed.

Lemma first_by_addr_sub ps p : p ∈ first_by_addr ps -> p ∈ ps.
Proof.
  induction ps as [|p0 ps IH]; simpl; [done|]. rewrite !elem_of_cons, list_elem_of_filter. tauto.
Qed.

Lemma first_by_addr_nodup ps : NoDup (addr <$> first_by_addr ps).
Proof.
  induction ps as [|p ps IH]; simpl; constructor.
  - rewrite list_elem_of_fmap. intros (p' & E & Hp). apply list_elem_of_filter in Hp as [Hp _]. congruence.
  - eapply sublist_NoDup; [exact IH|]. apply fmap_sublist, sublist_filter.
Qed.

Section Gathering.
Context `{Unicode} (geo_db : option (IpAddr -> option Country)) (asn_db : option (IpAddr -> option Asn)).

Lemma addr_attach p : addr (attach_geo geo_db asn_db p) = addr p.
Proof. unfold attach_geo, addr. by destruct geo_db, asn_db. Qed.

(** What gathering is to produce: the candidates whose host is an address, one
    per address and port, located, and from a wanted country. *)
Definition gathered (cs : option (gset bytes)) (cands : list Candidate) : list Proxy :=
  List.filter (fun p => country_ok p cs) (attach_geo geo_db asn_db <$> first_by_addr (omap as_proxy cands)).

Definition gathered_from (seen : gset (IpAddr * N)) (cs : option (gset bytes)) (cands : list Candidate)
    : list Proxy :=
  List.filter (fun p => country_ok p cs)
    (attach_geo geo_db asn_db <$> filter (fun p => addr p ∉ seen) (first_by_addr (omap as_proxy cands))).

Lemma gathered_from_empty cs cands : gathered_from ∅ cs cands = gathered cs cands.
Proof.
  unfold gathered_from, gathered. do 2 f_equal.
  induction (first_by_addr _) as [|p ps IH]; [done|].
  rewrite filter_cons_True by apply not_elem_of_empty. by rewrite IH.
Qed.

Lemma gathered_step seen cs c cands :
  gathered_from seen cs (c :: cands) =
  match grab_step geo_db asn_db cs seen c with
  | (seen', Some p) => p :: gathered_from seen' cs cands
  | (seen', None) => gathered_from seen' cs cands
  end.
Proof.
  unfold gathered_from, grab_step. simpl. unfold as_proxy at 1. simpl.
  destruct (parse_ip (cand_host c)) as [h|]; simpl; [|done].
  set (p0 := Proxy_new h (cand_port c) (cand_protocols c)). change (h, cand_port c) with (addr p0).
  destruct (decide (addr p0 ∈ seen)) as [Hin|Hni]; simpl.
  - rewrite filter_cons_False by tauto. do 2 f_equal. rewrite list_filter_filter.
    apply list_filter_iff. intros p. split; [tauto|]. intros Hp. split; [done|]. intros E.
    by rewrite E in Hp.
  - rewrite filter_cons_True by done. simpl.
    rewrite list_filter_filter.
    rewrite (list_filter_iff _ (fun p => addr p ∉ {[addr p0]} ∪ seen)); [by destruct (country_ok _ cs)|].
    intros p. rewrite elem_of_union, elem_of_singleton. fold (addr p0). tauto.
Qed.

Lemma grab_loop_gathered cs limit open seen sent cands :
  grab_loop geo_db asn_db cs limit open seen sent cands =
  while_open open sent (at_most ((fun l => l - sent) <$> limit) (gathered_from seen cs cands)).
Proof.
  revert seen sent. induction cands as [|c cands IH]; intros seen sent.
  { unfold gathered_from. simpl. destruct limit; simpl; by rewrite ?take_nil. }
  rewrite gathered_step. cbn [grab_loop].
  destruct limit as [l|]; simpl.
  - destruct (l <=? sent) eqn:E.
    + apply Nat.leb_le in E. replace (l - sent) with 0 by lia. by destruct (grab_step _ _ _ _ _) as [? [?|]].
    + apply Nat.leb_gt in E. destruct (grab_step _ _ _ _ _) as [seen' [p|]]; rewrite ?IH; [|done].
      replace (l - sent) with (S (l - S sent)) by lia. simpl. done.
  - destruct (grab_step _ _ _ _ _) as [seen' [p|]]; rewrite ?IH; done.
Qed.

Lemma gathered_nodup cs cands : NoDup (addr <$> gathered cs cands).
Proof.
  eapply sublist_NoDup; [|apply fmap_sublist, filter_sublist].
  rewrite <-list_fmap_compose.
  rewrite (list_fmap_ext _ addr) by (intros; apply addr_attach). apply first_by_addr_nodup.
Qed.

Lemma find_source_gathered fq batches :
  find_source geo_db asn_db fq batches = gathered (uppercase_set (q_countries fq)) (mjoin batches).
Proof. unfold find_source. rewrite grab_loop_gathered, gathered_from_empty. simpl. by rewrite while_open_all. Qed.

(** C21.  Gathering is the first proxies, up to the limit, of the reference: the
    candidates whose host is an IP address, one per host and port in the order
    of first appearance, with their location attached, that pass the country
    filter.  A consumer that reads on gets exactly these, one that drops the
    stream after [k] of them gets the first [k], no two have the same host and
    port, and [find] feeds its checks the same list without a limit. *)
Theorem grab_exact q open batches :
  let all := gathered (uppercase_set (g_countries q)) (mjoin batches) in
  grab_task geo_db asn_db q open batches `prefix_of` at_most (g_limit q) all /\
  ((forall i, open i = true) -> grab_task geo_db asn_db q open batches = at_most (g_limit q) all) /\
  (forall k, (forall i, i < k -> open i = true) -> open k = false ->
    grab_task geo_db asn_db q open batches = take k (at_most (g_limit q) all)) /\
  NoDup (addr <$> grab_task geo_db asn_db q open batches) /\
  (forall fq, q_countries fq = g_countries q -> find_source geo_db asn_db fq batches = all).
Proof.
  cbn zeta. set (all := gathered _ _).
  assert (grab_task geo_db asn_db q open batches = while_open open 0 (at_most (g_limit q) all)) as E.
  { unfold grab_task. rewrite grab_loop_gathered, gathered_from_empty. f_equal.
    unfold at_most. destruct (g_limit q); simpl; by rewrite ?Nat.sub_0_r. }
  pose proof (gathered_nodup (uppercase_set (g_countries q)) (mjoin batches)) as Hnd. fold all in Hnd.
  split_and!.
  - rewrite E. apply while_open_prefix.
  - intros Ho. by rewrite E, while_open_all.
  - intros k Ho Hc. rewrite E. by apply while_open_take.
  - rewrite E. eapply sublist_NoDup; [exact Hnd|]. apply fmap_sublist.
    destruct (while_open_prefix open 0 (at_most (g_limit q) all)) as [rest Hr].
    trans (at_most (g_limit q) all); [rewrite Hr at 2; by apply sublist_inserts_r|].
    unfold at_most. destruct (g_limit q); [apply sublist_take|done].
  - intros fq Hq. by rewrite find_source_gathered, Hq.
Qed.
Lemma first_by_addr_addrs ps a : a ∈ addr <$> first_by_addr ps <-> a ∈ addr <$> ps.
Proof.
  induction ps as [|p ps IH]; simpl; [done|]. rewrite !elem_of_cons, <-IH.
  setoid_rewrite list_elem_of_fmap. setoid_rewrite list_elem_of_filter.
  destruct (decide (a = addr p)) as [->|Hne]; [tauto|].
  split; intros [?|(q & -> & Hq)]; try done; right; exists q; naive_solver.
Qed.

(** Whether the country filter keeps a proxy is a matter of its host. *)
Definition wanted_host (cs : option (gset bytes)) (h : IpAddr) : bool :=
  country_ok (attach_geo geo_db asn_db (Proxy_new h 0 ∅)) cs.

Lemma wanted_candidate cs c p : as_proxy c = Some p ->
  country_ok (attach_geo geo_db asn_db p) cs = wanted_host cs (host p).
Proof.
  unfold as_proxy. destruct (parse_ip _) as [h|]; [|done]. intros [= <-].
  unfold wanted_host, country_ok, attach_geo. by destruct geo_db, asn_db.
Qed.

Lemma gathered_addrs cs cands a :
  a ∈ addr <$> gathered cs cands <->
  wanted_host cs a.1 = true /\ exists c, c ∈ cands /\ parse_ip (cand_host c) = Some a.1 /\ cand_port c = a.2.
Proof.
  assert (forall p, p ∈ first_by_addr (omap as_proxy cands) -> exists c, as_proxy c = Some p) as Hc.
  { intros p (c & _ & E)%first_by_addr_sub%list_elem_of_omap. eauto. }
  trans (wanted_host cs a.1 = true /\ a ∈ addr <$> first_by_addr (omap as_proxy cands)).
  - unfold gathered. rewrite !list_elem_of_fmap. split.
    + intros (q & -> & Hq). rewrite list_elem_of_In, filter_In, <-list_elem_of_In in Hq.
      destruct Hq as [(p & -> & Hp)%list_elem_of_fmap Hok]. destruct (Hc p Hp) as [c E].
      rewrite (wanted_candidate _ _ _ E) in Hok. rewrite addr_attach. eauto.
    + intros [Hw (p & -> & Hp)]. exists (attach_geo geo_db asn_db p). rewrite addr_attach. split; [done|].
      rewrite list_elem_of_In, filter_In, <-list_elem_of_In. split; [by apply list_elem_of_fmap_2|].
      destruct (Hc p Hp) as [c E]. by rewrite (wanted_candidate _ _ _ E).
  - rewrite first_by_addr_addrs, list_elem_of_fmap. apply and_iff_compat_l. destruct a as [h pt]. split.
    + intros (p & E & (c & Hin & Ep)%list_elem_of_omap). unfold as_proxy in Ep.
      destruct (parse_ip (cand_host c)) as [h'|] eqn:Eh; [|done]. injection Ep as <-. injection E as -> ->.
      by exists c.
    + intros (c & Hin & Eh & Ept). cbn in Eh, Ept. exists (Proxy_new h pt (cand_protocols c)).
      split; [done|]. apply list_elem_of_omap. exists c. split; [done|].
      unfold as_proxy. by rewrite Eh, <-Ept.
Qed.

(** C16.  What a run checks does not depend on the timing of the providers: in
    whatever order their fetches end, the same addresses are checked, each
    once; and these are exactly the addresses extracted from the pages that
    were fetched, in the text of an IP address, whose host passes the country
    filter. *)
Theorem find_any_order engine fetch_body specs q batches batches' :
  fetched engine fetch_body specs batches -> fetched engine fetch_body specs batches' ->
  (addr <$> find_source geo_db asn_db q batches) ≡ₚ (addr <$> find_source geo_db asn_db q batches') /\
  NoDup (addr <$> find_source geo_db asn_db q batches) /\
  forall a, a ∈ addr <$> find_source geo_db asn_db q batches <->
    wanted_host (uppercase_set (q_countries q)) a.1 = true /\
    exists spec body c, spec ∈ specs /\ fetch_body spec = Some body /\ c ∈ extract engine spec body /\
      parse_ip (cand_host c) = Some a.1 /\ cand_port c = a.2.
Proof.
  intros Hb Hb'. rewrite !find_source_gathered.
  assert (forall bs, fetched engine fetch_body specs bs -> forall a,
    a ∈ addr <$> gathered (uppercase_set (q_countries q)) (mjoin bs) <->
    wanted_host (uppercase_set (q_countries q)) a.1 = true /\
    exists spec body c, spec ∈ specs /\ fetch_body spec = Some body /\ c ∈ extract engine spec body /\
      parse_ip (cand_host c) = Some a.1 /\ cand_port c = a.2) as Ha.
  { intros bs Hbs a. rewrite gathered_addrs. apply and_iff_compat_l.
    setoid_rewrite list_elem_of_join. unfold fetched in Hbs. setoid_rewrite Hbs.
    setoid_rewrite list_elem_of_fmap. unfold fetch. split.
    - intros (c & (l & Hc & spec & -> & Hs) & Hp). destruct (fetch_body spec) as [body|] eqn:Eb; [|by apply not_elem_of_nil in Hc].
      by exists spec, body, c.
    - intros (spec & body & c & Hs & Eb & Hc & Hp). exists c. split; [|done].
      eexists. split; [|by exists spec]. by rewrite Eb. }
  split; [|split; [apply gathered_nodup|by apply Ha]].
  apply NoDup_Permutation; [apply gathered_nodup..|]. intros a. by rewrite (Ha _ Hb), (Ha _ Hb').
Qed.
End Gathering.

(** ** Starting *)

Section Starting.
Context `{Unicode} (injected : option Resolver) (hickory : dns_library) (http : duration -> bytes -> option bytes).
Context (url_parse : bytes -> option UrlParts) (get : http_client) (draws : nat -> N).

(** What an endpoint of the resolver says this host's address is. *)
Definition told (r : Resolver) (u : bytes) : option IpAddr := probe_ip (rs_client r (rs_timeout r)) u.

Lemma resolver_ips_err r e : resolver_ips r = Err e ->
  e = ExtIpUnknown /\ forall u, u ∈ rs_ip_endpoints r -> told r u = None.
Proof.
  unfold resolver_ips, external_ips. case_bool_decide as Hf; [|done]. intros [= <-]. split; [done|]. intros u Hu.
  destruct (told r u) as [ip|] eqn:E; [|done]. exfalso.
  assert (ip ∈ (∅ : gset IpAddr)) as []%not_elem_of_empty.
  rewrite <-Hf. apply elem_of_list_to_set, list_elem_of_omap. by exists u.
Qed.

Lemma resolver_ips_ok r ext : resolver_ips r = Ok ext ->
  ext <> ∅ /\ forall ip, ip ∈ ext <-> exists u, u ∈ rs_ip_endpoints r /\ told r u = Some ip.
Proof.
  unfold resolver_ips, external_ips. case_bool_decide as Hf; [done|]. intros [= <-]. split; [done|].
  intros ip. by rewrite elem_of_list_to_set, list_elem_of_omap.
Qed.

(** The resolver of a run: the broker's own where it has one, and otherwise a
    new one, with the deadline of the query and the default endpoints. *)
Definition runs_with (q : FindQuery) (r : Resolver) : Prop :=
  injected = Some r \/
  (injected = None /\ exists dns, hickory = Ok (Ok dns) /\
     r = {| rs_dns := dns; rs_client := http; rs_timeout := q_timeout q; rs_ip_endpoints := DEFAULT_IP_ENDPOINTS |}).

(** A resolver that cannot be made, with what the error says. *)
Definition no_resolver (m : bytes) : Prop :=
  injected = None /\
  ((exists e, hickory = Err e /\ m = bs "dns resolver init: " ++ e) \/
   (exists e, hickory = Ok (Err e) /\ m = bs "dns resolver build: " ++ e)).

Lemma resolver_for_cases q :
  match resolver_for injected hickory http (q_timeout q) with
  | Ok r => runs_with q r
  | Err e => exists m, e = Config m /\ no_resolver m
  end.
Proof.
  unfold resolver_for, Resolver_new, runs_with, no_resolver. destruct injected as [r|]; [by left|].
  destruct hickory as [[dns|e]|e]; [right; eauto|eexists; split; [done|]; eauto..].
Qed.

Lemma pool_is_empty_spec pool : pool_is_empty pool = true <-> forall s, bucket pool s = [].
Proof.
  unfold pool_is_empty. rewrite !andb_true_iff, !bool_decide_eq_true. split.
  - intros [[? ?] ?] []; done.
  - intros Hb. split; [split|]; [apply (Hb JHttp)|apply (Hb JHttps)|apply (Hb JSmtp)].
Qed.

(** The judges a run with these external addresses finds. *)
Definition judges_for (r : Resolver) (q : FindQuery) (ext : gset IpAddr) : JudgePool :=
  probe_all (resolver_dns r) get ext draws
    (omap (Judge_parse url_parse)
       (if bool_decide (q_judges q = []) then default_judges else q_judges q)).

(** The checker carries the query's own settings. *)
Definition as_requested (q : FindQuery) (k : Checker) : Prop :=
  requested k = q_types q /\ timeout k = q_timeout q /\ retry k = q_retry q /\ post k = q_post q /\
  strict k = q_strict q /\ relaxed_validity k = q_relaxed_validity q /\ dnsbl k = q_dnsbl q /\
  trust_check k = (q_trust_check q || q_require_trusted q).

(** A checker with verified judges, or, when there is none, with the target of
    the liveness URL. *)
Lemma Checker_new_cases r q ext :
  q_types q <> [] ->
  match Checker_new (resolver_dns r) url_parse get draws (checker_config q) ext with
  | Ok k => as_requested q k /\ real_ext_ips k = ext /\ judges k = judges_for r q ext /\
      match mode k with
      | Judged => exists s, bucket (judges_for r q ext) s <> []
      | Liveness t => (forall s, bucket (judges_for r q ext) s = []) /\
          exists u, q_liveness_url q = Some u /\ liveness_resolve (resolver_dns r) url_parse u = Some t
      end
  | Err e => e = NoJudges /\ (forall s, bucket (judges_for r q ext) s = []) /\
      (forall u, q_liveness_url q = Some u -> liveness_resolve (resolver_dns r) url_parse u = None)
  end.
Proof.
  intros Ht. unfold Checker_new. simpl. rewrite bool_decide_false by done. fold (judges_for r q ext).
  pose proof (pool_is_empty_spec (judges_for r q ext)) as Hp.
  destruct (pool_is_empty (judges_for r q ext)) eqn:Ep.
  - assert (forall s, bucket (judges_for r q ext) s = []) as Hb by by apply Hp.
    destruct (q_liveness_url q) as [u|] eqn:Eu; simpl; [|by split_and!].
    destruct (liveness_resolve (resolver_dns r) url_parse u) as [t|] eqn:El;
      simpl; [by split_and!; eauto|].
    split_and!; [done..|]. by intros ? [= <-].
  - simpl. split_and!; try done. destruct (jp_http (judges_for r q ext)) eqn:E1; [|exists JHttp; simpl; by rewrite E1].
    destruct (jp_https (judges_for r q ext)) eqn:E2; [|exists JHttps; simpl; by rewrite E2].
    destruct (jp_smtp (judges_for r q ext)) eqn:E3; [|exists JSmtp; simpl; by rewrite E3].
    exfalso. assert (false = true) as [=]. apply Hp. by intros [].
Qed.

(** C23.  Everything that can stop a run does so before any work is spawned, and
    each error says what it means: no types means none was requested; a
    configuration error means that the broker has no resolver of its own and
    the DNS library could not make one, and carries its words; an unknown
    external address means that no endpoint of the resolver answered with one;
    no judges means that no judge, configured or default, verified and that no
    liveness URL was given or it does not resolve.  Otherwise the run starts
    with a checker with the settings of the query, whose external addresses are
    exactly those the endpoints told, either with at least one verified judge
    or in liveness mode. *)
Theorem start_run_exact q :
  match start_run injected hickory http url_parse get draws q with
  | Err NoTypes => q_types q = []
  | Err (Config m) => q_types q <> [] /\ no_resolver m
  | Err ExtIpUnknown =>
      q_types q <> [] /\ exists r, runs_with q r /\ forall u, u ∈ rs_ip_endpoints r -> told r u = None
  | Err NoJudges =>
      q_types q <> [] /\ exists r ext, runs_with q r /\ resolver_ips r = Ok ext /\
        (forall s, bucket (judges_for r q ext) s = []) /\
        (forall u, q_liveness_url q = Some u -> liveness_resolve (resolver_dns r) url_parse u = None)
  | Err _ => False
  | Ok k =>
      q_types q <> [] /\ exists r, runs_with q r /\ as_requested q k /\ real_ext_ips k <> ∅ /\
      (forall ip, ip ∈ real_ext_ips k <-> exists u, u ∈ rs_ip_endpoints r /\ told r u = Some ip) /\
      judges k = judges_for r q (real_ext_ips k) /\
      match mode k with
      | Judged => exists s, bucket (judges k) s <> []
      | Liveness t => (forall s, bucket (judges k) s = []) /\
          exists u, q_liveness_url q = Some u /\ liveness_resolve (resolver_dns r) url_parse u = Some t
      end
  end.
Proof.
  unfold start_run, build_checker. case_bool_decide as Ht; [done|].
  pose proof (resolver_for_cases q) as Hr. destruct (resolver_for _ _ _ _) as [r|e]; cbn [mbind result_bind];
    [|by destruct Hr as (m & -> & Hm)].
  destruct (resolver_ips r) as [ext|e] eqn:Ee; cbn [mbind result_bind];
    [|apply resolver_ips_err in Ee as [-> Hu]; eauto].
  pose proof (resolver_ips_ok _ _ Ee) as [Hne Hips]. pose proof (Checker_new_cases r q ext Ht) as Hk.
  destruct (Checker_new _ _ _ _ _ _) as [k|e].
  - destruct Hk as (Ha & <- & Hj & Hm). rewrite <-Hj in Hm. split; [done|]. by exists r.
  - destruct Hk as (-> & Hb & Hl). split; [done|]. by exists r, ext.
Qed.
End Starting.

Section Pipeline.
Context (limit : option nat) (caps : CapsFilter) (checked : Proxy -> bool -> Proxy -> Prop).

Notation run_step := (run_step limit caps checked).
Notation reachable := (reachable limit caps checked).

Definition is_sending (t : Task) : bool := match t with Sending _ _ => true | _ => false end.
Definition sending (r : Run) : nat := length (List.filter is_sending (tasks r)).
Definition checking (r : Run) : nat := length (List.filter (fun t => negb (is_sending t)) (tasks r)).

(** A proxy that may be emitted: some input's check said so, and it passes the
    filter. *)
Definition emittable (ps : list Proxy) (q : Proxy) : Prop :=
  passes caps q = true /\ exists p, p ∈ ps /\ checked p true q.

Definition task_ok (ps : list Proxy) (t : Task) : Prop :=
  match t with
  | Checking p => p ∈ ps
  | Sending q _ => emittable ps q
  end.

Record run_inv (ps : list Proxy) (max_conn : nat) (r : Run) : Prop := {
  inv_permits : permits r + length (tasks r) = max_conn;
  inv_slots : length (output r) + sending r <= sent r;
  inv_limit : forall l, limit = Some l -> length (output r) + sending r <= l;
  inv_tasks : Forall (task_ok ps) (tasks r);
  inv_output : Forall (emittable ps) (output r);
  inv_inputs : Forall (fun p => p ∈ ps) (source r ++ option_list (pending r));
  inv_once : total (stats r) + checking r + length (source r ++ option_list (pending r)) <= length ps;
  inv_counted : length (output r) + sending r <= total (stats r);
  inv_pending : accepting r = false -> pending r = None;
  inv_stats : stats r = collect (observed r);
}.

Lemma sending_mid ts1 t ts2 :
  length (List.filter is_sending (ts1 ++ t :: ts2)) =
  length (List.filter is_sending (ts1 ++ ts2)) + (if is_sending t then 1 else 0).
Proof. rewrite !List.filter_app, !length_app. simpl. destruct (is_sending t); simpl; lia. Qed.

Lemma checking_mid ts1 t ts2 :
  length (List.filter (fun t => negb (is_sending t)) (ts1 ++ t :: ts2)) =
  length (List.filter (fun t => negb (is_sending t)) (ts1 ++ ts2)) + (if is_sending t then 0 else 1).
Proof. rewrite !List.filter_app, !length_app. simpl. destruct (is_sending t); simpl; lia. Qed.

Lemma length_mid {A} (ts1 : list A) t ts2 : length (ts1 ++ t :: ts2) = S (length (ts1 ++ ts2)).
Proof. rewrite !length_app. simpl. lia. Qed.

Lemma limit_false n l : limit = Some l -> is_limit_reached n limit = false -> n < l.
Proof. intros ->. unfold is_limit_reached; simpl. apply Nat.leb_gt. Qed.

Lemma collect_snoc ps p : collect (ps ++ [p]) = record p (collect ps).
Proof. unfold collect. by rewrite foldl_app. Qed.

Lemma run_inv_start ps n : run_inv ps n (start ps n).
Proof.
  constructor; cbn; rewrite ?app_nil_r; try done; try constructor; try (unfold checking; cbn; lia).
  by apply Forall_forall.
Qed.

Ltac use_tasks E :=
  rewrite ?E, ?sending_mid, ?checking_mid, ?length_mid, ?Forall_mid in *;
  cbn [is_sending task_ok negb] in *.

Lemma run_inv_step ps n r r' : run_inv ps n r -> run_step r r' -> run_inv ps n r'.
Proof.
  intros [Ip Is Il It Io Ii Ic In Ie Iq] Hs. unfold sending, checking in *.
  destruct Hs as [r Ha Hp Hsrc|r p ps' Ha Hp Hsrc Hc|r p ps' Ha Hp Hsrc Hc|r p k Hp Hk
    |r p ts1 ts2 Hc Ht|r p w q ts1 ts2 Ht Hck|r q m ts1 ts2 Ht|r Ho].
  - rewrite Hp, Hsrc in *. constructor; cbn; auto.
  - rewrite Hp, Hsrc in *. cbn [option_list] in *. rewrite app_nil_r in *.
    apply Forall_cons in Ii as [_ Ii]. constructor; cbn; rewrite ?app_nil_r; auto.
    unfold checking; cbn in *. lia.
  - rewrite Hp, Hsrc in *. cbn [option_list] in *. rewrite app_nil_r in *.
    apply Forall_cons in Ii as [Ih Ii]. constructor; cbn; auto.
    + apply Forall_app. by repeat constructor.
    + unfold checking; cbn in *. rewrite length_app; simpl. lia.
    + done.
  - rewrite Hp in *. apply Forall_app in Ii as [Isrc Ih]. apply Forall_cons in Ih as [Ih _].
    constructor; cbn; unfold sending, checking; cbn; rewrite ?app_nil_r; auto.
    + rewrite length_app. simpl. lia.
    + rewrite List.filter_app, length_app; simpl. lia.
    + intros l Hl. rewrite List.filter_app, length_app; simpl. specialize (Il l Hl). lia.
    + apply Forall_app. by repeat constructor.
    + rewrite List.filter_app, length_app. rewrite length_app in Ic. simpl in *. lia.
    + rewrite List.filter_app, length_app; simpl. lia.
  - use_tasks Ht. destruct It as [_ It]. constructor; cbn; unfold sending, checking; cbn; auto; try lia.
    intros l Hl. specialize (Il l Hl). lia.
  - use_tasks Ht. destruct It as [Hpin It]. unfold after_check.
    assert (record q (stats r) = collect (observed r ++ [q])) as Iq' by by rewrite collect_snoc, Iq.
    destruct (w && passes caps q) eqn:Ew.
    + apply andb_true_iff in Ew as [-> Ew].
      assert (emittable ps q) as Hem by (split; [done|eauto]).
      destruct (is_limit_reached _ limit) eqn:Elim; constructor; cbn in *; unfold sending, checking; cbn; auto;
        rewrite ?sending_mid, ?checking_mid, ?length_mid, ?Forall_mid; cbn [is_sending]; auto; try lia.
      * intros l Hl. specialize (Il l Hl). lia.
      * intros l Hl. pose proof (limit_false _ _ Hl Elim). lia.
    + constructor; cbn; unfold sending, checking; cbn; auto; try lia.
      intros l Hl. specialize (Il l Hl). lia.
  - use_tasks Ht. destruct It as [Hem It]. unfold after_send.
    assert (Forall (emittable ps) (output r ++ [q])) as Io'.
    { apply Forall_app. split; [done|]. by constructor. }
    destruct (channel_open r); constructor; cbn; unfold sending, checking; cbn;
      rewrite ?length_app in *; cbn [length] in *; auto; try lia;
      intros l Hl; specialize (Il l Hl); lia.
  - constructor; cbn; auto.
Qed.

Lemma run_inv_reachable ps n r : reachable ps n r -> run_inv ps n r.
Proof. induction 1; [apply run_inv_start|by eapply run_inv_step]. Qed.

(** C12.  A run keeps its bounds in every interleaving: at no point are more
    proxies emitted than the limit, nor more checks in flight than [max_conn];
    every emitted proxy is the outcome of a working check of one of the inputs
    and passes the capability filter; the statistics are those of the
    results the observer saw, never more than there are inputs, and every
    emitted proxy has been counted in them first. *)
Theorem run_bounds ps max_conn r :
  reachable ps max_conn r ->
  (forall l, limit = Some l -> length (output r) <= l) /\
  length (tasks r) <= max_conn /\
  (forall q, q ∈ output r -> passes caps q = true /\ exists p, p ∈ ps /\ checked p true q) /\
  stats r = collect (observed r) /\
  length (output r) <= total (stats r) <= length ps.
Proof.
  intros [Ip Is Il It Io Ii Ic In Ie Iq]%run_inv_reachable. split_and!.
  - intros l Hl. specialize (Il l Hl). lia.
  - lia.
  - intros q Hq. rewrite Forall_forall in Io. by apply Io.
  - done.
  - lia.
  - lia.
Qed.

(** ** The run ends *)

Definition measure (r : Run) : nat :=
  4 * length (source r) + 3 * length (option_list (pending r)) + 2 * checking r + sending r
  + (if accepting r then 1 else 0) + (if channel_open r then 1 else 0).

Lemma step_decreases r r' : run_step r r' -> measure r' < measure r.
Proof.
  unfold measure, sending, checking.
  destruct 1 as [r Ha Hp Hsrc|r p ps' Ha Hp Hsrc Hc|r p ps' Ha Hp Hsrc Hc|r p k Hp Hk
    |r p ts1 ts2 Hc Ht|r p w q ts1 ts2 Ht Hck|r q m ts1 ts2 Ht|r Ho]; cbn.
  - rewrite Ha, Hp, Hsrc. cbn. lia.
  - rewrite Ha, Hp, Hsrc. cbn. lia.
  - rewrite Ha, Hp, Hsrc. cbn. lia.
  - rewrite Hp, !List.filter_app, !length_app. simpl. lia.
  - rewrite Ht, sending_mid, checking_mid. simpl. lia.
  - rewrite Ht, sending_mid, checking_mid. unfold after_check.
    destruct (_ && _); [destruct (is_limit_reached _ _)|]; cbn;
      rewrite ?sending_mid, ?checking_mid; simpl; lia.
  - rewrite Ht, sending_mid, checking_mid. unfold after_send.
    destruct (channel_open r) eqn:Eo; cbn; rewrite ?Eo; lia.
  - rewrite Ho. lia.
Qed.

Lemma tasks_cases (ts : list Task) : ts <> [] ->
  exists ts1 t ts2, ts = ts1 ++ t :: ts2.
Proof. destruct ts as [|t ts]; [done|]. intros _. by exists [], t, ts. Qed.

Lemma step_exists ps max_conn r :
  0 < max_conn -> (forall p, exists w q, checked p w q) ->
  reachable ps max_conn r -> finished r = false -> exists r', run_step r r'.
Proof.
  intros Hm Hck Hr Hf. pose proof (run_inv_reachable _ _ _ Hr) as [Ip _ _ _ _ _ _ _ Ie _].
  destruct (decide (tasks r = [])) as [Ht|Ht].
  - destruct (pending r) as [p|] eqn:Ep.
    + destruct (permits r) as [|k] eqn:Ek; [rewrite Ht in Ip; simpl in Ip; lia|].
      eexists. by eapply R_spawn.
    + destruct (accepting r) eqn:Ea.
      * destruct (source r) as [|p ps'] eqn:Es; [eexists; by eapply R_exhausted|].
        destruct (cancelled r || is_limit_reached (sent r) limit) eqn:Ec;
          eexists; [by eapply R_stop|by eapply R_pull].
      * unfold finished in Hf. rewrite Ea, Ep, Ht in Hf. by rewrite !bool_decide_true in Hf.
  - destruct (tasks_cases _ Ht) as (ts1 & t & ts2 & E). destruct t as [p|q n].
    + destruct (Hck p) as (w & q & Hw). eexists. by eapply R_checked.
    + eexists. by eapply R_sent.
Qed.

Lemma reachable_rtc ps n r r' : reachable ps n r -> rtc run_step r r' -> reachable ps n r'.
Proof. intros Hr Hs. revert Hr. induction Hs; intros; [done|]. apply IHHs. by econstructor. Qed.

Lemma nsteps_bound ps n k r : nsteps run_step k (start ps n) r -> k + measure r <= 4 * length ps + 2.
Proof.
  revert r. induction k as [|k IH]; intros r Hn.
  - inversion Hn; subst. unfold measure, checking, sending; simpl. lia.
  - apply nsteps_inv_r in Hn as (r0 & Hn & Hs). apply IH in Hn. apply step_decreases in Hs. lia.
Qed.

Lemma run_completes ps n m r :
  0 < n -> (forall p, exists w q, checked p w q) -> reachable ps n r -> measure r < m ->
  exists r', rtc run_step r r' /\ finished r' = true.
Proof.
  intros Hn Hck. revert r. induction m as [|m IH]; intros r Hr Hm; [lia|].
  destruct (finished r) eqn:Ef; [exists r; split; [apply rtc_refl|done]|].
  destruct (step_exists ps n r Hn Hck Hr Ef) as (r1 & Hs).
  destruct (IH r1) as (r2 & Hr2 & Hf); [by econstructor|apply step_decreases in Hs; lia|].
  exists r2. split; [by eapply rtc_l|done].
Qed.

(** C13.  A run always ends: with at least one permit, no run over [n] inputs
    takes more than [4 * n + 2] steps, a run that is not over can always take
    a step, whatever has happened so far, and from every state it can get to it
    reaches the end, where the loop has stopped, no proxy waits for a permit
    and every task has been waited for; with the consumer reading to the end
    or dropping the stream at any point. *)
Theorem run_terminates ps max_conn r k :
  0 < max_conn -> (forall p, exists w q, checked p w q) ->
  nsteps run_step k (start ps max_conn) r ->
  k <= 4 * length ps + 2 /\
  (finished r = false -> exists r', run_step r r') /\
  exists r', rtc run_step r r' /\ finished r' = true.
Proof.
  intros Hm Hck Hn. pose proof (nsteps_bound _ _ _ _ Hn).
  assert (reachable ps max_conn r) as Hr.
  { eapply reachable_rtc; [apply reach_start|]. apply rtc_nsteps. by exists k. }
  split_and!; [lia|intros; by eapply step_exists|].
  by apply (run_completes ps max_conn (S (measure r)) r); [| |done|lia].
Qed.

(** ** What a run read to its end has done *)

Definition sends (ts : list Task) : list Proxy :=
  omap (fun t => match t with Sending q _ => Some q | Checking _ => None end) ts.
Definition todo (ts : list Task) : list Proxy :=
  omap (fun t => match t with Checking p => Some p | Sending _ _ => None end) ts.

(** Checks that answer the same every time: [verdict p] is the answer for [p]. *)
Context (verdict : Proxy -> bool * Proxy) (checked_verdict : forall p w q, checked p w q -> verdict p = (w, q)).

Definition emitted (p : Proxy) : option Proxy :=
  let '(w, q) := verdict p in if w && passes caps q then Some q else None.

Definition result_of (p : Proxy) : Proxy := (verdict p).2.

(** The inputs whose check has not ended. *)
Definition unchecked (r : Run) : list Proxy := todo (tasks r) ++ option_list (pending r) ++ source r.

Definition numbered (n : nat) (t : Task) : Prop :=
  match t with Sending _ m => m < n | Checking _ => True end.

Record progress (ps : list Proxy) (r : Run) : Prop := {
  pr_slots : length (output r) + length (sends (tasks r)) =
             match limit with Some l => min (sent r) l | None => sent r end;
  pr_cancel : cancelled r = true -> is_limit_reached (sent r) limit = true;
  pr_nums : Forall (numbered (sent r)) (tasks r);
  pr_all : is_limit_reached (sent r) limit = false ->
    (accepting r = false -> source r = []) /\
    output r ++ sends (tasks r) ++ omap emitted (unchecked r) ≡ₚ omap emitted ps /\
    observed r ++ (result_of <$> unchecked r) ≡ₚ result_of <$> ps;
}.

Lemma limit_reached_mono n m : n <= m -> is_limit_reached n limit = true -> is_limit_reached m limit = true.
Proof. unfold is_limit_reached. destruct limit; simpl; rewrite ?Nat.leb_le; [lia|done]. Qed.

Lemma limit_reached_false_min n : is_limit_reached n limit = false ->
  match limit with Some l => min n l | None => n end = n /\
  match limit with Some l => min (S n) l | None => S n end = S n.
Proof. unfold is_limit_reached. destruct limit; cbn [from_option]; rewrite ?Nat.leb_gt; intros; lia. Qed.

Lemma progress_start ps n : progress ps (start ps n).
Proof.
  constructor; cbn; [by destruct limit|done|constructor|]. intros _. by split_and!.
Qed.

#[local] Arguments sends : simpl never.
#[local] Arguments todo : simpl never.
#[local] Arguments Nat.min : simpl never.

Lemma sends_checking p ts1 ts2 : sends (ts1 ++ Checking p :: ts2) = sends (ts1 ++ ts2).
Proof. unfold sends. by rewrite !omap_app. Qed.
Lemma sends_sending q m ts1 ts2 : sends (ts1 ++ Sending q m :: ts2) ≡ₚ q :: sends (ts1 ++ ts2).
Proof. unfold sends. rewrite !omap_app. simpl. by rewrite Permutation_middle. Qed.
Lemma todo_checking p ts1 ts2 : todo (ts1 ++ Checking p :: ts2) ≡ₚ p :: todo (ts1 ++ ts2).
Proof. unfold todo. rewrite !omap_app. simpl. by rewrite Permutation_middle. Qed.
Lemma todo_sending q m ts1 ts2 : todo (ts1 ++ Sending q m :: ts2) = todo (ts1 ++ ts2).
Proof. unfold todo. by rewrite !omap_app. Qed.
Lemma sends_app ts1 ts2 : sends (ts1 ++ ts2) = sends ts1 ++ sends ts2.
Proof. apply omap_app. Qed.
Lemma todo_app ts1 ts2 : todo (ts1 ++ ts2) = todo ts1 ++ todo ts2.
Proof. apply omap_app. Qed.

Lemma channel_was_open r r' : run_step r r' -> channel_open r' = true -> channel_open r = true.
Proof.
  destruct 1 as [| | | | |r p w q ts1 ts2 Ht Hck|r q m ts1 ts2 Ht|]; try done.
  - unfold after_check. destruct (_ && _); [destruct (is_limit_reached _ _)|]; done.
  - unfold after_send. by destruct (channel_open r) eqn:Eo; cbn; rewrite ?Eo.
Qed.

Lemma numbered_mono n m ts : n <= m -> Forall (numbered n) ts -> Forall (numbered m) ts.
Proof. intros Hn Hts. eapply Forall_impl; [exact Hts|]. intros []; simpl; lia. Qed.

(** The inputs and the answers after a check, with its own place taken out. *)
Lemma unchecked_mid ps r p w q ts1 ts2 :
  progress ps r -> tasks r = ts1 ++ Checking p :: ts2 -> checked p w q ->
  is_limit_reached (sent r) limit = false ->
  let rest := todo (ts1 ++ ts2) ++ option_list (pending r) ++ source r in
  (output r ++ sends (ts1 ++ ts2)) ++ (if w && passes caps q then [q] else []) ++ omap emitted rest
    ≡ₚ omap emitted ps /\
  (observed r ++ [q]) ++ (result_of <$> rest) ≡ₚ result_of <$> ps.
Proof using checked_verdict.
  intros [_ _ _ Ia] Ht Hck%checked_verdict Hl. destruct (Ia Hl) as (_ & Hp & Hc).
  unfold unchecked in Hp, Hc. rewrite Ht, sends_checking, todo_checking in Hp.
  rewrite Ht, todo_checking in Hc. cbn zeta. split.
  2:{ rewrite <-Hc. cbn. unfold result_of at 2. rewrite Hck. solve_Permutation. }
  assert (emitted p = if w && passes caps q then Some q else None) as Ep.
  { unfold emitted. by rewrite Hck. }
  rewrite <-Hp. cbn. rewrite Ep. destruct (w && _); simpl; solve_Permutation.
Qed.

Lemma progress_checked ps r p w q ts1 ts2 :
  progress ps r -> tasks r = ts1 ++ Checking p :: ts2 -> checked p w q ->
  progress ps (after_check limit caps w q ts1 ts2 r).
Proof using checked_verdict.
  intros Hr Ht Hck. pose proof (unchecked_mid _ _ _ _ _ _ _ Hr Ht Hck) as Hmid. cbn zeta in Hmid.
  destruct Hr as [Il Ic In Ia]. rewrite Ht in *. rewrite sends_checking in Il.
  apply Forall_mid in In as [_ In].
  unfold after_check. cbn.
  destruct (w && passes caps q); [destruct (is_limit_reached (sent r) limit) eqn:El|]; constructor; cbn; auto.
  - unfold is_limit_reached in El. destruct limit; cbn in *; [|done]. apply Nat.leb_le in El. lia.
  - intros _. eapply limit_reached_mono; [|done]. lia.
  - eapply numbered_mono; [|done]. lia.
  - intros El'. apply (limit_reached_mono _ (S (sent r))) in El; [congruence|lia].
  - pose proof (limit_reached_false_min _ El). rewrite sends_sending. cbn. lia.
  - intros Hc. by apply Ic in Hc.
  - apply Forall_mid. split; [simpl; lia|]. eapply numbered_mono; [|done]. lia.
  - intros _. destruct (Ia eq_refl) as (Ha & _). destruct (Hmid eq_refl) as [Hp Hc]. split; [done|].
    unfold unchecked; cbn. rewrite todo_sending, sends_sending. split; [|done].
    rewrite <-Hp. cbn. solve_Permutation.
  - intros El. destruct (Ia El) as (Ha & _). destruct (Hmid El) as [Hp Hc]. split; [done|].
    unfold unchecked; cbn. split; [|done]. rewrite <-Hp. cbn. solve_Permutation.
Qed.

Lemma progress_sent ps r q m ts1 ts2 :
  progress ps r -> tasks r = ts1 ++ Sending q m :: ts2 -> channel_open r = true ->
  progress ps (after_send limit q m ts1 ts2 r).
Proof.
  intros [Il Ic In Ia] Ht Ho. unfold after_send. rewrite Ho. unfold unchecked in Ia. rewrite Ht in *.
  rewrite todo_sending in Ia. rewrite sends_sending in Il, Ia. apply Forall_mid in In as [Hm In].
  constructor; cbn; auto.
  - rewrite length_app. cbn in *. lia.
  - intros [Hc|Hc]%orb_true_iff; [by apply Ic|]. eapply limit_reached_mono; [|done]. exact Hm.
  - intros El. destruct (Ia El) as (Ha & Hp & Hc). split; [done|]. split; [|done].
    rewrite <-Hp. unfold unchecked; cbn. solve_Permutation.
Qed.

Lemma progress_step ps r r' :
  progress ps r -> run_step r r' -> channel_open r' = true -> progress ps r'.
Proof using checked_verdict.
  intros Hr Hs Ho. pose proof (channel_was_open _ _ Hs Ho) as Hor.
  destruct Hs as [r Ha Hp Hsrc|r p ps' Ha Hp Hsrc Hc|r p ps' Ha Hp Hsrc Hc|r p k Hp Hk
    |r p ts1 ts2 Hc Ht|r p w q ts1 ts2 Ht Hck|r q m ts1 ts2 Ht|r Hop];
    [| | | | |by eapply progress_checked|by eapply progress_sent|done];
    destruct Hr as [Il Ic In Ia]; unfold unchecked in *; constructor; cbn; auto.
  - rewrite Hp, Hsrc in Ia. unfold unchecked; cbn. intros El. by destruct (Ia El).
  - intros El. rewrite El, orb_false_r in Hc. rewrite (Ic Hc) in El. done.
  - rewrite Hp, Hsrc in Ia. unfold unchecked; cbn. intros El. destruct (Ia El). by split.
  - by rewrite sends_app, app_nil_r.
  - apply Forall_app. by repeat constructor.
  - rewrite Hp in Ia. unfold unchecked; cbn. intros El. destruct (Ia El) as (Ha & Hpm & Hcn).
    rewrite sends_app, todo_app, app_nil_r. cbn in *.
    change (todo [Checking p]) with [p]. split; [done|]. by rewrite <-!app_assoc.
  - rewrite Ht in Il. by rewrite sends_checking in Il.
  - rewrite Ht in In. by apply Forall_mid in In as [_ In].
  - intros El. rewrite (Ic Hc) in El. done.
Qed.

Lemma progress_reachable ps n r : reachable ps n r -> channel_open r = true -> progress ps r.
Proof using checked_verdict.
  induction 1 as [|r r' Hr IH Hs]; intros Ho; [apply progress_start|].
  eapply progress_step; [|done..]. by apply IH, (channel_was_open _ _ Hs).
Qed.

(** A run that was read to its end and not stopped by its limit has done it all. *)
Lemma finished_progress ps max_conn r :
  reachable ps max_conn r -> finished r = true -> channel_open r = true ->
  if is_limit_reached (sent r) limit then limit = Some (length (output r))
  else output r ≡ₚ omap emitted ps /\ observed r ≡ₚ result_of <$> ps /\ length (output r) = sent r.
Proof using checked_verdict.
  intros Hr Hf Ho. pose proof (progress_reachable _ _ _ Hr Ho) as [Il Ic In Ia].
  unfold finished in Hf. rewrite !andb_true_iff, !bool_decide_eq_true in Hf.
  destruct Hf as [[Ha%negb_true_iff Hp] Ht]. unfold unchecked in Ia. rewrite Ht, Hp in *.
  change (sends []) with (@nil Proxy) in *. change (todo []) with (@nil Proxy) in *. cbn in *.
  destruct (is_limit_reached (sent r) limit) eqn:El.
  - unfold is_limit_reached in El. destruct limit as [l|]; cbn in *; [|done].
    apply Nat.leb_le in El. f_equal. lia.
  - destruct (Ia eq_refl) as (Hs & Hpm & Hcn). rewrite (Hs Ha) in *. cbn in *.
    rewrite app_nil_r in Hpm, Hcn. split_and!; [done..|].
    destruct limit as [l|]; [|lia]. apply Nat.leb_gt in El. lia.
Qed.

(** C11.  A run that the consumer reads to its end does all it was asked: either
    the limit is reached, and then exactly that many proxies came out, or every
    input was checked exactly once, the observer saw every result and the
    statistics are those of these results, and the output is, in some order,
    exactly the results that are working and pass the capability filter. *)
Theorem run_complete ps max_conn r :
  reachable ps max_conn r -> finished r = true -> channel_open r = true ->
  limit = Some (length (output r)) \/
  (output r ≡ₚ omap emitted ps /\ observed r ≡ₚ result_of <$> ps /\
   stats r = collect (observed r) /\
   forall l, limit = Some l -> length (output r) < l).
Proof using checked_verdict.
  intros Hr Hf Ho. pose proof (finished_progress _ _ _ Hr Hf Ho) as Hp.
  pose proof (inv_stats _ _ _ (run_inv_reachable _ _ _ Hr)) as Hst.
  destruct (is_limit_reached (sent r) limit) eqn:El; [by left|right].
  destruct Hp as (? & ? & ->). split_and!; [done..|]. intros l Hl. exact (limit_false _ _ Hl El).
Qed.

(** Without permits the first proxy pulled waits for ever: only dropping the
    stream can still happen. *)
Lemma no_permits_stall ps r p :
  reachable ps 0 r -> pending r = Some p ->
  finished r = false /\ forall r', run_step r r' -> r' = close_channel r.
Proof.
  intros Hr Hp. pose proof (run_inv_reachable _ _ _ Hr) as [Ip _ _ _ _ _ _ _ _ _].
  assert (tasks r = []) as Ht by (apply length_zero_iff_nil; lia).
  split.
  - unfold finished. rewrite (bool_decide_false (pending r = None)) by congruence.
    by rewrite andb_false_r.
  - intros r' Hs. destruct Hs as [r Ha Hp' Hsrc|r x ps' Ha Hp' Hsrc Hc|r x ps' Ha Hp' Hsrc Hc|r x k Hp' Hk
      |r x ts1 ts2 Hc Ht'|r x w q ts1 ts2 Ht' Hck|r q m ts1 ts2 Ht'|r Ho]; try congruence.
    + lia.
    + rewrite Ht in Ht'. by destruct ts1.
    + rewrite Ht in Ht'. by destruct ts1.
    + rewrite Ht in Ht'. by destruct ts1.
Qed.
End Pipeline.

(** ** A concrete run *)

Definition any_caps : CapsFilter :=
  {| f_cookie := false; f_referer := false; f_connect25 := false; f_trusted := false |}.
Definition all_work (p : Proxy) (w : bool) (q : Proxy) : Prop := w = true /\ q = p.
Definition sample (port : N) : Proxy := Proxy_new (V4 10 0 0 1) port ∅.

(** Two inputs, one permit, a limit of one: the first is pulled, checked and
    sent. *)
Definition sample_run : Run :=
  after_send (Some 1) (sample 81) 0 [] []
    (after_check (Some 1) any_caps true (sample 81) [] []
       (set_tasks 0 [Checking (sample 81)] (set_loop [sample 82] None true
          (set_loop [sample 82] (Some (sample 81)) true (start [sample 81; sample 82] 1))))).

Lemma sample_steps :
  nsteps (run_step (Some 1) any_caps all_work) 4 (start [sample 81; sample 82] 1) sample_run.
Proof.
  eapply nsteps_l; [by eapply (R_pull _ _ _ _ (sample 81) [sample 82])|].
  eapply nsteps_l; [by apply (R_spawn _ _ _ _ (sample 81) 0)|].
  eapply nsteps_l; [by apply (R_checked _ _ _ _ (sample 81) true (sample 81) [] [])|].
  eapply nsteps_l; [by apply (R_sent _ _ _ _ (sample 81) 0 [] [])|].
  constructor.
Qed.

Lemma run_bounds_witness :
  output sample_run = [sample 81] /\ length (output sample_run) <= 1.
Proof.
  split; [reflexivity|].
  refine (proj1 (run_bounds (Some 1) any_caps all_work [sample 81; sample 82] 1 sample_run _) 1 eq_refl).
  eapply reachable_rtc; [apply reach_start|]. apply rtc_nsteps. exists 4. apply sample_steps.
Defined.

Lemma run_terminates_witness :
  4 <= 4 * 2 + 2 /\
  (finished sample_run = false -> exists r', run_step (Some 1) any_caps all_work sample_run r') /\
  exists r', rtc (run_step (Some 1) any_caps all_work) sample_run r' /\ finished r' = true.
Proof.
  apply (run_terminates (Some 1) any_caps all_work [sample 81; sample 82] 1 sample_run 4).
  - lia.
  - intros p. by exists true, p.
  - apply sample_steps.
Defined.

(** One working input, no limit, read to the end. *)
Definition full_run : Run :=
  set_loop [] None false
    (after_send None (sample 81) 0 [] []
      (after_check None any_caps true (sample 81) [] []
         (set_tasks 0 [Checking (sample 81)] (set_loop [] None true
            (set_loop [] (Some (sample 81)) true (start [sample 81] 1)))))).

Lemma full_steps : nsteps (run_step None any_caps all_work) 5 (start [sample 81] 1) full_run.
Proof.
  eapply nsteps_l; [by eapply (R_pull _ _ _ _ (sample 81) [])|].
  eapply nsteps_l; [by apply (R_spawn _ _ _ _ (sample 81) 0)|].
  eapply nsteps_l; [by apply (R_checked _ _ _ _ (sample 81) true (sample 81) [] [])|].
  eapply nsteps_l; [by apply (R_sent _ _ _ _ (sample 81) 0 [] [])|].
  eapply nsteps_l; [by apply R_exhausted|]. constructor.
Qed.

Lemma full_reachable : reachable None any_caps all_work [sample 81] 1 full_run.
Proof. eapply reachable_rtc; [apply reach_start|]. apply rtc_nsteps. exists 5. apply full_steps. Qed.

Lemma run_complete_witness :
  output full_run = [sample 81] /\
  (None = Some (length (output full_run)) \/
   (output full_run ≡ₚ omap (emitted any_caps (fun p => (true, p))) [sample 81] /\
    observed full_run ≡ₚ result_of (fun p => (true, p)) <$> [sample 81] /\
    stats full_run = collect (observed full_run) /\ forall l, None = Some l -> length (output full_run) < l)).
Proof.
  split; [reflexivity|].
  apply (run_complete None any_caps all_work (fun p => (true, p)) (fun p w q H => f_equal2 pair (eq_sym (proj1 H)) (eq_sym (proj2 H)))
           [sample 81] 1 full_run); [apply full_reachable|reflexivity|reflexivity].
Defined.

(** Two providers whose pages overlap, in the two orders their fetches can end. *)
Definition sample_provider (u : bytes) : ProviderSpec := ProviderSpec_new u [Http].
Definition sample_page (s : ProviderSpec) : option bytes :=
  Some (if bool_decide (url s = bs "a") then bs "10.0.0.1:80" else bs "10.0.0.1:80 10.0.0.2:81").
Definition sample_specs : list ProviderSpec := [sample_provider (bs "a"); sample_provider (bs "b")].
Definition sample_batches : list (list Candidate) :=
  @fetch AsciiOnly (fun _ => None) sample_page <$> sample_specs.

Lemma find_any_order_witness :
  let source := @find_source AsciiOnly None None FindQuery_default in
  (addr <$> source sample_batches) ≡ₚ (addr <$> source (reverse sample_batches)) /\
  NoDup (addr <$> source sample_batches) /\
  forall a, a ∈ addr <$> source sample_batches <->
    @wanted_host AsciiOnly None None (@uppercase_set AsciiOnly (q_countries FindQuery_default)) a.1 = true /\
    exists spec body c, spec ∈ sample_specs /\ sample_page spec = Some body /\
      c ∈ @extract AsciiOnly (fun _ => None) spec body /\
      parse_ip (cand_host c) = Some a.1 /\ cand_port c = a.2.
Proof.
  intros source.
  apply (@find_any_order AsciiOnly None None (fun _ => None) sample_page sample_specs FindQuery_default
           sample_batches (reverse sample_batches)).
  - unfold fetched. reflexivity.
  - unfold fetched. by rewrite reverse_Permutation.
Defined.

(** It is not vacuous: both addresses are there. *)
Example sample_found :
  addr <$> @find_source AsciiOnly None None FindQuery_default sample_batches =
  [(V4 10 0 0 1, 80%N); (V4 10 0 0 2, 81%N)].
Proof. vm_compute. reflexivity. Qed.

(** A database that was given is attached even by a builder that was told not to
    attach any, whichever call came last. *)
Lemma without_geo_ignored {Client Resolv GeoDb Observer} registry (cl : Client) bundled
    (calls : list (BuilderCall Client Resolv GeoDb)) (db : GeoDb) :
  br_geo _ _ _ Observer (broker_build _ _ _ Observer registry cl bundled
    (foldl (builder_call _ _ _) (BrokerBuilder_default _ _ _) (calls ++ [CallGeo _ _ _ db; CallWithoutGeo _ _ _])))
  = Some db.
Proof. rewrite foldl_app. by destruct (foldl _ _ calls). Qed.
