(* ===== verification/WellFormed.v ===== *)
(** * Well-formed proxies

    The values the Rust types of a proxy can hold, as a predicate on the model's
    records: addresses of four octets or eight groups, 16-bit ports, 32-bit
    counters, trust signals without repetition.  Every way a proxy comes about
    gives a well-formed one and every operation on it keeps it so; a run
    therefore only ever handles well-formed proxies. *)

From stdpp Require Import base list gmap strings relations.
From Stdlib Require Import Ascii NArith ZArith Lia.
From S2P Require Import Prelude Bytes Text Float Net NetProofs Utils Io Types ProxyModel Negotiator ProxyJson.
From S2P Require Import Resolver Parse Provider Pool Judge Checker CheckerProofs Stats Broker BrokerProofs.

(** ** The address parsers are typed *)

Lemma p_number_max radix md zp max s n r : p_number radix md zp max s = Some (n, r) -> (n <= max)%N.
Proof.
  unfold p_number. destruct (digit_run radix s) as [ds r']. repeat (destruct (_ : bool); [done|]).
  destruct (_ <=? _)%N eqn:E; [|done]. intros [= <- _]. by apply N.leb_le.
Qed.

Lemma p_separator_inner {A} sep i (p : reader A) s a r :
  p_separator sep i p s = Some (a, r) -> exists s', p s' = Some (a, r).
Proof.
  unfold p_separator. destruct i; [eauto|]. destruct (p_given sep s) as [[[] s']|]; [|done]. eauto.
Qed.

Lemma p_octet_max i s n r : p_separator "." i p_octet s = Some (n, r) -> (n <= 255)%N.
Proof. intros [s' H]%p_separator_inner. by apply p_number_max in H. Qed.

Lemma p_ipv4_wf s ip r : p_ipv4 s = Some (ip, r) -> ip_wf ip /\ exists a b c d, ip = V4 a b c d.
Proof.
  unfold p_ipv4. intros H.
  destruct (p_separator "." 0 p_octet s) as [[a s1]|] eqn:E1; [|done]. cbn [mbind option_bind] in H.
  destruct (p_separator "." 1 p_octet s1) as [[b s2]|] eqn:E2; [|done]. cbn [mbind option_bind] in H.
  destruct (p_separator "." 2 p_octet s2) as [[c s3]|] eqn:E3; [|done]. cbn [mbind option_bind] in H.
  destruct (p_separator "." 3 p_octet s3) as [[d s4]|] eqn:E4; [|done]. injection H as <- <-.
  split; [|eauto]. apply p_octet_max in E1, E2, E3, E4. done.
Qed.

(** Groups are 16-bit values, and there are never more than were wanted. *)
Lemma p_groups_wf n i limit s gs v r :
  i + n = limit -> p_groups n i limit s = (gs, v, r) ->
  length gs <= n /\ Forall (fun g => g <= 65535)%N gs.
Proof.
  revert i s gs v r. induction n as [|n IH]; intros i s gs v r Hn; cbn [p_groups].
  { by intros [= <- _ _]. }
  set (v4 := if bool_decide (S i < limit) then _ else _).
  assert (match v4 with Some (V4 a b c d, _) => ip_wf (V4 a b c d) /\ 1 <= n | _ => True end) as Hv.
  { unfold v4. case_bool_decide; [|done]. destruct (p_separator _ _ _ _) as [[ip r']|] eqn:E; [|done].
    apply p_separator_inner in E as (s' & E%p_ipv4_wf). destruct ip; [|done].
    split; [by destruct E|lia]. }
  clearbody v4.
  assert (forall res, (match p_separator ":" i (p_number 16 (Some 4) true 65535) s with
          | Some (g, r0) => let '(gs0, v0, r') := p_groups n (S i) limit r0 in (g :: gs0, v0, r')
          | None => ([], false, s)
          end) = res -> length res.1.1 <= S n /\ Forall (fun g => g <= 65535)%N res.1.1) as Hrest.
  { intros res <-. destruct (p_separator _ _ _ _) as [[g r0]|] eqn:E; [|split; [simpl; lia|constructor]].
    apply p_separator_inner in E as (s' & E%p_number_max).
    destruct (p_groups n (S i) limit r0) as [[gs0 v0] r'] eqn:Eg. apply IH in Eg as [? ?]; [|lia]. simpl.
    split; [lia|by constructor]. }
  destruct v4 as [[[a b c d|] r1]|]; intros H; [|by apply Hrest in H..].
  destruct Hv as [(? & ? & ? & ?) ?]. injection H as <- _ _. simpl.
  split; [lia|]. repeat constructor; lia.
Qed.

Lemma p_ipv6_wf s ip r : p_ipv6 s = Some (ip, r) -> ip_wf ip.
Proof.
  unfold p_ipv6. destruct (p_groups 8 0 8 s) as [[hd v] s1] eqn:E.
  apply p_groups_wf in E as [Hl Hf]; [|done]. case_bool_decide as H8.
  { by intros [= <- _]. }
  destruct v; [done|]. intros H.
  destruct (p_given ":" s1) as [[[] s2]|]; [|done]. cbn [mbind option_bind] in H.
  destruct (p_given ":" s2) as [[[] s3]|]; [|done]. cbn [mbind option_bind] in H.
  destruct (p_groups (8 - (length hd + 1)) _ _ s3) as [[tl v'] s4] eqn:E.
  apply p_groups_wf in E as [Hl' Hf']; [|done]. injection H as <- _. split.
  - rewrite !length_app, length_replicate. lia.
  - rewrite !Forall_app. split_and!; [done| |done]. apply Forall_replicate. lia.
Qed.

Lemma parse_ip_wf s ip : parse_ip s = Some ip -> ip_wf ip.
Proof.
  unfold parse_ip, parse_all, p_ip. intros H. destruct (p_ipv4 s) as [[ip' r]|] eqn:E4.
  - destruct r; [|done]. injection H as ->. by apply p_ipv4_wf in E4 as [].
  - destruct (p_ipv6 s) as [[ip' r]|] eqn:E6; [|done]. destruct r; [|done]. injection H as ->.
    by eapply p_ipv6_wf.
Qed.

Lemma parse_octets_wf l os : parse_octets l = Some os -> Forall (fun n => n <= 255)%N os.
Proof.
  unfold parse_octets. intros H%mapM_Some. induction H as [|s n l os Hn _ IH]; constructor; [|done].
  by apply parse_u8_bound in Hn.
Qed.

Lemma parse_ip_lenient_wf h ip : parse_ip_lenient h = Some ip -> ip_wf ip.
Proof.
  unfold parse_ip_lenient. case_bool_decide; [done|].
  destruct (parse_ip h) as [ip'|] eqn:E; [intros [= <-]; by eapply parse_ip_wf|].
  destruct (_ && _); [|done]. destruct (_ =? 4); [|done].
  destruct (parse_octets _) as [[|a [|b [|c [|d []]]]]|] eqn:Eo; try done. intros [= <-].
  apply parse_octets_wf in Eo. by repeat (apply Forall_cons in Eo as [? Eo]).
Qed.

(** ** Well-formed proxies *)

Record proxy_wf (p : Proxy) : Prop := {
  wf_key : key_wf (key_of p);
  wf_requests : (requests p <= u32_max)%N;
  wf_errors : map_Forall (fun _ n => n <= u32_max)%N (errors p);
  wf_signals : NoDup (signals (trust p));
}.

Lemma Proxy_new_wf h pt ex : key_wf (h, pt) -> proxy_wf (Proxy_new h pt ex).
Proof.
  intros Hk. constructor; [exact Hk|unfold u32_max; simpl; lia|apply map_Forall_empty|constructor].
Qed.

Lemma record_attempt_wf rt e p : proxy_wf p -> proxy_wf (record_attempt rt e p).
Proof.
  intros [Hk Hr He Hs]. constructor; [exact Hk|apply wrap32_range| |exact Hs].
  intros e' n. rewrite record_attempt_errors. case_bool_decide; [|apply He].
  intros [= <-]. apply wrap32_range.
Qed.

Lemma set_types_wf ts p : proxy_wf p -> proxy_wf (set_types ts p).
Proof. by intros []. Qed.

Lemma set_public_wf ex g a p : proxy_wf p -> proxy_wf (set_public ex g a p).
Proof. by intros []. Qed.

Lemma record_trust_wf r p : proxy_wf p -> proxy_wf (record_trust r p).
Proof.
  intros [Hk Hr He Hs]. constructor; [done..|].
  by apply (proj1 (push_signals_spec (signals r) (signals (trust p)))).
Qed.

Lemma record_working_wf proto rtt o p : proxy_wf p -> proxy_wf (record_working proto rtt o p).
Proof.
  intros Hp. unfold record_working. apply record_trust_wf.
  by destruct (record_attempt_wf (Some rtt) None p Hp).
Qed.

Lemma restored_wf k ts reqs errs avg :
  key_wf k -> (reqs <= u32_max)%N -> (errs <= u32_max)%N -> proxy_wf (restored k.1 k.2 ts reqs errs avg).
Proof.
  intros Hk Hr He. constructor; [by destruct k|done| |constructor]. simpl.
  case_match; [by apply map_Forall_singleton|apply map_Forall_empty].
Qed.

#[export] Hint Resolve Proxy_new_wf record_attempt_wf set_types_wf set_public_wf record_trust_wf
  record_working_wf : pb.

(** ** Where proxies come from *)

Lemma attach_geo_wf geo_db asn_db p : proxy_wf p -> proxy_wf (attach_geo geo_db asn_db p).
Proof. intros Hp. unfold attach_geo. destruct geo_db, asn_db; auto with pb. Qed.

Lemma key_wf_intro h pt : ip_wf h -> (pt <= u16_max)%N -> key_wf (h, pt).
Proof. by split. Qed.

Lemma parse_proxy_lines_wf `{Unicode} text : Forall proxy_wf (parse_proxy_lines text).
Proof.
  apply Forall_forall. intros p (pair & _ & Hp)%list_elem_of_omap. unfold line_proxy in Hp.
  destruct (parse_ip_lenient pair.1) as [ip|] eqn:E1; [|done].
  destruct (parse_u16 pair.2) as [port|] eqn:E2; [|done]. injection Hp as <-.
  apply Proxy_new_wf, key_wf_intro; [by eapply parse_ip_lenient_wf|by eapply parse_uint_bound].
Qed.

Lemma extract_ports `{Unicode} engine spec body c :
  c ∈ extract engine spec body -> (cand_port c <= u16_max)%N.
Proof.
  intros [(pair & _ & Hc)%list_elem_of_omap _]%(proj2 (dedup_by_spec cand_key _ ∅)). unfold candidate_of in Hc.
  destruct (parse_u16 pair.2) as [port|] eqn:E; [|done]. cbn [mbind option_bind] in Hc.
  destruct (_ =? _)%N; [done|]. destruct (canonicalize_ip _); [|done]. cbn [mbind option_bind] in Hc.
  destruct (from_option _ _ _); [done|]. injection Hc as <-. by eapply parse_uint_bound.
Qed.

Lemma gathered_wf `{Unicode} geo_db asn_db cs cands :
  Forall (fun c => cand_port c <= u16_max)%N cands -> Forall proxy_wf (gathered geo_db asn_db cs cands).
Proof.
  intros Hc. apply Forall_forall. intros p Hp. unfold gathered in Hp.
  rewrite list_elem_of_In, filter_In, <-list_elem_of_In in Hp. destruct Hp as [(q & -> & Hq)%list_elem_of_fmap _].
  apply attach_geo_wf. apply first_by_addr_sub, list_elem_of_omap in Hq as (c & Hin & Hq).
  unfold as_proxy in Hq. destruct (parse_ip (cand_host c)) as [h|] eqn:Eh; [|done]. injection Hq as <-.
  apply Proxy_new_wf, key_wf_intro; [by eapply parse_ip_wf|]. rewrite Forall_forall in Hc. by apply Hc.
Qed.

Lemma find_source_wf `{Unicode} engine geo_db asn_db q fetch_body specs batches :
  fetched engine fetch_body specs batches -> Forall proxy_wf (find_source geo_db asn_db q batches).
Proof.
  intros Hb. rewrite find_source_gathered. apply gathered_wf, Forall_forall.
  intros c (l & Hc & Hl)%list_elem_of_join. unfold fetched in Hb. rewrite Hb in Hl.
  apply list_elem_of_fmap in Hl as (spec & -> & _). unfold fetch in Hc.
  destruct (fetch_body spec) as [body|]; [|by apply not_elem_of_nil in Hc]. by eapply extract_ports.
Qed.

Lemma check_source_wf `{Unicode} geo_db asn_db q ps :
  Forall proxy_wf ps -> Forall proxy_wf (check_source geo_db asn_db q ps).
Proof.
  intros Hps. apply Forall_forall. intros p Hp. unfold check_source in Hp.
  rewrite list_elem_of_In, filter_In, <-list_elem_of_In in Hp. destruct Hp as [(q' & -> & Hq)%list_elem_of_fmap _].
  apply attach_geo_wf. rewrite Forall_forall in Hps. by apply Hps.
Qed.

Lemma result_bind_Ok {E A B} (m : result E A) (k : A -> result E B) b :
  (x ← m; k x) = Ok b -> exists a, m = Ok a /\ k a = Ok b.
Proof. destruct m; [eauto|done]. Qed.

Lemma de_raw_port j raw : de_raw j = Ok raw -> (raw_port raw <= u16_max)%N.
Proof.
  unfold de_raw. intros (fs & _ & H)%result_bind_Ok.
  destruct fs as [|h [|pt [|g [|a [|ts [|]]]]]]; try done.
  apply result_bind_Ok in H as (h' & _ & H). apply result_bind_Ok in H as (pt' & Hpt & H).
  apply result_bind_Ok in H as (g' & _ & H). apply result_bind_Ok in H as (a' & _ & H).
  apply result_bind_Ok in H as (ts' & _ & H). injection H as <-. cbn [raw_port].
  destruct pt as [v|]; [|done]. unfold required, de_uint in Hpt. destruct v; try done.
  destruct (_ <=? _)%N eqn:E in Hpt; [|done]. injection Hpt as <-. by apply N.leb_le.
Qed.

Lemma deserialize_wf j p : deserialize j = Ok p -> proxy_wf p.
Proof.
  unfold deserialize. intros (raw & Hraw & H)%result_bind_Ok.
  apply result_bind_Ok in H as (h & Hh & H). apply result_bind_Ok in H as (ts & _ & H). injection H as <-.
  destruct (parse_ip (raw_host raw)) as [ip|] eqn:E; [|done]. injection Hh as ->.
  apply set_public_wf, set_types_wf, Proxy_new_wf, key_wf_intro; [by eapply parse_ip_wf|by eapply de_raw_port].
Qed.

(** ** What a check leaves of a property *)

Section Checks.
Context `{Unicode} (dns : dns_client) (clients : Clients) (gunzip inflate : bytes -> option bytes).
Context (powi : f64 -> nat -> f64).

(** The answers of the modelled checker, whatever the check meets. *)
Definition checked_by (k : Checker) (p : Proxy) (w : bool) (q : Proxy) : Prop :=
  exists env, check dns clients gunzip inflate powi k env p = Some (w, q).

Context (P : Proxy -> Prop).
Context (P_attempt : forall rt e p, P p -> P (record_attempt rt e p)).
Context (P_working : forall proto rtt o p, P p -> P (record_working proto rtt o p)).
Context (P_remove : forall pr p, P p -> P (remove_type pr p)).

Lemma check_loop_preserves k envs proto pr t left i p r q ds :
  check_loop clients gunzip inflate powi k envs proto pr t left i p = Some (r, q, ds) -> P p -> P q.
Proof using P_attempt P_working.
  revert i p r q ds. induction left as [|left IH]; intros i p r q ds; cbn [check_loop]; [by intros [= _ <- _]|].
  destruct (attempt _ _ _ _ _ _ _ _) as [[o|]|e]; [intros [= _ <- _]; auto..|].
  destruct (_ && _); [|intros [= _ <- _]; auto].
  destruct (backoff_for _ _ _ _) as [d|]; [|done]. cbn [mbind option_bind].
  destruct (check_loop _ _ _ _ _ _ _ _ _ _ _ _) as [[[r' q'] ds']|] eqn:E; [|done].
  intros [= _ <- _] Hp. apply IH in E; auto.
Qed.

Lemma check_preserves k env p w q :
  check dns clients gunzip inflate powi k env p = Some (w, q) -> P p -> P q.
Proof using P_attempt P_working P_remove.
  unfold check. destruct (_ && _); [by intros [= _ <-]|]. intros H1 Hp.
  assert (forall l acc, (forall a p', acc = Some (a, p') -> P p') ->
    forall a p', foldl (check_step clients gunzip inflate powi k env) acc l = Some (a, p') -> P p') as Hfold.
  { induction l as [|proto l IH]; intros acc Hacc a p'; simpl; [by apply Hacc|].
    apply IH. intros a1 p1. destruct acc as [[a0 p0]|]; [|done]. cbn [check_step mbind option_bind].
    unfold check_one. destruct (probe_target _ _ _) as [[pr t]|]; [|intros [= _ <-]; by eapply Hacc].
    destruct (check_loop _ _ _ _ _ _ _ _ _ _ _ _) as [[[r' q'] ds']|] eqn:E; [|done].
    intros [= _ <-]. eapply check_loop_preserves; [exact E|]. by eapply Hacc. }
  destruct (foldl _ _ _) as [[a p']|] eqn:E; [|done]. injection H1 as H1.
  apply Hfold in E; [|by intros ? ? [= _ <-]]. destruct a; [|by injection H1 as _ <-].
  unfold types_passed in H1. case_bool_decide; [by injection H1 as _ <-|].
  destruct (negb _ && _); [by injection H1 as _ <-|]. injection H1 as _ <-.
  generalize (if strict k then (List.filter (fun t => negb (level_matches k t.1 t.2)) (types_entries p')).*1 else []).
  intros l. clear - E P_remove. revert p' E. induction l as [|pr l IH]; intros p' E; simpl; auto.
Qed.
End Checks.

(** ** Runs *)

(** The proxies a run holds, wherever they are. *)
Definition task_proxy (t : Task) : Proxy := match t with Checking p | Sending p _ => p end.
Definition held (r : Run) : list Proxy :=
  source r ++ option_list (pending r) ++ (task_proxy <$> tasks r) ++ output r ++ observed r.

Lemma run_preserves limit caps (checked : Proxy -> bool -> Proxy -> Prop) (P : Proxy -> Prop) ps n r :
  (forall p w q, checked p w q -> P p -> P q) ->
  Forall P ps -> reachable limit caps checked ps n r -> Forall P (held r).
Proof.
  intros Hck Hps Hr. induction Hr as [|r r' Hr IH Hs].
  { unfold held, start; cbn. by rewrite !app_nil_r. }
  clear Hr Hps. unfold held in *. rewrite !Forall_app in IH. destruct IH as (Is & Ip & It & Io & Ib).
  destruct Hs as [r Ha Hp Hsrc|r p ps' Ha Hp Hsrc Hc|r p ps' Ha Hp Hsrc Hc|r p k Hp Hk
    |r p ts1 ts2 Hc Ht|r p w q ts1 ts2 Ht Hc|r q m ts1 ts2 Ht|r Ho]; rewrite !Forall_app; cbn in *;
    rewrite ?Hp, ?Hsrc, ?Ht, ?fmap_app, ?fmap_cons, ?Forall_app, ?Forall_cons in *; cbn in *.
  - by rewrite ?Forall_nil.
  - destruct Is as [_ Is]. by rewrite ?Forall_nil.
  - destruct Is as [Ix Is]. by rewrite ?Forall_cons, ?Forall_nil.
  - rewrite Forall_cons in Ip. destruct Ip as [Ip _]. rewrite ?Forall_nil. by split_and!.
  - destruct It as (It1 & _ & It2). by split_and!.
  - destruct It as (It1 & Itp & It2). specialize (Hck _ _ _ Hc Itp).
    unfold after_check. destruct (w && passes caps q); [destruct (is_limit_reached _ limit)|]; cbn;
      rewrite ?fmap_app, ?fmap_cons, ?Forall_app, ?Forall_cons, ?Forall_nil; by split_and!.
  - destruct It as (It1 & Itp & It2). unfold after_send. destruct (channel_open r); cbn;
      rewrite ?fmap_app, ?Forall_app, ?Forall_cons, ?Forall_nil; by split_and!.
  - by split_and!.
Qed.

Lemma spawn_wf `{Unicode} ps cfg :
  Forall proxy_wf ps -> Forall (fun e => proxy_wf (proxy e)) (state (spawn ps cfg)).
Proof.
  intros Hps. unfold spawn, import, set_exhausted. cbn [state].
  assert (forall w, Forall (fun e => proxy_wf (proxy e)) (state w) ->
    Forall (fun e => proxy_wf (proxy e)) (state (foldl (fun w p => import (Some p) w) w ps))) as Hf.
  { induction Hps as [|p ps Hp _ IH]; intros w Hw; simpl; [done|]. apply IH.
    destruct (country_ok _ _); [|done]. apply Forall_app. split; [done|]. by apply Forall_singleton. }
  apply Hf. constructor.
Qed.

(** What the two kinds of runs check: proxies of the fetched pages, or of a
    text given by the user. *)
Inductive run_input `{Unicode} (geo_db : option (IpAddr -> option Country))
    (asn_db : option (IpAddr -> option Asn)) (q : FindQuery) : list Proxy -> Prop :=
  | Input_find engine fetch_body specs batches :
      fetched engine fetch_body specs batches -> run_input geo_db asn_db q (find_source geo_db asn_db q batches)
  | Input_check text :
      run_input geo_db asn_db q (check_source geo_db asn_db q (parse_proxy_lines text)).

(** C15.  Only well-formed proxies, at addresses that were asked for: at every
    moment of every run of [find] or [check], every proxy the run holds (still
    to be checked, in a task, emitted or reported to the observer) is within
    the ranges of its Rust type and lists no trust signal twice, and a check
    never turns a proxy into one at another address; the pool filled from the
    run's stream inherits this.  A proxy read back from JSON is well-formed
    whatever the text held. *)
Theorem runs_well_formed `{Unicode} dns clients gunzip inflate powi k geo_db asn_db q ps n r :
  run_input geo_db asn_db q ps ->
  reachable (q_limit q) (from_query q) (checked_by dns clients gunzip inflate powi k) ps n r ->
  Forall (fun p => proxy_wf p /\ key_of p ∈ key_of <$> ps) (held r) /\
  (forall cfg, Forall (fun e => proxy_wf (proxy e)) (state (spawn (output r) cfg))) /\
  (forall j p, deserialize j = Ok p -> proxy_wf p).
Proof.
  intros Hin Hr.
  assert (Forall proxy_wf ps) as Hps.
  { destruct Hin; [by eapply find_source_wf|by apply check_source_wf, parse_proxy_lines_wf]. }
  assert (Forall (fun p => proxy_wf p /\ key_of p ∈ key_of <$> ps) (held r)) as Hh.
  { eapply run_preserves; [| |exact Hr].
    - intros p w p' [env He] Hp.
      refine (check_preserves dns clients gunzip inflate powi
                (fun p => proxy_wf p /\ key_of p ∈ key_of <$> ps) _ _ _ k env p w p' He Hp).
      + intros rt e p0 [? ?]. auto with pb.
      + intros proto rtt o p0 [? ?]. auto with pb.
      + intros pr p0 [? ?]. split; [by apply set_types_wf|done].
    - apply Forall_forall. intros p Hp. split; [by eapply Forall_forall in Hps|].
      apply list_elem_of_fmap. eauto. }
  split_and!; [done| |apply deserialize_wf]. intros cfg. apply spawn_wf.
  unfold held in Hh. rewrite !Forall_app in Hh. destruct Hh as (_ & _ & _ & Ho & _).
  eapply Forall_impl; [exact Ho|]. by intros p [? _].
Qed.

(** ** A concrete run *)

Definition sample_text : bytes := bs "1.2.3.4:8080".
Definition sample_query : FindQuery := FindQuery_default.

Definition sample_inputs : list Proxy :=
  @check_source AsciiOnly None None sample_query (@parse_proxy_lines AsciiOnly sample_text).

Definition sample_checked_by : Proxy -> bool -> Proxy -> Prop :=
  @checked_by AsciiOnly (fun _ => None) no_clients no_inflate no_inflate plain_powi (sample_checker true).

Definition sample_answer : bool * Proxy :=
  default (false, sample_candidate)
    (@check AsciiOnly (fun _ => None) no_clients no_inflate no_inflate plain_powi (sample_checker true)
       {| judge_draw := fun _ => 0; attempt_env := fun _ => sample_check_env |} sample_candidate).

Definition sample_wf_run : Run :=
  after_check (q_limit sample_query) (from_query sample_query) true sample_answer.2 [] []
    (set_tasks 0 [Checking sample_candidate] (set_loop [] None true
       (set_loop [] (Some sample_candidate) true (start [sample_candidate] 1)))).

(** The check answers that the proxy works. *)
Example sample_answer_works : sample_answer.1 = true /\ sample_inputs = [sample_candidate].
Proof. vm_compute. done. Qed.

Lemma sample_wf_reachable :
  reachable (q_limit sample_query) (from_query sample_query) sample_checked_by sample_inputs 1 sample_wf_run.
Proof.
  rewrite (proj2 sample_answer_works).
  eapply reach_step; [eapply reach_step; [eapply reach_step; [apply reach_start|]|]|].
  - by eapply (R_pull _ _ _ _ sample_candidate []).
  - by apply (R_spawn _ _ _ _ sample_candidate 0).
  - apply (R_checked _ _ _ _ sample_candidate true sample_answer.2 [] []); [done|].
    exists {| judge_draw := fun _ => 0; attempt_env := fun _ => sample_check_env |}.
    vm_compute. reflexivity.
Qed.

Lemma runs_well_formed_witness :
  Forall (fun p => proxy_wf p /\ key_of p ∈ key_of <$> sample_inputs) (held sample_wf_run) /\
  (forall cfg, Forall (fun e => proxy_wf (proxy e)) (state (@spawn AsciiOnly (output sample_wf_run) cfg))) /\
  (forall j p, deserialize j = Ok p -> proxy_wf p).
Proof.
  apply (@runs_well_formed AsciiOnly (fun _ => None) no_clients no_inflate no_inflate plain_powi
           (sample_checker true) None None sample_query sample_inputs 1 sample_wf_run).
  - apply (@Input_check AsciiOnly None None sample_query sample_text).
  - exact sample_wf_reachable.
Defined.
