(* ===== verification/Server.v ===== *)
(** * The local proxy server: [src/server.rs] (requests, relaying, control)

    Parsing a client's first request (HTTP forward, CONNECT, SOCKS5), the
    credential gate, the control API, the relay of one request through one
    proxy, and the retry loop of [handle_client] over the pool.  The byte pump
    of an established tunnel ([tokio::io::copy_bidirectional]), the dialling of
    a proxy and the DNS client are parameters. *)

From stdpp Require Import base list gmap strings.
From Stdlib Require Import Ascii NArith ZArith Lia.
From S2P Require Import Prelude Bytes Text Float Net Utils Io Types ProxyModel Negotiator Resolver Pool.

(** ** Data *)

Inductive Frontend : Type := HttpForward | HttpConnect | FSocks5.

#[export] Instance frontend_eq_dec : EqDecision Frontend.
Proof. solve_decision. Defined.

Record ClientRequest := {
  scheme : Scheme;
  frontend : Frontend;
  req_host : bytes;
  req_port : N;
  raw : bytes;
  proxy_auth : option bytes;
  path : bytes;
}.

Record AuthExpect := { user : bytes; pass : bytes; basic : bytes }.

(** The expectation [serve] computes once from its [user:pass] argument. *)
Definition auth_expect (up : bytes) : AuthExpect :=
  let '(u, p) := default (up, []) (split_once (bs ":") up) in
  {| user := u; pass := p; basic := bs "Basic " ++ base64_encode up |}.

(** ** Header editing *)

(** [raw.windows(2).position(|w| w == CRLF)]: as a split around the first CRLF. *)
Definition inject_header (r header_line : bytes) : bytes :=
  match split_once crlf r with
  | Some (l, rest) => l ++ crlf ++ header_line ++ rest
  | None => r
  end.

Definition header_prefix (name : bytes) : bytes := to_ascii_lowercase name ++ bs ":".

Definition is_header (name line : bytes) : bool :=
  starts_with (header_prefix name) (to_ascii_lowercase (from_utf8_lossy line)).

(** The loop over the CRLF-terminated lines; [fuel] is the length of the text. *)
Fixpoint strip_lines (fuel : nat) (name : bytes) (first : bool) (rest : bytes) : bytes :=
  match fuel with
  | 0 => rest
  | S f =>
      match split_once crlf rest with
      | None => rest
      | Some (l, rest') =>
          (if negb first && is_header name l then [] else l ++ crlf)
          ++ strip_lines f name false rest'
      end
  end.

Definition strip_header (r name : bytes) : bytes := strip_lines (length r) name true r.

Definition header_value (r name : bytes) : option bytes :=
  let text := from_utf8_lossy r in
  l ← find (fun l => starts_with (header_prefix name) (to_ascii_lowercase l)) (tail (lines text));
  Some (trim (drop (length name + 1) l)).

(** ** Addresses *)

Definition split_host_port (s : bytes) (dflt : N) : bytes * N :=
  let by_colon :=
    match rsplit_once ":" s with
    | Some (h, p) => if bool_decide (h = []) then (s, dflt) else (h, default dflt (parse_u16 p))
    | None => (s, dflt)
    end in
  match strip_prefix (bs "[") s with
  | Some rest =>
      match split_once (bs "]:") rest with
      | Some (h, p) => (h, default dflt (parse_u16 p))
      | None => match strip_suffix (bs "]") rest with
                | Some h => (h, dflt)
                | None => by_colon
                end
      end
  | None => by_colon
  end.

(** ** Parsing a request *)

Definition REQUEST_MAX : nat := 65536.

Definition http_step (buf : bytes) : option (result unit bytes) :=
  if ends_with (crlf ++ crlf) buf || (REQUEST_MAX <? length buf) then Some (Ok buf) else None.

Definition of_option {A} (o : option A) : IO unit A := fun c => (ok_or tt o, c).

Definition HOST_PREFIX : bytes := bs "host:".

Definition http_request (buf : bytes) : option ClientRequest :=
  let text := from_utf8_lossy buf in
  first ← head (lines text);
  method ← split_whitespace first !! 0;
  uri ← split_whitespace first !! 1;
  let auth := header_value buf (bs "Proxy-Authorization") in
  if eq_ignore_ascii_case method (bs "CONNECT") then
    let '(h, p) := split_host_port uri 443 in
    Some {| scheme := SHttps; frontend := HttpConnect; req_host := h; req_port := p; raw := [];
            proxy_auth := auth; path := uri |}
  else
    let host_hdr :=
      l ← find (fun l => starts_with HOST_PREFIX (to_ascii_lowercase l)) (tail (lines text));
      Some (trim (drop 5 l)) in
    let absolute := rest ← strip_prefix (bs "http://") uri; head (split_on "/" rest) in
    host_port ← match absolute with Some h => Some h | None => host_hdr end;
    let '(h, p) := split_host_port host_port 80 in
    Some {| scheme := SHttp; frontend := HttpForward; req_host := h; req_port := p; raw := buf;
            proxy_auth := auth; path := uri |}.

Definition octets (l : list N) : bytes := byte_of <$> l.

Definition from_be (b : bytes) : N := foldl (fun acc c => acc * 256 + code c)%N 0%N b.

Definition any_failure (f : read_failure) : unit := tt.
Definition read_n (n : nat) : IO unit bytes := read_exact any_failure n.
Definition read_len : IO unit nat := b ← read_n 1; mret (N.to_nat (from_be b)).
Definition write_all (b : bytes) : IO unit unit := write_or tt tt b.
Definition refuse {A} (b : bytes) : IO unit A := _ ← write_ignore b; io_err tt.

(** The groups of an IPv6 address in network order. *)
Fixpoint groups16 (b : bytes) : list N :=
  match b with
  | h :: l :: b' => (code h * 256 + code l)%N :: groups16 b'
  | _ => []
  end.

Definition socks5_auth (expected : option AuthExpect) (methods : bytes) : IO unit unit :=
  match expected with
  | None =>
      if bool_decide (byte_of 0 ∈ methods) then write_all (octets [5; 0]%N)
      else refuse (octets [5; 255]%N)
  | Some e =>
      if bool_decide (byte_of 2 ∈ methods) then
        _ ← write_all (octets [5; 2]%N);
        vu ← read_n 2;
        u ← read_n (N.to_nat (from_be (drop 1 vu)));
        pl ← read_len;
        p ← read_n pl;
        if bool_decide (u = user e /\ p = pass e) then write_all (octets [1; 0]%N)
        else refuse (octets [1; 1]%N)
      else refuse (octets [5; 255]%N)
  end.

Definition socks5_address (atyp : N) : IO unit (bytes * N) :=
  if (atyp =? 1)%N then
    a ← read_n 4; p ← read_n 2;
    mret (match code <$> a with
          | [x; y; z; t] => show_ip (V4 x y z t)
          | _ => []
          end, from_be p)
  else if (atyp =? 4)%N then
    a ← read_n 16; p ← read_n 2;
    mret (show_ip (V6 (groups16 a)), from_be p)
  else if (atyp =? 3)%N then
    l ← read_len; d ← read_n l; p ← read_n 2;
    mret (from_utf8_lossy d, from_be p)
  else refuse (octets [5; 8; 0; 1; 0; 0; 0; 0; 0; 0]%N).

(** The first byte, the version, has been read. *)
Definition parse_socks5_request (expected : option AuthExpect) : IO unit ClientRequest :=
  n ← read_len;
  methods ← read_n n;
  _ ← socks5_auth expected methods;
  hdr ← read_n 4;
  match code <$> hdr with
  | [ver; cmd; _; atyp] =>
      if negb (ver =? 5)%N then io_err tt
      else if negb (cmd =? 1)%N then refuse (octets [5; 7; 0; 1; 0; 0; 0; 0; 0; 0]%N)
      else
        '(h, p) ← socks5_address atyp;
        mret {| scheme := SHttps; frontend := FSocks5; req_host := h; req_port := p; raw := [];
                proxy_auth := None; path := h ++ bs ":" ++ show_N p |}
  | _ => io_err tt
  end.

Definition parse_client_request (expected : option AuthExpect) : IO unit ClientRequest :=
  first ← read_n 1;
  if bool_decide (first = octets [5%N]) then parse_socks5_request expected
  else
    buf ← read_while (fun _ _ => tt) http_step first;
    of_option (http_request buf).

(** ** Decisions *)

Definition pick (types candidates : list Proto) : option Proto :=
  find (fun c => bool_decide (c ∈ types)) candidates.

Definition choose_proto (p : Proxy) (sch : Scheme) : Proto :=
  match sch with
  | SHttps => default Https (pick (types_keys p) [Https; Socks5; Socks4; Connect80])
  | SHttp => default Http (pick (types_keys p) [Http; Connect80; Socks5; Socks4])
  end.

Definition relay_negotiation_proto (pr : Proto) (f : Frontend) : Proto :=
  if bool_decide (pr = Https) && bool_decide (f = HttpConnect \/ f = FSocks5)
  then Connect80 else pr.

Definition terminal_failure (f : Frontend) : bytes :=
  match f with
  | FSocks5 => octets [5; 1; 0; 1; 0; 0; 0; 0; 0; 0]%N
  | _ => bs "HTTP/1.1 502 Bad Gateway" ++ crlf ++ crlf
  end.

Definition client_key (cfg : PoolConfig) (peer_ip : IpAddr) (req : ClientRequest) : ClientKey :=
  if bool_decide (scheme req = SHttp) then
    match n ← sticky_header cfg; header_value (raw req) n with
    | Some v => KeyHeader v
    | None => KeyIp peer_ip
    end
  else KeyIp peer_ip.

Definition parse_http_status (line : bytes) : N :=
  default 0%N (s ← from_utf8 line; c ← split_whitespace s !! 1; parse_u16 c).

Definition request_has_body (r : bytes) : bool :=
  match header_value r (bs "Transfer-Encoding") with
  | Some _ => true
  | None =>
      match header_value r (bs "Content-Length") with
      | Some v => match parse_u64 (trim v) with Some n => (0 <? n)%N | None => true end
      | None => false
      end
  end.

Definition STATUS_MAX : nat := 256.

Definition status_step (line : bytes) : option (result ProxyError bytes) :=
  if ends_with [LF] line || (STATUS_MAX <=? length line) then Some (Ok line) else None.

Definition status_failure (f : read_failure) (_ : bytes) : ProxyError :=
  match f with Eof => EmptyRecv | Failed => Reset | Late => Timeout end.

Definition read_status_line : IO ProxyError bytes := read_while status_failure status_step [].

(** ** Relaying one request *)

Inductive RelayOutcome : Type :=
  | RelayOk
  | RetryableFailure (e : ProxyError)
  | ClientCommitted (e : ProxyError)
  | ClientGone.

Definition proxy_info (p : Proxy) : bytes :=
  bs "X-Proxy-Info: " ++ show_ip (host p) ++ bs ":" ++ show_N (port p) ++ crlf.

Definition connect_ack (p : Proxy) : bytes :=
  bs "HTTP/1.1 200 Connection established" ++ crlf ++ proxy_info p ++ crlf.

Definition socks5_ack : bytes := octets [5; 0; 0; 1; 0; 0; 0; 0; 0; 0]%N.

(** The bytes a forwarded request sends upstream. *)
Definition upstream_request (r : bytes) (creds : option Credentials) : bytes :=
  let sanitized := strip_header r (bs "Proxy-Authorization") in
  match creds with
  | Some c => inject_header sanitized (authorization_line c)
  | None => sanitized
  end.

Definition allowed (codes : option (list N)) (line : bytes) : bool :=
  match codes with
  | Some cs => bool_decide (parse_http_status line ∈ cs)
  | None => true
  end.

(** What the relay did before splicing: it stopped with an outcome, or the
    stream is established. *)
Inductive Prelude_ : Type := Stop (o : RelayOutcome) | Splice (s : Stream).

Section Relay.
Context (clients : Clients).
(** The byte pump: whether it ended well, and what the client was sent. *)
Context (copy_bidirectional : Conn -> Stream -> bool * Conn * Stream).

(** A write to the client whose failure means that the client has gone. *)
Definition ack_client (b : bytes) (s : Stream) (client : Conn) : Prelude_ * Conn :=
  match write b client with
  | (WrOk, client') => (Splice s, client')
  | (_, client') => (Stop ClientGone, client')
  end.

Definition forward (p : Proxy) (req : ClientRequest) (codes : option (list N))
    (s : Stream) (client : Conn) : Prelude_ * Conn :=
  match write (upstream_request (raw req) (auth p)) (stream_conn s) with
  | (WrOk, up) =>
      if request_has_body (raw req) then (Splice (on_stream s up), client)
      else
        match read_status_line up with
        | (Err e, _) => (Stop (RetryableFailure e), client)
        | (Ok line, up') =>
            if allowed codes line
            then ack_client (inject_header line (proxy_info p)) (on_stream s up') client
            else (Stop (RetryableFailure (DisallowedStatus (parse_http_status line))), client)
        end
  | (_, _) => (Stop (RetryableFailure Reset), client)
  end.

Definition relay_setup (dial : dialed) (client : Conn) (p : Proxy) (proto : Proto) (t : Target)
    (req : ClientRequest) (codes : option (list N)) : Prelude_ * Conn :=
  match dial with
  | None => (Stop (RetryableFailure Timeout), client)
  | Some (Err _) => (Stop (RetryableFailure ConnFailed), client)
  | Some (Ok tcp) =>
      match negotiate clients (relay_negotiation_proto proto (frontend req)) t (auth p) tcp with
      | (Err e, _) => (Stop (RetryableFailure e), client)
      | (Ok s, _) =>
          match frontend req with
          | HttpConnect => ack_client (connect_ack p) s client
          | FSocks5 => ack_client socks5_ack s client
          | HttpForward => forward p req codes s client
          end
      end
  end.

Definition relay (dial : dialed) (client : Conn) (p : Proxy) (proto : Proto) (t : Target)
    (req : ClientRequest) (codes : option (list N)) : RelayOutcome * Conn :=
  match relay_setup dial client p proto t req codes with
  | (Stop o, client') => (o, client')
  | (Splice s, client') =>
      let '(fine, client'', _) := copy_bidirectional client' s in
      (if fine then RelayOk else ClientCommitted ErrorOnStream, client'')
  end.
End Relay.

(** ** The control API *)

Definition HISTORY_CAP : nat := 10000.

Definition history_record (key v : bytes) (m : gmap bytes bytes) : gmap bytes bytes :=
  let m := if (HISTORY_CAP <=? size m) && negb (bool_decide (is_Some (m !! key))) then ∅ else m in
  <[key := v]> m.

Definition NO_CONTENT : bytes := bs "HTTP/1.1 204 No Content" ++ crlf ++ crlf.

Definition DQ : bytes := ["034"%char].

Definition history_reply (served : bytes) : bytes :=
  let body := bs "{" ++ DQ ++ bs "proxy" ++ DQ ++ bs ": " ++ DQ ++ served ++ DQ ++ bs "}" ++ crlf in
  bs "HTTP/1.1 200 OK" ++ crlf ++ bs "Content-Type: application/json" ++ crlf
  ++ bs "Content-Length: " ++ show_N (N.of_nat (length body)) ++ crlf
  ++ bs "Access-Control-Allow-Origin: *" ++ crlf
  ++ bs "Access-Control-Allow-Credentials: true" ++ crlf ++ crlf ++ body.

(** The reply, and the pool afterwards. *)
Definition serve_control (req : ClientRequest) (history : gmap bytes bytes) (peer_ip : IpAddr)
    (w : Pool) : bytes * Pool :=
  let rest := trim_start_matches "/"
                (default (path req) (strip_prefix (bs "http://proxycontrol") (path req))) in
  match splitn 3 "/" rest with
  | [_; op; params] =>
      if bool_decide (op = bs "remove") then
        let '(h, p) := split_host_port params 0 in
        (NO_CONTENT, match parse_ip h with Some ip => (remove ip p w).2 | None => w end)
      else if bool_decide (op = bs "history") then
        let u := default [] (strip_prefix (bs "url:") params) in
        (match history !! (show_ip peer_ip ++ bs "-" ++ u) with
         | Some served => history_reply served
         | None => NO_CONTENT
         end, w)
      else (NO_CONTENT, w)
  | _ => (NO_CONTENT, w)
  end.

(** ** One client *)

(** What the program meets during one attempt at a request: what the other tasks
    did to the pool before it asks for a proxy, the script of its wait, the
    outcome of dialling, what the others did to the pool and the history during
    the relay, and the instants of the lease and the return. *)
Record AttemptEnv := {
  before : Pool -> Pool;
  waiting : list Await;
  at_lease : instant;
  dialing : dialed;
  meanwhile : Pool -> Pool;
  elsewhere : gmap bytes bytes -> gmap bytes bytes;
  at_return : instant;
}.

(** The shared state a client's task works on. *)
Record World := { pool : Pool; history : gmap bytes bytes; client : Conn }.

Definition with_pool (p : Pool) (w : World) : World :=
  {| pool := p; history := history w; client := client w |}.
Definition with_client (c : Conn) (w : World) : World :=
  {| pool := pool w; history := history w; client := c |}.
Definition reply (b : bytes) (w : World) : World := with_client (write b (client w)).2 w.

Record ConnCtx := {
  ctx_dns : dns_client;
  ctx_clients : Clients;
  ctx_pump : Conn -> Stream -> bool * Conn * Stream;
  ctx_first_key : gmap ClientKey (IpAddr * N) -> option ClientKey;
  expected_auth : option AuthExpect;
}.

(** [Finished], or still waiting in [Pool::get]. *)
Inductive Progress : Type := Finished (w : World) | Waiting (w : World).

Definition AUTH_REQUIRED : bytes :=
  bs "HTTP/1.1 407 Proxy Authentication Required" ++ crlf
  ++ bs "Proxy-Authenticate: Basic realm=" ++ DQ ++ bs "proxybroker" ++ DQ ++ crlf ++ crlf.

Definition count_rotation (w : Pool) : Pool :=
  set_cursors (round_robin w) (evictions w) (rotations w ⊞₆₄ 1)%pb (rng w) w.

Section Client.
Context (ctx : ConnCtx) (peer_ip : IpAddr).

(** What follows a relay: the bookkeeping, and whether the request is over. *)
Definition after_relay (req : ClientRequest) (p : Proxy) (now : instant) (o : RelayOutcome)
    (w : World) : bool * World :=
  match o with
  | RelayOk =>
      let p' := record_attempt (Some f_zero) None p in
      let h := history_record (show_ip peer_ip ++ bs "-" ++ path req)
                 (show_ip (host p') ++ bs ":" ++ show_N (port p')) (history w) in
      (true, {| pool := put_ok p' (pool w); history := h; client := client w |})
  | RetryableFailure e =>
      (false, with_pool (put_failed now (record_attempt None (Some e) p) (pool w)) w)
  | ClientCommitted e =>
      (true, with_pool (put_failed now (record_attempt None (Some e) p) (pool w)) w)
  | ClientGone =>
      (true, with_pool (put_ok (record_attempt (Some f_zero) None p) (pool w)) w)
  end.

(** The attempts from number [attempt] on, [tries] of them left; [envs] says
    what each one meets. *)
Fixpoint attempts (envs : nat -> AttemptEnv) (tries attempt : nat) (key : ClientKey) (t : Target)
    (req : ClientRequest) (w : World) : Progress :=
  match tries with
  | 0 => Finished (reply (terminal_failure (frontend req)) w)
  | S tries' =>
      let env := envs attempt in
      match get (ctx_first_key ctx) (waiting env) (at_lease env) (scheme req) key (before env (pool w)) with
      | Pending pl => Waiting (with_pool pl w)
      | Returned None pl => Finished (reply (terminal_failure (frontend req)) (with_pool pl w))
      | Returned (Some p) pl =>
          let pl := if 0 <? attempt then count_rotation pl else pl in
          let proto := choose_proto p (scheme req) in
          let '(o, c) := relay (ctx_clients ctx) (ctx_pump ctx) (dialing env) (client w) p proto t req
                           (http_allowed_codes (config pl)) in
          let '(stop, w') := after_relay req p (at_return env) o
                               {| pool := meanwhile env pl; history := elsewhere env (history w); client := c |} in
          if stop then Finished w' else attempts envs tries' (S attempt) key t req w'
      end
  end.

(** Whether the gate lets a parsed request through. *)
Definition admitted (req : ClientRequest) : bool :=
  bool_decide (frontend req = FSocks5)
  || match expected_auth ctx with
     | Some e => bool_decide (proxy_auth req = Some (basic e))
     | None => true
     end.

Definition serve_request (envs : nat -> AttemptEnv) (req : ClientRequest) (w : World) : Progress :=
  if negb (admitted req) then Finished (reply AUTH_REQUIRED w)
  else if bool_decide (req_host req = bs "proxycontrol") then
    let '(answer, pl) := serve_control req (history w) peer_ip (pool w) in
    Finished (reply answer (with_pool pl w))
  else
    let key := client_key (config (pool w)) peer_ip req in
    let t := {| t_host := req_host req; t_ip := ok (resolve (ctx_dns ctx) (req_host req));
                t_port := req_port req |} in
    attempts envs (max_tries (config (pool w))) 0 key t req w.

Definition handle_client (envs : nat -> AttemptEnv) (w : World) : Progress :=
  match parse_client_request (expected_auth ctx) (client w) with
  | (Err _, c) => Finished (with_client c w)
  | (Ok req, c) => serve_request envs req (with_client c w)
  end.
End Client.

(** ** Metrics *)

Definition metric (name help kind : bytes) (samples : list (bytes * bytes)) : bytes :=
  bs "# HELP " ++ name ++ bs " " ++ help ++ [LF]
  ++ bs "# TYPE " ++ name ++ bs " " ++ kind ++ [LF]
  ++ mjoin ((fun s => name ++ s.1 ++ bs " " ++ s.2 ++ [LF]) <$> samples).

Definition scheme_label (v : bytes) : bytes := bs "{scheme=" ++ DQ ++ v ++ DQ ++ bs "}".

Definition render_metrics (w : Pool) : bytes :=
  let s := snapshot w in
  let nat_text n := show_N (N.of_nat n) in
  metric (bs "proxybroker_pool_size") (bs "Proxies currently available in the pool.") (bs "gauge")
    [(scheme_label (bs "http"), nat_text (snap_http s));
     (scheme_label (bs "https"), nat_text (snap_https s))]
  ++ metric (bs "proxybroker_pool_error_rate_avg") (bs "Mean proxy error rate over the pool.")
       (bs "gauge") [([], fmt2 (snap_error_rate s))]
  ++ metric (bs "proxybroker_pool_resp_time_avg_seconds")
       (bs "Mean proxy response time over the pool.") (bs "gauge") [([], fmt2 (snap_resp_time s))]
  ++ metric (bs "proxybroker_pool_probe_latency_avg_seconds")
       (bs "Mean judge-probe latency (check-time) over the pool.") (bs "gauge")
       [([], fmt2 (snap_probe_latency s))]
  ++ metric (bs "proxybroker_evictions_total") (bs "Proxies hard-evicted from the pool.")
       (bs "counter") [([], show_N (evictions w))]
  ++ metric (bs "proxybroker_rotations_total") (bs "Mid-request rotations to a different proxy.")
       (bs "counter") [([], show_N (rotations w))].

Definition metrics_response (w : Pool) : bytes :=
  let body := render_metrics w in
  bs "HTTP/1.1 200 OK" ++ crlf ++ bs "Content-Type: text/plain; version=0.0.4" ++ crlf
  ++ bs "Content-Length: " ++ show_N (N.of_nat (length body)) ++ crlf
  ++ bs "Connection: close" ++ crlf ++ crlf ++ body.
