(* ===== verification/ServerProofs.v ===== *)
(** * What the local server promises: [src/server.rs]

    The commit boundary (a client is answered once), the end of every client's
    task, the credential gate, the
    hygiene of the forwarded head, the status gate, and the request parser's
    exactness and bounds. *)

From stdpp Require Import base list gmap strings.
From Stdlib Require Import Ascii NArith ZArith Lia.
From S2P Require Import Prelude Bytes Text Float Net Utils Io Types ProxyModel Negotiator Resolver.
From S2P Require Import Pool PoolProofs Server.

(** ** The commit boundary *)

Definition retryable (o : RelayOutcome) : bool :=
  match o with RetryableFailure _ => true | _ => false end.

Lemma ack_client_stop b s c o c' : ack_client b s c = (Stop o, c') -> o = ClientGone.
Proof. unfold ack_client. destruct (write b c) as [[] ?]; congruence. Qed.

Lemma relay_setup_retry clients d c p pr t req codes e c' :
  relay_setup clients d c p pr t req codes = (Stop (RetryableFailure e), c') -> c' = c.
Proof.
  unfold relay_setup. intros H.
  destruct d as [[tcp|]|]; [|congruence..].
  destruct (negotiate _ _ _ _ _) as [[s|e1] c1]; [|congruence].
  destruct (frontend req).
  2,3: by apply ack_client_stop in H.
  unfold forward in H. destruct (write _ _) as [[] up]; [|congruence..].
  destruct (request_has_body _); [congruence|].
  destruct (read_status_line up) as [[line|e2] up']; [|congruence].
  destruct (allowed _ _); [by apply ack_client_stop in H|congruence].
Qed.

(** A failure that allows another attempt has not touched the client. *)
Lemma relay_retry clients pump d c p pr t req codes o c' :
  relay clients pump d c p pr t req codes = (o, c') -> retryable o = true -> c' = c.
Proof.
  unfold relay. intros H Ho.
  destruct (relay_setup _ _ _ _ _ _ _ _) as [[o1|s] c1] eqn:E.
  - injection H as -> ->. destruct o; try done. by eapply relay_setup_retry.
  - destruct (pump c1 s) as [[[] c2] s2]; injection H as <- <-; done.
Qed.

Lemma after_relay_client peer req p now o w : client (after_relay peer req p now o w).2 = client w.
Proof. by destruct o. Qed.

Lemma after_relay_stop peer req p now o w : (after_relay peer req p now o w).1 = negb (retryable o).
Proof. by destruct o. Qed.

(** One relay's view of the client, from its connection as the request was
    parsed. *)
Definition one_relay (ctx : ConnCtx) (envs : nat -> AttemptEnv) (bound : nat) (t : Target)
    (req : ClientRequest) (c c' : Conn) : Prop :=
  exists k p codes o, k < bound /\
    relay (ctx_clients ctx) (ctx_pump ctx) (dialing (envs k)) c p
      (choose_proto p (scheme req)) t req codes = (o, c') /\ retryable o = false.

Lemma attempts_once ctx peer envs tries n key t req w w' :
  attempts ctx peer envs tries n key t req w = Finished w' ->
  client w' = (write (terminal_failure (frontend req)) (client w)).2 \/
  one_relay ctx envs (n + tries) t req (client w) (client w').
Proof.
  revert n w. induction tries as [|tries IH]; intros n w; cbn [attempts].
  { intros [= <-]. by left. }
  destruct (get _ _ _ _ _ _) as [[p|] pl|pl]; [|intros [= <-]; by left|done].
  set (pl' := if 0 <? n then count_rotation pl else pl).
  destruct (relay _ _ _ _ _ _ _ _ _) as [o c] eqn:Er.
  match goal with |- context [after_relay ?a ?b ?c ?d ?e ?f] =>
    pose proof (after_relay_client a b c d e f) as Hc;
    pose proof (after_relay_stop a b c d e f) as Hs;
    destruct (after_relay a b c d e f) as [stop w1] end.
  cbn [fst snd client with_client with_pool] in Hc, Hs. subst stop.
  destruct (retryable o) eqn:Eo; cbn [negb].
  - pose proof (relay_retry _ _ _ _ _ _ _ _ _ _ _ Er Eo) as ->.
    intros H. apply IH in H as [H|(k & q & codes & o' & Hk & H)].
    + left. by rewrite H, Hc.
    + right. exists k, q, codes, o'. split; [lia|]. by rewrite <- Hc.
  - intros [= <-]. right. exists n, p, (http_allowed_codes (config pl')), o.
    rewrite Hc. split; [lia|]. split; [exact Er|done].
Qed.

(** C7.  A client is answered once: whatever proxies are tried, what the client
    finally sees is either the failure reply of its own protocol alone, or the
    outcome of exactly one of at most [max_tries] relays, run on the client's
    connection as it was before the first attempt.  No earlier, abandoned
    attempt has sent it a byte or taken one from it. *)
Theorem answered_once ctx peer envs req w w' :
  admitted ctx req = true -> req_host req <> bs "proxycontrol" ->
  serve_request ctx peer envs req w = Finished w' ->
  let t := {| t_host := req_host req; t_ip := ok (resolve (ctx_dns ctx) (req_host req));
              t_port := req_port req |} in
  client w' = (write (terminal_failure (frontend req)) (client w)).2 \/
  one_relay ctx envs (max_tries (config (pool w))) t req (client w) (client w').
Proof.
  intros Ha Hh H. unfold serve_request in H. rewrite Ha in H. cbn [negb] in H.
  rewrite bool_decide_false in H by done. by apply attempts_once in H.
Qed.

(** ** Every client is let go *)

(** An attempt whose wait is long enough for the liveness probes, and during
    which no other task makes the source produce again. *)
Definition settled (env : AttemptEnv) : Prop :=
  Forall (fun a => keeps_exhausted (race a) /\ keeps_exhausted (others a)) (waiting env) /\
  VERIFY_MAX_ATTEMPTS <= length (waiting env) /\
  keeps_exhausted (before env) /\ keeps_exhausted (meanwhile env).

Lemma after_relay_exhausted peer req p now o w :
  exhausted (pool (after_relay peer req p now o w).2) = exhausted (pool w).
Proof. destruct o; apply put_inner_frame. Qed.

Lemma attempts_finish ctx peer envs tries n key t req w :
  exhausted (pool w) = true -> (forall k, settled (envs k)) ->
  exists w', attempts ctx peer envs tries n key t req w = Finished w' /\ exhausted (pool w') = true.
Proof.
  intros Hw Henv. revert n w Hw. induction tries as [|tries IH]; intros n w Hw; cbn [attempts]; [eauto|].
  destruct (Henv n) as (Hsc & Hlen & Hbef & Hmean).
  destruct (get_loop_returns (ctx_first_key ctx) (waiting (envs n)) 0 (at_lease (envs n)) (scheme req) key
              (before (envs n) (pool w)) (Hbef _ Hw) Hsc) as (o & pl & E & Hpl); [unfold VERIFY_MAX_ATTEMPTS; lia|lia|].
  unfold get. rewrite E. destruct o as [p|]; [|eauto].
  set (pl' := if 0 <? n then count_rotation pl else pl).
  assert (exhausted pl' = true) as Hpl' by (unfold pl'; by destruct (0 <? n)).
  destruct (relay _ _ _ _ _ _ _ _ _) as [o' c].
  match goal with |- context [after_relay ?a ?b ?c ?d ?e ?f] =>
    pose proof (after_relay_exhausted a b c d e f) as Hx; destruct (after_relay a b c d e f) as [stop w1] end.
  cbn [fst snd pool with_client with_pool] in Hx. rewrite (Hmean _ Hpl') in Hx.
  destruct stop; eauto.
Qed.

(** Every client is let go: once the source is exhausted, whatever the client
    sends, whatever the proxies do, and however the other tasks change the pool
    meanwhile, the client's task comes to its end, with eight liveness probes
    enough for each attempt; it never hangs waiting for a proxy. *)
Theorem client_let_go ctx peer envs w :
  exhausted (pool w) = true -> (forall k, settled (envs k)) ->
  exists w', handle_client ctx peer envs w = Finished w' /\ exhausted (pool w') = true.
Proof.
  intros Hw Henv. unfold handle_client.
  destruct (parse_client_request _ _) as [[req|[]] c]; [|eauto].
  unfold serve_request. destruct (admitted ctx req); cbn [negb]; [|eauto].
  case_bool_decide; [|by apply attempts_finish].
  destruct (serve_control _ _ _ _) as [answer pl] eqn:E. eexists. split; [done|]. cbn.
  replace pl with (serve_control req (history (with_client c w)) peer (pool (with_client c w))).2 by by rewrite E.
  unfold serve_control. repeat split_match; try done; case_bool_decide; repeat split_match; try done;
    cbn [snd]; try done.
Qed.

(** ** The credential gate *)

Lemma io_bind_Ok {E A B} (m : IO E A) (k : A -> IO E B) c b c' :
  (x ← m; k x) c = (Ok b, c') -> exists a c1, m c = (Ok a, c1) /\ k a c1 = (Ok b, c').
Proof. unfold mbind, io_bind. destruct (m c) as [[a|e] c1]; [eauto|done]. Qed.

Lemma read_n_Ok n c b c' :
  read_n n c = (Ok b, c') -> length b = n /\ rx c = (RdByte <$> b) ++ rx c' /\ tx c' = tx c.
Proof.
  unfold read_n, read_exact. destruct (take_exact n (rx c)) as [[b0|f] r] eqn:E; [|done].
  intros [= -> <-]. by apply take_exact_Ok in E as [? ->].
Qed.

Lemma write_all_Ok b c c' : write_all b c = (Ok tt, c') -> rx c' = rx c /\ tx c' = tx c ++ b.
Proof.
  unfold write_all, write_or, write. by destruct (write_outcome c); intros; simplify_eq/=.
Qed.

Lemma refuse_Ok {A} b c (a : A) c' : refuse b c = (Ok a, c') -> False.
Proof. done. Qed.

(** The RFC 1929 exchange of a client that was let through. *)
Definition shown_credentials (e : AuthExpect) (input : list read_event) : Prop :=
  exists before ulen plen after,
    length ulen = 2 /\ length plen = 1 /\
    input = (RdByte <$> before ++ ulen ++ user e ++ plen ++ pass e) ++ after.

Lemma read_len_Ok c n c' :
  read_len c = (Ok n, c') -> exists b, length b = 1 /\ n = N.to_nat (from_be b) /\
    rx c = (RdByte <$> b) ++ rx c'.
Proof.
  unfold read_len. intros (b & c1 & Hb & H)%io_bind_Ok. injection H as <- <-.
  apply read_n_Ok in Hb as (? & ? & _). eauto.
Qed.

Lemma socks5_auth_shown e methods c c' :
  socks5_auth (Some e) methods c = (Ok tt, c') -> shown_credentials e (rx c).
Proof.
  unfold socks5_auth. case_bool_decide; [|done].
  intros ([] & c1 & [Hr1 _]%write_all_Ok & H1)%io_bind_Ok.
  apply io_bind_Ok in H1 as (vu & c2 & (Hl2 & Hr2 & _)%read_n_Ok & H2).
  apply io_bind_Ok in H2 as (u & c3 & (Hl3 & Hr3 & _)%read_n_Ok & H3).
  apply io_bind_Ok in H3 as (n & c4 & (b & Hb & -> & Hr4)%read_len_Ok & H4).
  apply io_bind_Ok in H4 as (p & c5 & (Hl5 & Hr5 & _)%read_n_Ok & H5).
  case_bool_decide as Hup; [|done]. destruct Hup as [-> ->].
  exists [], vu, b, (rx c5). split; [done|]. split; [done|].
  rewrite <- Hr1, Hr2, Hr3, Hr4, Hr5. cbn [app].
  rewrite !fmap_app, <- !app_assoc. done.
Qed.

Lemma shown_credentials_app e b r :
  shown_credentials e r -> shown_credentials e ((RdByte <$> b) ++ r).
Proof.
  intros (before & ul & pl & after & H1 & H2 & ->).
  exists (b ++ before), ul, pl, after. split; [done|]. split; [done|].
  by rewrite !fmap_app, <- !app_assoc.
Qed.

Lemma parse_socks5_shown e c req c' :
  parse_socks5_request (Some e) c = (Ok req, c') ->
  frontend req = FSocks5 /\ shown_credentials e (rx c).
Proof.
  unfold parse_socks5_request.
  intros (n & c1 & (b & _ & _ & Hr1)%read_len_Ok & H1)%io_bind_Ok.
  apply io_bind_Ok in H1 as (ms & c2 & (_ & Hr2 & _)%read_n_Ok & H2).
  apply io_bind_Ok in H2 as ([] & c3 & Ha & H3).
  apply io_bind_Ok in H3 as (hdr & c4 & _ & H4).
  split; [|rewrite Hr1, Hr2; do 2 apply shown_credentials_app; by eapply socks5_auth_shown].
  destruct (code <$> hdr) as [|ver [|cmd [|rsv [|atyp [|]]]]]; try done.
  destruct (negb _); [done|]. destruct (negb _); [done|].
  apply io_bind_Ok in H4 as ([h p] & c5 & _ & H5). by injection H5 as <- _.
Qed.

Lemma http_request_frontend buf req : http_request buf = Some req -> frontend req <> FSocks5.
Proof.
  unfold http_request. intros H.
  destruct (head _) as [first|]; [|done]. cbn [mbind option_bind] in H.
  destruct (_ !! 0) as [m|]; [|done]. cbn [mbind option_bind] in H.
  destruct (_ !! 1) as [u|]; [|done]. cbn [mbind option_bind] in H.
  destruct (eq_ignore_ascii_case _ _).
  - destruct (split_host_port _ _) as [h p]. by injection H as <-.
  - destruct (match mbind _ _ with Some h => Some h | None => _ end) as [hp|]; [|done].
    cbn [mbind option_bind] in H. destruct (split_host_port _ _) as [h p]. by injection H as <-.
Qed.

Lemma parse_request_socks e c req c' :
  parse_client_request (Some e) c = (Ok req, c') -> frontend req = FSocks5 ->
  shown_credentials e (rx c).
Proof.
  unfold parse_client_request. intros (first & c1 & (_ & Hr & _)%read_n_Ok & H)%io_bind_Ok Hf.
  case_bool_decide.
  - apply parse_socks5_shown in H as [_ H]. rewrite Hr. by apply shown_credentials_app.
  - apply io_bind_Ok in H as (buf & c2 & _ & H). unfold of_option in H.
    destruct (http_request buf) as [r|] eqn:E; [|done]. injection H as -> _.
    by apply http_request_frontend in E.
Qed.

(** C8.  No service without credentials: when the server expects credentials
    and a client is served at all, in the sense that the pool or the history
    changes, the client's request carried exactly the expected basic
    authorization, or the client showed the expected user name and password in
    its SOCKS5 handshake.  Every other request is answered without touching
    the pool: an HTTP client gets the 407 reply. *)
Theorem gate_protects ctx peer envs w e :
  expected_auth ctx = Some e ->
  match parse_client_request (Some e) (client w) with
  | (Err _, c) => handle_client ctx peer envs w = Finished (with_client c w)
  | (Ok req, c) =>
      (frontend req = FSocks5 /\ shown_credentials e (rx (client w))) \/
      (frontend req <> FSocks5 /\ proxy_auth req = Some (basic e)) \/
      (frontend req <> FSocks5 /\
       handle_client ctx peer envs w = Finished (reply AUTH_REQUIRED (with_client c w)))
  end.
Proof.
  intros He. unfold handle_client. rewrite He.
  destruct (parse_client_request (Some e) (client w)) as [[req|[]] c] eqn:E; [|done].
  destruct (decide (frontend req = FSocks5)) as [Hf|Hf].
  { left. split; [done|]. by eapply parse_request_socks. }
  right. destruct (decide (proxy_auth req = Some (basic e))) as [Ha|Ha]; [by left|right].
  split; [done|]. unfold serve_request, admitted.
  rewrite He, !bool_decide_false by done. done.
Qed.

(** ** The forwarded head *)

(** A text as its CRLF-terminated lines and what follows the last of them. *)
Fixpoint crlf_lines_fuel (fuel : nat) (s : bytes) : list bytes * bytes :=
  match fuel with
  | 0 => ([], s)
  | S f => match split_once crlf s with
           | None => ([], s)
           | Some (l, r) => let '(ls, t) := crlf_lines_fuel f r in (l :: ls, t)
           end
  end.
Definition crlf_lines (s : bytes) : list bytes * bytes := crlf_lines_fuel (length s) s.

Definition no_crlf (l : bytes) : Prop := find_sub crlf l = None.

Lemma starts_with_crlf_app l r j :
  j < length l -> starts_with crlf (drop j (l ++ crlf ++ r)) = true ->
  starts_with crlf (drop j l) = true.
Proof.
  intros Hj. rewrite !starts_with_true. intros [x Hx].
  rewrite drop_app_le in Hx by lia.
  destruct (drop j l) as [|a [|b d]] eqn:E.
  - apply (f_equal length) in E. rewrite length_drop in E. simpl in E. lia.
  - simpl in Hx. discriminate Hx.
  - exists d. injection Hx as -> -> _. done.
Qed.

Lemma split_once_line l r : no_crlf l -> split_once crlf (l ++ crlf ++ r) = Some (l, r).
Proof.
  intros Hl. unfold split_once.
  assert (find_sub crlf (l ++ crlf ++ r) = Some (length l)) as ->.
  { destruct (find_sub crlf (l ++ crlf ++ r)) as [i|] eqn:E.
    - f_equal. destruct (lt_eq_lt_dec i (length l)) as [[Hlt| ->]|Hgt]; [exfalso|done|exfalso].
      + pose proof (find_sub_None crlf l i Hl) as Hn.
        rewrite (starts_with_crlf_app l r i) in Hn; [done|done|]. by apply find_sub_at.
      + pose proof (find_sub_first crlf _ i (length l) E Hgt) as Hn.
        rewrite drop_app_length in Hn. discriminate Hn.
    - pose proof (find_sub_None crlf _ (length l) E) as Hn.
      rewrite drop_app_length in Hn. discriminate Hn. }
  cbn [mbind option_bind fmap option_fmap option_map]. rewrite take_app_length.
  do 2 f_equal. rewrite app_assoc, drop_app_ge by (rewrite length_app; simpl; lia).
  rewrite length_app. replace (length l + length crlf - (length l + length crlf)) with 0 by lia. done.
Qed.

Lemma split_once_no_crlf s l r : split_once crlf s = Some (l, r) -> no_crlf l.
Proof.
  intros E. unfold split_once in E. destruct (find_sub crlf s) as [i|] eqn:Ei; [|done].
  cbn in E. injection E as <- <-. unfold no_crlf.
  destruct (find_sub crlf (take i s)) as [j|] eqn:Ej; [|done].
  exfalso. apply find_sub_at in Ej as [Hj Hlen]. rewrite length_take in Hlen. simpl in Hlen.
  pose proof (find_sub_first crlf s i j Ei ltac:(lia)) as Hn.
  apply starts_with_true in Hj as [x Hx].
  rewrite <- (take_drop i s), drop_app_le, Hx in Hn by (rewrite length_take; lia).
  discriminate Hn.
Qed.

Fixpoint unlines (ls : list bytes) (t : bytes) : bytes :=
  match ls with [] => t | l :: ls' => l ++ crlf ++ unlines ls' t end.

Lemma split_once_length s l r : split_once crlf s = Some (l, r) -> length r < length s.
Proof. intros ->%split_once_Some. rewrite !length_app. simpl. lia. Qed.

Lemma no_crlf_split t : no_crlf t <-> split_once crlf t = None.
Proof. unfold no_crlf, split_once. by destruct (find_sub crlf t). Qed.

Lemma crlf_lines_spec s ls t :
  crlf_lines s = (ls, t) -> s = unlines ls t /\ Forall no_crlf ls /\ no_crlf t.
Proof.
  unfold crlf_lines. assert (length s <= length s) as Hf by done. revert Hf.
  generalize (length s) at 2 3 as f. intros f. revert s ls t.
  induction f as [|f IH]; intros s ls t Hf; cbn [crlf_lines_fuel].
  { destruct s; [|simpl in Hf; lia]. intros [= <- <-]. done. }
  destruct (split_once crlf s) as [[l r]|] eqn:E.
  - pose proof (split_once_length _ _ _ E). destruct (crlf_lines_fuel f r) as [ls' t'] eqn:El.
    intros [= <- <-]. apply IH in El as (-> & Hls & Ht); [|lia].
    apply split_once_no_crlf in E as Hl. apply split_once_Some in E.
    split_and!; [done|by constructor|done].
  - intros [= <- <-]. apply no_crlf_split in E. done.
Qed.

Lemma crlf_lines_unlines ls t :
  Forall no_crlf ls -> no_crlf t -> crlf_lines (unlines ls t) = (ls, t).
Proof.
  intros Hls Ht. unfold crlf_lines.
  assert (length (unlines ls t) <= length (unlines ls t)) as Hf by done. revert Hf.
  generalize (length (unlines ls t)) at 2 3 as f.
  induction Hls as [|l ls Hl Hls IH]; intros f Hf; cbn [unlines] in *.
  - destruct f; [done|]. cbn [crlf_lines_fuel]. by apply no_crlf_split in Ht as ->.
  - destruct f as [|f]; [rewrite !length_app in Hf; simpl in Hf; lia|]. cbn [crlf_lines_fuel].
    rewrite split_once_line by done. rewrite IH; [done|].
    rewrite !length_app in Hf. simpl in Hf. lia.
Qed.

Definition kept (name : bytes) (l : bytes) : bool := negb (is_header name l).

Lemma strip_lines_tail name ls t f :
  Forall no_crlf ls -> no_crlf t -> length (unlines ls t) <= f ->
  strip_lines f name false (unlines ls t) = unlines (List.filter (kept name) ls) t.
Proof.
  intros Hls Ht. revert f. induction Hls as [|l ls Hl Hls IH]; intros f Hf; cbn [unlines] in *.
  - destruct f; [done|]. cbn [strip_lines]. by apply no_crlf_split in Ht as ->.
  - rewrite !length_app in Hf. simpl in Hf. destruct f as [|f]; [lia|]. cbn [strip_lines].
    rewrite split_once_line by done. rewrite IH by lia. cbn [negb andb List.filter].
    unfold kept at 2. destruct (is_header name l); cbn [negb unlines app]; [done|].
    by rewrite <- !app_assoc.
Qed.

Lemma strip_header_lines name l0 ls t :
  no_crlf l0 -> Forall no_crlf ls -> no_crlf t ->
  strip_header (unlines (l0 :: ls) t) name = unlines (l0 :: List.filter (kept name) ls) t.
Proof.
  intros Hl0 Hls Ht. unfold strip_header. cbn [unlines]. rewrite !length_app.
  destruct (length l0 + _) as [|f] eqn:Ef; [simpl in Ef; lia|]. cbn [strip_lines].
  rewrite split_once_line by done. cbn [negb andb].
  rewrite strip_lines_tail; [by rewrite <- !app_assoc|done|done|]. simpl in Ef. lia.
Qed.

Lemma Forall_filter {A} (P : A -> Prop) f l : Forall P l -> Forall P (List.filter f l).
Proof. rewrite !Forall_forall. intros H x. rewrite !list_elem_of_In, filter_In, <- list_elem_of_In. intros []. auto. Qed.

Lemma authorization_line_crlf c : authorization_line c =
  (bs "Proxy-Authorization: Basic " ++ basic_credentials c) ++ crlf.
Proof. unfold authorization_line. by rewrite <- app_assoc. Qed.

(** base64 text has no line break. *)
Lemma sextet_not_lf n : sextet n <> LF.
Proof.
  rewrite sextet_mod. assert (n mod 64 < 64)%N as Hi by (apply N.mod_lt; lia).
  assert (negb (bool_decide (sextet (n mod 64) = LF)) = true) as Hb; [|by bool_destruct].
  revert Hi. generalize (n mod 64)%N. apply (below_64 (fun i => negb (bool_decide (sextet i = LF)))).
  vm_compute. reflexivity.
Qed.

Lemma base64_no_lf s : LF ∉ base64_encode s.
Proof.
  assert (forall n s, length s <= n -> LF ∉ base64_encode s) as H; [|by eapply H].
  clear s. intros n. induction n as [|n IH]; intros [|a [|b [|c s]]] Hl; simpl in Hl;
    try lia; cbn [base64_encode]; rewrite ?not_elem_of_cons; auto using not_elem_of_nil.
  - split_and!; try (intros E; symmetry in E; by apply sextet_not_lf in E); try done.
    apply not_elem_of_nil.
  - split_and!; try (intros E; symmetry in E; by apply sextet_not_lf in E); try done.
    apply not_elem_of_nil.
  - split_and!; try (intros E; symmetry in E; by apply sextet_not_lf in E).
    apply IH. lia.
Qed.

Lemma no_lf_no_crlf l : LF ∉ l -> no_crlf l.
Proof.
  intros Hl. apply no_crlf_split. destruct (split_once crlf l) as [[a r]|] eqn:E; [|done].
  apply split_once_Some in E as ->. exfalso. apply Hl.
  apply elem_of_app. right. right. left.
Qed.

Lemma inject_header_lines l0 ls t h :
  no_crlf l0 -> inject_header (unlines (l0 :: ls) t) (h ++ crlf) = unlines (l0 :: h :: ls) t.
Proof.
  intros Hl. unfold inject_header. cbn [unlines]. rewrite split_once_line by done.
  by rewrite <- !app_assoc.
Qed.

(** C19.  The local secret stays local: the head forwarded upstream is the
    client's head line by line, the request line first, without any line that
    is a Proxy-Authorization header in whatever case; if the upstream proxy has
    credentials, one line carrying them, and only that one, is added right
    after the request line. *)
Theorem forwarded_head r creds l0 ls t :
  crlf_lines r = (l0 :: ls, t) ->
  let name := bs "Proxy-Authorization" in
  crlf_lines (upstream_request r creds) =
    (l0 :: match creds with
           | Some c => [bs "Proxy-Authorization: Basic " ++ basic_credentials c]
           | None => []
           end ++ List.filter (kept name) ls, t) /\
  Forall (fun l => is_header name l = false) (List.filter (kept name) ls).
Proof.
  intros Hr name. apply crlf_lines_spec in Hr as (-> & Hls & Ht).
  apply Forall_cons in Hls as [Hl0 Hls]. split.
  - unfold upstream_request. rewrite strip_header_lines by done.
    pose proof (Forall_filter _ (kept name) _ Hls) as Hk.
    destruct creds as [c|].
    + rewrite authorization_line_crlf, inject_header_lines by done.
      apply (crlf_lines_unlines (l0 :: (bs "Proxy-Authorization: Basic " ++ basic_credentials c)
        :: List.filter (kept name) ls) t); [|done].
      constructor; [done|]. constructor; [|done]. apply no_lf_no_crlf.
      rewrite not_elem_of_app. split; [|apply base64_no_lf].
      apply (bool_decide_eq_true_1 (LF ∉ bs "Proxy-Authorization: Basic ")). reflexivity.
    + apply (crlf_lines_unlines (l0 :: List.filter (kept name) ls) t); [|done]. by constructor.
  - apply Forall_forall. intros l. rewrite list_elem_of_In, filter_In. unfold kept.
    rewrite negb_true_iff. tauto.
Qed.

Definition authorized_get : bytes :=
  unlines [bs "GET http://a/ HTTP/1.1"; bs "PROXY-authorization: Basic dTpw"; bs "Host: a"; []] [].

Lemma forwarded_head_witness :
  let c := {| username := bs "u"; password := bs "p" |} in
  crlf_lines (upstream_request authorized_get (Some c)) =
    ([bs "GET http://a/ HTTP/1.1"; bs "Proxy-Authorization: Basic dTpw"; bs "Host: a"; []], []) /\
  Forall (fun l => is_header (bs "Proxy-Authorization") l = false) [bs "Host: a"; []].
Proof.
  intros c.
  apply (forwarded_head authorized_get (Some c) (bs "GET http://a/ HTTP/1.1")
           [bs "PROXY-authorization: Basic dTpw"; bs "Host: a"; []] []).
  vm_compute. reflexivity.
Defined.

(** A header line ended by a bare line feed is seen by the gate and not by the
    stripping: such a request authenticates, and its secret is forwarded. *)
Lemma bare_lf_secret_forwarded :
  let secret := bs "Proxy-Authorization: Basic dTpw" in
  let r := bs "GET http://a/ HTTP/1.1" ++ [LF] ++ secret ++ crlf ++ crlf in
  header_value r (bs "Proxy-Authorization") = Some (bs "Basic dTpw") /\
  contains secret (upstream_request r None) = true.
Proof. vm_compute. done. Qed.

(** ** The status gate *)

(** A line up to its line feed, or 256 bytes without one. *)
Definition status_line (line : bytes) : Prop :=
  length line <= 256 /\ exists l c, line = l ++ [c] /\ LF ∉ l /\ (c = LF \/ length line = 256).

Lemma status_step_None line : status_step line = None <-> ends_with [LF] line = false /\ length line < 256.
Proof.
  unfold status_step. change STATUS_MAX with 256. rewrite <-Nat.leb_gt, <-orb_false_iff.
  by destruct (ends_with [LF] line || (256 <=? length line)).
Qed.

Lemma read_status_line_Ok c line c' :
  read_status_line c = (Ok line, c') -> rx c = (RdByte <$> line) ++ rx c' /\ status_line line.
Proof.
  unfold read_status_line, read_while. destruct (read_loop _ _ _ _) as [res r] eqn:E.
  intros [= -> <-]. apply read_loop_Ok in E as (b & Hrx & Hne & Hs & Hpre). cbn [app] in *.
  assert (b = line) as -> by (unfold status_step in Hs; case_match; congruence).
  split; [done|]. destruct (exists_last Hne) as (l & d & El).
  assert (forall a b, line = a ++ b -> a <> [] -> b <> [] -> ends_with [LF] a = false /\ length a < 256) as Hp
    by (intros a b Hab Ha Hb; apply status_step_None; by apply (Hpre a b)).
  assert (length line = S (length l)) as Hlen by (rewrite El, length_app; simpl; lia).
  assert (length line <= 256) as Hmax.
  { destruct l as [|x l]; [simpl in *; lia|]. destruct (Hp (x :: l) [d]) as [_ ?]; [done..|]. lia. }
  split; [done|]. exists l, d. split_and!; [done| |].
  - intros (a & b & ->)%list_elem_of_split. destruct (Hp (a ++ [LF]) (b ++ [d])) as [Hf _].
    + by rewrite El, <-!app_assoc.
    + by destruct a.
    + by destruct b.
    + assert (ends_with [LF] (a ++ [LF]) = true) by (apply ends_with_true; eauto). congruence.
  - destruct (status_step line) eqn:Est; [|done]. unfold status_step in Est. destruct (_ || _) eqn:Eb; [|done].
    apply orb_true_iff in Eb as [Eb|Eb]; [left|right; apply Nat.leb_le in Eb; unfold STATUS_MAX in Eb; lia].
    apply ends_with_true in Eb as [l0 Eb]. rewrite El in Eb. by apply app_inj_tail in Eb as [_ ?].
Qed.

(** What a forwarded request's upstream answered: the proxy was dialled, the
    stream negotiated and the request written whole on it, and [line] is the
    status line read back, the first bytes on the stream up to a line feed (256
    at most); [s'] is the stream after it. *)
Definition upstream_answer (clients : Clients) (d : dialed) (p : Proxy) (pr : Proto) (t : Target) (req : ClientRequest)
    (line : bytes) (s' : Stream) : Prop :=
  exists tcp s c1 up up', d = Some (Ok tcp) /\
    negotiate clients (relay_negotiation_proto pr HttpForward) t (auth p) tcp = (Ok s, c1) /\
    write (upstream_request (raw req) (auth p)) (stream_conn s) = (WrOk, up) /\
    read_status_line up = (Ok line, up') /\ rx up = (RdByte <$> line) ++ rx up' /\ status_line line /\
    s' = on_stream s up'.

(** What the relay then does, by the line. *)
Definition after_answer (pump : Conn -> Stream -> bool * Conn * Stream) (p : Proxy) (codes : list N) (c : Conn)
    (line : bytes) (s' : Stream) : RelayOutcome * Conn :=
  if decide (parse_http_status line ∈ codes) then
    match write (inject_header line (proxy_info p)) c with
    | (WrOk, c2) => let '(fine, c3, _) := pump c2 s' in (if fine then RelayOk else ClientCommitted ErrorOnStream, c3)
    | (_, c2) => (ClientGone, c2)
    end
  else (RetryableFailure (DisallowedStatus (parse_http_status line)), c).

Lemma relay_forward_cases clients pump d c p pr t req codes :
  frontend req = HttpForward -> request_has_body (raw req) = false ->
  let r := relay clients pump d c p pr t req (Some codes) in
  (exists e, r = (RetryableFailure e, c) /\ forall line s', ~ upstream_answer clients d p pr t req line s') \/
  (exists line s', upstream_answer clients d p pr t req line s' /\ r = after_answer pump p codes c line s').
Proof.
  intros Hf Hb. cbv zeta. unfold relay, relay_setup.
  destruct d as [[tcp|]|]; [|left; eexists; split; [done|]; intros ?? (?&?&?&?&?&[=]&_)..].
  rewrite Hf. destruct (negotiate _ _ _ _ _) as [[s|e1] c1] eqn:En;
    [|left; eexists; split; [done|]; intros ?? (?&?&?&?&?&[= <-]&?&_); congruence].
  unfold forward. destruct (write _ (stream_conn s)) as [[] up] eqn:Ew;
    [|left; eexists; split; [done|]; intros ?? (?&?&?&?&?&[= <-]&?&?&_); congruence..].
  rewrite Hb. destruct (read_status_line up) as [[line|e2] up'] eqn:Er;
    [|left; eexists; split; [done|]; intros ?? (?&?&?&?&?&[= <-]&?&?&?&_); congruence].
  right. exists line, (on_stream s up'). split.
  { apply read_status_line_Ok in Er as ?. exists tcp, s, c1, up, up'. naive_solver. }
  unfold after_answer, allowed, ack_client. case_decide as Ha;
    [rewrite bool_decide_true by done|by rewrite bool_decide_false by done].
  by destruct (write _ c) as [[] c2].
Qed.

Lemma upstream_answer_unique clients d p pr t req l1 s1 l2 s2 :
  upstream_answer clients d p pr t req l1 s1 -> upstream_answer clients d p pr t req l2 s2 -> l1 = l2 /\ s1 = s2.
Proof.
  intros (tcp & s & c1 & up & up' & -> & En & Ew & Er & _ & _ & ->)
    (tcp2 & s3 & c2 & up2 & up2' & [= <-] & En2 & Ew2 & Er2 & _ & _ & ->).
  rewrite En in En2. injection En2 as <- <-. rewrite Ew in Ew2. injection Ew2 as <-. rewrite Er in Er2.
  by injection Er2 as <- <-.
Qed.

(** C20.  A block page never reaches the client: for a forwarded request
    without a body and with a set of allowed status codes, a relay fails with
    the client untouched, so that another proxy is tried, unless the upstream's
    status line was read back from the stream the request went out on; when its
    code is not allowed the relay fails with that code, the client untouched
    still; and only when it is allowed does the client receive that line, with
    the proxy's address after it, and then what the pump carries, or has
    gone. *)
Theorem disallowed_never_seen clients pump d c p pr t req codes o c' :
  frontend req = HttpForward -> request_has_body (raw req) = false ->
  relay clients pump d c p pr t req (Some codes) = (o, c') ->
  (forall line s', upstream_answer clients d p pr t req line s' -> parse_http_status line ∉ codes ->
     o = RetryableFailure (DisallowedStatus (parse_http_status line)) /\ c' = c) /\
  ((exists e, o = RetryableFailure e /\ c' = c) \/
   exists line s', upstream_answer clients d p pr t req line s' /\ parse_http_status line ∈ codes /\
     ((o = ClientGone /\ tx c' = tx c) \/
      exists c2, write (inject_header line (proxy_info p)) c = (WrOk, c2) /\
        tx c2 = tx c ++ inject_header line (proxy_info p) /\
        c' = (pump c2 s').1.2 /\ o = if (pump c2 s').1.1 then RelayOk else ClientCommitted ErrorOnStream)).
Proof.
  intros Hf Hb Hr. destruct (relay_forward_cases clients pump d c p pr t req codes Hf Hb)
    as [(e & E & Hno)|(line & s' & Ha & E)]; rewrite Hr in E.
  { injection E as -> ->. split; [|left; eauto]. intros line s' Hl. by apply Hno in Hl. }
  unfold after_answer in E. split.
  - intros line2 s2 Ha2 Hn. destruct (upstream_answer_unique _ _ _ _ _ _ _ _ _ _ Ha2 Ha) as [-> _].
    rewrite decide_False in E by done. by injection E as -> ->.
  - case_decide as Hin; [right|left; injection E as -> ->; eauto]. exists line, s'. split_and!; [done..|].
    pose proof (write_failed (inject_header line (proxy_info p)) c) as Hw.
    destruct (write _ c) as [[] c2] eqn:Ew; cbn [fst snd] in Hw.
    + right. exists c2. split; [done|]. revert Ew. unfold write. destruct (write_outcome c); [|done..].
      intros [= Ec2]. rewrite <-Ec2 at 1. split; [done|]. destruct (pump c2 s') as [[fine c3] s3].
      by injection E as -> ->.
    + left. injection E as -> ->. split; [done|by apply Hw].
    + left. injection E as -> ->. split; [done|by apply Hw].
Qed.

(** ** Exactness and bounds of the request parser *)

Lemma http_request_raw buf req : http_request buf = Some req -> raw req = [] \/ raw req = buf.
Proof.
  unfold http_request. intros H.
  destruct (head _) as [first|]; [|done]. cbn [mbind option_bind] in H.
  destruct (_ !! 0) as [m|]; [|done]. cbn [mbind option_bind] in H.
  destruct (_ !! 1) as [u|]; [|done]. cbn [mbind option_bind] in H.
  destruct (eq_ignore_ascii_case _ _).
  - destruct (split_host_port _ _) as [h p]. injection H as <-. by left.
  - destruct (match mbind _ _ with Some h => Some h | None => _ end) as [hp|]; [|done].
    cbn [mbind option_bind] in H. destruct (split_host_port _ _) as [h p]. injection H as <-.
    by right.
Qed.

Lemma parse_socks5_raw e c req c' : parse_socks5_request e c = (Ok req, c') -> raw req = [].
Proof.
  unfold parse_socks5_request.
  intros (n & c1 & _ & H1)%io_bind_Ok. apply io_bind_Ok in H1 as (ms & c2 & _ & H2).
  apply io_bind_Ok in H2 as ([] & c3 & _ & H3). apply io_bind_Ok in H3 as (hdr & c4 & _ & H4).
  destruct (code <$> hdr) as [|ver [|cmd [|rsv [|atyp [|]]]]]; try done.
  destruct (negb _); [done|]. destruct (negb _); [done|].
  apply io_bind_Ok in H4 as ([h p] & c5 & _ & H5). by injection H5 as <- _.
Qed.

(** C25.  Buffering is bounded: whatever a client sends, the request head kept
    for forwarding is at most 65,537 bytes, exactly the bytes the client sent
    first, and either ends in a blank line or has overrun the limit. *)
Theorem request_bounded expected c req c' :
  parse_client_request expected c = (Ok req, c') ->
  length (raw req) <= S REQUEST_MAX /\
  (raw req <> [] ->
     rx c = (RdByte <$> raw req) ++ rx c' /\
     (ends_with (crlf ++ crlf) (raw req) = true \/ length (raw req) = S REQUEST_MAX)).
Proof.
  unfold parse_client_request. intros (first & c1 & (Hl & Hr & _)%read_n_Ok & H)%io_bind_Ok.
  case_bool_decide.
  { apply parse_socks5_raw in H as ->. split; [simpl; lia|done]. }
  apply io_bind_Ok in H as (buf & c2 & Hbuf & H). unfold of_option in H.
  destruct (http_request buf) as [q|] eqn:E; [|done]. injection H as -> <-.
  apply http_request_raw in E as [-> | ->]; [split; [simpl; lia|done]|].
  unfold read_while in Hbuf. destruct (read_loop _ _ _ _) as [res r] eqn:El.
  injection Hbuf as -> <-. apply read_loop_Ok in El as (b & Hrx & Hne & Hs & Hpre).
  unfold http_step in Hs. destruct (_ || _) eqn:Eb; [|done]. injection Hs as <-.
  assert (length (first ++ b) <= S REQUEST_MAX) as Hlen.
  { rewrite length_app, Hl. destruct b as [|x b0 _] using rev_ind; [done|].
    assert (1 <= REQUEST_MAX) as Hmax by (apply Nat.leb_le; vm_compute; reflexivity).
    destruct b0 as [|y b0]; [cbn [app length]; lia|].
    specialize (Hpre (y :: b0) [x] eq_refl ltac:(done) ltac:(done)).
    unfold http_step in Hpre. 
    match type of Hpre with (if ?x then _ else _) = _ => destruct x eqn:Ex end; [discriminate Hpre|].
    apply orb_false_iff in Ex as [_ Hle%Nat.ltb_ge].
    rewrite length_app, Hl in Hle. rewrite length_app. cbn [length] in *. lia. }
  split; [done|]. intros _. split.
  - cbn [set_rx rx]. rewrite Hr, Hrx, fmap_app, <- app_assoc. done.
  - apply orb_true_iff in Eb as [Eb|Eb]; [by left|right]. apply Nat.ltb_lt in Eb. lia.
Qed.

(** The SOCKS5 handshake of a client that offers no authentication and asks for
    a domain name. *)
Definition be16 (n : N) : bytes := octets [n / 256; n mod 256]%N.

Definition socks5_domain (methods d : bytes) (pt : N) : bytes :=
  octets [5; N.of_nat (length methods)]%N ++ methods ++
  octets [5; 1; 0; 3; N.of_nat (length d)]%N ++ d ++ be16 pt.

Lemma from_be_be16 n : (n <= u16_max)%N -> from_be (be16 n) = n.
Proof.
  unfold u16_max. intros Hn. unfold from_be, be16, octets. cbn.
  rewrite !code_byte_of; [|apply N.mod_lt; lia|apply N.Div0.div_lt_upper_bound; lia].
  pose proof (N.div_mod n 256 ltac:(lia)). lia.
Qed.

Lemma read_n_bytes n b rest w t :
  length b = n ->
  read_n n {| rx := (RdByte <$> b) ++ rest; wr := w; tx := t |} =
  (Ok b, {| rx := rest; wr := w; tx := t |}).
Proof. intros <-. unfold read_n, read_exact. cbn [rx]. by rewrite take_exact_bytes. Qed.

Lemma read_len_bytes x rest w t :
  (x < 256)%N ->
  read_len {| rx := (RdByte <$> [byte_of x]) ++ rest; wr := w; tx := t |} =
  (Ok (N.to_nat x), {| rx := rest; wr := w; tx := t |}).
Proof.
  intros Hx. unfold read_len, mbind, io_bind. rewrite read_n_bytes by done.
  unfold mret, io_ret, from_be. cbn. by rewrite code_byte_of.
Qed.

Lemma io_bind_eq {E A B} (m : IO E A) (k : A -> IO E B) c a c1 :
  m c = (Ok a, c1) -> (x ← m; k x) c = k a c1.
Proof. unfold mbind, io_bind. by intros ->. Qed.

(** C26.  The SOCKS5 front end understands every well-formed request for a name:
    a client that offers the no-authentication method among its methods and
    asks to connect to a domain of at most 255 bytes of text at a port gets the
    method selected, and the request parsed is a tunnel to exactly that domain
    and port, with the bytes that follow left unread for the tunnel. *)
Theorem socks5_domain_parsed methods d pt rest :
  length methods < 256 -> length d < 256 -> (pt <= u16_max)%N ->
  byte_of 0 ∈ methods -> valid_utf8 d = true ->
  parse_client_request None (peer (socks5_domain methods d pt ++ rest)) =
    (Ok {| scheme := SHttps; frontend := FSocks5; req_host := d; req_port := pt; raw := [];
           proxy_auth := None; path := d ++ bs ":" ++ show_N pt |},
     {| rx := RdByte <$> rest; wr := []; tx := octets [5; 0]%N |}).
Proof.
  intros Hm Hd Hp H0 Hu. unfold peer, socks5_domain, octets. cbn [fmap list_fmap].
  unfold parse_client_request.
  rewrite !fmap_app, <- !app_assoc.
  change (RdByte <$> [byte_of 5; ?a]) with ((RdByte <$> [byte_of 5]) ++ (RdByte <$> [a])).
  change (RdByte <$> [byte_of 5; byte_of 1; byte_of 0; byte_of 3; ?a]) with
    ((RdByte <$> [byte_of 5; byte_of 1; byte_of 0; byte_of 3]) ++ (RdByte <$> [a])).
  rewrite <- !app_assoc.
  erewrite io_bind_eq; [|by apply read_n_bytes].
  rewrite bool_decide_true by done. unfold parse_socks5_request.
  erewrite io_bind_eq; [|apply read_len_bytes; lia]. rewrite Nat2N.id.
  erewrite io_bind_eq; [|by apply read_n_bytes].
  unfold socks5_auth. rewrite bool_decide_true by done.
  erewrite io_bind_eq; [|done].
  cbn [rx wr tx tail app].
  erewrite io_bind_eq; [|by apply read_n_bytes].
  change (code <$> [byte_of 5; byte_of 1; byte_of 0; byte_of 3]) with [5; 1; 0; 3]%N.
  cbn [negb N.eqb Pos.eqb]. unfold socks5_address. cbn [N.eqb Pos.eqb].
  erewrite io_bind_eq.
  2:{ erewrite io_bind_eq; [|apply read_len_bytes; lia]. rewrite Nat2N.id.
      erewrite io_bind_eq; [|by apply read_n_bytes].
      erewrite io_bind_eq; [|by apply read_n_bytes].
      rewrite lossy_valid, from_be_be16 by done. done. }
  done.
Qed.

(** ** Concrete runs *)

(** A pump that hands the client what the upstream has sent. *)
Definition sent_bytes (r : list read_event) : bytes :=
  omap (fun e => match e with RdByte c => Some c | _ => None end) r.

Definition copy_down (c : Conn) (s : Stream) : bool * Conn * Stream :=
  (true, {| rx := rx c; wr := wr c; tx := tx c ++ sent_bytes (rx (stream_conn s)) |}, s).

Definition sample_ctx (e : option AuthExpect) : ConnCtx :=
  {| ctx_dns := fun _ => Some (Ok [V4 1 1 1 1]); ctx_clients := no_clients; ctx_pump := copy_down;
     ctx_first_key := fun _ => None; expected_auth := e |}.

Definition sample_proxy_at (n : N) : Proxy := add_type Http (Some High) (Proxy_new (V4 10 0 0 n) 80 ∅).

Definition sample_world (input : bytes) : World :=
  {| pool := @from_proxies AsciiOnly [sample_proxy_at 1; sample_proxy_at 2] PoolConfig_default;
     history := ∅; client := peer input |}.

Definition sample_reply : bytes := bs "HTTP/1.1 200 OK" ++ crlf ++ crlf ++ bs "hello".

(** The first proxy refuses the connection, the second answers. *)
Definition sample_env (k : nat) : AttemptEnv :=
  {| before := id; waiting := []; at_lease := 0%N;
     dialing := if k =? 0 then Some (Err tt) else Some (Ok (peer sample_reply));
     meanwhile := id; elsewhere := id; at_return := 0%N |}.

Definition sample_get : bytes := unlines [bs "GET http://a/x HTTP/1.1"; bs "Host: a"; []] [].

Definition outcome_of (p : Progress) : World := match p with Finished w | Waiting w => w end.

Definition sample_request : ClientRequest :=
  {| scheme := SHttp; frontend := HttpForward; req_host := bs "a"; req_port := 80; raw := sample_get;
     proxy_auth := None; path := bs "http://a/x" |}.

Definition sample_served : World :=
  outcome_of (serve_request (sample_ctx None) UNSPECIFIED sample_env sample_request (sample_world [])).

(** One retry, then the reply with the proxy named after the status line. *)
Example sample_served_client :
  tx (client sample_served) =
  bs "HTTP/1.1 200 OK" ++ crlf ++ bs "X-Proxy-Info: 10.0.0.2:80" ++ crlf ++ crlf ++ bs "hello" /\
  rotations (pool sample_served) = 1%N.
Proof. vm_compute. done. Qed.

Lemma answered_once_witness :
  client sample_served = (write (terminal_failure HttpForward) (peer [])).2 \/
  one_relay (sample_ctx None) sample_env 3
    {| t_host := bs "a"; t_ip := Some (V4 1 1 1 1); t_port := 80 |}
    sample_request (peer []) (client sample_served).
Proof.
  apply (answered_once (sample_ctx None) UNSPECIFIED sample_env sample_request (sample_world [])
           sample_served); [reflexivity|discriminate|].
  vm_compute. reflexivity.
Defined.

Definition sample_expect : AuthExpect := auth_expect (bs "u:p").

Lemma gate_protects_witness :
  let w := sample_world sample_get in
  match parse_client_request (Some sample_expect) (client w) with
  | (Err _, c) =>
      handle_client (sample_ctx (Some sample_expect)) UNSPECIFIED sample_env w = Finished (with_client c w)
  | (Ok req, c) =>
      (frontend req = FSocks5 /\ shown_credentials sample_expect (rx (client w))) \/
      (frontend req <> FSocks5 /\ proxy_auth req = Some (basic sample_expect)) \/
      (frontend req <> FSocks5 /\
       handle_client (sample_ctx (Some sample_expect)) UNSPECIFIED sample_env w
       = Finished (reply AUTH_REQUIRED (with_client c w)))
  end.
Proof.
  intros w. apply (gate_protects (sample_ctx (Some sample_expect)) UNSPECIFIED sample_env w sample_expect).
  reflexivity.
Defined.

Lemma disallowed_never_seen_witness :
  let c := peer [] in
  let p := sample_proxy_at 2 in
  let t := {| t_host := bs "a"; t_ip := None; t_port := 80 |} in
  let d := Some (Ok (peer sample_reply)) in
  let pump := ctx_pump (sample_ctx None) in
  let '(o, c') := relay no_clients pump d c p Http t sample_request (Some [200%N]) in
  (forall line s', upstream_answer no_clients d p Http t sample_request line s' -> parse_http_status line ∉ [200%N] ->
     o = RetryableFailure (DisallowedStatus (parse_http_status line)) /\ c' = c) /\
  ((exists e, o = RetryableFailure e /\ c' = c) \/
   exists line s', upstream_answer no_clients d p Http t sample_request line s' /\ parse_http_status line ∈ [200%N] /\
     ((o = ClientGone /\ tx c' = tx c) \/
      exists c2, write (inject_header line (proxy_info p)) c = (WrOk, c2) /\
        tx c2 = tx c ++ inject_header line (proxy_info p) /\
        c' = (pump c2 s').1.2 /\ o = if (pump c2 s').1.1 then RelayOk else ClientCommitted ErrorOnStream)).
Proof.
  intros c p t d pump.
  destruct (relay no_clients pump d c p Http t sample_request (Some [200%N])) as [o c'] eqn:E.
  apply (disallowed_never_seen no_clients pump d c p Http t sample_request [200%N] o c');
    [reflexivity|vm_compute; reflexivity|exact E].
Defined.

Lemma request_bounded_witness :
  let r := parse_client_request None (peer (sample_get ++ bs "body")) in
  length sample_get <= S REQUEST_MAX /\
  (sample_get <> [] ->
     rx (peer (sample_get ++ bs "body")) = (RdByte <$> sample_get) ++ rx r.2 /\
     (ends_with (crlf ++ crlf) sample_get = true \/ length sample_get = S REQUEST_MAX)).
Proof.
  intros r. apply (request_bounded None (peer (sample_get ++ bs "body")) sample_request r.2).
  vm_compute. reflexivity.
Defined.

Lemma socks5_domain_parsed_witness :
  parse_client_request None (peer (socks5_domain [byte_of 0%N] (bs "a.b") 443%N ++ bs "x")) =
    (Ok {| scheme := SHttps; frontend := FSocks5; req_host := bs "a.b"; req_port := 443; raw := [];
           proxy_auth := None; path := bs "a.b" ++ bs ":" ++ show_N 443 |},
     {| rx := RdByte <$> bs "x"; wr := []; tx := octets [5; 0]%N |}).
Proof.
  apply (socks5_domain_parsed [byte_of 0%N] (bs "a.b") 443%N (bs "x")).
  - simpl. lia.
  - simpl. lia.
  - unfold u16_max. lia.
  - left.
  - vm_compute. reflexivity.
Defined.

(** Every wait has room for the eight probes, and the others do nothing. *)
Definition patient_env (k : nat) : AttemptEnv :=
  {| before := id; waiting := replicate 8 {| race := id; others := id; alive := false; clock := 0%N |};
     at_lease := 0%N; dialing := dialing (sample_env k); meanwhile := id;
     elsewhere := id; at_return := 0%N |}.

Lemma client_let_go_witness :
  exists w', handle_client (sample_ctx None) UNSPECIFIED patient_env (sample_world sample_get) = Finished w' /\
             exhausted (pool w') = true.
Proof.
  apply (client_let_go (sample_ctx None) UNSPECIFIED patient_env (sample_world sample_get)).
  - vm_compute. reflexivity.
  - intros k. split_and!; [|vm_compute; lia|by intros w..].
    apply Forall_replicate. by split; intros w.
Defined.

(** A retry that leases the only, just benched, proxy again counts as a rotation
    to another one. *)
Example rotation_same_proxy :
  let w := {| pool := @from_proxies AsciiOnly [sample_proxy_at 1] PoolConfig_default;
              history := ∅; client := peer [] |} in
  let served := outcome_of (serve_request (sample_ctx None) UNSPECIFIED sample_env sample_request w) in
  rotations (pool served) = 1%N /\ entry_key <$> state (pool served) = [(V4 10 0 0 1, 80%N)].
Proof. vm_compute. done. Qed.
