(* ===== verification/Threads.v ===== *)
(** * The pool's methods under threads: [src/server.rs] ([Pool])

    The methods of [Pool] at the granularity of their critical sections: each
    acquisition of one of its two locks, each access to an atomic and each use
    of the notifier is one step of a thread, and the threads' steps interleave
    freely, as they do on a multi-threaded runtime.  [Pool] describes the same
    methods run without interruption. *)

From stdpp Require Import base list gmap strings relations.
From Stdlib Require Import Ascii NArith ZArith Lia.
From S2P Require Import Prelude Bytes Text Float Net Types ProxyModel Pool.

(** ** Threads *)

(** The local state of a call of [Pool::get]: its arguments, the failed probes
    so far, the number of notifications when its waker was made, and whether it
    is in the last look after the source's end. *)
Record Getting := {
  g_scheme : Scheme;
  g_key : ClientKey;
  g_probes : nat;
  g_since : N;
  g_last : bool;
}.

Definition set_since (n : N) (g : Getting) : Getting :=
  {| g_scheme := g_scheme g; g_key := g_key g; g_probes := g_probes g; g_since := n; g_last := g_last g |}.
Definition set_last (g : Getting) : Getting :=
  {| g_scheme := g_scheme g; g_key := g_key g; g_probes := g_probes g; g_since := g_since g; g_last := true |}.
Definition one_more_probe (g : Getting) : Getting :=
  {| g_scheme := g_scheme g; g_key := g_key g; g_probes := S (g_probes g); g_since := g_since g; g_last := g_last g |}.

Definition get_call (sch : Scheme) (key : ClientKey) : Getting :=
  {| g_scheme := sch; g_key := key; g_probes := 0; g_since := 0; g_last := false |}.

(** What a thread does next. *)
Inductive Pc : Type :=
  | Get_top (g : Getting)                          (** make the waker *)
  | Get_pin (g : Getting)                          (** read the pin, under the session lock *)
  | Get_cursor (g : Getting) (pin : option (IpAddr * N))  (** load the cursor, read the clock *)
  | Get_lock (g : Getting) (ctx : SelectCtx)       (** select and remove, under the state lock *)
  | Get_record (g : Getting) (p : Proxy)           (** advance the cursor, or record the session *)
  | Get_drawn (g : Getting) (p : Proxy)            (** verify, or return it *)
  | Get_probing (g : Getting) (p : Proxy)          (** the liveness probe is under way *)
  | Get_bench (g : Getting) (p : Proxy) (until : instant)  (** put a dead proxy back *)
  | Get_bench_ring (g : Getting)                   (** notify that it is back *)
  | Get_missed (g : Getting)                       (** load [exhausted] *)
  | Get_asleep (g : Getting)                       (** suspended on the waker *)
  | Gate_top (n : nat)                             (** [wait_ready]: make the waker *)
  | Gate_len (n : nat) (since : N)                 (** compare the length, under the state lock *)
  | Gate_exhausted (n : nat) (since : N)           (** load [exhausted] *)
  | Gate_asleep (n : nat) (since : N)
  | Put (p : Proxy) (until : option instant)       (** push, under the state lock, or count the eviction *)
  | Ring                                           (** notify the waiters *)
  | Import (source : list Proxy)                   (** the importer: push the next proxy, or set [exhausted] *)
  | Import_ring (source : list Proxy)              (** notify that it is there *)
  | Remove (h : IpAddr) (pt : N)
  | Add (p : Proxy)
  | Try_get (sch : Scheme) (cc : option bytes)
  | Idle (leased : option Proxy).                  (** the call is over; what it handed out *)

Section Threads.
Context `{Unicode} (first_key : gmap ClientKey (IpAddr * N) -> option ClientKey).

Definition arm (w : Pool) (g : Getting) (pin : option (IpAddr * N)) (now : instant) : SelectCtx :=
  {| ctx_scheme := g_scheme g; ctx_strategy := strategy (config w); ctx_sticky := pin;
     ctx_cursor := round_robin w; ctx_now := now; ctx_prefer := prefer_connect (config w) |}.

(** The locked part of [try_select]. *)
Definition lock_select (ctx : SelectCtx) (w : Pool) : option Proxy * Pool :=
  let '(idx, x) := best_for (state w) ctx (rng w) in
  let w := set_cursors (round_robin w) (evictions w) (rotations w) x w in
  match i ← idx; swap_remove i (state w) with
  | None => (None, w)
  | Some (e, rest) => (Some (proxy e), set_state rest w)
  end.

(** What follows it. *)
Definition record (key : ClientKey) (p : Proxy) (w : Pool) : Pool :=
  let w := if bool_decide (strategy (config w) = RoundRobin)
           then set_cursors (round_robin w ⊞₆₄ 1)%pb (evictions w) (rotations w) (rng w) w
           else w in
  if bool_decide (strategy (config w) = Sticky) then record_session first_key key (key_of p) w else w.

Definition evict (w : Pool) : Pool := set_cursors (round_robin w) (evictions w ⊞₆₄ 1)%pb (rotations w) (rng w) w.

Definition append (p : Proxy) (until : option instant) (w : Pool) : Pool :=
  set_state (state w ++ [{| proxy := p; blocked_until := until |}]) w.

Definition after_bench (g : Getting) : Pc :=
  if VERIFY_MAX_ATTEMPTS <=? S (g_probes g) then Idle None else Get_top (one_more_probe g).

Definition after_miss (g : Getting) : Pc := if g_last g then Idle None else Get_missed g.

Definition read_pin (key : ClientKey) (w : Pool) : option (IpAddr * N) :=
  if bool_decide (strategy (config w) = Sticky) then sessions w !! key else None.

Inductive thread_step : Pool * Pc -> Pool * Pc -> Prop :=
  | Th_waker w g : thread_step (w, Get_top g) (w, Get_pin (set_since (notify w) g))
  | Th_pin w g : thread_step (w, Get_pin g) (w, Get_cursor g (read_pin (g_key g) w))
  | Th_cursor w g pin now : thread_step (w, Get_cursor g pin) (w, Get_lock g (arm w g pin now))
  | Th_select w g ctx p w' :
      lock_select ctx w = (Some p, w') -> thread_step (w, Get_lock g ctx) (w', Get_record g p)
  | Th_none w g ctx w' :
      lock_select ctx w = (None, w') -> thread_step (w, Get_lock g ctx) (w', after_miss g)
  | Th_record w g p : thread_step (w, Get_record g p) (record (g_key g) p w, Get_drawn g p)
  | Th_drawn w g p :
      thread_step (w, Get_drawn g p)
        (w, if g_last g then Idle (Some p)
            else match verify_on_lease (config w) with Some _ => Get_probing g p | None => Idle (Some p) end)
  | Th_live w g p : thread_step (w, Get_probing g p) (w, Idle (Some p))
  | Th_dead w g p now :
      thread_step (w, Get_probing g p) (w, Get_bench g p (now + fail_timeout (config w))%N)
  | Th_bench w g p until :
      thread_step (w, Get_bench g p until)
        (if unhealthy (config w) p then (evict w, after_bench g) else (append p (Some until) w, Get_bench_ring g))
  | Th_bench_ring w g : thread_step (w, Get_bench_ring g) (notify_waiters w, after_bench g)
  | Th_missed w g :
      thread_step (w, Get_missed g) (w, if exhausted w then Get_pin (set_last g) else Get_asleep g)
  | Th_wake w g : (g_since g < notify w)%N -> thread_step (w, Get_asleep g) (w, Get_top g)
  | Th_gate_waker w n :
      thread_step (w, Gate_top n) (w, if n =? 0 then Idle None else Gate_len n (notify w))
  | Th_gate_len w n since :
      thread_step (w, Gate_len n since) (w, if n <=? len w then Idle None else Gate_exhausted n since)
  | Th_gate_exhausted w n since :
      thread_step (w, Gate_exhausted n since) (w, if exhausted w then Idle None else Gate_asleep n since)
  | Th_gate_wake w n since :
      (since < notify w)%N -> thread_step (w, Gate_asleep n since) (w, Gate_top n)
  | Th_put w p until :
      thread_step (w, Put p until)
        (if unhealthy (config w) p then (evict w, Idle None) else (append p until w, Ring))
  | Th_ring w : thread_step (w, Ring) (notify_waiters w, Idle None)
  | Th_import w p src :
      thread_step (w, Import (p :: src))
        (if country_ok p (countries (config w)) then (append p None w, Import_ring src) else (w, Import src))
  | Th_import_ring w src : thread_step (w, Import_ring src) (notify_waiters w, Import src)
  | Th_import_end w : thread_step (w, Import []) (set_exhausted w, Ring)
  | Th_remove w h pt : thread_step (w, Remove h pt) ((remove h pt w).2, Idle None)
  | Th_add w p : thread_step (w, Add p) (add p w, Idle None)
  | Th_try_get w sch cc o w' :
      try_get sch cc w = (o, w') -> thread_step (w, Try_get sch cc) (w', Idle o).

(** The calls that may start at any time: those that bring no proxy of their
    own, and [add], where a watcher or a re-checker refreshes the pool.  The
    caller of a finished call returns the proxy it was given, with its record
    advanced, or adds it back as the agent tools do. *)
Definition may_start (refreshed : bool) (pc : Pc) : bool :=
  match pc with
  | Get_top g => (g_probes g =? 0) && (g_since g =? 0)%N && negb (g_last g)
  | Gate_top _ | Remove _ _ | Try_get _ _ => true
  | Add _ => refreshed
  | _ => false
  end.

Inductive threads_step (refreshed : bool) : Pool * list Pc -> Pool * list Pc -> Prop :=
  | Ts_thread w w' ts1 pc pc' ts2 :
      thread_step (w, pc) (w', pc') -> threads_step refreshed (w, ts1 ++ pc :: ts2) (w', ts1 ++ pc' :: ts2)
  | Ts_call w ts pc : may_start refreshed pc = true -> threads_step refreshed (w, ts) (w, ts ++ [pc])
  | Ts_return w ts1 p p' until ts2 :
      key_of p' = key_of p ->
      threads_step refreshed (w, ts1 ++ Idle (Some p) :: ts2) (w, ts1 ++ Put p' until :: ts2)
  | Ts_add_back w ts1 p ts2 :
      threads_step refreshed (w, ts1 ++ Idle (Some p) :: ts2) (w, ts1 ++ Add p :: ts2).

(** A pool just spawned: its importer is the only thread. *)
Definition spawned (cfg : PoolConfig) (source : list Proxy) : Pool * list Pc :=
  (empty_pool cfg false, [Import source]).
End Threads.
