(* ===== verification/ThreadsProofs.v ===== *)
(** * What the pool promises under threads: [src/server.rs] ([Pool])

    With the methods' critical sections interleaved freely: no wake-up is lost,
    every step keeps every proxy but those it is there to drop, the session map
    stays bounded, a selection answers for the pool as it is when the lock is
    held, and an uninterrupted call is the method of [Pool]. *)

From stdpp Require Import base list gmap strings relations.
From Stdlib Require Import Ascii NArith ZArith Lia.
From S2P Require Import Prelude Bytes Text Float Net Types ProxyModel Pool PoolProofs Threads.

Section Proofs.
Context `{Unicode} (first_key : gmap ClientKey (IpAddr * N) -> option ClientKey) (refreshed : bool).

#[local] Notation thread_step := (Threads.thread_step first_key).
#[local] Notation threads_step := (Threads.threads_step first_key refreshed).

(** ** The locked selection *)

Lemma lock_select_spec ctx w :
  let r := lock_select ctx w in
  same_frame w r.2 /\ sessions r.2 = sessions w /\ notify r.2 = notify w /\
  match r.1 with
  | Some p => exists i e, state w !! i = Some e /\ p = proxy e /\ state w ≡ₚ e :: state r.2 /\
                in_tier (state w) (ctx_scheme ctx) (ctx_now ctx) e /\ chosen_ok (state w) ctx (rng w) i
  | None => state r.2 = state w /\ forall e, e ∈ state w -> serves (ctx_scheme ctx) e = false
  end.
Proof.
  cbv zeta. unfold lock_select. pose proof (best_for_spec (state w) ctx (rng w)) as [_ Hb].
  destruct (best_for (state w) ctx (rng w)) as [[i|] x]; cbn [fst] in Hb; cbn [mbind option_bind].
  - destruct Hb as [Hin Hok]. pose proof Hin as (e & He & Ht)%tier_elem.
    destruct (swap_remove_is_Some i (state w)) as [[e' rest] Hs]; [by eapply lookup_lt_Some|].
    change (state (set_cursors _ _ _ _ w)) with (state w). rewrite Hs.
    pose proof (swap_remove_lookup _ _ _ _ Hs) as He'. assert (e' = e) as -> by congruence.
    apply swap_remove_perm in Hs. split_and!; try done. by exists i, e.
  - split_and!; try done. split; [done|]. exact (proj1 (tier_nil _ _) Hb).
Qed.

(** [try_select] is the locked selection between the reads before it and the
    bookkeeping after it. *)
Lemma try_select_sections now sch key w :
  try_select first_key now sch key w =
  match lock_select (select_ctx w now sch key) w with
  | (Some p, w') => (Some p, record first_key key p w')
  | (None, w') => (None, w')
  end.
Proof.
  unfold try_select, lock_select. destruct (best_for _ _ _) as [idx x].
  by destruct (mbind _ idx) as [[e rest]|].
Qed.

Lemma record_frame key p w : same_frame w (record first_key key p w) /\ state (record first_key key p w) = state w /\
  notify (record first_key key p w) = notify w.
Proof. unfold record. by repeat case_bool_decide. Qed.

(** An uninterrupted call of [get], from its first read to the end of the
    selection, does what [try_select] does. *)
Lemma uninterrupted_select now g w :
  let r := try_select first_key now (g_scheme g) (g_key g) w in
  rtc thread_step (w, Get_pin g) (r.2, match r.1 with Some p => Get_drawn g p | None => after_miss g end).
Proof.
  cbv zeta. rewrite try_select_sections.
  eapply rtc_l; [apply Th_pin|]. eapply rtc_l; [by apply (Th_cursor _ _ _ _ now)|].
  change (arm w g (read_pin (g_key g) w) now) with (select_ctx w now (g_scheme g) (g_key g)).
  destruct (lock_select _ w) as [[p|] w'] eqn:E; cbn [fst snd].
  - eapply rtc_l; [by apply Th_select|]. apply rtc_once, Th_record.
  - by apply rtc_once, Th_none.
Qed.

(** ** Wake-ups *)

(** A thread that is between a change the waiters wait for and their
    notification. *)
Definition ringing (pc : Pc) : bool :=
  match pc with Get_bench_ring _ | Ring | Import_ring _ => true | _ => false end.

Definition owes (ts : list Pc) : Prop := exists pc, pc ∈ ts /\ ringing pc = true.

Definition none_serves (sch : Scheme) (w : Pool) : Prop := forall e, e ∈ state w -> serves sch e = false.

(** The number of notifications when the thread's waker was made. *)
Definition ticket (pc : Pc) : option N :=
  match pc with
  | Get_pin g | Get_cursor g _ | Get_lock g _ | Get_missed g | Get_asleep g => Some (g_since g)
  | Gate_len _ since | Gate_exhausted _ since | Gate_asleep _ since => Some since
  | _ => None
  end.

(** What a thread that has looked in vain relies on. *)
Definition reason (w : Pool) (pc : Pc) : Prop :=
  match pc with
  | Get_missed g => none_serves (g_scheme g) w
  | Get_asleep g => exhausted w = false /\ none_serves (g_scheme g) w
  | Gate_exhausted n _ => len w < n
  | Gate_asleep n _ => exhausted w = false /\ len w < n
  | _ => True
  end.

Definition awake (w : Pool) (owed : Prop) (pc : Pc) : Prop :=
  forall since, ticket pc = Some since -> (since <= notify w)%N /\ ((since < notify w)%N \/ owed \/ reason w pc).

(** A step notifies, owes a notification, or changes nothing that a waiting
    thread relies on. *)
Definition quiet (w w' : Pool) : Prop :=
  notify w' = notify w /\ exhausted w' = exhausted w /\ (forall e, e ∈ state w' -> e ∈ state w) /\ len w' <= len w.

Definition effect (w : Pool) (pc : Pc) (w' : Pool) (pc' : Pc) : Prop :=
  ((notify w < notify w')%N /\ ticket pc' = None) \/ (notify w' = notify w /\ ringing pc' = true) \/
  (ringing pc = false /\ quiet w w').

Lemma still_quiet w : quiet w w.
Proof. by split_and!. Qed.

Lemma quiet_reason w w' pc : quiet w w' -> reason w pc -> reason w' pc.
Proof.
  intros (_ & Hx & Hs & Hl). unfold reason, none_serves. rewrite Hx.
  destruct pc; try done; intuition (auto; lia).
Qed.

Lemma lock_select_quiet ctx w o w' : lock_select ctx w = (o, w') -> quiet w w'.
Proof.
  intros E. pose proof (lock_select_spec ctx w) as Hs. rewrite E in Hs. cbn [fst snd] in Hs.
  destruct Hs as ((_ & Hx & _) & _ & Hn & Hs). unfold quiet, len. destruct o as [p|].
  - destruct Hs as (i & e & _ & _ & Hp & _). split_and!; [done..| |].
    + intros e' He'. rewrite Hp. by right.
    + rewrite Hp. cbn. lia.
  - destruct Hs as [Hs _]. rewrite Hs. by split_and!.
Qed.

Lemma remove_quiet h pt w : quiet w (remove h pt w).2.
Proof.
  split_and!; [done..| |].
  - intros e He. by apply remove_elem in He as [? _].
  - apply sublist_length, filter_sublist.
Qed.

Lemma try_get_quiet sch cc w o w' : try_get sch cc w = (o, w') -> quiet w w'.
Proof.
  unfold try_get. destruct (mbind _ _) as [[e rest]|] eqn:E; intros [= <- <-]; [|apply still_quiet].
  destruct (best_by_priority _ _ _) as [i|]; [|done]. cbn [mbind option_bind] in E.
  apply vec_remove_perm in E. unfold quiet, len. cbn [state set_state]. split_and!; [done..| |].
  - intros e' He'. rewrite E. by right.
  - rewrite E. cbn. lia.
Qed.

Lemma evict_quiet w : quiet w (evict w).
Proof. by split_and!. Qed.

Lemma record_quiet key p w : quiet w (record first_key key p w).
Proof.
  destruct (record_frame key p w) as ((_ & Hx & _) & Hs & Hn). unfold quiet, len. rewrite Hs. by split_and!.
Qed.

Lemma thread_step_effect x y : thread_step x y -> effect x.1 x.2 y.1 y.2.
Proof.
  assert (forall w pc pc', ringing pc = false -> effect w pc w pc') as Hstay
    by (intros; right; right; split; [done|apply still_quiet]).
  assert (forall w pc pc', ticket pc' = None -> effect w pc (notify_waiters w) pc') as Hring
    by (intros; left; split; [cbn [notify notify_waiters]; lia|done]).
  destruct 1; cbn [fst snd]; try (by apply Hstay); try (by apply Hring).
  - right; right. split; [done|]. by eapply lock_select_quiet.
  - right; right. split; [done|]. by eapply lock_select_quiet.
  - right; right. split; [done|]. apply record_quiet.
  - case_match; cbn [fst snd]; [right; right; split; [done|apply evict_quiet]|right; left; done].
  - apply Hring. unfold after_bench. by case_match.
  - case_match; cbn [fst snd]; [right; right; split; [done|apply evict_quiet]|right; left; done].
  - case_match; cbn [fst snd]; [right; left; done|by apply Hstay].
  - right; left; done.
  - right; right. split; [done|]. apply remove_quiet.
  - unfold add. case_match; [by apply Hstay|]. left. split; [|done].
    cbn [notify push notify_waiters set_state]. lia.
  - right; right. split; [done|]. by eapply try_get_quiet.
Qed.

(** What a thread knows of its own: the context it selects with is the one of
    its call, and the proxy it holds serves the scheme. *)
Definition knows (cfg : PoolConfig) (pc : Pc) : Prop :=
  match pc with
  | Get_cursor _ pin => strategy cfg <> Sticky -> pin = None
  | Get_lock g ctx =>
      ctx_scheme ctx = g_scheme g /\ ctx_strategy ctx = strategy cfg /\ ctx_prefer ctx = prefer_connect cfg /\
      (strategy cfg <> Sticky -> ctx_sticky ctx = None)
  | Get_record g p | Get_drawn g p | Get_probing g p => g_scheme g ∈ schemes p
  | _ => True
  end.

Lemma thread_step_knows cfg x y :
  thread_step x y -> config x.1 = cfg -> knows cfg x.2 -> config y.1 = cfg /\ knows cfg y.2.
Proof.
  destruct 1 as [| | |w g ctx p w' E|w g ctx w' E|w g p|w g p| | |w g p until| | | | | | | |w p until| |w p src
                | | | |w p|w sch cc o w' E];
    cbn [fst snd]; intros Hc Hk; try done.
  - split; [done|]. cbn [knows]. intros Hs. unfold read_pin. by rewrite bool_decide_false by congruence.
  - subst cfg. by split_and!.
  - pose proof (lock_select_spec ctx w) as Hs. rewrite E in Hs. cbn [fst snd] in Hs.
    destruct Hs as ((Hf & _) & _ & _ & i & e & _ & -> & _ & [Hsv _] & _). split; [congruence|].
    cbn [knows] in *. destruct Hk as [<- _]. by apply bool_decide_eq_true in Hsv.
  - pose proof (lock_select_spec ctx w) as Hs. rewrite E in Hs. destruct Hs as ((Hf & _) & _). cbn in Hf.
    split; [congruence|]. unfold after_miss. by case_match.
  - destruct (record_frame (g_key g) p w) as ((Hf & _) & _). split; [congruence|done].
  - split; [done|]. repeat case_match; done.
  - unfold after_bench. repeat case_match; done.
  - unfold after_bench. split; [done|]. by case_match.
  - split; [done|]. by case_match.
  - split; [done|]. by case_match.
  - split; [done|]. by case_match.
  - split; [done|]. by case_match.
  - by case_match.
  - by case_match.
  - unfold add. by case_match.
  - unfold try_get in E. destruct (mbind _ _) as [[? ?]|]; by injection E as <- <-.
Qed.

(** A thread's own step. *)
Lemma thread_step_awake x y owed :
  thread_step x y -> (forall g ctx, x.2 = Get_lock g ctx -> ctx_scheme ctx = g_scheme g) ->
  awake x.1 owed x.2 -> awake y.1 owed y.2.
Proof.
  assert (forall w pc, ticket pc = None -> awake w owed pc) as Hnone by (intros w pc Hn since; congruence).
  assert (forall w w' pc pc', ticket pc' = ticket pc -> notify w' = notify w -> reason w' pc' ->
            awake w owed pc -> awake w' owed pc') as Hsame.
  { intros w w' pc pc' Ht Hn Hr Ha since Hs. rewrite Hn. destruct (Ha since) as [Hle _]; [congruence|]. auto. }
  destruct 1 as [w g|w g|w g pin now|w g ctx p w' E|w g ctx w' E|w g p|w g p| | |w g p until| |w g|w g|w n|w n since
                |w n since| |w p until| |w p src| | | |w p|w sch cc o w' E];
    cbn [fst snd]; intros Hctx Ha; try (by apply Hnone).
  - intros since [= <-]. split; [done|]. by right; right.
  - by apply (Hsame w w (Get_pin g)).
  - by apply (Hsame w w (Get_cursor g pin)).
  - unfold after_miss. case_match; [by apply Hnone|].
    pose proof (lock_select_spec ctx w) as Hs. rewrite E in Hs. cbn [fst snd] in Hs.
    destruct Hs as (_ & _ & Hn & Hs & Hnos). apply (Hsame w w' (Get_lock g ctx)); [done..| |done].
    cbn [reason]. unfold none_serves. rewrite Hs, <-(Hctx g ctx eq_refl). done.
  - repeat case_match; by apply Hnone.
  - unfold after_bench. repeat case_match; by apply Hnone.
  - unfold after_bench. repeat case_match; by apply Hnone.
  - destruct (exhausted w) eqn:Hx.
    + apply (Hsame w w (Get_missed g)); done.
    + intros since Hs. destruct (Ha since Hs) as [Hle Hr]. split; [done|]. cbn [reason] in *. tauto.
  - case_match; [by apply Hnone|]. intros since [= <-]. split; [done|]. by right; right.
  - destruct (Nat.leb_spec n (len w)); [by apply Hnone|]. by apply (Hsame w w (Gate_len n since)).
  - destruct (exhausted w) eqn:Hx; [by apply Hnone|].
    intros s Hs. destruct (Ha s Hs) as [Hle Hr]. split; [done|]. cbn [reason] in *. tauto.
  - case_match; by apply Hnone.
  - case_match; by apply Hnone.
Qed.

Lemma owes_kept ts1 pc pc' ts2 :
  ringing pc = false -> owes (ts1 ++ pc :: ts2) -> owes (ts1 ++ pc' :: ts2).
Proof.
  intros Hr (x & Hx & Hrx). exists x. split; [|done]. rewrite elem_of_app, elem_of_cons in *.
  destruct Hx as [Hx|[-> |Hx]]; [by left|congruence|by right; right].
Qed.

Lemma owes_now ts1 pc ts2 : ringing pc = true -> owes (ts1 ++ pc :: ts2).
Proof. intros Hr. exists pc. split; [|done]. rewrite elem_of_app. right. left. Qed.

(** The other threads, over one thread's step. *)
Lemma awake_over w w' ts1 pc pc' ts2 pc0 :
  effect w pc w' pc' -> awake w (owes (ts1 ++ pc :: ts2)) pc0 -> awake w' (owes (ts1 ++ pc' :: ts2)) pc0.
Proof.
  intros He Ha since Hs. destruct (Ha since Hs) as [Hle Hr].
  destruct He as [[Hn _]|[[Hn Hr']|[Hr' Hq]]].
  - split; [lia|left; lia].
  - rewrite Hn. split; [done|]. right; left. by apply owes_now.
  - pose proof Hq as (Hn & _). rewrite Hn. split; [done|].
    destruct Hr as [Hr|[Hr|Hr]]; [by left|right; left; by eapply owes_kept|right; right; by eapply quiet_reason].
Qed.

Lemma awake_own w w' ts1 pc pc' ts2 :
  effect w pc w' pc' -> awake w' (owes (ts1 ++ pc :: ts2)) pc' -> awake w' (owes (ts1 ++ pc' :: ts2)) pc'.
Proof.
  intros He Ha since Hs. destruct (Ha since Hs) as [Hle Hr]. split; [done|].
  destruct He as [[_ Ht]|[[_ Hr']|[Hr' _]]]; [congruence|right; left; by apply owes_now|].
  destruct Hr as [Hr|[Hr|Hr]]; [by left|right; left; by eapply owes_kept|by right; right].
Qed.

(** ** The invariant of all threads *)

Record threads_ok (cfg : PoolConfig) (s : Pool * list Pc) : Prop := {
  ok_config : config s.1 = cfg;
  ok_knows : Forall (knows cfg) s.2;
  ok_awake : Forall (awake s.1 (owes s.2)) s.2;
}.

Lemma may_start_ok r cfg w owed pc : may_start r pc = true -> knows cfg pc /\ awake w owed pc.
Proof. destruct pc; try done; intros _; split; try done; intros since Hs; done. Qed.

Lemma threads_step_ok cfg s s' : threads_step s s' -> threads_ok cfg s -> threads_ok cfg s'.
Proof.
  assert (forall w ts1 p pc' ts2, ringing pc' = false -> ticket pc' = None -> knows cfg pc' ->
            threads_ok cfg (w, ts1 ++ Idle (Some p) :: ts2) -> threads_ok cfg (w, ts1 ++ pc' :: ts2)) as Hback.
  { intros w ts1 p pc' ts2 Hr Ht Hk [Hc Hkn Ha]; cbn [fst snd] in *.
    rewrite !Forall_app, !Forall_cons in Hkn, Ha. destruct Hkn as (K1 & K & K2), Ha as (A1 & A & A2).
    assert (effect w (Idle (Some p)) w pc') as He by (right; right; split; [done|apply still_quiet]).
    split; cbn [fst snd]; [done|by rewrite Forall_app, Forall_cons|]. rewrite Forall_app, Forall_cons. split_and!.
    + eapply Forall_impl; [exact A1|]. intros x. by apply awake_over.
    + intros since Hs. congruence.
    + eapply Forall_impl; [exact A2|]. intros x. by apply awake_over. }
  destruct 1 as [w w' ts1 pc pc' ts2 Hst|w ts pc Hm|w ts1 p p' until ts2 Hk|w ts1 p ts2];
    [intros [Hc Hkn Ha]; cbn [fst snd] in *..|by apply Hback|by apply Hback].
  - rewrite !Forall_app, !Forall_cons in Hkn, Ha. destruct Hkn as (K1 & K & K2), Ha as (A1 & A & A2).
    destruct (thread_step_knows _ _ _ Hst Hc K) as [Hc' K']. pose proof (thread_step_effect _ _ Hst) as He.
    cbn [fst snd] in *. split; cbn [fst snd]; [done|by rewrite Forall_app, Forall_cons|].
    rewrite Forall_app, Forall_cons. split_and!.
    + eapply Forall_impl; [exact A1|]. intros x. by apply awake_over.
    + apply (awake_own w w' ts1 pc); [done|]. apply (thread_step_awake (w, pc) (w', pc')); [done| |done].
      cbn [snd]. intros g ctx ->. by destruct K as [? _].
    + eapply Forall_impl; [exact A2|]. intros x. by apply awake_over.
  - destruct (may_start_ok _ cfg w (owes (ts ++ [pc])) _ Hm) as [K A].
    split; cbn [fst snd]; [done|by rewrite Forall_app, Forall_singleton|].
    rewrite Forall_app, Forall_singleton. split; [|done]. eapply Forall_impl; [exact Ha|].
    intros x Hx since Hs. destruct (Hx since Hs) as [Hle Hr]. split; [done|].
    destruct Hr as [Hr|[(y & Hy & Hry)|Hr]]; [by left| |by right; right]. right; left. exists y.
    split; [rewrite elem_of_app; by left|done].
Qed.

Lemma reachable_ok cfg source s : rtc threads_step (spawned cfg source) s -> threads_ok cfg s.
Proof.
  revert s. apply (rtc_ind_r (threads_ok cfg)).
  - split; cbn; [done|by apply Forall_singleton|]. apply Forall_singleton. by intros since Hs.
  - intros s s' _ Hst. by apply threads_step_ok.
Qed.

(** C4.  No wake-up is lost, at the granularity of locks and atomics: whenever a
    thread sleeps in [get] or [wait_ready], it has been notified since it made
    its waker, or another thread is on its way to notify it (between its push
    and its notification), or it is right to sleep: the source has not ended,
    and no proxy in the pool serves the scheme, or the pool is smaller than
    the minimum it waits for. *)
Theorem threads_wake cfg source w ts :
  rtc threads_step (spawned cfg source) (w, ts) ->
  (forall g, Get_asleep g ∈ ts ->
     (g_since g < notify w)%N \/ owes ts \/ (exhausted w = false /\ none_serves (g_scheme g) w)) /\
  (forall n since, Gate_asleep n since ∈ ts ->
     (since < notify w)%N \/ owes ts \/ (exhausted w = false /\ len w < n)).
Proof.
  intros Hr. destruct (reachable_ok _ _ _ Hr) as [_ _ Ha]. cbn [fst snd] in Ha. rewrite Forall_forall in Ha.
  split; [intros g Hg|intros n since Hg]; by apply (Ha _ Hg).
Qed.

(** ** Conservation *)

(** The proxies a thread has: on lease to its caller, on their way back, or
    still to be imported. *)
Definition held (pc : Pc) : list Proxy :=
  match pc with
  | Get_record _ p | Get_drawn _ p | Get_probing _ p | Get_bench _ p _ | Put p _ | Add p | Idle (Some p) => [p]
  | Import src | Import_ring src => src
  | _ => []
  end.

Definition all_held (s : Pool * list Pc) : list Proxy := proxies s.1 ++ (s.2 ≫= held).

Lemma lock_select_drawn ctx w p w' : lock_select ctx w = (Some p, w') -> proxies w ≡ₚ p :: proxies w'.
Proof.
  intros E. pose proof (lock_select_spec ctx w) as Hs. rewrite E in Hs.
  destruct Hs as (_ & _ & _ & i & e & _ & -> & Hp & _). unfold proxies. cbn [fst snd] in Hp. by rewrite Hp.
Qed.

Lemma append_proxies p until w : proxies (append p until w) = proxies w ++ [p].
Proof. unfold proxies, append. cbn [state set_state]. by rewrite fmap_app. Qed.

(** The proxies a thread's next step drops for good: one whose record is over
    the limits when it comes back, one the countries do not admit, the entries a
    removal is for, and an addition whose address is pooled already. *)
Definition leaving (w : Pool) (pc : Pc) : list Proxy :=
  match pc with
  | Put p _ | Get_bench _ p _ => if decide (over_limits (config w) p) then [p] else []
  | Import (p :: _) => if country_ok p (countries (config w)) then [] else [p]
  | Remove h pt => filter (fun p => key_of p = (h, pt)) (proxies w)
  | Add p => if decide (key_of p ∈ addrs w) then [p] else []
  | _ => []
  end.

Lemma unhealthy_decide cfg p {A} (a b : A) : (if unhealthy cfg p then a else b) = if decide (over_limits cfg p) then a else b.
Proof. pose proof (unhealthy_spec cfg p). destruct (unhealthy cfg p); case_decide; naive_solver. Qed.

Lemma remove_proxies h pt w :
  proxies w ≡ₚ proxies (remove h pt w).2 ++ filter (fun p => key_of p = (h, pt)) (proxies w).
Proof.
  unfold proxies. rewrite remove_state. induction (state w) as [|e l IH]; [done|].
  rewrite fmap_cons, !filter_cons. unfold entry_key at 1. repeat case_decide; try done.
  - rewrite fmap_cons. cbn [app]. by rewrite IH at 1.
  - by rewrite IH at 1; rewrite Permutation_middle.
Qed.

Lemma add_proxies p w : proxies w ++ [p] ≡ₚ proxies (add p w) ++ (if decide (key_of p ∈ addrs w) then [p] else []).
Proof.
  rewrite add_cases. case_decide; [done|]. unfold proxies. cbn [state push notify_waiters set_state].
  by rewrite fmap_app, app_nil_r.
Qed.

Lemma keys_app l1 l2 : keys (l1 ++ l2) = keys l1 ++ keys l2.
Proof. apply fmap_app. Qed.

(** The exact account of a thread's step: what was in the pool and with the
    thread is there afterwards, but for what the step drops. *)
Lemma thread_step_account x y :
  thread_step x y ->
  proxies x.1 ++ held x.2 ≡ₚ (proxies y.1 ++ held y.2) ++ leaving x.1 x.2.
Proof.
  assert (forall w w' pc pc', proxies w' = proxies w -> held pc' = held pc -> leaving w pc = [] ->
            proxies w ++ held pc ≡ₚ (proxies w' ++ held pc') ++ leaving w pc) as Hsame
    by (intros w w' pc pc' -> -> ->; by rewrite app_nil_r).
  destruct 1 as [| | |w g ctx p w' E|w g ctx w' E|w g p|w g p| | |w g p until| |w g| |w n|w n since|w n since| |w p until| |w p src
                | | |w h pt|w p|w sch cc o w' E]; cbn [fst snd]; try (by apply Hsame); rewrite ?unhealthy_decide.
  - cbn [held leaving]. rewrite !app_nil_r, (lock_select_drawn _ _ _ _ E). apply Permutation_cons_append.
  - pose proof (lock_select_spec ctx w) as Hs. rewrite E in Hs. destruct Hs as (_ & _ & _ & Hs & _). cbn in Hs.
    unfold after_miss, proxies. rewrite Hs. case_match; by rewrite !app_nil_r.
  - destruct (record_frame (g_key g) p w) as (_ & Hs & _). unfold proxies. rewrite Hs. by rewrite app_nil_r.
  - apply Hsame; [done| |done]. by repeat case_match.
  - cbn [leaving]. unfold after_bench. repeat case_match; cbn [fst snd held];
      rewrite ?app_nil_r, ?append_proxies; done.
  - apply Hsame; [done| |done]. unfold after_bench. by case_match.
  - apply Hsame; [done| |done]. by case_match.
  - apply Hsame; [done| |done]. by case_match.
  - apply Hsame; [done| |done]. by case_match.
  - apply Hsame; [done| |done]. by case_match.
  - cbn [leaving]. case_match; cbn [fst snd held]; rewrite ?app_nil_r, ?append_proxies; done.
  - cbn [leaving]. case_match; cbn [fst snd held]; rewrite ?append_proxies, ?app_nil_r, <-?app_assoc; [done|].
    by rewrite Permutation_cons_append.
  - cbn [held leaving]. rewrite !app_nil_r. apply remove_proxies.
  - cbn [held leaving]. rewrite app_nil_r. apply add_proxies.
  - pose proof (try_get_cases sch cc w) as Hs. rewrite E in Hs. cbv zeta in Hs. cbn [held leaving].
    rewrite !app_nil_r. destruct o as [p|].
    + destruct Hs as (e & _ & _ & -> & Hp). unfold proxies. rewrite Hp. apply Permutation_cons_append.
    + destruct Hs as [-> _]. by rewrite app_nil_r.
Qed.

Lemma all_held_mid w ts1 pc ts2 :
  keys (all_held (w, ts1 ++ pc :: ts2)) ≡ₚ keys (proxies w ++ held pc) ++ keys ((ts1 ++ ts2) ≫= held).
Proof.
  unfold all_held, keys. cbn [fst snd]. rewrite !bind_app, bind_cons, !fmap_app, <-!app_assoc.
  by rewrite (Permutation_app_swap_app (key_of <$> (ts1 ≫= held))).
Qed.

(** What the caller of a finished call does with the proxy it was given: it
    returns it, with its record advanced, or adds it back. *)
Definition by_caller (pc pc' : Pc) : Prop :=
  match pc, pc' with
  | Idle (Some p), Put p' _ => key_of p' = key_of p
  | Idle (Some p), Add p' => p' = p
  | _, _ => False
  end.

(** The exact account of a step of the whole: one thread's step, or its
    caller's, after which every address is where it was or with that thread,
    but for those the step drops; or a new call, which brings what it adds. *)
Definition accounted (s s' : Pool * list Pc) : Prop :=
  (exists ts1 pc pc' ts2, s.2 = ts1 ++ pc :: ts2 /\ s'.2 = ts1 ++ pc' :: ts2 /\
     (thread_step (s.1, pc) (s'.1, pc') \/ (by_caller pc pc' /\ s'.1 = s.1)) /\
     keys (all_held s) ≡ₚ keys (all_held s') ++ keys (leaving s.1 pc)) \/
  (exists pc, s'.1 = s.1 /\ s'.2 = s.2 ++ [pc] /\ (held pc <> [] -> refreshed = true /\ exists p, pc = Add p) /\
     keys (all_held s') ≡ₚ keys (all_held s) ++ keys (held pc)).

Lemma may_start_held pc : may_start refreshed pc = true -> held pc <> [] -> refreshed = true /\ exists p, pc = Add p.
Proof. destruct pc; try done. cbn. eauto. Qed.

Lemma threads_step_accounted s s' : threads_step s s' -> accounted s s'.
Proof.
  destruct 1 as [w w' ts1 pc pc' ts2 Hst|w ts pc Hm|w ts1 p p' until ts2 Hk|w ts1 p ts2]; cbn [fst snd].
  - left. exists ts1, pc, pc', ts2. split_and!; [done..|by left|]. cbn [fst].
    rewrite !all_held_mid. unfold keys at 1.
    rewrite (thread_step_account _ _ Hst), fmap_app, <-!app_assoc. apply Permutation_app_head, Permutation_app_comm.
  - right. exists pc. split_and!; [done..|by apply may_start_held|].
    unfold all_held. cbn [fst snd]. rewrite bind_app, bind_cons. cbn [mbind list_bind].
    by rewrite app_nil_r, app_assoc, keys_app.
  - left. exists ts1, (Idle (Some p)), (Put p' until), ts2. split_and!; [done..|by right|].
    rewrite !all_held_mid, !keys_app. cbn [held leaving fst]. cbn [keys fmap list_fmap]. by rewrite Hk, app_nil_r.
  - left. exists ts1, (Idle (Some p)), (Add p), ts2. split_and!; [done..|by right|].
    rewrite !all_held_mid. cbn [held leaving fst]. by rewrite app_nil_r.
Qed.

Lemma threads_step_held s s' :
  threads_step s s' -> refreshed = false -> keys (all_held s') ⊆+ keys (all_held s).
Proof.
  intros [(ts1 & pc & pc' & ts2 & _ & _ & _ & E)|(pc & _ & _ & Hn & E)]%threads_step_accounted Hr.
  - rewrite E. by apply submseteq_inserts_r.
  - rewrite E. destruct (held pc) eqn:Eh; [by rewrite app_nil_r|]. destruct Hn; [done|congruence].
Qed.

(** ** The session map *)

Lemma thread_step_sessions cfg x y :
  thread_step x y -> some_key first_key -> config x.1 = cfg ->
  size (sessions x.1) <= Nat.max 1 (max_sessions cfg) -> size (sessions y.1) <= Nat.max 1 (max_sessions cfg).
Proof.
  destruct 1 as [| | |w g ctx p w' E|w g ctx w' E|w g p| | | |w g p until| | | | | | | |w p until| |w p src
                | | | |w p|w sch cc o w' E]; cbn [fst snd]; intros Hfk Hc Hb; try done.
  1-2: pose proof (lock_select_spec ctx w) as Hs; rewrite E in Hs; cbn [fst snd] in Hs; destruct Hs as (_ & -> & _); done.
  - unfold record. case_bool_decide; case_bool_decide; try done.
    all: etransitivity; [by apply record_session_size|]; cbn [sessions config set_cursors]; rewrite Hc; lia.
  - by case_match.
  - by case_match.
  - by case_match.
  - unfold add. by case_match.
  - unfold try_get in E. destruct (mbind _ _) as [[? ?]|]; by injection E as <- <-.
Qed.

(** C3.  The pool loses nothing and doubles nothing, at the granularity of locks and
    atomics.  However the threads interleave, every step keeps every proxy: what
    was in the pool, in the hands of a thread or its caller, on its way back or
    still to be imported is there afterwards, but for what the step is for: a
    returned proxy over the health limits, a proxy the countries do not admit,
    the entries of the address a removal names, and an addition whose address is
    pooled already.  As long as no watcher or re-check loop adds any, every
    proxy is one the source had, and none is there twice.  What a call of [get]
    has drawn serves the scheme it was asked for; and the session map keeps its
    bound. *)
Theorem threads_conserve cfg source s :
  NoDup (key_of <$> source) -> rtc threads_step (spawned cfg source) s ->
  (forall s', threads_step s s' -> accounted s s') /\
  (refreshed = false -> NoDup (key_of <$> all_held s) /\ key_of <$> all_held s ⊆+ key_of <$> source) /\
  (forall g p, Get_drawn g p ∈ s.2 -> g_scheme g ∈ schemes p) /\
  (some_key first_key -> size (sessions s.1) <= Nat.max 1 (max_sessions cfg)).
Proof.
  intros Hn Hr. split; [intros s'; apply threads_step_accounted|]. split_and!.
  - intros Hrf. assert (keys (all_held s) ⊆+ keys source) as Hk.
    { revert s Hr. apply (rtc_ind_r (fun s => keys (all_held s) ⊆+ keys source)).
      - unfold all_held. cbn. by rewrite app_nil_r.
      - intros s s' _ Hst Hk. pose proof (threads_step_held _ _ Hst Hrf). by etrans. }
    split; [|done]. exact (submseteq_NoDup _ _ Hk Hn).
  - intros g p Hg. destruct (reachable_ok _ _ _ Hr) as [_ Hkn _]. rewrite Forall_forall in Hkn. by apply (Hkn _ Hg).
  - intros Hfk. revert s Hr.
    apply (rtc_ind_r (fun s => size (sessions s.1) <= Nat.max 1 (max_sessions cfg))); [cbn; rewrite map_size_empty; lia|].
    intros s s' Hr Hst Hb. destruct (reachable_ok _ _ _ Hr) as [Hc _ _].
    destruct Hst as [w w' ts1 pc pc' ts2 Hst| | |]; [|done..].
    exact (thread_step_sessions cfg _ _ Hst Hfk Hc Hb).
Qed.

(** ** Selections *)

(** The best and the random choice look at nothing but the entries. *)
Lemma best_for_pure pool ctx ctx' x :
  ctx_strategy ctx = Best \/ ctx_strategy ctx = Random ->
  ctx_scheme ctx' = ctx_scheme ctx -> ctx_strategy ctx' = ctx_strategy ctx -> ctx_now ctx' = ctx_now ctx ->
  ctx_prefer ctx' = ctx_prefer ctx -> best_for pool ctx' x = best_for pool ctx x.
Proof.
  destruct ctx as [sch st stk cur now pre], ctx' as [sch' st' stk' cur' now' pre']; cbn.
  intros Hst -> -> -> ->. by destruct Hst as [-> | ->].
Qed.

Lemma record_pure key p w : strategy (config w) = Best \/ strategy (config w) = Random -> record first_key key p w = w.
Proof. unfold record. intros [Hs|Hs]; rewrite Hs, (bool_decide_false (_ = RoundRobin)), Hs; done. Qed.

(** C5.  A selection is of the pool as it is while the lock is held, whatever
    happened since the call read the pin, the cursor and the clock: the proxy
    removed serves the scheme, is not benched at the time read unless all that
    serve are, and is the strategy's choice among the entries there are; and
    if there is none, no entry serves the scheme.  For the strategies that keep
    no state between calls this is one atomic [try_select]; and for all of them
    a call that is not interrupted is [try_select]. *)
Theorem select_linearizable cfg source w ts1 g ctx ts2 w' pc' :
  rtc threads_step (spawned cfg source) (w, ts1 ++ Get_lock g ctx :: ts2) ->
  thread_step (w, Get_lock g ctx) (w', pc') ->
  ((exists p i e, pc' = Get_record g p /\ state w !! i = Some e /\ p = proxy e /\ state w ≡ₚ e :: state w' /\
      in_tier (state w) (g_scheme g) (ctx_now ctx) e /\ chosen_ok (state w) ctx (rng w) i) \/
   (pc' = after_miss g /\ state w' = state w /\ none_serves (g_scheme g) w)) /\
  (strategy cfg = Best \/ strategy cfg = Random ->
   let r := try_select first_key (ctx_now ctx) (g_scheme g) (g_key g) w in
   w' = r.2 /\ pc' = match r.1 with Some p => Get_record g p | None => after_miss g end) /\
  (forall now, let r := try_select first_key now (g_scheme g) (g_key g) w in
     rtc thread_step (w, Get_pin g) (r.2, match r.1 with Some p => Get_drawn g p | None => after_miss g end)).
Proof.
  intros Hr Hst. destruct (reachable_ok _ _ _ Hr) as [Hc Hkn _]. cbn [fst snd] in *.
  rewrite Forall_app, Forall_cons in Hkn. destruct Hkn as (_ & (Hsch & Hstr & Hpre & _) & _).
  assert (exists o, lock_select ctx w = (o, w') /\ pc' = match o with Some p => Get_record g p | None => after_miss g end)
    as (o & E & ->) by (inversion Hst; subst; eauto).
  split_and!; [| |intros now; apply uninterrupted_select].
  - pose proof (lock_select_spec ctx w) as Hs. rewrite E, Hsch in Hs. cbn [fst snd] in Hs.
    destruct Hs as (_ & _ & _ & Hs). destruct o as [p|]; [left|by right].
    destruct Hs as (i & e & Hi & Hp & Hperm & Ht & Hok). by exists p, i, e.
  - intros Hb. cbv zeta. rewrite try_select_sections.
    assert (lock_select (select_ctx w (ctx_now ctx) (g_scheme g) (g_key g)) w = (o, w')) as ->.
    { rewrite <-E. unfold lock_select. rewrite (best_for_pure (state w) ctx); [done|..]; cbn; congruence || naive_solver. }
    destruct o as [p|]; [|done]. cbn [fst snd]. split; [|done]. symmetry. apply record_pure.
    pose proof (lock_select_spec ctx w) as Hs. rewrite E in Hs. destruct Hs as ((Hcf & _) & _). cbn in Hcf.
    rewrite Hcf, Hc. done.
Qed.
End Proofs.

(** ** A run: a client goes to sleep just before its proxy is imported *)

Definition run_proxy : Proxy := add_type Http (Some High) (Proxy_new (V4 10 0 0 1) 80 ∅).
Definition run_call : Getting := get_call SHttp (KeyIp UNSPECIFIED).
Definition run_pool : Pool := empty_pool PoolConfig_default false.

#[local] Notation run_step := (@threads_step AsciiOnly any_key false).

Definition run_ctx : SelectCtx := @arm run_pool run_call None 0%N.

Lemma one_thread w w' pc pc' :
  @thread_step AsciiOnly any_key (w, pc) (w', pc') -> run_step (w, [Import [run_proxy]; pc]) (w', [Import [run_proxy]; pc']).
Proof. exact (Ts_thread any_key false w w' [Import [run_proxy]] pc pc' []). Qed.

Lemma run_locked :
  rtc run_step (spawned PoolConfig_default [run_proxy]) (run_pool, [Import [run_proxy]; Get_lock run_call run_ctx]).
Proof.
  eapply rtc_l. { by apply (Ts_call any_key false _ [Import [run_proxy]] (Get_top run_call)). }
  eapply rtc_l. { apply one_thread, Th_waker. }
  eapply rtc_l. { apply one_thread, Th_pin. }
  apply rtc_once, one_thread. apply (Th_cursor any_key _ _ _ 0%N).
Qed.

Definition run_pushed : Pool * list Pc := (append run_proxy None run_pool, [Import_ring []; Get_asleep run_call]).

Lemma run_asleep : rtc run_step (spawned PoolConfig_default [run_proxy]) run_pushed.
Proof.
  etrans; [exact run_locked|].
  eapply rtc_l. { apply one_thread. by apply (Th_none any_key run_pool run_call run_ctx run_pool). }
  eapply rtc_l. { apply one_thread, Th_missed. }
  apply rtc_once.
  apply (Ts_thread any_key false run_pool (append run_proxy None run_pool) [] (Import [run_proxy]) (Import_ring [])
           [Get_asleep run_call]).
  apply (Th_import any_key run_pool run_proxy []).
Qed.

Lemma threads_wake_witness :
  (forall g, Get_asleep g ∈ run_pushed.2 ->
     (g_since g < notify run_pushed.1)%N \/ owes run_pushed.2 \/
     (exhausted run_pushed.1 = false /\ none_serves (g_scheme g) run_pushed.1)) /\
  (forall n since, Gate_asleep n since ∈ run_pushed.2 ->
     (since < notify run_pushed.1)%N \/ owes run_pushed.2 \/ (exhausted run_pushed.1 = false /\ len run_pushed.1 < n)).
Proof. exact (@threads_wake AsciiOnly any_key false PoolConfig_default [run_proxy] _ _ run_asleep). Defined.

Lemma threads_conserve_witness :
  (forall s', run_step run_pushed s' -> @accounted AsciiOnly any_key false run_pushed s') /\
  (false = false -> NoDup (key_of <$> all_held run_pushed) /\ key_of <$> all_held run_pushed ⊆+ key_of <$> [run_proxy]) /\
  (forall g p, Get_drawn g p ∈ run_pushed.2 -> g_scheme g ∈ schemes p) /\
  (some_key any_key -> size (sessions run_pushed.1) <= Nat.max 1 (max_sessions PoolConfig_default)).
Proof.
  apply (@threads_conserve AsciiOnly any_key false PoolConfig_default [run_proxy] run_pushed);
    [apply NoDup_singleton|exact run_asleep].
Defined.

Lemma select_linearizable_witness :
  ((exists p i e, Get_missed run_call = Get_record run_call p /\ state run_pool !! i = Some e /\ p = proxy e /\
      state run_pool ≡ₚ e :: state run_pool /\
      in_tier (state run_pool) SHttp 0%N e /\ chosen_ok (state run_pool) run_ctx (rng run_pool) i) \/
   (Get_missed run_call = after_miss run_call /\ state run_pool = state run_pool /\ none_serves SHttp run_pool)) /\
  (Best = Best \/ Best = Random ->
   let r := try_select any_key 0%N SHttp (KeyIp UNSPECIFIED) run_pool in
   run_pool = r.2 /\ Get_missed run_call = match r.1 with Some p => Get_record run_call p | None => after_miss run_call end) /\
  (forall now, let r := try_select any_key now SHttp (KeyIp UNSPECIFIED) run_pool in
     rtc (@thread_step AsciiOnly any_key) (run_pool, Get_pin run_call)
       (r.2, match r.1 with Some p => Get_drawn run_call p | None => after_miss run_call end)).
Proof.
  apply (@select_linearizable AsciiOnly any_key false PoolConfig_default [run_proxy] run_pool [Import [run_proxy]] run_call
           run_ctx [] run_pool (Get_missed run_call)); [exact run_locked|by apply (Th_none any_key run_pool run_call run_ctx)].
Defined.

(** Taking a proxy out and adding it back, as the agent tool does, is not atomic:
    a removal in between finds nothing to remove, and the proxy is back. *)
Lemma removal_lost :
  let w := set_state [fresh_entry run_proxy] run_pool in
  exists w', rtc run_step (w, []) (w', [Idle None; Idle None]) /\ proxies w' = [run_proxy].
Proof.
  intros w. set (out := set_state [] w). exists (add run_proxy out). split; [|reflexivity].
  eapply rtc_l. { by apply (Ts_call any_key false w [] (Try_get SHttp None)). }
  eapply rtc_l. { apply (Ts_thread any_key false w out [] _ (Idle (Some run_proxy)) []). by apply Th_try_get. }
  eapply rtc_l. { by apply (Ts_call any_key false out [Idle (Some run_proxy)] (Remove (V4 10 0 0 1) 80)). }
  eapply rtc_l. { apply (Ts_thread any_key false out out [Idle (Some run_proxy)] _ (Idle None) []).
                  apply (Th_remove any_key out (V4 10 0 0 1) 80%N). }
  eapply rtc_l. { apply (Ts_add_back any_key false out [] run_proxy [Idle None]). }
  apply rtc_once. apply (Ts_thread any_key false out (add run_proxy out) [] (Add run_proxy) (Idle None) [Idle None]).
  apply Th_add.
Qed.
