(* ===== verification/Listener.v ===== *)
(** * The server's listener: [src/server.rs] ([serve], [serve_metrics], [ServerHandle])

    The task that [serve] spawns, as a step relation: the startup gate, the
    accept loop and the cancellation, interleaved with whatever the importer
    and the clients' tasks do to the shared pool.  The metrics responder, and
    the liveness probe that the pool runs on a lease.  Binding the sockets is a
    parameter. *)

From stdpp Require Import base list gmap strings relations.
From Stdlib Require Import Ascii NArith ZArith Lia.
From S2P Require Import Prelude Bytes Text Float Net Utils Io Types ProxyModel Negotiator Resolver.
From S2P Require Import Pool PoolProofs Server.

(** ** The accept loop *)

(** Waiting at the gate, in the accept loop, or returned. *)
Inductive Phase : Type := Gate | Accepting | Stopped.

#[export] Instance phase_eq_dec : EqDecision Phase.
Proof. solve_decision. Defined.

Record Listener := {
  phase : Phase;
  cancel : bool;                       (** the handle's token is cancelled *)
  shared : Pool;
  spawned : list (IpAddr * Conn);      (** the clients handed to a task, oldest first *)
}.

Definition set_phase (ph : Phase) (l : Listener) : Listener :=
  {| phase := ph; cancel := cancel l; shared := shared l; spawned := spawned l |}.
Definition set_shared (w : Pool) (l : Listener) : Listener :=
  {| phase := phase l; cancel := cancel l; shared := w; spawned := spawned l |}.

(** [ServerHandle::shutdown], and the handle's drop. *)
Definition shutdown (l : Listener) : Listener :=
  {| phase := phase l; cancel := true; shared := shared l; spawned := spawned l |}.

Definition hand_over (ip : IpAddr) (c : Conn) (l : Listener) : Listener :=
  {| phase := phase l; cancel := cancel l; shared := shared l; spawned := spawned l ++ [(ip, c)] |}.

(** What [serve] leaves behind it: the expectation is computed once, the loop's
    task starts at the gate. *)
Definition serve {E} (bind : result E (IpAddr * N)) (w : Pool) (auth : option bytes)
    : result E ((IpAddr * N) * option AuthExpect * Listener) :=
  local ← bind;
  Ok (local, auth_expect <$> auth, {| phase := Gate; cancel := false; shared := w; spawned := [] |}).

Section Accept.
Context (min_queue : nat).

(** One step of the loop's task, or of anybody else.  When both arms of a
    [select!] are ready either may be taken. *)
Inductive accept_step : Listener -> Listener -> Prop :=
  | A_others l f : accept_step l (set_shared (f (shared l)) l)
  | A_shutdown l : accept_step l (shutdown l)
  | A_cancelled l : cancel l = true -> phase l <> Stopped -> accept_step l (set_phase Stopped l)
  | A_ready l w :
      phase l = Gate -> wait_ready [] min_queue (shared l) = Returned tt w ->
      accept_step l (set_phase Accepting (set_shared w l))
  | A_accept l ip c : phase l = Accepting -> accept_step l (hand_over ip c l)
  | A_failed l : phase l = Accepting -> accept_step l l.
End Accept.

(** ** The metrics responder *)

Definition METRICS_BUF : nat := 1024.

Fixpoint drop_bytes (n : nat) (r : list read_event) : list read_event :=
  match n, r with
  | S n', RdByte _ :: r' => drop_bytes n' r'
  | _, _ => r
  end.

(** One [read] into a buffer of [n] bytes, of which [arrived] are there. *)
Definition read_some (n arrived : nat) (r : list read_event) : list read_event :=
  match r with
  | RdByte _ :: r' => drop_bytes (min arrived n - 1) r'
  | _ => tail r
  end.

(** The request is drained and ignored; both outcomes of the I/O are. *)
Definition serve_metrics_client (arrived : nat) (w : Pool) (c : Conn) : Conn :=
  (write (metrics_response w) (set_rx (read_some METRICS_BUF arrived (rx c)) c)).2.

(** ** The probe of a lease *)

(** [None] of the outcome of dialling: the deadline passed first. *)
Definition verify_live (clients : Clients) (cfg : PoolConfig) (dial : IpAddr -> N -> dialed) (p : Proxy) : bool :=
  let '(h, pt) := verify_target cfg in
  probe_tunnel clients (dial (host p) (port p)) {| t_host := h; t_ip := None; t_port := pt |} (auth p).

(** ** Properties *)

(** What the gate waits for. *)
Definition gate_open (min_queue : nat) (w : Pool) : Prop :=
  min_queue <= len w \/ exhausted w = true.

Lemma wait_ready_now n w w' : wait_ready [] n w = Returned tt w' <-> w' = w /\ gate_open n w.
Proof.
  unfold wait_ready, wait_ready_loop, gate_open. destruct (Nat.eqb_spec n 0) as [->|Hn].
  { split; [intros [= <-]; auto with lia|by intros [-> _]]. }
  rewrite <- (Nat.leb_le n (len w)), <- orb_true_iff.
  destruct ((n <=? len w) || exhausted w); split; try done; [by intros [= <-]|by intros [-> _]|by intros []].
Qed.

Section Gate.
Context (min_queue : nat).

Abbreviation accepts := (rtc (accept_step min_queue)).

(** The start of the loop's task. *)
Definition at_start (w : Pool) (l : Listener) : Prop :=
  phase l = Gate /\ cancel l = false /\ shared l = w /\ spawned l = [].

(** The gate was open at some moment, before any client. *)
Definition gate_passed (l0 l : Listener) : Prop :=
  exists l1, accepts l0 l1 /\ accepts l1 l /\ spawned l1 = [] /\ gate_open min_queue (shared l1).

Record accept_inv (l0 l : Listener) : Prop := {
  ai_gate : phase l = Gate -> spawned l = [];
  ai_loop : phase l = Accepting -> gate_passed l0 l;
  ai_any : spawned l <> [] -> gate_passed l0 l;
  ai_stop : phase l = Stopped -> cancel l = true;
}.

Lemma gate_passed_step l0 l l' : gate_passed l0 l -> accept_step min_queue l l' -> gate_passed l0 l'.
Proof. intros (l1 & H0 & H1 & H2) Hs. exists l1. split_and!; [done| |apply H2..]. by eapply rtc_r. Qed.

Lemma accept_inv_step l0 l l' :
  accepts l0 l -> accept_inv l0 l -> accept_step min_queue l l' -> accept_inv l0 l'.
Proof.
  intros Hr [Ig Il Ia Is] Hs. pose proof (gate_passed_step l0 l l') as Hp.
  assert (phase l = Accepting \/ spawned l <> [] -> gate_passed l0 l') as Hp' by (intros []; auto).
  destruct Hs as [l f|l|l Hc Hn|l w Hg Hw|l ip c Ha|l Ha]; constructor; cbn in *; try done; auto.
  - intros _. apply wait_ready_now in Hw as Hw'. destruct Hw' as [-> Ho]. exists l.
    split_and!; [done| |by apply Ig|done]. eapply rtc_once. by apply A_ready.
  - by rewrite Ha.
Qed.

Lemma accept_inv_reachable w l0 l : at_start w l0 -> accepts l0 l -> accept_inv l0 l.
Proof.
  intros (Hp & Hc & _ & Hs). revert l. apply (rtc_ind_r (accept_inv l0)).
  - constructor; rewrite ?Hp, ?Hs; [done|discriminate|by intros []|discriminate].
  - intros l l' Hr Hstep IH. by eapply accept_inv_step.
Qed.

Lemma stopped_stays l l' : accepts l l' -> phase l = Stopped -> phase l' = Stopped /\ spawned l' = spawned l.
Proof.
  induction 1 as [l|l l1 l' Hs _ IH]; intros Hst; [done|].
  assert (phase l1 = Stopped /\ spawned l1 = spawned l) as [H1 H2].
  { destruct Hs; cbn; try done; congruence. }
  rewrite <- H2. by apply IH.
Qed.

(** C35.  No client is served before the pool is ready: whenever a client has been
    handed to a task, there was an earlier moment at which none had been and at
    which the pool held the configured minimum or its source was exhausted;
    once that moment is there the loop can always start, so that a source that
    is too small delays nobody for ever; the loop ends only after a shutdown, a
    shutdown can always end it, and once it has ended no client is handed over
    any more.  (Between the shutdown and the end a client that is ready may
    still be taken: [accepted_after_shutdown].) *)
Theorem clients_wait_for_pool {E} (bind : result E (IpAddr * N)) w auth local expect l0 l :
  serve bind w auth = Ok (local, expect, l0) -> accepts l0 l ->
  (spawned l <> [] -> gate_passed l0 l) /\
  (phase l = Gate -> gate_open min_queue (shared l) ->
     exists l', accept_step min_queue l l' /\ phase l' = Accepting) /\
  (phase l <> Stopped -> cancel l = true -> exists l', accept_step min_queue l l' /\ phase l' = Stopped /\ spawned l' = spawned l) /\
  (phase l = Stopped -> cancel l = true /\ forall l', accepts l l' -> spawned l' = spawned l).
Proof.
  intros Hserve Hr. assert (at_start w l0) as H0.
  { unfold serve in Hserve. destruct bind as [a|e]; [|done]. by injection Hserve as _ _ <-. }
  destruct (accept_inv_reachable _ _ _ H0 Hr) as [Ig Il Ia Is]. split_and!; [exact Ia| | |].
  - intros Hg Ho. exists (set_phase Accepting (set_shared (shared l) l)). split; [|done].
    apply A_ready; [done|]. by apply wait_ready_now.
  - intros Hn Hc. exists (set_phase Stopped l). split; [by apply A_cancelled|done].
  - intros Hst. split; [by apply Is|]. intros l' Hl'. by apply (stopped_stays _ _ Hl').
Qed.

(** The two arms of the loop's [select!] may be ready together: a client that is
    there when the token is cancelled may be taken before the loop ends. *)
Lemma accepted_after_shutdown w ip c :
  gate_open min_queue w ->
  let l0 := {| phase := Gate; cancel := false; shared := w; spawned := [] |} in
  exists l1 l2, accepts l0 l1 /\ cancel l1 = true /\ spawned l1 = [] /\
    accept_step min_queue l1 l2 /\ spawned l2 = [(ip, c)].
Proof.
  intros Ho l0. exists (shutdown (set_phase Accepting (set_shared w l0))). eexists. split_and!; [|done|done| |].
  - eapply rtc_l; [apply A_ready with (w := w); [done|by apply wait_ready_now]|]. apply rtc_once, A_shutdown.
  - by apply (A_accept min_queue _ ip c).
  - done.
Qed.
End Gate.

(** A source of one proxy and a gate of two: the loop starts when the source is
    exhausted, serves a client, and stops. *)
Definition sample_pool : Pool := @from_proxies AsciiOnly [add_type Http None (Proxy_new (V4 10 0 0 1) 80 ∅)] PoolConfig_default.

Definition sample_listener : Listener :=
  {| phase := Stopped; cancel := true; shared := sample_pool; spawned := [(UNSPECIFIED, peer [])] |}.

Lemma sample_accepts :
  rtc (accept_step 2) {| phase := Gate; cancel := false; shared := sample_pool; spawned := [] |} sample_listener.
Proof.
  eapply rtc_l. { apply A_ready with (w := sample_pool); reflexivity. }
  eapply rtc_l. { apply (A_accept _ _ UNSPECIFIED (peer [])). reflexivity. }
  eapply rtc_l. { apply A_shutdown. }
  eapply rtc_l. { apply A_cancelled; [reflexivity|discriminate]. }
  apply rtc_refl.
Qed.

Lemma clients_wait_for_pool_witness :
  let l0 := {| phase := Gate; cancel := false; shared := sample_pool; spawned := [] |} in
  let l := sample_listener in
  (spawned l <> [] -> gate_passed 2 l0 l) /\
  (phase l = Gate -> gate_open 2 (shared l) -> exists l', accept_step 2 l l' /\ phase l' = Accepting) /\
  (phase l <> Stopped -> cancel l = true -> exists l', accept_step 2 l l' /\ phase l' = Stopped /\ spawned l' = spawned l) /\
  (phase l = Stopped -> cancel l = true /\ forall l', rtc (accept_step 2) l l' -> spawned l' = spawned l).
Proof.
  intros l0 l.
  apply (clients_wait_for_pool 2 (Ok (UNSPECIFIED, 8888%N) : result unit _) sample_pool None (UNSPECIFIED, 8888%N) None l0 l);
    [reflexivity|exact sample_accepts].
Defined.
