(* ===== verification/Connector.v ===== *)
(** * The in-process connector: [src/connector.rs]

    The service that dials every connection through a pooled proxy: which
    protocol of a proxy may carry a client's own end-to-end TLS, and the retry
    loop over the pool.  The parsed [Uri], the dialling of a proxy, the DNS
    client and the other users of the pool are arguments. *)

From stdpp Require Import base list gmap strings.
From Stdlib Require Import Ascii NArith ZArith Lia.
From S2P Require Import Prelude Bytes Text Float Net Types ProxyModel Negotiator Resolver Pool PoolProofs.
From S2P Require Import Io Broker.

Record RotateConfig := { r_max_tries : nat; r_timeout : duration }.

Definition RotateConfig_default : RotateConfig := {| r_max_tries := 3; r_timeout := from_secs 8 |}.

(** What the loop reads off a [hyper::Uri]. *)
Record Uri := { scheme_str : option bytes; uri_host : option bytes; port_u16 : option N }.

(** The kinds of [io::Error] the service returns, with their text. *)
Inductive IoError : Type := InvalidInput (m : bytes) | NotConnected (m : bytes) | OtherError (m : bytes).

Definition has_type (p : Proxy) (pr : Proto) : bool := bool_decide (is_Some (types p !! pr)).

Definition tunnel_proto (p : Proxy) (sch : Scheme) : option Proto :=
  match find (has_type p) [Socks5; Socks4; Connect80] with
  | Some pr => Some pr
  | None => if bool_decide (sch = SHttp) && has_type p Http then Some Http else None
  end.

Definition uri_scheme (u : Uri) : Scheme :=
  if bool_decide (scheme_str u = Some (bs "https")) then SHttps else SHttp.

Definition uri_target (dns : dns_client) (u : Uri) (raw_host : bytes) : Target :=
  let h := bare_host raw_host in
  {| t_host := h; t_ip := ok (resolve dns h);
     t_port := default (if bool_decide (uri_scheme u = SHttps) then 443%N else 80%N) (port_u16 u) |}.

(** What one turn of the loop meets: what the other users did to the pool since
    the last one, the wait for a proxy, the outcome of dialling it (its deadline
    is the configuration's [timeout]), and what the others do before the proxy
    is returned. *)
Record DialEnv := {
  d_before : Pool -> Pool;
  d_waiting : list Await;
  d_lease : instant;
  d_dialing : dialed;
  d_meanwhile : Pool -> Pool;
  d_return : instant;
}.

Definition dial (clients : Clients) (tcp : dialed) (p : Proxy) (pr : Proto) (t : Target)
    : result ProxyError Stream :=
  match tcp with
  | None => Err Timeout
  | Some (Err _) => Err ConnFailed
  | Some (Ok c) => (negotiate clients pr t (auth p) c).1
  end.

Definition ALL_FAILED : bytes := bs "all proxies failed".

(** The result, or a task still waiting in [Pool::get]. *)
Inductive Connecting : Type :=
  | Connected (r : result IoError Stream) (w : Pool)
  | StillWaiting (w : Pool).

Section Connect.
Context (first_key : gmap ClientKey (IpAddr * N) -> option ClientKey).
Context (clients : Clients) (dns : dns_client).

(** The turns from number [n] on, [tries] of them left. *)
Fixpoint turns (envs : nat -> DialEnv) (tries n : nat) (last : option ProxyError)
    (sch : Scheme) (t : Target) (w : Pool) : Connecting :=
  match tries with
  | 0 => Connected (Err (OtherError (from_option error_as_str ALL_FAILED last))) w
  | S tries' =>
      let env := envs n in
      match get first_key (d_waiting env) (d_lease env) sch (KeyIp UNSPECIFIED) (d_before env w) with
      | Pending w => StillWaiting w
      | Returned None w => Connected (Err (NotConnected (bs "no proxy available in the pool"))) w
      | Returned (Some p) w =>
          match tunnel_proto p sch with
          | None => turns envs tries' (S n) last sch t (put_ok p w)
          | Some pr =>
              let w := d_meanwhile env w in
              match dial clients (d_dialing env) p pr t with
              | Ok s => Connected (Ok s) (put_ok (record_attempt (Some f_zero) None p) w)
              | Err e =>
                  turns envs tries' (S n) (Some e) sch t
                    (put_failed (d_return env) (record_attempt None (Some e) p) w)
              end
          end
      end
  end.

Definition connect (envs : nat -> DialEnv) (cfg : RotateConfig) (u : Uri) (w : Pool) : Connecting :=
  match uri_host u with
  | None => Connected (Err (InvalidInput (bs "uri has no host"))) w
  | Some h => turns envs (r_max_tries cfg) 0 None (uri_scheme u) (uri_target dns u h) w
  end.
End Connect.

(** [Broker::rotating]: discover, fill a pool, and wrap it with the broker's
    resolver, or a new one; [find] gives what the stream will deliver. *)
Definition rotating `{Unicode} (injected : option Resolver) (hickory : dns_library)
    (http : duration -> bytes -> option bytes) (find : FindQuery -> result Error (list Proxy))
    (q : FindQuery) (cfg : RotateConfig) : result Error (Pool * Resolver * RotateConfig) :=
  r ← resolver_for injected hickory http (q_timeout q);
  found ← find q;
  Ok (spawn found PoolConfig_default, r, cfg).

(** ** Lemmas *)

Lemma tunnel_proto_sound p sch pr :
  tunnel_proto p sch = Some pr ->
  is_Some (types p !! pr) /\ pr <> Https /\ pr <> Connect25 /\ (pr = Http -> sch = SHttp).
Proof.
  unfold tunnel_proto. intros E. destruct (find _ _) as [q|] eqn:Ef.
  - injection E as ->. apply find_Some in Ef as [Hin Ht]. apply bool_decide_eq_true in Ht.
    rewrite !elem_of_cons, elem_of_nil in Hin. naive_solver.
  - destruct (bool_decide (sch = SHttp)) eqn:Eh; [|done]. cbn [andb] in E.
    destruct (has_type p Http) eqn:Et; [|done]. injection E as <-.
    apply bool_decide_eq_true in Et, Eh. naive_solver.
Qed.

(** A proxy no tunnel of which is acceptable offers HTTPS, the SMTP tunnel and,
    towards a TLS target, plain forwarding at most. *)
Lemma tunnel_proto_None p sch :
  tunnel_proto p sch = None ->
  forall pr, is_Some (types p !! pr) -> pr = Https \/ pr = Connect25 \/ (pr = Http /\ sch = SHttps).
Proof.
  unfold tunnel_proto. destruct (find _ _) eqn:Ef; [done|]. intros E pr Hpr.
  assert (forall q, q ∈ [Socks5; Socks4; Connect80] -> types p !! q = None) as Hno.
  { intros q Hq. apply eq_None_not_Some. intros Hs.
    assert (has_type p q = true) as Hh by (by apply bool_decide_eq_true).
    pose proof (proj1 (find_None _ _) Ef _ Hq). congruence. }
  destruct pr; auto; try (exfalso; rewrite Hno in Hpr; [by destruct Hpr|set_solver]).
  right; right. split; [done|]. destruct sch; [|done]. exfalso.
  unfold has_type in E. rewrite !bool_decide_true in E by done. done.
Qed.

Lemma plain_Ok (m : IO ProxyError unit) c s c' : plain m c = (Ok s, c') -> s = Plain c'.
Proof. unfold plain. destruct (m c) as [[[]|e] c1]; [|done]. by intros [= <- <-]. Qed.

(** Negotiating an acceptable tunnel never ends in a stream this side has
    upgraded to TLS. *)
Lemma negotiate_plain clients pr t creds c s c' :
  pr <> Https -> negotiate clients pr t creds c = (Ok s, c') -> s = Plain c'.
Proof. intros Hp. destruct pr; [|done|..]; cbn [negotiate]; apply plain_Ok. Qed.

(** What a turn that handed a stream out did: the proxy it leased serves the
    scheme, the stream is what the negotiation over one of its own tunnels gave,
    and the proxy went back to the pool with a success recorded. *)
Definition handed_out (first_key : gmap ClientKey (IpAddr * N) -> option ClientKey)
    (clients : Clients) (env : DialEnv) (sch : Scheme) (t : Target) (s : Stream) (w' : Pool) : Prop :=
  exists w leased p pr c,
    get first_key (d_waiting env) (d_lease env) sch (KeyIp UNSPECIFIED) (d_before env w) = Returned (Some p) leased /\
    sch ∈ schemes p /\ tunnel_proto p sch = Some pr /\ d_dialing env = Some (Ok c) /\
    (negotiate clients pr t (auth p) c).1 = Ok s /\
    w' = put_ok (record_attempt (Some f_zero) None p) (d_meanwhile env leased).

Lemma turns_Ok first_key clients envs tries n last sch t w s w' :
  turns first_key clients envs tries n last sch t w = Connected (Ok s) w' ->
  exists k, n <= k < n + tries /\ handed_out first_key clients (envs k) sch t s w'.
Proof.
  revert n last w. induction tries as [|m IH]; intros n last w; cbn [turns]; [done|].
  destruct (get _ _ _ _ _ _) as [[p|] w1|w1] eqn:Eg; try done.
  destruct (tunnel_proto p sch) as [pr|] eqn:Et.
  - destruct (dial _ _ _ _ _) as [s0|e] eqn:Ed.
    + intros [= -> <-]. exists n. split; [lia|].
      unfold dial in Ed. destruct (d_dialing (envs n)) as [[c|]|] eqn:Edd; try done.
      exists w, w1, p, pr, c. split_and!; try done. by eapply get_loop_serves.
    + intros (k & Hk & Hd)%IH. exists k. split; [lia|done].
  - intros (k & Hk & Hd)%IH. exists k. split; [lia|done].
Qed.

(** When a connection succeeds, the stream is plain; it was negotiated, on one of
    at most [max_tries] turns, with a proxy the pool leased for the scheme, over
    a protocol that proxy has confirmed and that is neither HTTPS nor the SMTP
    tunnel, and plain forwarding only towards an [http] target; and the proxy is
    back in the pool with the success recorded, unless its record makes it
    unhealthy. *)
Lemma connect_Ok first_key clients dns envs cfg u w s w' :
  connect first_key clients dns envs cfg u w = Connected (Ok s) w' ->
  exists h k c before leased p pr,
    uri_host u = Some h /\ k < r_max_tries cfg /\ s = Plain c /\
    get first_key (d_waiting (envs k)) (d_lease (envs k)) (uri_scheme u) (KeyIp UNSPECIFIED) (d_before (envs k) before)
      = Returned (Some p) leased /\
    uri_scheme u ∈ schemes p /\ is_Some (types p !! pr) /\ pr <> Https /\ pr <> Connect25 /\
    (pr = Http -> uri_scheme u = SHttp) /\
    dial clients (d_dialing (envs k)) p pr (uri_target dns u h) = Ok s /\
    w' = put_ok (record_attempt (Some f_zero) None p) (d_meanwhile (envs k) leased).
Proof.
  unfold connect. destruct (uri_host u) as [h|]; [|done].
  intros (k & Hk & before & leased & p & pr & c & Hg & Hs & Ht & Hd & Hn & Hw)%turns_Ok.
  destruct (tunnel_proto_sound _ _ _ Ht) as (Hty & Hh & H25 & Hhttp).
  destruct (negotiate clients pr _ _ c) as [r c'] eqn:En. cbn [fst] in Hn. subst r.
  pose proof (negotiate_plain _ _ _ _ _ _ _ Hh En) as ->.
  exists h, k, c', before, leased, p, pr. split_and!; try done.
  { by apply Hk. }
  unfold dial. by rewrite Hd, En.
Qed.

(** The service fails in exactly three ways, by its kinds of error: no host in
    the URI, no proxy in the pool for the scheme, or all turns used up, with the
    text of the last error a proxy gave. *)
Lemma turns_Err first_key clients envs tries n last sch t w e w' :
  turns first_key clients envs tries n last sch t w = Connected (Err e) w' ->
  e = NotConnected (bs "no proxy available in the pool") \/
  e = OtherError (from_option error_as_str ALL_FAILED last) \/
  exists x k p pr, n <= k < n + tries /\ dial clients (d_dialing (envs k)) p pr t = Err x /\
    e = OtherError (error_as_str x).
Proof.
  revert n last w. induction tries as [|m IH]; intros n last w; cbn [turns].
  { intros [= <- _]. auto. }
  destruct (get _ _ _ _ _ _) as [[p|] w1|w1] eqn:Eg; try done; [|intros [= <- _]; auto].
  destruct (tunnel_proto p sch) as [pr|] eqn:Et.
  - destruct (dial _ _ _ _ _) as [s0|x] eqn:Ed; [done|].
    intros [?|[->|(x' & k & q & pr' & Hk & Hd & He)]]%IH; [auto|..].
    + right; right. exists x, n, p, pr. split_and!; [lia..|done|done].
    + right; right. exists x', k, q, pr'. split_and!; [lia..|done|done].
  - intros [?|[?|(x' & k & q & pr' & Hk & Hd & He)]]%IH; auto.
    right; right. exists x', k, q, pr'. split_and!; [lia..|done|done].
Qed.

(** ** Concrete instances *)

Definition https_only : Proxy := add_type Https None (Proxy_new (V4 10 0 0 1) 8080 ∅).
Definition slower_socks : Proxy :=
  record_attempt (Some f_one) None (add_type Socks5 None (Proxy_new (V4 10 0 0 2) 1080 ∅)).

Definition socks_clients : Clients :=
  {| socks4_connect := fun _ _ c => (None, c);
     socks5_connect := fun _ _ _ c => (Some (Ok tt), c);
     server_name := fun _ => true; tls_connect := fun _ c => (Some (Ok tt), c) |}.

Definition any_env (_ : nat) : DialEnv :=
  {| d_before := id; d_waiting := []; d_lease := 0%N; d_dialing := Some (Ok (peer [])); d_meanwhile := id;
     d_return := 0%N |}.

Definition https_uri : Uri :=
  {| scheme_str := Some (bs "https"); uri_host := Some (bs "[::1]"); port_u16 := None |}.

Definition connector_pool (ps : list Proxy) : Pool := @from_proxies AsciiOnly ps PoolConfig_default.

Definition sample_connect (ps : list Proxy) : Connecting :=
  connect any_key socks_clients (fun _ => None) any_env RotateConfig_default https_uri (connector_pool ps).

(** A proxy without an acceptable tunnel goes straight back, first in rank, so
    every turn leases it again: the connection fails although the pool holds a
    proxy that would carry it. *)
Lemma unsuited_proxy_starves :
  (exists w, sample_connect [https_only; slower_socks] = Connected (Err (OtherError ALL_FAILED)) w /\
             proxies w = [slower_socks; https_only]) /\
  (exists w, sample_connect [slower_socks] = Connected (Ok (Plain (peer []))) w /\
             proxies w = [record_attempt (Some f_zero) None slower_socks]).
Proof. split; eexists; (split; [vm_compute; reflexivity|reflexivity]). Qed.
