(* ===== verification/Getting.v ===== *)
(** * A call of [Pool::get] among other tasks: [src/server.rs]

    [Pool::get] as a step relation: one step between two of the points where the
    call suspends, so that the other users of the pool can come in between.  The
    server's clients and the connector's calls wait for a proxy this way; what
    they share is proved here once: a call keeps every proxy, never sleeps
    through a wake-up, takes a bounded number of steps over an exhausted pool,
    and does what [Pool.get] does under some script of the others' doings. *)

From stdpp Require Import base list gmap relations.
From Stdlib Require Import NArith ZArith Lia.
From S2P Require Import Prelude Bytes Float Net Types ProxyModel Pool PoolProofs.

(** Where a call of [get] is: before a look at the pool, after one that found
    nothing (it has taken its ticket for the notifications after number [since]
    before looking), asleep with that ticket, or in a liveness probe. *)
Inductive Wait : Type :=
  | Asking (probes : nat)
  | Missed (probes : nat) (since : N)
  | Asleep (probes : nat) (since : N)
  | Probing (probes : nat) (p : Proxy).

(** The proxy a waiting call has on lease. *)
Definition on_probe (g : Wait) : list Proxy :=
  match g with Probing _ p => [p] | _ => [] end.

(** The proxies in hand after a step: the call goes on, or has its answer. *)
Definition in_hand (x : Wait + option Proxy) : list Proxy :=
  match x with inl g => on_probe g | inr o => option_list o end.

Section Getting.
Context `{Unicode} (first_key : gmap ClientKey (IpAddr * N) -> option ClientKey).
Context (sch : Scheme) (key : ClientKey).

(** One step of [get(scheme, key)]. *)
Inductive get_step : Pool * Wait -> Pool * (Wait + option Proxy) -> Prop :=
  | G_lease pl n now p pl' :
      try_select first_key now sch key pl = (Some p, pl') -> verify_on_lease (config pl') = None ->
      get_step (pl, Asking n) (pl', inr (Some p))
  | G_draw pl n now p pl' d :
      try_select first_key now sch key pl = (Some p, pl') -> verify_on_lease (config pl') = Some d ->
      get_step (pl, Asking n) (pl', inl (Probing n p))
  | G_alive pl n p :
      get_step (pl, Probing n p) (pl, inr (Some p))
  | G_dead pl n p now :
      get_step (pl, Probing n p)
        (put_failed now p pl, if VERIFY_MAX_ATTEMPTS <=? S n then inr None else inl (Asking (S n)))
  | G_miss pl n now pl' :
      try_select first_key now sch key pl = (None, pl') ->
      get_step (pl, Asking n) (pl', inl (Missed n (notify pl)))
  | G_sleep pl n since :
      exhausted pl = false -> get_step (pl, Missed n since) (pl, inl (Asleep n since))
  | G_wake pl n since :
      (since < notify pl)%N -> get_step (pl, Asleep n since) (pl, inl (Asking n))
  | G_last pl n since now o pl' :
      exhausted pl = true -> try_select first_key now sch key pl = (o, pl') ->
      get_step (pl, Missed n since) (pl', inr o).

(** ** A selection, as the steps use it *)

Lemma try_select_proxies now pl o pl' :
  try_select first_key now sch key pl = (o, pl') ->
  match o with
  | Some p => proxies pl ≡ₚ p :: proxies pl' /\ sch ∈ schemes p
  | None => proxies pl' = proxies pl
  end.
Proof.
  intros E. destruct (select_spec first_key now sch key pl) as [_ Hs].
  rewrite E in Hs. cbn [fst snd] in Hs. destruct o as [p|].
  - destruct Hs as (i & e & _ & -> & Hp & [Hsv _] & _). unfold proxies. rewrite Hp. split; [done|].
    by apply bool_decide_eq_true in Hsv.
  - destruct Hs as [Hs _]. unfold proxies. by rewrite Hs.
Qed.

(** What no selection changes. *)
Definition same_terms (pl pl' : Pool) : Prop := config pl' = config pl /\ exhausted pl' = exhausted pl.

Lemma try_select_terms now pl o pl' : try_select first_key now sch key pl = (o, pl') -> same_terms pl pl'.
Proof.
  intros E. destruct (select_spec first_key now sch key pl) as [Hf _].
  rewrite E in Hf. by destruct Hf as (? & ? & _).
Qed.

(** ** One hand at a time *)

Lemma put_inner_proxies p until pl : proxies (put_inner p until pl) ⊆+ proxies pl ++ [p].
Proof.
  unfold put_inner, proxies. case_match; cbn [state set_state set_cursors push notify_waiters].
  - by apply submseteq_inserts_r.
  - by rewrite fmap_app.
Qed.

Lemma keys_put p q until pl : key_of q = key_of p -> keys (proxies (put_inner q until pl)) ⊆+ keys (proxies pl ++ [p]).
Proof.
  intros Hk. unfold keys. rewrite fmap_app. cbn [fmap list_fmap]. rewrite <- Hk.
  change [key_of q] with (key_of <$> [q]). rewrite <- fmap_app. apply fmap_submseteq, put_inner_proxies.
Qed.

(** A proxy on lease serves the scheme asked for. *)
Definition wait_ok (g : Wait) : Prop :=
  match g with Probing _ p => sch ∈ schemes p | _ => True end.

Definition step_ok (x : Wait + option Proxy) : Prop :=
  match x with inl g => wait_ok g | inr o => from_option (fun p => sch ∈ schemes p) True o end.

Lemma get_step_keeps x y :
  get_step x y ->
  keys (proxies y.1 ++ in_hand y.2) ⊆+ keys (proxies x.1 ++ on_probe x.2) /\ (wait_ok x.2 -> step_ok y.2).
Proof.
  destruct 1 as [pl n now p pl' E|pl n now p pl' d E| |pl n p now|pl n now pl' E| | |pl n since now o pl' _ E];
    try (apply try_select_proxies in E); cbn [fst snd in_hand on_probe wait_ok step_ok option_list from_option];
    rewrite ?app_nil_r.
  - destruct E as [Hp Hs]. split; [by apply keys_drawn|done].
  - destruct E as [Hp Hs]. split; [by apply keys_drawn|done].
  - done.
  - destruct (_ <=? _); cbn [in_hand on_probe step_ok wait_ok option_list from_option]; rewrite app_nil_r;
      (split; [by apply keys_put|done]).
  - by rewrite E.
  - done.
  - done.
  - destruct o as [p|]; cbn [in_hand option_list from_option].
    + destruct E as [Hp Hs]. split; [by apply keys_drawn|done].
    + by rewrite app_nil_r, E.
Qed.

Lemma get_step_terms x y : get_step x y -> same_terms x.1 y.1.
Proof.
  destruct 1 as [pl n now p pl' E|pl n now p pl' d E| |pl n p now|pl n now pl' E| | |pl n since now o pl' _ E];
    try (by apply try_select_terms in E); try done.
  apply put_inner_frame.
Qed.

(** ** A bounded number of steps *)

(** The steps a call has left at most over an exhausted pool: two for each
    liveness probe. *)
Definition wait_work (g : Wait) : nat :=
  match g with
  | Asking n => 2 * (VERIFY_MAX_ATTEMPTS - n) + 2
  | Probing n _ => 2 * (VERIFY_MAX_ATTEMPTS - n) + 1
  | Missed _ _ => 1
  | Asleep n _ => 2 * (VERIFY_MAX_ATTEMPTS - n) + 3
  end.

Definition left_to_do (x : Wait + option Proxy) : nat :=
  match x with inl g => wait_work g | inr _ => 0 end.

Lemma get_step_work x y : get_step x y -> exhausted x.1 = true -> S (left_to_do y.2) <= wait_work x.2.
Proof.
  destruct 1 as [| | |pl n p now| | | |]; intros Hx; cbn [fst snd wait_work left_to_do] in *; try lia; try congruence.
  destruct (Nat.leb_spec VERIFY_MAX_ATTEMPTS (S n)); cbn [left_to_do wait_work]; lia.
Qed.

(** ** No wake-up is lost *)

(** How the pool develops: either somebody has been notified, or nothing has
    been added. *)
Definition quiet_or_rung (pl pl' : Pool) : Prop :=
  (notify pl < notify pl')%N \/
  (notify pl' = notify pl /\ exhausted pl' = exhausted pl /\ forall e, e ∈ state pl' -> e ∈ state pl).

Lemma quiet_refl pl : quiet_or_rung pl pl.
Proof. by right. Qed.

Lemma quiet_trans pl1 pl2 pl3 : quiet_or_rung pl1 pl2 -> quiet_or_rung pl2 pl3 -> quiet_or_rung pl1 pl3.
Proof.
  intros [H1|(H1 & Hx & He)] [H2|(H2 & Hx' & He')]; [left; lia..|right]. split_and!; [congruence..|auto].
Qed.

Lemma try_select_quiet now pl o pl' :
  try_select first_key now sch key pl = (o, pl') -> quiet_or_rung pl pl' /\ notify pl' = notify pl.
Proof.
  intros E. pose proof (try_select_terms _ _ _ _ E) as [_ Hx].
  destruct (select_spec first_key now sch key pl) as [_ Hs].
  assert (notify pl' = notify pl) as Hn.
  { revert E. unfold try_select. destruct (best_for _ _ _) as [idx x]. destruct (mbind _ idx) as [[e rest]|].
    - intros [= _ <-]. by repeat case_bool_decide.
    - by intros [= _ <-]. }
  rewrite E in Hs. cbn [fst snd] in Hs. split; [right|done]. split_and!; [done..|]. destruct o as [p|].
  - destruct Hs as (i & e & _ & _ & Hp & _). intros e' He'. rewrite Hp. by right.
  - destruct Hs as [-> _]. done.
Qed.

Lemma put_inner_quiet p until pl : quiet_or_rung pl (put_inner p until pl).
Proof. unfold put_inner. case_match; [by right|left]. cbn [notify push notify_waiters set_state]. lia. Qed.

Lemma get_step_quiet x y : get_step x y -> quiet_or_rung x.1 y.1.
Proof.
  destruct 1 as [pl n now p pl' E|pl n now p pl' d E| |pl n p now|pl n now pl' E| | |pl n since now o pl' _ E];
    try (by apply try_select_quiet in E as [E _]); try apply quiet_refl.
  apply put_inner_quiet.
Qed.

(** A call with a ticket has been notified, or is right to go to sleep: the
    source has not ended, and no proxy in the pool serves the scheme. *)
Definition ticket_ok (pl : Pool) (g : Wait) : Prop :=
  match g with
  | Missed _ since =>
      (since <= notify pl)%N /\ ((since < notify pl)%N \/ forall e, e ∈ state pl -> serves sch e = false)
  | Asleep _ since =>
      (since <= notify pl)%N /\
      ((since < notify pl)%N \/ (exhausted pl = false /\ forall e, e ∈ state pl -> serves sch e = false))
  | _ => True
  end.

Lemma ticket_kept pl pl' g : quiet_or_rung pl pl' -> ticket_ok pl g -> ticket_ok pl' g.
Proof.
  intros [Hn|(Hn & Hx & He)]; destruct g; cbn [ticket_ok]; try done; rewrite ?Hn, ?Hx; [lia..| |];
    intuition (auto; lia).
Qed.

Lemma get_step_ticket pl g pl' g' : get_step (pl, g) (pl', inl g') -> ticket_ok pl g -> ticket_ok pl' g'.
Proof.
  remember (pl, g) as x eqn:Ex. remember (pl', inl g') as y eqn:Ey. intros Hst. revert Ex Ey.
  destruct Hst as [| | |q n p now|q n now q' E|q n since Hx| |]; intros [= -> <-]; try discriminate.
  - by intros [= <- <-].
  - destruct (_ <=? _); [discriminate|]. by intros [= <- <-].
  - intros [= <- <-] _. pose proof (try_select_quiet _ _ _ _ E) as [_ Hn]. cbn [ticket_ok]. rewrite Hn. split; [done|right].
    destruct (select_spec first_key now sch key pl) as [_ Hs].
    rewrite E in Hs. cbn [fst snd] in Hs. by destruct Hs as [-> Hs].
  - intros [= <- <-]. cbn [ticket_ok]. intuition auto.
  - by intros [= <- <-].
Qed.

(** A waiting call can take a step, unless it is right to sleep. *)
Lemma get_can_step pl g : exhausted pl = true -> ticket_ok pl g -> exists y, get_step (pl, g) y.
Proof.
  intros Hex Htk. destruct g as [n|n since|n since|n p].
  - destruct (try_select first_key 0%N sch key pl) as [[p|] pl'] eqn:E; [|eexists; by eapply G_miss].
    destruct (verify_on_lease (config pl')) as [d|] eqn:Hv; eexists; [by eapply G_draw|by eapply G_lease].
  - destruct (try_select first_key 0%N sch key pl) as [o pl'] eqn:E. eexists. by eapply G_last.
  - destruct Htk as [_ [Hn|[Hx _]]]; [eexists; by apply G_wake|congruence].
  - eexists. apply G_alive.
Qed.

(** ** What a call among others does is what [Pool.get] does *)

Section Serial.
(** The pools there were. *)
Context (seen : Pool -> Prop).

Definition await_seen (a : Await) : Prop := forall w, seen (race a w) /\ seen (others a w).

(** What follows a look that found nothing, and a liveness probe. *)
Definition after_miss (script : list Await) (n : nat) (a : Await) (pl : Pool) : Outcome (option Proxy) :=
  let pl2 := race a pl in
  if exhausted pl2
  then let '(o, pl3) := try_select first_key (clock a) sch key pl2 in Returned o pl3
  else get_loop first_key script n (clock a) sch key (others a pl2).

Definition after_probe (script : list Await) (n : nat) (p : Proxy) (a : Await) (pl : Pool) : Outcome (option Proxy) :=
  let pl2 := others a pl in
  if alive a then Returned (Some p) pl2
  else
    let pl3 := put_failed (clock a) p pl2 in
    if VERIFY_MAX_ATTEMPTS <=? S n then Returned None pl3
    else get_loop first_key script (S n) (clock a) sch key (race a pl3).

(** That a call at [g] can end with an outcome in [R], the others having shown
    it pools there were: by stages, what is left of [get]. *)
Definition can_get (g : Wait) (R : Outcome (option Proxy) -> Prop) : Prop :=
  match g with
  | Asking n | Asleep n _ =>
      exists script now pl, Forall await_seen script /\ seen pl /\ R (get_loop first_key script n now sch key pl)
  | Missed n _ =>
      exists script a, Forall await_seen script /\ await_seen a /\ forall pl, R (after_miss script n a pl)
  | Probing n p =>
      exists script a, Forall await_seen script /\ await_seen a /\ forall pl, R (after_probe script n p a pl)
  end.

Definition pause (pl pl' : Pool) (live : bool) (now : instant) : Await :=
  {| race := fun _ => pl; others := fun _ => pl'; alive := live; clock := now |}.

Lemma get_loop_draw script n now pl p pl' d :
  try_select first_key now sch key pl = (Some p, pl') -> verify_on_lease (config pl') = Some d ->
  forall a, get_loop first_key (a :: script) n now sch key pl = after_probe script n p a pl'.
Proof. intros E Hv a. cbn [get_loop]. by rewrite E, Hv. Qed.

Lemma get_loop_miss script n now pl pl' :
  try_select first_key now sch key pl = (None, pl') ->
  forall a, get_loop first_key (a :: script) n now sch key pl = after_miss script n a pl'.
Proof. intros E a. cbn [get_loop]. by rewrite E. Qed.

(** A step of the call, read backwards. *)
Lemma get_step_back pl g pl' x R :
  get_step (pl, g) (pl', x) -> seen pl ->
  match x with inl g' => can_get g' R | inr o => R (Returned o pl') end -> can_get g R.
Proof.
  remember (pl, g) as a eqn:Ea. remember (pl', x) as b eqn:Eb. intros Hst. revert Ea Eb.
  destruct Hst as [q n now p q' E Hv|q n now p q' d E Hv|q n p|q n p now|q n now q' E|q n since Hx|q n since Hn|q n since now o q' Hx E];
    intros Ex Ey; injection Ex as -> <-; apply pair_equal_spec in Ey as [<- <-]; intros Hp; cbn [can_get].
  - intros HR. exists [], now, pl. split_and!; [done..|]. cbn [get_loop]. by rewrite E, Hv.
  - intros (script & a & Hs & Ha & HR). exists (a :: script), now, pl. split_and!; [by constructor|done|].
    rewrite (get_loop_draw script n now pl p q' d E Hv). apply HR.
  - intros HR. exists [], (pause pl pl true 0%N). by split_and!.
  - destruct (VERIFY_MAX_ATTEMPTS <=? S n) eqn:En; cbn [can_get].
    + intros HR. exists [], (pause pl pl false now). split_and!; [done..|]. intros q0.
      unfold after_probe, pause; cbn [alive others clock]. by rewrite En.
    + intros (script & now' & pl0 & Hs & Hp0 & HR). exists script, (pause pl0 pl false now').
      split_and!; [done..|]. intros q0. unfold after_probe, pause; cbn [alive others race clock]. by rewrite En.
  - intros (script & a & Hs & Ha & HR). exists (a :: script), now, pl. split_and!; [by constructor|done|].
    rewrite (get_loop_miss script n now pl q' E). apply HR.
  - intros (script & now & pl0 & Hs & Hp0 & HR). exists script, (pause pl pl0 false now).
    split_and!; [done..|]. intros q0. unfold after_miss, pause; cbn [race others clock]. by rewrite Hx.
  - done.
  - intros HR. exists [], (pause pl pl false now). split_and!; [done..|]. intros q0.
    unfold after_miss, pause; cbn [race others clock]. by rewrite Hx, E.
Qed.
End Serial.
End Getting.
