(* ===== verification/System.v ===== *)
(** * The server as a whole: [src/server.rs], [src/connector.rs]

    The importer, a watcher or re-check loop, any number of clients' tasks and
    any number of calls of the in-process connector, over one shared pool and
    history, as one step relation: a task takes a step at each of the points
    where [handle_client] or [connect] suspends, and the steps of different
    tasks interleave freely. *)

From stdpp Require Import base list gmap strings relations.
From Stdlib Require Import Ascii NArith ZArith Lia.
From S2P Require Import Prelude Bytes Text Float Net Utils Io Types ProxyModel Negotiator Resolver.
From S2P Require Import Pool Server Connector Getting.

(** ** A client's task *)

(** What the task knows of the request it works on: the attempt under way and
    how many are left after it. *)
Record Job := {
  j_req : ClientRequest;
  j_key : ClientKey;
  j_target : Target;
  j_attempt : nat;
  j_left : nat;
}.

(** Where a task is: before it has read its request, waiting for a proxy, in a
    relay, or returned. *)
Inductive Stage : Type :=
  | Fresh
  | Awaiting (j : Job) (g : Wait)
  | Relaying (j : Job) (p : Proxy) (codes : option (list N))
  | Over.

(** The proxy a task has on lease. *)
Definition holding (s : Stage) : list Proxy :=
  match s with
  | Awaiting _ g => on_probe g
  | Relaying _ p _ => [p]
  | _ => []
  end.

Definition turn_away (j : Job) (w : World) : World * Stage :=
  (reply (terminal_failure (frontend (j_req j))) w, Over).

Definition next_attempt (req : ClientRequest) (key : ClientKey) (t : Target) (attempt tries : nat) (w : World)
    : World * Stage :=
  match tries with
  | 0 => (reply (terminal_failure (frontend req)) w, Over)
  | S more => (w, Awaiting {| j_req := req; j_key := key; j_target := t; j_attempt := attempt; j_left := more |} (Asking 0))
  end.

(** A proxy has been leased for the job. *)
Definition leased_for (j : Job) (p : Proxy) (w : World) : World * Stage :=
  let pl := if 0 <? j_attempt j then count_rotation (pool w) else pool w in
  (with_pool pl w, Relaying j p (http_allowed_codes (config pl))).

Section System.
Context `{Unicode} (ctx : ConnCtx).

Definition request_target (req : ClientRequest) : Target :=
  {| t_host := req_host req; t_ip := ok (resolve (ctx_dns ctx) (req_host req)); t_port := req_port req |}.

(** One step of the task of the client at [peer]. *)
Inductive client_step (peer : IpAddr) : World * Stage -> World * Stage -> Prop :=
  | C_bad w c :
      parse_client_request (expected_auth ctx) (client w) = (Err tt, c) ->
      client_step peer (w, Fresh) (with_client c w, Over)
  | C_refused w req c :
      parse_client_request (expected_auth ctx) (client w) = (Ok req, c) -> admitted ctx req = false ->
      client_step peer (w, Fresh) (reply AUTH_REQUIRED (with_client c w), Over)
  | C_control w req c answer pl :
      parse_client_request (expected_auth ctx) (client w) = (Ok req, c) -> admitted ctx req = true ->
      req_host req = bs "proxycontrol" -> serve_control req (history w) peer (pool w) = (answer, pl) ->
      client_step peer (w, Fresh) (reply answer (with_pool pl (with_client c w)), Over)
  | C_begin w req c :
      parse_client_request (expected_auth ctx) (client w) = (Ok req, c) -> admitted ctx req = true ->
      req_host req <> bs "proxycontrol" ->
      client_step peer (w, Fresh)
        (next_attempt req (client_key (config (pool w)) peer req) (request_target req) 0
           (max_tries (config (pool w))) (with_client c w))
  | C_wait w j g pl g' :
      get_step (ctx_first_key ctx) (scheme (j_req j)) (j_key j) (pool w, g) (pl, inl g') ->
      client_step peer (w, Awaiting j g) (with_pool pl w, Awaiting j g')
  | C_got w j g pl o :
      get_step (ctx_first_key ctx) (scheme (j_req j)) (j_key j) (pool w, g) (pl, inr o) ->
      client_step peer (w, Awaiting j g)
        (match o with
         | Some p => leased_for j p (with_pool pl w)
         | None => turn_away j (with_pool pl w)
         end)
  | C_relayed w j p codes dial now o c stop w' :
      relay (ctx_clients ctx) (ctx_pump ctx) dial (client w) p (choose_proto p (scheme (j_req j)))
        (j_target j) (j_req j) codes = (o, c) ->
      after_relay peer (j_req j) p now o (with_client c w) = (stop, w') ->
      client_step peer (w, Relaying j p codes)
        (if stop then (w', Over)
         else next_attempt (j_req j) (j_key j) (j_target j) (S (j_attempt j)) (j_left j) w').

(** ** A call of the connector *)

(** The service, but for the pool it shares with the others. *)
Record RotatingProxyConnector := { rc_resolver : dns_client; rc_cfg : RotateConfig }.

(** A turn of the retry loop: its number, how many are left after it, and the
    error the last proxy gave. *)
Record Turn := { u_number : nat; u_left : nat; u_last : option ProxyError }.

(** Where a call is: before its first step, waiting for a proxy, dialling one,
    answered, or dropped by its caller before it had an answer. *)
Inductive CallStage : Type :=
  | Called
  | Seeking (u : Turn) (g : Wait)
  | Tunnelling (u : Turn) (p : Proxy) (pr : Proto)
  | Answered (r : result IoError Stream)
  | Dropped.

Definition in_tunnel (s : CallStage) : list Proxy :=
  match s with
  | Seeking _ g => on_probe g
  | Tunnelling _ p _ => [p]
  | _ => []
  end.

Definition finished (s : CallStage) : Prop :=
  match s with Answered _ | Dropped => True | _ => False end.

Definition next_turn (n tries : nat) (last : option ProxyError) (w : Pool) : Pool * CallStage :=
  match tries with
  | 0 => (w, Answered (Err (OtherError (from_option error_as_str ALL_FAILED last))))
  | S more => (w, Seeking {| u_number := n; u_left := more; u_last := last |} (Asking 0))
  end.

(** One step of the call [call(uri)] on the connector [rc]. *)
Inductive call_step (rc : RotatingProxyConnector) (u : Uri) : Pool * CallStage -> Pool * CallStage -> Prop :=
  | L_no_host w :
      uri_host u = None ->
      call_step rc u (w, Called) (w, Answered (Err (InvalidInput (bs "uri has no host"))))
  | L_begin w h :
      uri_host u = Some h -> call_step rc u (w, Called) (next_turn 0 (r_max_tries (rc_cfg rc)) None w)
  | L_wait w k g pl g' :
      get_step (ctx_first_key ctx) (uri_scheme u) (KeyIp UNSPECIFIED) (w, g) (pl, inl g') ->
      call_step rc u (w, Seeking k g) (pl, Seeking k g')
  | L_none w k g pl :
      get_step (ctx_first_key ctx) (uri_scheme u) (KeyIp UNSPECIFIED) (w, g) (pl, inr None) ->
      call_step rc u (w, Seeking k g) (pl, Answered (Err (NotConnected (bs "no proxy available in the pool"))))
  | L_unsuited w k g pl p :
      get_step (ctx_first_key ctx) (uri_scheme u) (KeyIp UNSPECIFIED) (w, g) (pl, inr (Some p)) ->
      tunnel_proto p (uri_scheme u) = None ->
      call_step rc u (w, Seeking k g) (next_turn (S (u_number k)) (u_left k) (u_last k) (put_ok p pl))
  | L_leased w k g pl p pr :
      get_step (ctx_first_key ctx) (uri_scheme u) (KeyIp UNSPECIFIED) (w, g) (pl, inr (Some p)) ->
      tunnel_proto p (uri_scheme u) = Some pr ->
      call_step rc u (w, Seeking k g) (pl, Tunnelling k p pr)
  | L_tunnel w k p pr tcp h s :
      uri_host u = Some h -> Connector.dial (ctx_clients ctx) tcp p pr (uri_target (rc_resolver rc) u h) = Ok s ->
      call_step rc u (w, Tunnelling k p pr) (put_ok (record_attempt (Some f_zero) None p) w, Answered (Ok s))
  | L_failed w k p pr tcp h e (now : instant) :
      uri_host u = Some h -> Connector.dial (ctx_clients ctx) tcp p pr (uri_target (rc_resolver rc) u h) = Err e ->
      call_step rc u (w, Tunnelling k p pr)
        (next_turn (S (u_number k)) (u_left k) (Some e) (put_failed now (record_attempt None (Some e) p) w)).

(** ** All of them *)

(** A client's task: who it serves, the connection as it was accepted, as it is
    now, and where the task is. *)
Record Task := { t_peer : IpAddr; t_accepted : Conn; t_conn : Conn; t_stage : Stage }.

(** A call under way: its connector, its URI and where it is. *)
Record Call := { l_connector : RotatingProxyConnector; l_uri : Uri; l_stage : CallStage }.

Record Sys := {
  sy_pool : Pool;
  sy_history : gmap bytes bytes;
  sy_source : option (list Proxy);   (** what the importer is still to deliver; [None] once it has ended *)
  sy_tasks : list Task;
  sy_calls : list Call;
}.

Definition world_of (s : Sys) (c : Conn) : World :=
  {| pool := sy_pool s; history := sy_history s; client := c |}.

(** Whether a file watcher or a re-check loop refreshes the pool meanwhile
    ([serve --watch], [serve --recheck]). *)
Context (refreshed : bool).

Definition with_sys_pool (pl : Pool) (s : Sys) : Sys :=
  {| sy_pool := pl; sy_history := sy_history s; sy_source := sy_source s; sy_tasks := sy_tasks s; sy_calls := sy_calls s |}.

Definition with_source (src : option (list Proxy)) (s : Sys) : Sys :=
  {| sy_pool := sy_pool s; sy_history := sy_history s; sy_source := src; sy_tasks := sy_tasks s; sy_calls := sy_calls s |}.

Definition with_tasks (ts : list Task) (s : Sys) : Sys :=
  {| sy_pool := sy_pool s; sy_history := sy_history s; sy_source := sy_source s; sy_tasks := ts; sy_calls := sy_calls s |}.

Definition with_calls (ls : list Call) (s : Sys) : Sys :=
  {| sy_pool := sy_pool s; sy_history := sy_history s; sy_source := sy_source s; sy_tasks := sy_tasks s; sy_calls := ls |}.

(** The task [t] and the call [l] after a step. *)
Definition moved (t : Task) (x : World * Stage) : Task :=
  {| t_peer := t_peer t; t_accepted := t_accepted t; t_conn := client x.1; t_stage := x.2 |}.

Definition advanced (l : Call) (st : CallStage) : Call :=
  {| l_connector := l_connector l; l_uri := l_uri l; l_stage := st |}.

Inductive sys_step : Sys -> Sys -> Prop :=
  | Y_import s p src :
      sy_source s = Some (p :: src) ->
      sys_step s (with_source (Some src) (with_sys_pool (import (Some p) (sy_pool s)) s))
  | Y_exhausted s :
      sy_source s = Some [] ->
      sys_step s (with_source None (with_sys_pool (import None (sy_pool s)) s))
  | Y_accept s ip c :
      sys_step s (with_tasks (sy_tasks s ++ [{| t_peer := ip; t_accepted := c; t_conn := c; t_stage := Fresh |}]) s)
  | Y_call s rc u :
      sys_step s (with_calls (sy_calls s ++ [{| l_connector := rc; l_uri := u; l_stage := Called |}]) s)
  | Y_add s p : refreshed = true -> sys_step s (with_sys_pool (add p (sy_pool s)) s)
  | Y_remove s h pt : refreshed = true -> sys_step s (with_sys_pool (remove h pt (sy_pool s)).2 s)
  | Y_client s ts1 t ts2 x :
      sy_tasks s = ts1 ++ t :: ts2 ->
      client_step (t_peer t) (world_of s (t_conn t), t_stage t) x ->
      sys_step s {| sy_pool := pool x.1; sy_history := history x.1; sy_source := sy_source s;
                    sy_tasks := ts1 ++ moved t x :: ts2; sy_calls := sy_calls s |}
  | Y_dial s ls1 l ls2 x :
      sy_calls s = ls1 ++ l :: ls2 ->
      call_step (l_connector l) (l_uri l) (sy_pool s, l_stage l) x ->
      sys_step s (with_calls (ls1 ++ advanced l x.2 :: ls2) (with_sys_pool x.1 s))
  | Y_drop s ls1 l ls2 :
      sy_calls s = ls1 ++ l :: ls2 -> ~ finished (l_stage l) ->
      sys_step s (with_calls (ls1 ++ advanced l Dropped :: ls2) s).

(** The server before its first client and its first call. *)
Definition sys_start (w : Pool) (source : option (list Proxy)) : Sys :=
  {| sy_pool := w; sy_history := ∅; sy_source := source; sy_tasks := []; sy_calls := [] |}.
End System.
