(* ===== verification/SystemProofs.v ===== *)
(** * One hand at a time: [src/server.rs], [src/connector.rs]

    In every interleaving of the importer, the accept loop, the clients' tasks
    and the connector's calls a proxy is in one hand at a time; and a concrete
    run, shared with the files on what each of them sees ([SystemSerial]) and on
    how they end ([SystemLiveness]). *)

From stdpp Require Import base list gmap strings relations.
From Stdlib Require Import Ascii NArith ZArith Lia.
From S2P Require Import Prelude Bytes Text Float Net Utils Io Types ProxyModel Negotiator Resolver.
From S2P Require Import Pool PoolProofs Server ServerProofs Connector Getting System.

Section Proofs.
Context `{Unicode} (ctx : ConnCtx) (refreshed : bool).

#[local] Notation request_target := (System.request_target ctx).
#[local] Notation client_step := (System.client_step ctx).
#[local] Notation call_step := (System.call_step ctx).
#[local] Notation sys_step := (System.sys_step ctx refreshed).
#[local] Notation get_step := (Getting.get_step (ctx_first_key ctx)).

Definition held (ts : list Task) : list Proxy := ts ≫= (fun t => holding (t_stage t)).
Definition tunnelled (ls : list Call) : list Proxy := ls ≫= (fun l => in_tunnel (l_stage l)).

(** Every proxy the server knows of: pooled, on lease to a task or a call, or
    still to be imported. *)
Definition everywhere (s : Sys) : list Proxy :=
  proxies (sy_pool s) ++ held (sy_tasks s) ++ tunnelled (sy_calls s) ++ default [] (sy_source s).

(** A leased proxy serves what its task was asked for; a call looks for one only
    if its URI has a host. *)
Definition stage_ok (st : Stage) : Prop :=
  match st with
  | Awaiting j g => wait_ok (scheme (j_req j)) g
  | Relaying j p _ => scheme (j_req j) ∈ schemes p
  | _ => True
  end.

Definition call_ok (u : Uri) (st : CallStage) : Prop :=
  match st with
  | Seeking _ g => is_Some (uri_host u) /\ wait_ok (uri_scheme u) g
  | Tunnelling _ p pr =>
      is_Some (uri_host u) /\ uri_scheme u ∈ schemes p /\ tunnel_proto p (uri_scheme u) = Some pr
  | _ => True
  end.

Definition all_ok (s : Sys) : Prop :=
  Forall (fun t => stage_ok (t_stage t)) (sy_tasks s) /\ Forall (fun l => call_ok (l_uri l) (l_stage l)) (sy_calls s).

(** ** One hand at a time *)

(** A task's step neither makes up a proxy nor doubles one. *)
Definition keeps (x y : World * Stage) : Prop :=
  keys (proxies (pool y.1) ++ holding y.2) ⊆+ keys (proxies (pool x.1) ++ holding x.2) /\
  (stage_ok x.2 -> stage_ok y.2).

Lemma record_attempt_key t e p : key_of (record_attempt t e p) = key_of p.
Proof. by destruct t, e. Qed.

Lemma serve_control_proxies req h peer pl : proxies (serve_control req h peer pl).2 ⊆+ proxies pl.
Proof.
  assert (forall ip p, proxies (remove ip p pl).2 ⊆+ proxies pl) as Hr.
  { intros ip p. unfold proxies. apply fmap_submseteq, sublist_submseteq, filter_sublist. }
  unfold serve_control. repeat split_match; try done; case_bool_decide; repeat split_match; try done;
    cbn [snd]; done || apply Hr.
Qed.

Lemma after_relay_proxies peer req p now o w :
  keys (proxies (pool (after_relay peer req p now o w).2)) ⊆+ keys (proxies (pool w) ++ [p]).
Proof. destruct o; apply keys_put, record_attempt_key. Qed.

(** Stages that hold nothing. *)
Lemma keeps_free w w' st st' :
  keys (proxies (pool w')) ⊆+ keys (proxies (pool w) ++ holding st) -> holding st' = [] -> stage_ok st' ->
  keeps (w, st) (w', st').
Proof. intros Hk Hh Hs. split; [|done]. cbn [fst snd]. by rewrite Hh, app_nil_r. Qed.

Lemma next_attempt_keeps req key t n tries w w0 st :
  keys (proxies (pool w)) ⊆+ keys (proxies (pool w0) ++ holding st) ->
  keeps (w0, st) (next_attempt req key t n tries w).
Proof. intros Hk. destruct tries; by apply keeps_free. Qed.

Lemma leased_for_keeps j p w w0 st :
  keys (proxies (pool w) ++ [p]) ⊆+ keys (proxies (pool w0) ++ holding st) ->
  (stage_ok st -> scheme (j_req j) ∈ schemes p) ->
  keeps (w0, st) (leased_for j p w).
Proof.
  intros Hk Hs. unfold leased_for. split; [|done]. cbn [fst snd holding]. by destruct (0 <? j_attempt j).
Qed.

Lemma client_step_keeps peer x y : client_step peer x y -> keeps x y.
Proof.
  destruct 1 as [| |w req c answer pl _ _ _ E| |w j g pl g' E|w j g pl o E|
                 w j p codes dial now o c stop w' _ E];
    try (apply get_step_keeps in E as [E Ho]; cbn [fst snd in_hand step_ok] in E, Ho).
  - by apply keeps_free; rewrite ?app_nil_r.
  - by apply keeps_free; rewrite ?app_nil_r.
  - apply keeps_free; [|done..]. rewrite app_nil_r. cbn [pool reply with_client with_pool].
    pose proof (serve_control_proxies req (history w) peer (pool w)) as Hp. rewrite E in Hp.
    by apply fmap_submseteq.
  - apply next_attempt_keeps. by rewrite app_nil_r.
  - by split.
  - destruct o as [p|]; cbn [option_list from_option] in *.
    + by apply leased_for_keeps.
    + apply keeps_free; [|done..]. by rewrite app_nil_r in E.
  - pose proof (after_relay_proxies peer (j_req j) p now o (with_client c w)) as Hp. rewrite E in Hp.
    destruct stop; [by apply keeps_free|by apply next_attempt_keeps].
Qed.

(** So does a call's. *)
Definition call_keeps (u : Uri) (x y : Pool * CallStage) : Prop :=
  keys (proxies y.1 ++ in_tunnel y.2) ⊆+ keys (proxies x.1 ++ in_tunnel x.2) /\
  (call_ok u x.2 -> call_ok u y.2).

Lemma next_turn_keeps u n tries last w w0 st :
  keys (proxies w) ⊆+ keys (proxies w0 ++ in_tunnel st) -> (call_ok u st -> is_Some (uri_host u)) ->
  call_keeps u (w0, st) (next_turn n tries last w).
Proof.
  intros Hk Hu. destruct tries; (split; [cbn [fst snd next_turn in_tunnel on_probe]; by rewrite app_nil_r|]); [done|].
  intros Ho. by split; [apply Hu|].
Qed.

Lemma call_step_keeps rc u x y : call_step rc u x y -> call_keeps u x y.
Proof.
  destruct 1 as [w E|w h E|w k g pl g' E|w k g pl E|w k g pl p E Ht|w k g pl p pr E Ht
                |w k p pr tcp h s E Ed|w k p pr tcp h e now E Ed];
    try (apply get_step_keeps in E as [E Ho]; cbn [fst snd in_hand step_ok option_list from_option] in E, Ho).
  - done.
  - apply next_turn_keeps; [by rewrite app_nil_r|by exists h].
  - split; [done|]. cbn [snd call_ok]. intuition.
  - by split.
  - apply next_turn_keeps; [|by intros []]. etrans; [apply (keys_put p)|exact E]. done.
  - split; [done|]. cbn [snd call_ok]. intuition.
  - split; [|done]. cbn [fst snd in_tunnel]. rewrite app_nil_r. by apply keys_put, record_attempt_key.
  - apply next_turn_keeps; [|by intros []]. by apply keys_put, record_attempt_key.
Qed.

(** Setting one holder apart from the others. *)
Lemma everywhere_task s ts1 t ts2 :
  sy_tasks s = ts1 ++ t :: ts2 ->
  everywhere s ≡ₚ (proxies (sy_pool s) ++ holding (t_stage t)) ++
                  (held ts1 ++ held ts2 ++ tunnelled (sy_calls s) ++ default [] (sy_source s)).
Proof.
  intros E. unfold everywhere, held. rewrite E, bind_app, bind_cons.
  rewrite (Permutation_app_swap_app (ts1 ≫= _) (holding _)). by rewrite <-!app_assoc.
Qed.

Lemma everywhere_call s ls1 l ls2 :
  sy_calls s = ls1 ++ l :: ls2 ->
  everywhere s ≡ₚ (proxies (sy_pool s) ++ in_tunnel (l_stage l)) ++
                  (held (sy_tasks s) ++ tunnelled ls1 ++ tunnelled ls2 ++ default [] (sy_source s)).
Proof.
  intros E. unfold everywhere, tunnelled. rewrite E, bind_app, bind_cons.
  rewrite (Permutation_app_swap_app (ls1 ≫= _) (in_tunnel _)), <-!app_assoc.
  by rewrite (Permutation_app_swap_app (held _) (in_tunnel _)).
Qed.

(** What a holder's step keeps, the server keeps. *)
Lemma frame_keys X X' A A' (F : list Proxy) :
  X ≡ₚ A ++ F -> X' ≡ₚ A' ++ F -> keys A' ⊆+ keys A -> keys X' ⊆+ keys X.
Proof. unfold keys. intros -> -> Hk. rewrite !fmap_app. by apply submseteq_skips_r. Qed.

Lemma task_keys s s' ts1 t t' ts2 :
  sy_tasks s = ts1 ++ t :: ts2 -> sy_tasks s' = ts1 ++ t' :: ts2 -> sy_calls s' = sy_calls s -> sy_source s' = sy_source s ->
  keys (proxies (sy_pool s') ++ holding (t_stage t')) ⊆+ keys (proxies (sy_pool s) ++ holding (t_stage t)) ->
  keys (everywhere s') ⊆+ keys (everywhere s).
Proof.
  intros E E' Ec Es. eapply frame_keys; [exact (everywhere_task s _ _ _ E)|].
  rewrite <-Ec, <-Es. exact (everywhere_task s' _ _ _ E').
Qed.

Lemma call_keys s s' ls1 l l' ls2 :
  sy_calls s = ls1 ++ l :: ls2 -> sy_calls s' = ls1 ++ l' :: ls2 -> sy_tasks s' = sy_tasks s -> sy_source s' = sy_source s ->
  keys (proxies (sy_pool s') ++ in_tunnel (l_stage l')) ⊆+ keys (proxies (sy_pool s) ++ in_tunnel (l_stage l)) ->
  keys (everywhere s') ⊆+ keys (everywhere s).
Proof.
  intros E E' Et Es. eapply frame_keys; [exact (everywhere_call s _ _ _ E)|].
  rewrite <-Et, <-Es. exact (everywhere_call s' _ _ _ E').
Qed.

Lemma sys_step_keeps s s' : sys_step s s' -> refreshed = false -> keys (everywhere s') ⊆+ keys (everywhere s).
Proof.
  destruct 1 as [s p src E|s E|s ip c|s rc u|s p Hr|s h pt Hr|s ts1 t ts2 x E Hc|s ls1 l ls2 x E Hc|s ls1 l ls2 E Hf];
    intros Hrf; try congruence.
  - unfold everywhere. cbn. rewrite E. apply fmap_submseteq. unfold import. case_match.
    + unfold proxies. cbn. rewrite fmap_app, <-!app_assoc. cbn. by rewrite <-!Permutation_middle.
    + cbn. do 3 (apply submseteq_app; [done|]). by apply submseteq_cons.
  - unfold everywhere. cbn. by rewrite E.
  - unfold everywhere, held. cbn. rewrite bind_app. cbn. by rewrite app_nil_r.
  - unfold everywhere, tunnelled. cbn. rewrite bind_app. cbn. by rewrite app_nil_r.
  - apply client_step_keeps in Hc as [Hk _]. by eapply task_keys.
  - apply call_step_keeps in Hc as [Hk _]. by eapply call_keys.
  - eapply call_keys; [done..|]. apply fmap_submseteq. cbn. rewrite app_nil_r. by apply submseteq_inserts_r.
Qed.

Lemma sys_step_all_ok s s' : sys_step s s' -> all_ok s -> all_ok s'.
Proof.
  unfold all_ok.
  destruct 1 as [s p src E|s E|s ip c|s rc u|s p Hr|s h pt Hr|s ts1 t ts2 x E Hc|s ls1 l ls2 x E Hc|s ls1 l ls2 E Hf];
    cbn [with_sys_pool with_source with_tasks with_calls sy_tasks sy_calls]; intros [Ht Hl]; try done.
  - split; [by apply Forall_snoc_2|done].
  - split; [done|by apply Forall_snoc_2].
  - rewrite E in Ht. split; [|done]. by apply (Forall_replace _ _ t), (client_step_keeps _ _ _ Hc).
  - rewrite E in Hl. split; [done|]. by apply (Forall_replace _ _ l), (call_step_keeps _ _ _ _ Hc).
  - rewrite E in Hl. split; [done|]. by apply (Forall_replace _ _ l).
Qed.

(** ** Runs of the server *)

Section Runs.
Context (pl : Pool) (source : option (list Proxy)).

#[local] Notation reachable := (rtc sys_step (sys_start pl source)).

(** The pools and histories the server had. *)
Definition had (p : Pool) (h : gmap bytes bytes) : Prop := exists s, reachable s /\ sy_pool s = p /\ sy_history s = h.

Lemma reachable_ind (P : Sys -> Prop) :
  P (sys_start pl source) -> (forall s s', reachable s -> reachable s' -> sys_step s s' -> P s -> P s') ->
  forall s, reachable s -> P s.
Proof.
  intros H0 Hst. apply (rtc_ind_r P); [done|]. intros s s' Hr Hs. apply Hst; [done|by eapply rtc_r|done].
Qed.

End Runs.

(** C6.  A proxy is in one hand at a time: however the importer, the accept loop,
    the clients' tasks and the connector's calls interleave, and whichever calls
    are dropped, every proxy pooled, on lease to a task or a call, or still to
    be imported is one of those the server started with, none of them twice, as
    long as no watcher or re-check loop adds any; so no two of them ever hold
    the same upstream.  And whatever they hold serves the scheme they asked for,
    and has the tunnel the connector chose. *)
Theorem one_holder pl source s :
  refreshed = false -> NoDup (key_of <$> (proxies pl ++ default [] source)) ->
  rtc sys_step (sys_start pl source) s ->
  NoDup (key_of <$> everywhere s) /\
  key_of <$> everywhere s ⊆+ key_of <$> (proxies pl ++ default [] source) /\ all_ok s.
Proof.
  intros Hrf Hn Hr.
  assert (keys (everywhere s) ⊆+ keys (proxies pl ++ default [] source) /\ all_ok s) as [Hk Hs].
  { revert s Hr. apply (reachable_ind pl source (fun s => _ /\ _)); [by split|].
    intros s s' _ _ Hst [Hk Hs]. split; [etrans; [by apply sys_step_keeps|done]|by eapply sys_step_all_ok]. }
  split_and!; [|done..]. eapply submseteq_NoDup; [exact Hk|exact Hn].
Qed.

End Proofs.

(** ** A run: the client asks before the proxy it gets has been imported; then
    the connector is called *)

Definition sample_task (c : Conn) (st : Stage) : Task :=
  {| t_peer := UNSPECIFIED; t_accepted := peer sample_get; t_conn := c; t_stage := st |}.

Definition one_task (s : Sys) (x : World * Stage) : Sys :=
  {| sy_pool := pool x.1; sy_history := history x.1; sy_source := sy_source s; sy_tasks := [sample_task (client x.1) x.2];
     sy_calls := sy_calls s |}.

Definition now_at (s : Sys) : World :=
  world_of s (match sy_tasks s with t :: _ => t_conn t | [] => peer [] end).

Definition sample_source : list Proxy := [sample_proxy_at 1].
Definition sample_start : Sys := sys_start (empty_pool PoolConfig_default false) (Some sample_source).
Definition sample_accepted : Sys := with_tasks [sample_task (peer sample_get) Fresh] sample_start.

Definition sample_conn : Conn := (parse_client_request None (peer sample_get)).2.
Definition sample_target : Target := {| t_host := bs "a"; t_ip := Some (V4 1 1 1 1); t_port := 80 |}.

Definition sample_job : Job :=
  {| j_req := sample_request; j_key := KeyIp UNSPECIFIED; j_target := sample_target; j_attempt := 0; j_left := 2 |}.

Definition sample_begun : Sys :=
  one_task sample_accepted (with_client sample_conn (now_at sample_accepted), Awaiting sample_job (Asking 0)).
Definition sample_missed : Sys := one_task sample_begun (now_at sample_begun, Awaiting sample_job (Missed 0 0)).
Definition sample_asleep : Sys := one_task sample_missed (now_at sample_missed, Awaiting sample_job (Asleep 0 0)).
Definition sample_imported : Sys :=
  with_source (Some []) (with_sys_pool (@import AsciiOnly (Some (sample_proxy_at 1)) (sy_pool sample_asleep)) sample_asleep).
Definition sample_again : Sys := one_task sample_imported (now_at sample_imported, Awaiting sample_job (Asking 0)).

(** The first lease in a state. *)
Definition sample_look (s : Sys) : Pool := (try_select (fun _ => None) 0%N SHttp (KeyIp UNSPECIFIED) (sy_pool s)).2.

Definition sample_leased : Sys :=
  one_task sample_again
    (leased_for sample_job (sample_proxy_at 1) (with_pool (sample_look sample_again) (now_at sample_again))).

Definition sample_relayed : RelayOutcome * Conn :=
  relay no_clients copy_down (Some (Ok (peer sample_reply))) (client (now_at sample_leased)) (sample_proxy_at 1)
    (choose_proto (sample_proxy_at 1) SHttp) sample_target sample_request None.

Definition sample_over : Sys :=
  one_task sample_leased
    ((after_relay UNSPECIFIED sample_request (sample_proxy_at 1) 0%N sample_relayed.1
        (with_client sample_relayed.2 (now_at sample_leased))).2, Over).

Notation sample_step := (@sys_step AsciiOnly (sample_ctx None) false).

Lemma one_task_step s c st x :
  sy_tasks s = [sample_task c st] -> client_step (sample_ctx None) UNSPECIFIED (world_of s c, st) x ->
  sample_step s (one_task s x).
Proof. intros E Hc. exact (Y_client _ false s [] (sample_task c st) [] x E Hc). Qed.

Lemma asleep_run : rtc sample_step sample_start sample_asleep.
Proof.
  eapply rtc_l. { exact (Y_accept (sample_ctx None) false sample_start UNSPECIFIED (peer sample_get)). }
  apply (rtc_l _ _ sample_begun).
  { apply (one_task_step sample_accepted (peer sample_get) Fresh (_, _)); [reflexivity|].
    exact (C_begin (sample_ctx None) UNSPECIFIED (now_at sample_accepted) sample_request sample_conn
             ltac:(vm_compute; reflexivity) eq_refl ltac:(discriminate)). }
  apply (rtc_l _ _ sample_missed).
  { eapply one_task_step; [reflexivity|].
    apply (C_wait (sample_ctx None) UNSPECIFIED (now_at sample_begun) sample_job (Asking 0) (sy_pool sample_begun)).
    exact (G_miss _ _ _ (sy_pool sample_begun) 0 0%N _ ltac:(vm_compute; reflexivity)). }
  apply rtc_once. { eapply one_task_step; [reflexivity|]. apply (C_wait (sample_ctx None) _ (now_at sample_missed)). by apply G_sleep. }
Qed.

Lemma served_run : rtc sample_step sample_start sample_over.
Proof.
  etrans; [exact asleep_run|].
  apply (rtc_l _ _ sample_imported). { apply Y_import. reflexivity. }
  apply (rtc_l _ _ sample_again).
  { eapply one_task_step; [reflexivity|]. apply (C_wait (sample_ctx None) _ (now_at sample_imported)). by apply G_wake. }
  apply (rtc_l _ _ sample_leased).
  { eapply one_task_step; [reflexivity|].
    apply (C_got (sample_ctx None) _ (now_at sample_again) _ _ (sample_look sample_again) (Some (sample_proxy_at 1))).
    apply (G_lease _ _ _ _ _ 0%N); vm_compute; reflexivity. }
  apply rtc_once. eapply one_task_step; [reflexivity|].
  apply (C_relayed (sample_ctx None) UNSPECIFIED _ sample_job (sample_proxy_at 1) None (Some (Ok (peer sample_reply)))
           0%N sample_relayed.1 sample_relayed.2 true); vm_compute; reflexivity.
Qed.

(** The client has its reply and the proxy is back in the pool. *)
Example sample_over_client :
  tx (client (now_at sample_over)) =
    bs "HTTP/1.1 200 OK" ++ crlf ++ bs "X-Proxy-Info: 10.0.0.1:80" ++ crlf ++ crlf ++ bs "hello" /\
  keys (everywhere sample_over) = [(V4 10 0 0 1, 80%N)].
Proof. by vm_compute. Qed.

(** The call. *)
Definition sample_connector : RotatingProxyConnector :=
  {| rc_resolver := fun _ => None; rc_cfg := RotateConfig_default |}.
Definition sample_uri : Uri := {| scheme_str := Some (bs "http"); uri_host := Some (bs "1.1.1.1"); port_u16 := None |}.
Definition sample_call (st : CallStage) : Call :=
  {| l_connector := sample_connector; l_uri := sample_uri; l_stage := st |}.
Definition sample_turn : Turn := {| u_number := 0; u_left := 2; u_last := None |}.

(** The proxy as the relay left it. *)
Definition used_proxy : Proxy := default (sample_proxy_at 1) (head (proxies (sy_pool sample_over))).

Definition one_call (s : Sys) (x : Pool * CallStage) : Sys := with_calls [sample_call x.2] (with_sys_pool x.1 s).
Definition sample_called : Sys := with_calls [sample_call Called] sample_over.
Definition sample_seeking : Sys := one_call sample_called (sy_pool sample_called, Seeking sample_turn (Asking 0)).
Definition sample_tunnelling : Sys := one_call sample_seeking (sample_look sample_seeking, Tunnelling sample_turn used_proxy Http).
Definition sample_answered : Sys :=
  one_call sample_tunnelling
    (put_ok (record_attempt (Some f_zero) None used_proxy) (sy_pool sample_tunnelling), Answered (Ok (Plain (peer [])))).

Lemma one_call_step s st x :
  sy_calls s = [sample_call st] -> call_step (sample_ctx None) sample_connector sample_uri (sy_pool s, st) x ->
  sample_step s (one_call s x).
Proof. intros E Hc. exact (Y_dial _ false s [] (sample_call st) [] x E Hc). Qed.

Lemma tunnelling_run : rtc sample_step sample_start sample_tunnelling.
Proof.
  etrans; [exact served_run|].
  apply (rtc_l _ _ sample_called). { exact (Y_call _ _ sample_over sample_connector sample_uri). }
  apply (rtc_l _ _ sample_seeking).
  { apply (one_call_step sample_called Called (_, _)); [reflexivity|].
    by apply (L_begin (sample_ctx None) sample_connector sample_uri (sy_pool sample_called) (bs "1.1.1.1")). }
  apply rtc_once. eapply one_call_step; [reflexivity|]. eapply L_leased; [|by vm_compute].
  apply (G_lease _ _ _ _ _ 0%N); vm_compute; reflexivity.
Qed.

Lemma answered_run : rtc sample_step sample_start sample_answered.
Proof.
  eapply rtc_r; [exact tunnelling_run|]. eapply one_call_step; [reflexivity|].
  by apply (L_tunnel (sample_ctx None) _ _ _ _ _ _ (Some (Ok (peer []))) (bs "1.1.1.1")).
Qed.

Lemma one_holder_witness :
  NoDup (key_of <$> everywhere sample_tunnelling) /\
  key_of <$> everywhere sample_tunnelling ⊆+ key_of <$> sample_source /\ all_ok sample_tunnelling.
Proof.
  apply (@one_holder AsciiOnly (sample_ctx None) false (empty_pool PoolConfig_default false) (Some sample_source) sample_tunnelling);
    [reflexivity|apply NoDup_singleton|exact tunnelling_run].
Defined.

(** A call that is dropped while it dials takes its proxy with it: the pool is
    never given it back. *)
Definition sample_dropped : Sys := with_calls [sample_call Dropped] sample_tunnelling.

Lemma dropped_call_loses_proxy :
  rtc sample_step sample_start sample_dropped /\
  keys (everywhere sample_tunnelling) = [(V4 10 0 0 1, 80%N)] /\ everywhere sample_dropped = [].
Proof.
  split; [|by vm_compute]. eapply rtc_r; [exact tunnelling_run|].
  apply (Y_drop _ _ sample_tunnelling [] (sample_call (Tunnelling sample_turn used_proxy Http)) []); [reflexivity|].
  by intros [].
Qed.
