(* ===== verification/SystemSerial.v ===== *)
(** * What each client sees and each caller gets: [src/server.rs], [src/connector.rs]

    Interleaving changes nothing: what a client's task does among the others is
    an execution of the sequential [handle_client], and what a call does one of
    [connect], against pools and histories the server really had. *)

From stdpp Require Import base list gmap strings relations.
From Stdlib Require Import Ascii NArith ZArith Lia.
From S2P Require Import Prelude Bytes Text Float Net Utils Io Types ProxyModel Negotiator Resolver.
From S2P Require Import Pool PoolProofs Server ServerProofs Connector Getting System SystemProofs.

Section Proofs.
Context `{Unicode} (ctx : ConnCtx) (refreshed : bool).

#[local] Notation request_target := (System.request_target ctx).
#[local] Notation client_step := (System.client_step ctx).
#[local] Notation call_step := (System.call_step ctx).
#[local] Notation sys_step := (System.sys_step ctx refreshed).
#[local] Notation get_step := (Getting.get_step (ctx_first_key ctx)).

(** ** Each client sees a sequential run *)

(** What one stretch of interleaving shows a task: pools and histories that
    the server really had. *)
Section Serial.
Context (peer : IpAddr) (had : Pool -> gmap bytes bytes -> Prop).

Definition seen (pl : Pool) : Prop := exists h, had pl h.
Definition known (h : gmap bytes bytes) : Prop := exists pl, had pl h.

Definition env_seen (e : AttemptEnv) : Prop :=
  (forall w, seen (before e w)) /\ (forall w, seen (meanwhile e w)) /\ (forall h, known (elsewhere e h)) /\
  Forall (await_seen seen) (waiting e).

(** What follows the wait of the attempt under way. *)
Definition resume (env : AttemptEnv) (envs : nat -> AttemptEnv) (j : Job) (got : Outcome (option Proxy))
    (h : gmap bytes bytes) (c : Conn) : Progress :=
  match got with
  | Pending pl => Waiting {| pool := pl; history := h; client := c |}
  | Returned None pl => Finished (reply (terminal_failure (frontend (j_req j))) {| pool := pl; history := h; client := c |})
  | Returned (Some p) pl =>
      let pl := if 0 <? j_attempt j then count_rotation pl else pl in
      let '(o, c) := relay (ctx_clients ctx) (ctx_pump ctx) (dialing env) c p
                       (choose_proto p (scheme (j_req j))) (j_target j) (j_req j)
                       (http_allowed_codes (config pl)) in
      let '(stop, w') := after_relay peer (j_req j) p (at_return env) o
                           {| pool := meanwhile env pl; history := elsewhere env h; client := c |} in
      if stop then Finished w'
      else attempts ctx peer envs (j_left j) (S (j_attempt j)) (j_key j) (j_target j) (j_req j) w'
  end.

Lemma attempts_resume envs more n key t req w :
  attempts ctx peer envs (S more) n key t req w =
  resume (envs n) envs {| j_req := req; j_key := key; j_target := t; j_attempt := n; j_left := more |}
    (get (ctx_first_key ctx) (waiting (envs n)) (at_lease (envs n)) (scheme req) key (before (envs n) (pool w)))
    (history w) (client w).
Proof. done. Qed.

(** Only the attempts still to come matter. *)
Lemma attempts_ext envs envs' tries n key t req w :
  (forall k, n <= k -> envs k = envs' k) ->
  attempts ctx peer envs tries n key t req w = attempts ctx peer envs' tries n key t req w.
Proof.
  revert n w. induction tries as [|more IH]; intros n w Hx; [done|].
  rewrite !attempts_resume, (Hx n) by lia. unfold resume.
  destruct (get _ _ _ _ _ _) as [[p|] pl|pl]; [|done..]. cbn zeta. destruct (relay _ _ _ _ _ _ _ _ _) as [o c].
  cbn [j_req j_attempt j_left j_key j_target]. destruct (after_relay _ _ _ _ _ _) as [[] w']; [done|].
  apply IH. intros k Hk. apply Hx. lia.
Qed.

(** What is left of an attempt depends on the relay's part of its environment. *)
Lemma resume_ext env env' envs envs' j got h c :
  (dialing env, meanwhile env, elsewhere env, at_return env) =
    (dialing env', meanwhile env', elsewhere env', at_return env') ->
  (forall k, S (j_attempt j) <= k -> envs k = envs' k) ->
  resume env envs j got h c = resume env' envs' j got h c.
Proof.
  intros [= Hd Hm He Ht] Hx. unfold resume.
  destruct got as [[p|] pl|pl]; rewrite <-?Hd, <-?Hm, <-?He, <-?Ht; [|done..]. cbn zeta.
  destruct (relay _ _ _ _ _ _ _ _ _) as [o c']. destruct (after_relay _ _ _ _ _ _) as [[] w1]; [done|].
  by apply attempts_ext.
Qed.

Definition answers (c' : Conn) (r : Progress) : Prop := exists w', r = Finished w' /\ client w' = c'.

(** That a task at the stage [st], its connection being [c], can end with the
    connection [c'], whatever the pool and the history it is resumed with: by
    stages, what is left of [handle_client]. *)
Definition completes (c : Conn) (st : Stage) (c' : Conn) : Prop :=
  match st with
  | Over => c = c'
  | Fresh =>
      exists envs pl h, (forall k, env_seen (envs k)) /\ had pl h /\
        answers c' (handle_client ctx peer envs {| pool := pl; history := h; client := c |})
  | Awaiting j g =>
      exists env envs, env_seen env /\ (forall k, env_seen (envs k)) /\
        can_get (ctx_first_key ctx) (scheme (j_req j)) (j_key j) seen g
          (fun got => forall h, answers c' (resume env envs j got h c))
  | Relaying j p codes =>
      exists env envs, env_seen env /\ (forall k, env_seen (envs k)) /\ forall pl h,
        http_allowed_codes (config pl) = codes -> answers c' (resume env envs j (Returned (Some p) pl) h c)
  end.

(** The environment [e] with the wait for a proxy as it went. *)
Definition waited (pl : Pool) (now : instant) (script : list Await) (e : AttemptEnv) : AttemptEnv :=
  {| before := fun _ => pl; waiting := script; at_lease := now; dialing := dialing e; meanwhile := meanwhile e;
     elsewhere := elsewhere e; at_return := at_return e |}.

Definition still (pl : Pool) (h : gmap bytes bytes) (d : dialed) (now : instant) : AttemptEnv :=
  {| before := fun _ => pl; waiting := []; at_lease := now; dialing := d; meanwhile := fun _ => pl;
     elsewhere := fun _ => h; at_return := now |}.

Lemma still_seen pl h d now : seen pl -> known h -> env_seen (still pl h d now).
Proof. intros Hp Hh. unfold env_seen. by split_and!. Qed.

Lemma waited_seen pl now script e : seen pl -> Forall (await_seen seen) script -> env_seen e -> env_seen (waited pl now script e).
Proof. intros Hpl Hs (_ & Hm & He & _). unfold env_seen. by split_and!. Qed.

Lemma next_attempt_completes req key t n tries w c' :
  seen (pool w) -> known (history w) ->
  completes (client (next_attempt req key t n tries w).1) (next_attempt req key t n tries w).2 c' ->
  exists envs, (forall k, env_seen (envs k)) /\
    forall pl h, answers c' (attempts ctx peer envs tries n key t req {| pool := pl; history := h; client := client w |}).
Proof.
  intros Hs Hk. destruct tries as [|more]; cbn [next_attempt fst snd completes can_get].
  - intros <-. exists (fun _ => still (pool w) (history w) None 0%N). split; [intros; by apply still_seen|].
    intros pl h. by eexists.
  - intros (env & envs & He & Hes & script & now & pl0 & Hsc & Hp & Ha).
    exists (fun k => if k =? n then waited pl0 now script env else envs k). split.
    { intros k. cbn beta. destruct (k =? n); [by apply waited_seen|done]. }
    intros pl h. rewrite attempts_resume, Nat.eqb_refl. cbn [waited at_lease before waiting history client]. unfold get.
    erewrite resume_ext; [apply (Ha h)|done|].
    intros k Hk'. cbn in Hk' |- *. destruct (Nat.eqb_spec k n); [lia|done].
Qed.

Section Steps.
Context (w : World) (Hw : had (pool w) (history w)).

Let Hs : seen (pool w) := ex_intro _ (history w) Hw.
Let Hk : known (history w) := ex_intro _ (pool w) Hw.

Lemma fresh_completes c' :
  (exists envs, (forall k, env_seen (envs k)) /\ answers c' (handle_client ctx peer envs w)) ->
  completes (client w) Fresh c'.
Proof using Hw. intros (envs & He & Ha). exists envs, (pool w), (history w). by destruct w. Qed.

Lemma refused_completes c' :
  (forall envs, answers c' (handle_client ctx peer envs w)) -> completes (client w) Fresh c'.
Proof using Hw.
  intros Ha. apply fresh_completes. exists (fun _ => still (pool w) (history w) None 0%N).
  split; [intros; by apply still_seen|done].
Qed.

Lemma begin_completes req c c' :
  parse_client_request (expected_auth ctx) (client w) = (Ok req, c) -> admitted ctx req = true ->
  req_host req <> bs "proxycontrol" ->
  let n := next_attempt req (client_key (config (pool w)) peer req) (request_target req) 0
             (max_tries (config (pool w))) (with_client c w) in
  completes (client n.1) n.2 c' -> completes (client w) Fresh c'.
Proof using Hw.
  intros E Ha Hh n Hc. apply next_attempt_completes in Hc as (envs & He & Hc); [|done..].
  apply fresh_completes. exists envs. split; [done|]. unfold handle_client. rewrite E. unfold serve_request.
  rewrite Ha. cbn [negb]. rewrite bool_decide_false by done. apply Hc.
Qed.

(** The wait for a proxy goes on. *)
Lemma wait_completes j g pl g' c' :
  get_step (scheme (j_req j)) (j_key j) (pool w, g) (pl, inl g') ->
  completes (client w) (Awaiting j g') c' -> completes (client w) (Awaiting j g) c'.
Proof using Hw.
  intros E (env & envs & He & Hes & Hc). exists env, envs. split_and!; [done..|].
  by eapply (get_step_back _ _ _ _ _ _ _ _ _ E).
Qed.

(** It ends: with a lease the relay is left, without one the reply. *)
Lemma got_completes j g pl o c' :
  get_step (scheme (j_req j)) (j_key j) (pool w, g) (pl, inr o) ->
  let r := match o with Some p => leased_for j p (with_pool pl w) | None => turn_away j (with_pool pl w) end in
  completes (client r.1) r.2 c' -> completes (client w) (Awaiting j g) c'.
Proof using Hw.
  intros E r Hr.
  enough (exists env envs, env_seen env /\ (forall k, env_seen (envs k)) /\
            forall h, answers c' (resume env envs j (Returned o pl) h (client w))) as (env & envs & He & Hes & Ha).
  { exists env, envs. split_and!; [done..|]. by eapply (get_step_back _ _ _ _ _ _ _ _ _ E). }
  subst r. destruct o as [p|]; cbn [leased_for turn_away fst snd completes client with_pool] in Hr.
  - destruct Hr as (env & envs & He & Hes & Ha). exists env, envs. split_and!; [done..|]. intros h. apply Ha.
    by destruct (0 <? j_attempt j).
  - exists (still (pool w) (history w) None 0%N), (fun _ => still (pool w) (history w) None 0%N).
    split_and!; [by apply still_seen|intros; by apply still_seen|]. intros h. by eexists.
Qed.

Lemma relayed_completes j p codes dial now o c stop w' c' :
  relay (ctx_clients ctx) (ctx_pump ctx) dial (client w) p (choose_proto p (scheme (j_req j)))
    (j_target j) (j_req j) codes = (o, c) ->
  after_relay peer (j_req j) p now o (with_client c w) = (stop, w') ->
  had (pool w') (history w') ->
  let r := if stop then (w', Over)
           else next_attempt (j_req j) (j_key j) (j_target j) (S (j_attempt j)) (j_left j) w' in
  completes (client r.1) r.2 c' -> completes (client w) (Relaying j p codes) c'.
Proof using Hw.
  intros Er Ea Hw' r. unfold r.
  assert (forall envs pl h, http_allowed_codes (config pl) = codes ->
    resume (still (pool w) (history w) dial now) envs j (Returned (Some p) pl) h (client w) =
    if stop then Finished w'
    else attempts ctx peer envs (j_left j) (S (j_attempt j)) (j_key j) (j_target j) (j_req j) w') as Hr.
  { intros envs pl h <-. cbn [resume still dialing meanwhile elsewhere at_return].
    assert (config (if 0 <? j_attempt j then count_rotation pl else pl) = config pl) as -> by by destruct (0 <? _).
    rewrite Er. unfold with_client in Ea. by rewrite Ea. }
  destruct stop.
  - intros <-. exists (still (pool w) (history w) dial now), (fun _ => still (pool w) (history w) None 0%N).
    split_and!; [by apply still_seen|intros; by apply still_seen|]. intros pl h Hc. rewrite Hr by done. by eexists.
  - intros (envs & He & Ha)%next_attempt_completes; [|by eexists..].
    exists (still (pool w) (history w) dial now), envs. split_and!; [by apply still_seen|done|].
    intros pl h Hc. rewrite Hr by done. specialize (Ha (pool w') (history w')). by destruct w'.
Qed.
End Steps.

Lemma client_step_completes x y c' :
  client_step peer x y -> had (pool x.1) (history x.1) -> had (pool y.1) (history y.1) ->
  completes (client y.1) y.2 c' -> completes (client x.1) x.2 c'.
Proof.
  destruct 1 as [w c E|w req c E Ha|w req c answer pl E Ha Hh Ec|w req c E Ha Hh|w j g pl g' E|w j g pl o E
                |w j p codes dial now o c stop w' Er Ea]; cbn [fst snd]; intros Hw Hw'.
  - intros <-. apply (refused_completes w Hw). intros envs. unfold handle_client.
    rewrite E. by eexists.
  - intros <-. apply (refused_completes w Hw). intros envs. unfold handle_client.
    rewrite E. unfold serve_request. rewrite Ha. by eexists.
  - intros <-. apply (refused_completes w Hw). intros envs. unfold handle_client.
    rewrite E. unfold serve_request. rewrite Ha. cbn [negb]. rewrite bool_decide_true by done.
    cbn [history pool with_client]. rewrite Ec. by eexists.
  - exact (begin_completes w Hw req c c' E Ha Hh).
  - exact (wait_completes w Hw _ _ _ _ _ E).
  - exact (got_completes w Hw _ _ _ _ _ E).
  - apply (relayed_completes w Hw _ _ _ _ _ _ _ _ _ _ Er Ea). by destruct stop; [|destruct (j_left j)].
Qed.
End Serial.

(** ** Each caller gets what a sequential [connect] gives *)

Section CallSerial.
Context (had : Pool -> Prop) (rc : RotatingProxyConnector) (u : Uri).

#[local] Notation turns := (Connector.turns (ctx_first_key ctx) (ctx_clients ctx)).
#[local] Notation connect := (Connector.connect (ctx_first_key ctx) (ctx_clients ctx) (rc_resolver rc)).

Definition dial_seen (e : DialEnv) : Prop :=
  (forall w, had (d_before e w)) /\ (forall w, had (d_meanwhile e w)) /\ Forall (await_seen had) (d_waiting e).

(** What follows the wait of the turn under way. *)
Definition pursue (env : DialEnv) (envs : nat -> DialEnv) (k : Turn) (t : Target) (got : Outcome (option Proxy)) : Connecting :=
  match got with
  | Pending w => StillWaiting w
  | Returned None w => Connected (Err (NotConnected (bs "no proxy available in the pool"))) w
  | Returned (Some p) w =>
      match tunnel_proto p (uri_scheme u) with
      | None => turns envs (u_left k) (S (u_number k)) (u_last k) (uri_scheme u) t (put_ok p w)
      | Some pr =>
          let w := d_meanwhile env w in
          match Connector.dial (ctx_clients ctx) (d_dialing env) p pr t with
          | Ok s => Connected (Ok s) (put_ok (record_attempt (Some f_zero) None p) w)
          | Err e =>
              turns envs (u_left k) (S (u_number k)) (Some e) (uri_scheme u) t
                (put_failed (d_return env) (record_attempt None (Some e) p) w)
          end
      end
  end.

Lemma turns_pursue envs more n last t w :
  turns envs (S more) n last (uri_scheme u) t w =
  pursue (envs n) envs {| u_number := n; u_left := more; u_last := last |} t
    (get (ctx_first_key ctx) (d_waiting (envs n)) (d_lease (envs n)) (uri_scheme u) (KeyIp UNSPECIFIED) (d_before (envs n) w)).
Proof. done. Qed.

Lemma turns_ext envs envs' tries n last t w :
  (forall k, n <= k -> envs k = envs' k) ->
  turns envs tries n last (uri_scheme u) t w = turns envs' tries n last (uri_scheme u) t w.
Proof.
  revert n last w. induction tries as [|more IH]; intros n last w Hx; [done|].
  assert (forall last w, turns envs more (S n) last (uri_scheme u) t w = turns envs' more (S n) last (uri_scheme u) t w) as IH'.
  { intros. apply IH. intros k Hk. apply Hx. lia. }
  rewrite !turns_pursue, (Hx n) by lia. unfold pursue.
  destruct (get _ _ _ _ _ _) as [[p|] w'|w']; [|done..]. destruct (tunnel_proto _ _); [|apply IH'].
  cbn zeta. destruct (Connector.dial _ _ _ _ _); [done|apply IH'].
Qed.

(** What is left of a turn depends on the dialling part of its environment. *)
Lemma pursue_ext env env' envs envs' k t got :
  (d_dialing env, d_meanwhile env, d_return env) = (d_dialing env', d_meanwhile env', d_return env') ->
  (forall n, S (u_number k) <= n -> envs n = envs' n) ->
  pursue env envs k t got = pursue env' envs' k t got.
Proof.
  intros [= Hd Hm Hr] Hx. unfold pursue. destruct got as [[p|] w|w]; rewrite <-?Hd, <-?Hm, <-?Hr; [|done..].
  destruct (tunnel_proto _ _); [|by apply turns_ext]. cbn zeta.
  destruct (Connector.dial _ _ _ _ _); [done|by apply turns_ext].
Qed.

Definition gives (r : result IoError Stream) (x : Connecting) : Prop := exists w, x = Connected r w.

(** That a call at the stage [st] can end with the answer [r], whatever the
    pools it is resumed with: by stages, what is left of [connect]. *)
Definition ends (st : CallStage) (r : result IoError Stream) : Prop :=
  match st with
  | Answered r' => r' = r
  | Dropped => False
  | Called =>
      exists envs w, (forall n, dial_seen (envs n)) /\ had w /\ gives r (connect envs (rc_cfg rc) u w)
  | Seeking k g =>
      forall h, uri_host u = Some h ->
      exists env envs, dial_seen env /\ (forall n, dial_seen (envs n)) /\
        can_get (ctx_first_key ctx) (uri_scheme u) (KeyIp UNSPECIFIED) had g
          (fun got => gives r (pursue env envs k (uri_target (rc_resolver rc) u h) got))
  | Tunnelling k p pr =>
      forall h, uri_host u = Some h -> tunnel_proto p (uri_scheme u) = Some pr ->
      exists env envs, dial_seen env /\ (forall n, dial_seen (envs n)) /\
        forall w, gives r (pursue env envs k (uri_target (rc_resolver rc) u h) (Returned (Some p) w))
  end.

(** The environment [e] with the wait for a proxy as it went. *)
Definition sought (pl : Pool) (now : instant) (script : list Await) (e : DialEnv) : DialEnv :=
  {| d_before := fun _ => pl; d_waiting := script; d_lease := now; d_dialing := d_dialing e;
     d_meanwhile := d_meanwhile e; d_return := d_return e |}.

Definition dialled (pl : Pool) (d : dialed) (now : instant) : DialEnv :=
  {| d_before := fun _ => pl; d_waiting := []; d_lease := now; d_dialing := d; d_meanwhile := fun _ => pl; d_return := now |}.

Lemma dialled_seen pl d now : had pl -> dial_seen (dialled pl d now).
Proof. intros Hp. by split_and!. Qed.

Lemma sought_seen pl now script e : had pl -> Forall (await_seen had) script -> dial_seen e -> dial_seen (sought pl now script e).
Proof. intros Hp Hs (_ & Hm & _). by split_and!. Qed.

Lemma next_turn_ends n tries last w h r :
  had (next_turn n tries last w).1 -> uri_host u = Some h -> ends (next_turn n tries last w).2 r ->
  exists envs, (forall k, dial_seen (envs k)) /\
    forall w', gives r (turns envs tries n last (uri_scheme u) (uri_target (rc_resolver rc) u h) w').
Proof.
  destruct tries as [|more]; cbn [next_turn fst snd ends can_get]; intros Hw Hh.
  - intros <-. exists (fun _ => dialled w None 0%N). split; [intros; by apply dialled_seen|]. intros w'. by eexists.
  - intros (env & envs & He & Hes & script & now & pl & Hs & Hp & Hr)%(fun e => e h Hh).
    exists (fun k => if k =? n then sought pl now script env else envs k). split.
    { intros k. cbn beta. destruct (k =? n); [by apply sought_seen|done]. }
    intros w'. rewrite turns_pursue, Nat.eqb_refl. cbn [sought d_waiting d_lease d_before]. unfold get.
    erewrite pursue_ext; [exact Hr|done|].
    intros k Hk. cbn in Hk |- *. destruct (Nat.eqb_spec k n); [lia|done].
Qed.

(** The dialling of the leased proxy, and the turns after it. *)
Lemma tunnel_ends w k p pr tcp (now : instant) h x r :
  had w -> uri_host u = Some h ->
  (x = match Connector.dial (ctx_clients ctx) tcp p pr (uri_target (rc_resolver rc) u h) with
       | Ok s => (put_ok (record_attempt (Some f_zero) None p) w, Answered (Ok s))
       | Err e => next_turn (S (u_number k)) (u_left k) (Some e) (put_failed now (record_attempt None (Some e) p) w)
       end) ->
  had x.1 -> ends x.2 r -> ends (Tunnelling k p pr) r.
Proof.
  intros Hw Hh -> Hx Hr h' Hh' Ht. rewrite Hh in Hh'. injection Hh' as <-.
  destruct (Connector.dial _ _ _ _ _) as [s|e] eqn:Ed.
  - cbn [snd ends] in Hr. subst r. exists (dialled w tcp now), (fun _ => dialled w tcp now).
    split_and!; [by apply dialled_seen|intros; by apply dialled_seen|]. intros w'. unfold pursue. rewrite Ht.
    cbn [dialled d_dialing d_meanwhile]. rewrite Ed. by eexists.
  - destruct (next_turn_ends _ _ _ _ h _ Hx Hh Hr) as (envs & He & Hr').
    exists (dialled w tcp now), envs. split_and!; [by apply dialled_seen|done|]. intros w'. unfold pursue. rewrite Ht.
    cbn [dialled d_dialing d_meanwhile d_return]. rewrite Ed. apply Hr'.
Qed.

(** The answer of the wait: the turn goes on in the state [st]. *)
Lemma got_ends w k g pl o st r :
  had w -> get_step (uri_scheme u) (KeyIp UNSPECIFIED) (w, g) (pl, inr o) ->
  (forall h, uri_host u = Some h -> exists env envs, dial_seen env /\ (forall n, dial_seen (envs n)) /\
     gives r (pursue env envs k (uri_target (rc_resolver rc) u h) (Returned o pl))) ->
  st = Seeking k g -> ends st r.
Proof.
  intros Hw E Hp -> h Hh. destruct (Hp h Hh) as (env & envs & He & Hes & Hg). exists env, envs.
  split_and!; [done..|]. by eapply (get_step_back _ _ _ _ _ _ _ _ _ E).
Qed.

Lemma call_step_ends x y r :
  call_step rc u x y -> had x.1 -> had y.1 -> ends y.2 r -> ends x.2 r.
Proof.
  destruct 1 as [w E|w h E|w k g pl g' E|w k g pl E|w k g pl p E Ht|w k g pl p pr E Ht
                |w k p pr tcp h s E Ed|w k p pr tcp h e now E Ed]; cbn [fst snd]; intros Hw Hw' Hr.
  - exists (fun _ => dialled w None 0%N), w. split_and!; [intros; by apply dialled_seen|done|]. cbn in Hr. subst r.
    unfold connect. rewrite E. by eexists.
  - destruct (next_turn_ends _ _ _ _ h _ Hw' E Hr) as (envs & He & Hr').
    exists envs, w. split_and!; [done..|]. unfold connect. rewrite E. apply Hr'.
  - intros h Hh. destruct (Hr h Hh) as (env & envs & He & Hes & Hc). exists env, envs. split_and!; [done..|].
    by eapply (get_step_back _ _ _ _ _ _ _ _ _ E).
  - eapply got_ends; [exact Hw|exact E| |done]. intros h Hh. cbn [ends] in Hr. subst r.
    exists (dialled w None 0%N), (fun _ => dialled w None 0%N).
    split_and!; [by apply dialled_seen|intros; by apply dialled_seen|by eexists].
  - eapply got_ends; [exact Hw|exact E| |done]. intros h Hh.
    destruct (next_turn_ends _ _ _ _ h _ Hw' Hh Hr) as (envs & He & Hr').
    exists (dialled w None 0%N), envs. split_and!; [by apply dialled_seen|done|]. cbn [pursue]. rewrite Ht. apply Hr'.
  - eapply got_ends; [exact Hw|exact E| |done]. intros h Hh. destruct (Hr h Hh Ht) as (env & envs & He & Hes & Hg).
    by exists env, envs.
  - eapply (tunnel_ends w k p pr tcp 0%N h (_, _)); [done..|by rewrite Ed|done|done].
  - eapply (tunnel_ends w k p pr tcp now h (_, _)); [done..|by rewrite Ed, <-surjective_pairing|done|done].
Qed.
End CallSerial.

(** ** In every run of the server *)

Section Runs.
Context (pl : Pool) (source : option (list Proxy)).

#[local] Notation reachable := (rtc sys_step (sys_start pl source)).
#[local] Notation had := (SystemProofs.had ctx refreshed pl source).

Lemma had_now s : reachable s -> had (sy_pool s) (sy_history s).
Proof. intros Hr. by exists s. Qed.

Lemma had_pool s : reachable s -> seen had (sy_pool s).
Proof. intros Hr. exists (sy_history s). by apply had_now. Qed.

(** Whatever is left of a task is left of its whole. *)
Definition task_whole (t : Task) : Prop :=
  forall c', completes (t_peer t) had (t_conn t) (t_stage t) c' -> completes (t_peer t) had (t_accepted t) Fresh c'.

Definition call_whole (l : Call) : Prop :=
  forall r, ends (seen had) (l_connector l) (l_uri l) (l_stage l) r -> ends (seen had) (l_connector l) (l_uri l) Called r.

Lemma reachable_whole s : reachable s -> Forall task_whole (sy_tasks s) /\ Forall call_whole (sy_calls s).
Proof.
  revert s. apply (reachable_ind ctx refreshed pl source (fun s => _ /\ _)); [done|]. intros s s' Hr Hr' Hst [Ht Hl].
  pose proof (had_now _ Hr) as Hs. pose proof (had_now _ Hr') as Hs'.
  destruct Hst as [s p src E|s E|s ip c|s rc u|s p Hrf|s h pt Hrf|s ts1 t ts2 x E Hc|s ls1 l ls2 x E Hc|s ls1 l ls2 E Hf];
    cbn [with_sys_pool with_source with_tasks with_calls sy_tasks sy_calls sy_pool sy_history] in *; try done.
  - split; [|done]. apply Forall_snoc_2; [done|by intros c'].
  - split; [done|]. apply Forall_snoc_2; [done|by intros r].
  - rewrite E in Ht. split; [|done]. apply (Forall_replace _ _ t); [done|]. intros Hw c' Hd. apply Hw.
    by apply (client_step_completes _ _ _ _ _ Hc).
  - rewrite E in Hl. split; [done|]. apply (Forall_replace _ _ l); [done|]. intros Hw r Hd. apply Hw.
    apply (call_step_ends _ _ _ _ _ _ Hc); [by eexists..|done].
  - rewrite E in Hl. split; [done|]. apply (Forall_replace _ _ l); [done|]. by intros _ r [].
Qed.

Lemma task_serial s t :
  reachable s -> t ∈ sy_tasks s -> t_stage t = Over -> completes (t_peer t) had (t_accepted t) Fresh (t_conn t).
Proof.
  intros Hr Ht Ho. destruct (reachable_whole s Hr) as [Hall _]. rewrite Forall_forall in Hall.
  apply (Hall t Ht). by rewrite Ho.
Qed.

Lemma call_serial s l r :
  reachable s -> l ∈ sy_calls s -> l_stage l = Answered r -> ends (seen had) (l_connector l) (l_uri l) Called r.
Proof.
  intros Hr Hl Ho. destruct (reachable_whole s Hr) as [_ Hall]. rewrite Forall_forall in Hall.
  apply (Hall l Hl). by rewrite Ho.
Qed.
End Runs.

(** C9.  Interleaving changes nothing for a client or a caller: in every run of
    the server, a client whose task has ended has seen exactly what
    [handle_client], run on its own from the connection it was accepted with,
    leaves on it, and a caller of the connector has been given exactly what
    [connect], run on its own, gives; each against some pool and history the
    server had during the run, the others' doings being, at each suspension, a
    pool and a history the server had.  So what is proved of [handle_client] and
    [connect] holds of every client and every call, however many there are. *)
Theorem every_interleaving pl source s :
  rtc sys_step (sys_start pl source) s ->
  let had := had ctx refreshed pl source in
  (forall t, t ∈ sy_tasks s -> t_stage t = Over ->
     exists envs p h w',
       (forall k, env_seen had (envs k)) /\ had p h /\
       handle_client ctx (t_peer t) envs {| pool := p; history := h; client := t_accepted t |} = Finished w' /\
       client w' = t_conn t) /\
  (forall l r, l ∈ sy_calls s -> l_stage l = Answered r ->
     exists envs p w',
       (forall k, dial_seen (seen had) (envs k)) /\ seen had p /\
       connect (ctx_first_key ctx) (ctx_clients ctx) (rc_resolver (l_connector l)) envs (rc_cfg (l_connector l)) (l_uri l) p
         = Connected r w').
Proof.
  intros Hr had. split.
  - intros t Ht Ho. destruct (task_serial pl source s t Hr Ht Ho) as (envs & p & h & He & Hp & w' & Hf & Hc).
    by exists envs, p, h, w'.
  - intros l r Hl Ho. destruct (call_serial pl source s l r Hr Hl Ho) as (envs & p & He & Hp & w' & Hf).
    by exists envs, p, w'.
Qed.

(** C36.  The connector never terminates TLS: in every run of the server, a call
    that has been given a stream has been given a plain one, to a host its URI
    names, over a tunnel negotiated with a proxy that was leased from a pool the
    server had, serves the scheme, and has confirmed the protocol; and that
    protocol is neither HTTPS nor the SMTP tunnel, and plain forwarding only
    towards an [http] target. *)
Theorem never_terminates_tls pl source s l str :
  rtc sys_step (sys_start pl source) s -> l ∈ sy_calls s -> l_stage l = Answered (Ok str) ->
  exists h c p pr tcp,
    uri_host (l_uri l) = Some h /\ str = Plain c /\
    dial (ctx_clients ctx) tcp p pr (uri_target (rc_resolver (l_connector l)) (l_uri l) h) = Ok str /\
    (exists before script now leased,
       seen (had ctx refreshed pl source) before /\ Forall (await_seen (seen (had ctx refreshed pl source))) script /\
       get (ctx_first_key ctx) script now (uri_scheme (l_uri l)) (KeyIp UNSPECIFIED) before = Returned (Some p) leased) /\
    uri_scheme (l_uri l) ∈ schemes p /\ is_Some (types p !! pr) /\ pr <> Https /\ pr <> Connect25 /\
    (pr = Http -> uri_scheme (l_uri l) = SHttp).
Proof.
  intros Hr Hl Ho. destruct (call_serial pl source s l (Ok str) Hr Hl Ho) as (envs & w & He & _ & w' & Hc).
  apply connect_Ok in Hc as (h & k & c & before & leased & p & pr & Hh & _ & Hp & Hg & Hs & Ht & H1 & H25 & Hx & Hd & _).
  exists h, c, p, pr, (d_dialing (envs k)). split_and!; try done.
  destruct (He k) as (Hb & _ & Hw). by eexists _, (d_waiting (envs k)), (d_lease (envs k)), leased.
Qed.

End Proofs.

(** ** The run, seen by its client and its caller *)

Lemma every_interleaving_witness :
  let had := @had AsciiOnly (sample_ctx None) false (empty_pool PoolConfig_default false) (Some sample_source) in
  (forall t, t ∈ sy_tasks sample_answered -> t_stage t = Over ->
     exists envs p h w',
       (forall k, env_seen had (envs k)) /\ had p h /\
       handle_client (sample_ctx None) (t_peer t) envs {| pool := p; history := h; client := t_accepted t |} = Finished w' /\
       client w' = t_conn t) /\
  (forall l r, l ∈ sy_calls sample_answered -> l_stage l = Answered r ->
     exists envs p w',
       (forall k, dial_seen (seen had) (envs k)) /\ seen had p /\
       connect (fun _ => None) no_clients (rc_resolver (l_connector l)) envs (rc_cfg (l_connector l)) (l_uri l) p
         = Connected r w').
Proof.
  apply (@every_interleaving AsciiOnly (sample_ctx None) false (empty_pool PoolConfig_default false) (Some sample_source)
           sample_answered answered_run).
Defined.

Lemma never_terminates_tls_witness :
  let had := @had AsciiOnly (sample_ctx None) false (empty_pool PoolConfig_default false) (Some sample_source) in
  exists h c p pr tcp,
    Some (bs "1.1.1.1") = Some h /\ Plain (peer []) = Plain c /\
    dial no_clients tcp p pr (uri_target (fun _ => None) sample_uri h) = Ok (Plain (peer [])) /\
    (exists before script now leased,
       seen had before /\ Forall (await_seen (seen had)) script /\
       get (fun _ => None) script now SHttp (KeyIp UNSPECIFIED) before = Returned (Some p) leased) /\
    SHttp ∈ schemes p /\ is_Some (types p !! pr) /\ pr <> Https /\ pr <> Connect25 /\ (pr = Http -> SHttp = SHttp).
Proof.
  apply (@never_terminates_tls AsciiOnly (sample_ctx None) false (empty_pool PoolConfig_default false) (Some sample_source)
           sample_answered (sample_call (Answered (Ok (Plain (peer []))))) (Plain (peer [])));
    [exact answered_run|left|reflexivity].
Defined.
