(* ===== verification/SystemLiveness.v ===== *)
(** * Everybody is let go: [src/server.rs], [src/connector.rs]

    No client's task and no call of the connector sleeps through a wake-up, and
    once the source has ended all of them are let go in a bounded number of
    steps. *)

From stdpp Require Import base list gmap strings relations.
From Stdlib Require Import Ascii NArith ZArith Lia.
From S2P Require Import Prelude Bytes Text Float Net Utils Io Types ProxyModel Negotiator Resolver.
From S2P Require Import Pool PoolProofs Server ServerProofs Connector Getting System SystemProofs.

Section Proofs.
Context `{Unicode} (ctx : ConnCtx) (refreshed : bool).

#[local] Notation request_target := (System.request_target ctx).
#[local] Notation client_step := (System.client_step ctx).
#[local] Notation call_step := (System.call_step ctx).
#[local] Notation sys_step := (System.sys_step ctx refreshed).
#[local] Notation get_step := (Getting.get_step (ctx_first_key ctx)).

(** ** Everybody is let go *)

(** The steps an attempt can take: two for each liveness probe, and three more. *)
Definition per_attempt : nat := 2 * VERIFY_MAX_ATTEMPTS + 3.

(** How many steps a task has left at most, once the source is exhausted. *)
Definition work (tries : nat) (st : Stage) : nat :=
  match st with
  | Fresh => per_attempt * tries + 1
  | Awaiting j g => per_attempt * j_left j + 1 + wait_work g
  | Relaying j _ _ => per_attempt * j_left j + 1
  | Over => 0
  end.

(** And a call. *)
Definition call_work (tries : nat) (st : CallStage) : nat :=
  match st with
  | Called => per_attempt * tries + 1
  | Seeking k g => per_attempt * u_left k + 1 + wait_work g
  | Tunnelling k _ _ => per_attempt * u_left k + 1
  | Answered _ | Dropped => 0
  end.

Definition tries_of (l : Call) : nat := r_max_tries (rc_cfg (l_connector l)).

Definition all_work (tries : nat) (s : Sys) : nat :=
  sum_list_with (fun t => work tries (t_stage t)) (sy_tasks s) +
  sum_list_with (fun l => call_work (tries_of l) (l_stage l)) (sy_calls s).

(** ** What no step of a task or a call changes *)

Lemma serve_control_terms req h peer pl : same_terms pl (serve_control req h peer pl).2.
Proof.
  unfold serve_control. repeat split_match; try done; case_bool_decide; repeat split_match; done.
Qed.

Lemma after_relay_terms peer req p now o w : same_terms (pool w) (pool (after_relay peer req p now o w).2).
Proof. destruct o; apply put_inner_frame. Qed.

Lemma next_attempt_pool req key t n tries w : pool (next_attempt req key t n tries w).1 = pool w.
Proof. by destruct tries. Qed.

Lemma next_turn_pool n tries last w : (next_turn n tries last w).1 = w.
Proof. by destruct tries. Qed.

Lemma same_terms_trans pl1 pl2 pl3 : same_terms pl1 pl2 -> same_terms pl2 pl3 -> same_terms pl1 pl3.
Proof. intros [??] [??]. split; congruence. Qed.

Lemma leased_for_terms j p w : same_terms (pool w) (pool (leased_for j p w).1).
Proof. unfold leased_for, same_terms. cbn. by destruct (j_attempt j). Qed.

Lemma client_step_terms peer x y : client_step peer x y -> same_terms (pool x.1) (pool y.1).
Proof.
  destruct 1 as [| |w req c answer pl _ _ _ E| |w j g pl g' E|w j g pl o E|w j p codes dial now o c stop w' _ E];
    try (apply get_step_terms in E); try done; cbn [fst].
  - pose proof (serve_control_terms req (history w) peer (pool w)) as Hs. by rewrite E in Hs.
  - by rewrite next_attempt_pool.
  - destruct o as [p|]; [|done]. exact (same_terms_trans _ _ _ E (leased_for_terms j p (with_pool pl w))).
  - pose proof (after_relay_terms peer (j_req j) p now o (with_client c w)) as Ha. rewrite E in Ha.
    destruct stop; [done|]. by rewrite next_attempt_pool.
Qed.

Lemma call_step_terms rc u x y : call_step rc u x y -> same_terms x.1 y.1.
Proof.
  destruct 1 as [w E|w h E|w k g pl g' E|w k g pl E|w k g pl p E Ht|w k g pl p pr E Ht
                |w k p pr tcp h s E Ed|w k p pr tcp h e now E Ed];
    try (apply get_step_terms in E); cbn [fst snd]; rewrite ?next_turn_pool; try done; try apply put_inner_frame.
  apply (same_terms_trans _ _ _ E), put_inner_frame.
Qed.

(** ** Every step is one fewer *)

Lemma next_attempt_work req key t n tries left_ w :
  work tries (next_attempt req key t n left_ w).2 <= per_attempt * left_.
Proof. destruct left_ as [|m]; cbn [next_attempt snd work j_left wait_work]; unfold per_attempt, VERIFY_MAX_ATTEMPTS; lia. Qed.

Lemma next_turn_work tries n left_ last w : call_work tries (next_turn n left_ last w).2 <= per_attempt * left_.
Proof. destruct left_ as [|m]; cbn [next_turn snd call_work u_left wait_work]; unfold per_attempt, VERIFY_MAX_ATTEMPTS; lia. Qed.

Lemma client_step_work peer x y tries :
  client_step peer x y -> exhausted (pool x.1) = true -> max_tries (config (pool x.1)) = tries ->
  S (work tries y.2) <= work tries x.2.
Proof.
  destruct 1 as [| | |w req c|w j g pl g' E|w j g pl o E|w j p codes dial now o c stop w'];
    intros Hx Ht; try (apply get_step_work in E; [|done]); cbn [fst snd leased_for work left_to_do] in *; try lia.
  - rewrite Ht. pose proof (next_attempt_work req (client_key (config (pool w)) peer req) (request_target req) 0
      tries tries (with_client c w)). lia.
  - destruct o; cbn [turn_away leased_for snd work]; lia.
  - destruct stop; cbn [snd work]; [lia|].
    pose proof (next_attempt_work (j_req j) (j_key j) (j_target j) (S (j_attempt j)) tries (j_left j) w'). lia.
Qed.

Lemma call_step_work rc u x y :
  call_step rc u x y -> exhausted x.1 = true ->
  S (call_work (r_max_tries (rc_cfg rc)) y.2) <= call_work (r_max_tries (rc_cfg rc)) x.2.
Proof.
  destruct 1 as [w E|w h E|w k g pl g' E|w k g pl E|w k g pl p E Ht|w k g pl p pr E Ht
                |w k p pr tcp h s E Ed|w k p pr tcp h e now E Ed];
    intros Hx; try (apply get_step_work in E; [|done]); cbn [fst snd call_work left_to_do] in *; try lia;
    match goal with |- context [next_turn ?n ?m ?o ?q] =>
      pose proof (next_turn_work (r_max_tries (rc_cfg rc)) n m o q) end; lia.
Qed.

(** ** No wake-up is lost *)

Lemma import_quiet item pl : quiet_or_rung pl (import item pl).
Proof. destruct item as [p|]; cbn [import]; [case_match; [|by right]|]; left; cbn [notify push notify_waiters set_state set_exhausted]; lia. Qed.

Lemma add_quiet p pl : quiet_or_rung pl (add p pl).
Proof. unfold add. case_match; [by right|left]. cbn [notify push notify_waiters set_state]. lia. Qed.

Lemma remove_rests h pt pl : quiet_or_rung pl (remove h pt pl).2.
Proof. right. split_and!; [done..|]. intros e He. by apply remove_elem in He as [? _]. Qed.

Lemma serve_control_quiet req h peer pl : quiet_or_rung pl (serve_control req h peer pl).2.
Proof.
  unfold serve_control. repeat split_match; try apply quiet_refl; case_bool_decide; repeat split_match;
    try apply quiet_refl; apply remove_rests.
Qed.

Lemma client_step_quiet peer x y : client_step peer x y -> quiet_or_rung (pool x.1) (pool y.1).
Proof.
  destruct 1 as [| |w req c answer pl _ _ _ E| |w j g pl g' E|w j g pl o E|w j p codes dial now o c stop w' _ E];
    try (apply get_step_quiet in E); try apply quiet_refl; try done; cbn [fst].
  - pose proof (serve_control_quiet req (history w) peer (pool w)) as Hs. by rewrite E in Hs.
  - rewrite next_attempt_pool. apply quiet_refl.
  - destruct o as [p|]; [|done]. eapply quiet_trans; [exact E|]. right. cbn. by destruct (j_attempt j).
  - assert (quiet_or_rung (pool w) (pool w')) as Hw.
    { replace w' with (after_relay peer (j_req j) p now o (with_client c w)).2 by by rewrite E.
      destruct o; apply put_inner_quiet. }
    destruct stop; [done|]. by rewrite next_attempt_pool.
Qed.

Lemma call_step_quiet rc u x y : call_step rc u x y -> quiet_or_rung x.1 y.1.
Proof.
  destruct 1 as [w E|w h E|w k g pl g' E|w k g pl E|w k g pl p E Ht|w k g pl p pr E Ht
                |w k p pr tcp h s E Ed|w k p pr tcp h e now E Ed];
    try (apply get_step_quiet in E); cbn [fst snd] in *; rewrite ?next_turn_pool; try done;
    try apply quiet_refl; try apply put_inner_quiet.
  eapply quiet_trans; [exact E|apply put_inner_quiet].
Qed.

(** A task or a call with a ticket has been notified, or is right to go to sleep. *)
Definition task_ticket (pl : Pool) (st : Stage) : Prop :=
  match st with Awaiting j g => ticket_ok (scheme (j_req j)) pl g | _ => True end.

Definition call_ticket (pl : Pool) (u : Uri) (st : CallStage) : Prop :=
  match st with Seeking _ g => ticket_ok (uri_scheme u) pl g | _ => True end.

Definition tickets (s : Sys) : Prop :=
  Forall (fun t => task_ticket (sy_pool s) (t_stage t)) (sy_tasks s) /\
  Forall (fun l => call_ticket (sy_pool s) (l_uri l) (l_stage l)) (sy_calls s).

Lemma task_ticket_kept pl pl' st : quiet_or_rung pl pl' -> task_ticket pl st -> task_ticket pl' st.
Proof. destruct st; [done| |done..]. apply ticket_kept. Qed.

Lemma call_ticket_kept pl pl' u st : quiet_or_rung pl pl' -> call_ticket pl u st -> call_ticket pl' u st.
Proof. destruct st; [done| |done..]. apply ticket_kept. Qed.

Lemma client_step_ticket peer x y : client_step peer x y -> task_ticket (pool x.1) x.2 -> task_ticket (pool y.1) y.2.
Proof.
  destruct 1 as [| | |w req c|w j g pl g' E|w j g pl o E|w j p codes dial now o c stop w'];
    cbn [fst snd leased_for task_ticket]; try done.
  - by destruct (max_tries _).
  - by apply (get_step_ticket _ _ _ _ _ _ _ E).
  - by destruct o.
  - destruct stop; [done|]. by destruct (j_left j).
Qed.

Lemma next_turn_ticket n tries last w pl u : call_ticket pl u (next_turn n tries last w).2.
Proof. by destruct tries. Qed.

Lemma call_step_ticket rc u x y : call_step rc u x y -> call_ticket x.1 u x.2 -> call_ticket y.1 u y.2.
Proof.
  destruct 1; cbn [fst snd call_ticket]; try done; try (intros _; apply next_turn_ticket).
  by eapply get_step_ticket.
Qed.

Lemma tickets_kept pl s : quiet_or_rung (sy_pool s) pl -> tickets s -> tickets (with_sys_pool pl s).
Proof.
  intros Hq [Ht Hl]. split; (eapply Forall_impl; [eassumption|]); intros z; [by apply task_ticket_kept|by apply call_ticket_kept].
Qed.

Lemma sys_step_tickets s s' : sys_step s s' -> tickets s -> tickets s'.
Proof.
  destruct 1 as [s p src E|s E|s ip c|s rc u|s p Hr|s h pt Hr|s ts1 t ts2 x E Hc|s ls1 l ls2 x E Hc|s ls1 l ls2 E Hf].
  - apply (tickets_kept _ _ (import_quiet _ _)).
  - apply (tickets_kept _ _ (import_quiet _ _)).
  - intros [Ht Hl]. split; [by apply Forall_snoc_2|done].
  - intros [Ht Hl]. split; [done|by apply Forall_snoc_2].
  - apply tickets_kept, add_quiet.
  - apply tickets_kept, remove_rests.
  - intros Hts. destruct (tickets_kept _ _ (client_step_quiet _ _ _ Hc) Hts) as [Ht Hl].
    destruct Hts as [Ht0 _]. cbn [with_sys_pool sy_tasks sy_calls sy_pool] in *. rewrite E in Ht, Ht0. split; [|done].
    apply (Forall_replace _ _ t); [done|]. intros _. apply (client_step_ticket _ _ _ Hc). by apply Forall_mid in Ht0 as [? _].
  - intros Hts. destruct (tickets_kept _ _ (call_step_quiet _ _ _ _ Hc) Hts) as [Ht Hl].
    destruct Hts as [_ Hl0]. cbn [with_sys_pool sy_tasks sy_calls sy_pool] in *. rewrite E in Hl, Hl0. split; [done|].
    apply (Forall_replace _ _ l); [done|]. intros _. apply (call_step_ticket _ _ _ _ Hc). by apply Forall_mid in Hl0 as [? _].
  - intros [Ht Hl]. rewrite E in Hl. split; [done|]. by apply (Forall_replace _ _ l).
Qed.

Lemma reachable_tickets pl source s : rtc sys_step (sys_start pl source) s -> tickets s.
Proof.
  revert s. apply (reachable_ind ctx refreshed pl source); [by split|]. intros s s' _ _. apply sys_step_tickets.
Qed.

(** No wake-up is lost: at every moment of every run, a task or a call that is
    asleep has been notified since it went to look (and so will look again), or
    is right to sleep: the source has not ended, and no proxy in the pool serves
    what it was asked for.  In particular nobody waits while a proxy that could
    serve is in the pool. *)
Theorem no_lost_wakeup pl source s n since sch :
  rtc sys_step (sys_start pl source) s ->
  (exists t j, t ∈ sy_tasks s /\ t_stage t = Awaiting j (Asleep n since) /\ scheme (j_req j) = sch) \/
  (exists l k, l ∈ sy_calls s /\ l_stage l = Seeking k (Asleep n since) /\ uri_scheme (l_uri l) = sch) ->
  (since < notify (sy_pool s))%N \/
  (exhausted (sy_pool s) = false /\ forall e, e ∈ state (sy_pool s) -> serves sch e = false).
Proof.
  intros Hr Hx. destruct (reachable_tickets _ _ _ Hr) as [Ht Hl]. rewrite Forall_forall in Ht; rewrite Forall_forall in Hl.
  destruct Hx as [(t & j & Hin & Hst & <-)|(l & k & Hin & Hst & <-)].
  - specialize (Ht t Hin). rewrite Hst in Ht. by destruct Ht.
  - specialize (Hl l Hin). rewrite Hst in Hl. by destruct Hl.
Qed.

(** ** A task or a call that has not ended can go on *)

Lemma client_can_step peer w st :
  exhausted (pool w) = true -> task_ticket (pool w) st -> st <> Over -> exists y, client_step peer (w, st) y.
Proof.
  intros Hex Htk. destruct st as [|j g|j p codes|]; intros Hst; [| | |done].
  - destruct (parse_client_request (expected_auth ctx) (client w)) as [[req|[]] c] eqn:E; [|eexists; by apply C_bad].
    destruct (admitted ctx req) eqn:Ha; [|eexists; by eapply C_refused].
    destruct (decide (req_host req = bs "proxycontrol")) as [Hh|Hh]; [|eexists; by eapply C_begin].
    destruct (serve_control req (history w) peer (pool w)) as [answer pl] eqn:Ec. eexists. by eapply C_control.
  - destruct (get_can_step (ctx_first_key ctx) _ (j_key j) (pool w) g Hex Htk) as [[pl [g'|o]] Hg];
      eexists; [by eapply C_wait|by eapply C_got].
  - destruct (relay (ctx_clients ctx) (ctx_pump ctx) None (client w) p (choose_proto p (scheme (j_req j)))
      (j_target j) (j_req j) codes) as [o c] eqn:E.
    destruct (after_relay peer (j_req j) p 0%N o (with_client c w)) as [stop w'] eqn:Ea. eexists. by eapply C_relayed.
Qed.

Lemma call_can_step rc u w st :
  exhausted w = true -> call_ticket w u st -> call_ok u st -> ~ finished st -> exists y, call_step rc u (w, st) y.
Proof.
  intros Hex Htk Ho Hst. destruct st as [|k g|k p pr|r|]; [| | |by destruct Hst..].
  - destruct (uri_host u) as [h|] eqn:E; eexists; [by eapply L_begin|by eapply L_no_host].
  - destruct (get_can_step (ctx_first_key ctx) _ (KeyIp UNSPECIFIED) w g Hex Htk) as [[pl [g'|[p|]]] Hg];
      [eexists; by eapply L_wait| |eexists; by eapply L_none].
    destruct (tunnel_proto p (uri_scheme u)) as [pr|] eqn:Ht; eexists; [by eapply L_leased|by eapply L_unsuited].
  - destruct Ho as [[h Hh] _].
    destruct (Connector.dial (ctx_clients ctx) None p pr (uri_target (rc_resolver rc) u h)) as [s|e] eqn:Ed; eexists;
      [exact (L_tunnel ctx rc u w k p pr None h s Hh Ed)|exact (L_failed ctx rc u w k p pr None h e 0%N Hh Ed)].
Qed.

(** ** The bound *)

(** The settled server: its source has ended. *)
Definition source_over (cfg : PoolConfig) (s : Sys) : Prop :=
  config (sy_pool s) = cfg /\ (sy_source s = None -> exhausted (sy_pool s) = true).

Lemma sys_step_over cfg s s' : sys_step s s' -> source_over cfg s -> source_over cfg s'.
Proof.
  unfold source_over.
  destruct 1 as [s p src E|s E|s ip c|s rc u|s p Hr|s h pt Hr|s ts1 t ts2 x E Hc|s ls1 l ls2 x E Hc|s ls1 l ls2 E Hf];
    cbn [with_sys_pool with_source with_tasks with_calls sy_pool sy_source]; try done.
  - intros [Hc _]. split; [|done]. unfold import. by case_match.
  - intros [Hc _]. done.
  - unfold add. by case_match.
  - apply client_step_terms in Hc as [Hc Hx]. cbn [fst pool world_of] in Hc, Hx. by rewrite Hc, Hx.
  - apply call_step_terms in Hc as [Hc Hx]. cbn [fst] in Hc, Hx. by rewrite Hc, Hx.
Qed.

Lemma sum_mid {A} (f : A -> nat) xs1 x xs2 :
  sum_list_with f (xs1 ++ x :: xs2) = sum_list_with f xs1 + f x + sum_list_with f xs2.
Proof. rewrite sum_list_with_app. cbn. lia. Qed.

(** A task's, a call's and a dropped call's step in the settled server. *)
Lemma task_work_less cfg s ts1 t ts2 x :
  source_over cfg s -> sy_source s = None -> sy_tasks s = ts1 ++ t :: ts2 ->
  client_step (t_peer t) (world_of s (t_conn t), t_stage t) x ->
  S (all_work (max_tries cfg)
       {| sy_pool := pool x.1; sy_history := history x.1; sy_source := sy_source s;
          sy_tasks := ts1 ++ moved t x :: ts2; sy_calls := sy_calls s |}) <= all_work (max_tries cfg) s.
Proof.
  intros [Hc Hx] Hn E Hst. specialize (Hx Hn).
  pose proof (client_step_work _ _ _ (max_tries cfg) Hst Hx (f_equal max_tries Hc)) as Hw. cbn [snd] in Hw.
  unfold all_work. cbn [sy_tasks sy_calls]. rewrite E, !sum_mid. cbn [moved t_stage]. lia.
Qed.

Lemma call_work_less cfg s ls1 l ls2 x :
  source_over cfg s -> sy_source s = None -> sy_calls s = ls1 ++ l :: ls2 ->
  call_step (l_connector l) (l_uri l) (sy_pool s, l_stage l) x ->
  S (all_work (max_tries cfg) (with_calls (ls1 ++ advanced l x.2 :: ls2) (with_sys_pool x.1 s)))
    <= all_work (max_tries cfg) s.
Proof.
  intros [_ Hx] Hn E Hst. specialize (Hx Hn). pose proof (call_step_work _ _ _ _ Hst Hx) as Hw. cbn [snd] in Hw.
  unfold all_work. cbn [with_calls with_sys_pool sy_tasks sy_calls]. rewrite E, !sum_mid.
  unfold tries_of in *. cbn [advanced l_stage l_connector]. lia.
Qed.

Lemma drop_work_less tries s ls1 l ls2 :
  sy_calls s = ls1 ++ l :: ls2 -> ~ finished (l_stage l) ->
  S (all_work tries (with_calls (ls1 ++ advanced l Dropped :: ls2) s)) <= all_work tries s.
Proof.
  intros E Hf. unfold all_work. cbn [with_calls sy_tasks sy_calls]. rewrite E, !sum_mid.
  cbn [advanced l_stage call_work]. destruct (l_stage l); cbn [call_work finished] in *; try lia; by destruct Hf.
Qed.

(** What a client and a call may cost, the steps that bring them included. *)
Definition client_cost (tries : nat) : nat := per_attempt * tries + 2.
Definition call_cost (l : Call) : nat := per_attempt * tries_of l + 2.
Definition cost (tries : nat) (s : Sys) : nat :=
  client_cost tries * length (sy_tasks s) + sum_list_with call_cost (sy_calls s).

(** One step of the settled server: somebody gets closer to the end, or a client
    or a call comes. *)
Lemma sys_step_work cfg s s' :
  refreshed = false -> source_over cfg s -> sy_source s = None -> sys_step s s' ->
  sy_source s' = None /\ S (all_work (max_tries cfg) s') + cost (max_tries cfg) s
    <= all_work (max_tries cfg) s + cost (max_tries cfg) s'.
Proof.
  intros Hrf Ho Hn Hst. unfold cost.
  destruct Hst as [s p src E|s E|s ip c|s rc u|s p Hr|s h pt Hr|s ts1 t ts2 x E Hc|s ls1 l ls2 x E Hc|s ls1 l ls2 E Hf];
    try congruence; (split; [done|]).
  - unfold all_work. cbn. rewrite length_app, sum_list_with_app. cbn. unfold client_cost. lia.
  - unfold all_work. cbn. rewrite !sum_list_with_app. cbn. unfold call_cost, tries_of. cbn. lia.
  - pose proof (task_work_less _ _ _ _ _ _ Ho Hn E Hc). cbn [sy_tasks sy_calls]. rewrite E, !length_app. cbn [length]. lia.
  - pose proof (call_work_less _ _ _ _ _ _ Ho Hn E Hc). cbn [with_calls with_sys_pool sy_tasks sy_calls].
    rewrite E, !sum_mid. change (call_cost (advanced l x.2)) with (call_cost l). lia.
  - pose proof (drop_work_less (max_tries cfg) _ _ _ _ E Hf). cbn [with_calls sy_tasks sy_calls].
    rewrite E, !sum_mid. change (call_cost (advanced l Dropped)) with (call_cost l). lia.
Qed.

Lemma settled_bound cfg k s s' :
  refreshed = false -> source_over cfg s -> sy_source s = None -> nsteps sys_step k s s' ->
  k + all_work (max_tries cfg) s' + cost (max_tries cfg) s <= all_work (max_tries cfg) s + cost (max_tries cfg) s'.
Proof.
  intros Hrf Ho Hn Hs. induction Hs as [s|k s s1 s' Hst Hs IH]; [lia|].
  destruct (sys_step_work cfg s s1 Hrf Ho Hn Hst) as (Hn' & Hw).
  specialize (IH (sys_step_over _ _ _ Hst Ho) Hn'). lia.
Qed.

(** Nobody has more attempts left than there are. *)
Definition booked (tries : nat) (st : Stage) : Prop :=
  match st with
  | Awaiting j _ | Relaying j _ _ => j_left j < tries
  | _ => True
  end.

Definition call_booked (tries : nat) (st : CallStage) : Prop :=
  match st with
  | Seeking k _ | Tunnelling k _ _ => u_left k < tries
  | _ => True
  end.

Lemma wait_work_bound g : wait_work g <= per_attempt.
Proof. destruct g; unfold wait_work, per_attempt, VERIFY_MAX_ATTEMPTS; lia. Qed.

Lemma booked_work tries st : booked tries st -> work tries st <= work tries Fresh.
Proof.
  destruct st as [|j g|j p codes|]; cbn [booked work]; [lia| |nia|lia].
  pose proof (wait_work_bound g). nia.
Qed.

Lemma call_booked_work tries st : call_booked tries st -> call_work tries st <= call_work tries Called.
Proof.
  destruct st as [|k g|k p pr| |]; cbn [call_booked call_work]; [lia| |nia|lia..].
  pose proof (wait_work_bound g). nia.
Qed.

Lemma next_attempt_booked req key t n tries left_ w :
  left_ <= tries -> booked tries (next_attempt req key t n left_ w).2.
Proof. by destruct left_. Qed.

Lemma next_turn_booked tries n left_ last w : left_ <= tries -> call_booked tries (next_turn n left_ last w).2.
Proof. by destruct left_. Qed.

Lemma client_step_booked peer x y tries :
  client_step peer x y -> max_tries (config (pool x.1)) = tries -> booked tries x.2 -> booked tries y.2.
Proof.
  destruct 1 as [| | | |w j g pl g' E|w j g pl o E|w j p codes dial now o c stop w'];
    intros Ht; cbn [fst snd leased_for booked] in *; try done.
  - intros _. apply next_attempt_booked. lia.
  - by destruct o.
  - intros Hl. destruct stop; [done|]. apply next_attempt_booked. lia.
Qed.

Lemma call_step_booked rc u x y :
  call_step rc u x y -> call_booked (r_max_tries (rc_cfg rc)) x.2 -> call_booked (r_max_tries (rc_cfg rc)) y.2.
Proof.
  destruct 1; cbn [snd call_booked]; intros Hb; try done; apply next_turn_booked; lia.
Qed.

Definition all_booked (tries : nat) (s : Sys) : Prop :=
  Forall (fun t => booked tries (t_stage t)) (sy_tasks s) /\
  Forall (fun l => call_booked (tries_of l) (l_stage l)) (sy_calls s).

Lemma sum_bound {A} (f g : A -> nat) l : Forall (fun x => f x < g x) l -> sum_list_with f l <= sum_list_with g l.
Proof. induction 1 as [|x l Hx _ IH]; cbn; lia. Qed.

Lemma sum_const {A} (c : nat) (l : list A) : sum_list_with (fun _ => c) l = c * length l.
Proof. induction l; cbn; lia. Qed.

Lemma all_work_bound tries s : all_booked tries s -> all_work tries s <= cost tries s.
Proof.
  intros [Ht Hl]. unfold all_work, cost. apply Nat.add_le_mono.
  - rewrite <-(sum_const (client_cost tries) (sy_tasks s)). apply sum_bound. eapply Forall_impl; [exact Ht|].
    intros t Hb%booked_work. cbn [work] in *. unfold client_cost. lia.
  - apply sum_bound. eapply Forall_impl; [exact Hl|]. intros l Hb%call_booked_work. cbn [call_work] in Hb.
    unfold call_cost. lia.
Qed.

Lemma sys_step_booked cfg s s' :
  sys_step s s' -> source_over cfg s -> all_booked (max_tries cfg) s -> all_booked (max_tries cfg) s'.
Proof.
  intros Hst [Hcfg _] [Ht Hl].
  destruct Hst as [s p src E|s E|s ip c|s rc u|s p Hr|s h pt Hr|s ts1 t ts2 x E Hc|s ls1 l ls2 x E Hc|s ls1 l ls2 E Hf];
    try (by split); unfold all_booked; cbn [with_calls with_sys_pool with_tasks sy_tasks sy_calls].
  - split; [by apply Forall_snoc_2|done].
  - split; [done|by apply Forall_snoc_2].
  - rewrite E in Ht. split; [|done]. apply (Forall_replace _ _ t); [done|].
    exact (client_step_booked _ _ _ _ Hc (f_equal max_tries Hcfg)).
  - rewrite E in Hl. split; [done|]. apply (Forall_replace _ _ l); [done|]. exact (call_step_booked _ _ _ _ Hc).
  - rewrite E in Hl. split; [done|]. by apply (Forall_replace _ _ l).
Qed.

Lemma reachable_settled pl source s :
  (source = None -> exhausted pl = true) -> rtc sys_step (sys_start pl source) s ->
  source_over (config pl) s /\ all_booked (max_tries (config pl)) s /\ tickets s /\ all_ok s.
Proof.
  intros H0. revert s. apply (reachable_ind ctx refreshed pl source (fun s => _ /\ _ /\ _ /\ _)); [by repeat split|].
  intros s s' _ _ Hst (Ho & Hb & Ht & Hk).
  split_and!; [by eapply sys_step_over|by eapply sys_step_booked|by eapply sys_step_tickets|by eapply sys_step_all_ok].
Qed.

(** Everybody's end. *)
Definition all_over (s : Sys) : Prop :=
  Forall (fun t => t_stage t = Over) (sy_tasks s) /\ Forall (fun l => finished (l_stage l)) (sy_calls s).

#[local] Instance over_dec st : Decision (st = Over).
Proof. destruct st; [right..|left]; done. Defined.

#[local] Instance finished_dec st : Decision (finished st).
Proof. destruct st; cbn; apply _. Defined.

Lemma unfinished {A} (P : A -> Prop) `{!forall x, Decision (P x)} (l : list A) :
  Forall P l \/ exists l1 x l2, l = l1 ++ x :: l2 /\ ~ P x.
Proof.
  destruct (decide (Forall P l)) as [Hf|Hf]; [by left|right].
  apply not_Forall_Exists in Hf; [|apply _]. apply Exists_exists in Hf as (x & Hx & Hp).
  apply list_elem_of_split in Hx as (l1 & l2 & ->). by exists l1, x, l2.
Qed.

(** One more step, while somebody has not ended. *)
Lemma one_more cfg s :
  source_over cfg s -> sy_source s = None -> tickets s -> all_ok s ->
  all_over s \/
  exists s', sys_step s s' /\ sy_source s' = None /\ length (sy_tasks s') = length (sy_tasks s) /\
    length (sy_calls s') = length (sy_calls s) /\ S (all_work (max_tries cfg) s') <= all_work (max_tries cfg) s.
Proof.
  intros Ho Hn [Htt Htl] [_ Hok]. pose proof (proj2 Ho Hn) as Hex.
  destruct (unfinished (fun t => t_stage t = Over) (sy_tasks s)) as [Hf|(ts1 & t & ts2 & E & Ht)].
  2:{ rewrite E in Htt. apply Forall_mid in Htt as [Htt _].
      destruct (client_can_step (t_peer t) (world_of s (t_conn t)) (t_stage t) Hex Htt Ht) as [x Hc].
      right. eexists. split; [by eapply Y_client|]. split_and!; [done| |done|by apply task_work_less].
      cbn [sy_tasks]. by rewrite E, !length_app. }
  destruct (unfinished (fun l => finished (l_stage l)) (sy_calls s)) as [Hg|(ls1 & l & ls2 & E & Hl)].
  { by left. }
  rewrite E in Htl, Hok. apply Forall_mid in Htl as [Htl _], Hok as [Hok _].
  destruct (call_can_step (l_connector l) (l_uri l) (sy_pool s) (l_stage l) Hex Htl Hok Hl) as [x Hc].
  right. eexists. split; [by eapply Y_dial|]. split_and!; [done|done| |by apply call_work_less].
  cbn [with_calls sy_calls]. by rewrite E, !length_app.
Qed.

(** Letting everybody run to the end. *)
Lemma run_out cfg k s :
  all_work (max_tries cfg) s <= k -> source_over cfg s -> sy_source s = None -> tickets s -> all_ok s ->
  exists s', rtc sys_step s s' /\ length (sy_tasks s') = length (sy_tasks s) /\
             length (sy_calls s') = length (sy_calls s) /\ all_over s'.
Proof.
  revert s. induction k as [|k IH]; intros s Hk Ho Hn Ht Hok;
    (destruct (one_more cfg s Ho Hn Ht Hok) as [Hf|(s1 & Hst & Hn1 & Hl & Hc & Hw)]; [by exists s|]); [lia|].
  edestruct (IH s1) as (s' & Hr & Hl' & Hc' & Hf);
    [lia|by eapply sys_step_over|done|by eapply sys_step_tickets|by eapply sys_step_all_ok|].
  exists s'. split_and!; [by eapply rtc_l|congruence..|done].
Qed.

(** C10.  Everybody is let go, however many there are: once the source has ended,
    the tasks, the calls and the coming of more of them together (nothing
    refreshing the pool) take no more steps than a fixed number for each client
    and each call (about nineteen for each of its attempts), whatever the
    proxies do, in whatever order they run and whichever calls are dropped; a
    task that has not returned and a call that is not answered can always take
    the next step, so none waits for ever for a proxy or for another task; and
    all of them reach their end. *)
Theorem all_let_go pl source s :
  (source = None -> exhausted pl = true) ->
  rtc sys_step (sys_start pl source) s -> sy_source s = None ->
  (forall k s', refreshed = false -> nsteps sys_step k s s' ->
     k <= (per_attempt * max_tries (config pl) + 2) * length (sy_tasks s')
          + sum_list_with (fun l => per_attempt * r_max_tries (rc_cfg (l_connector l)) + 2) (sy_calls s')) /\
  (forall t, t ∈ sy_tasks s -> t_stage t <> Over ->
     exists y, client_step (t_peer t) (world_of s (t_conn t), t_stage t) y) /\
  (forall l, l ∈ sy_calls s -> ~ finished (l_stage l) ->
     exists y, call_step (l_connector l) (l_uri l) (sy_pool s, l_stage l) y) /\
  exists s', rtc sys_step s s' /\ length (sy_tasks s') = length (sy_tasks s) /\
             length (sy_calls s') = length (sy_calls s) /\ all_over s'.
Proof.
  intros H0 Hr Hn. destruct (reachable_settled _ _ _ H0 Hr) as (Ho & Hb & Htk & Hok).
  split; [|split; [|split]].
  - intros k s' Hrf Hs. pose proof (settled_bound _ _ _ _ Hrf Ho Hn Hs) as Hw.
    apply all_work_bound in Hb. change (k <= cost (max_tries (config pl)) s'). lia.
  - intros t Hin Ht. destruct Htk as [Htk _]. rewrite Forall_forall in Htk.
    apply client_can_step; [exact (proj2 Ho Hn)|by apply Htk|done].
  - intros l Hin Hl. destruct Htk as [_ Htk], Hok as [_ Hok]. rewrite Forall_forall in Htk. rewrite Forall_forall in Hok.
    apply call_can_step; [exact (proj2 Ho Hn)|by apply Htk|by apply Hok|done].
  - exact (run_out (config pl) _ s (le_n _) Ho Hn Htk Hok).
Qed.
End Proofs.

(** ** The run, its sleeper and its end *)

(** The client asleep has not been notified: the pool is still empty. *)
Lemma no_lost_wakeup_witness :
  (0 < notify (sy_pool sample_asleep))%N \/
  (exhausted (sy_pool sample_asleep) = false /\
   forall e, e ∈ state (sy_pool sample_asleep) -> serves SHttp e = false).
Proof.
  apply (@no_lost_wakeup AsciiOnly (sample_ctx None) false (empty_pool PoolConfig_default false) (Some sample_source) sample_asleep
           0 0%N SHttp asleep_run).
  left. eexists (sample_task _ _), sample_job. split_and!; [left|reflexivity..].
Defined.

(** The source ends; a second client and a second call come. *)
Definition sample_second : Sys :=
  {| sy_pool := notify_waiters (set_exhausted (sy_pool sample_tunnelling)); sy_history := sy_history sample_tunnelling;
     sy_source := None; sy_tasks := sy_tasks sample_tunnelling ++ [sample_task (peer sample_get) Fresh];
     sy_calls := sy_calls sample_tunnelling ++ [sample_call Called] |}.

Lemma second_run : rtc sample_step sample_start sample_second.
Proof.
  etrans; [exact tunnelling_run|].
  eapply rtc_l. { apply Y_exhausted. reflexivity. }
  eapply rtc_l. { exact (Y_accept (sample_ctx None) false _ UNSPECIFIED (peer sample_get)). }
  apply rtc_once. exact (Y_call (sample_ctx None) false _ sample_connector sample_uri).
Qed.

Lemma all_let_go_witness :
  (forall k s', false = false -> nsteps sample_step k sample_second s' ->
     k <= 59 * length (sy_tasks s')
          + sum_list_with (fun l => per_attempt * r_max_tries (rc_cfg (l_connector l)) + 2) (sy_calls s')) /\
  (forall t, t ∈ sy_tasks sample_second -> t_stage t <> Over ->
     exists y, client_step (sample_ctx None) (t_peer t) (world_of sample_second (t_conn t), t_stage t) y) /\
  (forall l, l ∈ sy_calls sample_second -> ~ finished (l_stage l) ->
     exists y, call_step (sample_ctx None) (l_connector l) (l_uri l) (sy_pool sample_second, l_stage l) y) /\
  exists s', rtc sample_step sample_second s' /\ length (sy_tasks s') = 2 /\ length (sy_calls s') = 2 /\ all_over s'.
Proof.
  apply (@all_let_go AsciiOnly (sample_ctx None) false (empty_pool PoolConfig_default false) (Some sample_source) sample_second);
    [discriminate|exact second_run|reflexivity].
Defined.
