(* ===== verification/Persist.v ===== *)
(** * Durable proxy state: [src/persist.rs]

    The [Store] contract as a type class with its abstract meaning (what a
    history of finished checks amounts to), and two implementations: the
    in-memory store, and the SQLite store as a table, the meaning of its upsert
    statement, its query, its migration and the contention retry.  The JSON
    text codec and what SQLite answers (contention, failures, the clock) are
    parameters. *)

From stdpp Require Import base list gmap strings.
From Stdlib Require Import Ascii NArith ZArith Lia.
From S2P Require Import Prelude Bytes Text Float Net NetProofs Types ProxyModel ProxyJson Pool.

(** [alpha·sample + (1-alpha)·prev]. *)
Definition fold_ewma (prev sample alpha : f64) : f64 :=
  f_add (f_mul alpha sample) (f_mul (f_sub f_one alpha) prev).

(** [0.3 * sample + 0.7 * prev], as the backends write it. *)
Definition smooth (prev sample : f64) : f64 := f_add (f_mul f_0_3 sample) (f_mul f_0_7 prev).

(** 1.0 for a working proxy, 0.0 otherwise. *)
Definition sample_of (p : Proxy) : f64 := if is_working p then f_one else f_zero.

(** ** The contract *)

Class Store (S : Type) := {
  store_new : S;
  upsert : Proxy -> S -> result Error unit * S;
  load : S -> result Error (list Proxy);
}.

(** The history of one address among the finished checks. *)
Definition history_of (k : IpAddr * N) (ps : list Proxy) : list Proxy :=
  filter (fun p => key_of p = k) ps.

Definition total_N (f : Proxy -> N) (l : list Proxy) : N := foldr (fun p n => f p + n)%N 0%N l.
Definition seen_requests : list Proxy -> N := total_N requests.
Definition seen_errors : list Proxy -> N := total_N (fun p => errors_sum (errors p)).
Definition seen_uptime (l : list Proxy) : nat := length (List.filter is_working l).
Definition seen_types (l : list Proxy) : gmap Proto (option AnonLevel) :=
  default ∅ (last (filter (fun ts => ts <> ∅) (types <$> l))).
Definition seen_ewma (l : list Proxy) : f64 :=
  match l with [] => f_zero | p :: l' => foldl (fun e q => smooth e (sample_of q)) (sample_of p) l' end.
Definition fold_latency (a : f64) (q : Proxy) : f64 :=
  if f_lt f_zero (avg_resp_time q) then smooth a (avg_resp_time q) else a.
Definition seen_latency (l : list Proxy) : f64 :=
  match l with [] => f_zero | p :: l' => foldl fold_latency (avg_resp_time p) l' end.

(** What a store remembers of an address: the latest confirmed types, the
    totals, and the two moving averages over its checks, oldest first. *)
Definition remembered (k : IpAddr * N) (l : list Proxy) : Proxy :=
  with_ewma (Some (seen_ewma l))
    (restored k.1 k.2 (seen_types l) (seen_requests l) (seen_errors l) (seen_latency l)).

Fixpoint upsert_all {S} `{Store S} (ps : list Proxy) (s : S) : result Error unit * S :=
  match ps with
  | [] => (Ok tt, s)
  | p :: ps' => match upsert p s with (Ok _, s') => upsert_all ps' s' | (Err e, s') => (Err e, s') end
  end.

(** Checks a store can hold: well-formed addresses, timings that
    are numbers, and totals within the counters' width. *)
Record storable (ps : list Proxy) : Prop := {
  st_address : forall p, p ∈ ps -> key_wf (key_of p);
  st_timing : forall p, p ∈ ps -> f_nonneg (avg_resp_time p) = true;
  st_counts : forall k, (seen_requests (history_of k ps) <= u32_max)%N /\
                        (seen_errors (history_of k ps) <= u32_max)%N;
  st_uptime : (N.of_nat (length ps) <= u64_max)%N;
}.

(** The promise: whatever was folded in, a load gives one proxy per address seen,
    as the abstract meaning has it. *)
Definition remembers_exactly (ps : list Proxy) (l : list Proxy) : Prop :=
  NoDup (key_of <$> l) /\
  forall q, q ∈ l <-> exists k, history_of k ps <> [] /\ q = remembered k (history_of k ps).

Class StoreLaws (S : Type) `{Store S} := {
  store_remembers ps : storable ps ->
    exists s l, upsert_all ps store_new = (Ok tt, s) /\ load s = Ok l /\ remembers_exactly ps l;
}.

(** ** The in-memory store *)

Record Rec := {
  r_types : gmap Proto (option AnonLevel);
  r_requests : N;
  r_errors : N;
  r_ewma : f64;
  r_latency : f64;
  r_uptime : N;
}.

Abbreviation MemoryStore := (gmap (IpAddr * N) Rec).

Definition uptime_of (p : Proxy) : N := if is_working p then 1 else 0.

Definition insert_record (p : Proxy) : Rec :=
  {| r_types := types p; r_requests := requests p; r_errors := errors_sum (errors p);
     r_ewma := sample_of p; r_latency := avg_resp_time p; r_uptime := uptime_of p |}.

Definition modify_record (p : Proxy) (rec : Rec) : Rec :=
  {| r_types := if bool_decide (types p = ∅) then r_types rec else types p;
     r_requests := sat_add u32_max (r_requests rec) (requests p);
     r_errors := sat_add u32_max (r_errors rec) (errors_sum (errors p));
     r_ewma := smooth (r_ewma rec) (sample_of p);
     r_latency := if f_lt f_zero (avg_resp_time p) then smooth (r_latency rec) (avg_resp_time p)
                  else r_latency rec;
     r_uptime := sat_add u64_max (r_uptime rec) (uptime_of p) |}.

Definition memory_upsert (p : Proxy) (m : MemoryStore) : MemoryStore :=
  <[key_of p := match m !! key_of p with
                | Some rec => modify_record p rec
                | None => insert_record p
                end]> m.

Definition restore_record (k : IpAddr * N) (rec : Rec) : Proxy :=
  with_ewma (Some (r_ewma rec))
    (restored k.1 k.2 (r_types rec) (r_requests rec) (r_errors rec) (r_latency rec)).

(** The map's iteration order is not specified. *)
Definition memory_load (m : MemoryStore) : list Proxy :=
  (fun kr => restore_record kr.1 kr.2) <$> map_to_list m.

#[export] Instance memory_store : Store MemoryStore := {
  store_new := ∅;
  upsert p m := (Ok tt, memory_upsert p m);
  load m := Ok (memory_load m);
}.

(** ** Retrying a contended statement *)

Inductive ErrorCode : Type := DatabaseBusy | DatabaseLocked | OtherCode.

(** A [rusqlite::Error] and its text. *)
Inductive SqlError : Type := SqliteFailure (code : ErrorCode) (text : bytes) | OtherSql (text : bytes).

Definition sql_text (e : SqlError) : bytes := match e with SqliteFailure _ t | OtherSql t => t end.

Definition db {A} (r : result SqlError A) : result Error A :=
  match r with Ok a => Ok a | Err e => Err (Persist (sql_text e)) end.

Definition is_retryable_sqlite_contention (e : SqlError) : bool :=
  match e with
  | SqliteFailure DatabaseBusy _ | SqliteFailure DatabaseLocked _ => true
  | _ => false
  end.

Definition SQLITE_RETRY_DELAYS : list duration := from_millis <$> [10; 25; 50; 100]%N.

(** The operation acts on a state; the delays slept are logged. *)
Fixpoint retry_loop {S T} (op : S -> result SqlError T * S) (delays : list duration) (s : S)
    : result SqlError T * list duration * S :=
  match op s with
  | (Ok v, s') => (Ok v, [], s')
  | (Err e, s') =>
      if is_retryable_sqlite_contention e then
        match delays with
        | [] => (Err e, [], s')
        | d :: ds => let '(r, slept, s'') := retry_loop op ds s' in (r, d :: slept, s'')
        end
      else (Err e, [], s')
  end.

Definition retry_sqlite_contention {S T} (op : S -> result SqlError T * S) (s : S) :=
  retry_loop op SQLITE_RETRY_DELAYS s.

(** ** The SQLite store *)

Record SqlRow := {
  c_types : bytes;
  c_requests : Z;
  c_errors : Z;
  c_ewma : f64;
  c_latency : f64;
  c_first_seen : Z;
  c_last_seen : Z;
  c_uptime : Z;
}.

(** The table by its primary key [(host, port)]. *)
Abbreviation Table := (gmap (bytes * Z) SqlRow).

Section Sqlite.
(** [serde_json]. *)
Context (to_string : Json -> bytes) (from_str : bytes -> option Json).
(** The text of the failure of a [NOT NULL] constraint. *)
Context (not_null_text : bytes).

Definition types_to_json (p : Proxy) : bytes := to_string (JArr (type_json <$> types_entries p)).

(** [v["name"]]: the last field of that name, [Null] where there is none. *)
Definition index (name : bytes) (v : Json) : Json :=
  match v with
  | JObj fields => from_option snd JNull (last (filter (fun kv => kv.1 = name) fields))
  | _ => JNull
  end.
Definition as_str (v : Json) : option bytes := match v with JStr s => Some s | _ => None end.

Definition type_of_json (v : Json) : option (Proto * option AnonLevel) :=
  t ← as_str (index (bs "type") v);
  proto ← ok (proto_from_str t);
  Some (proto, s ← as_str (index (bs "level") v);
               if bool_decide (s = []) then None else ok (anon_from_str s)).

Definition types_from_json (s : bytes) : gmap Proto (option AnonLevel) :=
  match from_str s with
  | Some (JArr arr) => foldl (fun m t => <[t.1 := t.2]> m) ∅ (omap type_of_json arr)
  | _ => ∅
  end.

(** The row of the statement's [VALUES]. *)
Definition values_row (now : Z) (p : Proxy) : SqlRow :=
  {| c_types := types_to_json p; c_requests := Z.of_N (requests p);
     c_errors := Z.of_N (errors_sum (errors p)); c_ewma := sample_of p;
     c_latency := avg_resp_time p; c_first_seen := now; c_last_seen := now;
     c_uptime := Z.of_N (uptime_of p) |}.

(** [ON CONFLICT(host, port) DO UPDATE SET].  Integer sums are exact: every
    term is a [u32] count, far from the 64 bits of SQLite's integers. *)
Definition update_row (excluded row : SqlRow) : SqlRow :=
  {| c_types := if bool_decide (c_types excluded = bs "[]") then c_types row else c_types excluded;
     c_requests := (c_requests row + c_requests excluded)%Z;
     c_errors := (c_errors row + c_errors excluded)%Z;
     c_ewma := smooth (c_ewma row) (c_ewma excluded);
     c_latency := if f_lt f_zero (c_latency excluded) then smooth (c_latency row) (c_latency excluded)
                  else c_latency row;
     c_first_seen := c_first_seen row;
     c_last_seen := c_last_seen excluded;
     c_uptime := (c_uptime row + c_uptime excluded)%Z |}.

(** A NaN is bound as NULL, which the [NOT NULL] columns refuse. *)
Definition no_null (row : SqlRow) : bool := negb (f_is_nan (c_ewma row)) && negb (f_is_nan (c_latency row)).

Definition execute (now : Z) (p : Proxy) (t : Table) : result SqlError Table :=
  let key := (show_ip (host p), Z.of_N (port p)) in
  let excluded := values_row now p in
  let row := match t !! key with Some row => update_row excluded row | None => excluded end in
  if no_null excluded && no_null row then Ok (<[key := row]> t)
  else Err (SqliteFailure OtherCode not_null_text).

(** The database as the connection sees it: the table, the clock, and what its
    next executions meet before the statement runs ([None]: nothing; the same
    once the script has run out). *)
Record SqliteStore := { table : Table; clock : Z; script : list (option SqlError) }.

Definition run_upsert (p : Proxy) (s : SqliteStore) : result SqlError unit * SqliteStore :=
  match script s with
  | Some e :: sc => (Err e, {| table := table s; clock := clock s; script := sc |})
  | sc =>
      match execute (clock s) p (table s) with
      | Ok t => (Ok tt, {| table := t; clock := clock s; script := tail sc |})
      | Err e => (Err e, {| table := table s; clock := clock s; script := tail sc |})
      end
  end.

Definition sqlite_upsert (p : Proxy) (s : SqliteStore) : result Error unit * SqliteStore :=
  let '(r, _, s') := retry_sqlite_contention (run_upsert p) s in (db r, s').

Definition restore_row (key : bytes * Z) (row : SqlRow) : option Proxy :=
  h ← parse_ip key.1;
  Some (with_ewma (Some (c_ewma row))
    (restored h (Z.to_N (key.2 mod 65536)) (types_from_json (c_types row))
       (Z.to_N (c_requests row mod 4294967296)) (Z.to_N (c_errors row mod 4294967296)) (c_latency row))).

Definition sqlite_load (s : SqliteStore) : result Error (list Proxy) :=
  match script s with
  | Some e :: _ => db (Err e)
  | _ => Ok (omap (fun kr => restore_row kr.1 kr.2) (map_to_list (table s)))
  end.

(** [PRAGMA user_version] and the table before and after [migrate]: an existing
    table is kept ([CREATE TABLE IF NOT EXISTS]). *)
Definition migrate (version : Z) (t : option Table) : Z * option Table :=
  if (version <? 1)%Z then (1%Z, Some (default ∅ t)) else (version, t).

Definition sqlite_new : SqliteStore := {| table := ∅; clock := 0; script := [] |}.

#[export] Instance sqlite_store : Store SqliteStore := {
  store_new := sqlite_new;
  upsert := sqlite_upsert;
  load := sqlite_load;
}.
End Sqlite.
