(* ===== verification/PersistProofs.v ===== *)
(** * What the stores promise: [src/persist.rs]

    The in-memory and the SQLite store keep the abstract promise of the [Store]
    interface and so agree, and the contention retry does exactly its schedule. *)

From stdpp Require Import base list gmap strings.
From Stdlib Require Import Ascii NArith ZArith Lia.
From S2P Require Import Prelude Bytes Text Float Net NetProofs Types ProxyModel ProxyJson Pool Persist.

(** The literals of the statement and the script are the smoothing factor of the
    reference fold. *)
Lemma smooth_is_fold_ewma prev sample : smooth prev sample = fold_ewma prev sample f_0_3.
Proof. unfold smooth, fold_ewma. by replace (f_sub f_one f_0_3) with f_0_7 by (vm_compute; reflexivity). Qed.

(** ** The abstract meaning, one check at a time *)

Lemma history_of_snoc k ps p :
  history_of k (ps ++ [p]) = history_of k ps ++ (if decide (key_of p = k) then [p] else []).
Proof. unfold history_of. rewrite filter_app, filter_cons, filter_nil. by destruct (decide _). Qed.

Lemma total_N_snoc f l p : total_N f (l ++ [p]) = (total_N f l + f p)%N.
Proof. induction l as [|q l IH]; simpl; [lia|]. rewrite IH. lia. Qed.

Lemma seen_types_snoc l p :
  seen_types (l ++ [p]) = if bool_decide (types p = ∅) then seen_types l else types p.
Proof.
  unfold seen_types. rewrite fmap_app, filter_app. simpl fmap. rewrite filter_cons, filter_nil.
  case_bool_decide; case_decide; try done; [by rewrite app_nil_r|]. by rewrite last_snoc.
Qed.

Lemma seen_ewma_snoc l p : l <> [] -> seen_ewma (l ++ [p]) = smooth (seen_ewma l) (sample_of p).
Proof. destruct l as [|q l]; [done|]. intros _. simpl. by rewrite foldl_app. Qed.

Lemma seen_latency_snoc l p : l <> [] -> seen_latency (l ++ [p]) = fold_latency (seen_latency l) p.
Proof. destruct l as [|q l]; [done|]. intros _. simpl. by rewrite foldl_app. Qed.

Lemma total_N_elem f l p : p ∈ l -> (f p <= total_N f l)%N.
Proof. induction 1 as [q l|p q l _ IH]; simpl; lia. Qed.

Lemma history_elem k ps p : p ∈ history_of k ps <-> key_of p = k /\ p ∈ ps.
Proof. unfold history_of. by rewrite list_elem_of_filter. Qed.

Lemma storable_prefix ps p : storable (ps ++ [p]) -> storable ps.
Proof.
  intros [Ha Ht Hc Hu]. constructor.
  - intros q Hq. apply Ha, elem_of_app. by left.
  - intros q Hq. apply Ht, elem_of_app. by left.
  - intros k. specialize (Hc k). rewrite history_of_snoc in Hc. unfold seen_requests, seen_errors in *.
    destruct (decide (key_of p = k)); [|by rewrite app_nil_r in Hc]. rewrite !total_N_snoc in Hc. lia.
  - rewrite length_app in Hu. simpl in Hu. lia.
Qed.

Lemma storable_app qs ps : storable (qs ++ ps) -> storable qs.
Proof.
  induction ps as [|p ps IH] using rev_ind; [by rewrite app_nil_r|].
  rewrite app_assoc. intros H. by eapply IH, storable_prefix.
Qed.

Lemma seen_uptime_snoc l p : N.of_nat (seen_uptime (l ++ [p])) = (N.of_nat (seen_uptime l) + uptime_of p)%N.
Proof. unfold seen_uptime, uptime_of. rewrite List.filter_app, length_app. simpl. destruct (is_working p); simpl; lia. Qed.

Lemma seen_uptime_le k ps : seen_uptime (history_of k ps) <= length ps.
Proof.
  unfold seen_uptime, history_of. transitivity (length (filter (fun p => key_of p = k) ps)).
  - apply sublist_length, filter_sublist.
  - apply length_filter.
Qed.

Lemma history_cases k ps : history_of k ps = [] \/ history_of k ps <> [].
Proof. destruct (history_of k ps); [by left|by right]. Qed.

(** ** The in-memory store *)

Definition rec_of (l : list Proxy) : Rec :=
  {| r_types := seen_types l; r_requests := seen_requests l; r_errors := seen_errors l;
     r_ewma := seen_ewma l; r_latency := seen_latency l; r_uptime := N.of_nat (seen_uptime l) |}.

Definition memory_of (ps : list Proxy) : MemoryStore := foldl (fun m p => memory_upsert p m) ∅ ps.

Lemma memory_upsert_all ps m :
  upsert_all ps m = (Ok tt, foldl (fun m p => memory_upsert p m) m ps).
Proof. revert m. induction ps as [|p ps IH]; intros m; simpl; [done|]. apply IH. Qed.

Lemma insert_record_of p : insert_record p = rec_of [p].
Proof.
  unfold insert_record, rec_of, seen_requests, seen_errors, uptime_of, seen_uptime; simpl.
  f_equal; try lia; try by destruct (is_working p).
  change [p] with ([] ++ [p]). rewrite seen_types_snoc. case_bool_decide as E; [by rewrite E|done].
Qed.

Lemma modify_record_of l p :
  l <> [] -> (seen_requests (l ++ [p]) <= u32_max)%N -> (seen_errors (l ++ [p]) <= u32_max)%N ->
  (N.of_nat (seen_uptime (l ++ [p])) <= u64_max)%N ->
  modify_record p (rec_of l) = rec_of (l ++ [p]).
Proof.
  intros Hl. unfold modify_record, rec_of, sat_add; cbn [r_types r_requests r_errors r_ewma r_latency r_uptime].
  rewrite seen_types_snoc, seen_ewma_snoc, seen_latency_snoc, seen_uptime_snoc by done.
  unfold seen_requests, seen_errors. rewrite !total_N_snoc. intros ???. f_equal; lia.
Qed.

Lemma memory_lookup ps k : storable ps ->
  memory_of ps !! k = if decide (history_of k ps = []) then None else Some (rec_of (history_of k ps)).
Proof.
  induction ps as [|p ps IH] using rev_ind; intros Hs; [by rewrite decide_True|].
  specialize (IH (storable_prefix _ _ Hs)). unfold memory_of in *. rewrite foldl_app. simpl.
  set (m := foldl _ _ ps) in *. rewrite history_of_snoc. unfold memory_upsert.
  destruct (decide (key_of p = k)) as [<-|Hk].
  - rewrite lookup_insert_eq, IH. rewrite (decide_False (P := _ ++ [p] = [])) by (by destruct (history_of _ _)).
    f_equal. destruct (decide (history_of (key_of p) ps = [])) as [E|E]; [by rewrite E, insert_record_of|].
    destruct (st_counts _ Hs (key_of p)) as [Hr He].
    rewrite history_of_snoc, decide_True in Hr, He by done.
    apply modify_record_of; try done. pose proof (st_uptime _ Hs).
    pose proof (seen_uptime_le (key_of p) (ps ++ [p])) as Hu.
    rewrite history_of_snoc, decide_True in Hu by done. lia.
  - rewrite lookup_insert_ne, IH, app_nil_r by done. done.
Qed.

Lemma memory_load_exact ps : storable ps -> remembers_exactly ps (memory_load (memory_of ps)).
Proof.
  intros Hs. split.
  - unfold memory_load. rewrite <-list_fmap_compose.
    rewrite (list_fmap_ext _ fst); [apply NoDup_fst_map_to_list|].
    intros i [[h pt] rec] _. reflexivity.
  - intros q. unfold memory_load. rewrite list_elem_of_fmap. split.
    + intros ([k rec] & -> & Hin%elem_of_map_to_list). rewrite memory_lookup in Hin by done.
      destruct (decide _) as [|E]; [done|]. injection Hin as <-. by exists k.
    + intros (k & Hk & ->). exists (k, rec_of (history_of k ps)). split; [done|].
      apply elem_of_map_to_list. by rewrite memory_lookup, decide_False.
Qed.

#[export] Instance memory_laws : StoreLaws MemoryStore.
Proof.
  constructor. intros ps Hs. exists (memory_of ps), (memory_load (memory_of ps)).
  split; [apply memory_upsert_all|]. split; [done|by apply memory_load_exact].
Qed.

(** ** The moving averages stay numbers *)

Lemma smooth_nonneg prev sample :
  f_nonneg prev = true -> f_nonneg sample = true -> f_nonneg (smooth prev sample) = true.
Proof.
  intros Hp Hs. unfold smooth.
  assert (exists m e, f_0_3 = SpecFloat.S754_finite false m e) as (m & e & ->) by (vm_compute; eauto).
  assert (exists m e, f_0_7 = SpecFloat.S754_finite false m e) as (m' & e' & ->) by (vm_compute; eauto).
  apply f_add_nonneg; by apply f_mul_nonneg.
Qed.

Lemma sample_nonneg p : f_nonneg (sample_of p) = true.
Proof. unfold sample_of. by destruct (is_working p). Qed.

Lemma seen_ewma_nonneg l : f_nonneg (seen_ewma l) = true.
Proof.
  induction l as [|p l IH] using rev_ind; [done|]. destruct (decide (l = [])) as [->|Hl].
  - simpl. apply sample_nonneg.
  - rewrite seen_ewma_snoc by done. apply smooth_nonneg; [done|apply sample_nonneg].
Qed.

Lemma fold_latency_nonneg a p : f_nonneg a = true -> f_nonneg (fold_latency a p) = true.
Proof.
  intros Ha. unfold fold_latency. destruct (f_lt _ _) eqn:E; [|done].
  apply smooth_nonneg; [done|by apply f_lt_zero_nonneg].
Qed.

Lemma seen_latency_nonneg l :
  (forall p, p ∈ l -> f_nonneg (avg_resp_time p) = true) -> f_nonneg (seen_latency l) = true.
Proof.
  induction l as [|p l IH] using rev_ind; intros Hl; [done|]. destruct (decide (l = [])) as [->|Hne].
  - simpl. apply Hl. set_solver.
  - rewrite seen_latency_snoc by done. apply fold_latency_nonneg, IH. intros q Hq. apply Hl, elem_of_app. by left.
Qed.

(** ** The SQLite store *)

Section Sqlite.
Context (to_string : Json -> bytes) (from_str : bytes -> option Json) (not_null_text : bytes).
(** [serde_json] reads back the arrays of types it writes, and writes the empty
    array as [[]]. *)
Context (codec_reads : forall p, from_str (types_to_json to_string p) = Some (JArr (type_json <$> types_entries p))).
Context (codec_empty : to_string (JArr []) = bs "[]").

Notation execute := (execute to_string not_null_text).
Notation run_upsert := (run_upsert to_string not_null_text).
Notation sqlite_upsert := (sqlite_upsert to_string not_null_text).
Notation restore_row := (restore_row from_str).
Notation sqlite_load := (sqlite_load from_str).
Notation types_from_json := (types_from_json from_str).

Lemma type_of_json_json t : type_of_json (type_json t) = Some t.
Proof.
  destruct t as [p l]. destruct p, l as [[]|]; vm_compute; reflexivity.
Qed.

Lemma insert_all_lookup (l : list (Proto * option AnonLevel)) (m : gmap Proto (option AnonLevel)) k :
  NoDup l.*1 -> foldl (fun m t => <[t.1 := t.2]> m) m l !! k =
  match find (fun t => bool_decide (t.1 = k)) l with Some t => Some t.2 | None => m !! k end.
Proof.
  revert m. induction l as [|[k' v] l IH]; intros m Hnd; simpl; [done|].
  apply NoDup_cons in Hnd as [Hk Hnd]. rewrite IH by done. case_bool_decide as E.
  - simpl in E. subst k'. rewrite lookup_insert_eq.
    destruct (find _ l) as [t|] eqn:Ef; [|done]. apply find_Some in Ef as [Hin E]. bool_destruct. subst k.
    exfalso. apply Hk, list_elem_of_fmap. by exists t.
  - rewrite lookup_insert_ne by done. done.
Qed.

Lemma types_codec_roundtrip p : types_from_json (types_to_json to_string p) = types p.
Proof using codec_reads.
  unfold Persist.types_from_json. rewrite codec_reads.
  assert (omap type_of_json (type_json <$> types_entries p) = types_entries p) as ->.
  { induction (types_entries p) as [|t l IH]; [done|]. cbn -[type_of_json type_json].
    rewrite type_of_json_json. f_equal. exact IH. }
  apply map_eq. intros k. rewrite insert_all_lookup by apply types_entries_NoDup. rewrite lookup_empty.
  destruct (find _ _) as [[k' v]|] eqn:E.
  - apply find_Some in E as [Hin E]. bool_destruct. simpl in *. subst k'.
    by apply types_entries_elem in Hin.
  - destruct (types p !! k) as [v|] eqn:Ek; [|done]. exfalso.
    apply types_entries_elem in Ek. rewrite find_None in E. apply E in Ek.
    by apply bool_decide_eq_false in Ek.
Qed.

Lemma types_text_empty p : types_to_json to_string p = bs "[]" <-> types p = ∅.
Proof using codec_reads codec_empty.
  split.
  - intros E. rewrite <-types_codec_roundtrip, E. rewrite <-codec_empty.
    change (to_string (JArr [])) with (types_to_json to_string (Proxy_new (V4 0 0 0 0) 0 ∅)).
    by rewrite types_codec_roundtrip.
  - intros E. unfold types_to_json, types_entries. rewrite E. simpl. apply codec_empty.
Qed.

(** ** The table mirrors the history *)

Definition sql_key (k : IpAddr * N) : bytes * Z := (show_ip k.1, Z.of_N k.2).

Record row_ok (row : SqlRow) (l : list Proxy) : Prop := {
  ok_types : types_from_json (c_types row) = seen_types l;
  ok_requests : c_requests row = Z.of_N (seen_requests l);
  ok_errors : c_errors row = Z.of_N (seen_errors l);
  ok_ewma : c_ewma row = seen_ewma l;
  ok_latency : c_latency row = seen_latency l;
  ok_uptime : c_uptime row = Z.of_nat (seen_uptime l);
}.

Lemma sql_key_inj k k' : key_wf k -> key_wf k' -> sql_key k = sql_key k' -> k = k'.
Proof.
  destruct k as [h pt], k' as [h' pt']. unfold sql_key; simpl. intros [Hh _] [Hh' _] [= Es ->%N2Z.inj].
  apply parse_show_ip in Hh, Hh'; simpl in Hh, Hh'. rewrite Es, Hh' in Hh. congruence.
Qed.

Lemma values_row_ok now p : row_ok (values_row to_string now p) [p].
Proof using codec_reads.
  constructor; cbn; try lia; try done.
  - rewrite types_codec_roundtrip. change [p] with ([] ++ [p]). rewrite seen_types_snoc.
    case_bool_decide as E; [by rewrite E|done].
  - unfold uptime_of, seen_uptime; simpl. by destruct (is_working p).
Qed.

Lemma update_row_ok now p row l : l <> [] -> row_ok row l ->
  row_ok (update_row (values_row to_string now p) row) (l ++ [p]).
Proof using codec_reads codec_empty.
  intros Hl [Ht Hr He Hw Hla Hu]. constructor; cbn.
  - rewrite seen_types_snoc. rewrite (bool_decide_ext _ _ (types_text_empty p)).
    case_bool_decide; [done|apply types_codec_roundtrip].
  - unfold seen_requests in *. rewrite total_N_snoc, Hr. lia.
  - unfold seen_errors in *. rewrite total_N_snoc, He. lia.
  - by rewrite seen_ewma_snoc, Hw.
  - rewrite seen_latency_snoc, Hla by done. done.
  - pose proof (seen_uptime_snoc l p). rewrite Hu. lia.
Qed.

Record table_ok (ps : list Proxy) (t : Table) : Prop := {
  tab_rows : forall key row, t !! key = Some row ->
    exists k, key = sql_key k /\ history_of k ps <> [] /\ row_ok row (history_of k ps);
  tab_keys : forall k, history_of k ps <> [] -> is_Some (t !! sql_key k);
}.

Lemma history_key_wf ps k : storable ps -> history_of k ps <> [] -> key_wf k.
Proof.
  intros Hs Hk. destruct (history_of k ps) as [|p l] eqn:E; [done|].
  assert (p ∈ history_of k ps) as Hp by (rewrite E; left).
  apply history_elem in Hp as [<- Hp]. by apply (st_address _ Hs).
Qed.

Lemma row_no_null ps k row : storable ps -> row_ok row (history_of k ps) -> no_null row = true.
Proof.
  intros Hs [_ _ _ Hw Hl _]. unfold no_null. rewrite Hw, Hl.
  rewrite !f_nonneg_not_nan; [done| |apply seen_ewma_nonneg].
  apply seen_latency_nonneg. intros p [_ Hp]%history_elem. by apply (st_timing _ Hs).
Qed.

Lemma execute_ok ps p t now : storable (ps ++ [p]) -> table_ok ps t ->
  exists t', execute now p t = Ok t' /\ table_ok (ps ++ [p]) t'.
Proof using codec_reads codec_empty.
  intros Hs [Hrows Hkeys]. unfold Persist.execute. change (show_ip (host p), Z.of_N (port p)) with (sql_key (key_of p)).
  set (row := match t !! _ with Some row => _ | None => _ end).
  assert (history_of (key_of p) (ps ++ [p]) = history_of (key_of p) ps ++ [p]) as Eh
    by (by rewrite history_of_snoc, decide_True).
  assert (key_wf (key_of p)) as Hkp.
  { apply (history_key_wf (ps ++ [p])); [done|]. rewrite Eh. by destruct (history_of _ ps). }
  assert (row_ok row (history_of (key_of p) (ps ++ [p]))) as Hrow.
  { rewrite Eh. unfold row. destruct (t !! sql_key (key_of p)) as [old|] eqn:Eo.
    - destruct (Hrows _ _ Eo) as (k & Ek & Hk & Hok). apply sql_key_inj in Ek as <-; [|done|].
      + by apply update_row_ok.
      + by apply (history_key_wf ps); [eapply storable_prefix|].
    - destruct (history_cases (key_of p) ps) as [->|Hne]; [apply values_row_ok|].
      apply Hkeys in Hne. rewrite Eo in Hne. by destruct Hne. }
  assert (no_null (values_row to_string now p) = true) as ->.
  { unfold no_null; simpl. rewrite !f_nonneg_not_nan; [done| |apply sample_nonneg].
    apply (st_timing _ Hs). set_solver. }
  rewrite (row_no_null _ _ _ Hs Hrow). eexists. split; [done|]. constructor.
  - intros key r. destruct (decide (key = sql_key (key_of p))) as [->|Hne].
    + rewrite lookup_insert_eq. intros [= <-]. exists (key_of p). split; [done|]. split; [|done].
      rewrite Eh. by destruct (history_of _ ps).
    + rewrite lookup_insert_ne by done. intros (k & -> & Hk & Hok)%Hrows. exists k.
      rewrite history_of_snoc, decide_False, app_nil_r by (intros <-; done). done.
  - intros k Hk. destruct (decide (sql_key k = sql_key (key_of p))) as [->|Hne].
    + rewrite lookup_insert_eq. eauto.
    + rewrite lookup_insert_ne by done. apply Hkeys.
      rewrite history_of_snoc, decide_False, app_nil_r in Hk by (intros <-; done). done.
Qed.
(** ** The contention retry *)

#[local] Arguments Persist.execute : simpl never.

Definition contended (o : option SqlError) : Prop :=
  exists e, o = Some e /\ is_retryable_sqlite_contention e = true.

(** The outcome of the write whose execution number [n] was the last. *)
Definition last_execution (p : Proxy) (s : SqliteStore) (o : option (option SqlError))
    (r : result SqlError unit) (t : Table) : Prop :=
  match o with
  | Some (Some e) => r = Err e /\ t = table s
  | _ => match execute (clock s) p (table s) with
         | Ok t' => r = Ok tt /\ t = t'
         | Err e => r = Err e /\ t = table s
         end
  end.

Lemma execute_error now p t e : execute now p t = Err e -> is_retryable_sqlite_contention e = false.
Proof. unfold Persist.execute. destruct (_ && _); [done|]. by intros [= <-]. Qed.

Lemma last_at_once p (delays : list duration) t now sc r t' :
  last_execution p {| table := t; clock := now; script := sc |} (sc !! 0) r t' ->
  (forall e, r = Err e -> is_retryable_sqlite_contention e = false) ->
  let s' := {| table := t'; clock := now; script := tail sc |} in
  clock s' = now /\
  exists n, n <= length delays /\ [] = take n delays /\ n <= length sc /\
    Forall contended (take n sc) /\ script s' = drop (S n) sc /\
    last_execution p {| table := t; clock := now; script := sc |} (sc !! n) r (table s') /\
    (forall e, r = Err e -> is_retryable_sqlite_contention e = true -> n = length delays).
Proof.
  intros Hl Hr. split; [done|]. exists 0.
  split_and!; [lia|done|lia|constructor|by destruct sc|done|]. intros e He. by rewrite (Hr e He).
Qed.

Lemma write_loop p delays s r slept s' :
  retry_loop (run_upsert p) delays s = (r, slept, s') ->
  clock s' = clock s /\
  exists n, n <= length delays /\ slept = take n delays /\ n <= length (script s) /\
    Forall contended (take n (script s)) /\ script s' = drop (S n) (script s) /\
    last_execution p s (script s !! n) r (table s') /\
    (forall e, r = Err e -> is_retryable_sqlite_contention e = true -> n = length delays).
Proof.
  revert s r slept s'. induction delays as [|d ds IH]; intros s r slept s'; cbn [retry_loop];
    unfold Persist.run_upsert at 1; destruct s as [t now sc]; cbn [script table clock];
    destruct sc as [|[e|] sc].
  1,3,4,6: cbn [tail]; destruct (execute now p t) as [t'|e] eqn:Ex;
    [|rewrite (execute_error _ _ _ _ Ex)]; intros [= <- <- <-].
  all: try (apply (last_at_once p); [unfold last_execution; cbn; by rewrite Ex|]; intros ? [= <-]; by eapply execute_error).
  all: try (apply (last_at_once p); [unfold last_execution; cbn; by rewrite Ex|done]).
  - intros Hr. assert (r = Err e /\ slept = [] /\ s' = {| table := t; clock := now; script := sc |})
      as (-> & -> & ->) by (destruct (is_retryable_sqlite_contention e); by injection Hr as <- <- <-).
    split; [done|]. exists 0. cbn. split_and!; first [done | lia | by constructor].
  - destruct (is_retryable_sqlite_contention e) eqn:Er.
    + destruct (retry_loop _ ds _) as [[r1 sl1] s2] eqn:El. intros [= <- <- <-].
      apply IH in El as (Hc & n & Hn & -> & Hlen & Hcont & Hs & Hlast & Hall). split; [done|]. exists (S n).
      cbn in *. split_and!; try done; try lia.
      * constructor; [by exists e|done].
      * intros e' He' Hr'. f_equal. by eapply Hall.
    + intros [= <- <- <-]. split; [done|]. exists 0. cbn.
      split_and!; first [done | lia | by constructor | intros ? [= <-]; congruence].
Qed.

(** C33.  A write is retried exactly on schedule: it is executed again only after
    a busy or locked database, at most four times, after 10, 25, 50 and 100
    milliseconds; the last execution decides, a contention error is reported
    only when the schedule is used up, a reported error leaves the table as it
    was, and a successful one has run the statement once. *)
Theorem write_exact p s r slept s' :
  retry_sqlite_contention (run_upsert p) s = (r, slept, s') ->
  clock s' = clock s /\
  exists n, n <= 4 /\ slept = take n (from_millis <$> [10; 25; 50; 100]%N) /\ n <= length (script s) /\
    Forall contended (take n (script s)) /\ script s' = drop (S n) (script s) /\
    last_execution p s (script s !! n) r (table s') /\
    (forall e, r = Err e -> is_retryable_sqlite_contention e = true -> n = 4).
Proof. apply write_loop. Qed.

(** ** The promise *)

Lemma sqlite_upsert_quiet p t now :
  sqlite_upsert p {| table := t; clock := now; script := [] |} =
  match execute now p t with
  | Ok t' => (Ok tt, {| table := t'; clock := now; script := [] |})
  | Err e => (Err (Persist (sql_text e)), {| table := t; clock := now; script := [] |})
  end.
Proof.
  unfold Persist.sqlite_upsert, retry_sqlite_contention. cbn [retry_loop SQLITE_RETRY_DELAYS fmap list_fmap].
  unfold Persist.run_upsert at 1. cbn. destruct (execute now p t) as [t'|e] eqn:E; [done|].
  by rewrite (execute_error _ _ _ _ E).
Qed.

Lemma sqlite_upsert_all ps : storable ps -> forall qs t, table_ok qs t -> storable (qs ++ ps) ->
  exists t', @upsert_all _ (sqlite_store to_string from_str not_null_text) ps
               {| table := t; clock := 0; script := [] |}
             = (Ok tt, {| table := t'; clock := 0; script := [] |}) /\ table_ok (qs ++ ps) t'.
Proof using codec_reads codec_empty.
  intros _. induction ps as [|p ps IH]; intros qs t Ht Hs.
  - exists t. rewrite app_nil_r. done.
  - replace (qs ++ p :: ps) with ((qs ++ [p]) ++ ps) in Hs |- * by (by rewrite <-app_assoc).
    pose proof (storable_app _ _ Hs) as Hs1.
    destruct (execute_ok _ _ _ 0 Hs1 Ht) as (t1 & Ex & Ht1).
    cbn [upsert_all upsert sqlite_store]. rewrite sqlite_upsert_quiet, Ex. by apply IH.
Qed.

Lemma restore_row_ok ps k row : storable ps -> history_of k ps <> [] -> row_ok row (history_of k ps) ->
  restore_row (sql_key k) row = Some (remembered k (history_of k ps)).
Proof.
  intros Hs Hk [Ht Hr He Hw Hl _]. destruct (history_key_wf _ _ Hs Hk) as [Hip Hport].
  unfold Persist.restore_row, sql_key; cbn [fst snd]. rewrite (parse_show_ip _ Hip). cbn [mbind option_bind].
  destruct (st_counts _ Hs k) as [Hrb Heb]. unfold remembered. unfold u16_max, u32_max in *.
  rewrite Ht, Hr, He, Hw, Hl.
  replace (Z.to_N (Z.of_N k.2 mod 65536)) with k.2 by (rewrite Z.mod_small; lia).
  replace (Z.to_N (Z.of_N (seen_requests (history_of k ps)) mod 4294967296))
    with (seen_requests (history_of k ps)) by (rewrite Z.mod_small; lia).
  replace (Z.to_N (Z.of_N (seen_errors (history_of k ps)) mod 4294967296))
    with (seen_errors (history_of k ps)) by (rewrite Z.mod_small; lia).
  done.
Qed.

Lemma omap_keys {A B K} (f : A -> option B) (key : B -> K) (l : list A) (k : A -> K) :
  (forall x, x ∈ l -> exists y, f x = Some y /\ key y = k x) -> key <$> omap f l = k <$> l.
Proof.
  induction l as [|x l IH]; intros Hl; [done|]. destruct (Hl x) as (y & E & Hk); [left|].
  simpl. rewrite E. simpl. rewrite Hk. f_equal. apply IH. intros z Hz. apply Hl. by right.
Qed.

Lemma sqlite_load_exact ps t : storable ps -> table_ok ps t ->
  remembers_exactly ps (omap (fun kr => restore_row kr.1 kr.2) (map_to_list t)).
Proof.
  intros Hs [Hrows Hkeys].
  assert (forall kr, kr ∈ map_to_list t -> exists k, kr.1 = sql_key k /\ history_of k ps <> [] /\
            restore_row kr.1 kr.2 = Some (remembered k (history_of k ps))) as Hall.
  { intros [key row] Hin%elem_of_map_to_list. apply Hrows in Hin as (k & -> & Hk & Hok).
    exists k. split_and!; [done..|]. by apply restore_row_ok. }
  split.
  - apply (NoDup_fmap_1 sql_key). rewrite <-list_fmap_compose.
    rewrite (omap_keys _ _ _ fst); [apply NoDup_fst_map_to_list|].
    intros kr (k & Ek & _ & Er)%Hall. eexists. split; [done|]. rewrite Ek. by destruct k.
  - intros q. rewrite list_elem_of_omap. split.
    + intros (kr & (k & _ & Hk & Er)%Hall & Eq). rewrite Er in Eq. injection Eq as <-. by exists k.
    + intros (k & Hk & ->). destruct (Hkeys _ Hk) as [row Hrow].
      apply elem_of_map_to_list in Hrow as Hin. destruct (Hall _ Hin) as (k' & Ek & Hk' & Er).
      apply sql_key_inj in Ek as <-; [by exists (sql_key k, row)|..]; by eapply history_key_wf.
Qed.

Lemma sqlite_laws : @StoreLaws SqliteStore (sqlite_store to_string from_str not_null_text).
Proof using codec_reads codec_empty.
  constructor. intros ps Hs.
  destruct (sqlite_upsert_all ps Hs [] ∅) as (t & Hu & Ht); [|done|].
  { constructor; [intros key row E; by rewrite lookup_empty in E|done]. }
  exists {| table := t; clock := 0; script := [] |}. eexists. split; [exact Hu|]. split; [done|].
  by apply sqlite_load_exact.
Qed.
End Sqlite.

Lemma remembers_exactly_unique ps l l' :
  remembers_exactly ps l -> remembers_exactly ps l' -> l ≡ₚ l'.
Proof.
  intros [Hn Hm] [Hn' Hm']. apply NoDup_Permutation.
  - by eapply NoDup_fmap_1.
  - by eapply NoDup_fmap_1.
  - intros q. by rewrite Hm, Hm'.
Qed.

(** C29.  The two stores keep the same promise: after any storable sequence of
    checks both accept every write and load, in some order, one proxy per
    address ever checked, with the latest confirmed types (a check that
    confirmed nothing does not erase them), the total attempts and failures
    and the moving averages of success and latency over the address's checks;
    so the two loads agree. *)
Theorem stores_agree (to_string : Json -> bytes) (from_str : bytes -> option Json) (not_null_text : bytes)
    (codec_reads : forall p,
       from_str (types_to_json to_string p) = Some (JArr (type_json <$> types_entries p)))
    (codec_empty : to_string (JArr []) = bs "[]") ps :
  storable ps ->
  exists m ml s sl,
    upsert_all ps (store_new : MemoryStore) = (Ok tt, m) /\ load m = Ok ml /\
    @upsert_all _ (sqlite_store to_string from_str not_null_text) ps sqlite_new = (Ok tt, s) /\
    sqlite_load from_str s = Ok sl /\
    remembers_exactly ps ml /\ ml ≡ₚ sl.
Proof.
  intros Hs. destruct (store_remembers (S := MemoryStore) ps Hs) as (m & ml & Hm & Hml & Hr).
  destruct (@store_remembers _ _ (sqlite_laws to_string from_str not_null_text codec_reads codec_empty) ps Hs)
    as (s & sl & Hsu & Hsl & Hr').
  exists m, ml, s, sl. split_and!; try done. by eapply remembers_exactly_unique.
Qed.

(** ** A concrete codec and history *)

(** One character per type. *)
Definition all_types : list (Proto * option AnonLevel) :=
  p ← ALL; l ← [None; Some Transparent; Some Anonymous; Some High]; [(p, l)].
Definition type_code (t : Proto * option AnonLevel) : ascii :=
  match find (fun it => bool_decide (it.2 = t)) (enumerate all_types) with
  | Some (i, _) => ascii_of_nat (97 + i)
  | None => "?"%char
  end.
Definition tiny_write (j : Json) : bytes :=
  match j with
  | JArr l => bs "[" ++ (type_code <$> omap type_of_json l) ++ bs "]"
  | _ => []
  end.
Definition type_decode (c : ascii) : option (Proto * option AnonLevel) :=
  find (fun t => bool_decide (type_code t = c)) all_types.
Definition tiny_read (s : bytes) : option Json := Some (JArr (type_json <$> omap type_decode s)).

Lemma tiny_codec p : tiny_read (types_to_json tiny_write p) = Some (JArr (type_json <$> types_entries p)).
Proof.
  unfold tiny_read, types_to_json, tiny_write. do 3 f_equal. rewrite !omap_app.
  replace (omap type_decode (bs "[")) with (@nil (Proto * option AnonLevel)) by (vm_compute; reflexivity).
  replace (omap type_decode (bs "]")) with (@nil (Proto * option AnonLevel)) by (vm_compute; reflexivity).
  rewrite app_nil_r. cbn [app]. induction (types_entries p) as [|t l IH]; [done|].
  assert (type_decode (type_code t) = Some t) as Et by (destruct t as [[] [[]|]]; vm_compute; reflexivity).
  rewrite fmap_cons. cbn -[type_decode type_code type_of_json type_json].
  rewrite type_of_json_json. cbn -[type_decode type_code type_of_json type_json]. rewrite Et. f_equal. exact IH.
Qed.

Definition sample_check (ok_ : bool) : Proxy :=
  let p := record_attempt (if ok_ then Some f_half else None) (if ok_ then None else Some Timeout)
             (Proxy_new (V4 10 0 0 1) 3128 ∅) in
  if ok_ then add_type Http (Some High) p else p.

Lemma sample_storable : storable [sample_check true; sample_check false].
Proof.
  constructor.
  - intros p Hp. rewrite !elem_of_cons, elem_of_nil in Hp.
    destruct Hp as [-> | [-> | []]]; apply (bool_decide_eq_true_1 (key_wf _)); reflexivity.
  - intros p Hp. rewrite !elem_of_cons, elem_of_nil in Hp.
    destruct Hp as [-> | [-> | []]]; vm_compute; reflexivity.
  - intros k. unfold history_of. rewrite !filter_cons, filter_nil.
    repeat case_decide; split; vm_compute; discriminate.
  - vm_compute. discriminate.
Qed.

Lemma stores_agree_witness :
  exists m ml s sl,
    upsert_all [sample_check true; sample_check false] (store_new : MemoryStore) = (Ok tt, m) /\
    load m = Ok ml /\
    @upsert_all _ (sqlite_store tiny_write tiny_read []) [sample_check true; sample_check false] sqlite_new
      = (Ok tt, s) /\
    sqlite_load tiny_read s = Ok sl /\
    remembers_exactly [sample_check true; sample_check false] ml /\ ml ≡ₚ sl.
Proof.
  apply (stores_agree tiny_write tiny_read []); [exact tiny_codec|vm_compute; reflexivity|exact sample_storable].
Defined.

Lemma write_exact_witness :
  let busy := SqliteFailure DatabaseBusy (bs "locked") in
  let s := {| table := ∅; clock := 7; script := [Some busy; Some busy; None] |} in
  let o := retry_sqlite_contention (run_upsert tiny_write [] (sample_check true)) s in
  clock o.2 = 7%Z /\
  exists n, n <= 4 /\ o.1.2 = take n (from_millis <$> [10; 25; 50; 100]%N) /\ n <= 3 /\
    Forall contended (take n (script s)) /\ script o.2 = drop (S n) (script s) /\
    last_execution tiny_write [] (sample_check true) s (script s !! n) o.1.1 (table o.2) /\
    (forall e, o.1.1 = Err e -> is_retryable_sqlite_contention e = true -> n = 4).
Proof.
  intros busy s o.
  apply (write_exact tiny_write [] (sample_check true) s o.1.1 o.1.2 o.2).
  unfold o. by rewrite <-!surjective_pairing.
Defined.
