(* ===== verification/Redis.v ===== *)
(** * The Redis store: [src/persist.rs] ([mod redis])

    The database as the store's three kinds of keys, the upsert script
    statement by statement, and the two operations and the opening over a
    connection whose round trips may fail.  The server, its Lua number
    conversions ([tonumber], and the text of a number passed to a command), the
    client's text of a float and the JSON codec are parameters. *)

From stdpp Require Import base list gmap strings.
From Stdlib Require Import Ascii NArith ZArith Lia.
From S2P Require Import Prelude Bytes Text Float Net NetProofs Types ProxyModel ProxyJson Pool Persist.

Definition proxy_key (h : IpAddr) (pt : N) : bytes :=
  bs "proxybroker:proxy:" ++ show_ip h ++ bs ":" ++ show_N pt.

Definition SCHEMA_VERSION : bytes := bs "1".

(** The values under the store's keys: the hashes, the set [SET_KEY] and the
    string [SCHEMA_KEY]. *)
Record RedisDb := {
  hashes : gmap bytes (gmap bytes bytes);
  members : gset bytes;
  schema : option bytes;
}.

(** The arguments of the script, in their order. *)
Record ScriptArgs := {
  arg_host : bytes;
  arg_port : bytes;
  arg_types : bytes;
  arg_sample : bytes;
  arg_working : bytes;
  arg_latency : bytes;
  arg_now : bytes;
  arg_requests : bytes;
  arg_errors : bytes;
}.

(** The connection: the database, the clock, and what the next round trips meet
    ([Some e]: the failure [e] in the place of the command). *)
Record RedisStore := { db : RedisDb; r_clock : N; net : list (option bytes) }.

Section Redis.
(** [serde_json]. *)
Context (to_string : Json -> bytes) (from_str : bytes -> option Json).
(** The client's text of an [f64] argument; [str::parse::<f64>]. *)
Context (show_f64 : f64 -> bytes) (parse_f64 : bytes -> option f64).
(** Lua's [tonumber], and the server's text of a Lua number. *)
Context (tonumber : bytes -> option f64) (number_text : f64 -> bytes).
(** The text of an error raised by the script. *)
Context (script_error : bytes).
(** [{v:?}] of a text. *)
Context (debug : bytes -> bytes).

Definition num (cur : gmap bytes bytes) (field : bytes) : f64 :=
  default f_zero (cur !! field ≫= tonumber).

(** The fields the script sets, from those the hash has ([None]: arithmetic on
    a value that is not a number). *)
Definition script_fields (a : ScriptArgs) (cur : gmap bytes bytes) : option (list (bytes * bytes)) :=
  let first := bool_decide (cur = ∅) in
  sample ← tonumber (arg_sample a);
  working ← tonumber (arg_working a);
  latency ← tonumber (arg_latency a);
  requests ← tonumber (arg_requests a);
  errors ← tonumber (arg_errors a);
  let ewma := if first then sample else smooth (num cur (bs "ewma_success")) sample in
  let avglat := if first then latency
                else if f_lt f_zero latency then smooth (num cur (bs "avg_latency")) latency
                else num cur (bs "avg_latency") in
  let types := if bool_decide (arg_types a = bs "[]")
               then default (arg_types a) (cur !! bs "types") else arg_types a in
  Some [(bs "host", arg_host a); (bs "port", arg_port a); (bs "types", types);
        (bs "requests", number_text (f_add (num cur (bs "requests")) requests));
        (bs "errors", number_text (f_add (num cur (bs "errors")) errors));
        (bs "ewma_success", number_text ewma); (bs "avg_latency", number_text avglat);
        (bs "first_seen", if first then arg_now a else default (arg_now a) (cur !! bs "first_seen"));
        (bs "last_seen", arg_now a);
        (bs "uptime_checks", number_text (f_add (num cur (bs "uptime_checks")) working))].

(** [HSET] of several fields. *)
Definition hset (fields : list (bytes * bytes)) (h : gmap bytes bytes) : gmap bytes bytes :=
  foldl (fun h fv => <[fv.1 := fv.2]> h) h fields.

(** [UPSERT_LUA]: one atomic step of the server. *)
Definition upsert_script (key : bytes) (a : ScriptArgs) (d : RedisDb) : result bytes unit * RedisDb :=
  let cur := default ∅ (hashes d !! key) in
  match script_fields a cur with
  | None => (Err script_error, d)
  | Some fields =>
      (Ok tt, {| hashes := <[key := hset fields cur]> (hashes d);
                 members := {[arg_host a ++ bs ":" ++ arg_port a]} ∪ members d; schema := schema d |})
  end.

Definition script_args (now : N) (p : Proxy) : ScriptArgs :=
  {| arg_host := show_ip (host p); arg_port := show_N (port p); arg_types := types_to_json to_string p;
     arg_sample := show_f64 (sample_of p); arg_working := show_N (uptime_of p);
     arg_latency := show_f64 (avg_resp_time p); arg_now := show_N now;
     arg_requests := show_N (requests p); arg_errors := show_N (errors_sum (errors p)) |}.

(** ** Round trips *)

Definition round_trip {A} (cmd : RedisDb -> result bytes A * RedisDb) (s : RedisStore)
    : result Error A * RedisStore :=
  match net s with
  | Some e :: rest => (Err (Persist e), {| db := db s; r_clock := r_clock s; net := rest |})
  | rest =>
      let '(r, d) := cmd (db s) in
      (match r with Ok x => Ok x | Err e => Err (Persist e) end,
       {| db := d; r_clock := r_clock s; net := tail rest |})
  end.

Definition read_only {A} (f : RedisDb -> A) (d : RedisDb) : result bytes A * RedisDb := (Ok (f d), d).

Definition redis_upsert (p : Proxy) (s : RedisStore) : result Error unit * RedisStore :=
  round_trip (upsert_script (proxy_key (host p) (port p)) (script_args (r_clock s) p)) s.

(** One member of the set, as an address. *)
Definition member_address (member : bytes) : option (IpAddr * N) :=
  '(h, p) ← rsplit_once ":" member;
  ip ← parse_ip h;
  pt ← parse_u16 p;
  Some (ip, pt).

Definition restore_hash (k : IpAddr * N) (h : gmap bytes bytes) : option Proxy :=
  if bool_decide (h = ∅) then None
  else
    let counter f := default 0%N (h !! f ≫= parse_u32) in
    Some (with_ewma (h !! bs "ewma_success" ≫= parse_f64)
            (restored k.1 k.2 (types_from_json from_str (default (bs "[]") (h !! bs "types")))
               (counter (bs "requests")) (counter (bs "errors"))
               (default f_zero (h !! bs "avg_latency" ≫= parse_f64)))).

Fixpoint load_members (ms : list bytes) (s : RedisStore) : result Error (list Proxy) * RedisStore :=
  match ms with
  | [] => (Ok [], s)
  | m :: ms' =>
      match member_address m with
      | None => load_members ms' s
      | Some k =>
          match round_trip (read_only (fun d => default ∅ (hashes d !! proxy_key k.1 k.2))) s with
          | (Err e, s') => (Err e, s')
          | (Ok h, s') =>
              match load_members ms' s' with
              | (Ok l, s'') => (Ok (option_list (restore_hash k h) ++ l), s'')
              | (Err e, s'') => (Err e, s'')
              end
          end
      end
  end.

(** [SMEMBERS] returns the members in no particular order. *)
Definition redis_load (s : RedisStore) : result Error (list Proxy) :=
  match round_trip (read_only (fun d => elements (members d))) s with
  | (Err e, _) => Err e
  | (Ok ms, s') => (load_members ms s').1
  end.

Definition EM_DASH : bytes := byte_of <$> [226; 128; 148]%N.

Definition schema_mismatch (v : bytes) : bytes :=
  bs "redis store schema mismatch: found " ++ debug v ++ bs ", expected " ++ debug SCHEMA_VERSION
  ++ bs " " ++ EM_DASH ++ bs " wipe the proxybroker:* keys or point --state at a fresh database".

(** [RedisStore::open] over a connection that has been made. *)
Definition redis_open (s : RedisStore) : result Error RedisStore :=
  match round_trip (read_only schema) s with
  | (Err e, _) => Err e
  | (Ok existing, s') =>
      let known := match existing with Some v => bool_decide (v = SCHEMA_VERSION) | None => true end in
      if known then
        match round_trip (fun d => (Ok tt, {| hashes := hashes d; members := members d;
                                              schema := Some SCHEMA_VERSION |})) s' with
        | (Ok _, s'') => Ok s''
        | (Err e, _) => Err e
        end
      else Err (Persist (schema_mismatch (default [] existing)))
  end.

Definition redis_new : RedisStore :=
  {| db := {| hashes := ∅; members := ∅; schema := Some SCHEMA_VERSION |}; r_clock := 0; net := [] |}.

#[export] Instance redis_store : Store RedisStore := {
  store_new := redis_new;
  upsert := redis_upsert;
  load := redis_load;
}.
End Redis.
