(* ===== verification/RedisProofs.v ===== *)
(** * The Redis store keeps the promise of the interface

    Under the documented behaviour of the number conversions the store
    remembers exactly what the abstract history of the checks prescribes, as
    the other stores do; its counters, which are Lua numbers, are exact. *)

From stdpp Require Import base list gmap strings.
From Stdlib Require Import Ascii NArith ZArith Lia.
From S2P Require Import Prelude Bytes Text Float FloatExact Net NetProofs Types ProxyModel ProxyJson Pool.
From S2P Require Import Persist PersistProofs Redis.

Lemma show_N_no c n : to_digit 10 c = None -> c ∉ show_N n.
Proof.
  intros Hc H. pose proof (digits_value_all_digits _ _ _ _ (show_N_value n)) as Hf.
  rewrite Forall_forall in Hf. apply Hf in H as [d Hd]. congruence.
Qed.

(** The member of the set for an address, which is read back as that address. *)
Definition member_of (k : IpAddr * N) : bytes := show_ip k.1 ++ bs ":" ++ show_N k.2.

Lemma member_address_show k : key_wf k -> member_address (member_of k) = Some k.
Proof.
  intros [Hip Hpt]. unfold member_address, member_of. change (bs ":") with [":"%char].
  rewrite rsplit_once_at by (by apply show_N_no). cbn [mbind option_bind].
  rewrite parse_show_ip by done. cbn [mbind option_bind]. unfold parse_u16. rewrite parse_show by done.
  cbn [mbind option_bind]. by destruct k.
Qed.

Lemma member_of_inj k k' : key_wf k -> key_wf k' -> member_of k = member_of k' -> k = k'.
Proof.
  intros H H' E. apply member_address_show in H, H'. congruence.
Qed.

Lemma proxy_key_member k : proxy_key k.1 k.2 = bs "proxybroker:proxy:" ++ member_of k.
Proof. reflexivity. Qed.

Lemma proxy_key_inj k k' : key_wf k -> key_wf k' -> proxy_key k.1 k.2 = proxy_key k'.1 k'.2 -> k = k'.
Proof. intros H H'. rewrite !proxy_key_member. intros E%app_inv_head. by apply member_of_inj. Qed.

Section Redis.
Context (to_string : Json -> bytes) (from_str : bytes -> option Json).
Context (show_f64 : f64 -> bytes) (parse_f64 : bytes -> option f64).
Context (tonumber : bytes -> option f64) (number_text : f64 -> bytes).
Context (script_error : bytes).
(** [serde_json] reads back the arrays of types it writes, and writes the empty
    array as [[]]. *)
Context (codec_reads : forall p, from_str (types_to_json to_string p) = Some (JArr (type_json <$> types_entries p))).
Context (codec_empty : to_string (JArr []) = bs "[]").
(** Lua reads decimal integers and the client's text of a float as the number
    they denote; the server writes a number with 17 significant digits, so an
    integer as its decimal digits and any number so that both Lua and Rust read
    it back. *)
Context (tonumber_int : forall n, (n < INT_LIMIT)%N -> tonumber (show_N n) = Some (f_of_N n)).
Context (tonumber_float : forall x, f_is_nan x = false -> tonumber (show_f64 x) = Some x).
Context (tonumber_text : forall x, f_is_nan x = false -> tonumber (number_text x) = Some x).
Context (parse_text : forall x, f_is_nan x = false -> parse_f64 (number_text x) = Some x).
Context (text_int : forall n, (n < INT_LIMIT)%N -> number_text (f_of_N n) = show_N n).

Notation script_fields := (script_fields tonumber number_text).
Notation script_args := (script_args to_string show_f64).
Notation upsert_script := (upsert_script tonumber number_text script_error).
Notation redis_upsert := (redis_upsert to_string show_f64 tonumber number_text script_error).
Notation restore_hash := (restore_hash from_str parse_f64).
Notation load_members := (load_members from_str parse_f64).

(** What the hash of an address holds after its checks [l]. *)
Record hash_ok (h : gmap bytes bytes) (l : list Proxy) : Prop := {
  h_types : exists t, h !! bs "types" = Some t /\ types_from_json from_str t = seen_types l;
  h_requests : h !! bs "requests" = Some (show_N (seen_requests l));
  h_errors : h !! bs "errors" = Some (show_N (seen_errors l));
  h_ewma : h !! bs "ewma_success" = Some (number_text (seen_ewma l));
  h_latency : h !! bs "avg_latency" = Some (number_text (seen_latency l));
  h_uptime : (N.of_nat (seen_uptime l) < INT_LIMIT)%N ->
             h !! bs "uptime_checks" = Some (show_N (N.of_nat (seen_uptime l)));
}.

Lemma hash_ok_nonempty h l : hash_ok h l -> h <> ∅.
Proof. intros [_ Hr _ _ _ _] ->. by rewrite lookup_empty in Hr. Qed.

(** The counters of a check, and of a history, within the limit. *)
Definition small (l : list Proxy) : Prop :=
  (seen_requests l < INT_LIMIT)%N /\ (seen_errors l < INT_LIMIT)%N.

Lemma small_snoc l p : small (l ++ [p]) -> small l /\ small [p].
Proof.
  unfold small, seen_requests, seen_errors. rewrite !total_N_snoc. cbn [total_N foldr]. lia.
Qed.

Lemma num_int cur field n : (n < INT_LIMIT)%N -> cur !! field = Some (show_N n) -> num tonumber cur field = f_of_N n.
Proof using tonumber_int. intros Hn E. unfold num. rewrite E. cbn [mbind option_bind]. by rewrite tonumber_int. Qed.

Lemma num_float cur field x : f_is_nan x = false -> cur !! field = Some (number_text x) -> num tonumber cur field = x.
Proof using tonumber_text. intros Hx E. unfold num. rewrite E. cbn [mbind option_bind]. by rewrite tonumber_text. Qed.

(** The fields of the script on a hash that mirrors the checks [l] so far. *)
Definition mirrors (cur : gmap bytes bytes) (l : list Proxy) : Prop :=
  (l = [] /\ cur = ∅) \/ (l <> [] /\ hash_ok cur l).

Definition numbers (l : list Proxy) : Prop := forall p, p ∈ l -> f_nonneg (avg_resp_time p) = true.

Lemma num_empty field : num tonumber ∅ field = f_of_N 0.
Proof. unfold num. by rewrite lookup_empty. Qed.

(** A counter of the script: exact. *)
Lemma counter_text cur l (f : list Proxy -> N) field n :
  (l = [] -> f l = 0%N) -> mirrors cur l ->
  (hash_ok cur l -> cur !! field = Some (show_N (f l))) -> (f l + n < INT_LIMIT)%N ->
  number_text (f_add (num tonumber cur field) (f_of_N n)) = show_N (f l + n).
Proof using tonumber_int text_int.
  intros H0 Hm Hf Hn. assert (num tonumber cur field = f_of_N (f l)) as ->.
  { destruct Hm as [[-> ->]|[_ Hok]]; [by rewrite num_empty, H0|]. apply num_int; [lia|by apply Hf]. }
  rewrite f_add_of_N by done. by apply text_int.
Qed.

Lemma script_ok now p cur l :
  mirrors cur l -> small (l ++ [p]) -> numbers (l ++ [p]) ->
  exists fields, script_fields (script_args now p) cur = Some fields /\
                 hash_ok (hset fields cur) (l ++ [p]).
Proof using codec_reads codec_empty tonumber_int tonumber_float tonumber_text text_int.
  intros Hm Hsm Hnn. destruct (small_snoc _ _ Hsm) as [Hl [Hp1 Hp2]].
  assert (f_nonneg (avg_resp_time p) = true) as Hlat by (apply Hnn, elem_of_app; right; left).
  assert (numbers l) as Hnl by (intros q Hq; apply Hnn, elem_of_app; by left).
  unfold Redis.script_fields, Redis.script_args. cbn [arg_host arg_port arg_types arg_sample arg_working arg_latency
    arg_now arg_requests arg_errors].
  rewrite (tonumber_float (sample_of p)) by (apply f_nonneg_not_nan, sample_nonneg). cbn [mbind option_bind].
  rewrite (tonumber_int (uptime_of p)) by (unfold uptime_of; case_match; done). cbn [mbind option_bind].
  rewrite (tonumber_float (avg_resp_time p)) by (by apply f_nonneg_not_nan). cbn [mbind option_bind].
  unfold seen_requests, seen_errors in Hp1, Hp2. cbn [total_N foldr] in Hp1, Hp2. rewrite N.add_0_r in Hp1, Hp2.
  rewrite !tonumber_int by done. cbn [mbind option_bind]. eexists. split; [reflexivity|].
  destruct Hsm as [Hs1 Hs2].
  unfold seen_requests, seen_errors in Hs1, Hs2. rewrite total_N_snoc in Hs1, Hs2.
  unfold hset. cbn [foldl fst snd].
  constructor; repeat (rewrite lookup_insert_ne by (vm_compute; discriminate)); rewrite ?lookup_insert_eq.
  - eexists. split; [reflexivity|]. rewrite seen_types_snoc.
    rewrite (bool_decide_ext _ _ (types_text_empty to_string from_str codec_reads codec_empty p)).
    case_bool_decide as Et; [|by rewrite types_codec_roundtrip].
    destruct Hm as [[-> ->]|[_ Hok]].
    + rewrite lookup_empty. cbn [default]. by rewrite types_codec_roundtrip.
    + destruct (h_types _ _ Hok) as (t & E & Ht). by rewrite E.
  - f_equal. rewrite (counter_text cur l seen_requests) by (done || by intros -> || apply h_requests).
    unfold seen_requests. by rewrite total_N_snoc.
  - f_equal. rewrite (counter_text cur l seen_errors) by (done || by intros -> || apply h_errors).
    unfold seen_errors. by rewrite total_N_snoc.
  - do 2 f_equal. destruct Hm as [[-> ->]|[Hne Hok]]; [done|].
    rewrite bool_decide_false by (by eapply hash_ok_nonempty). rewrite seen_ewma_snoc by done. f_equal.
    apply num_float; [apply f_nonneg_not_nan, seen_ewma_nonneg|by apply h_ewma].
  - do 2 f_equal. destruct Hm as [[-> ->]|[Hne Hok]]; [done|].
    rewrite bool_decide_false by (by eapply hash_ok_nonempty). rewrite seen_latency_snoc by done.
    assert (num tonumber cur (bs "avg_latency") = seen_latency l) as ->; [|done].
    apply num_float; [apply f_nonneg_not_nan, seen_latency_nonneg, Hnl|by apply h_latency].
  - rewrite seen_uptime_snoc. intros Hup. f_equal.
    rewrite (counter_text cur l (fun l => N.of_nat (seen_uptime l))) 
      by (done || by intros -> || (intros Hok; apply h_uptime; [done|lia])).
    done.
Qed.

(** ** The database mirrors the history *)

Record db_ok (ps : list Proxy) (d : RedisDb) : Prop := {
  db_hashes : forall k, key_wf k -> mirrors (default ∅ (hashes d !! proxy_key k.1 k.2)) (history_of k ps);
  db_members : forall m, m ∈ members d <-> exists k, m = member_of k /\ history_of k ps <> [];
  db_schema : schema d = Some SCHEMA_VERSION;
}.

Lemma history_small ps k : storable ps -> small (history_of k ps).
Proof.
  intros Hs. destruct (st_counts _ Hs k) as [Hr He]. unfold small.
  assert (u32_max < INT_LIMIT)%N by done. lia.
Qed.

Lemma history_numbers ps k : storable ps -> numbers (history_of k ps).
Proof. intros Hs p [_ Hp]%history_elem. by apply (st_timing _ Hs). Qed.

Lemma upsert_ok ps p d now :
  storable (ps ++ [p]) -> db_ok ps d ->
  exists d', upsert_script (proxy_key (host p) (port p)) (script_args now p) d = (Ok tt, d') /\
             db_ok (ps ++ [p]) d'.
Proof using codec_reads codec_empty tonumber_int tonumber_float tonumber_text text_int.
  intros Hs [Hh Hm Hv]. change (proxy_key (host p) (port p)) with (proxy_key (key_of p).1 (key_of p).2).
  assert (history_of (key_of p) (ps ++ [p]) = history_of (key_of p) ps ++ [p]) as Eh
    by (by rewrite history_of_snoc, decide_True).
  assert (key_wf (key_of p)) as Hkp by (apply (st_address _ Hs), elem_of_app; right; left).
  destruct (script_ok now p _ _ (Hh _ Hkp)) as (fields & Ef & Hok);
    [rewrite <-Eh; by apply history_small|rewrite <-Eh; by apply history_numbers|].
  unfold Redis.upsert_script. rewrite Ef. eexists. split; [reflexivity|]. constructor; cbn [hashes members schema]; [| |done].
  - intros k Hk. destruct (decide (k = key_of p)) as [->|Hne].
    + rewrite lookup_insert_eq. cbn [default]. rewrite Eh. right. split; [by destruct (history_of _ ps)|done].
    + rewrite lookup_insert_ne by (intros E; apply Hne; symmetry; by apply proxy_key_inj).
      rewrite history_of_snoc, decide_False, app_nil_r by congruence. by apply Hh.
  - intros m. change (arg_host _ ++ bs ":" ++ arg_port _) with (member_of (key_of p)).
    rewrite elem_of_union, elem_of_singleton, Hm. split.
    + intros [->|(k & -> & Hk)].
      * exists (key_of p). split; [done|]. rewrite Eh. by destruct (history_of _ ps).
      * exists k. split; [done|]. rewrite history_of_snoc. by destruct (history_of k ps).
    + intros (k & -> & Hk). rewrite history_of_snoc in Hk.
      destruct (decide (key_of p = k)) as [<-|Hne]; [by left|right]. rewrite app_nil_r in Hk. by exists k.
Qed.

(** ** Loading *)

Lemma restore_hash_ok k h l : key_wf k -> (seen_requests l <= u32_max)%N -> (seen_errors l <= u32_max)%N ->
  numbers l -> hash_ok h l -> restore_hash k h = Some (remembered k l).
Proof using parse_text.
  intros Hk Hr He Hn Hok. unfold Redis.restore_hash.
  rewrite bool_decide_false by (by eapply hash_ok_nonempty). destruct Hok as [(t & Et & Ht) Er Ee Ew El _].
  rewrite Et, Er, Ee, Ew, El. cbn [default mbind option_bind]. unfold parse_u32. rewrite !parse_show by done.
  rewrite !parse_text by (apply f_nonneg_not_nan; apply seen_ewma_nonneg || by apply seen_latency_nonneg).
  cbn [from_option id mbind option_bind]. unfold remembered. by rewrite Ht.
Qed.

Definition quiet (d : RedisDb) (now : N) : RedisStore := {| db := d; r_clock := now; net := [] |}.

Lemma load_members_quiet ks ps d now :
  storable ps -> db_ok ps d -> (forall k, k ∈ ks -> history_of k ps <> []) ->
  load_members (member_of <$> ks) (quiet d now) =
    (Ok ((fun k => remembered k (history_of k ps)) <$> ks), quiet d now).
Proof using parse_text.
  intros Hs [Hh _ _]. induction ks as [|k ks IH]; intros Hks; [done|]. cbn [fmap list_fmap Redis.load_members].
  assert (history_of k ps <> []) as Hk by (apply Hks; left).
  pose proof (history_key_wf _ _ Hs Hk) as Hwf.
  rewrite (member_address_show k Hwf). unfold round_trip, read_only. cbn [net quiet db r_clock tail].
  fold (quiet d now). rewrite IH by (intros; apply Hks; by right).
  destruct (Hh k Hwf) as [[E _]|[_ Hok]]; [done|]. destruct (st_counts _ Hs k).
  rewrite (restore_hash_ok k _ (history_of k ps)) by (done || by apply history_numbers). done.
Qed.

Lemma redis_load_exact ps d now : storable ps -> db_ok ps d ->
  exists l, redis_load from_str parse_f64 (quiet d now) = Ok l /\ remembers_exactly ps l.
Proof using parse_text.
  intros Hs Hd. unfold redis_load, round_trip, read_only. cbn [net quiet db r_clock tail]. fold (quiet d now).
  assert (exists ks : list (IpAddr * N), elements (members d) = member_of <$> ks /\ NoDup ks /\
            forall k, k ∈ ks <-> history_of k ps <> []) as (ks & -> & Hnd & Hks).
  { pose proof (NoDup_elements (members d)) as Hn.
    assert (forall m, m ∈ elements (members d) -> exists k, m = member_of k /\ history_of k ps <> []) as Hall
      by (intros m; rewrite elem_of_elements; apply Hd).
    assert (forall l : list bytes, (forall m, m ∈ l -> exists k, m = member_of k /\ history_of k ps <> []) ->
              exists ks : list (IpAddr * N), l = member_of <$> ks /\ forall k, k ∈ ks -> history_of k ps <> []) as Hpre.
    { induction l as [|m l IH]; intros Hl; [exists []; split; [done|]; by intros k ?%not_elem_of_nil|].
      destruct (Hl m) as (k & -> & Hk); [left|]. destruct IH as (ks & -> & Hin); [intros; apply Hl; by right|].
      exists (k :: ks). split; [done|]. intros k'. rewrite elem_of_cons. intros [->|]; auto. }
    destruct (Hpre _ Hall) as (ks & E & Hin). exists ks. rewrite E in Hn. split_and!; [done|by eapply NoDup_fmap_1|].
    intros k. split; [apply Hin|]. intros Hk.
    assert (member_of k ∈ member_of <$> ks) as Hm by (rewrite <-E; apply elem_of_elements, Hd; eauto).
    apply list_elem_of_fmap in Hm as (k' & Ek & Hk'). apply member_of_inj in Ek as ->; [done|..];
      eapply history_key_wf; eauto. }
  rewrite (load_members_quiet ks ps) by (done || by intros; apply Hks). cbn [fst]. eexists. split; [done|]. split.
  - rewrite <-list_fmap_compose. rewrite (list_fmap_ext _ id); [by rewrite list_fmap_id|]. by intros i [h pt] _.
  - intros q. rewrite list_elem_of_fmap. split; [intros (k & -> & Hk)|intros (k & Hk & ->)]; exists k;
      (split; [|done]) || (split; [done|]); by apply Hks.
Qed.

Lemma redis_upsert_all ps : forall qs d, db_ok qs d -> storable (qs ++ ps) ->
  exists d', @upsert_all _ (redis_store to_string from_str show_f64 parse_f64 tonumber number_text script_error)
               ps (quiet d 0) = (Ok tt, quiet d' 0) /\ db_ok (qs ++ ps) d'.
Proof using codec_reads codec_empty tonumber_int tonumber_float tonumber_text text_int.
  induction ps as [|p ps IH]; intros qs d Hd Hs.
  - exists d. by rewrite app_nil_r.
  - replace (qs ++ p :: ps) with ((qs ++ [p]) ++ ps) in Hs |- * by (by rewrite <-app_assoc).
    pose proof (storable_app _ _ Hs) as Hs1.
    destruct (upsert_ok _ p d 0 Hs1 Hd) as (d1 & Eu & Hd1).
    cbn [upsert_all upsert redis_store]. unfold Redis.redis_upsert, round_trip. cbn [net quiet db r_clock tail].
    rewrite Eu. by apply IH.
Qed.

Lemma db_ok_empty : db_ok [] (db redis_new).
Proof using Type.
  clear -from_str number_text.
  constructor.
  - intros k _. left. split; [done|]. cbn. by rewrite lookup_empty.
  - intros m. cbn. split; [set_solver|]. by intros (k & _ & []).
  - done.
Qed.

Lemma redis_laws :
  @StoreLaws RedisStore (redis_store to_string from_str show_f64 parse_f64 tonumber number_text script_error).
Proof using codec_reads codec_empty tonumber_int tonumber_float tonumber_text text_int parse_text.
  constructor. intros ps Hs.
  destruct (redis_upsert_all ps [] (db redis_new)) as (d & Hu & Hd); [apply db_ok_empty|done|].
  destruct (redis_load_exact ps d 0 Hs Hd) as (l & Hl & Hr).
  exists (quiet d 0), l. by split_and!.
Qed.

(** Opening the database again finds it as it was left. *)
Lemma reopen debug ps d now : db_ok ps d -> redis_open debug (quiet d now) = Ok (quiet d now).
Proof.
  intros [_ _ Hv]. unfold redis_open, round_trip, read_only. cbn [net quiet db r_clock tail]. rewrite Hv.
  rewrite bool_decide_true by done. destruct d as [hs ms sc]. simpl in Hv. by subst sc.
Qed.
End Redis.

(** C30.  The Redis store keeps the promise of the interface across a restart:
    where the number and JSON texts round-trip as documented, after any
    storable sequence of checks every write is accepted, opening the same
    database again succeeds, and loading gives, in some order, exactly one
    proxy per address ever checked, with the latest confirmed types, the exact
    totals (although the script adds them in floating point) and the moving
    averages, as the in-memory store gives them. *)
Theorem redis_remembers (to_string : Json -> bytes) (from_str : bytes -> option Json)
    (show_f64 : f64 -> bytes) (parse_f64 : bytes -> option f64)
    (tonumber : bytes -> option f64) (number_text : f64 -> bytes) (script_error : bytes) (debug : bytes -> bytes)
    (codec_reads : forall p,
       from_str (types_to_json to_string p) = Some (JArr (type_json <$> types_entries p)))
    (codec_empty : to_string (JArr []) = bs "[]")
    (tonumber_int : forall n, (n < INT_LIMIT)%N -> tonumber (show_N n) = Some (f_of_N n))
    (tonumber_float : forall x, f_is_nan x = false -> tonumber (show_f64 x) = Some x)
    (tonumber_text : forall x, f_is_nan x = false -> tonumber (number_text x) = Some x)
    (parse_text : forall x, f_is_nan x = false -> parse_f64 (number_text x) = Some x)
    (text_int : forall n, (n < INT_LIMIT)%N -> number_text (f_of_N n) = show_N n) ps :
  storable ps ->
  exists s s' l m ml,
    @upsert_all _ (redis_store to_string from_str show_f64 parse_f64 tonumber number_text script_error)
      ps redis_new = (Ok tt, s) /\
    redis_open debug s = Ok s' /\ redis_load from_str parse_f64 s' = Ok l /\ remembers_exactly ps l /\
    upsert_all ps (store_new : MemoryStore) = (Ok tt, m) /\ load m = Ok ml /\ ml ≡ₚ l.
Proof.
  intros Hs. destruct (store_remembers (S := MemoryStore) ps Hs) as (m & ml & Hm & Hml & Hr).
  destruct (redis_upsert_all to_string from_str show_f64 parse_f64 tonumber number_text script_error
              codec_reads codec_empty tonumber_int tonumber_float tonumber_text text_int ps [] (db redis_new))
    as (d & Hu & Hd); [apply db_ok_empty|done|].
  destruct (redis_load_exact from_str parse_f64 number_text parse_text ps d 0 Hs Hd) as (l & Hl & Hrl).
  exists (quiet d 0), (quiet d 0), l, m, ml. split_and!; try done; [by eapply reopen|].
  by eapply remembers_exactly_unique.
Qed.

(** ** Concrete conversions *)

#[export] Instance f64_countable : Countable f64 :=
  inj_countable'
    (fun x => match x with
              | SpecFloat.S754_zero s => inl (inl s)
              | SpecFloat.S754_infinity s => inl (inr s)
              | SpecFloat.S754_nan => inr (inl tt)
              | SpecFloat.S754_finite s m e => inr (inr (s, m, e))
              end)
    (fun y => match y with
              | inl (inl s) => SpecFloat.S754_zero s
              | inl (inr s) => SpecFloat.S754_infinity s
              | inr (inl _) => SpecFloat.S754_nan
              | inr (inr (s, m, e)) => SpecFloat.S754_finite s m e
              end)
    ltac:(by intros [| | |]).

(** Integers in decimal, any other number by its code. *)
Definition tiny_text (x : f64) : bytes :=
  match int_of x with
  | Some n => show_N n
  | None => bs "f" ++ show_N (Npos (encode x))
  end.

Definition tiny_number (s : bytes) : option f64 :=
  match strip_prefix (bs "f") s with
  | Some r => match digits_value 10 0 r with Some (Npos p) => decode p | _ => None end
  | None => f_of_N <$> digits_value 10 0 s
  end.

Lemma tiny_number_int n : tiny_number (show_N n) = Some (f_of_N n).
Proof.
  unfold tiny_number. destruct (strip_prefix (bs "f") (show_N n)) as [r|] eqn:E.
  - exfalso. apply strip_prefix_Some in E. apply (show_N_no "f" n); [reflexivity|]. rewrite E. left.
  - by rewrite show_N_value.
Qed.

Lemma tiny_number_text x : tiny_number (tiny_text x) = Some x.
Proof.
  unfold tiny_text. destruct (int_of x) as [n|] eqn:E.
  - apply int_of_sound in E as [_ <-]. apply tiny_number_int.
  - unfold tiny_number. rewrite strip_prefix_app, show_N_value. apply decode_encode.
Qed.

Lemma tiny_text_int n : (n < INT_LIMIT)%N -> tiny_text (f_of_N n) = show_N n.
Proof. intros Hn. unfold tiny_text. by rewrite int_of_N. Qed.

Definition tiny_redis : Store RedisStore :=
  redis_store tiny_write tiny_read tiny_text tiny_number tiny_number tiny_text (bs "ERR").

Lemma redis_remembers_witness :
  let ps := [sample_check true; sample_check false] in
  exists s s' l m ml,
    @upsert_all _ tiny_redis ps redis_new = (Ok tt, s) /\
    redis_open id s = Ok s' /\ redis_load tiny_read tiny_number s' = Ok l /\ remembers_exactly ps l /\
    upsert_all ps (store_new : MemoryStore) = (Ok tt, m) /\ load m = Ok ml /\ ml ≡ₚ l.
Proof.
  intros ps. apply (redis_remembers tiny_write tiny_read tiny_text tiny_number tiny_number tiny_text (bs "ERR") id).
  - exact tiny_codec.
  - vm_compute. reflexivity.
  - intros n _. apply tiny_number_int.
  - intros x _. apply tiny_number_text.
  - intros x _. apply tiny_number_text.
  - intros x _. apply tiny_number_text.
  - exact tiny_text_int.
  - exact sample_storable.
Defined.

(** A total past [u32::MAX] reads back as zero, where the in-memory store keeps
    the maximum: [str::parse] refuses it. *)
Lemma overflow_reads_zero k h n :
  (u32_max < n)%N -> h !! bs "requests" = Some (show_N n) ->
  exists p, restore_hash tiny_read tiny_number k h = Some p /\ requests p = 0%N.
Proof.
  intros Hn E. unfold restore_hash. rewrite bool_decide_false by (intros ->; by rewrite lookup_empty in E).
  eexists. split; [reflexivity|]. cbn [requests with_ewma restored]. rewrite E. cbn [mbind option_bind].
  destruct (parse_u32 (show_N n)) as [m|] eqn:Ep; [|done]. exfalso.
  pose proof (parse_uint_bound _ _ _ Ep). unfold parse_u32 in Ep.
  pose proof (parse_show n n (N.le_refl n)) as Ev. unfold parse_uint in Ep, Ev.
  destruct (decide _) in Ep, Ev; [done|]. destruct (digits_value _ _ _) as [v|]; [|done]. cbn in Ep, Ev.
  destruct (v <=? u32_max)%N; [|done]. destruct (v <=? n)%N; [|done]. simplify_eq. lia.
Qed.

(** A database of another schema is refused. *)
Example other_schema :
  redis_open id {| db := {| hashes := ∅; members := ∅; schema := Some (bs "2") |}; r_clock := 0; net := [] |}
  = Err (Persist (schema_mismatch id (bs "2"))).
Proof. reflexivity. Qed.
