(* ===== verification/Scheduler.v ===== *)
(** * Adaptive re-checking: [src/scheduler.rs]

    The cadence, the decayed standing, and the re-check loop as a step relation
    over its bookkeeping, the live pool (which other tasks change at any time),
    the store it folds into (any [Store]) and the clock.  [powf], the random
    draws and the outcomes of the checks are parameters. *)

From stdpp Require Import base list gmap strings.
From Stdlib Require Import Ascii NArith ZArith Lia.
From S2P Require Import Prelude Bytes Text Float Net Types ProxyModel Pool Persist.

(** ** Configuration and cadence *)

Record RecheckConfig := {
  min_interval : duration;
  max_interval : duration;
  rate_per_sec : f64;
  decay_halflife : duration;
}.

Definition RecheckConfig_default : RecheckConfig :=
  {| min_interval := from_secs 60; max_interval := from_secs 3600; rate_per_sec := f_of_N 5;
     decay_halflife := from_secs 21600 |}.

(** [None]: the conversion to a duration panics. *)
Definition next_interval (ewma : f64) (cfg : RecheckConfig) : option duration :=
  let e := f_clamp ewma f_zero f_one in
  let lo := as_secs_f64 (min_interval cfg) in
  let hi := as_secs_f64 (max_interval cfg) in
  from_secs_f64 (f_add lo (f_mul e (f_sub hi lo))).

Definition EVICT_FLOOR : f64 := f_0_02.

Section Decay.
Context (powf : f64 -> f64 -> f64).

Definition decayed_score (ewma latency : f64) (age : duration) (cfg : RecheckConfig) : f64 :=
  let base := f_div (f_clamp ewma f_zero f_one) (f_add f_one (f_max latency f_zero)) in
  let hl := as_secs_f64 (decay_halflife cfg) in
  let decay := if f_lt f_zero hl then powf f_half (f_div (as_secs_f64 age) hl) else f_one in
  f_mul base decay.

Definition should_retry (ewma latency : f64) (age : duration) (cfg : RecheckConfig) : bool :=
  f_le EVICT_FLOOR (decayed_score ewma latency age cfg).
End Decay.

(** [draw] is the random number of [-0.5..=0.5]. *)
Definition jitter (draw : f64) (base : duration) : option duration :=
  from_secs_f64 (f_mul (as_secs_f64 base) (f_add f_one draw)).

Definition f_0_001 : f64 := f_ratio false 1 1000.

(** The least time between two starts. *)
Definition gap (cfg : RecheckConfig) : option duration :=
  from_secs_f64 (f_div f_one (f_max (rate_per_sec cfg) f_0_001)).

(** ** The loop *)

Definition Key : Type := IpAddr * N.

Record Scheduled := { due : instant; job_key : Key }.

(** Where the loop is: at its top, waiting for the soonest job, awaiting the
    check of an address, or over. *)
Inductive Phase : Type := Enrolling | Waiting | Probing (k : Key) | Stopped.

Section Loop.
Context {ST : Type} `{Store ST}.
Context (powf : f64 -> f64 -> f64) (cfg : RecheckConfig).
(** [checked p w q]: a check of [p] may answer [w] and leave the proxy as [q]. *)
Context (checked : Proxy -> bool -> Proxy -> Prop).

Record Sched := {
  pool : Pool;
  store : ST;
  heap : list Scheduled;
  ewma : gmap Key f64;
  last_ok : gmap Key instant;
  retrying : gset Key;
  next_start : instant;
  clock : instant;
  phase : Phase;
  starts : list instant;     (** the start times granted so far, newest first; a job begins then or later *)
}.

Definition spawn_rechecker (w : Pool) (s : ST) (now : instant) : Sched :=
  {| pool := w; store := s; heap := []; ewma := ∅; last_ok := ∅; retrying := ∅; next_start := now;
     clock := now; phase := Enrolling; starts := [] |}.

Definition set_phase (ph : Phase) (st : Sched) : Sched :=
  {| pool := pool st; store := store st; heap := heap st; ewma := ewma st; last_ok := last_ok st;
     retrying := retrying st; next_start := next_start st; clock := clock st; phase := ph;
     starts := starts st |}.
Definition set_world (w : Pool) (now : instant) (st : Sched) : Sched :=
  {| pool := w; store := store st; heap := heap st; ewma := ewma st; last_ok := last_ok st;
     retrying := retrying st; next_start := next_start st; clock := now; phase := phase st;
     starts := starts st |}.
Definition set_books (h : list Scheduled) (e : gmap Key f64) (l : gmap Key instant) (r : gset Key)
    (st : Sched) : Sched :=
  {| pool := pool st; store := store st; heap := h; ewma := e; last_ok := l; retrying := r;
     next_start := next_start st; clock := clock st; phase := phase st; starts := starts st |}.
Definition set_start (start_at next : instant) (st : Sched) : Sched :=
  {| pool := pool st; store := store st; heap := heap st; ewma := ewma st; last_ok := last_ok st;
     retrying := retrying st; next_start := next; clock := clock st; phase := phase st;
     starts := start_at :: starts st |}.
Definition set_store (s : ST) (st : Sched) : Sched :=
  {| pool := pool st; store := s; heap := heap st; ewma := ewma st; last_ok := last_ok st;
     retrying := retrying st; next_start := next_start st; clock := clock st; phase := phase st;
     starts := starts st |}.

(** One address of the pool: entered in the books if it is not there. *)
Definition enroll_one (draws : Key -> f64) (st : Sched) (k : Key) : option Sched :=
  match ewma st !! k with
  | Some _ => Some st
  | None =>
      j ← jitter (draws k) (min_interval cfg);
      Some (set_books ({| due := clock st + j; job_key := k |} :: heap st)
              (<[k := f_one]> (ewma st)) (<[k := clock st]> (last_ok st)) (retrying st) st)
  end%N.

Fixpoint enroll_all (draws : Key -> f64) (ks : list Key) (st : Sched) : option Sched :=
  match ks with
  | [] => Some st
  | k :: ks' => st' ← enroll_one draws st k; enroll_all draws ks' st'
  end.

Definition enroll (draws : Key -> f64) (st : Sched) : option Sched :=
  enroll_all draws (elements (addrs (pool st))) st.

(** A job has been popped at the start time granted to it. *)
Definition begin (k : Key) (rest : list Scheduled) (st : Sched) : Sched :=
  if negb (bool_decide (k ∈ retrying st)) && negb (bool_decide (k ∈ addrs (pool st)))
  then set_phase Enrolling (set_books rest (delete k (ewma st)) (delete k (last_ok st)) (retrying st) st)
  else set_phase (Probing k) (set_books rest (ewma st) (last_ok st) (retrying st) st).

(** The check of [k] answered [w] and left [q]. *)
Definition finish (k : Key) (w : bool) (q : Proxy) (draw : f64) (st : Sched) : option Sched :=
  let st := set_store (upsert q (store st)).2 st in
  let e := smooth (default f_one (ewma st !! k)) (if w then f_one else f_zero) in
  let ew := <[k := e]> (ewma st) in
  let now := clock st in
  interval ← next_interval e cfg;
  j ← jitter draw (min_interval cfg);
  let job := {| due := now + interval + j; job_key := k |}%N in
  Some (if w then
          set_world (add q (pool st)) now
            (set_books (job :: heap st) ew (<[k := now]> (last_ok st)) (retrying st ∖ {[k]}) st)
        else
          let st := set_world (remove k.1 k.2 (pool st)).2 now st in
          let age := (now - default now (last_ok st !! k))%N in
          if should_retry powf e (avg_resp_time q) age cfg
          then set_books (job :: heap st) ew (last_ok st) ({[k]} ∪ retrying st) st
          else set_books (heap st) (delete k ew) (delete k (last_ok st)) (retrying st ∖ {[k]}) st).

Inductive sched_step : Sched -> Sched -> Prop :=
  | T_enroll draws st st' :
      phase st = Enrolling -> enroll draws st = Some st' -> sched_step st (set_phase Waiting st')
  (* nothing is due: back to the top after a while *)
  | T_again st :
      phase st = Waiting -> Forall (fun job => clock st < due job)%N (heap st) ->
      sched_step st (set_phase Enrolling st)
  (* the soonest job is due, and starts when the rate allows *)
  | T_start st h1 job h2 g now :
      phase st = Waiting -> heap st = h1 ++ job :: h2 ->
      Forall (fun other => due job <= due other)%N (h1 ++ h2) -> (due job <= clock st)%N ->
      gap cfg = Some g ->
      let start_at := N.max (next_start st) (clock st) in
      (start_at <= now)%N ->
      sched_step st (begin (job_key job) (h1 ++ h2)
                       (set_start start_at (start_at + g)%N (set_world (pool st) now st)))
  | T_finish st k w q draw st' :
      phase st = Probing k -> checked (Proxy_new k.1 k.2 ∅) w q -> finish k w q draw st = Some st' ->
      sched_step st (set_phase Enrolling st')
  (* a conversion to a duration panicked, or the handle was dropped *)
  | T_stop st : sched_step st (set_phase Stopped st)
  (* the other tasks *)
  | T_others st w now : (clock st <= now)%N -> sched_step st (set_world w now st).

Inductive sched_reachable (w : Pool) (s : ST) (now : instant) : Sched -> Prop :=
  | sched_init : sched_reachable w s now (spawn_rechecker w s now)
  | sched_next st st' : sched_reachable w s now st -> sched_step st st' -> sched_reachable w s now st'.
End Loop.
