(* ===== verification/SchedulerProofs.v ===== *)
(** * What the re-check loop promises: [src/scheduler.rs]

    Every address in the books is scheduled exactly once and none is lost; the
    starts keep their rate; and what a finished re-check does. *)

From stdpp Require Import base list gmap strings.
From Stdlib Require Import Ascii NArith ZArith Lia.
From S2P Require Import Prelude Bytes Text Float Net Types ProxyModel Pool PoolProofs Persist Scheduler.

(** The entries of the pool after a re-check of [k] that left [q]: a working
    proxy is added unless its address is pooled, a failed one's entries go. *)
Definition entries_after (k : Key) (w : bool) (q : Proxy) (l : list Pooled) : list Pooled :=
  if w then (if decide (k ∈ entry_key <$> l) then l else l ++ [fresh_entry q])
  else filter (fun e => entry_key e <> k) l.

Lemma elem_of_entry_keys pl k : k ∈ addrs pl <-> k ∈ entry_key <$> state pl.
Proof. apply elem_of_list_to_set. Qed.

Lemma add_entries k q pl : key_of q = k -> state (add q pl) = entries_after k true q (state pl).
Proof.
  intros <-. rewrite add_cases. unfold entries_after. pose proof (elem_of_entry_keys pl (key_of q)).
  repeat case_decide; tauto.
Qed.

Lemma remove_entries k q pl : state (remove k.1 k.2 pl).2 = entries_after k false q (state pl).
Proof. destruct k. apply remove_state. Qed.

Lemma elem_of_entries_after k w q l k' :
  key_of q = k -> k' ∈ entry_key <$> entries_after k w q l <-> (if decide (k' = k) then w = true else k' ∈ entry_key <$> l).
Proof.
  intros Hq. unfold entries_after. destruct w.
  - case_decide as Hin; [case_decide; naive_solver|]. rewrite fmap_app, elem_of_app. cbn [fmap list_fmap].
    rewrite list_elem_of_singleton. change (entry_key (fresh_entry q)) with (key_of q). rewrite Hq. case_decide; naive_solver.
  - rewrite list_elem_of_fmap. setoid_rewrite list_elem_of_filter. case_decide.
    + split; [intros (x & ? & ? & _); congruence|done].
    + rewrite list_elem_of_fmap. split; intros (x & ? & ?); exists x; intuition congruence.
Qed.

Section Proofs.
Context {ST : Type} `{Store ST} (powf : f64 -> f64 -> f64) (cfg : RecheckConfig).
Context (checked : Proxy -> bool -> Proxy -> Prop).

Notation Sched := (@Sched ST).
Notation sched_step := (sched_step powf cfg checked).
Notation sched_reachable := (sched_reachable powf cfg checked).

(** The addresses that have a job, or are being checked right now. *)
Definition probing (st : Sched) : list Key := match phase st with Probing k => [k] | _ => [] end.
Definition scheduled (st : Sched) : list Key := probing st ++ (job_key <$> heap st).
Definition tracked (st : Sched) (k : Key) : Prop := is_Some (ewma st !! k).

Record books_ok (st : Sched) : Prop := {
  bk_once : NoDup (scheduled st);
  bk_tracked : forall k, k ∈ scheduled st <-> tracked st k;
  bk_last_ok : forall k, is_Some (last_ok st !! k) <-> tracked st k;
  bk_retrying : forall k, k ∈ retrying st -> tracked st k;
}.

Lemma books_ok_ext st st' :
  probing st' = probing st -> heap st' = heap st -> ewma st' = ewma st -> last_ok st' = last_ok st ->
  retrying st' = retrying st -> books_ok st -> books_ok st'.
Proof.
  intros Hp Hh He Hl Hr [Ho Ht Hlo Hre]. unfold scheduled, tracked in *.
  constructor; unfold scheduled, tracked; by rewrite ?Hp, ?Hh, ?He, ?Hl, ?Hr.
Qed.

Lemma books_ok_spawn w s now : books_ok (spawn_rechecker w s now).
Proof.
  constructor; cbn; [constructor|..]; intros k; unfold tracked; cbn;
    rewrite ?lookup_empty, ?elem_of_nil, ?elem_of_empty, ?is_Some_alt; done.
Qed.

Lemma is_Some_insert {A} (m : gmap Key A) k k' x : is_Some (<[k := x]> m !! k') <-> k' = k \/ is_Some (m !! k').
Proof.
  destruct (decide (k' = k)) as [->|Hk].
  - rewrite lookup_insert_eq. split; [by left|eauto].
  - rewrite lookup_insert_ne by done. tauto.
Qed.

Lemma is_Some_delete {A} (m : gmap Key A) k k' : is_Some (delete k m !! k') <-> k' <> k /\ is_Some (m !! k').
Proof.
  destruct (decide (k' = k)) as [->|Hk].
  - rewrite lookup_delete_eq. split; [by intros []|by intros []].
  - rewrite lookup_delete_ne by done. tauto.
Qed.

(** ** Enrolling *)

Lemma enroll_one_ok draws st k st' :
  phase st = Enrolling -> books_ok st -> enroll_one cfg draws st k = Some st' ->
  books_ok st' /\ phase st' = Enrolling /\ starts st' = starts st /\ next_start st' = next_start st /\
  clock st' = clock st.
Proof.
  intros Hph Hb. unfold enroll_one. destruct (ewma st !! k) as [e|] eqn:E; [by intros [= <-]|].
  destruct (jitter _ _) as [j|]; [|done]. simpl. intros [= <-]. split; [|done].
  destruct Hb as [Ho Ht Hl Hr]. unfold scheduled, probing in *. rewrite Hph in *. cbn [app] in *.
  constructor; unfold scheduled, probing, tracked; cbn; rewrite ?Hph; cbn.
  - constructor; [|done]. rewrite Ht. unfold tracked. rewrite E. by intros [].
  - intros k'. rewrite is_Some_insert, elem_of_cons. unfold tracked in Ht. by rewrite Ht.
  - intros k'. rewrite !is_Some_insert. unfold tracked in Hl. by rewrite Hl.
  - intros k' Hk'. rewrite is_Some_insert. right. by apply Hr.
Qed.

Lemma enroll_all_ok draws ks st st' :
  phase st = Enrolling -> books_ok st -> enroll_all cfg draws ks st = Some st' ->
  books_ok st' /\ phase st' = Enrolling /\ starts st' = starts st /\ next_start st' = next_start st /\
  clock st' = clock st.
Proof.
  revert st. induction ks as [|k ks IH]; intros st Hph Hb; simpl; [by intros [= <-]|].
  destruct (enroll_one cfg draws st k) as [st1|] eqn:E; [|done]. simpl. intros Hrest.
  destruct (enroll_one_ok _ _ _ _ Hph Hb E) as (Hb1 & Hph1 & Hs & Hn & Hc).
  destruct (IH _ Hph1 Hb1 Hrest) as (Hb2 & Hph2 & Hs2 & Hn2 & Hc2). split; [done|]. by rewrite Hs2, Hn2, Hc2.
Qed.

(** ** Starting and finishing *)

Lemma begin_books st h1 job h2 :
  phase st = Waiting -> heap st = h1 ++ job :: h2 -> books_ok st ->
  books_ok (begin (job_key job) (h1 ++ h2) st).
Proof.
  intros Hph Hh [Ho Ht Hl Hr]. unfold scheduled, probing in *. rewrite Hph, Hh in *. cbn [app] in *.
  rewrite fmap_app, fmap_cons in *. set (k := job_key job) in *.
  assert ((job_key <$> h1) ++ k :: (job_key <$> h2) ≡ₚ k :: (job_key <$> h1) ++ (job_key <$> h2)) as Hperm
    by (by rewrite Permutation_middle).
  assert (NoDup (k :: (job_key <$> h1) ++ (job_key <$> h2))) as Hnd by (by rewrite <-Hperm).
  assert (forall k', k' = k \/ k' ∈ (job_key <$> h1) ++ (job_key <$> h2) <-> tracked st k') as Ht'.
  { intros k'. rewrite <-Ht, Hperm, elem_of_cons. done. }
  apply NoDup_cons in Hnd as Hnd'. destruct Hnd' as [Hk Hnd'].
  unfold begin. destruct (negb _ && _) eqn:Ed; constructor; unfold scheduled, probing, tracked; cbn;
    rewrite ?fmap_app; try done.
  - intros k'. rewrite is_Some_delete. unfold tracked in Ht'. rewrite <-Ht'. split; [|naive_solver].
    intros Hin. split; [by intros ->|by right].
  - intros k'. rewrite !is_Some_delete, Hl. done.
  - intros k' Hk'. rewrite is_Some_delete. split; [|by apply Hr]. intros ->.
    apply andb_true_iff in Ed as [Ed _]. by bool_destruct.
  - intros k'. rewrite elem_of_cons. apply Ht'.
Qed.

Lemma finish_books k w q draw st st' :
  phase st = Probing k -> books_ok st -> finish powf cfg k w q draw st = Some st' ->
  books_ok (set_phase Enrolling st').
Proof.
  intros Hph [Ho Ht Hl Hr]. unfold scheduled, probing in *. rewrite Hph in *. cbn [app] in *.
  apply NoDup_cons in Ho as Ho'. destruct Ho' as [Hk Hnd].
  assert (tracked st k) as Hkt by (apply Ht; left).
  unfold finish. destruct (next_interval _ _) as [iv|]; [|done]. cbn [mbind option_bind].
  destruct (jitter _ _) as [j|]; [|done]. cbn [mbind option_bind].
  destruct w; [|destruct (should_retry _ _ _ _ _)]; intros [= <-];
    constructor; unfold scheduled, probing, tracked; cbn; try done.
  - intros k'. rewrite Ht, is_Some_insert. unfold tracked in *. naive_solver.
  - intros k'. rewrite !is_Some_insert. unfold tracked in Hl. by rewrite Hl.
  - intros k' Hk'. rewrite is_Some_insert. right. apply Hr. set_solver.
  - intros k'. rewrite Ht, is_Some_insert. unfold tracked in *. naive_solver.
  - intros k'. rewrite Hl, is_Some_insert. unfold tracked in *. naive_solver.
  - intros k' Hk'. rewrite is_Some_insert. apply elem_of_union in Hk' as [Hk'|Hk']; [left; set_solver|right; by apply Hr].
  - intros k'. rewrite is_Some_delete, is_Some_insert. unfold tracked in Ht. specialize (Ht k').
    rewrite elem_of_cons in Ht. split; [intros Hin; split; [by intros ->|right; apply Ht; by right]|].
    intros [Hne [?|Hs]]; [done|]. apply Ht in Hs as [?|?]; done.
  - intros k'. rewrite !is_Some_delete, is_Some_insert, Hl. unfold tracked. naive_solver.
  - intros k' Hk'. rewrite is_Some_delete, is_Some_insert. split; [set_solver|]. right. apply Hr. set_solver.
Qed.

(** ** The rate *)

Fixpoint spaced (g : N) (l : list N) : Prop :=
  match l with
  | a :: (b :: _) as l' => (b + g <= a)%N /\ spaced g l'
  | _ => True
  end.

Record rate_ok (st : Sched) : Prop := {
  rt_spaced : forall g, gap cfg = Some g ->
    spaced g (starts st) /\ forall a, head (starts st) = Some a -> (a + g <= next_start st)%N;
  rt_past : Forall (fun a => a <= clock st)%N (starts st);
}.
Lemma rate_ok_frame st st' :
  starts st' = starts st -> next_start st' = next_start st -> (clock st <= clock st')%N ->
  rate_ok st -> rate_ok st'.
Proof.
  intros Hs Hn Hc [Hsp Hp]. constructor; rewrite ?Hs, ?Hn; [done|].
  eapply Forall_impl; [exact Hp|]. simpl. intros; lia.
Qed.

Lemma rate_ok_start st g now :
  gap cfg = Some g -> (N.max (next_start st) (clock st) <= now)%N -> rate_ok st ->
  rate_ok (set_start (N.max (next_start st) (clock st)) (N.max (next_start st) (clock st) + g)%N
             (set_world (pool st) now st)).
Proof.
  intros Hg Hnow [Hsp Hp]. constructor; cbn.
  - intros g' Hg'. assert (g' = g) as -> by congruence. destruct (Hsp g Hg) as [Hs Hh]. split.
    + destruct (starts st) as [|a l]; [done|]. split; [|done]. specialize (Hh a eq_refl). lia.
    + intros a [= <-]. lia.
  - constructor; [lia|]. eapply Forall_impl; [exact Hp|]. simpl. intros; lia.
Qed.

Lemma finish_frame k w q draw st st' : finish powf cfg k w q draw st = Some st' ->
  starts st' = starts st /\ next_start st' = next_start st /\ clock st' = clock st.
Proof.
  unfold finish. destruct (next_interval _ _) as [iv|]; [|done]. cbn [mbind option_bind].
  destruct (jitter _ _) as [j|]; [|done]. cbn [mbind option_bind].
  destruct w; [|destruct (should_retry _ _ _ _ _)]; by intros [= <-].
Qed.

Lemma step_ok st st' : sched_step st st' ->
  (phase st <> Stopped -> books_ok st) -> rate_ok st ->
  (phase st' <> Stopped -> books_ok st') /\ rate_ok st'.
Proof.
  intros Hs Hb Hr. destruct Hs as [draws st st1 Hph He|st Hph Hd|st h1 job h2 g now Hph Hh Hmin Hdue Hg start_at Hnow
    |st k w q draw st1 Hph Hck Hf|st|st w now Hnow].
  - destruct (enroll_all_ok _ _ _ _ Hph (Hb ltac:(by rewrite Hph)) He) as (Hb' & Hph' & Hs & Hn & Hc). split.
    + intros _. eapply books_ok_ext, Hb'; try done. unfold probing; cbn. by rewrite Hph'.
    + eapply rate_ok_frame, Hr; cbn; [done|done|lia].
  - split; [|eapply rate_ok_frame, Hr; done].
    intros _. eapply books_ok_ext, Hb; try done; [unfold probing; cbn; by rewrite Hph|by rewrite Hph].
  - pose proof (rate_ok_start _ _ _ Hg Hnow Hr) as Hr'.
    assert (books_ok (set_start start_at (start_at + g)%N (set_world (pool st) now st))) as Hb'.
    { eapply books_ok_ext, Hb; try done. by rewrite Hph. }
    split; [intros _; by apply (begin_books _ h1 job h2)|].
    eapply rate_ok_frame, Hr'; unfold begin; by destruct (_ && _).
  - destruct (finish_frame _ _ _ _ _ _ Hf) as (Hs & Hn & Hc). split.
    + intros _. eapply finish_books; [exact Hph| |exact Hf]. apply Hb. by rewrite Hph.
    + eapply rate_ok_frame, Hr; cbn; [done|done|lia].
  - split; [done|]. by eapply rate_ok_frame, Hr.
  - split; [|by eapply rate_ok_frame, Hr]. intros Hne. by eapply books_ok_ext, Hb.
Qed.

Lemma spaced_lookup g (l : list N) i n a b : spaced g l -> l !! i = Some a -> l !! (i + n) = Some b ->
  (b + N.of_nat n * g <= a)%N.
Proof.
  revert i a. induction n as [|n IH]; intros i a Hs Ha Hb.
  - rewrite Nat.add_0_r, Ha in Hb. injection Hb as <-. lia.
  - assert (exists c, l !! S i = Some c) as [c Hc].
    { apply lookup_lt_is_Some_2. apply lookup_lt_Some in Hb. lia. }
    rewrite <-Nat.add_succ_comm in Hb. specialize (IH _ _ Hs Hc Hb).
    assert (c + g <= a)%N; [|lia]. clear -Hs Ha Hc. revert i Ha Hc.
    induction l as [|x l IHl]; intros i Ha Hc; [done|]. destruct l as [|y l]; [by destruct i|].
    destruct Hs as [Hxy Hs]. destruct i as [|i]; [simpl in *; congruence|]. by apply (IHl Hs i).
Qed.

(** C31.  While the loop runs, every address in the books has exactly one job or
    is the one being checked, and nothing else has: no address is lost, none
    is scheduled twice, and the decay clocks and the marks of the retried
    addresses never outlive the address; and the starts keep the configured
    rate: [n] starts apart means at least [n] gaps apart, whatever the other
    tasks do to the pool. *)
Theorem rechecker_invariant w s now st :
  sched_reachable w s now st ->
  (phase st <> Stopped ->
     NoDup (scheduled st) /\ (forall k, k ∈ scheduled st <-> is_Some (ewma st !! k)) /\
     (forall k, is_Some (last_ok st !! k) <-> is_Some (ewma st !! k)) /\
     (forall k, k ∈ retrying st -> is_Some (ewma st !! k))) /\
  (forall g i n a b, gap cfg = Some g -> starts st !! i = Some a -> starts st !! (i + n) = Some b ->
     (b + N.of_nat n * g <= a)%N) /\
  Forall (fun a => a <= clock st)%N (starts st).
Proof.
  intros Hr. assert ((phase st <> Stopped -> books_ok st) /\ rate_ok st) as [Hb [Hsp Hp]].
  { induction Hr as [|st st' Hr [IH1 IH2] Hs]; [|by eapply step_ok].
    split; [intros _; apply books_ok_spawn|]. constructor; cbn; [|constructor]. by intros; split. }
  split; [|split; [|done]].
  - intros Hne. by destruct (Hb Hne).
  - intros g i n a b Hg. destruct (Hsp g Hg) as [Hs _]. by apply spaced_lookup.
Qed.

(** ** What a re-check does *)

(** C32.  A finished re-check is folded into the store whatever its outcome.  A
    working proxy is in the pool (its entry is a fresh one, unless its address is
    pooled), its decay clock starts again, it is no longer marked as retried, and it is
    scheduled again after the interval of its folded success rate.  A failed one is out
    of the pool; it stays scheduled, marked as retried and with its decay clock
    running on, exactly while its standing, decayed by the time since it last
    worked, is above the floor, and is forgotten otherwise.  No other address of
    the books or entry of the pool changes. *)
Theorem recheck_outcome k w q draw st st' :
  key_of q = k -> finish powf cfg k w q draw st = Some st' ->
  let e := smooth (default f_one (ewma st !! k)) (if w then f_one else f_zero) in
  let age := (clock st - default (clock st) (last_ok st !! k))%N in
  let kept := w || should_retry powf e (avg_resp_time q) age cfg in
  store st' = (upsert q (store st)).2 /\
  state (pool st') = entries_after k w q (state (pool st)) /\ (k ∈ addrs (pool st') <-> w = true) /\
  (forall k', k' <> k -> (k' ∈ addrs (pool st') <-> k' ∈ addrs (pool st)) /\
                         ewma st' !! k' = ewma st !! k' /\ last_ok st' !! k' = last_ok st !! k' /\
                         (k' ∈ retrying st' <-> k' ∈ retrying st)) /\
  ewma st' !! k = (if kept then Some e else None) /\
  last_ok st' !! k = (if w then Some (clock st) else if kept then last_ok st !! k else None) /\
  (k ∈ retrying st' <-> kept = true /\ w = false) /\
  exists interval j, next_interval e cfg = Some interval /\ jitter draw (min_interval cfg) = Some j /\
    heap st' = (if kept then [{| due := (clock st + interval + j)%N; job_key := k |}] else []) ++ heap st.
Proof using Type.
  clear checked.
  intros Hq. unfold finish. cbn zeta. cbn [clock store ewma pool last_ok set_store].
  set (e := smooth _ _). destruct (next_interval e cfg) as [iv|]; [|done]. cbn [mbind option_bind].
  destruct (jitter draw _) as [j|]; [|done]. cbn [mbind option_bind]. intros Hf.
  assert (state (pool st') = entries_after k w q (state (pool st))) as Hp.
  { destruct w; [injection Hf as <-; by apply add_entries|].
    destruct (should_retry _ _ _ _ _); injection Hf as <-; apply remove_entries. }
  assert (forall k', k' ∈ addrs (pool st') <-> if decide (k' = k) then w = true else k' ∈ addrs (pool st)) as Ha
    by (intros k'; rewrite (elem_of_entry_keys (pool st')), Hp, elem_of_entries_after by done;
        case_decide; [done|by rewrite elem_of_entry_keys]).
  split; [by destruct w; [|destruct (should_retry _ _ _ _ _)]; injection Hf as <-|]. split; [done|].
  split; [by rewrite Ha, decide_True|].
  assert (forall k', k' <> k -> k' ∈ addrs (pool st') <-> k' ∈ addrs (pool st)) as Ho
    by (intros k' Hk'; by rewrite Ha, decide_False).
  clear Ha Hp. destruct w; cbn [orb]; [|destruct (should_retry _ _ _ _ _) eqn:Es]; injection Hf as <-; cbn in *;
    (split; [intros k' Hk'; rewrite ?lookup_insert_ne, ?lookup_delete_ne, ?lookup_insert_ne by done;
             split_and!; [by apply Ho|done|done|set_solver]|]);
    rewrite ?lookup_delete_eq, ?lookup_insert_eq; split_and!; try done; try set_solver; by exists iv, j.
Qed.

(** The pool may lose the address while it is being re-checked, or while it is
    retried, because the user removed it: a working outcome brings it back. *)
Lemma removed_comes_back k q draw st st' :
  k ∉ addrs (pool st) -> key_of q = k -> finish powf cfg k true q draw st = Some st' ->
  k ∈ addrs (pool st').
Proof using Type.
  clear checked.
  intros _ Hq. unfold finish. cbn zeta.
  destruct (next_interval _ _) as [iv|]; [|done]. cbn [mbind option_bind].
  destruct (jitter _ _) as [j|]; [|done]. cbn [mbind option_bind]. intros [= <-]. cbn.
  unfold addrs, add. rewrite elem_of_list_to_set. destruct (existsb _ _) eqn:E.
  - apply existsb_exists in E as (x & Hx & Ex). bool_destruct. apply list_elem_of_fmap. exists x.
    split; [congruence|by apply list_elem_of_In].
  - cbn. rewrite fmap_app, elem_of_app. right. apply list_elem_of_singleton. by unfold entry_key; cbn.
Qed.
End Proofs.

(** ** A concrete loop *)

Definition sample_proxy : Proxy := Proxy_new (V4 10 0 0 1) 3128 ∅.
Definition sample_pool : Pool := set_state [fresh_entry sample_proxy] (empty_pool PoolConfig_default true).
Definition any_outcome (p : Proxy) (w : bool) (q : Proxy) : Prop := q = p.
Definition no_decay (x y : f64) : f64 := f_one.

Definition sample_spawned : @Sched MemoryStore := spawn_rechecker sample_pool ∅ 5%N.
Definition sample_enrolled : Sched :=
  default sample_spawned (enroll RecheckConfig_default (fun _ => f_zero) sample_spawned).
Definition sample_due : Sched := set_world sample_pool 60000000005%N (set_phase Waiting sample_enrolled).
Definition sample_started : Sched :=
  begin (V4 10 0 0 1, 3128%N) []
    (set_start 60000000005 60200000005 (set_world sample_pool 60000000005 sample_due))%N.

Lemma sample_reachable :
  sched_reachable no_decay RecheckConfig_default any_outcome sample_pool ∅ 5%N sample_started.
Proof.
  apply (sched_next _ _ _ _ _ _ sample_due).
  - apply (sched_next _ _ _ _ _ _ (set_phase Waiting sample_enrolled)).
    + apply (sched_next _ _ _ _ _ _ sample_spawned); [apply sched_init|].
      apply (T_enroll _ _ _ (fun _ => f_zero)); [done|]. vm_compute. reflexivity.
    + apply T_others. vm_compute. discriminate.
  - apply (T_start _ _ _ sample_due [] {| due := 60000000005; job_key := (V4 10 0 0 1, 3128) |}%N []
             200000000%N 60000000005%N).
    + reflexivity.
    + vm_compute. reflexivity.
    + constructor.
    + vm_compute. discriminate.
    + vm_compute. reflexivity.
    + vm_compute. discriminate.
Qed.

Lemma rechecker_invariant_witness :
  starts sample_started = [60000000005%N] /\
  (phase sample_started <> Stopped ->
     NoDup (scheduled sample_started) /\
     (forall k, k ∈ scheduled sample_started <-> is_Some (ewma sample_started !! k)) /\
     (forall k, is_Some (last_ok sample_started !! k) <-> is_Some (ewma sample_started !! k)) /\
     (forall k, k ∈ retrying sample_started -> is_Some (ewma sample_started !! k))) /\
  (forall g i n a b, gap RecheckConfig_default = Some g -> starts sample_started !! i = Some a ->
     starts sample_started !! (i + n) = Some b -> (b + N.of_nat n * g <= a)%N) /\
  Forall (fun a => a <= clock sample_started)%N (starts sample_started).
Proof.
  split; [vm_compute; reflexivity|].
  apply (rechecker_invariant no_decay RecheckConfig_default any_outcome sample_pool ∅ 5%N sample_started).
  exact sample_reachable.
Defined.

Definition sample_failed : @Sched MemoryStore :=
  default sample_started
    (finish no_decay RecheckConfig_default (V4 10 0 0 1, 3128%N) false sample_proxy f_zero sample_started).

Lemma recheck_outcome_witness :
  let k : Key := (V4 10 0 0 1, 3128%N) in
  let st := sample_started in
  let st' := sample_failed in
  let e := smooth (default f_one (ewma st !! k)) f_zero in
  let age := (clock st - default (clock st) (last_ok st !! k))%N in
  let kept := false || should_retry no_decay e (avg_resp_time sample_proxy) age RecheckConfig_default in
  store st' = (upsert sample_proxy (store st)).2 /\
  state (pool st') = entries_after k false sample_proxy (state (pool st)) /\ (k ∈ addrs (pool st') <-> false = true) /\
  (forall k', k' <> k -> (k' ∈ addrs (pool st') <-> k' ∈ addrs (pool st)) /\
                         ewma st' !! k' = ewma st !! k' /\ last_ok st' !! k' = last_ok st !! k' /\
                         (k' ∈ retrying st' <-> k' ∈ retrying st)) /\
  ewma st' !! k = (if kept then Some e else None) /\
  last_ok st' !! k = (if kept then last_ok st !! k else None) /\
  (k ∈ retrying st' <-> kept = true /\ false = false) /\
  exists interval j, next_interval e RecheckConfig_default = Some interval /\
    jitter f_zero (min_interval RecheckConfig_default) = Some j /\
    heap st' = (if kept then [{| due := (clock st + interval + j)%N; job_key := k |}] else []) ++ heap st.
Proof.
  intros k st st' e age kept.
  apply (recheck_outcome no_decay RecheckConfig_default k false sample_proxy f_zero st st');
    [reflexivity|vm_compute; reflexivity].
Defined.
