(* ===== verification/Watch.v ===== *)
(** * Live reload of the pool file: [src/watch.rs]

    [reconcile] over the pool's own operations, and the drain task's debounce
    as a function of what each tick sees.  The file watcher's events and the
    file's contents are inputs of the ticks. *)

From stdpp Require Import base list gmap strings.
From Stdlib Require Import Ascii NArith ZArith Lia.
From S2P Require Import Prelude Bytes Text Float Net Types ProxyModel Pool PoolProofs.

Definition DEBOUNCE : duration := from_millis 250.

Definition keys_of (ps : list Proxy) : gset (IpAddr * N) := list_to_set (key_of <$> ps).

Definition drop_unwanted (want : gset (IpAddr * N)) (current : list (IpAddr * N)) (w : Pool) : Pool :=
  foldl (fun w k => if bool_decide (k ∈ want) then w else (remove k.1 k.2 w).2) w current.

Definition add_missing (current : gset (IpAddr * N)) (desired : list Proxy) (w : Pool) : Pool :=
  foldl (fun w p => if bool_decide (key_of p ∈ current) then w else add p w) w desired.

Definition reconcile (desired : list Proxy) (w : Pool) : Pool :=
  let current := addrs w in
  add_missing current desired (drop_unwanted (keys_of desired) (elements current) w).

(** The drain task: since when a reload is pending, and the pool. *)
Record Watch := { pending : option instant; pool : Pool }.

(** One tick: the time, whether an event touched the file since the last one,
    and what re-reading the file gives ([None]: it cannot be read or parsed). *)
Definition tick (now : instant) (touched : bool) (reload : option (list Proxy)) (st : Watch) : Watch :=
  let pe := if touched then Some now else pending st in
  match pe with
  | Some since =>
      if (DEBOUNCE <=? now - since)%N
      then {| pending := None;
              pool := match reload with Some desired => reconcile desired (pool st) | None => pool st end |}
      else {| pending := pe; pool := pool st |}
  | None => {| pending := None; pool := pool st |}
  end.

(** ** What the operations of the pool do *)

#[local] Arguments remove : simpl never.
#[local] Arguments add : simpl never.

Lemma drop_unwanted_state want ks w e :
  e ∈ state (drop_unwanted want ks w) <-> e ∈ state w /\ (entry_key e ∈ ks -> entry_key e ∈ want).
Proof.
  revert w. induction ks as [|k ks IH]; intros w; unfold drop_unwanted; cbn [foldl].
  { split; [intros He; split; [done|by intros ?%not_elem_of_nil]|by intros []]. }
  fold (drop_unwanted want ks (if bool_decide (k ∈ want) then w else (remove k.1 k.2 w).2)).
  rewrite IH. setoid_rewrite elem_of_cons. case_bool_decide as Hk.
  - split; intros [He Hi]; (split; [done|]); [intros [-> | ?]; auto|auto].
  - rewrite (remove_elem k.1 k.2), <-surjective_pairing. split.
    + intros [[He Hne] Hi]. split; [done|]. intros [?|?]; [done|auto].
    + intros [He Hi]. split; [split; [done|]|auto]. intros <-. auto.
Qed.

Lemma add_missing_keep current ps w e : e ∈ state w -> e ∈ state (add_missing current ps w).
Proof.
  revert w. induction ps as [|p ps IH]; intros w He; simpl; [done|]. apply IH.
  case_bool_decide; [done|]. apply add_elem. by left.
Qed.

Lemma add_missing_new current ps w e : e ∈ state (add_missing current ps w) ->
  e ∈ state w \/ exists p, p ∈ ps /\ e = fresh_entry p /\ key_of p ∉ current.
Proof.
  revert w. induction ps as [|p ps IH]; intros w; simpl; [by left|]. intros He. apply IH in He as [He|(q & ? & ?)].
  - case_bool_decide; [by left|]. apply add_elem in He as [|[-> _]]; [by left|]. right. exists p. by rewrite elem_of_cons; auto.
  - right. exists q. rewrite elem_of_cons. auto.
Qed.

Lemma add_missing_has current ps w p : p ∈ ps -> key_of p ∉ current ->
  key_of p ∈ addrs (add_missing current ps w).
Proof.
  intros Hp Hk. revert w. induction Hp as [p ps|p q ps Hp IH]; intros w; simpl; [|by apply IH].
  rewrite bool_decide_false by done. apply elem_of_addrs.
  destruct (decide (key_of p ∈ addrs w)) as [Hin|Hni].
  - apply elem_of_addrs in Hin as (e & He & Ek). exists e. split; [|done].
    apply add_missing_keep, add_elem. by left.
  - exists (fresh_entry p). split; [|done]. apply add_missing_keep, add_elem. by right.
Qed.

Lemma add_missing_nodup current ps w :
  NoDup (entry_key <$> state w) -> NoDup (entry_key <$> state (add_missing current ps w)).
Proof.
  revert w. induction ps as [|p ps IH]; intros w Hn; simpl; [done|]. apply IH.
  case_bool_decide; [done|by apply add_NoDup].
Qed.

Lemma drop_unwanted_sublist want ks w : sublist (state (drop_unwanted want ks w)) (state w).
Proof.
  revert w. induction ks as [|k ks IH]; intros w; simpl; [done|]. etrans; [apply IH|].
  case_bool_decide; [done|]. apply filter_sublist.
Qed.

(** C39.  A reload makes the pool hold exactly the addresses of the file: pooled
    entries that the file still names keep everything they have (statistics
    and bench), the others are gone, and an address new to the pool joins as
    the file describes it, with no address twice; a second reload of the same
    file changes nothing. *)
Theorem reconcile_exact desired w :
  NoDup (entry_key <$> state w) ->
  let w' := reconcile desired w in
  addrs w' = keys_of desired /\
  (forall e, e ∈ state w -> entry_key e ∈ keys_of desired -> e ∈ state w') /\
  (forall e, e ∈ state w' -> e ∈ state w \/
     exists p, p ∈ desired /\ e = fresh_entry p /\ key_of p ∉ addrs w) /\
  NoDup (entry_key <$> state w') /\
  state (reconcile desired w') = state w'.
Proof.
  intros Hn. cbn zeta.
  assert (forall w, addrs (reconcile desired w) = keys_of desired) as Ha.
  { clear. intros w. apply set_eq. intros k. unfold keys_of at 1. rewrite elem_of_list_to_set, list_elem_of_fmap. split.
    - intros (e & He & <-)%elem_of_addrs. apply add_missing_new in He as [He|(p & Hp & -> & _)]; [|by exists p].
      apply drop_unwanted_state in He as [He Hi].
      assert (entry_key e ∈ keys_of desired) as Hk.
      { apply Hi, elem_of_elements, elem_of_addrs. by exists e. }
      unfold keys_of in Hk. by rewrite elem_of_list_to_set, list_elem_of_fmap in Hk.
    - intros (p & -> & Hp). destruct (decide (key_of p ∈ addrs w)) as [Hin|Hni]; [|by apply add_missing_has].
      apply elem_of_addrs in Hin as (e & He & Ek). apply elem_of_addrs. exists e. split; [|done].
      apply add_missing_keep, drop_unwanted_state. split; [done|]. intros _. rewrite Ek.
      unfold keys_of. rewrite elem_of_list_to_set, list_elem_of_fmap. by exists p. }
  split_and!.
  - apply Ha.
  - intros e He Hk. apply add_missing_keep, drop_unwanted_state. done.
  - intros e He. apply add_missing_new in He as [He|?]; [|by right]. apply drop_unwanted_state in He as [He _]. by left.
  - apply add_missing_nodup. eapply sublist_NoDup; [exact Hn|]. apply fmap_sublist, drop_unwanted_sublist.
  - set (w' := reconcile desired w). unfold reconcile at 1.
    assert (forall want ks, (forall k, k ∈ ks -> k ∈ want) -> drop_unwanted want ks w' = w') as Hd.
    { intros want ks. induction ks as [|k ks IH]; intros Hks; simpl; [done|].
      rewrite bool_decide_true by (apply Hks; left). apply IH. intros; apply Hks. by right. }
    rewrite Hd by (intros k; rewrite elem_of_elements; unfold w'; by rewrite Ha).
    assert (forall ps, (forall p, p ∈ ps -> key_of p ∈ addrs w') -> add_missing (addrs w') ps w' = w') as Hm.
    { intros ps. induction ps as [|p ps IH]; intros Hps; simpl; [done|].
      rewrite bool_decide_true by (apply Hps; left). apply IH. intros; apply Hps. by right. }
    rewrite Hm; [done|]. intros p Hp. unfold w'. rewrite Ha. unfold keys_of.
    apply elem_of_list_to_set, list_elem_of_fmap. by exists p.
Qed.

(** A file that cannot be read leaves the pool as it is, and so does a tick
    inside the debounce window. *)
Lemma tick_unreadable now touched st : pool (tick now touched None st) = pool st.
Proof. unfold tick. destruct (if touched then _ else _); [|done]. by destruct (_ <=? _)%N. Qed.

Lemma tick_burst now reload st : pool (tick now true reload st) = pool st /\ pending (tick now true reload st) = Some now.
Proof. unfold tick. by rewrite N.sub_diag. Qed.

Definition watch_proxy (n : N) : Proxy := Proxy_new (V4 10 0 0 n) 80 ∅.

Lemma reconcile_exact_witness :
  let w := set_state [fresh_entry (watch_proxy 1); fresh_entry (watch_proxy 2)] (empty_pool PoolConfig_default true) in
  let desired := [watch_proxy 2; watch_proxy 3] in
  let w' := reconcile desired w in
  addrs w' = keys_of desired /\
  (forall e, e ∈ state w -> entry_key e ∈ keys_of desired -> e ∈ state w') /\
  (forall e, e ∈ state w' -> e ∈ state w \/
     exists p, p ∈ desired /\ e = fresh_entry p /\ key_of p ∉ addrs w) /\
  NoDup (entry_key <$> state w') /\
  state (reconcile desired w') = state w'.
Proof.
  intros w desired. apply (reconcile_exact desired w).
  apply (bool_decide_eq_true_1 (NoDup (entry_key <$> state w))). vm_compute. reflexivity.
Defined.
