(* ===== verification/Cli.v ===== *)
(** * The command line: [src/bin/proxybroker.rs]

    The pure part of the binary: how flags become queries and pool
    configurations, how a served pool is warmed up from the stored history and
    a saved file, and the output formats.  Argument parsing ([clap]), logging,
    files and terminals are I/O; the JSON writer and the formatter of floats
    are parameters. *)

From stdpp Require Import base list gmap strings.
From Stdlib Require Import Ascii NArith ZArith Lia.
From S2P Require Import Prelude Bytes Text Float Net Utils Types ProxyModel ProxyJson Pool Persist PersistProofs.
From S2P Require Import Checker Broker.

(** ** Flags *)

Inductive SelectStrategy : Type := SelBest | SelRoundRobin | SelRandom | SelSticky.

Definition to_server (s : SelectStrategy) : Strategy :=
  match s with
  | SelBest => Best | SelRoundRobin => RoundRobin | SelRandom => Random | SelSticky => Sticky
  end.

(** Not a number that fits, or zero. *)
Inductive PositiveError : Type := InvalidInteger | ValueIsZero.

Definition parse_positive_usize (s : bytes) : result PositiveError N :=
  match parse_u64 s with
  | None => Err InvalidInteger
  | Some 0%N => Err ValueIsZero
  | Some n => Ok n
  end.

Inductive RetryOn : Type := OnTimeout | OnTransient | OnAll.

Definition ALL_RETRYABLE : gset ProxyError := {[Timeout; Reset; ConnFailed; EmptyRecv; BadStatus]}.

Definition retry_policy (max_tries : nat) (on : RetryOn) (backoff_ms : N) : RetryPolicy :=
  let p := match on with
           | OnTimeout => tries max_tries
           | OnTransient => transient max_tries
           | OnAll => with_tries max_tries ALL_RETRYABLE
           end in
  {| Checker.max_tries := Checker.max_tries p; retry_on := retry_on p; backoff := from_millis backoff_ms;
     factor := factor p; jitter := jitter p; max_backoff := max_backoff p |}.

Definition types_from (protos : list Proto) (lvl : list AnonLevel) : list TypeSpec :=
  let levels := if bool_decide (lvl = []) then None else Some lvl in
  (fun p => {| spec_proto := p; spec_levels := levels |}) <$> protos.

(** The flags of [serve] that reach the pool and the queries. *)
Record ServeArgs := {
  a_types : list Proto;
  a_lvl : list AnonLevel;
  a_limit : nat;
  a_dnsbl : list bytes;
  a_timeout : N;
  a_post : bool;
  a_strict : bool;
  a_countries : list bytes;
  a_fill_max_conn : option nat;
  a_fill_max_tries : option nat;
  a_max_tries : nat;
  a_max_error_rate : f64;
  a_max_resp_time : f64;
  a_strategy : SelectStrategy;
  a_sticky_header : option bytes;
  a_fail_timeout : N;
  a_prefer_connect : bool;
  a_http_allowed_codes : list N;
}.

Definition serve_query (a : ServeArgs) : FindQuery :=
  build (foldl set_field FindQueryBuilder_default
    ([SetTypes (types_from (a_types a) (a_lvl a)); SetLimit (Nat.max (a_limit a) 1);
      SetDnsbl (a_dnsbl a); SetTimeout (from_secs (a_timeout a)); SetPost (a_post a);
      SetStrict (a_strict a)]
     ++ (if bool_decide (a_countries a = []) then [] else [SetCountries (a_countries a)]))).

Definition set_max_conn (n : nat) (q : FindQuery) : FindQuery :=
  {| q_types := q_types q; q_countries := q_countries q; q_limit := q_limit q; q_judges := q_judges q;
     q_dnsbl := q_dnsbl q; q_timeout := q_timeout q; q_max_conn := n; q_retry := q_retry q;
     q_post := q_post q; q_strict := q_strict q; q_liveness_url := q_liveness_url q;
     q_relaxed_validity := q_relaxed_validity q; q_require_cookie := q_require_cookie q;
     q_require_referer := q_require_referer q; q_require_connect25 := q_require_connect25 q;
     q_trust_check := q_trust_check q; q_require_trusted := q_require_trusted q |}.

Definition set_query_tries (n : nat) (q : FindQuery) : FindQuery :=
  let r := q_retry q in
  {| q_types := q_types q; q_countries := q_countries q; q_limit := q_limit q; q_judges := q_judges q;
     q_dnsbl := q_dnsbl q; q_timeout := q_timeout q; q_max_conn := q_max_conn q;
     q_retry := {| Checker.max_tries := n; retry_on := retry_on r; backoff := backoff r; factor := factor r;
                   jitter := jitter r; max_backoff := max_backoff r |};
     q_post := q_post q; q_strict := q_strict q; q_liveness_url := q_liveness_url q;
     q_relaxed_validity := q_relaxed_validity q; q_require_cookie := q_require_cookie q;
     q_require_referer := q_require_referer q; q_require_connect25 := q_require_connect25 q;
     q_trust_check := q_trust_check q; q_require_trusted := q_require_trusted q |}.

Definition serve_fill_query (a : ServeArgs) : FindQuery :=
  let q := serve_query a in
  let q := match a_fill_max_conn a with Some n => set_max_conn n q | None => q end in
  match a_fill_max_tries a with Some n => set_query_tries n q | None => q end.

Definition grab_query (countries : list bytes) (limit : nat) : GrabQuery :=
  {| g_countries := if bool_decide (countries = []) then None else Some countries;
     g_limit := limit_of limit |}.

(** ** The store and the warm start *)

Inductive Backend : Type := RedisBackend | SqliteBackend.

(** With both backends built in. *)
Definition select_store (spec : bytes) : Backend :=
  if starts_with (bs "redis://") spec || starts_with (bs "rediss://") spec
  then RedisBackend else SqliteBackend.

Section Serve.
Context `{Unicode}.

Definition pool_config (a : ServeArgs) : PoolConfig :=
  let d := PoolConfig_default in
  {| Pool.max_tries := a_max_tries a; max_error_rate := a_max_error_rate a;
     max_resp_time := a_max_resp_time a; min_req := min_req d;
     countries := if bool_decide (a_countries a = []) then None
                  else Some (list_to_set (to_uppercase <$> a_countries a));
     strategy := to_server (a_strategy a); sticky_header := a_sticky_header a;
     max_sessions := max_sessions d; fail_timeout := from_secs (a_fail_timeout a);
     prefer_connect := a_prefer_connect a;
     http_allowed_codes := if bool_decide (a_http_allowed_codes a = []) then None
                           else Some (a_http_allowed_codes a);
     verify_on_lease := verify_on_lease d; verify_target := verify_target d |}.

Definition union_dedup (primary secondary : list Proxy) : list Proxy :=
  let seen : gset (IpAddr * N) := list_to_set (key_of <$> primary) in
  primary ++ List.filter (fun p => negb (bool_decide (key_of p ∈ seen))) secondary.

(** The pool of [serve --load]: the history, then what the file adds. *)
Definition loaded_pool (history loaded : list Proxy) (cfg : PoolConfig) : Pool :=
  from_proxies (union_dedup history loaded) cfg.

(** The pool of [serve] without [--load]: the history, then what is found. *)
Definition found_pool (history found : list Proxy) (cfg : PoolConfig) : Pool :=
  spawn (history ++ found) cfg.
End Serve.

(** ** Output *)

Inductive Format : Type := FDefault | FTxt | FJson | FJsonArray | FUrl | FCsv.

Record Emitter := { e_format : Format; e_template : option bytes; e_started : bool }.

Definition Emitter_new (f : Format) (t : option bytes) : Emitter :=
  {| e_format := f; e_template := t; e_started := false |}.

Definition scheme_str (p : Proxy) : bytes :=
  if bool_decide (is_Some (types p !! Socks5)) then bs "socks5"
  else if bool_decide (is_Some (types p !! Socks4)) then bs "socks4"
  else bs "http".

Definition proto_list (p : Proxy) : bytes := join (bs "|") (proto_as_str <$> types_keys p).

Definition anon_str (p : Proxy) : bytes :=
  match types p !! Http with Some (Some l) => anon_as_str l | _ => [] end.

Definition country_str (p : Proxy) : bytes := from_option country_code [] (geo p).
Definition asn_str (p : Proxy) : bytes := from_option (fun a => show_N (asn_number a)) [] (asn p).
Definition asn_org_str (p : Proxy) : bytes := default [] (a ← asn p; asn_org a).

Definition CSV_HEADER : bytes := bs "host,port,protocols,anon,country,resp_time,error_rate" ++ [LF].

Section Output.
(** [serde_json::to_string], and [f64]'s [Display]. *)
Context (to_string : Json -> bytes) (show_f64 : f64 -> bytes).

Definition render_template (tmpl : bytes) (p : Proxy) : bytes :=
  foldl (fun s tv => replace (bs "{{" ++ tv.1 ++ bs "}}") tv.2 s) tmpl
    [(bs "proxy", addr p); (bs "host", show_ip (host p)); (bs "port", show_N (port p));
     (bs "scheme", scheme_str p); (bs "protocols", proto_list p); (bs "anon", anon_str p);
     (bs "country", country_str p); (bs "asn", asn_str p); (bs "asn_org", asn_org_str p);
     (bs "duration", show_f64 (avg_resp_time p)); (bs "error_rate", show_f64 (error_rate p))].

Definition csv_row (p : Proxy) : bytes :=
  join (bs ",")
    [show_ip (host p); show_N (port p); proto_list p; anon_str p; country_str p;
     show_f64 (avg_resp_time p); show_f64 (error_rate p)].

Definition emit_prefix (e : Emitter) : bytes :=
  match e_template e, e_format e with
  | Some _, _ => []
  | None, FJsonArray => bs "["
  | None, FCsv => CSV_HEADER
  | None, _ => []
  end.

Definition emit_item (p : Proxy) (e : Emitter) : bytes * Emitter :=
  match e_template e with
  | Some t => (render_template t p ++ [LF], e)
  | None =>
      match e_format e with
      | FDefault | FTxt => (addr p ++ [LF], e)
      | FJson => (to_string (serialize p) ++ [LF], e)
      | FUrl => (scheme_str p ++ bs "://" ++ addr p ++ [LF], e)
      | FCsv => (csv_row p ++ [LF], e)
      | FJsonArray =>
          ((if e_started e then bs "," else []) ++ to_string (serialize p),
           {| e_format := e_format e; e_template := e_template e; e_started := true |})
      end
  end.

Definition emit_suffix (e : Emitter) : bytes :=
  match e_template e, e_format e with
  | None, FJsonArray => bs "]" ++ [LF]
  | _, _ => []
  end.

Fixpoint emit_items (ps : list Proxy) (e : Emitter) : bytes * Emitter :=
  match ps with
  | [] => ([], e)
  | p :: ps' => let '(b, e) := emit_item p e in let '(bs', e) := emit_items ps' e in (b ++ bs', e)
  end.

(** What [write_stream] writes to its sink for the proxies of the stream. *)
Definition write_stream (f : Format) (t : option bytes) (ps : list Proxy) : bytes :=
  let e := Emitter_new f t in
  let '(body, e') := emit_items ps e in
  emit_prefix e ++ body ++ emit_suffix e'.
End Output.

(** ** Properties *)

Section Warm.
Context `{Unicode}.

(** C40.  A warm start serves the history and the file as documented, except
    under a country filter: without one the pool holds, for every address the
    store remembers, exactly what it remembers, and of the file what the store
    does not know; with one, nothing that comes from the store is admitted (it
    carries no location), not even where the file has the same address with a
    location in a wanted country.  This holds for every implementation of the
    store. *)
Theorem warm_start_exact `{StoreLaws ST} ps loaded cfg :
  storable ps ->
  exists s history, upsert_all ps store_new = (Ok tt, s) /\ load s = Ok history /\
    let pool := loaded_pool history loaded cfg in
    (forall e, e ∈ state pool <-> exists q, e = fresh_entry q /\
       ((countries cfg = None /\ exists k, history_of k ps <> [] /\ q = remembered k (history_of k ps)) \/
        (q ∈ loaded /\ history_of (key_of q) ps = [] /\ country_ok q (countries cfg) = true))) /\
    exhausted pool = true.
Proof.
  intros Hs. destruct (store_remembers ps Hs) as (s & l & Hu & Hl & _ & Hm).
  exists s, l. split; [done|]. split; [done|]. split; [|done].
  assert (forall k, k ∈ key_of <$> l <-> history_of k ps <> []) as Hk.
  { intros k. rewrite list_elem_of_fmap. split.
    - intros (q & -> & (k' & Hne & ->)%Hm). by destruct k'.
    - intros Hne. exists (remembered k (history_of k ps)). split; [by destruct k|]. apply Hm. by exists k. }
  assert (forall k q, q = remembered k (history_of k ps) -> country_ok q (countries cfg) = true <-> countries cfg = None) as Hc.
  { intros k q ->. unfold country_ok. by destruct (countries cfg). }
  intros e. unfold loaded_pool, from_proxies. cbn. rewrite list_elem_of_fmap. apply exist_proper. intros q.
  rewrite list_elem_of_In, filter_In, <-list_elem_of_In. unfold union_dedup.
  rewrite elem_of_app, (list_elem_of_In (List.filter _ _) q), filter_In, <-list_elem_of_In, negb_true_iff.
  rewrite bool_decide_eq_false, elem_of_list_to_set, Hk, Hm.
  split.
  - intros [-> [[(k & Hne & Eq)|[Hin Hnot]] Hok]]; (split; [done|]).
    + left. split; [by eapply Hc|]. by exists k.
    + right. split; [done|]. split; [|done]. by destruct (history_of (key_of q) ps); [|exfalso; apply Hnot].
  - intros [-> [[Hnone (k & Hne & Eq)]|(Hin & Hnot & Hok)]]; (split; [done|]).
    + split; [left; by exists k|]. by eapply Hc.
    + split; [right|done]. split; [done|]. rewrite Hnot. intros Hx. by apply Hx.
Qed.
End Warm.

Section Documents.
Context (to_string : Json -> bytes) (show_f64 : f64 -> bytes).

Lemma emit_items_lines f t ps (line : Proxy -> bytes) e :
  e_template e = t -> e_format e = f ->
  (forall p e, e_template e = t -> e_format e = f -> emit_item to_string show_f64 p e = (line p ++ [LF], e)) ->
  emit_items to_string show_f64 ps e = (mjoin ((fun p => line p ++ [LF]) <$> ps), e).
Proof.
  intros Ht Hf Hl. induction ps as [|p ps IH]; simpl; [done|]. by rewrite Hl, IH.
Qed.

Lemma emit_items_array ps e : e_template e = None -> e_format e = FJsonArray ->
  emit_items to_string show_f64 ps e =
  ((if e_started e then mjoin ((fun p => bs "," ++ to_string (serialize p)) <$> ps)
    else join (bs ",") ((fun p => to_string (serialize p)) <$> ps)),
   {| e_format := FJsonArray; e_template := None;
      e_started := e_started e || negb (bool_decide (ps = [])) |}).
Proof.
  destruct e as [f t b]; simpl. intros -> ->. revert b. induction ps as [|p ps IH]; intros b.
  - simpl. by destruct b.
  - cbn [emit_items emit_item e_template e_format e_started]. rewrite IH. cbn [orb]. rewrite orb_true_r.
    f_equal. destruct b; [done|]. destruct ps as [|p' ps]; simpl; [by rewrite app_nil_r|].
    f_equal. clear. revert p'. induction ps as [|q ps IH]; intros p'; simpl; [by rewrite app_nil_r|].
    by rewrite <-IH.
Qed.

(** Unfolds the emitter and nothing of what it prints. *)
#[local] Tactic Notation "out_simpl" :=
  cbn [emit_item emit_prefix emit_suffix e_format e_template e_started app].
#[local] Tactic Notation "out_simpl" "in" hyp(H) := cbn [e_format e_template e_started] in H.

(** The case of a line format [f], whose line is [line]. *)
#[local] Ltac by_lines f line :=
  rewrite (emit_items_lines f None _ line) by
    (done || (intros ? [? ? ?] E E'; out_simpl in E; out_simpl in E'; subst; out_simpl;
              by rewrite <-?app_assoc));
  out_simpl; by rewrite ?app_nil_r.

(** Each format writes one well-formed document, whatever the number of
    proxies: the line formats one line per proxy in stream order (after a
    header for CSV), a template one rendered line per proxy whatever the
    format, and the JSON array the proxies' objects separated by single commas
    between brackets, also when there is none or only one. *)
Theorem document_exact f t ps :
  let lines_of (line : Proxy -> bytes) := mjoin ((fun p => line p ++ [LF]) <$> ps) in
  write_stream to_string show_f64 f t ps =
  match t, f with
  | Some tmpl, _ => lines_of (render_template show_f64 tmpl)
  | None, (FDefault | FTxt) => lines_of addr
  | None, FJson => lines_of (fun p => to_string (serialize p))
  | None, FUrl => lines_of (fun p => scheme_str p ++ bs "://" ++ addr p)
  | None, FCsv => CSV_HEADER ++ lines_of (csv_row show_f64)
  | None, FJsonArray =>
      bs "[" ++ join (bs ",") ((fun p => to_string (serialize p)) <$> ps) ++ bs "]" ++ [LF]
  end.
Proof.
  cbn zeta. unfold write_stream, Emitter_new. destruct t as [tmpl|].
  - rewrite (emit_items_lines f (Some tmpl) ps (render_template show_f64 tmpl)); [|done|done|].
    + out_simpl. by rewrite app_nil_r.
    + intros p [f' t' b] E _. out_simpl in E. by subst.
  - destruct f; [by_lines FDefault addr | by_lines FTxt addr
      | by_lines FJson (fun p => to_string (serialize p))
      | rewrite emit_items_array by done; out_simpl; by rewrite <-?app_assoc
      | by_lines FUrl (fun p => scheme_str p ++ bs "://" ++ addr p) | by_lines FCsv (csv_row show_f64)].
Qed.

End Documents.

(** The values put into a template are searched for the tokens that follow. *)
Example template_reexpands :
  let p := set_public ∅ None (Some {| asn_number := 1; asn_org := Some (bs "{{duration}}") |}%N)
             (Proxy_new (V4 1 2 3 4) 80 ∅) in
  render_template (fun _ => bs "0") (bs "{{asn_org}}") p = bs "0".
Proof. vm_compute. reflexivity. Qed.

(** Without [--load] an address that the store remembers and the run finds again
    is in the pool twice. *)
Lemma found_pool_duplicates `{Unicode} p q cfg :
  countries cfg = None -> key_of p = key_of q ->
  entry_key <$> state (found_pool [p] [q] cfg) = [key_of p; key_of p].
Proof.
  intros Hc Hk. unfold found_pool, spawn, import, country_ok. cbn. rewrite !Hc. cbn. rewrite !Hc. cbn.
  unfold entry_key; cbn. by rewrite Hk.
Qed.

Lemma warm_start_exact_witness :
  exists s history, upsert_all [PersistProofs.sample_check true] (store_new : MemoryStore) = (Ok tt, s) /\
    load s = Ok history /\
    let pool := @loaded_pool AsciiOnly history [] PoolConfig_default in
    (forall e, e ∈ state pool <-> exists q, e = fresh_entry q /\
       ((countries PoolConfig_default = None /\
         exists k, history_of k [PersistProofs.sample_check true] <> [] /\
                   q = remembered k (history_of k [PersistProofs.sample_check true])) \/
        (q ∈ ([] : list Proxy) /\ history_of (key_of q) [PersistProofs.sample_check true] = [] /\
         @country_ok AsciiOnly q (countries PoolConfig_default) = true))) /\
    exhausted pool = true.
Proof.
  apply (@warm_start_exact AsciiOnly MemoryStore _ PersistProofs.memory_laws).
  apply (storable_prefix _ (PersistProofs.sample_check false)). exact PersistProofs.sample_storable.
Defined.
