(* ===== verification/Commands.v ===== *)
(** * The subcommands: [src/bin/proxybroker.rs] ([run], [grab], [find], [check], [serve], [mcp], [top])

    How each subcommand puts the components together: the broker it builds, the
    query it asks, the store it opens and folds into, what it writes, and what
    [serve] starts in which order.  The store is any implementation of the
    contract of [Persist]; opening it, binding sockets, reading files and
    running the broker's pipeline are inputs. *)

From stdpp Require Import base list gmap strings.
From Stdlib Require Import Ascii NArith ZArith Lia.
From S2P Require Import Prelude Bytes Text Float Net NetProofs Utils Io Types Scheduler ProxyModel ProxyJson Negotiator Resolver Parse.
From S2P Require Import Provider Judge Checker CheckerProofs Stats Broker BrokerProofs WellFormed Persist PersistProofs Pool Cli.

(** ** Errors *)

(** What a [Box<dyn Error>] of the binary can hold. *)
Inductive CmdError : Type :=
  | NoProvidersLeft
  | BadListenAddress (text : bytes)
  | BrokerErr (e : Error)
  | IoErr (msg : bytes)
  | SavedFileErr (e : ReadError).

Definition lift {E A} (inj : E -> CmdError) (r : result E A) : result CmdError A :=
  match r with Ok a => Ok a | Err e => Err (inj e) end.

(** ** The broker of a run of the program *)

(** The provider list handed to the builder; [None]: the builder's default. *)
Definition chosen_providers (bundled : list ProviderSpec) (only : bool) (dirs : list (list ProviderSpec))
    : result CmdError (option (list ProviderSpec)) :=
  if negb (bool_decide (dirs = [])) || only then
    let providers := (if only then [] else bundled) ++ mjoin dirs in
    if bool_decide (providers = []) then Err NoProvidersLeft else Ok (Some providers)
  else Ok None.

(** The builder calls of [run]: providers, the country database (a given one
    must open, the bundled one may fail), the ASN database. *)
Definition run_builder {Client Resolv GeoDb} (bundled : list ProviderSpec) (only : bool)
    (dirs : list (list ProviderSpec)) (open_db : bytes -> result CmdError GeoDb) (bundled_db : option GeoDb)
    (geo_db asn_db : option bytes) : result CmdError (BrokerBuilder Client Resolv GeoDb) :=
  providers ← chosen_providers bundled only dirs;
  let b := match providers with
           | Some l => builder_call _ _ _ (BrokerBuilder_default _ _ _) (CallProviders _ _ _ l)
           | None => BrokerBuilder_default _ _ _
           end in
  db ← match geo_db with
       | Some path => Some <$> open_db path
       | None => Ok bundled_db
       end;
  let b := match db with Some db => builder_call _ _ _ b (CallGeo _ _ _ db) | None => b end in
  match asn_db with
  | Some path => db ← open_db path; Ok (builder_call _ _ _ b (CallAsnDb _ _ _ db))
  | None => Ok b
  end.

(** ** Flags and queries *)

Inductive StatsFormat : Type := StatsText | StatsJson.

Record FindArgs := {
  fa_types : list Proto;
  fa_lvl : list AnonLevel;
  fa_limit : nat;
  fa_countries : list bytes;
  fa_judges : list bytes;
  fa_dnsbl : list bytes;
  fa_timeout : N;
  fa_max_conn : nat;
  fa_max_tries : nat;
  fa_post : bool;
  fa_strict : bool;
  fa_liveness_url : option bytes;
  fa_retry_on : RetryOn;
  fa_backoff_ms : N;
  fa_relaxed_validity : bool;
  fa_require_cookie : bool;
  fa_require_referer : bool;
  fa_require_connect25 : bool;
  fa_trust_check : bool;
  fa_require_trusted : bool;
  fa_show_stats : bool;
  fa_stats_format : StatsFormat;
  fa_format : Format;
  fa_output_format : option bytes;
  fa_save : option bytes;
  fa_state : option bytes;
}.

Record CheckArgs := {
  ca_types : list Proto;
  ca_infile : option bytes;
  ca_load : option bytes;
  ca_lvl : list AnonLevel;
  ca_limit : nat;
  ca_countries : list bytes;
  ca_judges : list bytes;
  ca_dnsbl : list bytes;
  ca_timeout : N;
  ca_max_conn : nat;
  ca_max_tries : nat;
  ca_post : bool;
  ca_strict : bool;
  ca_show_stats : bool;
  ca_stats_format : StatsFormat;
  ca_format : Format;
  ca_output_format : option bytes;
  ca_save : option bytes;
}.

(** The flags that [mcp] and [top] share. *)
Record FillArgs := { pa_types : list Proto; pa_limit : nat; pa_countries : list bytes; pa_timeout : N }.

(** The setter that is only called for a flag that was given. *)
Definition countries_call (cs : list bytes) : list Setter :=
  if bool_decide (cs = []) then [] else [SetCountries cs].

Definition find_query (a : FindArgs) : FindQuery :=
  let q := build (foldl set_field FindQueryBuilder_default
    ([SetTypes (types_from (fa_types a) (fa_lvl a)); SetLimit (fa_limit a); SetJudges (fa_judges a);
      SetDnsbl (fa_dnsbl a); SetTimeout (from_secs (fa_timeout a)); SetMaxConn (fa_max_conn a);
      SetRetry (retry_policy (fa_max_tries a) (fa_retry_on a) (fa_backoff_ms a)); SetPost (fa_post a);
      SetStrict (fa_strict a); SetLivenessUrl (fa_liveness_url a)]
     ++ countries_call (fa_countries a))) in
  {| q_types := q_types q; q_countries := q_countries q; q_limit := q_limit q; q_judges := q_judges q;
     q_dnsbl := q_dnsbl q; q_timeout := q_timeout q; q_max_conn := q_max_conn q; q_retry := q_retry q;
     q_post := q_post q; q_strict := q_strict q; q_liveness_url := q_liveness_url q;
     q_relaxed_validity := fa_relaxed_validity a; q_require_cookie := fa_require_cookie a;
     q_require_referer := fa_require_referer a; q_require_connect25 := fa_require_connect25 a;
     q_trust_check := fa_trust_check a; q_require_trusted := fa_require_trusted a |}.

Definition check_query (a : CheckArgs) : FindQuery :=
  {| q_types := types_from (ca_types a) (ca_lvl a);
     q_countries := if bool_decide (ca_countries a = []) then None else Some (ca_countries a);
     q_limit := if 0 <? ca_limit a then Some (ca_limit a) else None;
     q_judges := ca_judges a; q_dnsbl := ca_dnsbl a; q_timeout := from_secs (ca_timeout a);
     q_max_conn := ca_max_conn a; q_retry := tries (ca_max_tries a); q_post := ca_post a;
     q_strict := ca_strict a; q_liveness_url := None; q_relaxed_validity := false;
     q_require_cookie := false; q_require_referer := false; q_require_connect25 := false;
     q_trust_check := false; q_require_trusted := false |}.

Definition fill_query (a : FillArgs) : FindQuery :=
  build (foldl set_field FindQueryBuilder_default
    ([SetTypes (types_from (pa_types a) []); SetLimit (Nat.max (pa_limit a) 1);
      SetTimeout (from_secs (pa_timeout a))] ++ countries_call (pa_countries a))).

(** ** The store *)

Section Stores.
Context {ST : Type} `{Store ST}.
Context (open_store : bytes -> result Error ST).

(** The observer's store and the warm-start history. *)
Definition open_state (spec : option bytes) : result CmdError (option ST * list Proxy) :=
  match spec with
  | Some s =>
      store ← lift BrokerErr (open_store s);
      history ← lift BrokerErr (load store);
      Ok (Some store, history)
  | None => Ok (None, [])
  end.

(** The observer: a failing upsert is logged and forgotten. *)
Definition observe (store : ST) (p : Proxy) : ST := (upsert p store).2.

(** A run's calls of its observer. *)
Definition observe_all (seen : list Proxy) (store : ST) : ST := foldl observe store seen.

(** The store of [serve --recheck]: the durable one, or one in memory. *)
Definition recheck_store (spec : option bytes) : result CmdError (ST + MemoryStore) :=
  match spec with
  | Some s => inl <$> lift BrokerErr (open_store s)
  | None => Ok (inr store_new)
  end.
End Stores.

(** ** Output *)

Section Draining.
(** [serde_json::to_string] of a proxy and of a summary, and [f64]'s [Display]. *)
Context (to_string : Json -> bytes) (stats_json : Stats -> bytes) (show_f64 : f64 -> bytes).

(** The lines written to the saved file, one call of [write_ndjson] per proxy. *)
Fixpoint save_lines (file : bytes) (ps : list Proxy) : result Empty_set bytes :=
  match ps with
  | [] => Ok file
  | p :: ps' => file ← write_ndjson to_string file [p]; save_lines file ps'
  end.

(** What [write_stream] leaves in its sink and in the file of [--save], which it
    creates empty whatever was there before. *)
Definition drain (f : Format) (t : option bytes) (save : option bytes) (ps : list Proxy)
    : bytes * option (result Empty_set bytes) :=
  (write_stream to_string show_f64 f t ps, (fun _ => save_lines [] ps) <$> save).

Definition stats_report (show : bool) (f : StatsFormat) (s : option Stats) : bytes :=
  match show, s with
  | true, Some s => match f with
                    | StatsText => [LF] ++ display s
                    | StatsJson => stats_json s ++ [LF]
                    end
  | _, _ => []
  end.

(** The text of the progress bar. *)
Definition render_progress (s : Stats) : bytes :=
  bs "checked " ++ show_N (N.of_nat (st_total s)) ++ bs " · working " ++ show_N (N.of_nat (st_working s))
  ++ bs " · avg " ++ fmt2 (st_avg s) ++ bs "s".

(** What a run leaves behind: the emitted proxies in the order of the channel,
    the observer's calls, the summary ([None]: [finish] panicked). *)
Record Outcome := { emitted_ : list Proxy; seen : list Proxy; summary : option Stats }.

Definition outcome_of (r : Run) : Outcome :=
  {| emitted_ := output r; seen := observed r; summary := finish (stats r) |}.

(** What the user gets: the sink, the saved file, the report on [stderr]. *)
Record Printed := { sink : bytes; saved : option (result Empty_set bytes); report : bytes }.

Definition print_outcome (f : Format) (t save : option bytes) (show : bool) (sf : StatsFormat) (o : Outcome) : Printed :=
  let '(b, s) := drain f t save (emitted_ o) in
  {| sink := b; saved := s; report := stats_report show sf (summary o) |}.

Section Running.
Context {ST : Type} `{Store ST} (open_store : bytes -> result Error ST).

(** [find]: the store is opened first, and holds the run's checks at the end. *)
Definition find_cmd (run : FindQuery -> result Error Outcome) (a : FindArgs)
    : result CmdError (Printed * option ST) :=
  st ← (open_state open_store (fa_state a) : result CmdError (option ST * list Proxy));
  o ← lift BrokerErr (run (find_query a));
  Ok (print_outcome (fa_format a) (fa_output_format a) (fa_save a) (fa_show_stats a) (fa_stats_format a) o,
      fmap (M := option) (observe_all (ST := ST) (seen o)) st.1).
End Running.

(** [check --load]: no broker, no network. *)
Definition check_load `{Unicode} (from_str : bytes -> option Json) (file : bytes) (a : CheckArgs)
    : result CmdError Printed :=
  loaded ← lift SavedFileErr (read_ndjson from_str file);
  Ok (print_outcome (ca_format a) (ca_output_format a) (ca_save a) (ca_show_stats a) (ca_stats_format a)
        {| emitted_ := loaded; seen := []; summary := Stats.from_proxies loaded |}).

(** [check] over the text of its input. *)
Definition check_cmd `{Unicode} (run : list Proxy -> FindQuery -> result Error Outcome) (text : bytes)
    (a : CheckArgs) : result CmdError Printed :=
  o ← lift BrokerErr (run (parse_proxy_lines text) (check_query a));
  Ok (print_outcome (ca_format a) (ca_output_format a) (ca_save a) (ca_show_stats a) (ca_stats_format a) o).
End Draining.

(** [grab]: no check, no statistics. *)
Definition grab_cmd `{Unicode} to_string show_f64 (run : GrabQuery -> list Proxy)
    (countries_ : list bytes) (limit : nat) (f : Format) (t : option bytes) : bytes :=
  (drain to_string show_f64 f t None (run (grab_query countries_ limit))).1.

(** ** Serving *)

(** The flags of [serve] besides those of the pool and the queries. *)
Record ServeFlags := {
  s_args : ServeArgs;
  s_host : bytes;
  s_load : option bytes;
  s_state : option bytes;
  s_metrics : option (IpAddr * N);
  s_recheck : bool;
  s_recheck_rate : f64;
  s_recheck_min : N;
  s_recheck_max : N;
  s_decay_halflife : N;
  s_watch : bool;
  s_min_queue : nat;
  s_auth : option bytes;
}.

Section Serving.
Context `{Unicode} {ST : Type} `{Store ST}.
Context (from_str : bytes -> option Json).

(** What the program meets outside: opening a store, reading a file, starting a
    run (what its stream will deliver), building a checker, the DNS and HTTP
    libraries, binding the two listeners, watching a file. *)
Record Outside := {
  out_store : bytes -> result Error ST;
  out_read : bytes -> result bytes bytes;
  out_find : FindQuery -> result Error (list Proxy);
  out_checker : FindQuery -> result Error Checker;
  out_hickory : dns_library;
  out_http : duration -> bytes -> option bytes;
  out_metrics : IpAddr * N -> result bytes unit;
  out_watch : bytes -> result bytes unit;
  out_bind : IpAddr * N -> result bytes unit;
}.

(** What [serve] has running when it starts to wait for Ctrl-C. *)
Record Serving := {
  sv_pool : Pool;                                            (** once the importer is done *)
  sv_metrics : option (IpAddr * N);
  sv_recheck : option (Checker * (ST + MemoryStore) * RecheckConfig);
  sv_watch : option bytes;
  sv_addr : IpAddr * N;
  sv_min_queue : nat;
  sv_auth : option bytes;
}.

Definition recheck_config (s : ServeFlags) : RecheckConfig :=
  {| min_interval := from_secs (s_recheck_min s); max_interval := from_secs (s_recheck_max s);
     rate_per_sec := s_recheck_rate s; decay_halflife := from_secs (s_decay_halflife s) |}.

(** The pool: the file's proxies behind the history, or the history and a find. *)
Definition serve_pool (out : Outside) (s : ServeFlags) (history : list Proxy) : result CmdError Pool :=
  match s_load s with
  | Some path =>
      content ← lift IoErr (out_read out path);
      loaded ← lift SavedFileErr (read_ndjson from_str content);
      Ok (loaded_pool history loaded (pool_config (s_args s)))
  | None =>
      found ← lift BrokerErr (out_find out (serve_fill_query (s_args s)));
      Ok (found_pool history found (pool_config (s_args s)))
  end.

Definition serve_recheck (out : Outside) (s : ServeFlags)
    : result CmdError (option (Checker * (ST + MemoryStore) * RecheckConfig)) :=
  if s_recheck s then
    st ← recheck_store (out_store out) (s_state s);
    k ← lift BrokerErr (out_checker out (serve_query (s_args s)));
    Ok (Some (k, st, recheck_config s))
  else Ok None.

Definition serve_watch (out : Outside) (s : ServeFlags) : result CmdError (option bytes) :=
  if s_watch s then
    match s_load s with
    | Some path => _ ← lift IoErr (out_watch out path); Ok (Some path)
    | None => Ok None
    end
  else Ok None.

Definition serve_cmd (out : Outside) (s : ServeFlags) : result CmdError Serving :=
  addr ← ok_or (BadListenAddress (s_host s)) (parse_socket_addr (s_host s));
  st ← (open_state (out_store out) (s_state s) : result CmdError (option ST * list Proxy));
  w ← serve_pool out s st.2;
  _ ← lift BrokerErr (Resolver_new (out_hickory out) (out_http out) (from_secs (a_timeout (s_args s))));
  _ ← match s_metrics s with Some m => lift IoErr (out_metrics out m) | None => Ok tt end;
  re ← serve_recheck out s;
  wa ← serve_watch out s;
  _ ← lift IoErr (out_bind out addr);
  Ok {| sv_pool := w; sv_metrics := s_metrics s; sv_recheck := re; sv_watch := wa; sv_addr := addr;
        sv_min_queue := s_min_queue s; sv_auth := s_auth s |}.

(** [mcp] and [top]: a pool filled by a find, for [top] behind the history. *)
Definition fill_config (a : FillArgs) : PoolConfig :=
  let d := PoolConfig_default in
  {| Pool.max_tries := Pool.max_tries d; max_error_rate := max_error_rate d; max_resp_time := max_resp_time d;
     min_req := min_req d;
     countries := if bool_decide (pa_countries a = []) then None
                  else Some (list_to_set (to_uppercase <$> pa_countries a));
     strategy := strategy d; sticky_header := sticky_header d; max_sessions := max_sessions d;
     fail_timeout := fail_timeout d; prefer_connect := prefer_connect d;
     http_allowed_codes := http_allowed_codes d; verify_on_lease := verify_on_lease d;
     verify_target := verify_target d |}.

Definition mcp_cmd (find : FindQuery -> result Error (list Proxy)) (a : FillArgs) : result CmdError Pool :=
  found ← lift BrokerErr (find (fill_query a)); Ok (spawn found (fill_config a)).

Definition top_cmd (open_store : bytes -> result Error ST) (find : FindQuery -> result Error (list Proxy))
    (state : option bytes) (a : FillArgs) : result CmdError Pool :=
  st ← (open_state open_store state : result CmdError (option ST * list Proxy));
  found ← lift BrokerErr (find (fill_query a));
  Ok (found_pool st.2 found (fill_config a)).
End Serving.

(** ** Properties: the queries *)

(** The flags of [find] that ask what [check]'s flags ask. *)
Definition as_find (a : CheckArgs) : FindArgs :=
  {| fa_types := ca_types a; fa_lvl := ca_lvl a; fa_limit := ca_limit a; fa_countries := ca_countries a;
     fa_judges := ca_judges a; fa_dnsbl := ca_dnsbl a; fa_timeout := ca_timeout a;
     fa_max_conn := ca_max_conn a; fa_max_tries := ca_max_tries a; fa_post := ca_post a;
     fa_strict := ca_strict a; fa_liveness_url := None; fa_retry_on := OnTimeout; fa_backoff_ms := 0;
     fa_relaxed_validity := false; fa_require_cookie := false; fa_require_referer := false;
     fa_require_connect25 := false; fa_trust_check := false; fa_require_trusted := false;
     fa_show_stats := ca_show_stats a; fa_stats_format := ca_stats_format a; fa_format := ca_format a;
     fa_output_format := ca_output_format a; fa_save := ca_save a; fa_state := None |}.

(** The flags of [serve] that fill a pool as [mcp] and [top] do. *)
Definition as_serve (a : FillArgs) : ServeArgs :=
  {| a_types := pa_types a; a_lvl := []; a_limit := pa_limit a; a_dnsbl := []; a_timeout := pa_timeout a;
     a_post := false; a_strict := false; a_countries := pa_countries a; a_fill_max_conn := None;
     a_fill_max_tries := None; a_max_tries := 3; a_max_error_rate := f_half; a_max_resp_time := f_of_N 8;
     a_strategy := SelBest; a_sticky_header := None; a_fail_timeout := 30; a_prefer_connect := false;
     a_http_allowed_codes := [] |}.

(** The query with another concurrency and attempt count. *)
Definition tuned (conn tries : option nat) (q : FindQuery) : FindQuery :=
  set_max_conn (default (q_max_conn q) conn) (set_query_tries (default (Checker.max_tries (q_retry q)) tries) q).

(**  The subcommands ask the same of the same flags: the query that [check]
    writes out field by field is the one [find] builds from the same flags with
    its own flags off; the query and the pool of [mcp] and [top] are those
    [serve] would use for the same flags; and the query [serve] fills its pool
    with differs from the one it re-checks with in the number of concurrent
    checks and of attempts, as given, and in nothing else. *)
Theorem queries_agree `{Unicode} (c : CheckArgs) (p : FillArgs) (s : ServeArgs) :
  check_query c = find_query (as_find c) /\
  fill_query p = serve_query (as_serve p) /\ fill_config p = pool_config (as_serve p) /\
  serve_fill_query s = tuned (a_fill_max_conn s) (a_fill_max_tries s) (serve_query s).
Proof.
  split; [|split; [|split]].
  - unfold check_query, find_query, countries_call, limit_of.
    destruct c as [? ? ? ? [|] [|]]; reflexivity.
  - unfold fill_query, serve_query, countries_call. cbn.
    destruct (pa_countries p) as [|cc cs]; cbn; reflexivity.
  - reflexivity.
  - unfold serve_fill_query, tuned. generalize (serve_query s). intros q. unfold set_query_tries, set_max_conn.
    destruct (a_fill_max_conn s), (a_fill_max_tries s); cbn; by destruct q as [? ? ? ? ? ? ? []].
Qed.

(** ** Properties: saved files *)

Section Saving.
Context `{Unicode} (to_string : Json -> bytes) (from_str : bytes -> option Json).
Context (stats_json : Stats -> bytes) (show_f64 : f64 -> bytes).

Lemma save_lines_written file ps :
  save_lines to_string file ps = Ok (file ++ mjoin ((fun p => to_string (serialize p) ++ [LF]) <$> ps)).
Proof.
  revert file. induction ps as [|p ps IH]; intros file; cbn [save_lines]; [by rewrite app_nil_r|].
  rewrite write_ndjson_vec. cbn [mbind result_bind]. rewrite IH, fmap_cons, mjoin_cons, <-app_assoc.
  cbn [fmap list_fmap mjoin list_join]. by rewrite app_nil_r.
Qed.

(** Formats that only use what a saved proxy keeps. *)
Definition keeps_format (f : Format) (t : option bytes) : Prop :=
  t = None /\ (f = FDefault \/ f = FTxt \/ f = FUrl).

Lemma write_stream_identity f t ps : keeps_format f t ->
  write_stream to_string show_f64 f t (identity <$> ps) = write_stream to_string show_f64 f t ps.
Proof.
  intros [-> Hf]. unfold write_stream, Emitter_new.
  assert (forall e, e_template e = None -> e_format e = f ->
    emit_items to_string show_f64 (identity <$> ps) e = emit_items to_string show_f64 ps e) as ->; [|done..].
  induction ps as [|p ps IH]; intros e Ht Hfm; [done|]. rewrite fmap_cons. cbn [emit_items].
  assert (emit_item to_string show_f64 (identity p) e = emit_item to_string show_f64 p e) as ->.
  { unfold emit_item. rewrite Ht, Hfm. by destruct Hf as [->|[->| ->]]. }
  assert ((emit_item to_string show_f64 p e).2 = e) as He.
  { unfold emit_item. rewrite Ht, Hfm. by destruct Hf as [->|[->| ->]]. }
  destruct (emit_item _ _ _ e) as [b e']. cbn in He. subst e'. by rewrite IH.
Qed.

Lemma union_dedup_nil l : union_dedup [] l = l.
Proof.
  unfold union_dedup. induction l as [|p l IH]; [done|]. cbn [app List.filter].
  rewrite bool_decide_false by apply not_elem_of_empty. cbn [negb]. f_equal. exact IH.
Qed.

(** C34.  What [find --save] writes, [check --load] and [serve --load] read: the
    file of any stream of proxies reads back as the same proxies, each with its
    address, attribution and confirmed types; emitted again they give, in the
    formats of addresses and URLs, the very same document; and the pool served
    from the file holds exactly those of them that pass its country filter, in
    the order they were found, with its source exhausted. *)
Theorem saved_then_loaded f t ps path cfg :
  Forall (codec_ok to_string from_str) ps -> Forall json_ready ps ->
  exists file, drain to_string show_f64 f t (Some path) ps = (write_stream to_string show_f64 f t ps, Some (Ok file)) /\
    read_ndjson from_str file = Ok (identity <$> ps) /\
    (forall a, keeps_format (ca_format a) (ca_output_format a) ->
      exists pr, check_load to_string stats_json show_f64 from_str file a = Ok pr /\
        sink pr = write_stream to_string show_f64 (ca_format a) (ca_output_format a) ps) /\
    state (loaded_pool [] (identity <$> ps) cfg) =
      fresh_entry <$> List.filter (fun p => country_ok p (countries cfg)) (identity <$> ps) /\
    exhausted (loaded_pool [] (identity <$> ps) cfg) = true.
Proof.
  intros Hc Hj. unfold drain. cbn [fmap option_fmap option_map]. rewrite save_lines_written. cbn [app].
  eexists. split; [done|]. pose proof (read_written to_string from_str ps Hc Hj) as Hr. split; [done|].
  split; [|split; [|done]].
  - intros a Ha. unfold check_load. rewrite Hr. eexists. split; [done|]. by apply write_stream_identity.
  - unfold loaded_pool. by rewrite union_dedup_nil.
Qed.
End Saving.

(** ** Properties: what survives a run *)

Section Surviving.
Context (limit : option nat) (caps : CapsFilter) (checked : Proxy -> bool -> Proxy -> Prop).
Context (checked_key : forall p w q, checked p w q -> key_of q = key_of p).

(** The addresses observed and those whose check has not ended are inputs, each
    at most as often; without a limit, while the consumer reads, none is lost. *)
Record keyed (ps : list Proxy) (r : Run) : Prop := {
  ky_once : key_of <$> (observed r ++ unchecked r) ⊆+ key_of <$> ps;
  ky_all : limit = None -> channel_open r = true ->
    cancelled r = false /\ (accepting r = false -> source r = []) /\
    key_of <$> (observed r ++ unchecked r) ≡ₚ key_of <$> ps;
}.

Lemma todo_mid ts1 t ts2 : todo (ts1 ++ t :: ts2) ≡ₚ match t with Checking p => [p] | _ => [] end ++ todo (ts1 ++ ts2).
Proof. unfold todo. rewrite !omap_app. destruct t; cbn; [apply Permutation_sym, Permutation_middle|done]. Qed.

Lemma keyed_step ps r r' : keyed ps r -> run_step limit caps checked r r' -> keyed ps r'.
Proof using checked_key.
  intros [Ho Ha] Hs. unfold unchecked in *.
  destruct Hs as [r Hac Hp Hsrc|r p ps' Hac Hp Hsrc Hc|r p ps' Hac Hp Hsrc Hc|r p k Hp Hk
    |r p ts1 ts2 Hc Ht|r p w q ts1 ts2 Ht Hck|r q m ts1 ts2 Ht|r Hop].
  - rewrite Hp, Hsrc in *. constructor; cbn; [done|]. intros Hl Hco. destruct (Ha Hl Hco) as (? & _ & ?). by split_and!.
  - rewrite Hp, Hsrc in *. cbn [option_list app] in *. constructor; cbn.
    + etrans; [|exact Ho]. apply fmap_submseteq. do 2 (apply submseteq_app; [reflexivity|]).
      by apply submseteq_cons.
    + intros Hl Hco. destruct (Ha Hl Hco) as (Hca & _). rewrite Hca, Hl in Hc. done.
  - rewrite Hp, Hsrc in *. cbn [option_list app] in *. constructor; cbn; [done|].
    intros Hl Hco. destruct (Ha Hl Hco) as (? & _ & ?). by split_and!.
  - assert (key_of <$> observed r ++ todo (tasks r ++ [Checking p]) ++ option_list None ++ source r
            ≡ₚ key_of <$> observed r ++ todo (tasks r) ++ option_list (pending r) ++ source r) as E.
    { rewrite Hp. unfold todo. rewrite omap_app. cbn. by rewrite <- !app_assoc. }
    constructor; cbn [observed tasks pending source set_tasks set_loop channel_open cancelled accepting].
    + by rewrite E.
    + intros Hl Hco. rewrite E. by apply Ha.
  - rewrite Ht in *. setoid_rewrite todo_mid in Ho. constructor; cbn.
    + etrans; [|exact Ho]. apply fmap_submseteq, submseteq_app; [reflexivity|]. cbn. by apply submseteq_cons.
    + intros Hl Hco. destruct (Ha Hl Hco) as (Hca & _). congruence.
  - assert (key_of <$> (observed r ++ [q]) ++ todo (ts1 ++ ts2) ++ option_list (pending r) ++ source r
            ≡ₚ key_of <$> observed r ++ todo (tasks r) ++ option_list (pending r) ++ source r) as E.
    { rewrite Ht, todo_mid. rewrite !fmap_app, <-!app_assoc. simpl. by rewrite (checked_key _ _ _ Hck). }
    assert (forall pm n c ts, todo ts = todo (ts1 ++ ts2) -> (limit = None -> c = cancelled r) ->
      keyed ps (set_tasks pm ts (set_emit n c (set_checked (record q (stats r)) (observed r ++ [q]) r)))) as Hres.
    { intros pm n c ts Ets Hcc. constructor; unfold unchecked; cbn [observed tasks pending source set_tasks set_emit set_checked];
        rewrite Ets, E; [done|].
      intros Hl Hco. rewrite (Hcc Hl). by apply Ha. }
    unfold after_check. destruct (w && passes caps q).
    + destruct (is_limit_reached _ limit) eqn:El.
      * apply (Hres _ _ true (ts1 ++ ts2)); [done|]. intros ->. done.
      * apply (Hres _ _ (cancelled r) (ts1 ++ Sending q _ :: ts2)); [|done]. unfold todo. by rewrite !omap_app.
    + apply (Hres _ (sent r) (cancelled r) (ts1 ++ ts2)); done.
  - rewrite Ht in *. setoid_rewrite todo_mid in Ho. unfold after_send.
    assert (todo (ts1 ++ Sending q m :: ts2) = todo (ts1 ++ ts2)) as Et by (unfold todo; by rewrite !omap_app).
    rewrite Et in Ha. destruct (channel_open r) eqn:Hco; constructor; cbn; rewrite ?Hco; try done.
    intros Hl _. rewrite Hl. cbn. rewrite orb_false_r. by apply Ha.
  - constructor; cbn; [done|]. by intros.
Qed.

Lemma keyed_reachable ps n r : reachable limit caps checked ps n r -> keyed ps r.
Proof using checked_key.
  induction 1 as [|r r' Hr IH Hs]; [|by eapply keyed_step].
  constructor; unfold unchecked; cbn; done.
Qed.
End Surviving.

Section Durable.
Context {ST : Type} `{StoreLaws ST}.

Lemma upsert_all_app ps qs (s : ST) :
  upsert_all (ps ++ qs) s =
  match upsert_all ps s with (Ok _, s') => upsert_all qs s' | (Err e, s') => (Err e, s') end.
Proof.
  revert s. induction ps as [|p ps IH]; intros s; simpl; [done|].
  destruct (upsert p s) as [[[]|e] s']; [apply IH|done].
Qed.

Lemma observe_all_upsert qs (s s' : ST) : upsert_all qs s = (Ok tt, s') -> observe_all qs s = s'.
Proof.
  revert s. unfold observe_all. induction qs as [|q qs IH]; intros s; simpl; [by intros [= ->]|].
  unfold observe at 2. destruct (upsert q s) as [[[]|e] s1]; [apply IH|done].
Qed.

(** A store that has taken in some checks takes in those of a run. *)
Lemma observed_remembered earlier qs (st : ST) :
  storable (earlier ++ qs) -> upsert_all earlier store_new = (Ok tt, st) ->
  exists history, load (observe_all qs st) = Ok history /\ remembers_exactly (earlier ++ qs) history.
Proof.
  intros Hs He. destruct (store_remembers _ Hs) as (s & l & Hu & Hl & Hm).
  rewrite upsert_all_app, He in Hu. apply observe_all_upsert in Hu as ->. eauto.
Qed.

Lemma remembered_keys ps l k : remembers_exactly ps l -> k ∈ key_of <$> l <-> k ∈ key_of <$> ps.
Proof.
  intros [_ Hm]. rewrite !list_elem_of_fmap. split.
  - intros (q & -> & (k' & Hne & ->)%Hm). destruct (history_of k' ps) as [|p h] eqn:E; [done|].
    exists p. assert (p ∈ history_of k' ps) as [<- ?]%history_elem by (rewrite E; left). split; [|done].
    by destruct (key_of p).
  - intros (p & -> & Hp). exists (remembered (key_of p) (history_of (key_of p) ps)).
    split; [by destruct (key_of p)|]. apply Hm. exists (key_of p). split; [|done].
    intros E. assert (p ∈ history_of (key_of p) ps) as Hin by by apply history_elem.
    rewrite E in Hin. by apply not_elem_of_nil in Hin.
Qed.

Lemma history_app k ps qs : history_of k (ps ++ qs) = history_of k ps ++ history_of k qs.
Proof. apply filter_app. Qed.

(** With distinct addresses there is at most one check of each. *)
Lemma history_once k qs : NoDup (key_of <$> qs) -> length (history_of k qs) <= 1.
Proof.
  induction qs as [|q qs IH]; simpl; [lia|]. intros [Hni Hnd]%NoDup_cons.
  unfold history_of in *. rewrite filter_cons. case_decide as Hk; [|auto]. simpl.
  destruct (filter _ qs) as [|p h] eqn:E; [simpl; lia|]. exfalso. apply Hni.
  assert (p ∈ filter (fun p => key_of p = k) qs) as [Hp Hin]%list_elem_of_filter by (rewrite E; left).
  rewrite Hk, <-Hp. by apply list_elem_of_fmap_2.
Qed.

(** C14.  A run's checks survive it, whatever happens to it: at every moment of
    every run of [find] with a store, in every interleaving of its checks, also
    when it is cut short, the store holds exactly what the earlier runs and the
    checks finished so far amount to, with one entry per address and at most
    one new check in each; and after a run without a limit that is read to its
    end it knows exactly the addresses it knew before and those the run
    gathered.  This holds for every implementation of the store. *)
Theorem state_survives `{Unicode} dns clients gunzip inflate powi k geo_db asn_db q batches n r earlier (st : ST) :
  reachable (q_limit q) (from_query q) (checked_by dns clients gunzip inflate powi k)
    (find_source geo_db asn_db q batches) n r ->
  upsert_all earlier store_new = (Ok tt, st) -> storable (earlier ++ observed r) ->
  exists history, load (observe_all (observed r) st) = Ok history /\
    NoDup (key_of <$> history) /\
    (forall x, x ∈ history <-> exists a new, new = history_of a (observed r) /\ length new <= 1 /\
       history_of a earlier ++ new <> [] /\ x = remembered a (history_of a earlier ++ new)) /\
    (finished r = true -> channel_open r = true -> q_limit q = None ->
     forall a, a ∈ key_of <$> history <->
       a ∈ key_of <$> earlier \/ a ∈ key_of <$> find_source geo_db asn_db q batches).
Proof.
  intros Hr He Hs. destruct (observed_remembered _ _ _ Hs He) as (history & Hl & Hm).
  exists history. split; [done|]. destruct Hm as [Hnd Hin].
  assert (forall p w q', checked_by dns clients gunzip inflate powi k p w q' -> key_of q' = key_of p) as Hck.
  { intros p w q' [env Hc]. exact (check_preserves dns clients gunzip inflate powi (fun x => key_of x = key_of p)
      ltac:(done) ltac:(done) ltac:(done) k env p w q' Hc eq_refl). }
  destruct (keyed_reachable _ _ _ Hck _ _ _ Hr) as [Ho Ha].
  assert (NoDup (key_of <$> observed r)) as Hobs.
  { assert (NoDup (key_of <$> find_source geo_db asn_db q batches)) as Hsrc.
    { rewrite find_source_gathered. apply gathered_nodup. }
    apply (submseteq_NoDup _ _ Ho) in Hsrc. rewrite fmap_app in Hsrc. by apply NoDup_app in Hsrc as [? _]. }
  split_and!; [done| |].
  - intros x. rewrite Hin. setoid_rewrite history_app. split.
    + intros (a & Hne & ->). eexists a, _. split; [done|]. by split; [apply history_once|].
    + intros (a & new & -> & _ & Hne & ->). eauto.
  - intros Hf Hco Hlim a. rewrite (remembered_keys (earlier ++ observed r)) by done.
    rewrite fmap_app, elem_of_app. apply or_iff_compat_l. destruct (Ha Hlim Hco) as (_ & Hsrc & Hperm).
    unfold finished in Hf. rewrite !andb_true_iff, !bool_decide_eq_true in Hf.
    destruct Hf as [[Hac%negb_true_iff Hpe] Ht]. unfold unchecked in Hperm.
    rewrite Ht, Hpe, (Hsrc Hac) in Hperm. cbn in Hperm. rewrite app_nil_r in Hperm. by rewrite Hperm.
Qed.
End Durable.

(** ** Concrete inputs *)

Definition sample_batch : list (list Candidate) :=
  [[{| cand_host := bs "1.2.3.4"; cand_port := 8080; cand_protocols := ∅ |}]].

Lemma sample_source : @find_source AsciiOnly None None sample_query sample_batch = sample_inputs.
Proof. vm_compute. reflexivity. Qed.

Lemma one_storable p :
  key_wf (key_of p) -> f_nonneg (avg_resp_time p) = true ->
  (requests p <= u32_max)%N -> (errors_sum (errors p) <= u32_max)%N -> storable [p].
Proof.
  intros Hk Ha Hr He. constructor.
  - by intros x ->%list_elem_of_singleton.
  - by intros x ->%list_elem_of_singleton.
  - intros k. unfold history_of. rewrite filter_cons. case_decide; simpl; [|split; done].
    unfold seen_requests, seen_errors. simpl. split; lia.
  - unfold u64_max. simpl. lia.
Qed.

Lemma state_survives_witness :
  exists history, load (observe_all (observed sample_wf_run) (store_new : MemoryStore)) = Ok history /\
    NoDup (key_of <$> history) /\
    (forall x, x ∈ history <-> exists a new, new = history_of a (observed sample_wf_run) /\ length new <= 1 /\
       history_of a [] ++ new <> [] /\ x = remembered a (history_of a [] ++ new)) /\
    (finished sample_wf_run = true -> channel_open sample_wf_run = true -> q_limit sample_query = None ->
     forall a, a ∈ key_of <$> history <->
       a ∈ key_of <$> ([] : list Proxy) \/
       a ∈ key_of <$> @find_source AsciiOnly None None sample_query sample_batch).
Proof.
  apply (@state_survives MemoryStore _ memory_laws AsciiOnly (fun _ => None) no_clients no_inflate no_inflate
           plain_powi (sample_checker true) None None sample_query sample_batch 1 sample_wf_run []).
  - rewrite sample_source. exact sample_wf_reachable.
  - reflexivity.
  - change (observed sample_wf_run) with [sample_answer.2].
    apply one_storable; [apply (bool_decide_eq_true_1 _)|..]; vm_compute; congruence.
Defined.

Definition one_line_read (s : bytes) : option Json :=
  if bool_decide (s = print_json (serialize ProxyJson.sample_proxy))
  then Some (serialize ProxyJson.sample_proxy) else None.

Lemma saved_then_loaded_witness :
  let p := ProxyJson.sample_proxy in
  exists file, drain print_json (fun _ => []) FTxt None (Some (bs "f")) [p] =
      (write_stream print_json (fun _ => []) FTxt None [p], Some (Ok file)) /\
    read_ndjson one_line_read file = Ok (identity <$> [p]) /\
    (forall a, keeps_format (ca_format a) (ca_output_format a) ->
      exists pr, @check_load print_json (fun _ => []) (fun _ => []) AsciiOnly one_line_read file a = Ok pr /\
        sink pr = write_stream print_json (fun _ => []) (ca_format a) (ca_output_format a) [p]) /\
    state (@loaded_pool AsciiOnly [] (identity <$> [p]) PoolConfig_default) =
      fresh_entry <$> List.filter (fun p => @country_ok AsciiOnly p (countries PoolConfig_default)) (identity <$> [p]) /\
    exhausted (@loaded_pool AsciiOnly [] (identity <$> [p]) PoolConfig_default) = true.
Proof.
  intros p. apply (@saved_then_loaded AsciiOnly print_json one_line_read (fun _ => []) (fun _ => []) FTxt None [p]).
  - repeat constructor.
    + exists (JFloat (avg_resp_time p)), (JFloat (error_rate p)). unfold one_line_read. by rewrite bool_decide_true.
    + apply (bool_decide_eq_true_1 (LF ∉ print_json (serialize p))). by vm_compute.
    + vm_compute. discriminate.
    + vm_compute. discriminate.
  - repeat constructor; by vm_compute.
Defined.

(** A rerun of [serve] re-checks what it serves with its own query, whatever
    the fill was told, into the store it was given. *)
Lemma serve_rechecks `{Unicode} {ST} `{Store ST} from_str out s v :
  serve_cmd (ST := ST) from_str out s = Ok v ->
  (s_recheck s = false /\ sv_recheck v = None) \/
  (s_recheck s = true /\ exists k st, sv_recheck v = Some (k, st, recheck_config s) /\
     out_checker out (serve_query (s_args s)) = Ok k /\
     match s_state s with
     | Some spec => exists s0, out_store out spec = Ok s0 /\ st = inl s0
     | None => st = inr store_new
     end).
Proof.
  unfold serve_cmd. intros (addr & _ & Hv)%result_bind_Ok.
  apply result_bind_Ok in Hv as (st0 & _ & Hv). apply result_bind_Ok in Hv as (w & _ & Hv).
  apply result_bind_Ok in Hv as (u & _ & Hv). apply result_bind_Ok in Hv as (u' & _ & Hv).
  apply result_bind_Ok in Hv as (re & Hre & Hv). apply result_bind_Ok in Hv as (wa & _ & Hv).
  apply result_bind_Ok in Hv as (u'' & _ & Hv). injection Hv as <-. cbn [sv_recheck].
  unfold serve_recheck in Hre. destruct (s_recheck s); [right|left; by injection Hre as <-]. split; [done|].
  apply result_bind_Ok in Hre as (st & Hst & Hre). apply result_bind_Ok in Hre as (k & Hk & Hre).
  injection Hre as <-. exists k, st. split; [done|]. split.
  - unfold lift in Hk. destruct (out_checker out _); [by injection Hk as ->|done].
  - unfold recheck_store in Hst. destruct (s_state s) as [spec|]; [|by injection Hst as <-].
    destruct (out_store out spec) as [s0|]; [|done]. injection Hst as <-. eauto.
Qed.
