(* ===== verification/Mcp.v ===== *)
(** * The agent tools over a live pool: [src/mcp.rs]

    The three tools as functions on the pool: [get_proxy] checks a proxy out,
    describes it and puts it back; [pool_status] is a snapshot of the
    statistics; [report_dead] removes an address given as text.  The protocol
    adapter ([rmcp]) and the JSON around the values are third-party. *)

From stdpp Require Import base list gmap strings.
From Stdlib Require Import Ascii NArith ZArith Lia.
From S2P Require Import Prelude Bytes Text Float Net NetProofs Types ProxyModel Stats Pool PoolProofs.

Record ProxyInfo := {
  info_proxy : bytes;
  info_types : list bytes;
  info_avg_resp_time : f64;
  info_error_rate : f64;
}.

Record PoolStatus := {
  status_total : nat;
  status_working : nat;
  status_by_protocol : gmap bytes nat;
  status_by_country : gmap bytes nat;
  status_avg_resp_time : f64;
  status_errors : gmap bytes N;
}.

Definition info_of (p : Proxy) : ProxyInfo :=
  {| info_proxy := addr p; info_types := proto_as_str <$> types_keys p;
     info_avg_resp_time := avg_resp_time p; info_error_rate := error_rate p |}.

Definition handle_get_proxy (sch : Scheme) (cc : option bytes) (w : Pool) : option ProxyInfo * Pool :=
  match try_get sch cc w with
  | (Some p, w') => (Some (info_of p), add p w')
  | (None, w') => (None, w')
  end.

(** [None]: [Stats::from_proxies] panics. *)
Definition handle_pool_status (w : Pool) : option PoolStatus :=
  s ← Stats.from_proxies (proxies w);
  Some {| status_total := st_total s; status_working := st_working s;
          status_by_protocol :=
            list_to_map ((fun kv => (proto_as_str kv.1, kv.2)) <$> map_to_list (st_by_protocol s));
          status_by_country := st_by_country s; status_avg_resp_time := st_avg s;
          status_errors := st_errors s |}.

Definition handle_report_dead (a : bytes) (w : Pool) : bool * Pool :=
  match parse_socket_addr a with
  | Some (ip, pt) => remove ip pt w
  | None => (false, w)
  end.

Definition parse_scheme (s : bytes) : option Scheme :=
  let s := to_ascii_lowercase s in
  if bool_decide (s = bs "http") then Some SHttp
  else if bool_decide (s = bs "https") then Some SHttps
  else None.

(** The tool [get_proxy]: an unknown scheme leaves the pool alone. *)
Definition get_proxy (scheme : bytes) (country : option bytes) (w : Pool) : option ProxyInfo * Pool :=
  match parse_scheme scheme with
  | Some sch => handle_get_proxy sch country w
  | None => (None, w)
  end.

(** ** Lemmas *)

#[local] Arguments remove : simpl never.
#[local] Arguments add : simpl never.

(** What the tools may hand out for a request. *)
Definition eligible (sch : Scheme) (cc : option bytes) (e : Pooled) : Prop :=
  serves sch e = true /\ in_country cc (proxy e) = true.

Definition better_rank (w : Pool) (i j : nat) : Prop :=
  rank_le (rank (state w) (prefer_connect (config w)) i) (rank (state w) (prefer_connect (config w)) j).

Lemma eligible_elem sch cc (l : list Pooled) i :
  i ∈ (List.filter (fun ie => in_country cc (proxy ie.2))
         (List.filter (fun ie => serves sch ie.2) (enumerate l))).*1
  <-> exists e, l !! i = Some e /\ eligible sch cc e.
Proof.
  rewrite list_elem_of_fmap. setoid_rewrite list_elem_of_In. setoid_rewrite filter_In.
  setoid_rewrite filter_In. setoid_rewrite <-list_elem_of_In. split.
  - intros ([k e] & -> & [[Hin Hs] Hc]). apply elem_of_enumerate in Hin. by exists e.
  - intros (e & Hi & Hs & Hc). exists (i, e). rewrite elem_of_enumerate. by split_and!.
Qed.

Lemma try_get_spec sch cc w :
  match try_get sch cc w with
  | (Some p, w') => exists i e, state w !! i = Some e /\ p = proxy e /\ eligible sch cc e /\
      w' = set_state (take i (state w) ++ drop (S i) (state w)) w /\
      forall j e', state w !! j = Some e' -> eligible sch cc e' -> better_rank w i j
  | (None, w') => w' = w /\ forall e, e ∈ state w -> ~ eligible sch cc e
  end.
Proof.
  unfold try_get. set (t := (List.filter _ _).*1).
  destruct (best_by_priority _ t _) as [i|] eqn:E; cbn [mbind option_bind].
  - apply best_by_priority_least in E as [Hi Hb].
    assert (exists e, state w !! i = Some e /\ eligible sch cc e) as (e & He & Hel) by (by apply eligible_elem).
    unfold vec_remove. rewrite He. exists i, e. split_and!; try done.
    intros j e' Hj Hel'. apply Hb. apply eligible_elem. eauto.
  - split; [done|]. intros e He Hel. destruct (list_elem_of_lookup_1 _ _ He) as [i Hi].
    destruct (best_by_priority_total (state w) t (prefer_connect (config w))) as [? Ht]; [|congruence].
    intros Hn. apply (not_elem_of_nil i). rewrite <-Hn. apply eligible_elem. eauto.
Qed.

(** Putting the entry just taken back: it comes last, off the bench. *)
Lemma add_back p w i e :
  NoDup (entry_key <$> state w) -> state w !! i = Some e -> p = proxy e ->
  let others := take i (state w) ++ drop (S i) (state w) in
  add p (set_state others w) = notify_waiters (set_state (others ++ [fresh_entry p]) w) /\
  Forall (fun e' => entry_key e' <> entry_key e) others.
Proof.
  intros Hn Hi ->. cbn zeta. rewrite <-(take_drop_middle _ _ _ Hi) in Hn.
  rewrite fmap_app, fmap_cons, <-Permutation_middle in Hn. apply NoDup_cons in Hn as [Hni _].
  assert (Forall (fun e' => entry_key e' <> entry_key e) (take i (state w) ++ drop (S i) (state w))) as Hf.
  { apply Forall_forall. intros x Hx Hk. apply Hni. rewrite <-Hk, <-fmap_app. apply list_elem_of_fmap. eauto. }
  split; [|done]. unfold add. cbn [state set_state].
  destruct (existsb _ _) eqn:Ee; [|done].
  apply existsb_exists in Ee as (x & Hx%list_elem_of_In & Hk%bool_decide_eq_true).
  rewrite Forall_forall in Hf. by apply Hf in Hx.
Qed.

(** Removing the address of the last entry, no other having it. *)
Lemma remove_last l e w :
  Forall (fun e' => entry_key e' <> entry_key e) l ->
  state w = l ++ [e] -> remove (entry_key e).1 (entry_key e).2 w = (true, set_state l w).
Proof.
  intros Hf Hw. unfold remove. rewrite Hw.
  assert (List.filter (fun e' => negb (bool_decide (entry_key e' = ((entry_key e).1, (entry_key e).2)))) (l ++ [e]) = l)
    as ->.
  { rewrite <-surjective_pairing. rewrite List.filter_app. cbn. rewrite bool_decide_true by done. cbn.
    rewrite app_nil_r. clear Hw. induction Hf as [|x l Hx _ IH]; cbn; [done|]. by rewrite bool_decide_false, IH. }
  rewrite length_app. cbn [length]. rewrite (proj2 (Nat.eqb_neq _ _)); [done|lia].
Qed.

(** C37.  What a tool is given it can give back: an answered [get_proxy]
    describes a pooled proxy that serves the scheme in the country asked for
    and has the best health key of those that do; the pool keeps every other
    entry as it was, and that proxy too, at the end and off the bench, which
    wakes whoever waits for one; and
    reporting the address of the answer as dead removes exactly that proxy and
    says so.  An unanswered one changes nothing and no pooled proxy would have
    done. *)
Theorem served_then_reported sch cc w :
  NoDup (entry_key <$> state w) -> Forall (fun e => key_wf (entry_key e)) (state w) ->
  match handle_get_proxy sch cc w with
  | (Some info, w') => exists i e, state w !! i = Some e /\ info = info_of (proxy e) /\ eligible sch cc e /\
      (forall j e', state w !! j = Some e' -> eligible sch cc e' -> better_rank w i j) /\
      let others := take i (state w) ++ drop (S i) (state w) in
      w' = notify_waiters (set_state (others ++ [fresh_entry (proxy e)]) w) /\
      handle_report_dead (info_proxy info) w' = (true, set_state others w')
  | (None, w') => w' = w /\ forall e, e ∈ state w -> ~ eligible sch cc e
  end.
Proof.
  intros Hn Hwf. unfold handle_get_proxy. pose proof (try_get_spec sch cc w) as H.
  destruct (try_get sch cc w) as [[p|] w1]; [|done].
  destruct H as (i & e & Hi & -> & Hel & -> & Hb). exists i, e.
  destruct (add_back _ _ _ _ Hn Hi eq_refl) as [-> Hf]. split_and!; try done.
  unfold handle_report_dead, info_of. cbn [info_proxy]. rewrite parse_addr.
  - by apply (remove_last _ (fresh_entry (proxy e)) (notify_waiters _)).
  - rewrite Forall_forall in Hwf. apply Hwf. by eapply list_elem_of_lookup_2.
Qed.

(** Text that is not an address with its port removes nothing. *)
Lemma report_garbage a w : parse_socket_addr a = None -> handle_report_dead a w = (false, w).
Proof. unfold handle_report_dead. by intros ->. Qed.

Lemma parse_scheme_exact s sch :
  parse_scheme s = Some sch <->
  to_ascii_lowercase s = match sch with SHttp => bs "http" | SHttps => bs "https" end.
Proof.
  unfold parse_scheme. case_bool_decide as E1; [|case_bool_decide as E2]; destruct sch; rewrite ?E1, ?E2;
    split; intros; simplify_eq; done.
Qed.

Lemma served_then_reported_witness :
  let w := set_state [fresh_entry (sample_http 1); fresh_entry (sample_http 2)]
             (empty_pool PoolConfig_default true) in
  match handle_get_proxy SHttp None w with
  | (Some info, w') => exists i e, state w !! i = Some e /\ info = info_of (proxy e) /\ eligible SHttp None e /\
      (forall j e', state w !! j = Some e' -> eligible SHttp None e' -> better_rank w i j) /\
      let others := take i (state w) ++ drop (S i) (state w) in
      w' = notify_waiters (set_state (others ++ [fresh_entry (proxy e)]) w) /\
      handle_report_dead (info_proxy info) w' = (true, set_state others w')
  | (None, w') => w' = w /\ forall e, e ∈ state w -> ~ eligible SHttp None e
  end.
Proof.
  intros w. apply (served_then_reported SHttp None w).
  - apply (bool_decide_eq_true_1 (NoDup _)). vm_compute. reflexivity.
  - apply (bool_decide_eq_true_1 (Forall _ (state w))). vm_compute. reflexivity.
Defined.

(** [get_proxy] takes the proxy off the bench: the entry it puts back has none. *)
Lemma get_proxy_unbenches :
  let benched := {| proxy := sample_http 1; blocked_until := Some 1000000%N |} in
  let w := set_state [benched] (empty_pool PoolConfig_default true) in
  state (handle_get_proxy SHttp None w).2 = [fresh_entry (sample_http 1)].
Proof. vm_compute. reflexivity. Qed.

Example get_proxy_test :
  let w := set_state [fresh_entry (sample_http 1)] (empty_pool PoolConfig_default true) in
  ((fun i => info_proxy i) <$> (get_proxy (bs "HTTP") None w).1) = Some (bs "10.0.0.1:80") /\
  (get_proxy (bs "ftp") None w).1 = None /\
  (handle_report_dead (bs "10.0.0.1") w).1 = false /\ len (handle_report_dead (bs "10.0.0.1:80") w).2 = 0 /\
  (fun s => (status_total s, status_by_protocol s !! bs "HTTP")) <$> handle_pool_status w = Some (1, Some 1).
Proof. vm_compute. split_and!; reflexivity. Qed.
