(* ===== verification/Tui.v ===== *)
(** * The terminal dashboard: [src/tui.rs]

    The state the dashboard draws and its two transitions, a fresh snapshot of
    the pool and a key press; the texts and the numbers of a frame; and the
    event loop as a function of the events it meets.  Drawing ([ratatui]) and
    the terminal's modes are I/O. *)

From stdpp Require Import base list gmap strings.
From Stdlib Require Import Ascii NArith ZArith Lia Sorted.
From S2P Require Import Prelude Bytes Text Float Net Types ProxyModel Stats Pool.

(** ** Data *)

Record Row := {
  row_key : IpAddr * N;
  row_addr : bytes;
  row_protos : bytes;
  row_error_rate : f64;
  row_resp_time : f64;
  row_country : bytes;
}.

Inductive SortKey : Type := ByAddr | ByErrorRate | ByRespTime | ByCountry.

Definition RING_CAP : nat := 60.

Record DashboardState := {
  rows : list Row;
  snap : PoolSnapshot;
  sort : SortKey;
  history : gmap (IpAddr * N) (list f64);
  selected : nat;
}.

Definition PoolSnapshot_default : PoolSnapshot :=
  {| snap_http := 0; snap_https := 0; snap_total := 0; snap_error_rate := f_zero;
     snap_resp_time := f_zero; snap_probe_latency := f_zero |}.

Definition DashboardState_default : DashboardState :=
  {| rows := []; snap := PoolSnapshot_default; sort := ByRespTime; history := ∅; selected := 0 |}.

(** ** A fresh snapshot *)

Definition row_of (p : Proxy) : Row :=
  {| row_key := key_of p; row_addr := addr p;
     row_protos := join (bs ",") (proto_as_str <$> types_keys p);
     row_error_rate := error_rate p; row_resp_time := avg_resp_time p;
     row_country := from_option country_code [] (geo p) |}.

(** [while ring.len() > RING_CAP { ring.pop_front(); }]. *)
Fixpoint trim_ring (ring : list f64) : list f64 :=
  match ring with
  | [] => []
  | _ :: ring' => if RING_CAP <? length ring then trim_ring ring' else ring
  end.

Definition push_sample (h : gmap (IpAddr * N) (list f64)) (p : Proxy) : gmap (IpAddr * N) (list f64) :=
  <[key_of p := trim_ring (default [] (h !! key_of p) ++ [avg_resp_time p])]> h.

Definition count_proxy (acc : nat * nat * f64 * f64 * f64) (p : Proxy) : nat * nat * f64 * f64 * f64 :=
  let '(http, https, err_sum, rt_sum, probe_sum) := acc in
  (if bool_decide (SHttp ∈ schemes p) then S http else http,
   if bool_decide (SHttps ∈ schemes p) then S https else https,
   f_add err_sum (error_rate p), f_add rt_sum (avg_resp_time p), f_add probe_sum (probe_latency p)).

Definition header_of (ps : list Proxy) : PoolSnapshot :=
  let total := length ps in
  let '(http, https, err_sum, rt_sum, probe_sum) := foldl count_proxy (0, 0, f_zero, f_zero, f_zero) ps in
  {| snap_http := http; snap_https := https; snap_total := total;
     snap_error_rate := if 0 <? total then f_div err_sum (f_of_N (N.of_nat total)) else f_zero;
     snap_resp_time := if 0 <? total then f_div rt_sum (f_of_N (N.of_nat total)) else f_zero;
     snap_probe_latency := if 0 <? total then f_div probe_sum (f_of_N (N.of_nat total)) else f_zero |}.

Definition row_cmp (k : SortKey) (a b : Row) : comparison :=
  match k with
  | ByAddr => bytes_cmp (row_addr a) (row_addr b)
  | ByErrorRate => total_cmp (row_error_rate a) (row_error_rate b)
  | ByRespTime => total_cmp (row_resp_time a) (row_resp_time b)
  | ByCountry => bytes_cmp (row_country a) (row_country b)
  end.

Definition sort_rows (k : SortKey) (l : list Row) : list Row := sort_by (row_cmp k) l.

Definition apply (ps : list Proxy) (st : DashboardState) : DashboardState :=
  let l := sort_rows (sort st) (row_of <$> ps) in
  {| rows := l; snap := header_of ps; sort := sort st;
     history := foldl push_sample (history st) ps;
     selected := Nat.min (selected st) (length l - 1) |}.

(** ** A key press *)

Inductive KeyCode : Type := Char (c : ascii) | Esc | Down | Up | OtherKey.

Definition resort (k : SortKey) (st : DashboardState) : DashboardState :=
  {| rows := sort_rows k (rows st); snap := snap st; sort := k; history := history st; selected := selected st |}.

Definition move_to (i : nat) (st : DashboardState) : DashboardState :=
  {| rows := rows st; snap := snap st; sort := sort st; history := history st; selected := i |}.

Definition sort_key (c : ascii) : option SortKey :=
  if decide (c = "a"%char) then Some ByAddr
  else if decide (c = "e"%char) then Some ByErrorRate
  else if decide (c = "r"%char) then Some ByRespTime
  else if decide (c = "c"%char) then Some ByCountry
  else None.

Definition move_down (st : DashboardState) : DashboardState :=
  if bool_decide (rows st = []) then st
  else move_to (Nat.min (selected st + 1) (length (rows st) - 1)) st.

Definition move_up (st : DashboardState) : DashboardState := move_to (selected st - 1) st.

(** Whether to keep running, and the state. *)
Definition on_key (key : KeyCode) (st : DashboardState) : bool * DashboardState :=
  match key with
  | Esc => (false, st)
  | Down => (true, move_down st)
  | Up => (true, move_up st)
  | Char c =>
      if decide (c = "q"%char) then (false, st)
      else if decide (c = "j"%char) then (true, move_down st)
      else if decide (c = "k"%char) then (true, move_up st)
      else (true, from_option (fun k => resort k st) st (sort_key c))
  | OtherKey => (true, st)
  end.

(** ** What a frame shows *)

Definition nat_text (n : nat) : bytes := show_N (N.of_nat n).

Definition header_text (st : DashboardState) : bytes :=
  let s := snap st in
  bs "total " ++ nat_text (snap_total s) ++ bs " | http " ++ nat_text (snap_http s)
  ++ bs " | https " ++ nat_text (snap_https s) ++ bs " | avg err " ++ fmt2 (snap_error_rate s)
  ++ bs " | avg resp " ++ fmt2 (snap_resp_time s) ++ bs "s".

Definition table_rows (st : DashboardState) : list (list bytes) :=
  (fun r => [row_addr r; row_protos r; fmt2 (row_error_rate r); fmt2 (row_resp_time r); row_country r])
    <$> rows st.

Definition spark_data (st : DashboardState) : list N :=
  from_option (fun ring => (fun secs => f_round_u64 (f_mul secs (f_of_N 1000))) <$> ring) []
    (r ← rows st !! selected st; history st !! row_key r).

(** ** The event loop *)

Inductive Event : Type :=
  | Tick (ps : list Proxy)      (** the interval fired: the proxies of the pool *)
  | Press (key : KeyCode)
  | Ignored                     (** a release, a repeat, a resize *)
  | StreamEnd.                  (** the event stream failed or ended *)

(** One turn of the loop after its frame: [None] when it ends. *)
Definition turn (ev : Event) (st : DashboardState) : option DashboardState :=
  match ev with
  | Tick ps => Some (apply ps st)
  | Press key => let '(go, st') := on_key key st in if go then Some st' else None
  | Ignored => Some st
  | StreamEnd => None
  end.

(** The states drawn, from the one [run_top] starts with. *)
Fixpoint frames (evs : list Event) (st : DashboardState) : list DashboardState :=
  st :: match evs with
        | [] => []
        | ev :: evs' => from_option (frames evs') [] (turn ev st)
        end.

Definition run_top (initial : list Proxy) (evs : list Event) : list DashboardState :=
  frames evs (apply initial DashboardState_default).

(** The redraw interval: [tokio::time::interval] refuses a zero one. *)
Definition refresh_interval (refresh : duration) : duration := N.max refresh (from_millis 100).
