(* ===== verification/TuiProofs.v ===== *)
(** * What the dashboard shows

    After any events the dashboard shows the proxies of the last snapshot of
    the pool, sorted by the chosen column, with the pool's own header figures,
    a selection inside the table and, for each proxy ever seen, its latest
    response times. *)

From stdpp Require Import base list gmap strings.
From Stdlib Require Import Ascii NArith ZArith Lia Sorted.
From S2P Require Import Prelude Bytes Text Float Net Types ProxyModel Stats Pool PoolProofs Tui.

(** ** The orders *)

Lemma bytes_cmp_trans a b c : bytes_cmp a b <> Gt -> bytes_cmp b c <> Gt -> bytes_cmp a c <> Gt.
Proof.
  revert b c. induction a as [|x a IH]; intros [|y b] [|z c]; cbn [bytes_cmp]; try done.
  destruct (N.compare_spec (code x) (code y)), (N.compare_spec (code y) (code z)),
    (N.compare_spec (code x) (code z)); try done; try lia. apply IH.
Qed.

Lemma bytes_cmp_total a b : bytes_cmp a b = Gt -> bytes_cmp b a <> Gt.
Proof.
  revert b. induction a as [|x a IH]; intros [|y b]; cbn [bytes_cmp]; try done.
  destruct (N.compare_spec (code x) (code y)), (N.compare_spec (code y) (code x)); try done; try lia. apply IH.
Qed.

Lemma row_cmp_trans k a b c : row_cmp k a b <> Gt -> row_cmp k b c <> Gt -> row_cmp k a c <> Gt.
Proof. destruct k; cbn [row_cmp]; apply bytes_cmp_trans || apply total_cmp_trans. Qed.

Lemma row_cmp_total k a b : row_cmp k a b = Gt -> row_cmp k b a <> Gt.
Proof. destruct k; cbn [row_cmp]; apply bytes_cmp_total || apply total_cmp_total. Qed.

Definition sorted_rows (k : SortKey) : list Row -> Prop := StronglySorted (fun a b => row_cmp k a b <> Gt).

Lemma sort_rows_ok k l : sorted_rows k (sort_rows k l) /\ sort_rows k l ≡ₚ l.
Proof.
  split; [apply sort_by_sorted; [apply row_cmp_trans|apply row_cmp_total]|apply sort_by_perm].
Qed.

(** ** The rings *)

Definition latest (l : list f64) : list f64 := drop (length l - RING_CAP) l.

Lemma trim_ring_latest l : trim_ring l = latest l.
Proof.
  unfold latest. induction l as [|x l IH]; [done|]. cbn [trim_ring].
  destruct (Nat.ltb_spec RING_CAP (length (x :: l))) as [Hl|Hl]; cbn [length] in *.
  - rewrite IH. replace (S (length l) - RING_CAP) with (S (length l - RING_CAP)) by lia. done.
  - by replace (S (length l) - RING_CAP) with 0 by lia.
Qed.

Lemma latest_snoc l x : latest (latest l ++ [x]) = latest (l ++ [x]).
Proof.
  unfold latest. rewrite !length_app, length_drop. cbn [length].
  destruct (decide (length l <= RING_CAP)) as [Hl|Hl].
  - replace (length l - RING_CAP) with 0 by lia. by rewrite drop_0, Nat.sub_0_r.
  - rewrite !drop_app_le by (rewrite ?length_drop; unfold RING_CAP in *; lia). rewrite drop_drop. f_equal. f_equal.
    unfold RING_CAP in *; lia.
Qed.

(** The response times of one address over some proxies, oldest first. *)
Definition samples (k : IpAddr * N) (ps : list Proxy) : list f64 :=
  avg_resp_time <$> filter (fun p => key_of p = k) ps.

Definition ring_of (k : IpAddr * N) (ps : list Proxy) : option (list f64) :=
  if bool_decide (samples k ps = []) then None else Some (latest (samples k ps)).

Lemma push_sample_ring ps h p k :
  (forall k, h !! k = ring_of k ps) -> push_sample h p !! k = ring_of k (ps ++ [p]).
Proof.
  intros Hh. unfold push_sample, ring_of, samples. rewrite filter_app, filter_cons, filter_nil.
  destruct (decide (key_of p = k)) as [<-|Hk].
  - rewrite lookup_insert_eq, trim_ring_latest, Hh. rewrite fmap_app. cbn [fmap list_fmap].
    rewrite (bool_decide_false (_ ++ [_] = [])) by (by intros [_ ?]%app_eq_nil). f_equal.
    unfold ring_of. case_bool_decide as E.
    + unfold samples in E. by rewrite E.
    + cbn [default]. apply latest_snoc.
  - rewrite lookup_insert_ne, app_nil_r by done. apply Hh.
Qed.

Lemma push_samples_ring qs ps h k :
  (forall k, h !! k = ring_of k ps) -> foldl push_sample h qs !! k = ring_of k (ps ++ qs).
Proof.
  revert ps h. induction qs as [|q qs IH]; intros ps h Hh; cbn [foldl]; [by rewrite app_nil_r|].
  rewrite (IH (ps ++ [q])), <-app_assoc; [done|]. intros k'. by apply push_sample_ring.
Qed.

(** ** The header is the pool's snapshot *)

Lemma header_of_snapshot w : header_of (proxies w) = snapshot w.
Proof.
  unfold header_of, snapshot, proxies. rewrite length_fmap.
  assert (forall l h hs er rt pr, foldl count_proxy (h, hs, er, rt, pr) (proxy <$> l) =
            let '(h', hs', (er', rt', pr')) := foldl snapshot_step (h, hs, (er, rt, pr)) l in
            (h', hs', er', rt', pr')) as Hf.
  { induction l as [|e l IH]; intros h hs er rt pr; [done|]. apply IH. }
  rewrite Hf. by destruct (foldl _ _ _) as [[h hs] [[er rt] pr]].
Qed.

(** ** The invariant *)

(** The dashboard after the snapshots [shots] of the pool, oldest first. *)
Record shows (shots : list (list Proxy)) (st : DashboardState) : Prop := {
  shows_rows : rows st ≡ₚ row_of <$> default [] (last shots);
  shows_sorted : sorted_rows (sort st) (rows st);
  shows_header : snap st = header_of (default [] (last shots));
  shows_rings k : history st !! k = ring_of k (concat shots);
  shows_selected : selected st = 0 \/ selected st < length (rows st);
}.

Lemma apply_shows shots ps st : (forall k, history st !! k = ring_of k (concat shots)) ->
  shows (shots ++ [ps]) (apply ps st).
Proof.
  intros Hr. destruct (sort_rows_ok (sort st) (row_of <$> ps)) as [Hs Hp].
  constructor; unfold apply; cbn [rows sort snap history selected].
  - by rewrite last_snoc.
  - done.
  - by rewrite last_snoc.
  - intros k. rewrite concat_app. cbn [concat]. rewrite app_nil_r. by apply push_samples_ring.
  - lia.
Qed.

Lemma resort_shows shots k st : shows shots st -> shows shots (resort k st).
Proof.
  intros [Hr Hs Hh Hk Hsel]. destruct (sort_rows_ok k (rows st)) as [Hs' Hp].
  constructor; unfold resort; cbn [rows sort snap history selected]; try done.
  - by rewrite Hp.
  - by rewrite Hp.
Qed.

Lemma move_shows shots i st : shows shots st -> i = 0 \/ i < length (rows st) -> shows shots (move_to i st).
Proof. intros [Hr Hs Hh Hk Hsel] Hi. by constructor. Qed.

Lemma on_key_shows shots key st : shows shots st -> shows shots (on_key key st).2.
Proof.
  intros H. pose proof (shows_selected _ _ H) as Hsel.
  assert (shows shots (move_down st)) as Hdown.
  { unfold move_down. case_bool_decide as E; [done|]. apply move_shows; [done|]. right.
    destruct (rows st); [done|]. simpl. lia. }
  assert (shows shots (move_up st)) as Hup by (apply move_shows; [done|lia]).
  destruct key; cbn [on_key]; repeat case_decide; cbn [snd]; try done.
  destruct (sort_key c); [by apply resort_shows|done].
Qed.

Definition snapshots (evs : list Event) : list (list Proxy) :=
  omap (fun ev => match ev with Tick ps => Some ps | _ => None end) evs.

Lemma frames_show evs shots st n st' :
  shows shots st -> frames evs st !! n = Some st' -> shows (shots ++ snapshots (take n evs)) st'.
Proof.
  revert shots st n. induction evs as [|ev evs IH]; intros shots st [|n] H; cbn [frames lookup list_lookup take].
  - intros [= <-]. by rewrite app_nil_r.
  - done.
  - intros [= <-]. by rewrite app_nil_r.
  - destruct ev as [ps|key| |]; cbn [turn from_option]; [| |apply IH; done|done].
    + intros Hn. apply (IH (shots ++ [ps])) in Hn; [|by apply apply_shows, H].
      by rewrite <-app_assoc in Hn.
    + pose proof (on_key_shows shots key st H) as H2. destruct (on_key key st) as [[|] st1]; [|done].
      by apply IH.
Qed.

(** C38.  Every frame shows the pool as it was last read: whatever keys are
    pressed and however often the pool is read, each state drawn has exactly
    the rows of the last snapshot, in the order of the chosen column, under
    the figures the pool itself reports for that snapshot; the selection is a
    row of the table unless there is none; and the history of every address is
    its latest sixty response times over all the snapshots so far, also for
    addresses no longer in the pool. *)
Theorem frame_exact initial evs n st :
  run_top initial evs !! n = Some st ->
  let shots := initial :: snapshots (take n evs) in
  let shown := default [] (last shots) in
  rows st ≡ₚ row_of <$> shown /\
  sorted_rows (sort st) (rows st) /\
  (forall w, proxies w = shown -> snap st = snapshot w) /\
  (shown <> [] -> is_Some (rows st !! selected st)) /\
  (forall k, history st !! k = ring_of k (concat shots)).
Proof.
  intros Hn. cbn zeta.
  assert (shows [initial] (apply initial DashboardState_default)) as H0
    by (apply (apply_shows []); intros k; done).
  destruct (frames_show _ _ _ _ _ H0 Hn) as [Hr Hs Hh Hk Hsel]. cbn [app] in *.
  split_and!; try done.
  - intros w Hw. by rewrite Hh, <-Hw, header_of_snapshot.
  - intros Hne. apply lookup_lt_is_Some_2. apply Permutation_length in Hr. rewrite length_fmap in Hr.
    destruct (default [] (last _)) as [|p l]; [done|]. simpl in Hr. lia.
Qed.

Definition sample_row_proxy (n : N) (secs : N) : Proxy :=
  record_attempt (Some (f_of_N secs)) None (Proxy_new (V4 10 0 0 n) 80 ∅).

Definition sample_events : list Event :=
  [Press Down; Press (Char "a"); Tick [sample_row_proxy 1 3]; Press (Char "q"); Ignored].

Lemma frame_exact_witness :
  let initial := [sample_row_proxy 2 2; sample_row_proxy 1 1] in
  let st := apply [sample_row_proxy 1 3] (resort ByAddr (move_to 1 (apply initial DashboardState_default))) in
  let shots := initial :: snapshots (take 3 sample_events) in
  let shown := default [] (last shots) in
  rows st ≡ₚ row_of <$> shown /\
  sorted_rows (sort st) (rows st) /\
  (forall w, proxies w = shown -> snap st = snapshot w) /\
  (shown <> [] -> is_Some (rows st !! selected st)) /\
  (forall k, history st !! k = ring_of k (concat shots)).
Proof.
  intros initial st. apply (frame_exact initial sample_events 3 st). reflexivity.
Defined.

(** The run ends with the key that quits; the selection has followed the table. *)
Example sample_run :
  let l := run_top [sample_row_proxy 2 2; sample_row_proxy 1 1] sample_events in
  (selected <$> l) = [0; 1; 1; 0] /\
  ((fun st => row_addr <$> rows st) <$> l)
    = [[bs "10.0.0.1:80"; bs "10.0.0.2:80"]; [bs "10.0.0.1:80"; bs "10.0.0.2:80"];
       [bs "10.0.0.1:80"; bs "10.0.0.2:80"]; [bs "10.0.0.1:80"]] /\
  (spark_data <$> l) = [[1000]; [2000]; [2000]; [1000; 3000]]%N.
Proof. vm_compute. done. Qed.
